(* ===== verification/_CoqProject ===== *)
-Q . S2P
Prelude.v
StdFmt.v
Machine.v
Lock.v
LockMachine.v
LockInv.v
LockTheorems.v
LockWeak.v
LockWeakInv.v
LockWeakState.v
LockWeakSteps.v
LockWeakTheorems.v
RawTable.v
Util.v
Shard.v
ShardOps.v
ShardModel.v
ShardSim.v
Evict.v
Safety.v
Exact.v
ShardSpec.v
Policy.v
ShardHistory.v
TryResult.v
Cache.v
Guards.v
Entry.v
Unwind.v
Threads.v
GuardMachine.v
Iter.v
MapTrait.v
Bridge.v
Serde.v
ReadOnly.v
Fmt.v
ThreadLocks.v
CacheSpec.v
ThreadInv.v
ThreadSteps.v
ThreadProgress.v
ThreadFinish.v
CacheEffects.v
EntrySpec.v
UnwindSpec.v
GuardInv.v
GuardSteps.v
IterSpec.v
BridgeSpec.v
Api.v
Jobs.v
JobSpec.v
JobRuns.v
Concurrent.v
ConcurrentSim.v
SweepSpec.v
Concrete.v
ShardTheorems.v
CacheTheorems.v
EntryTheorems.v
GuardTheorems.v
IterTheorems.v
FmtTheorems.v
BridgeTheorems.v
UnwindTheorems.v
SendSync.v
ViewTheorems.v
SerdeTheorems.v
ApiTheorems.v
ThreadTheorems.v
