(* ===== verification/Prelude.v ===== *)
(** * neocache: a verification library for the concurrent S3-FIFO cache

    ** The program

    neocache (src/src/) is a concurrent hash map with S3-FIFO eviction. A
    [NeoCache] (lib.rs) is an array of shards; a key is stored in the shard its
    hash selects. A shard ([ShardData], shard.rs) holds a hashbrown table of
    [(K, CacheEntry<V>)] pairs and the eviction state: a small and a main FIFO
    queue of (hash, key) pairs, a ghost set of hashes of evicted keys, and two
    counters of live entries. Each shard is protected by a reader-writer lock
    (lock.rs). Lookups return guards ([Ref], [RefMut], mapref/one.rs) that keep
    the lock of their shard; the entry API (mapref/entry.rs) works under the
    write lock. New keys enter the small queue, or main when their hash is in
    the ghost set; a full shard evicts before inserting. Removals leave stale
    keys in the queues, which later sweeps skip.

    ** Files and the code they model

    - Prelude: scope, tactics, hint database, lemmas on lists and maps.
    - StdFmt: the formatting traits of the standard library, with writers that
      may fail, the builders [debug_struct] and [debug_map] and the adapter
      that indents nested output.
    - Machine: outcomes of a Rust computation ([Ret], [Panic], [Abort],
      [Undefined] for a violated unsafe contract, [OutOfFuel], [Blocked] on a
      lock) with their monad; [usize] arithmetic at 32 or 64 bits, with
      overflow checks (debug) or wrap-around (release), as the class [Target].
    - Lock (lock.rs): the bit-packed state word of [RawRwLock] and the effect
      of each function on it in the absence of interference. LockMachine: the
      same functions as programs of atomic steps, run by any number of threads
      in any interleaving; LockInv: the invariant of that machine.
    - LockWeak (lock.rs, util.rs): the programs of LockMachine on a weak memory:
      the messages written to the state word in modification order, what each
      thread has read of them and which data accesses happen before its next
      step, with the orderings the calls of lock.rs ask for. LockWeakInv,
      LockWeakState, LockWeakSteps: its invariant, around that of LockInv.
    - RawTable: hashbrown's [RawTable] and [BuildHasher], third-party code, as
      interfaces: class [RawTable] has the operations, [RawTableSpec] the
      behaviour the sources rely on, in terms of a ghost map from buckets to
      items and the validity of insert slots. It is the documented behaviour
      but for [rt_remove_slots] (a removal keeps pending insert slots valid),
      which the sources assume and argue for, and hashbrown does not promise.
      [ListTable] is an executable instance that satisfies them; it evaluates
      the examples.
    - Util (util.rs): [SharedValue], [CacheEntry], [bump_freq],
      [map_in_place_2] with its [AbortOnPanic] guard.
    - Shard (shard.rs): [ShardData] with every operation of the file.
    - ShardOps (lib.rs, mapref/entry.rs): the bodies of the map operations
      between locking and unlocking a shard. The insertion of a new key is
      there three times, as in the sources: [insert_vacant] ([_insert]),
      [vacant_fill] ([VacantEntry::insert]) and [entry_fill]
      ([VacantEntry::insert_entry]).
    - ShardModel, ShardSim: an abstract shard (finite map, key queues,
      counters) and the simulation of every shard operation by it, which shows
      that no unsafe block violates the contract of the table.
    - Evict, Safety, Exact: one eviction as a step relation, the invariant all
      histories keep, and the stronger one of histories without removals.
    - ShardSpec, ShardHistory: the operations on the key-value map of a shard;
      sequences of operations. Policy: S3-FIFO as a deterministic step
      relation on what [policy] reads off a shard.
    - TryResult (try_result.rs), Cache (lib.rs, mapref/one.rs), Entry
      (mapref/entry.rs): the sharded cache, its guards and its entries.
    - Guards (mapref/one.rs): the accessors of guards and the mapped guards
      [MappedRef] and [MappedRefMut]; a pointer to a part of a value is a
      [place], a getter and a setter that obey the laws of memory.
    - Unwind (lib.rs, mapref/entry.rs): the operations that run a closure of
      the caller, with closures that may panic, and insertions whose clone of
      the key may panic; UnwindSpec: what they leave.
    - GuardMachine: a step function in which any number of live guards and
      entries are interleaved with all operations; GuardInv, GuardSteps: its
      invariant and the steps that keep it.
    - Iter (iter.rs, mapref/multiple.rs): iterators with the reference counts
      of the guards they share with the references they yield. ReadOnly
      (read_only.rs): the lock-free view.
    - MapTrait (t.rs, lib.rs): the [Map] trait as a class, its provided
      methods, the instance of [NeoCache], and the public methods, which
      forward to the trait; [IntoParallelIterator] (rayon_impl.rs) over a
      parameter for rayon's [par_bridge].
    - Bridge: that parameter instantiated by the events of a parallel
      iteration; BridgeSpec: the owners of the shared guards.
    - Serde (ser.rs): serialization over an abstract format, class
      [MapFormat], and what a format promises, [MapFormatSpec].
    - Fmt (lib.rs, mapref/one.rs, read_only.rs): [Debug] and [Display].
    - SendSync (iter.rs, util.rs, mapref/*.rs): the [unsafe impl]s of [Send] and
      [Sync], against what the methods of each type hand to their caller.
    - CacheSpec, CacheEffects, EntrySpec: the invariant of the cache and the
      effect of its operations and entries; IterSpec: loops over iterators as
      functions on the list of shards.
    - Api: sequences of public calls and the abstract map they refine.
    - Threads: any number of threads running cache operations, given as plans
      of critical sections: an atomic machine (a section is one step) and a
      fine one, which takes and releases each lock by the steps of LockMachine
      and runs [bump_freq] as loads and compare-exchanges. Jobs (lib.rs,
      iter.rs, mapref/entry.rs): the plans of the operations. ThreadLocks,
      ThreadInv, ThreadSteps: the invariant of the fine machine and the
      refinement of the atomic one; ThreadProgress, ThreadFinish: who waits
      for whom, and how much work is left.
    - JobSpec, JobRuns: the plans are safe, and without interference they are
      the operations of Cache, Iter and Entry. Concurrent: the abstract map
      under concurrent use; ConcurrentSim, SweepSpec: the threads refine it.
    - Concrete: an instance of all parameters.
    - ShardTheorems, CacheTheorems, EntryTheorems, GuardTheorems,
      IterTheorems, FmtTheorems, BridgeTheorems, UnwindTheorems, ViewTheorems,
      SerdeTheorems, ApiTheorems, ThreadTheorems, LockTheorems,
      LockWeakTheorems (and the ends of Lock and SendSync): the properties,
      numbered C1, C2, ...

    The components are layered by interfaces: the shard is proved against
    [RawTableSpec] for any table, hasher, target and key type, the cache and
    its entries against the specifications of ShardSpec, the provided methods
    of the trait against [MapSpec] for any implementation, and the round trip
    of serialization against [MapFormatSpec] for any format.

    ** What is shown

    - Shards: every history of operations returns, in both overflow regimes:
      the eviction loops terminate, the counters never overflow or underflow,
      no unsafe contract is violated, and the invariant (capacity, ghost size,
      parallel queues, frequencies) holds; insertion and eviction refine the
      step relation of Policy, which fixes every frequency, queue, ghost and
      counter, and whose sweep of the main queue evicts the first of the least
      frequently used keys; counters are exact as long as nothing is removed
      explicitly, and may otherwise overestimate the entries by less than the
      capacity, for good (with a concrete history); stale queue entries are
      not bounded.
      Both eviction loops are shown to end within explicit bounds.
    - Cache: construction and its panics, routing in bounds, the effect of
      every map operation on the map of all pairs, the capacity bound,
      blocking and non-blocking access.
    - Public interface: every sequence of public calls returns and refines an
      abstract map that may only forget an entry when a new key is inserted
      into a bounded cache; every field stays within its Rust type.
    - Guards: whatever guards and entries are alive, a call waits only for a
      guard of its shard or returns without undefined behaviour, and guards
      keep pointing to the pairs they were taken for; writes through mapped
      guards change exactly the projected part.
    - Entries: equivalence with plain insertion (the three copies of that code
      agree), removal, replacement, errors.
    - Panics: a closure that panics in [remove_if], [remove_if_mut], [view],
      [retain], [or_insert_with] or [and_modify], and a clone of the key that
      panics in an insertion, leave a cache that satisfies its invariant, with
      every lock free; [alter] aborts the process.
    - Iteration: every pair is visited once under the lock of its shard, which
      the references keep, also when references are dropped in any order by
      parallel workers; [alter_all], [into_iter] with [collect], the
      read-only view and clones agree with the contents, and a clone is in the
      eviction state of the original.
    - Serialization: every pair is written once, errors of the format leave
      the cache unlocked, reading ends with all entries or the error of the
      format, and a round trip keeps the contents.
    - Lock: in every interleaving mutual exclusion holds, no assertion fails
      and no wake-up is lost; a thread running alone computes the functions
      the cache model uses.
    - Memory orderings: with the acquire, release and relaxed orderings of the
      source the same holds although loads may be stale. Every write to the
      state word goes to the end of its modification order and is a step of the
      sequentially consistent machine. What the lock protects is free of data
      races, and a thread under the write lock sees every increment of the
      relaxed frequency counters.
    - Formatting: exactly the entries are written, in the plain and in the
      alternate form; the first error of the writer is returned, nothing is
      written after it, and no lock is kept.
    - Thread bounds: which [Send] and [Sync] declarations are sound for every
      key, value and hasher, and which admit a value that must not cross.
    - Concurrent use: in every interleaving of any number of threads, at the
      level of the atomic steps of the locks and of the frequency counter, the
      invariant of the cache holds throughout, nothing panics, no shard is
      accessed while it is written, and the threads never deadlock (they can
      always complete all jobs), although iterators lock a shard while they
      hold the one before. Calls on one key
      are linearizable: they act on one abstract map, atomically, between call
      and return. Calls over all shards visit the parts of the map in order,
      each atomically; an iteration yields no key twice, every pair that is
      there all the time, and none that never is.

    ** Bounds and fuel

    The second-chance loop gets one more turn than the sum of all frequencies
    and the eviction loop two more than the entries plus the small queue;
    [m_evict_main_loop_cases] and [m_room_loop_returns] prove them sufficient.
    The loop of [next] gets one turn per remaining shard and one more, and a
    loop over an iterator one turn per stored pair and one more. How often
    the loop of deserialization turns is up to the format: one turn per entry
    it hands out and one more are enough ([visit_map_result]).
    Threads needs no fuel: executions are relations, [run_schedule] runs a
    given schedule.
    The lock has a limit on simultaneous readers (a quarter of [usize::MAX]);
    the theorems on interleavings assume fewer threads than that.
    An unbounded shard counts its entries in a [usize], so statements about it
    assume fewer than [usize::MAX] of them.

    ** Not modelled

    - Weak memory other than in LockWeak: Threads takes the steps of
      LockMachine and of the counter to be sequentially consistent, which
      LockWeak justifies for the lock and for what it protects (no data races,
      newest counters under the write lock; a reader that increments a counter
      replaces its newest value, as every read-modify-write does). LockWeak
      has no load buffering (a load that reads a later write).
    - Threads run the calls of Api, [try_get], [try_get_mut], [entry] with
      [or_insert] and loops over [iter], and drop each guard before their next
      call; guards that stay alive across calls are interleaved in
      GuardMachine, where a call is one step.
    - serde's and rayon's own code, parameters of the model; the memory layout
      ([CachePadded], raw pointers, allocation failure); the type checker's
      part in [Send] and [Sync] (types without a declaration).
    - Unwinding other than in Unwind: elsewhere a panic ends a computation and
      the state it leaves is not kept. Panics of [Hash] and [Eq] of the key, of
      [Clone] when a whole cache is cloned, and of the closures of mapped guards
      are not modelled.
    - Keys and values are pure data: [Clone], [Eq] and [Hash] of the key are
      lawful, and closures are functions (with explicit state for [FnMut]). *)

From stdpp Require Import base gmap sets list fin_maps.

(** Notations of the development live in their own scope. *)
Declare Scope neo_scope.
Delimit Scope neo_scope with neo.

(** The hint database used by [neo_auto]. *)
Create HintDb neo discriminated.

(** ** Tactics *)

(** Splits conjunctions and existentials of the context, substitutes
    equations and simplifies constructor equalities. *)
Ltac neo_simp :=
  repeat match goal with
  | H : _ ∧ _ |- _ => destruct H
  | H : ∃ _, _ |- _ => destruct H
  | H : (_, _) = (_, _) |- _ => injection H as ?; subst
  | H : Some _ = Some _ |- _ => injection H as ?; subst
  end; simplify_eq/=.

(** Case analysis on the scrutinee of the first [match] of the goal. *)
Ltac neo_case :=
  match goal with
  | |- context [match ?x with _ => _ end] => destruct x eqn:?
  end.

(** Rewrites with an equation about a term the goal has in simplified form. *)
Ltac cbn_rewrite H :=
  let E := fresh in pose proof H as E; cbn in E |- *; rewrite E; clear E; cbn.

Ltac neo_auto := eauto with neo lia.

(** ** Lists and finite maps *)

Lemma sum_list_elem_le (l : list nat) i x : l !! i = Some x → (x ≤ sum_list l)%nat.
Proof.
  revert i. induction l as [|y l IH]; intros [|i]; try done; cbn; [intros [= ->]; lia|].
  intros Hi%IH. lia.
Qed.

Section lists.
Context {A : Type}.

Lemma Forall2_impl_in {B} (P Q : A → B → Prop) l k :
  Forall2 P l k → (∀ x y, x ∈ l → P x y → Q x y) → Forall2 Q l k.
Proof.
  induction 1 as [|x y l k Hxy _ IH]; intros HPQ; constructor.
  - apply HPQ; [by left | done].
  - apply IH. intros x' y' Hx'. apply HPQ. by right.
Qed.

(** Reading a finite map along a duplicate-free enumeration of its domain. *)
Lemma omap_lookup_Permutation (m : gmap nat A) (l : list nat) :
  NoDup l → (∀ b, b ∈ l ↔ is_Some (m !! b)) →
  omap (λ b, m !! b) l ≡ₚ (map_to_list m).*2.
Proof.
  revert m. induction l as [|b l IH]; intros m Hnd Hdom.
  - replace m with (∅ : gmap nat A); [by rewrite map_to_list_empty|].
    symmetry. apply map_eq. intros i. rewrite lookup_empty.
    apply eq_None_not_Some. rewrite <-Hdom. apply not_elem_of_nil.
  - apply NoDup_cons in Hnd as [Hb Hnd].
    destruct (proj1 (Hdom b)) as [x Hx]; [by left|].
    rewrite <-(map_to_list_delete m b x Hx). cbn. rewrite Hx. constructor.
    rewrite <-(IH (delete b m)); [|done|].
    + replace (omap (λ b0, delete b m !! b0) l) with (omap (λ b0, m !! b0) l); [done|].
      clear -Hb. induction l as [|c l IH]; [done|]. cbn.
      apply not_elem_of_cons in Hb as [Hc Hb].
      rewrite lookup_delete_ne by done. by rewrite IH.
    + intros c. destruct (decide (b = c)) as [<-|].
      * rewrite lookup_delete_eq. split; [done | by intros [? ?]].
      * rewrite lookup_delete_ne by done. rewrite <-Hdom, elem_of_cons.
        split; [by right | by intros [-> | ?]].
Qed.
End lists.

(** The pairs of a disjoint union. *)
Lemma map_to_list_disj_union `{Countable K} {A} (m1 m2 : gmap K A) :
  m1 ##ₘ m2 → map_to_list (m1 ∪ m2) ≡ₚ map_to_list m1 ++ map_to_list m2.
Proof.
  intros Hd. apply NoDup_Permutation.
  - apply NoDup_map_to_list.
  - apply NoDup_app. split_and!; [apply NoDup_map_to_list| |apply NoDup_map_to_list].
    intros [k x] H1%elem_of_map_to_list H2%elem_of_map_to_list.
    by eapply (map_disjoint_spec m1 m2).
  - intros [k x]. rewrite elem_of_app, !elem_of_map_to_list. by apply lookup_union_Some.
Qed.
