(* ===== verification/StdFmt.v ===== *)
(** * StdFmt: the standard library's formatting traits

    What [Debug] and [Display] implementations of the sources call: writers
    that may fail, the [{:?}] and [{:#?}] output of [Formatter::debug_struct]
    and [Formatter::debug_map], and the adapter that indents nested output. A
    builder remembers the first error and does nothing from then on; its
    [finish] returns it.

    The reference is the list of strings the builders write ([struct_chunks],
    [map_chunks]); [write_all] writes such a list up to the first failure. *)

From stdpp Require Import base list strings.
From S2P Require Import Prelude.

Inductive fmt_result := FmtOk | FmtError.

#[global] Instance fmt_result_eq_dec : EqDecision fmt_result.
Proof. solve_decision. Defined.

(** [fmt::Write]. *)
Class Write (W : Type) := write_str : string → W → W * fmt_result.

(** [a; b?]: [b] runs if [a] did not fail. *)
Definition and_then {W} (a b : W → W * fmt_result) (w : W) : W * fmt_result :=
  match a w with (w, FmtOk) => b w | (w, FmtError) => (w, FmtError) end.
Notation "a ;? b" := (and_then a b) (at level 62, right associativity) : neo_scope.
Open Scope neo_scope.

Definition fmt_ok {W} (w : W) : W * fmt_result := (w, FmtOk).

(** A [String] as a writer: it never fails. *)
#[global] Instance string_write : Write string := λ s w, (w +:+ s, FmtOk).

(** ** Traits

    [alternate] is the flag of [{:#?}]; implementations are generic in the
    writer. *)
Class Debug (A : Type) := debug_fmt : ∀ W, Write W → bool → A → W → W * fmt_result.
Class Display (A : Type) := display_fmt : ∀ W, Write W → A → W → W * fmt_result.
Arguments debug_fmt {_ _ W _} _ _ _.
Arguments display_fmt {_ _ W _} _ _.

(** ** [PadAdapter] *)

Definition newline : Ascii.ascii := Ascii.ascii_of_nat 10.

(** [str::split_inclusive] with a line break. *)
Fixpoint split_inclusive (s : string) : list string :=
  match s with
  | EmptyString => []
  | String a s' =>
      if decide (a = newline) then String a EmptyString :: split_inclusive s'
      else match split_inclusive s' with
           | [] => [String a EmptyString]
           | l :: ls => String a l :: ls
           end
  end.

Fixpoint ends_with_newline (s : string) : bool :=
  match s with
  | EmptyString => false
  | String a EmptyString => bool_decide (a = newline)
  | String _ s' => ends_with_newline s'
  end.

(** The writer under a nested value and whether it is at the start of a line. *)
Record PadAdapter (W : Type) := mkPad { pad_buf : W; on_newline : bool }.
Arguments mkPad {W} _ _.
Arguments pad_buf {W} _.
Arguments on_newline {W} _.

Section pad.
Context {W : Type} `{!Write W}.

Fixpoint pad_lines (ls : list string) (p : PadAdapter W) : PadAdapter W * fmt_result :=
  match ls with
  | [] => (p, FmtOk)
  | l :: ls' =>
      let '(w, r) := (if on_newline p then write_str "    " else fmt_ok) (pad_buf p) in
      match r with
      | FmtError => (mkPad w (on_newline p), FmtError)
      | FmtOk =>
          let '(w, r) := write_str l w in
          match r with
          | FmtError => (mkPad w (ends_with_newline l), FmtError)
          | FmtOk => pad_lines ls' (mkPad w (ends_with_newline l))
          end
      end
  end.

#[global] Instance pad_write : Write (PadAdapter W) := λ s p, pad_lines (split_inclusive s) p.

(** Writes through an adapter that starts (or goes on) in state [nl]; the
    writer underneath and the state afterwards. *)
Definition padded (nl : bool) (f : PadAdapter W → PadAdapter W * fmt_result) (w : W) : W * bool * fmt_result :=
  let '(p, r) := f (mkPad w nl) in (pad_buf p, on_newline p, r).
End pad.

(** ** Builders *)

Section builders.
Context {W : Type} `{!Write W}.

(** [DebugStruct]: the writer, the result so far, and whether a field was
    written. *)
Record DebugStruct := mkStruct { ds_fmt : W; ds_result : fmt_result; ds_has_fields : bool }.

Definition debug_struct (name : string) (w : W) : DebugStruct :=
  let '(w, r) := write_str name w in mkStruct w r false.

Definition field {A} `{!Debug A} (alternate : bool) (name : string) (value : A) (b : DebugStruct) : DebugStruct :=
  match ds_result b with
  | FmtError => mkStruct (ds_fmt b) FmtError true
  | FmtOk =>
      let '(w, r) :=
        (if alternate then
           (if ds_has_fields b then fmt_ok else write_str (" {" +:+ String newline "")) ;?
           (λ w, let '(w, _, r) :=
              padded true (write_str name ;? write_str ": " ;? debug_fmt alternate value ;?
                           write_str ("," +:+ String newline "")) w in (w, r))
         else
           write_str (if ds_has_fields b then ", " else " { ") ;? write_str name ;? write_str ": " ;?
           debug_fmt alternate value) (ds_fmt b) in
      mkStruct w r true
  end.

Definition finish_struct (alternate : bool) (b : DebugStruct) : W * fmt_result :=
  match ds_has_fields b, ds_result b with
  | true, FmtOk => write_str (if alternate then "}" else " }") (ds_fmt b)
  | _, r => (ds_fmt b, r)
  end.

(** [DebugMap]; [dm_state] is the adapter's state between key and value. *)
Record DebugMap := mkMap { dm_fmt : W; dm_result : fmt_result; dm_has_fields : bool; dm_state : bool }.

Definition debug_map (w : W) : DebugMap :=
  let '(w, r) := write_str "{" w in mkMap w r false true.

Definition map_key {A} `{!Debug A} (alternate : bool) (k : A) (b : DebugMap) : DebugMap :=
  match dm_result b with
  | FmtError => b
  | FmtOk =>
      if alternate then
        let '(w, r) := (if dm_has_fields b then fmt_ok else write_str (String newline "")) (dm_fmt b) in
        match r with
        | FmtError => mkMap w FmtError (dm_has_fields b) (dm_state b)
        | FmtOk =>
            let '(w, nl, r) := padded true (debug_fmt alternate k ;? write_str ": ") w in
            mkMap w r (dm_has_fields b) nl
        end
      else
        let '(w, r) :=
          ((if dm_has_fields b then write_str ", " else fmt_ok) ;? debug_fmt alternate k ;?
           write_str ": ") (dm_fmt b) in
        mkMap w r (dm_has_fields b) (dm_state b)
  end.

Definition map_value {A} `{!Debug A} (alternate : bool) (v : A) (b : DebugMap) : DebugMap :=
  match dm_result b with
  | FmtError => mkMap (dm_fmt b) FmtError true (dm_state b)
  | FmtOk =>
      if alternate then
        let '(w, nl, r) :=
          padded (dm_state b) (debug_fmt alternate v ;? write_str ("," +:+ String newline "")) (dm_fmt b) in
        mkMap w r true nl
      else
        let '(w, r) := debug_fmt alternate v (dm_fmt b) in
        mkMap w r true (dm_state b)
  end.

Definition map_entry {A B} `{!Debug A, !Debug B} (alternate : bool) (k : A) (v : B) (b : DebugMap) : DebugMap :=
  map_value alternate v (map_key alternate k b).

Definition finish_map (b : DebugMap) : W * fmt_result :=
  match dm_result b with FmtOk => write_str "}" (dm_fmt b) | FmtError => (dm_fmt b, FmtError) end.
End builders.
Arguments DebugStruct : clear implicits.
Arguments DebugMap : clear implicits.

(** ** The strings written *)

(** The strings of [cs], one after the other, up to the first failure. *)
Fixpoint write_all {W} `{!Write W} (cs : list string) (w : W) : W * fmt_result :=
  match cs with
  | [] => (w, FmtOk)
  | c :: cs' => (write_str c ;? write_all cs') w
  end.

(** What an adapter makes of them. *)
Fixpoint pad_chunk_lines (nl : bool) (ls : list string) : list string * bool :=
  match ls with
  | [] => ([], nl)
  | l :: ls' =>
      let '(rest, nl') := pad_chunk_lines (ends_with_newline l) ls' in
      ((if nl then ["    "] else []) ++ l :: rest, nl')
  end.

Fixpoint pad_chunks (nl : bool) (cs : list string) : list string * bool :=
  match cs with
  | [] => ([], nl)
  | c :: cs' =>
      let '(here, nl) := pad_chunk_lines nl (split_inclusive c) in
      let '(rest, nl) := pad_chunks nl cs' in (here ++ rest, nl)
  end.

(** An implementation that writes the strings [debug_chunks] and passes on the
    errors of the writer, as the documentation of the trait asks for. *)
Class DebugChunks (A : Type) `{!Debug A} := {
  debug_chunks : bool → A → list string;
  debug_fmt_chunks W `{!Write W} alternate a (w : W) :
    debug_fmt alternate a w = write_all (debug_chunks alternate a) w
}.

Class DisplayChunks (A : Type) `{!Display A} := {
  display_chunks : A → list string;
  display_fmt_chunks W `{!Write W} a (w : W) : display_fmt a w = write_all (display_chunks a) w
}.

(** The fields of a struct and the entries of a map; [more] says whether some
    were written before. *)
Definition field_chunks (alternate more : bool) (name : string) (value : list string) : list string :=
  if alternate then
    (if more then [] else [" {" +:+ String newline ""]) ++
    (pad_chunks true (name :: ": " :: value ++ ["," +:+ String newline ""])).1
  else (if more then ", " else " { ") :: name :: ": " :: value.

Definition entry_chunks (alternate more : bool) (k v : list string) : list string :=
  if alternate then
    (if more then [] else [String newline ""]) ++
    (pad_chunks true (k ++ ": " :: v ++ ["," +:+ String newline ""])).1
  else (if more then [", "] else []) ++ k ++ ": " :: v.

Fixpoint entries_chunks (alternate more : bool) (kvs : list (list string * list string)) : list string :=
  match kvs with
  | [] => []
  | (k, v) :: kvs' => entry_chunks alternate more k v ++ entries_chunks alternate true kvs'
  end.

Definition map_chunks (alternate : bool) (kvs : list (list string * list string)) : list string :=
  "{" :: entries_chunks alternate false kvs ++ ["}"].

Section chunks.
Context {W : Type} `{!Write W}.
Implicit Types (w : W) (cs ls : list string).

Lemma write_all_app cs cs' w : write_all (cs ++ cs') w = (write_all cs ;? write_all cs') w.
Proof.
  revert w. induction cs as [|c cs IH]; intros w; [done|]. cbn [app write_all]. unfold and_then in *.
  destruct (write_str c w) as [w' []]; [by rewrite IH|done].
Qed.

Lemma write_all_split cs cs' w :
  write_all (cs ++ cs') w =
    match write_all cs w with (w, FmtOk) => write_all cs' w | (w, FmtError) => (w, FmtError) end.
Proof. apply write_all_app. Qed.

Lemma write_str_all c w : write_str c w = write_all [c] w.
Proof. cbn. unfold and_then. by destruct (write_str c w) as [w' []]. Qed.

Lemma and_then_all f cs cs' w :
  (∀ w, f w = write_all cs w) → (f ;? write_all cs') w = write_all (cs ++ cs') w.
Proof. intros Hf. rewrite write_all_app. unfold and_then. by rewrite Hf. Qed.

(** Writing through an adapter, against writing the padded strings. *)
Definition pads (x : PadAdapter W * fmt_result) (y : W * fmt_result) (nl : bool) : Prop :=
  y = (pad_buf x.1, x.2) ∧ (x.2 = FmtOk → on_newline x.1 = nl).

Lemma pad_lines_chunks ls nl w :
  pads (pad_lines ls (mkPad w nl)) (write_all (pad_chunk_lines nl ls).1 w) (pad_chunk_lines nl ls).2.
Proof.
  revert nl w. induction ls as [|l ls IH]; intros nl w; [done|]. cbn [pad_lines pad_chunk_lines pad_buf on_newline].
  specialize (IH (ends_with_newline l)).
  destruct (pad_chunk_lines (ends_with_newline l) ls) as [rest nl']. cbn [fst snd] in *.
  destruct nl; cbn [app write_all fmt_ok]; unfold and_then.
  - destruct (write_str "    " w) as [w1 []]; [|done]. destruct (write_str l w1) as [w2 []]; [apply IH|done].
  - destruct (write_str l w) as [w1 []]; [apply IH|done].
Qed.

Lemma pad_all_chunks cs nl w :
  pads (write_all cs (mkPad w nl)) (write_all (pad_chunks nl cs).1 w) (pad_chunks nl cs).2.
Proof.
  revert nl w. induction cs as [|c cs IH]; intros nl w; [done|]. cbn [write_all pad_chunks].
  pose proof (pad_lines_chunks (split_inclusive c) nl w) as [Hw Hn].
  destruct (pad_chunk_lines nl (split_inclusive c)) as [here nl1]. specialize (IH nl1).
  destruct (pad_chunks nl1 cs) as [rest nl2]. cbn [fst snd] in *. unfold and_then.
  rewrite write_all_app. unfold and_then. rewrite Hw. unfold write_str at 1, pad_write.
  destruct (pad_lines (split_inclusive c) (mkPad w nl)) as [[w1 n1] []]; cbn in *; [|done].
  rewrite Hn by done. apply IH.
Qed.

Lemma padded_chunks f cs nl w :
  (∀ p, f p = write_all cs p) →
  ∃ nl', padded nl f w = (let '(w, r) := write_all (pad_chunks nl cs).1 w in (w, nl', r)) ∧
    ((write_all (pad_chunks nl cs).1 w).2 = FmtOk → nl' = (pad_chunks nl cs).2).
Proof.
  intros Hf. destruct (pad_all_chunks cs nl w) as [Hw Hn]. unfold padded. rewrite Hf, Hw.
  destruct (write_all cs (mkPad w nl)) as [[w1 n1] r]. cbn in *. by exists n1.
Qed.

Lemma pad_chunks_app nl cs cs' :
  pad_chunks nl (cs ++ cs') =
    ((pad_chunks nl cs).1 ++ (pad_chunks (pad_chunks nl cs).2 cs').1,
     (pad_chunks (pad_chunks nl cs).2 cs').2).
Proof.
  revert nl. induction cs as [|c cs IH]; intros nl; [cbn; by destruct (pad_chunks nl cs')|]. cbn [app pad_chunks].
  destruct (pad_chunk_lines nl (split_inclusive c)) as [here nl1]. rewrite IH.
  destruct (pad_chunks nl1 cs) as [rest nl2]. cbn. by rewrite app_assoc.
Qed.

End chunks.

(** *** The builders write the reference strings *)

(** A writing function that writes the strings [cs]. *)
Definition puts {W} `{!Write W} (f : W → W * fmt_result) (cs : list string) : Prop :=
  ∀ w, f w = write_all cs w.

Create HintDb fmt.

Section puts.
Context {W : Type} `{!Write W}.

Lemma puts_str c : puts (write_str (W:=W) c) [c].
Proof. intros w. apply write_str_all. Qed.

Lemma puts_ok : puts (fmt_ok (W:=W)) [].
Proof. done. Qed.

Lemma puts_then (f g : W → W * fmt_result) cs cs' : puts f cs → puts g cs' → puts (f ;? g) (cs ++ cs').
Proof. intros Hf Hg w. rewrite write_all_app. unfold and_then. rewrite Hf. by destruct (write_all cs w) as [w' []]. Qed.

Lemma puts_debug {A} `{!Debug A, !DebugChunks A} alternate a :
  puts (debug_fmt (W:=W) alternate a) (debug_chunks alternate a).
Proof. intros w. apply debug_fmt_chunks. Qed.

Lemma puts_padded f cs nl :
  puts f cs → puts (λ w : W, let '(w, _, r) := padded nl f w in (w, r)) (pad_chunks nl cs).1.
Proof.
  intros Hf w. destruct (padded_chunks f cs nl w Hf) as (nl' & -> & _).
  by destruct (write_all (pad_chunks nl cs).1 w).
Qed.

Lemma puts_if (b : bool) (f g : W → W * fmt_result) cs cs' :
  puts f cs → puts g cs' → puts (if b then f else g) (if b then cs else cs').
Proof. by destruct b. Qed.
End puts.
#[export] Hint Resolve puts_str puts_ok puts_then puts_debug puts_padded puts_if : fmt.

Section builders_write.
Context {W : Type} `{!Write W} {A B : Type} `{!Debug A, !DebugChunks A, !Debug B, !DebugChunks B}.

(** A builder that goes on with [cs]. *)
Definition go_on (r : fmt_result) (cs : list string) (w : W) : W * fmt_result :=
  match r with FmtOk => write_all cs w | FmtError => (w, FmtError) end.

Lemma go_on_app r cs cs' w :
  go_on r (cs ++ cs') w = (let '(w, r) := go_on r cs w in go_on r cs' w).
Proof. destruct r; [|done]. cbn. rewrite write_all_app. unfold and_then. by destruct (write_all cs w) as [w' []]. Qed.

Lemma field_writes alternate name (a : A) (d : DebugStruct W) :
  field alternate name a d =
    (let '(w, r) := go_on (ds_result d) (field_chunks alternate (ds_has_fields d) name (debug_chunks alternate a)) (ds_fmt d) in
     mkStruct w r true).
Proof.
  unfold field, go_on, field_chunks. destruct (ds_result d); [|done].
  match goal with |- (let '(w, r) := ?f (ds_fmt d) in _) = (let '(w, r) := write_all ?cs (ds_fmt d) in _) =>
    assert (puts f cs) as Hf; [|by rewrite (Hf (ds_fmt d))] end.
  destruct alternate.
  - apply puts_then; [by destruct (ds_has_fields d); auto with fmt|]. apply puts_padded.
    apply (puts_then _ _ [name]); [auto with fmt|]. apply (puts_then _ _ [": "]); auto with fmt.
  - apply (puts_then _ _ [_]); [auto with fmt|]. apply (puts_then _ _ [name]); [auto with fmt|].
    apply (puts_then _ _ [": "]); auto with fmt.
Qed.

Lemma entry_writes alternate (a : A) (b : B) (d : DebugMap W) :
  ∃ nl, map_entry alternate a b d =
    (let '(w, r) := go_on (dm_result d)
       (entry_chunks alternate (dm_has_fields d) (debug_chunks alternate a) (debug_chunks alternate b)) (dm_fmt d) in
     mkMap w r true nl).
Proof.
  unfold map_entry, map_key, go_on, entry_chunks. destruct (dm_result d) eqn:Hr; [|by exists (dm_state d); unfold map_value; rewrite Hr].
  destruct alternate.
  - assert (puts (W:=W) (if dm_has_fields d then fmt_ok else write_str (String newline ""))
      (if dm_has_fields d then [] else [String newline ""])) as Hs by auto with fmt.
    rewrite Hs, write_all_split. destruct (write_all _ (dm_fmt d)) as [w1 []]; [|by exists (dm_state d)].
    set (ks := debug_chunks true a ++ [": "]). set (vs := debug_chunks true b ++ ["," +:+ String newline ""]).
    assert (Hsplit : (debug_chunks true a ++ ": " :: vs) = ks ++ vs) by (unfold ks; by rewrite <-app_assoc).
    rewrite Hsplit, pad_chunks_app. cbn [fst]. rewrite write_all_split.
    destruct (padded_chunks (W:=W) (debug_fmt true a ;? write_str ": ") ks true w1) as (nl1 & -> & Hn1); [by apply puts_then; auto with fmt|].
    destruct (write_all (pad_chunks true ks).1 w1) as [w2 []]; cbn in Hn1 |- *; [|by eexists].
    rewrite Hn1 by done.
    destruct (padded_chunks (W:=W) (debug_fmt true b ;? write_str ("," +:+ String newline "")) vs (pad_chunks true ks).2 w2)
      as (nl2 & -> & _); [by apply puts_then; auto with fmt|].
    exists nl2. by destruct (write_all _ w2).
  - exists (dm_state d).
    assert (puts (W:=W) ((if dm_has_fields d then write_str ", " else fmt_ok) ;? debug_fmt false a ;? write_str ": ")
      ((if dm_has_fields d then [", "] else []) ++ debug_chunks false a ++ [": "])) as Hk by auto with fmt.
    rewrite Hk. clear Hk.
    assert ((if dm_has_fields d then [", "] else []) ++ debug_chunks false a ++ ": " :: debug_chunks false b =
      ((if dm_has_fields d then [", "] else []) ++ debug_chunks false a ++ [": "]) ++ debug_chunks false b) as ->
      by (by rewrite <-!app_assoc).
    rewrite (write_all_split _ (debug_chunks false b)).
    destruct (write_all _ (dm_fmt d)) as [w1 []]; cbn; [|done]. by rewrite debug_fmt_chunks.
Qed.

(** A whole map. *)
Lemma entries_write alternate (kvs : list (A * B)) (d : DebugMap W) :
  let '(w, r) := go_on (dm_result d) (entries_chunks alternate (dm_has_fields d)
    (prod_map (debug_chunks alternate) (debug_chunks alternate) <$> kvs)) (dm_fmt d) in
  let d' := foldl (λ d kv, map_entry alternate kv.1 kv.2 d) d kvs in
  dm_fmt d' = w ∧ dm_result d' = r.
Proof.
  revert d. induction kvs as [|[a b] kvs IH]; intros d; [cbn; by destruct (dm_result d)|].
  cbn [fmap list_fmap prod_map entries_chunks foldl fst snd].
  destruct (entry_writes alternate a b d) as [nl He]. rewrite He, go_on_app.
  destruct (go_on (dm_result d) _ (dm_fmt d)) as [w r]. apply (IH (mkMap w r true nl)).
Qed.

Lemma map_writes alternate (kvs : list (A * B)) w :
  finish_map (foldl (λ d kv, map_entry alternate kv.1 kv.2 d) (debug_map w) kvs) =
    write_all (map_chunks alternate (prod_map (debug_chunks alternate) (debug_chunks alternate) <$> kvs)) w.
Proof.
  unfold map_chunks. cbn [write_all]. unfold debug_map, and_then.
  destruct (write_str "{" w) as [w1 r1].
  pose proof (entries_write alternate kvs (mkMap w1 r1 false true)) as He. cbn [dm_result dm_has_fields dm_fmt] in He.
  change (match r1 with FmtOk => _ | FmtError => _ end) with (go_on r1
    (entries_chunks alternate false (prod_map (debug_chunks alternate) (debug_chunks alternate) <$> kvs) ++ ["}"]) w1).
  rewrite go_on_app. destruct (go_on r1 _ w1) as [w2 r2]. destruct He as [Hw Hr]. unfold finish_map. rewrite Hw, Hr.
  destruct r2; [apply write_str_all|done].
Qed.
End builders_write.

(** Into a [String]: everything is written. *)
Lemma write_all_string cs (w : string) : write_all cs w = (w +:+ foldr String.append "" cs, FmtOk).
Proof.
  revert w. induction cs as [|c cs IH]; intros w; cbn [write_all foldr].
  - f_equal. induction w as [|x w IHw]; [done|exact (f_equal (String x) IHw)].
  - unfold and_then, write_str, string_write. rewrite IH. f_equal.
    induction w as [|x w IHw]; [done|exact (f_equal (String x) IHw)].
Qed.

(** An error is that of the first string that could not be written; the
    strings before it were written, the others were not tried. *)
Lemma write_all_error {W} `{!Write W} cs (w w' : W) :
  write_all cs w = (w', FmtError) ↔
  ∃ before c after w1, cs = before ++ c :: after ∧ write_all before w = (w1, FmtOk) ∧
    write_str c w1 = (w', FmtError).
Proof.
  split.
  - revert w. induction cs as [|c cs IH]; intros w; [done|]. cbn [write_all]. unfold and_then.
    destruct (write_str c w) as [w1 []] eqn:Hc.
    + intros (before & c' & after & w2 & -> & Hb & Hc')%IH. exists (c :: before), c', after, w2.
      split_and!; [done| |done]. cbn [write_all]. unfold and_then. by rewrite Hc.
    + intros [= ->]. by exists [], c, cs, w.
  - intros (before & c & after & w1 & -> & Hb & Hc). rewrite write_all_split, Hb.
    cbn [write_all]. unfold and_then. by rewrite Hc.
Qed.

(** A struct with two fields. *)
Definition struct_chunks (alternate : bool) (name k v : string) (ks vs : list string) : list string :=
  name :: field_chunks alternate false k ks ++ field_chunks alternate true v vs ++
    [if alternate then "}" else " }"].

Lemma struct_writes {W A B} `{!Write W, !Debug A, !DebugChunks A, !Debug B, !DebugChunks B}
    alternate name k v (a : A) (b : B) (w : W) :
  finish_struct alternate (field alternate v b (field alternate k a (debug_struct name w))) =
    write_all (struct_chunks alternate name k v (debug_chunks alternate a) (debug_chunks alternate b)) w.
Proof.
  unfold struct_chunks. cbn [write_all]. unfold debug_struct, and_then.
  destruct (write_str name w) as [w1 r1]. rewrite (field_writes _ _ a). cbn [ds_result ds_has_fields ds_fmt].
  change (match r1 with FmtOk => _ | FmtError => _ end) with (go_on r1
    (field_chunks alternate false k (debug_chunks alternate a) ++
     field_chunks alternate true v (debug_chunks alternate b) ++ [if alternate then "}" else " }"]) w1).
  rewrite go_on_app. destruct (go_on r1 _ w1) as [w2 r2]. rewrite field_writes. cbn [ds_result ds_has_fields ds_fmt].
  rewrite go_on_app. destruct (go_on r2 _ w2) as [w3 r3]. unfold finish_struct. cbn.
  destruct r3; [|done]. apply write_str_all.
Qed.
