(* ===== verification/Machine.v ===== *)
(** * Machine: the parts of Rust's core language the sources rely on

    Outcomes of a computation (return, panic, abort, undefined behaviour,
    running out of fuel, blocking on a lock) with their monad, and the
    machine integers: [usize] at the pointer width of the target, [u64]
    hashes and [u8] counters, with Rust's two overflow regimes (checked
    arithmetic panics, unchecked arithmetic wraps around). *)

From stdpp Require Import base gmap list.
From S2P Require Import Prelude.

Open Scope Z_scope.

(** ** Outcomes *)

Inductive outcome (A : Type) : Type :=
| Ret (a : A)        (* normal return *)
| Panic              (* unwinding panic *)
| Abort              (* process abort *)
| Undefined          (* undefined behaviour: a violated [unsafe] contract *)
| OutOfFuel          (* the loop bound was used up *)
| Blocked.           (* waits for a lock that is not released *)

Arguments Ret {A} a.
Arguments Panic {A}.
Arguments Abort {A}.
Arguments Undefined {A}.
Arguments OutOfFuel {A}.
Arguments Blocked {A}.

Global Instance outcome_ret : MRet outcome := λ A a, Ret a.

Global Instance outcome_bind : MBind outcome := λ A B f o,
  match o with
  | Ret a => f a
  | Panic => Panic
  | Abort => Abort
  | Undefined => Undefined
  | OutOfFuel => OutOfFuel
  | Blocked => Blocked
  end.

(** [o ⇓ a]: the computation [o] returns [a]. *)
Notation "o ⇓ a" := (o = Ret a) (at level 70) : neo_scope.
Open Scope neo_scope.

(** Dereferencing a pointer: [None] is a dangling pointer. *)
Definition deref {A} (o : option A) : outcome A :=
  match o with Some a => Ret a | None => Undefined end.

(** [assert!(b)]. *)
Definition rust_assert (b : bool) : outcome unit :=
  if b then Ret tt else Panic.

(** [Option::unwrap]. *)
Definition unwrap {A} (o : option A) : outcome A :=
  match o with Some a => Ret a | None => Panic end.

(** ** Targets *)

(** A compilation target: the width of [usize], and whether the profile
    enables overflow checks ([debug]) or not ([release]). *)
Class Target := {
  usize_bits : Z;
  overflow_checks : bool;
  usize_bits_ok : usize_bits = 32 ∨ usize_bits = 64
}.

Definition debug64 : Target :=
  {| usize_bits := 64; overflow_checks := true; usize_bits_ok := or_intror eq_refl |}.
Definition release64 : Target :=
  {| usize_bits := 64; overflow_checks := false; usize_bits_ok := or_intror eq_refl |}.

Definition usize_mod `{Target} : Z := 2 ^ usize_bits.

Definition is_usize `{Target} (n : Z) : Prop := 0 ≤ n < usize_mod.
Definition is_u8 (n : Z) : Prop := 0 ≤ n < 2 ^ 8.
Definition is_u64 (n : Z) : Prop := 0 ≤ n < 2 ^ 64.

Section usize.
Context `{Target}.

(** [a + b] on [usize]. *)
Definition usize_add (a b : Z) : outcome Z :=
  if a + b <? usize_mod then Ret (a + b)
  else if overflow_checks then Panic else Ret ((a + b) mod usize_mod).

(** [a - b] on [usize]. *)
Definition usize_sub (a b : Z) : outcome Z :=
  if b <=? a then Ret (a - b)
  else if overflow_checks then Panic else Ret ((a - b) mod usize_mod).

(** [a * b] on [usize]. *)
Definition usize_mul (a b : Z) : outcome Z :=
  if a * b <? usize_mod then Ret (a * b)
  else if overflow_checks then Panic else Ret ((a * b) mod usize_mod).

(** [debug_assert!(b)]: the profiles that check overflows also enable debug
    assertions. *)
Definition debug_assert (b : bool) : outcome unit :=
  if overflow_checks then rust_assert b else Ret tt.

(** [usize::checked_add]. *)
Definition usize_checked_add (a b : Z) : option Z :=
  if a + b <? usize_mod then Some (a + b) else None.

(** [usize::saturating_sub]. *)
Definition saturating_sub (a b : Z) : Z := Z.max 0 (a - b).

(** [usize::div_ceil]. *)
Definition div_ceil (a b : Z) : Z :=
  if 0 <? a mod b then a / b + 1 else a / b.

(** [usize::is_power_of_two]. *)
Definition is_power_of_two (n : Z) : bool := (0 <? n) && (2 ^ Z.log2 n =? n).

(** [usize::next_power_of_two]: overflows when no power of two of the
    type is at least [n]. *)
Definition next_power_of_two (n : Z) : outcome Z :=
  let p := if n <=? 1 then 1 else 2 ^ Z.log2_up n in
  if p <? usize_mod then Ret p
  else if overflow_checks then Panic else Ret 0.

(** [usize::trailing_zeros]. *)
Definition trailing_zeros (n : Z) : Z :=
  if n =? 0 then usize_bits else Z.log2 (Z.land n (- n)).

(** [h as usize] for [h : u64]. *)
Definition as_usize (h : Z) : Z := h mod usize_mod.

(** [a << n] and [a >> n] on [usize]: shifting by the width or more is an
    overflow (a panic, or a shift by [n mod usize_bits]). *)
Definition usize_shl (a n : Z) : outcome Z :=
  if (0 <=? n) && (n <? usize_bits) then Ret (Z.shiftl a n mod usize_mod)
  else if overflow_checks then Panic
  else Ret (Z.shiftl a (n mod usize_bits) mod usize_mod).

Definition usize_shr (a n : Z) : outcome Z :=
  if (0 <=? n) && (n <? usize_bits) then Ret (Z.shiftr a n)
  else if overflow_checks then Panic
  else Ret (Z.shiftr a (n mod usize_bits)).
End usize.

(** ** Facts about outcomes *)

Lemma assert_Ret {A} b (k : outcome A) a : (_ ← rust_assert b; k) ⇓ a → b = true ∧ k ⇓ a.
Proof. by destruct b. Qed.

Lemma bind_Ret {A B} (o : outcome A) (f : A → outcome B) b :
  (o ≫= f) ⇓ b ↔ ∃ a, o ⇓ a ∧ f a ⇓ b.
Proof.
  destruct o as [a| | | | |]; cbn; split; try (intros ?; discriminate);
    try (intros (? & [=] & ?)); [eauto | by subst].
Qed.

Lemma outcome_bind_ret {A} (o : outcome A) : (o ≫= λ a, Ret a) = o.
Proof. by destruct o. Qed.

(** Two outcomes of the same shape whose results are related by [R]. *)
Inductive outcome_rel {A B} (R : A → B → Prop) : outcome A → outcome B → Prop :=
| rel_Ret a b : R a b → outcome_rel R (Ret a) (Ret b)
| rel_Panic : outcome_rel R Panic Panic
| rel_Abort : outcome_rel R Abort Abort
| rel_OutOfFuel : outcome_rel R OutOfFuel OutOfFuel
| rel_Blocked : outcome_rel R Blocked Blocked.

Global Hint Constructors outcome_rel : neo.

Lemma outcome_rel_bind {A B A' B'} (R : A → B → Prop) (R' : A' → B' → Prop) o o' f f' :
  outcome_rel R o o' →
  (∀ a b, o' ⇓ b → R a b → outcome_rel R' (f a) (f' b)) →
  outcome_rel R' (o ≫= f) (o' ≫= f').
Proof. destruct 1; cbn; auto with neo. Qed.

Lemma outcome_rel_mono {A B} (R R' : A → B → Prop) o o' :
  outcome_rel R o o' → (∀ a b, R a b → R' a b) → outcome_rel R' o o'.
Proof. destruct 1; auto with neo. Qed.

Lemma outcome_rel_Ret {A B} (R : A → B → Prop) o o' a :
  outcome_rel R o o' → o ⇓ a → ∃ b, o' ⇓ b ∧ R a b.
Proof. destruct 1; intros [= <-]; eauto. Qed.

Lemma outcome_rel_Ret_r {A B} (R : A → B → Prop) o o' b :
  outcome_rel R o o' → o' ⇓ b → ∃ a, o ⇓ a ∧ R a b.
Proof. destruct 1; intros [= <-]; eauto. Qed.

Lemma outcome_rel_refl {A} (o : outcome A) : o ≠ Undefined → outcome_rel eq o o.
Proof. destruct o; intros; auto with neo; congruence. Qed.

(** ** Facts about machine integers *)

Section usize_facts.
Context `{Target}.

Lemma usize_mod_ge : 2 ^ 32 ≤ usize_mod.
Proof. unfold usize_mod. destruct usize_bits_ok as [-> | ->]; lia. Qed.

Lemma usize_mod_pos : 0 < usize_mod.
Proof. pose proof usize_mod_ge. lia. Qed.

Lemma usize_bits_bounds : 32 ≤ usize_bits ≤ 64.
Proof. destruct usize_bits_ok; lia. Qed.

(** In both overflow regimes a sum or difference that is returned is the
    mathematical one modulo the width. *)
Lemma usize_add_mod a b c :
  0 ≤ a → 0 ≤ b → usize_add a b ⇓ c → c = (a + b) mod usize_mod.
Proof.
  unfold usize_add. intros Ha Hb. destruct (Z.ltb_spec (a + b) usize_mod).
  - intros [= <-]. rewrite Z.mod_small; lia.
  - destruct overflow_checks; congruence.
Qed.

Lemma usize_sub_mod a b c :
  is_usize a → 0 ≤ b → usize_sub a b ⇓ c → c = (a - b) mod usize_mod.
Proof.
  unfold usize_sub, is_usize. intros Ha Hb. destruct (Z.leb_spec b a).
  - intros [= <-]. rewrite Z.mod_small; lia.
  - destruct overflow_checks; congruence.
Qed.

Lemma usize_add_small a b : a + b < usize_mod → usize_add a b ⇓ a + b.
Proof. unfold usize_add. intros. destruct (Z.ltb_spec (a + b) usize_mod); [done | lia]. Qed.

Lemma usize_sub_small a b : b ≤ a → usize_sub a b ⇓ a - b.
Proof. unfold usize_sub. intros. destruct (Z.leb_spec b a); [done | lia]. Qed.

Lemma mod_is_usize a : is_usize (a mod usize_mod).
Proof. apply Z.mod_pos_bound, usize_mod_pos. Qed.

Lemma usize_add_defined a b : usize_add a b ≠ Undefined.
Proof. unfold usize_add. repeat case_match; congruence. Qed.

Lemma usize_sub_defined a b : usize_sub a b ≠ Undefined.
Proof. unfold usize_sub. repeat case_match; congruence. Qed.

Lemma usize_shl_small a n :
  0 ≤ n < usize_bits → usize_shl a n ⇓ (a * 2 ^ n) mod usize_mod.
Proof.
  intros. unfold usize_shl.
  destruct (Z.leb_spec 0 n), (Z.ltb_spec n usize_bits); try lia.
  cbn. by rewrite Z.shiftl_mul_pow2 by lia.
Qed.

Lemma usize_shr_small a n : 0 ≤ n < usize_bits → usize_shr a n ⇓ a / 2 ^ n.
Proof.
  intros. unfold usize_shr.
  destruct (Z.leb_spec 0 n), (Z.ltb_spec n usize_bits); try lia.
  cbn. by rewrite Z.shiftr_div_pow2 by lia.
Qed.

Lemma div_ceil_spec a b : 0 ≤ a → 0 < b → a ≤ div_ceil a b * b < a + b.
Proof.
  intros. unfold div_ceil. pose proof (Z.div_mod a b).
  pose proof (Z.mod_pos_bound a b).
  destruct (Z.ltb_spec 0 (a mod b)); nia.
Qed.

Lemma is_power_of_two_true n :
  is_power_of_two n = true → 0 < n ∧ n = 2 ^ Z.log2 n.
Proof. unfold is_power_of_two. intros [? ?]%andb_true_iff. lia. Qed.

Lemma is_power_of_two_pow n : 0 ≤ n → is_power_of_two (2 ^ n) = true.
Proof.
  intros. unfold is_power_of_two. rewrite Z.log2_pow2 by lia.
  pose proof (Z.pow_pos_nonneg 2 n). lia.
Qed.

Lemma trailing_zeros_pow2 n : 0 ≤ n → trailing_zeros (2 ^ n) = n.
Proof.
  intros. unfold trailing_zeros.
  pose proof (Z.pow_pos_nonneg 2 n).
  destruct (Z.eqb_spec (2 ^ n) 0); [lia|].
  replace (Z.land (2 ^ n) (- 2 ^ n)) with (2 ^ n); [by apply Z.log2_pow2|].
  apply Z.bits_inj'. intros i Hi. rewrite Z.land_spec.
  destruct (Z.eq_dec i n) as [->|].
  - rewrite Z.pow2_bits_true by lia. cbn.
    replace (- 2 ^ n) with (Z.lnot (2 ^ n - 1)) by (unfold Z.lnot; lia).
    rewrite Z.lnot_spec by lia.
    change (2 ^ n - 1) with (Z.pred (2 ^ n)).
    rewrite <-Z.ones_equiv, Z.ones_spec_high by lia. done.
  - rewrite (Z.pow2_bits_false n i) by lia. done.
Qed.

(** The next power of two of a number of at most half the range. *)
Lemma next_power_of_two_small n :
  0 ≤ n → 2 * n ≤ usize_mod →
  ∃ p, 0 ≤ p ∧ next_power_of_two n ⇓ 2 ^ p ∧ n ≤ 2 ^ p < usize_mod ∧ (1 < n → 2 ^ p < 2 * n).
Proof.
  intros Hn Hmod. unfold next_power_of_two. pose proof usize_mod_ge.
  destruct (Z.leb_spec n 1) as [|Hn1].
  - exists 0. replace (2 ^ 0) with 1 by reflexivity.
    destruct (Z.ltb_spec 1 usize_mod); [|lia]. repeat split; lia.
  - exists (Z.log2_up n). pose proof (Z.log2_up_spec n Hn1) as [Hlo Hhi].
    pose proof (Z.log2_up_nonneg n).
    assert (2 ^ Z.log2_up n < 2 * n).
    { rewrite <-(Z.succ_pred (Z.log2_up n)), Z.pow_succ_r; [lia|].
      pose proof (Z.log2_up_pos n). lia. }
    destruct (Z.ltb_spec (2 ^ Z.log2_up n) usize_mod); [|lia].
    repeat split; auto; lia.
Qed.
End usize_facts.

#[export] Hint Resolve usize_add_defined usize_sub_defined outcome_rel_refl : neo.
