(* ===== verification/Lock.v ===== *)
(** * Lock: the reader-writer lock of a shard (src/src/lock.rs)

    [RawRwLock] packs its state in one [usize]: two parking bits and, above
    them, the number of readers, where all bits set stands for the writer. The
    definitions give the effect of each function when it runs without
    interference from other threads: a function that would park its thread is
    [Blocked], and releasing functions also report which parked threads they
    wake. The theorems relate the bit-level state to its meaning. *)

From stdpp Require Import base gmap list.
From S2P Require Import Prelude Machine.

Open Scope Z_scope.

Section lock.
Context `{!Target}.
Implicit Types (w : Z).

(** [!n] on [usize]. *)
Definition usize_not (n : Z) : Z := usize_mod - 1 - n.

Definition READERS_PARKED : Z := 1.
Definition WRITERS_PARKED : Z := 2.
Definition ONE_READER : Z := 4.
Definition ONE_WRITER : Z := usize_not (Z.lor READERS_PARKED WRITERS_PARKED).

(** [RawRwLock::INIT]. *)
Definition lock_init : Z := 0.

(** The threads a releasing function unparks. *)
Inductive wake := WakeNone | WakeReaders | WakeOneWriter.

(** [try_lock_exclusive]: the new state, if the lock was acquired. *)
Definition try_lock_exclusive w : option Z :=
  if w =? 0 then Some ONE_WRITER else None.

(** [lock_exclusive_slow]: takes a lock with no owner and parks otherwise. *)
Definition lock_exclusive_slow (acquire_with : Z) w : outcome Z :=
  if Z.land w ONE_WRITER =? 0 then Ret (Z.lor (Z.lor w ONE_WRITER) acquire_with)
  else Blocked.

(** [lock_exclusive]. *)
Definition lock_exclusive w : outcome Z :=
  match try_lock_exclusive w with
  | Some w' => Ret w'
  | None => lock_exclusive_slow 0 w
  end.

(** [unlock_exclusive_slow]. *)
Definition unlock_exclusive_slow w : outcome (Z * wake) :=
  _ ← rust_assert (Z.land w ONE_WRITER =? ONE_WRITER);
  let parked := Z.land w (Z.lor READERS_PARKED WRITERS_PARKED) in
  _ ← rust_assert (negb (parked =? 0));
  let w := if negb (parked =? Z.lor READERS_PARKED WRITERS_PARKED) then 0 else w in
  let '(w, parked) :=
    if parked =? Z.lor READERS_PARKED WRITERS_PARKED then (WRITERS_PARKED, READERS_PARKED)
    else (w, parked) in
  if parked =? READERS_PARKED then Ret (w, WakeReaders)
  else
    _ ← rust_assert (parked =? WRITERS_PARKED);
    Ret (w, WakeOneWriter).

(** [unlock_exclusive]. *)
Definition unlock_exclusive w : outcome (Z * wake) :=
  if w =? ONE_WRITER then Ret (0, WakeNone) else unlock_exclusive_slow w.

(** [try_lock_shared_fast]; [try_lock_shared_slow] retries the same update
    after interference. *)
Definition try_lock_shared w : option Z :=
  match usize_checked_add w ONE_READER with
  | Some new_state =>
      if Z.land new_state ONE_WRITER =? ONE_WRITER then None else Some new_state
  | None => None
  end.

(** [lock_shared_slow]. *)
Definition lock_shared_slow w : outcome Z :=
  match usize_checked_add w ONE_READER with
  | Some new_state =>
      _ ← rust_assert (negb (Z.land new_state ONE_WRITER =? ONE_WRITER));
      Ret new_state
  | None => Blocked
  end.

(** [lock_shared]. *)
Definition lock_shared w : outcome Z :=
  match try_lock_shared w with
  | Some w' => Ret w'
  | None => lock_shared_slow w
  end.

(** [unlock_shared_slow]: runs after the last reader left writers parked. *)
Definition unlock_shared_slow w : Z * wake :=
  if w =? WRITERS_PARKED then (0, WakeOneWriter) else (w, WakeNone).

(** [unlock_shared]; [fetch_sub] wraps around. *)
Definition unlock_shared w : Z * wake :=
  let w' := (w - ONE_READER) mod usize_mod in
  if w =? Z.lor ONE_READER WRITERS_PARKED then unlock_shared_slow w' else (w', WakeNone).

(** [downgrade]. *)
Definition downgrade w : Z * wake :=
  (Z.land w (Z.lor ONE_READER WRITERS_PARKED),
   if negb (Z.land w READERS_PARKED =? 0) then WakeReaders else WakeNone).

(** ** The meaning of the state *)

Inductive owner := Free | Readers (n : Z) | Writer.

#[global] Instance owner_eq_dec : EqDecision owner.
Proof. solve_decision. Defined.

(** The number of readers that marks the writer. *)
Definition max_readers : Z := 2 ^ (usize_bits - 2) - 1.

Definition owner_ok (o : owner) : Prop :=
  match o with Readers n => 0 < n < max_readers | _ => True end.

Definition readers_field (o : owner) : Z :=
  match o with Free => 0 | Readers n => n | Writer => max_readers end.

(** The state word of a lock with the given owner and parking bits. *)
Definition encode (o : owner) (writers readers : bool) : Z :=
  4 * readers_field o + (if writers then WRITERS_PARKED else 0) + (if readers then READERS_PARKED else 0).

Lemma pow_bits : 4 * 2 ^ (usize_bits - 2) = usize_mod.
Proof.
  unfold usize_mod. pose proof usize_bits_bounds. change 4 with (2 ^ 2).
  rewrite <-Z.pow_add_r by lia. f_equal. lia.
Qed.

Lemma max_readers_pos : 2 ^ 30 - 1 ≤ max_readers.
Proof.
  unfold max_readers. pose proof usize_bits_bounds.
  pose proof (Z.pow_le_mono_r 2 30 (usize_bits - 2)). lia.
Qed.

Lemma usize_mod_max : usize_mod = 4 * max_readers + 4.
Proof. unfold max_readers. pose proof pow_bits. lia. Qed.

Lemma ONE_WRITER_max : ONE_WRITER = 4 * max_readers.
Proof. unfold ONE_WRITER, usize_not, max_readers. change (Z.lor READERS_PARKED WRITERS_PARKED) with 3. pose proof pow_bits. lia. Qed.

(** Masking with [ONE_WRITER] clears the parking bits. *)
Lemma land_ONE_WRITER w : 0 ≤ w < usize_mod → Z.land w ONE_WRITER = 4 * (w / 4).
Proof.
  intros Hw. rewrite ONE_WRITER_max. unfold max_readers. pose proof usize_bits_bounds.
  change (2 ^ (usize_bits - 2) - 1) with (Z.pred (2 ^ (usize_bits - 2))). rewrite <-Z.ones_equiv.
  replace (4 * Z.ones (usize_bits - 2)) with (Z.shiftl (Z.ones (usize_bits - 2)) 2)
    by (rewrite Z.shiftl_mul_pow2; lia).
  replace (4 * (w / 4)) with (Z.shiftl (Z.shiftr w 2) 2)
    by (rewrite Z.shiftl_mul_pow2, Z.shiftr_div_pow2 by lia; change (2 ^ 2) with 4; lia).
  apply Z.bits_inj'. intros i Hi. rewrite Z.land_spec.
  destruct (Z.lt_ge_cases i 2) as [Hlt|Hge].
  { rewrite !Z.shiftl_spec_low by lia. by rewrite andb_false_r. }
  rewrite !Z.shiftl_spec_high, Z.shiftr_spec by lia. replace (i - 2 + 2) with i by lia.
  destruct (Z.lt_ge_cases i usize_bits) as [Hb|Hb].
  - rewrite Z.ones_spec_low by lia. by rewrite andb_true_r.
  - rewrite Z.ones_spec_high by lia. rewrite andb_false_r. symmetry.
    rewrite <-(Z.mod_small w (2 ^ usize_bits)) by (unfold usize_mod in Hw; lia).
    by rewrite Z.mod_pow2_bits_high by lia.
Qed.

Definition parked_bits (writers readers : bool) : Z :=
  (if writers then WRITERS_PARKED else 0) + (if readers then READERS_PARKED else 0).

Lemma parked_bits_range writers readers : 0 ≤ parked_bits writers readers < 4.
Proof. unfold parked_bits, WRITERS_PARKED, READERS_PARKED. destruct writers, readers; lia. Qed.

Lemma readers_field_range o : owner_ok o → 0 ≤ readers_field o ≤ max_readers.
Proof. pose proof max_readers_pos as Hm. destruct o as [|n|]; cbn [owner_ok readers_field]; lia. Qed.

(** The fields of an encoded word. *)
Lemma encode_fields o wp rp :
  owner_ok o →
  let w := encode o wp rp in
  0 ≤ w < usize_mod ∧ Z.land w ONE_WRITER = 4 * readers_field o ∧
  Z.land w (Z.lor READERS_PARKED WRITERS_PARKED) = parked_bits wp rp ∧
  Z.land w READERS_PARKED = (if rp then 1 else 0).
Proof.
  intros Ho w. pose proof (readers_field_range o Ho) as Hr. pose proof (parked_bits_range wp rp) as Hp.
  pose proof pow_bits. unfold max_readers in Hr.
  assert (Hw : w = 4 * readers_field o + parked_bits wp rp) by (subst w; unfold encode, parked_bits; lia).
  assert (Hrange : 0 ≤ w < usize_mod) by lia. split_and!; [lia..| | |].
  - rewrite land_ONE_WRITER by done. clearbody w. Z.div_mod_to_equations. lia.
  - change (Z.lor READERS_PARKED WRITERS_PARKED) with (Z.ones 2).
    rewrite Z.land_ones by lia. change (2 ^ 2) with 4. clearbody w. Z.div_mod_to_equations. lia.
  - change READERS_PARKED with (Z.ones 1). rewrite Z.land_ones, Hw by lia. change (2 ^ 1) with 2.
    replace (4 * readers_field o + parked_bits wp rp)
      with (parked_bits wp rp + 2 * readers_field o * 2) by lia.
    rewrite Z.mod_add by lia. by destruct wp, rp.
Qed.

Lemma encode_zero o wp rp :
  owner_ok o → (encode o wp rp =? 0) = match o with Free => negb (wp || rp) | _ => false end.
Proof.
  pose proof max_readers_pos. unfold encode, WRITERS_PARKED, READERS_PARKED.
  destruct o, wp, rp; cbn [owner_ok readers_field negb orb]; intros; apply Z.eqb_eq || apply Z.eqb_neq; lia.
Qed.

Lemma encode_acquire wp rp : Z.lor (encode Free wp rp) ONE_WRITER = encode Writer wp rp.
Proof.
  pose proof (Z.add_lor_land (encode Free wp rp) ONE_WRITER) as Hl.
  destruct (encode_fields Free wp rp) as (_ & Hland & _); [done|]. rewrite Hland in Hl.
  rewrite ONE_WRITER_max in *. unfold encode in *. cbn [readers_field] in *. lia.
Qed.

(** The owner after one more reader; [None] when their number is used up. *)
Definition add_reader (o : owner) : option owner :=
  match o with
  | Free => Some (Readers 1)
  | Readers n => if n + 1 <? max_readers then Some (Readers (n + 1)) else None
  | Writer => None
  end.

Lemma encode_add_reader o wp rp :
  owner_ok o →
  match o with
  | Writer => usize_checked_add (encode o wp rp) ONE_READER = None
  | _ =>
      let w := encode o wp rp + 4 in
      usize_checked_add (encode o wp rp) ONE_READER = Some w ∧
      match add_reader o with
      | Some o' => w = encode o' wp rp ∧ owner_ok o' ∧ (Z.land w ONE_WRITER =? ONE_WRITER) = false
      | None => (Z.land w ONE_WRITER =? ONE_WRITER) = true
      end
  end.
Proof.
  intros Ho. pose proof max_readers_pos as Hm. pose proof usize_mod_max as Hmod.
  pose proof (parked_bits_range wp rp) as Hp.
  destruct (encode_fields o wp rp Ho) as (Hr & _). unfold usize_checked_add, ONE_READER.
  assert (He : ∀ o', encode o' wp rp = 4 * readers_field o' + parked_bits wp rp)
    by (intros; unfold encode, parked_bits; lia).
  assert (Hmask : ∀ o', owner_ok o' → o' ≠ Writer →
    (Z.land (encode o' wp rp) ONE_WRITER =? ONE_WRITER) = false).
  { intros o' Ho' Hne. destruct (encode_fields o' wp rp Ho') as (_ & -> & _).
    rewrite ONE_WRITER_max. apply Z.eqb_neq.
    destruct o' as [|n|]; cbn [readers_field owner_ok] in *; [lia|lia|done]. }
  assert (Hnext : ∀ o', owner_ok o' → o' ≠ Writer → encode o wp rp + 4 = encode o' wp rp →
    let w := encode o wp rp + 4 in
    w = encode o' wp rp ∧ owner_ok o' ∧ (Z.land w ONE_WRITER =? ONE_WRITER) = false).
  { intros o' Ho' Hne Hw w. subst w. rewrite Hw. auto. }
  destruct o as [|n|]; cbn [add_reader owner_ok readers_field] in *.
  - destruct (Z.ltb_spec (encode Free wp rp + 4) usize_mod) as [|Hge]; [|rewrite He in Hge; cbn [readers_field] in Hge; lia].
    split; [done|]. apply Hnext; [cbn [owner_ok]; lia|done|rewrite !He; cbn [readers_field]; lia].
  - destruct (Z.ltb_spec (encode (Readers n) wp rp + 4) usize_mod) as [|Hge]; [|rewrite He in Hge; cbn [readers_field] in Hge; lia].
    split; [done|]. destruct (Z.ltb_spec (n + 1) max_readers).
    + apply Hnext; [cbn [owner_ok]; lia|done|rewrite !He; cbn [readers_field]; lia].
    + replace (encode (Readers n) wp rp + 4) with (encode Writer wp rp)
        by (rewrite !He; cbn [readers_field]; lia).
      destruct (encode_fields Writer wp rp) as (_ & -> & _); [done|].
      rewrite ONE_WRITER_max. apply Z.eqb_refl.
  - destruct (Z.ltb_spec (encode Writer wp rp + 4) usize_mod) as [Hlt|]; [|done].
    rewrite He in Hlt. cbn [readers_field] in Hlt. lia.
Qed.

(** Acquiring the lock. *)
Lemma try_lock_exclusive_encode o wp rp :
  owner_ok o →
  try_lock_exclusive (encode o wp rp) =
    match o with
    | Free => if wp || rp then None else Some (encode Writer false false)
    | _ => None
    end.
Proof.
  intros Ho. unfold try_lock_exclusive. rewrite encode_zero by done.
  destruct o; try done. destruct wp, rp; try done. cbn.
  rewrite ONE_WRITER_max. unfold encode. f_equal. cbn. lia.
Qed.

Lemma lock_exclusive_encode o wp rp :
  owner_ok o →
  lock_exclusive (encode o wp rp) =
    match o with Free => Ret (encode Writer wp rp) | _ => Blocked end.
Proof.
  intros Ho. unfold lock_exclusive. rewrite try_lock_exclusive_encode by done.
  unfold lock_exclusive_slow. destruct (encode_fields o wp rp Ho) as (_ & -> & _).
  pose proof max_readers_pos. destruct o as [|n|]; cbn [readers_field owner_ok] in *.
  - rewrite encode_acquire, Z.lor_0_r. cbn. by destruct wp, rp.
  - destruct (Z.eqb_spec (4 * n) 0); [lia|done].
  - destruct (Z.eqb_spec (4 * max_readers) 0); [lia|done].
Qed.

Lemma try_lock_shared_encode o wp rp :
  owner_ok o →
  try_lock_shared (encode o wp rp) = (λ o', encode o' wp rp) <$> add_reader o.
Proof.
  intros Ho. unfold try_lock_shared. pose proof (encode_add_reader o wp rp Ho) as Hadd.
  destruct o as [|n|]; [..|by rewrite Hadd]; destruct Hadd as [-> Hadd];
    (destruct (add_reader _) as [o'|]; [destruct Hadd as (Hw & _ & ->); cbn; by rewrite Hw | by rewrite Hadd]).
Qed.

Lemma lock_shared_encode o wp rp :
  owner_ok o →
  lock_shared (encode o wp rp) =
    match o with
    | Writer => Blocked
    | _ => match add_reader o with Some o' => Ret (encode o' wp rp) | None => Panic end
    end.
Proof.
  intros Ho. unfold lock_shared, lock_shared_slow. rewrite try_lock_shared_encode by done.
  pose proof (encode_add_reader o wp rp Ho) as Hadd.
  destruct o as [|n|]; [..|by rewrite Hadd]; destruct Hadd as [-> Hadd];
    (destruct (add_reader _) as [o'|]; [done|by rewrite Hadd]).
Qed.

(** Releasing it. *)
Lemma unlock_exclusive_encode wp rp :
  unlock_exclusive (encode Writer wp rp) ⇓
    (encode Free (wp && rp) false,
     if rp then WakeReaders else if wp then WakeOneWriter else WakeNone).
Proof.
  unfold unlock_exclusive, unlock_exclusive_slow.
  destruct (encode_fields Writer wp rp) as (_ & -> & -> & _); [done|].
  rewrite ONE_WRITER_max. cbn [readers_field]. rewrite Z.eqb_refl.
  destruct (Z.eqb_spec (encode Writer wp rp) (4 * max_readers)) as [E|E];
    unfold encode in E; cbn [readers_field] in E;
    unfold WRITERS_PARKED, READERS_PARKED in E; destruct wp, rp; (lia || done).
Qed.

Lemma unlock_shared_encode n wp :
  0 < n < max_readers →
  unlock_shared (encode (Readers n) wp false) =
    if n =? 1 then (encode Free false false, if wp then WakeOneWriter else WakeNone)
    else (encode (Readers (n - 1)) wp false, WakeNone).
Proof.
  intros Hn. unfold unlock_shared.
  destruct (encode_fields (Readers n) wp false) as (Hr & _); [done|].
  rewrite Z.mod_small by (unfold ONE_READER, encode, WRITERS_PARKED in *; cbn [readers_field] in *; destruct wp; lia).
  change (Z.lor ONE_READER WRITERS_PARKED) with 6.
  unfold encode, WRITERS_PARKED, ONE_READER; cbn [readers_field].
  destruct (Z.eqb_spec n 1) as [->|Hne]; [by destruct wp|].
  destruct (Z.eqb_spec (4 * n + (if wp then 2 else 0) + 0) 6) as [E|E]; [destruct wp; lia|].
  f_equal. lia.
Qed.

Lemma max_readers_odd : max_readers mod 2 = 1.
Proof.
  unfold max_readers. pose proof usize_bits_bounds.
  replace (usize_bits - 2) with (Z.succ (usize_bits - 3)) by lia.
  rewrite Z.pow_succ_r by lia. Z.div_mod_to_equations. lia.
Qed.

Lemma downgrade_encode wp rp :
  downgrade (encode Writer wp rp) =
    (encode (Readers 1) wp false, if rp then WakeReaders else WakeNone).
Proof.
  unfold downgrade. destruct (encode_fields Writer wp rp) as (_ & _ & _ & ->); [done|].
  f_equal; [|by destruct rp]. change (Z.lor ONE_READER WRITERS_PARKED) with 6.
  replace 6 with (Z.land (Z.ones 3) 6) by done. rewrite Z.land_assoc, Z.land_ones by lia.
  pose proof max_readers_odd as Ho. change (2 ^ 3) with 8.
  assert (Hm : encode Writer wp rp mod 8 = 4 + parked_bits wp rp).
  { pose proof (parked_bits_range wp rp). unfold encode, parked_bits in *. cbn [readers_field].
    Z.div_mod_to_equations. lia. }
  rewrite Hm. by destruct wp, rp.
Qed.

(** C31. The functions of the lock without interference, for every owner and
    all parking bits. Acquiring is exclusive: only a free lock is taken by a
    writer, and a reader joins a free or shared lock; otherwise the blocking
    functions park and the others fail; at the largest number of readers
    [try_lock_shared] fails and [lock_shared] panics. Releasing: the assertions
    of [unlock_exclusive_slow] hold, the lock becomes free, parked readers are
    woken first (leaving the writers' parking bit set), then one parked writer;
    the last reader wakes a parked writer; downgrading turns the writer into
    one reader in a single step and wakes the parked readers. *)
Theorem lock_functions o n wp rp :
  owner_ok o → 0 < n < max_readers →
  let w := encode o wp rp in
  lock_exclusive w = (match o with Free => Ret (encode Writer wp rp) | _ => Blocked end) ∧
  try_lock_exclusive w =
    (match o with
     | Free => if wp || rp then None else Some (encode Writer false false)
     | _ => None
     end) ∧
  try_lock_shared w = (λ o', encode o' wp rp) <$> add_reader o ∧
  lock_shared w =
    (match o with
     | Writer => Blocked
     | _ => match add_reader o with Some o' => Ret (encode o' wp rp) | None => Panic end
     end) ∧
  unlock_exclusive (encode Writer wp rp) ⇓
    (encode Free (wp && rp) false,
     if rp then WakeReaders else if wp then WakeOneWriter else WakeNone) ∧
  unlock_shared (encode (Readers n) wp false) =
    (if n =? 1 then (encode Free false false, if wp then WakeOneWriter else WakeNone)
     else (encode (Readers (n - 1)) wp false, WakeNone)) ∧
  downgrade (encode Writer wp rp) =
    (encode (Readers 1) wp false, if rp then WakeReaders else WakeNone).
Proof.
  intros Ho Hn w. split_and!;
    [by apply lock_exclusive_encode|by apply try_lock_exclusive_encode
    |by apply try_lock_shared_encode|by apply lock_shared_encode
    |apply unlock_exclusive_encode|by apply unlock_shared_encode|apply downgrade_encode].
Qed.
End lock.

Section instances.
#[local] Existing Instance debug64.

Lemma lock_functions_witness :
  owner_ok (Readers 3) ∧ 0 < 1 < max_readers ∧
  lock_shared (encode (Readers 3) true false) ⇓ 18 ∧
  unlock_shared (encode (Readers 1) true false) = (0, WakeOneWriter).
Proof.
  split; [by vm_compute|]. split; [by vm_compute|].
  destruct (lock_functions (Readers 3) 1 true false) as (_ & _ & _ & -> & _ & -> & _); by vm_compute.
Defined.
End instances.
