(* ===== verification/LockMachine.v ===== *)
(** * LockMachine: the lock under interference (src/src/lock.rs)

    The functions of [RawRwLock] as programs of atomic steps on the shared
    state word, run by any number of threads in any interleaving. A thread is
    a program counter; a step is one atomic access (load, compare-exchange,
    fetch-and-modify), one call of the parking lot, or the start of an
    operation. A [choice] resolves what the program leaves open: which
    operation a thread starts, spurious failures of [compare_exchange_weak],
    the decision of [SpinWait::spin] and the thread [unpark_one] wakes.

    [parking_lot_core] is used through its documentation: [park] validates and
    enqueues atomically with respect to unparking, [unpark_one] wakes one
    thread parked on the key, [unpark_all] wakes all of them, and parked
    threads do not wake otherwise. The threads parked on a key are those whose
    program counter is [ParkedX] (key [self]) or [ParkedS] (key [self + 1]). *)

From stdpp Require Import base gmap list.
From S2P Require Import Prelude Machine Lock.

Open Scope Z_scope.

(** Which attempt of [try_lock_shared_fast] runs: the two of [lock_shared] or
    the one of [try_lock_shared]. *)
Inductive attempt := First | Second | Try.

(** Program counters; [s] is the local variable [state]. *)
Inductive pc :=
| Idle
(* try_lock_exclusive; lock_exclusive: the two fast attempts *)
| TryX
| LockX1
| LockX2
(* lock_exclusive_slow: load, inner loop, call of park, parked *)
| LockXLoad (acquire_with : Z)
| LockXLoop (acquire_with s : Z)
| LockXPark
| ParkedX
(* the write lock is held *)
| HoldX
(* unlock_exclusive; unlock_exclusive_slow: load, compare-exchange, store *)
| UnlockX
| UnlockXLoad
| UnlockXFree (s : Z)
| UnlockXStore
(* unpark_all of the readers when releasing; unpark_one of the writers *)
| WakeS
| WakeX
(* downgrade; its unpark_all, the lock already being shared *)
| Downgrade
| DowngradeWake
(* try_lock_shared_fast: load and compare-exchange; try_lock_shared_slow *)
| FastS (a : attempt)
| FastSCas (a : attempt) (s : Z)
| TrySLoad
| TrySLoop (s : Z)
(* lock_shared_slow *)
| LockSLoad
| LockSLoop (s : Z)
| LockSPark
| ParkedS
(* a read lock is held *)
| HoldS
(* unlock_shared; unlock_shared_slow *)
| UnlockS
| UnlockSSlow.

#[global] Instance attempt_eq_dec : EqDecision attempt.
Proof. solve_decision. Defined.
#[global] Instance pc_eq_dec : EqDecision pc.
Proof. solve_decision. Defined.

(** The operations a thread may start, and how a step goes. *)
Inductive choice :=
| StartLockX | StartTryX | StartLockS | StartTryS | StartUnlock | StartDowngrade
| Go           (* the step goes as written *)
| Spurious     (* a weak compare-exchange fails spuriously *)
| Spin         (* [spin.spin()] returns [true] *)
| Wake (t : nat). (* [unpark_one] wakes [t] *)

(** The shared word and the threads. *)
Record lstate := mkState { word : Z; pcs : list pc }.

Section machine.
Context `{!Target}.
Implicit Types (w s : Z) (p : pc) (ch : choice) (σ : lstate).

(** [compare_exchange_weak(s, _)] on the word [w]: does it succeed? *)
Definition cas_weak ch w s : bool :=
  match ch with Spurious => false | _ => w =? s end.

Definition bit_set w m : bool := negb (Z.land w m =? 0).
Definition writer_held w : bool := Z.land w ONE_WRITER =? ONE_WRITER.

(** Where [try_lock_shared_fast] continues when it returned [false]. *)
Definition fast_failed (a : attempt) : pc :=
  match a with First => FastS Second | Second => LockSLoad | Try => TrySLoad end.

(** The steps of one thread on the word; the two unparking steps, which also
    change other threads, and the parked threads are left to [step]. *)
Definition tstep ch w p : outcome (Z * pc) :=
  match p with
  | Idle =>
      match ch with
      | StartLockX => Ret (w, LockX1)
      | StartTryX => Ret (w, TryX)
      | StartLockS => Ret (w, FastS First)
      | StartTryS => Ret (w, FastS Try)
      | _ => Blocked
      end
  | TryX => if w =? 0 then Ret (ONE_WRITER, HoldX) else Ret (w, Idle)
  | LockX1 => if cas_weak ch w 0 then Ret (ONE_WRITER, HoldX) else Ret (w, LockX2)
  | LockX2 => if cas_weak ch w 0 then Ret (ONE_WRITER, HoldX) else Ret (w, LockXLoad 0)
  | LockXLoad aw => Ret (w, LockXLoop aw w)
  | LockXLoop aw s =>
      if Z.land s ONE_WRITER =? 0 then
        if cas_weak ch w s then Ret (Z.lor (Z.lor s ONE_WRITER) aw, HoldX)
        else Ret (w, LockXLoop aw w)
      else if Z.land s WRITERS_PARKED =? 0 then
        match ch with
        | Spin => Ret (w, LockXLoad aw)
        | _ => if cas_weak ch w s then Ret (Z.lor s WRITERS_PARKED, LockXPark)
               else Ret (w, LockXLoop aw w)
        end
      else Ret (w, LockXPark)
  | LockXPark =>
      if bit_set w ONE_WRITER && bit_set w WRITERS_PARKED then Ret (w, ParkedX)
      else Ret (w, LockXLoad WRITERS_PARKED)
  | HoldX =>
      match ch with
      | StartUnlock => Ret (w, UnlockX)
      | StartDowngrade => Ret (w, Downgrade)
      | _ => Blocked
      end
  | UnlockX => if w =? ONE_WRITER then Ret (0, Idle) else Ret (w, UnlockXLoad)
  | UnlockXLoad =>
      _ ← rust_assert (writer_held w);
      _ ← rust_assert (bit_set w (Z.lor READERS_PARKED WRITERS_PARKED));
      Ret (w, UnlockXFree w)
  | UnlockXFree s =>
      let parked := Z.land s (Z.lor READERS_PARKED WRITERS_PARKED) in
      if negb (parked =? Z.lor READERS_PARKED WRITERS_PARKED) then
        if w =? s then
          if parked =? READERS_PARKED then Ret (0, WakeS)
          else _ ← rust_assert (parked =? WRITERS_PARKED); Ret (0, WakeX)
        else
          _ ← rust_assert (w =? Z.lor ONE_WRITER (Z.lor READERS_PARKED WRITERS_PARKED));
          Ret (w, UnlockXStore)
      else Ret (w, UnlockXStore)
  | UnlockXStore => Ret (WRITERS_PARKED, WakeS)
  | Downgrade =>
      Ret (Z.land w (Z.lor ONE_READER WRITERS_PARKED),
           if bit_set w READERS_PARKED then DowngradeWake else HoldS)
  | FastS a =>
      match usize_checked_add w ONE_READER with
      | Some new_state =>
          if negb (writer_held new_state) then Ret (w, FastSCas a w)
          else Ret (w, fast_failed a)
      | None => Ret (w, fast_failed a)
      end
  | FastSCas a s =>
      if cas_weak ch w s then Ret (s + ONE_READER, HoldS) else Ret (w, fast_failed a)
  | TrySLoad => Ret (w, TrySLoop w)
  | TrySLoop s =>
      match usize_checked_add s ONE_READER with
      | Some new_state =>
          if writer_held new_state then Ret (w, Idle)
          else if cas_weak ch w s then Ret (new_state, HoldS)
          else Ret (w, TrySLoop w)
      | None => Ret (w, Idle)
      end
  | LockSLoad => Ret (w, LockSLoop w)
  | LockSLoop s =>
      match usize_checked_add s ONE_READER with
      | Some new_state =>
          _ ← rust_assert (negb (writer_held new_state));
          if cas_weak ch w s then Ret (new_state, HoldS) else Ret (w, LockSLoad)
      | None =>
          if Z.land s READERS_PARKED =? 0 then
            match ch with
            | Spin => Ret (w, LockSLoad)
            | _ => if cas_weak ch w s then Ret (Z.lor s READERS_PARKED, LockSPark)
                   else Ret (w, LockSLoop w)
            end
          else Ret (w, LockSPark)
      end
  | LockSPark =>
      if writer_held w && bit_set w READERS_PARKED then Ret (w, ParkedS)
      else Ret (w, LockSLoad)
  | HoldS => match ch with StartUnlock => Ret (w, UnlockS) | _ => Blocked end
  | UnlockS =>
      Ret ((w - ONE_READER) mod usize_mod,
           if w =? Z.lor ONE_READER WRITERS_PARKED then UnlockSSlow else Idle)
  | UnlockSSlow => if w =? WRITERS_PARKED then Ret (0, WakeX) else Ret (w, Idle)
  | WakeS | WakeX | DowngradeWake | ParkedX | ParkedS => Blocked
  end.

(** [unpark_all] on the readers' key. *)
Definition unpark p : pc := match p with ParkedS => LockSLoad | _ => p end.

(** A step of thread [t]; [Blocked] when it cannot take this step, [Panic]
    when an assertion fails. *)
Definition step (t : nat) ch σ : outcome lstate :=
  match pcs σ !! t with
  | None => Blocked
  | Some WakeS => Ret (mkState (word σ) (<[t := Idle]> (unpark <$> pcs σ)))
  | Some DowngradeWake => Ret (mkState (word σ) (<[t := HoldS]> (unpark <$> pcs σ)))
  | Some WakeX =>
      match ch with
      | Wake t' =>
          if bool_decide (pcs σ !! t' = Some ParkedX) then
            Ret (mkState (word σ)
                   (<[t := Idle]> (<[t' := LockXLoad WRITERS_PARKED]> (pcs σ))))
          else Blocked
      | _ =>
          if bool_decide (ParkedX ∈ pcs σ) then Blocked
          else Ret (mkState (word σ) (<[t := Idle]> (pcs σ)))
      end
  | Some p => '(w, p') ← tstep ch (word σ) p; Ret (mkState w (<[t := p']> (pcs σ)))
  end.

(** Runs of [n] threads from [RawRwLock::INIT]. *)
Definition initial (n : nat) : lstate := mkState lock_init (replicate n Idle).

Inductive reachable (n : nat) : lstate → Prop :=
| reach_init : reachable n (initial n)
| reach_step t ch σ σ' : reachable n σ → step t ch σ ⇓ σ' → reachable n σ'.

(** A run along a given schedule. *)
Fixpoint run (schedule : list (nat * choice)) σ : outcome lstate :=
  match schedule with
  | [] => Ret σ
  | (t, ch) :: rest => σ ← step t ch σ; run rest σ
  end.
End machine.
