(* ===== verification/LockInv.v ===== *)
(** * LockInv: the invariant of the lock under interference

    Counts of threads per kind of program counter tie the state word to what
    the threads are doing: the owner field to the threads that hold the lock,
    and the parking bits to the threads that wait or are about to wake
    somebody. Every step of every thread keeps the invariant, no assertion of
    lock.rs fails, and no wake-up is lost. *)

From Stdlib Require Import ZifyBool.
From stdpp Require Import base gmap list.
From S2P Require Import Prelude Machine Lock LockMachine.

Open Scope Z_scope.

(** ** Counting threads *)

Fixpoint cnt (f : pc → bool) (ps : list pc) : Z :=
  match ps with
  | [] => 0
  | p :: ps' => Z.b2z (f p) + cnt f ps'
  end.

Section counting.
Implicit Types (f : pc → bool) (ps : list pc) (p : pc).

Lemma b2z_range b : 0 ≤ Z.b2z b ≤ 1.
Proof. destruct b; cbn; lia. Qed.

Lemma cnt_nonneg f ps : 0 ≤ cnt f ps.
Proof. induction ps as [|p ps IH]; cbn; [lia|]. pose proof (b2z_range (f p)). lia. Qed.

Lemma cnt_length f ps : cnt f ps ≤ Z.of_nat (length ps).
Proof. induction ps as [|p ps IH]; cbn [cnt length]; [lia|]. pose proof (b2z_range (f p)). lia. Qed.

Lemma cnt_insert f ps t p p' :
  ps !! t = Some p → cnt f (<[t := p']> ps) = cnt f ps - Z.b2z (f p) + Z.b2z (f p').
Proof.
  revert t. induction ps as [|q ps IH]; intros [|t]; [done..| |].
  - intros [= ->]. cbn. lia.
  - intros Ht. change (Z.b2z (f q) + cnt f (<[t := p']> ps) = Z.b2z (f q) + cnt f ps - Z.b2z (f p) + Z.b2z (f p')).
    rewrite (IH t Ht). lia.
Qed.

Lemma cnt_fmap f (g : pc → pc) ps : cnt f (g <$> ps) = cnt (f ∘ g) ps.
Proof. induction ps as [|p ps IH]; cbn; [done|]. by rewrite IH. Qed.

Lemma cnt_ext f g ps : (∀ p, f p = g p) → cnt f ps = cnt g ps.
Proof. intros Hfg. induction ps as [|p ps IH]; cbn; [done|]. by rewrite IH, Hfg. Qed.

Lemma cnt_member f ps t p : ps !! t = Some p → Z.b2z (f p) ≤ cnt f ps.
Proof.
  revert t. induction ps as [|q ps IH]; intros [|t] Ht; cbn in *; [done..| |].
  - injection Ht as ->. pose proof (cnt_nonneg f ps). lia.
  - pose proof (b2z_range (f q)). specialize (IH t Ht). lia.
Qed.

(** Two threads. *)
Lemma cnt_members f ps t t' p p' :
  ps !! t = Some p → ps !! t' = Some p' → t ≠ t' → Z.b2z (f p) + Z.b2z (f p') ≤ cnt f ps.
Proof.
  revert t t'. induction ps as [|q ps IH]; intros [|t] [|t'] Ht Ht' Hne; cbn in *; try done.
  - injection Ht as ->. pose proof (cnt_member f _ _ _ Ht'). lia.
  - injection Ht' as ->. pose proof (cnt_member f _ _ _ Ht). lia.
  - pose proof (b2z_range (f q)). assert (t ≠ t') as Hne' by congruence. specialize (IH t t' Ht Ht' Hne'). lia.
Qed.

Lemma cnt_pos f ps : 0 < cnt f ps ↔ ∃ t p, ps !! t = Some p ∧ f p = true.
Proof.
  split.
  - induction ps as [|p ps IH]; cbn; [lia|]. destruct (f p) eqn:Hf; cbn.
    + intros _. by exists 0%nat, p.
    + intros Hc. destruct IH as (t & q & ? & ?); [lia|]. by exists (S t), q.
  - intros (t & p & Ht & Hf). pose proof (cnt_member f _ _ _ Ht) as Hm. rewrite Hf in Hm. cbn in Hm. lia.
Qed.

Lemma cnt_replicate f n : f Idle = false → cnt f (replicate n Idle) = 0.
Proof. intros Hf. induction n as [|n IH]; cbn; [done|]. by rewrite IH, Hf. Qed.
End counting.

(** ** Kinds of program counters *)

(** The thread has the write lock, or a read lock. *)
Definition holds_x (p : pc) : bool :=
  match p with
  | HoldX | UnlockX | UnlockXLoad | UnlockXFree _ | UnlockXStore | Downgrade => true
  | _ => false
  end.

Definition holds_s (p : pc) : bool :=
  match p with HoldS | UnlockS | DowngradeWake => true | _ => false end.

(** In [lock_shared_slow]: the thread will take the lock before it leaves. *)
Definition pending_s (p : pc) : bool :=
  match p with LockSLoad | LockSLoop _ | LockSPark | ParkedS => true | _ => false end.

(** A last reader that will look for parked writers. *)
Definition last_reader (p : pc) : bool := match p with UnlockSSlow => true | _ => false end.

Definition parked_s (p : pc) : bool := match p with ParkedS => true | _ => false end.
Definition parked_x (p : pc) : bool := match p with ParkedX => true | _ => false end.

(** About to wake the parked readers. *)
Definition wakes_s (p : pc) : bool :=
  match p with WakeS | DowngradeWake => true | _ => false end.

(** About to wake a parked writer, or to take the lock with the writers'
    parking bit. *)
Definition wakes_x (p : pc) : bool :=
  match p with
  | WakeX | LockXPark => true
  | LockXLoad aw | LockXLoop aw _ => aw =? WRITERS_PARKED
  | _ => false
  end.

Section invariant.
Context `{!Target}.
Implicit Types (o : owner) (wp rp : bool) (ps : list pc) (p : pc) (N : Z) (σ : lstate).

(** A word some thread may have read: [N] bounds the number of readers. *)
Definition plausible N (s : Z) : Prop :=
  ∃ o wp rp, s = encode o wp rp ∧ owner_ok o ∧ match o with Readers n => n ≤ N | _ => True end.

(** The local variables of a thread. *)
Definition locals_ok N p : Prop :=
  match p with
  | LockXLoad aw => aw = 0 ∨ aw = WRITERS_PARKED
  | LockXLoop aw s => (aw = 0 ∨ aw = WRITERS_PARKED) ∧ plausible N s
  | TrySLoop s | LockSLoop s => plausible N s
  | FastSCas _ s => ∃ o wp rp o', s = encode o wp rp ∧ owner_ok o ∧ add_reader o = Some o'
  | _ => True
  end.

(** What the writer knows about the parking bits while it releases. *)
Definition phase_ok wp rp p : Prop :=
  match p with
  | UnlockXLoad => wp || rp = true
  | UnlockXFree s => ∃ a b, s = encode Writer a b ∧ a || b = true ∧ (a → wp) ∧ (b → rp)
  | UnlockXStore => wp && rp = true
  | _ => True
  end.

(** The owner field against the number of writers [x] and readers [s]. *)
Definition owned o (x s : Z) : Prop :=
  match o with
  | Free => x = 0 ∧ s = 0
  | Readers n => x = 0 ∧ s = n ∧ 0 < n
  | Writer => x = 1 ∧ s = 0
  end.

Record linv N o wp rp ps : Prop := {
  li_threads : Z.of_nat (length ps) = N ∧ N + 1 < max_readers;
  li_owned : owned o (cnt holds_x ps) (cnt holds_s ps);
  (** the readers' bit is set under a writer, by a waiting reader *)
  li_readers_bit : rp = true → cnt holds_x ps = 1 ∧ 0 < cnt pending_s ps;
  (** the writers' bit of a free lock is taken care of *)
  li_writers_bit : wp = true → cnt holds_x ps + cnt holds_s ps = 0 →
    0 < cnt pending_s ps + cnt last_reader ps;
  (** parked threads have a bit set or a waker *)
  li_parked_s : 0 < cnt parked_s ps → rp = true ∨ 0 < cnt wakes_s ps;
  li_parked_x : 0 < cnt parked_x ps → wp = true ∨ 0 < cnt wakes_x ps;
  li_locals t p : ps !! t = Some p → locals_ok N p;
  li_phase t p : ps !! t = Some p → phase_ok wp rp p
}.

(** ** Words *)

Lemma linv_owner_ok N o wp rp ps : linv N o wp rp ps → owner_ok o.
Proof.
  intros [[HN Hmax] Ho _ _ _ _ _ _]. destruct o as [|n|]; cbn in *; [done| |done].
  pose proof (cnt_length holds_s ps). lia.
Qed.

Lemma linv_plausible N o wp rp ps : linv N o wp rp ps → plausible N (encode o wp rp).
Proof.
  intros Hi. exists o, wp, rp. split_and!; [done|by eapply linv_owner_ok|].
  destruct Hi as [[HN Hmax] Ho _ _ _ _ _ _]. destruct o as [|n|]; cbn in *; [done| |done].
  pose proof (cnt_length holds_s ps). lia.
Qed.

Lemma encode_inj o wp rp o' wp' rp' :
  owner_ok o → owner_ok o' → encode o wp rp = encode o' wp' rp' → o = o' ∧ wp = wp' ∧ rp = rp'.
Proof.
  intros Ho Ho' He. pose proof max_readers_pos.
  pose proof (readers_field_range o Ho). pose proof (readers_field_range o' Ho').
  unfold encode, WRITERS_PARKED, READERS_PARKED in He.
  assert (Hf : readers_field o = readers_field o') by (destruct wp, rp, wp', rp'; lia).
  split_and!; [|destruct wp, rp, wp', rp'; done || lia..].
  destruct o, o'; cbn in *; try done || lia. f_equal; lia.
Qed.

Lemma encode_eqb o wp rp o' wp' rp' :
  owner_ok o → owner_ok o' →
  (encode o wp rp =? encode o' wp' rp') = true → o = o' ∧ wp = wp' ∧ rp = rp'.
Proof. intros Ho Ho' He%Z.eqb_eq. by apply encode_inj. Qed.

Lemma cas_weak_encode ch o wp rp o' wp' rp' :
  owner_ok o → owner_ok o' → cas_weak ch (encode o wp rp) (encode o' wp' rp') = true →
  o' = o ∧ wp' = wp ∧ rp' = rp.
Proof. intros Ho Ho' Hc. destruct ch; try done; by apply encode_eqb in Hc as (-> & -> & ->). Qed.

Lemma encode_bits o wp rp :
  owner_ok o →
  Z.land (encode o wp rp) WRITERS_PARKED = (if wp then 2 else 0) ∧
  Z.lor (encode o wp rp) WRITERS_PARKED = encode o true rp ∧
  Z.lor (encode o wp rp) READERS_PARKED = encode o wp true.
Proof.
  intros Ho. destruct (encode_fields o wp rp Ho) as (_ & _ & Hb & Hr).
  assert (Hw : Z.land (encode o wp rp) WRITERS_PARKED = (if wp then 2 else 0)).
  { change WRITERS_PARKED with (Z.land (Z.lor READERS_PARKED WRITERS_PARKED) 2).
    rewrite Z.land_assoc, Hb. by destruct wp, rp. }
  split; [done|]. pose proof (Z.add_lor_land (encode o wp rp) WRITERS_PARKED) as H1.
  pose proof (Z.add_lor_land (encode o wp rp) READERS_PARKED) as H2.
  rewrite Hw in H1. rewrite Hr in H2. unfold encode, WRITERS_PARKED, READERS_PARKED in *.
  destruct wp, rp; cbv beta iota in *; split; lia.
Qed.

(** The constants of lock.rs as encoded words. *)
Lemma ONE_WRITER_encode : ONE_WRITER = encode Writer false false.
Proof. rewrite ONE_WRITER_max. unfold encode. cbn. lia. Qed.

Lemma both_parked_encode :
  Z.lor ONE_WRITER (Z.lor READERS_PARKED WRITERS_PARKED) = encode Writer true true.
Proof.
  rewrite Z.lor_assoc. rewrite ONE_WRITER_encode.
  destruct (encode_bits Writer false false) as (_ & _ & ->); [done|].
  by destruct (encode_bits Writer false true) as (_ & -> & _).
Qed.

Lemma writer_held_encode o wp rp :
  owner_ok o → writer_held (encode o wp rp) = match o with Writer => true | _ => false end.
Proof.
  intros Ho. unfold writer_held. destruct (encode_fields o wp rp Ho) as (_ & -> & _).
  rewrite ONE_WRITER_max. pose proof max_readers_pos.
  destruct o as [|n|]; cbn [readers_field owner_ok] in *; apply Z.eqb_eq || apply Z.eqb_neq; lia.
Qed.

Lemma free_encode o wp rp :
  owner_ok o → (Z.land (encode o wp rp) ONE_WRITER =? 0) = match o with Free => true | _ => false end.
Proof.
  intros Ho. destruct (encode_fields o wp rp Ho) as (_ & -> & _). pose proof max_readers_pos.
  destruct o as [|n|]; cbn [readers_field owner_ok] in *; apply Z.eqb_eq || apply Z.eqb_neq; lia.
Qed.

Lemma leave_encode n wp rp :
  0 < n < max_readers →
  (encode (Readers n) wp rp - ONE_READER) mod usize_mod =
    encode (if n =? 1 then Free else Readers (n - 1)) wp rp.
Proof.
  intros Hn. destruct (encode_fields (Readers n) wp rp) as (Hr & _); [done|].
  assert (encode (Readers n) wp rp = 4 * n + parked_bits wp rp) as He
    by (unfold encode, parked_bits; cbn [readers_field]; lia).
  pose proof (parked_bits_range wp rp). rewrite Z.mod_small by (unfold ONE_READER; lia).
  rewrite He. unfold ONE_READER, encode. fold (parked_bits wp rp).
  destruct (Z.eqb_spec n 1) as [->|]; cbn [readers_field]; unfold parked_bits; lia.
Qed.

(** Taking a read lock on a plausible word. *)
Lemma plausible_add N s new :
  N + 1 < max_readers → plausible N s → usize_checked_add s ONE_READER = Some new →
  writer_held new = false ∧ ∃ o wp rp o', s = encode o wp rp ∧ owner_ok o ∧
    add_reader o = Some o' ∧ new = encode o' wp rp.
Proof.
  intros HN (o & wp & rp & -> & Ho & Hn) Hadd. pose proof max_readers_pos.
  pose proof (encode_add_reader o wp rp Ho) as Hc.
  assert (∃ o', add_reader o = Some o' ∧ o ≠ Writer) as (o' & Ho' & Hne).
  { destruct o as [|n|]; cbn in *; [by eexists| |congruence].
    destruct (Z.ltb_spec (n + 1) max_readers); [by eexists|lia]. }
  assert (usize_checked_add (encode o wp rp) ONE_READER = Some (encode o wp rp + 4) ∧
    encode o wp rp + 4 = encode o' wp rp ∧ owner_ok o' ∧
    (Z.land (encode o wp rp + 4) ONE_WRITER =? ONE_WRITER) = false) as (Ha & He & Hok & Hm).
  { destruct o; [..|done]; rewrite Ho' in Hc; destruct Hc as (? & ? & ? & ?); done. }
  rewrite Ha in Hadd. injection Hadd as <-. split; [exact Hm|].
  exists o, wp, rp, o'. by rewrite He.
Qed.

Lemma checked_add_writer s N :
  N + 1 < max_readers → plausible N s → usize_checked_add s ONE_READER = None →
  ∃ wp rp, s = encode Writer wp rp.
Proof.
  intros HN (o & wp & rp & -> & Ho & Hn) Hadd. exists wp, rp.
  pose proof (encode_add_reader o wp rp Ho) as Hc. destruct o as [|n|]; [..|done];
    destruct Hc as [Hc _]; congruence.
Qed.

(** ** Steps *)

(** How the count of a kind changes when a thread goes from [p] to [p']. *)
Definition moved (f : pc → bool) ps p p' : Z := cnt f ps - Z.b2z (f p) + Z.b2z (f p').

Lemma others_phase N o wp rp wp' rp' ps t p p' :
  linv N o wp rp ps → ps !! t = Some p → phase_ok wp' rp' p' →
  ((wp → wp') ∧ (rp → rp') ∨ cnt holds_x ps = Z.b2z (holds_x p)) →
  ∀ t0 p0, <[t := p']> ps !! t0 = Some p0 → phase_ok wp' rp' p0.
Proof.
  intros Hi Hp Hp' Hbits t0 p0 Hq. destruct (decide (t = t0)) as [<-|Hne].
  { rewrite list_lookup_insert_eq in Hq by (by eapply lookup_lt_Some). by simplify_eq. }
  rewrite list_lookup_insert_ne in Hq by done. pose proof (li_phase _ _ _ _ _ Hi _ _ Hq) as Hph.
  destruct Hbits as [[Hw Hr]|Hx].
  - destruct p0; cbn in *; try done.
    + destruct wp, rp, wp', rp'; naive_solver.
    + destruct Hph as (a & b & ? & ? & ? & ?). exists a, b. naive_solver.
    + destruct wp, rp, wp', rp'; naive_solver.
  - pose proof (cnt_members holds_x _ _ _ _ _ Hp Hq Hne). destruct p0; cbn in *; done || lia.
Qed.

Lemma linv_set N o wp rp ps t p o' wp' rp' p' :
  linv N o wp rp ps → ps !! t = Some p → locals_ok N p' → phase_ok wp' rp' p' →
  ((wp → wp') ∧ (rp → rp') ∨ cnt holds_x ps = Z.b2z (holds_x p)) →
  owned o' (moved holds_x ps p p') (moved holds_s ps p p') →
  (rp' = true → moved holds_x ps p p' = 1 ∧ 0 < moved pending_s ps p p') →
  (wp' = true → moved holds_x ps p p' + moved holds_s ps p p' = 0 →
    0 < moved pending_s ps p p' + moved last_reader ps p p') →
  (0 < moved parked_s ps p p' → rp' = true ∨ 0 < moved wakes_s ps p p') →
  (0 < moved parked_x ps p p' → wp' = true ∨ 0 < moved wakes_x ps p p') →
  linv N o' wp' rp' (<[t := p']> ps).
Proof.
  intros Hi Hp Hl Hph Hbits. unfold moved. rewrite <-!(cnt_insert _ _ _ _ _ Hp). intros.
  constructor; [|done..| |by eapply others_phase].
  - rewrite length_insert. apply Hi.
  - intros t0 p0 Hq. destruct (decide (t = t0)) as [<-|Hne].
    { rewrite list_lookup_insert_eq in Hq by (by eapply lookup_lt_Some). by simplify_eq. }
    rewrite list_lookup_insert_ne in Hq by done. by eapply li_locals.
Qed.

End invariant.

(** Closes the arithmetic about a thread that goes from a given program
    counter to another one. *)
Ltac lock_facts Hi Hp :=
  pose proof (li_owned _ _ _ _ _ Hi); pose proof (li_readers_bit _ _ _ _ _ Hi);
  pose proof (li_writers_bit _ _ _ _ _ Hi); pose proof (li_parked_s _ _ _ _ _ Hi);
  pose proof (li_parked_x _ _ _ _ _ Hi);
  pose proof (cnt_member holds_x _ _ _ Hp); pose proof (cnt_member holds_s _ _ _ Hp);
  pose proof (cnt_member pending_s _ _ _ Hp); pose proof (cnt_member last_reader _ _ _ Hp);
  pose proof (cnt_member wakes_x _ _ _ Hp); pose proof (cnt_member wakes_s _ _ _ Hp);
  pose proof (cnt_member parked_s _ _ _ Hp); pose proof (cnt_member parked_x _ _ _ Hp).

Ltac lock_arith o :=
  unfold moved in *; cbn [holds_x holds_s pending_s last_reader parked_s parked_x wakes_s wakes_x] in *;
  change (0 =? WRITERS_PARKED) with false in *;
  change (WRITERS_PARKED =? WRITERS_PARKED) with true in *;
  cbn [Z.b2z owned] in *;
  try lia; try (destruct o; cbn [owned] in *; lia).

(** The thread moved; the lock is now [encode o' wp' rp']. *)
Ltac lock_move Hi Hp o o' wp' rp' :=
  exists o', wp', rp'; split; [try done|
    lock_facts Hi Hp;
    apply (linv_set _ _ _ _ _ _ _ _ _ _ _ Hi Hp);
    [try done | try done | | lock_arith o | lock_arith o | lock_arith o | lock_arith o | lock_arith o];
    try (left; split; by intros)].

Section invariant_steps.
Context `{!Target}.
Implicit Types (o : owner) (wp rp : bool) (ps : list pc) (p : pc) (N : Z) (σ : lstate).

Section steps.
Context N o wp rp ps (Hi : linv N o wp rp ps).

Definition keeps (t : nat) (w' : Z) (p' : pc) : Prop :=
  ∃ o' wp' rp', w' = encode o' wp' rp' ∧ linv N o' wp' rp' (<[t := p']> ps).

Lemma Idle_keeps t ch w' p' :
  ps !! t = Some Idle → tstep ch (encode o wp rp) Idle ⇓ (w', p') → keeps t w' p'.
Proof.
  intros Hp Hs. destruct ch; try done; injection Hs as <- <-; lock_move Hi Hp o o wp rp.
Qed.

(** Taking the free lock with nobody parked. *)
Lemma take_free t p :
  ps !! t = Some p → p = TryX ∨ p = LockX1 ∨ p = LockX2 → encode o wp rp = 0 →
  keeps t ONE_WRITER HoldX.
Proof.
  intros Hp Hk Hz. pose proof (linv_owner_ok _ _ _ _ _ Hi) as Ho.
  apply Z.eqb_eq in Hz. rewrite encode_zero in Hz by done. destruct o; try done.
  destruct wp, rp; try done. destruct Hk as [->|[->| ->]];
    lock_move Hi Hp Free Writer false false; apply ONE_WRITER_encode.
Qed.

(** [try_lock_exclusive] and the fast attempts of [lock_exclusive]. *)
Lemma LockX_keeps t p ch w' p' :
  ps !! t = Some p → p = TryX ∨ p = LockX1 ∨ p = LockX2 →
  tstep ch (encode o wp rp) p ⇓ (w', p') → keeps t w' p'.
Proof.
  intros Hp Hk Hs.
  assert (w' = ONE_WRITER ∧ p' = HoldX ∧ encode o wp rp = 0 ∨
    w' = encode o wp rp ∧ p' = match p with TryX => Idle | LockX1 => LockX2 | _ => LockXLoad 0 end)
    as [(-> & -> & Hz)|[-> ->]].
  { destruct Hk as [->|[->| ->]]; cbn [tstep] in Hs; unfold cas_weak in Hs; destruct ch;
      repeat case_match; simplify_eq; first [by right | left; split_and!; [done..|lia]]. }
  - by eapply take_free.
  - destruct Hk as [->|[->| ->]]; lock_move Hi Hp o o wp rp; by left.
Qed.

Lemma LockXLoad_keeps t aw ch w' p' :
  ps !! t = Some (LockXLoad aw) → tstep ch (encode o wp rp) (LockXLoad aw) ⇓ (w', p') → keeps t w' p'.
Proof.
  intros Hp Hs. injection Hs as <- <-. lock_move Hi Hp o o wp rp.
  split; [by apply (li_locals _ _ _ _ _ Hi _ _ Hp)|by eapply linv_plausible].
Qed.

(** The inner loop of [lock_exclusive_slow]. *)
Lemma LockXLoop_keeps t aw s ch w' p' :
  ps !! t = Some (LockXLoop aw s) → tstep ch (encode o wp rp) (LockXLoop aw s) ⇓ (w', p') →
  keeps t w' p'.
Proof.
  intros Hp Hs. destruct (li_locals _ _ _ _ _ Hi _ _ Hp) as [Haw (o0 & a & b & -> & Ho0 & _)].
  pose proof (linv_owner_ok _ _ _ _ _ Hi) as Ho. pose proof (linv_plausible _ _ _ _ _ Hi) as Hpl.
  cbn [tstep] in Hs. rewrite free_encode in Hs by done.
  destruct (encode_bits o0 a b Ho0) as (Hwb & Hlw & _). rewrite Hwb, Hlw in Hs.
  destruct (decide (o0 = Free)) as [->|Hne].
  - destruct (cas_weak _ _ _) eqn:Hc.
    + apply cas_weak_encode in Hc as (<- & -> & ->); [|done..]. injection Hs as <- <-. rewrite encode_acquire.
      destruct Haw as [-> | ->].
      * rewrite Z.lor_0_r. lock_move Hi Hp Free Writer wp rp.
      * destruct (encode_bits Writer wp rp) as (_ & -> & _); [done|].
        lock_move Hi Hp Free Writer true rp.
    + injection Hs as <- <-. lock_move Hi Hp o o wp rp.
  - assert (match o0 with Free => true | _ => false end = false) as Hf by (by destruct o0).
    rewrite Hf in Hs. destruct a; cbn in Hs.
    + injection Hs as <- <-. lock_move Hi Hp o o wp rp.
    + assert (w' = encode o wp rp ∧ (p' = LockXLoad aw ∨ p' = LockXLoop aw (encode o wp rp)) ∨
        cas_weak ch (encode o wp rp) (encode o0 false b) = true ∧
        w' = encode o0 true b ∧ p' = LockXPark) as [[-> [-> | ->]]|(Hc & -> & ->)]
        by (destruct ch; cbn in *; repeat case_match; simplify_eq; eauto 6).
      * lock_move Hi Hp o o wp rp.
      * lock_move Hi Hp o o wp rp.
      * apply cas_weak_encode in Hc as (-> & <- & ->); [|done..].
        lock_move Hi Hp o o true rp.
Qed.

(** The call of [park] with its validation. *)
Lemma LockXPark_keeps t ch w' p' :
  ps !! t = Some LockXPark → tstep ch (encode o wp rp) LockXPark ⇓ (w', p') → keeps t w' p'.
Proof.
  intros Hp Hs. pose proof (linv_owner_ok _ _ _ _ _ Hi) as Ho. cbn [tstep] in Hs. unfold bit_set in Hs.
  destruct (encode_bits o wp rp Ho) as (Hwb & _). rewrite Hwb in Hs.
  destruct (negb _ && _) eqn:Hb; injection Hs as <- <-.
  - destruct wp; [|by rewrite andb_false_r in Hb]. lock_move Hi Hp o o true rp.
  - lock_move Hi Hp o o wp rp; by right.
Qed.

(** *** Releasing the write lock *)

Lemma HoldX_keeps t ch w' p' :
  ps !! t = Some HoldX → tstep ch (encode o wp rp) HoldX ⇓ (w', p') → keeps t w' p'.
Proof. intros Hp Hs. destruct ch; try done; injection Hs as <- <-; lock_move Hi Hp o o wp rp. Qed.

(** A thread in a writer's phase owns the lock. *)
Lemma holder_x t p : ps !! t = Some p → holds_x p = true → o = Writer.
Proof.
  intros Hp Hx. pose proof (cnt_member holds_x _ _ _ Hp) as Hm. rewrite Hx in Hm. cbn in Hm.
  pose proof (li_owned _ _ _ _ _ Hi) as Ho. destruct o; cbn in Ho; [lia|lia|done].
Qed.

Lemma holder_s t p : ps !! t = Some p → holds_s p = true → ∃ n, o = Readers n ∧ 0 < n < max_readers ∧ rp = false.
Proof.
  intros Hp Hx. pose proof (cnt_member holds_s _ _ _ Hp) as Hm. rewrite Hx in Hm. cbn in Hm.
  pose proof (li_owned _ _ _ _ _ Hi) as Ho. pose proof (li_readers_bit _ _ _ _ _ Hi) as Hr.
  pose proof (linv_owner_ok _ _ _ _ _ Hi) as Hok.
  destruct o as [|n|]; cbn in Ho, Hok; [lia| |lia]. exists n. split_and!; [done|lia..|].
  destruct rp; [|done]. destruct Hr; [done|lia].
Qed.

Lemma UnlockX_keeps t ch w' p' :
  ps !! t = Some UnlockX → tstep ch (encode o wp rp) UnlockX ⇓ (w', p') → keeps t w' p'.
Proof.
  intros Hp Hs. pose proof (holder_x _ _ Hp eq_refl) as HW. rewrite HW in Hi, Hs. cbn [tstep] in Hs.
  rewrite ONE_WRITER_encode in Hs. destruct (_ =? _) eqn:He; injection Hs as <- <-.
  - apply encode_eqb in He as (_ & -> & ->); [|done..]. lock_move Hi Hp o Free false false.
  - lock_move Hi Hp o Writer wp rp. cbn. destruct wp, rp; try done. by rewrite Z.eqb_refl in He.
Qed.

Lemma UnlockXLoad_keeps t ch w' p' :
  ps !! t = Some UnlockXLoad → tstep ch (encode o wp rp) UnlockXLoad ⇓ (w', p') → keeps t w' p'.
Proof.
  intros Hp Hs. pose proof (holder_x _ _ Hp eq_refl) as HW. rewrite HW in Hi, Hs. cbn [tstep] in Hs.
  pose proof (li_phase _ _ _ _ _ Hi _ _ Hp) as Hph. cbn in Hph.
  apply assert_Ret in Hs as [_ Hs]. apply assert_Ret in Hs as [_ Hs]. injection Hs as <- <-. lock_move Hi Hp o Writer wp rp. cbn. by exists wp, rp.
Qed.

(** The writer's compare-exchange: another thread may have parked since. *)
Lemma UnlockXFree_keeps t s ch w' p' :
  ps !! t = Some (UnlockXFree s) → tstep ch (encode o wp rp) (UnlockXFree s) ⇓ (w', p') →
  keeps t w' p'.
Proof.
  intros Hp Hs. pose proof (holder_x _ _ Hp eq_refl) as HW. rewrite HW in Hi, Hs. cbn [tstep] in Hs.
  pose proof (li_phase _ _ _ _ _ Hi _ _ Hp) as (a & b & Hsab & Hab & Ha & Hb). rewrite Hsab in Hs.
  pose proof (li_owned _ _ _ _ _ Hi) as [Hx _].
  destruct (encode_fields Writer a b) as (_ & _ & Hf & _); [done|]. rewrite Hf in Hs.
  destruct (_ =? encode _ a b) eqn:He.
  - apply encode_eqb in He as (_ & <- & <-); [|done..]. destruct wp, rp; try done; cbn in Hs; injection Hs as <- <-.
    + lock_move Hi Hp o Writer true true.
    + lock_move Hi Hp o Free false false; by right.
    + lock_move Hi Hp o Free false false; by right.
  - assert (wp = true ∧ rp = true) as [-> ->].
    { destruct a, b, wp, rp; try done; try (by rewrite Z.eqb_refl in He); naive_solver. }
    destruct a, b; try done; cbn in Hs; try apply assert_Ret in Hs as [_ Hs];
      injection Hs as <- <-; lock_move Hi Hp o Writer true true.
Qed.

Lemma UnlockXStore_keeps t ch w' p' :
  ps !! t = Some UnlockXStore → tstep ch (encode o wp rp) UnlockXStore ⇓ (w', p') → keeps t w' p'.
Proof.
  intros Hp Hs. pose proof (holder_x _ _ Hp eq_refl) as HW. rewrite HW in Hi, Hs.
  pose proof (li_phase _ _ _ _ _ Hi _ _ Hp) as Hph. cbn in Hph. destruct wp, rp; try done.
  pose proof (li_owned _ _ _ _ _ Hi) as [Hx _].
  injection Hs as <- <-. lock_move Hi Hp o Free true false. by right.
Qed.

Lemma Downgrade_keeps t ch w' p' :
  ps !! t = Some Downgrade → tstep ch (encode o wp rp) Downgrade ⇓ (w', p') → keeps t w' p'.
Proof.
  intros Hp Hs. pose proof (holder_x _ _ Hp eq_refl) as HW. rewrite HW in Hi, Hs.
  pose proof (li_owned _ _ _ _ _ Hi) as [Hx _].
  pose proof (downgrade_encode wp rp) as Hd. unfold downgrade in Hd. injection Hd as Hd _.
  cbn [tstep] in Hs. rewrite Hd in Hs. unfold bit_set in Hs.
  destruct (encode_fields Writer wp rp) as (_ & _ & _ & Hr); [done|]. rewrite Hr in Hs.
  destruct rp; injection Hs as <- <-; lock_move Hi Hp o (Readers 1) wp false; by right.
Qed.

(** *** Readers *)

Lemma HoldS_keeps t ch w' p' :
  ps !! t = Some HoldS → tstep ch (encode o wp rp) HoldS ⇓ (w', p') → keeps t w' p'.
Proof. intros Hp Hs. destruct ch; try done; injection Hs as <- <-; lock_move Hi Hp o o wp rp. Qed.

(** One more reader. *)
Lemma join t p o' :
  ps !! t = Some p → match p with FastSCas _ _ | TrySLoop _ | LockSLoop _ => True | _ => False end →
  add_reader o = Some o' → keeps t (encode o' wp rp) HoldS.
Proof.
  intros Hp Hk Ho'.
  assert (cnt holds_x ps = 0 ∧ owned o' 0 (cnt holds_s ps + 1)) as [Hx Hown].
  { pose proof (li_owned _ _ _ _ _ Hi) as Ho. destruct o as [|n|]; cbn in *; [|case_match|done];
      simplify_eq; cbn; lia. }
  destruct p; try done; lock_move Hi Hp o o' wp rp;
    rewrite ?Z.sub_0_r, ?Z.add_0_r, Hx; exact Hown.
Qed.

(** A step of a thread outside of the lock that only moves on. *)
Lemma outside t p p' :
  ps !! t = Some p → locals_ok N p' →
  match p, p' with
  | FastS a, FastSCas a' _ => a = a'
  | FastS a, p' | FastSCas a _, p' => p' = fast_failed a
  | (TrySLoad | TrySLoop _), TrySLoop _ | TrySLoop _, Idle => True
  | (LockSLoad | LockSLoop _ | LockSPark), (LockSLoad | LockSLoop _ | LockSPark) => True
  | _, _ => False
  end → keeps t (encode o wp rp) p'.
Proof.
  intros Hp Hl Hk. destruct p; try done.
  all: try (destruct a; cbn in Hk).
  all: destruct p'; try done; simplify_eq.
  all: lock_move Hi Hp o o wp rp.
Qed.

Lemma FastS_keeps t a ch w' p' :
  ps !! t = Some (FastS a) → tstep ch (encode o wp rp) (FastS a) ⇓ (w', p') → keeps t w' p'.
Proof.
  intros Hp Hs. destruct (li_threads _ _ _ _ _ Hi) as [_ Hmax]. cbn [tstep] in Hs.
  destruct (usize_checked_add _ _) as [new|] eqn:Hadd.
  - destruct (plausible_add _ _ _ Hmax (linv_plausible _ _ _ _ _ Hi) Hadd) as (Hw & o1 & wp1 & rp1 & o' & ? & ? & ? & _).
    rewrite Hw in Hs. injection Hs as <- <-. eapply outside; [done| |done]. cbn. naive_solver.
  - injection Hs as <- <-. eapply outside; [done|by destruct a|by destruct a].
Qed.

Lemma FastSCas_keeps t a s ch w' p' :
  ps !! t = Some (FastSCas a s) → tstep ch (encode o wp rp) (FastSCas a s) ⇓ (w', p') → keeps t w' p'.
Proof.
  intros Hp Hs. pose proof (linv_owner_ok _ _ _ _ _ Hi) as Ho.
  pose proof (li_locals _ _ _ _ _ Hi _ _ Hp) as (o0 & a0 & b0 & o' & Hs0 & Ho0 & Hadd).
  cbn [tstep] in Hs. rewrite Hs0 in Hs. destruct (cas_weak _ _ _) eqn:Hc.
  - apply cas_weak_encode in Hc as (-> & -> & ->); [|done..]. injection Hs as <- <-.
    pose proof (encode_add_reader o wp rp Ho) as He. rewrite Hadd in He.
    replace (encode o wp rp + ONE_READER) with (encode o' wp rp).
    + by eapply join.
    + destruct o; [..|done]; destruct He as (_ & He & _); by rewrite <-He.
  - injection Hs as <- <-. eapply outside; [done|by destruct a|done].
Qed.

Lemma TryS_keeps t s ch w' p' :
  ps !! t = Some (TrySLoop s) → tstep ch (encode o wp rp) (TrySLoop s) ⇓ (w', p') → keeps t w' p'.
Proof.
  intros Hp Hs. destruct (li_threads _ _ _ _ _ Hi) as [_ Hmax].
  pose proof (linv_owner_ok _ _ _ _ _ Hi) as Ho. pose proof (linv_plausible _ _ _ _ _ Hi) as Hpl.
  cbn [tstep] in Hs. destruct (usize_checked_add _ _) as [new|] eqn:Hadd.
  - destruct (plausible_add _ _ _ Hmax (li_locals _ _ _ _ _ Hi _ _ Hp) Hadd)
      as (Hw & o0 & a0 & b0 & o' & -> & Ho0 & Ho' & ->).
    rewrite Hw in Hs. destruct (cas_weak _ _ _) eqn:Hc; injection Hs as <- <-.
    + apply cas_weak_encode in Hc as (-> & -> & ->); [|done..]. by eapply join.
    + by eapply outside.
  - injection Hs as <- <-. by eapply outside.
Qed.

Lemma LockS_keeps t s ch w' p' :
  ps !! t = Some (LockSLoop s) → tstep ch (encode o wp rp) (LockSLoop s) ⇓ (w', p') → keeps t w' p'.
Proof.
  intros Hp Hs. destruct (li_threads _ _ _ _ _ Hi) as [_ Hmax].
  pose proof (linv_owner_ok _ _ _ _ _ Hi) as Ho. pose proof (linv_plausible _ _ _ _ _ Hi) as Hpl.
  pose proof (li_locals _ _ _ _ _ Hi _ _ Hp) as Hls.
  cbn [tstep] in Hs. destruct (usize_checked_add _ _) as [new|] eqn:Hadd.
  - destruct (plausible_add _ _ _ Hmax Hls Hadd) as (Hw & o0 & a0 & b0 & o' & -> & Ho0 & Ho' & ->).
    apply assert_Ret in Hs as [_ Hs]. destruct (cas_weak _ _ _) eqn:Hc; injection Hs as <- <-.
    + apply cas_weak_encode in Hc as (-> & -> & ->); [|done..]. by eapply join.
    + by eapply outside.
  - destruct (checked_add_writer _ _ Hmax Hls Hadd) as (a & b & ->).
    destruct (encode_fields Writer a b) as (_ & _ & _ & Hr); [done|].
    destruct (encode_bits Writer a b) as (_ & _ & Hlr); [done|]. rewrite Hr, Hlr in Hs.
    assert (w' = encode o wp rp ∧ match p' with LockSLoad | LockSPark => True | LockSLoop s' => s' = encode o wp rp | _ => False end ∨
      cas_weak ch (encode o wp rp) (encode Writer a false) = true ∧ w' = encode Writer a true ∧ p' = LockSPark)
      as [[-> Hk]|(Hc & -> & ->)].
    { destruct b; cbn in Hs; [by simplify_eq; left|].
      destruct ch; cbn in *; repeat case_match; simplify_eq; eauto. }
    + apply (outside _ _ _ Hp); [|by destruct p']. destruct p'; try done. cbn. by rewrite Hk.
    + apply cas_weak_encode in Hc as (<- & -> & <-); [|done..]. lock_move Hi Hp Writer Writer wp true.
Qed.

Lemma LockSPark_keeps t ch w' p' :
  ps !! t = Some LockSPark → tstep ch (encode o wp rp) LockSPark ⇓ (w', p') → keeps t w' p'.
Proof.
  intros Hp Hs. pose proof (linv_owner_ok _ _ _ _ _ Hi) as Ho. cbn [tstep] in Hs. unfold bit_set in Hs.
  destruct (encode_fields o wp rp Ho) as (_ & _ & _ & Hr). rewrite Hr in Hs.
  destruct (writer_held _ && _) eqn:Hb; injection Hs as <- <-.
  - destruct rp; [|by rewrite andb_false_r in Hb]. lock_move Hi Hp o o wp true.
  - by eapply outside.
Qed.

Lemma UnlockS_keeps t ch w' p' :
  ps !! t = Some UnlockS → tstep ch (encode o wp rp) UnlockS ⇓ (w', p') → keeps t w' p'.
Proof.
  intros Hp Hs. destruct (holder_s _ _ Hp eq_refl) as (n & Hn & Hrange & Hrp).
  pose proof (li_owned _ _ _ _ _ Hi) as Hown. rewrite Hn, Hrp in *.
  cbn [tstep] in Hs. rewrite leave_encode in Hs by done.
  change (Z.lor ONE_READER WRITERS_PARKED) with (encode (Readers 1) true false) in Hs.
  destruct Hown as (Hx & Hsn & _).
  destruct (Z.eqb_spec n 1) as [->|Hne].
  - destruct wp; injection Hs as <- <-.
    + lock_move Hi Hp o Free true false.
    + lock_move Hi Hp o Free false false.
  - assert (owner_ok (Readers 1)) by (cbn; lia).
    destruct (_ =? encode _ _ _) eqn:He; [apply encode_eqb in He; naive_solver|]. injection Hs as <- <-.
    lock_move Hi Hp o (Readers (n - 1)) wp false.
Qed.

Lemma UnlockSSlow_keeps t ch w' p' :
  ps !! t = Some UnlockSSlow → tstep ch (encode o wp rp) UnlockSSlow ⇓ (w', p') → keeps t w' p'.
Proof.
  intros Hp Hs. pose proof (linv_owner_ok _ _ _ _ _ Hi) as Ho. pose proof (li_owned _ _ _ _ _ Hi) as Hown.
  pose proof (li_readers_bit _ _ _ _ _ Hi) as Hrb. cbn [tstep] in Hs.
  change WRITERS_PARKED with (encode Free true false) in Hs.
  destruct (_ =? _) eqn:He; injection Hs as <- <-.
  - apply encode_eqb in He as (-> & -> & ->); [|done..]. destruct Hown as [Hx _].
    lock_move Hi Hp Free Free false false. by right.
  - assert (wp = true → cnt holds_x ps + cnt holds_s ps ≠ 0) as Hwp.
    { intros ->. destruct o as [|n|]; cbn in Hown; [|lia|lia].
      destruct rp; [destruct Hrb; [done|lia]|by rewrite Z.eqb_refl in He]. }
    lock_move Hi Hp o o wp rp.
Qed.

(** *** Unparking *)

Lemma unpark_inv : linv N o wp rp (unpark <$> ps) ∧ cnt parked_s (unpark <$> ps) = 0.
Proof.
  assert (Hz : cnt parked_s (unpark <$> ps) = 0).
  { rewrite cnt_fmap. clear. induction ps as [|p ps' IH]; cbn; [done|]. rewrite IH. by destruct p. }
  assert (Hs : ∀ f, (∀ p, f (unpark p) = f p) → cnt f (unpark <$> ps) = cnt f ps).
  { intros f Hf. rewrite cnt_fmap. by apply cnt_ext. }
  pose proof (Hs holds_x ltac:(by intros [])) as Hx. pose proof (Hs holds_s ltac:(by intros [])) as Hhs.
  pose proof (Hs pending_s ltac:(by intros [])) as Hps. pose proof (Hs last_reader ltac:(by intros [])) as Hlr.
  pose proof (Hs parked_x ltac:(by intros [])) as Hpx. pose proof (Hs wakes_x ltac:(by intros [])) as Hwx.
  split; [|done]. constructor; rewrite ?Hz, ?Hx, ?Hhs, ?Hps, ?Hlr, ?Hpx, ?Hwx, ?length_fmap; try apply Hi.
  - lia.
  - intros t p. rewrite list_lookup_fmap, fmap_Some. intros (q & Hq & ->).
    pose proof (li_locals _ _ _ _ _ Hi _ _ Hq). by destruct q.
  - intros t p. rewrite list_lookup_fmap, fmap_Some. intros (q & Hq & ->).
    pose proof (li_phase _ _ _ _ _ Hi _ _ Hq). by destruct q.
Qed.

Lemma WakeS_keeps t p p' :
  ps !! t = Some p → p = WakeS ∧ p' = Idle ∨ p = DowngradeWake ∧ p' = HoldS →
  linv N o wp rp (<[t := p']> (unpark <$> ps)).
Proof.
  intros Hp Hk. destruct unpark_inv as [Hi' Hz].
  assert (Hp' : (unpark <$> ps) !! t = Some p).
  { rewrite list_lookup_fmap, Hp. by destruct Hk as [[-> _]|[-> _]]. }
  enough (∃ o' wp' rp', encode o wp rp = encode o' wp' rp' ∧
    linv N o' wp' rp' (<[t := p']> (unpark <$> ps))) as (o' & wp' & rp' & He & Hl).
  { apply encode_inj in He as (<- & <- & <-); [done|by eapply linv_owner_ok..]. }
  destruct Hk as [[-> ->]|[-> ->]]; lock_move Hi' Hp' o o wp rp.
Qed.

Lemma WakeX_keeps t t' :
  ps !! t = Some WakeX → ps !! t' = Some ParkedX →
  linv N o wp rp (<[t := Idle]> (<[t' := LockXLoad WRITERS_PARKED]> ps)).
Proof.
  intros Hp Hp'. assert (Hne : t ≠ t') by congruence.
  assert (keeps t' (encode o wp rp) (LockXLoad WRITERS_PARKED)) as (o1 & wp1 & rp1 & He & Hi1).
  { lock_move Hi Hp' o o wp rp. by right. }
  apply encode_inj in He as (<- & <- & <-); [|by eapply linv_owner_ok..].
  set (ps1 := <[t' := _]> ps) in *.
  assert (H1 : ps1 !! t = Some WakeX) by (by unfold ps1; rewrite list_lookup_insert_ne).
  assert (H2 : ps1 !! t' = Some (LockXLoad WRITERS_PARKED)).
  { unfold ps1. rewrite list_lookup_insert_eq; [done|]. by eapply lookup_lt_Some. }
  pose proof (cnt_members wakes_x _ _ _ _ _ H1 H2 Hne) as Hm. cbn in Hm.
  enough (∃ o' wp' rp', encode o wp rp = encode o' wp' rp' ∧
    linv N o' wp' rp' (<[t := Idle]> ps1)) as (o' & wp' & rp' & He & Hl).
  { apply encode_inj in He as (<- & <- & <-); [done|by eapply linv_owner_ok..]. }
  lock_move Hi1 H1 o o wp rp.
Qed.

Lemma WakeX_none t :
  ps !! t = Some WakeX → ParkedX ∉ ps → linv N o wp rp (<[t := Idle]> ps).
Proof.
  intros Hp Hnone. assert (Hz : cnt parked_x ps = 0).
  { pose proof (cnt_nonneg parked_x ps). destruct (decide (0 < cnt parked_x ps)) as [Hc|]; [|lia].
    apply cnt_pos in Hc as (t' & p & Ht' & Hx). destruct p; try done.
    destruct Hnone. by eapply list_elem_of_lookup_2. }
  enough (keeps t (encode o wp rp) Idle) as (o' & wp' & rp' & He & Hl).
  { apply encode_inj in He as (<- & <- & <-); [done|by eapply linv_owner_ok..]. }
  lock_move Hi Hp o o wp rp.
Qed.

Lemma tstep_keeps t p ch w' p' :
  ps !! t = Some p → tstep ch (encode o wp rp) p ⇓ (w', p') → keeps t w' p'.
Proof.
  intros Hp Hs. destruct p; try done.
  all: eauto using Idle_keeps, LockX_keeps, LockXLoad_keeps, LockXLoop_keeps, LockXPark_keeps,
    HoldX_keeps, UnlockX_keeps, UnlockXLoad_keeps, UnlockXFree_keeps, UnlockXStore_keeps,
    Downgrade_keeps, HoldS_keeps, FastS_keeps, FastSCas_keeps, TryS_keeps, LockS_keeps,
    LockSPark_keeps, UnlockS_keeps, UnlockSSlow_keeps.
  all: injection Hs as <- <-; eapply outside; [done|by eapply linv_plausible|done].
Qed.

(** No assertion fails, and a thread that is not parked can move. *)
Lemma tstep_defined t p ch :
  ps !! t = Some p →
  tstep ch (encode o wp rp) p = Blocked ∨ ∃ w' p', tstep ch (encode o wp rp) p ⇓ (w', p').
Proof.
  intros Hp. destruct (li_threads _ _ _ _ _ Hi) as [_ Hmax].
  pose proof (li_locals _ _ _ _ _ Hi _ _ Hp) as Hls. pose proof (li_phase _ _ _ _ _ Hi _ _ Hp) as Hph.
  destruct p; cbn [tstep];
    try (repeat case_match; first [by left | right; by do 2 eexists]).
  - rewrite (holder_x _ _ Hp eq_refl), writer_held_encode by done. unfold bit_set.
    destruct (encode_fields Writer wp rp) as (_ & _ & -> & _); [done|].
    right. cbn in Hph. destruct wp, rp; try done; cbn; by do 2 eexists.
  - destruct Hph as (a & b & -> & Hab & Ha & Hb). rewrite (holder_x _ _ Hp eq_refl), both_parked_encode.
    destruct (encode_fields Writer a b) as (_ & _ & -> & _); [done|]. right.
    destruct (_ =? encode _ a b) eqn:He.
    + destruct a, b; try done; cbn; by do 2 eexists.
    + assert (wp = true ∧ rp = true) as [-> ->].
      { destruct a, b, wp, rp; try done; try (by rewrite Z.eqb_refl in He); naive_solver. }
      rewrite Z.eqb_refl. destruct a, b; try done; cbn; by do 2 eexists.
  - destruct (usize_checked_add _ _) as [new|] eqn:Hadd.
    + destruct (plausible_add _ _ _ Hmax Hls Hadd) as [-> _]. cbn. right. case_match; by do 2 eexists.
    + right. repeat case_match; by do 2 eexists.
Qed.
End steps.

(** ** Reachable states *)

Definition state_inv N σ : Prop := ∃ o wp rp, word σ = encode o wp rp ∧ linv N o wp rp (pcs σ).

Lemma step_inv N t ch σ σ' : state_inv N σ → step t ch σ ⇓ σ' → state_inv N σ'.
Proof.
  intros (o & wp & rp & Hw & Hi) Hs. unfold step in Hs. rewrite Hw in Hs.
  destruct (pcs σ !! t) as [p|] eqn:Hp; [|done].
  assert (Hgen : ('(w, p') ← tstep ch (encode o wp rp) p; Ret (mkState w (<[t := p']> (pcs σ)))) ⇓ σ' →
    state_inv N σ').
  { intros ([w' p'] & Ht & [= <-])%bind_Ret.
    destruct (tstep_keeps _ _ _ _ _ Hi _ _ _ _ _ Hp Ht) as (o' & wp' & rp' & -> & Hi'). by exists o', wp', rp'. }
  destruct p; try (by apply Hgen).
  - injection Hs as <-. exists o, wp, rp. split; [done|]. eapply WakeS_keeps; [done..|by left].
  - destruct ch; case_bool_decide; try done; injection Hs as <-; exists o, wp, rp; (split; [done|]); cbn [pcs].
    all: first [by apply WakeX_none | by apply WakeX_keeps].
  - injection Hs as <-. exists o, wp, rp. split; [done|]. eapply WakeS_keeps; [done..|by right].
Qed.

Lemma initial_inv n : Z.of_nat n + 1 < max_readers → state_inv (Z.of_nat n) (initial n).
Proof.
  intros Hn. exists Free, false, false. split; [done|]. cbn [pcs initial].
  constructor; rewrite ?cnt_replicate by done; try done; try lia.
  - by rewrite length_replicate.
  - by intros t p [-> _]%lookup_replicate.
  - by intros t p [-> _]%lookup_replicate.
Qed.

Lemma reachable_inv n σ :
  Z.of_nat n + 1 < max_readers → reachable n σ → state_inv (Z.of_nat n) σ.
Proof. intros Hn Hr. induction Hr; [by apply initial_inv|by eapply step_inv]. Qed.

(** A writer excludes every other holder. *)
Lemma holders_exclude N σ t t' p p' :
  state_inv N σ → pcs σ !! t = Some p → pcs σ !! t' = Some p' →
  holds_x p = true → holds_x p' || holds_s p' = true → t = t'.
Proof.
  intros (o & wp & rp & _ & Hi) Hp Hp' Hx Hh.
  destruct (decide (t = t')) as [|Hne]; [done|exfalso].
  pose proof (holder_x _ _ _ _ _ Hi _ _ Hp Hx) as ->. pose proof (li_owned _ _ _ _ _ Hi) as [H1 H2].
  pose proof (cnt_members holds_x _ _ _ _ _ Hp Hp' Hne) as Hm. rewrite Hx in Hm.
  pose proof (cnt_member holds_s _ _ _ Hp') as Hs.
  destruct (holds_x p'), (holds_s p'); cbn in *; done || lia.
Qed.

(** Waiting in the parking lot. *)
Definition parked p : bool := parked_s p || parked_x p.

(** While a thread is parked, some thread is inside the lock's functions or
    holds the lock. *)
Lemma busy_thread N o wp rp ps (Hi : linv N o wp rp ps) t p :
  ps !! t = Some p → parked p = true →
  ∃ t' p', ps !! t' = Some p' ∧ p' ≠ Idle ∧ parked p' = false.
Proof.
  intros Hp Hk. lock_facts Hi Hp.
  assert (Hfind : ∀ f, (∀ q, f q = true → q ≠ Idle ∧ parked q = false) → 0 < cnt f ps →
    ∃ t' p', ps !! t' = Some p' ∧ p' ≠ Idle ∧ parked p' = false).
  { intros f Hf (t' & p' & Hp' & Hq)%cnt_pos. exists t', p'. split; [done|by apply Hf]. }
  destruct (decide (0 < cnt holds_x ps)); [by apply (Hfind holds_x); [intros []|]|].
  destruct (decide (0 < cnt holds_s ps)); [by apply (Hfind holds_s); [intros []|]|].
  destruct (decide (0 < cnt wakes_s ps)); [by apply (Hfind wakes_s); [intros []|]|].
  destruct (decide (0 < cnt wakes_x ps)); [by apply (Hfind wakes_x); [intros []|]|].
  destruct (decide (0 < cnt last_reader ps)); [by apply (Hfind last_reader); [intros []|]|].
  pose proof (cnt_nonneg parked_s ps). pose proof (cnt_nonneg last_reader ps).
  assert (Hps : 0 < cnt pending_s ps) by (destruct p; cbn in *; try done; lia).
  apply cnt_pos in Hps as (t' & p' & Hp' & Hq). exists t', p'.
  pose proof (cnt_member parked_s _ _ _ Hp'). destruct p'; try done. cbn in *. lia.
Qed.

Lemma step_defined N t ch σ :
  state_inv N σ → step t ch σ = Blocked ∨ ∃ σ', step t ch σ ⇓ σ'.
Proof.
  intros (o & wp & rp & Hw & Hi). unfold step. rewrite Hw.
  destruct (pcs σ !! t) as [p|] eqn:Hp; [|by left].
  destruct (tstep_defined _ _ _ _ _ Hi _ _ ch Hp) as [Hb|(w' & p' & Ht)];
    destruct p; try (by left); rewrite ?Hb, ?Ht; cbn; eauto; destruct ch; case_bool_decide; eauto.
Qed.

(** A thread that is not parked is not stuck. *)
Lemma step_enabled N t p σ :
  state_inv N σ → pcs σ !! t = Some p → parked p = false → ∃ ch σ', step t ch σ ⇓ σ'.
Proof.
  intros Hinv Hp Hk.
  assert (Hch : ∀ ch, step t ch σ ≠ Blocked → ∃ ch σ', step t ch σ ⇓ σ').
  { intros ch Hne. destruct (step_defined N t ch σ Hinv) as [?|[σ' ?]]; [done|by exists ch, σ']. }
  destruct (decide (ParkedX ∈ pcs σ)) as [[t' Ht']%list_elem_of_lookup|Hno].
  - apply (Hch match p with Idle => StartLockX | HoldX | HoldS => StartUnlock | WakeX => Wake t' | _ => Go end).
    unfold step. rewrite Hp. destruct p; try done; cbn; unfold rust_assert;
      rewrite ?bool_decide_true by done; try done; repeat (case_match; try done).
  - apply (Hch match p with Idle => StartLockX | HoldX | HoldS => StartUnlock | _ => Go end).
    unfold step. rewrite Hp. destruct p; try done; cbn; unfold rust_assert;
      rewrite ?bool_decide_false by done; try done; repeat (case_match; try done).
Qed.

(** What keeps a parked thread from being forgotten. *)
Lemma parked_word N σ t p :
  state_inv N σ → pcs σ !! t = Some p → parked p = true →
  (p = ParkedS → (writer_held (word σ) && bit_set (word σ) READERS_PARKED = true) ∨
                 ∃ t' p', pcs σ !! t' = Some p' ∧ wakes_s p' = true) ∧
  (p = ParkedX → bit_set (word σ) WRITERS_PARKED = true ∨
                 ∃ t' p', pcs σ !! t' = Some p' ∧ wakes_x p' = true) ∧
  ∃ t' p' ch σ', pcs σ !! t' = Some p' ∧ p' ≠ Idle ∧ parked p' = false ∧ step t' ch σ ⇓ σ'.
Proof.
  intros Hinv Hp Hk.
  pose proof Hinv as (o & wp & rp & Hw & Hi). pose proof (linv_owner_ok _ _ _ _ _ Hi) as Hok.
  pose proof (cnt_member parked_s _ _ _ Hp) as Hs. pose proof (cnt_member parked_x _ _ _ Hp) as Hx.
  destruct (encode_fields o wp rp Hok) as (_ & _ & _ & Hrb). destruct (encode_bits o wp rp Hok) as (Hwb & _).
  split_and!.
  - intros ->. rewrite Hw, writer_held_encode by done. unfold bit_set. rewrite Hrb.
    destruct (li_parked_s _ _ _ _ _ Hi) as [-> | Hc]; [cbn in Hs; lia| |right; by apply cnt_pos].
    left. pose proof (li_readers_bit _ _ _ _ _ Hi eq_refl) as [H1 _].
    pose proof (li_owned _ _ _ _ _ Hi) as Ho. destruct o; cbn in *; [lia|lia|done].
  - intros ->. rewrite Hw. unfold bit_set. rewrite Hwb.
    destruct (li_parked_x _ _ _ _ _ Hi) as [-> | Hc]; [cbn in Hx; lia|by left|right; by apply cnt_pos].
  - destruct (busy_thread _ _ _ _ _ Hi _ _ Hp Hk) as (t' & p' & Hp' & Hne & Hnp).
    destruct (step_enabled _ _ _ _ Hinv Hp' Hnp) as (ch & σ' & Hst). by exists t', p', ch, σ'.
Qed.
End invariant_steps.
