(* ===== verification/LockTheorems.v ===== *)
(** * LockTheorems: the lock under interference

    The properties of src/src/lock.rs that hold in every interleaving: mutual
    exclusion, absence of failing assertions, no lost wake-ups, and agreement
    of the programs of LockMachine with the functions of Lock when a thread
    runs alone. *)

From stdpp Require Import base gmap list.
From S2P Require Import Prelude Machine Lock LockMachine LockInv.

Open Scope Z_scope.

Section theorems.
Context `{!Target}.
Implicit Types (σ : lstate) (p : pc) (t : nat).

Lemma run_reachable n schedule σ σ' :
  reachable n σ → run schedule σ ⇓ σ' → reachable n σ'.
Proof.
  revert σ. induction schedule as [|[t ch] rest IH]; intros σ Hr; cbn.
  - by intros [= <-].
  - intros (σ1 & H1 & H2)%bind_Ret. by eapply IH; [eapply reach_step|].
Qed.

(** Mutual exclusion in every interleaving of any number of threads (below
    the reader limit): a thread that has the write lock is the only one that
    has the lock at all; the owner field of the word is the number of readers,
    or all ones under a writer; and no step fails an assertion. *)
Lemma lock_mutual_exclusion n σ :
  Z.of_nat n + 1 < max_readers → reachable n σ →
  (∀ t t' p p', pcs σ !! t = Some p → pcs σ !! t' = Some p' →
     holds_x p = true → holds_x p' || holds_s p' = true → t = t') ∧
  Z.land (word σ) ONE_WRITER =
    (if 0 <? cnt holds_x (pcs σ) then ONE_WRITER else ONE_READER * cnt holds_s (pcs σ)) ∧
  ∀ t ch, step t ch σ = Blocked ∨ ∃ σ', step t ch σ ⇓ σ'.
Proof.
  intros Hn Hr. pose proof (reachable_inv n σ Hn Hr) as Hinv. split_and!.
  - intros t t' p p'. by apply (holders_exclude _ _ _ _ _ _ Hinv).
  - destruct Hinv as (o & wp & rp & -> & Hi).
    destruct (encode_fields o wp rp (linv_owner_ok _ _ _ _ _ Hi)) as (_ & -> & _).
    pose proof (li_owned _ _ _ _ _ Hi) as Ho. rewrite ONE_WRITER_max. unfold ONE_READER.
    destruct (Z.ltb_spec 0 (cnt holds_x (pcs σ))); destruct o; cbn [owned readers_field] in *; lia.
  - intros t ch. by eapply step_defined.
Qed.

(** No wake-up is lost: a parked reader has its parking bit set under a
    writer, or a thread is about to unpark the readers; a parked writer has its
    bit set, or a thread is about to wake a writer or takes the lock with the
    bit; and while any thread is parked, a thread that is neither parked nor
    idle exists and can take a step (it holds the lock or is inside one of the
    lock's functions), so the threads are never all asleep. *)
Lemma no_lost_wakeup n σ t p :
  Z.of_nat n + 1 < max_readers → reachable n σ → pcs σ !! t = Some p → parked p = true →
  (p = ParkedS → (writer_held (word σ) && bit_set (word σ) READERS_PARKED = true) ∨
                 ∃ t' p', pcs σ !! t' = Some p' ∧ wakes_s p' = true) ∧
  (p = ParkedX → bit_set (word σ) WRITERS_PARKED = true ∨
                 ∃ t' p', pcs σ !! t' = Some p' ∧ wakes_x p' = true) ∧
  ∃ t' p' ch σ', pcs σ !! t' = Some p' ∧ p' ≠ Idle ∧ parked p' = false ∧ step t' ch σ ⇓ σ'.
Proof.
  intros Hn Hr Hp Hk. eapply parked_word; [|done..]. by apply reachable_inv.
Qed.

(** A thread running alone: the operation it starts and its further steps. *)
Definition alone t (start : choice) (k : nat) : list (nat * choice) :=
  (t, start) :: replicate k (t, Go).

Lemma run_alone t ch rest w p w' p' ps :
  (t < length ps)%nat → tstep ch w p ⇓ (w', p') →
  run ((t, ch) :: rest) (mkState w (<[t := p]> ps)) = run rest (mkState w' (<[t := p']> ps)).
Proof.
  intros Hlt Hs. cbn [run]. unfold step. cbn [pcs word]. rewrite list_lookup_insert_eq by done.
  destruct p; rewrite Hs || done; cbn; by rewrite list_insert_insert_eq.
Qed.

(** The program counter of a thread that still has to unpark others. *)
Definition wake_pc (k : wake) : pc :=
  match k with WakeNone => Idle | WakeReaders => WakeS | WakeOneWriter => WakeX end.

Ltac solo_step Hlt := erewrite (run_alone _ _ _ _ _ _ _ _ Hlt); [|cbn [tstep cas_weak]].

Lemma solo_lock_exclusive t ps o wp rp :
  (t < length ps)%nat → owner_ok o → ∃ k,
  run (alone t StartLockX k) (mkState (encode o wp rp) (<[t := Idle]> ps)) =
    match o with
    | Free => Ret (mkState (encode Writer wp rp) (<[t := HoldX]> ps))
    | _ => Ret (mkState (encode o true rp) (<[t := ParkedX]> ps))
    end.
Proof.
  intros Hlt Ho. destruct (encode_bits o wp rp Ho) as (Hwb & Hlw & _).
  destruct (encode_bits o true rp Ho) as (Hwb' & _).
  destruct (decide (encode o wp rp = 0)) as [Hz|Hz%Z.eqb_neq].
  - pose proof Hz as Hz'. apply Z.eqb_eq in Hz'. rewrite encode_zero in Hz' by done.
    destruct o; try done. destruct wp, rp; try done. exists 1%nat. unfold alone.
    solo_step Hlt; [|done]. cbn [replicate]. solo_step Hlt; [|by rewrite Hz]. cbn. by rewrite ONE_WRITER_encode.
  - exists (if decide (o = Free) then 4 else 5)%nat. unfold alone. solo_step Hlt; [|done].
    assert (Hk : ∀ k, run (replicate (S (S (S k))) (t, Go)) (mkState (encode o wp rp) (<[t := LockX1]> ps)) =
      run (replicate k (t, Go)) (mkState (encode o wp rp) (<[t := LockXLoop 0 (encode o wp rp)]> ps))).
    { intros k. cbn [replicate]. solo_step Hlt; [|by rewrite Hz]. solo_step Hlt; [|by rewrite Hz].
      solo_step Hlt; [|done]. done. }
    pose proof (free_encode o wp rp Ho) as Hf. destruct (decide (o = Free)) as [->|Hne].
    + rewrite Hk. cbn [replicate]. solo_step Hlt; [|by rewrite Hf, Z.eqb_refl].
      cbn [run]. by rewrite Z.lor_0_r, encode_acquire.
    + assert (Hf' : (Z.land (encode o wp rp) ONE_WRITER =? 0) = false) by (rewrite Hf; by destruct o).
      rewrite Hk. cbn [replicate]. solo_step Hlt.
      2:{ rewrite Hf', Hwb. instantiate (1 := LockXPark). instantiate (1 := encode o true rp).
          destruct wp; cbn; [done|]. by rewrite Z.eqb_refl, Hlw. }
      rewrite (run_alone t Go [] _ LockXPark (encode o true rp) ParkedX ps Hlt); [by destruct o|].
      cbn [tstep]. unfold bit_set. rewrite Hwb', (free_encode o true rp Ho). by destruct o.
Qed.

Lemma solo_lock_shared t ps o wp rp :
  (t < length ps)%nat → owner_ok o → ∃ k,
  run (alone t StartLockS k) (mkState (encode o wp rp) (<[t := Idle]> ps)) =
    match o with
    | Writer => Ret (mkState (encode Writer wp true) (<[t := ParkedS]> ps))
    | _ => match add_reader o with
           | Some o' => Ret (mkState (encode o' wp rp) (<[t := HoldS]> ps))
           | None => Panic
           end
    end.
Proof.
  intros Hlt Ho. pose proof (encode_add_reader o wp rp Ho) as Hadd.
  destruct (decide (o = Writer)) as [->|Hne].
  - destruct (encode_bits Writer wp rp) as (_ & _ & Hlr); [done|].
    destruct (encode_fields Writer wp rp) as (_ & _ & _ & Hr); [done|].
    destruct (encode_fields Writer wp true) as (_ & _ & _ & Hr'); [done|].
    exists 5%nat. unfold alone. solo_step Hlt; [|done]. cbn [replicate].
    do 2 (solo_step Hlt; [|by rewrite Hadd]; cbn [fast_failed]). solo_step Hlt; [|done].
    rewrite (run_alone t Go _ _ (LockSLoop (encode Writer wp rp)) (encode Writer wp true) LockSPark ps Hlt).
    2:{ cbn [tstep cas_weak]. rewrite Hadd, Hr. destruct rp; cbn; [done|]. by rewrite Z.eqb_refl, Hlr. }
    rewrite (run_alone t Go [] _ LockSPark (encode Writer wp true) ParkedS ps Hlt); [done|].
    cbn [tstep]. unfold bit_set. by rewrite writer_held_encode, Hr'.
  - destruct (add_reader o) as [o'|] eqn:Ho'.
    + assert (usize_checked_add (encode o wp rp) ONE_READER = Some (encode o' wp rp) ∧
        writer_held (encode o' wp rp) = false ∧ encode o wp rp + ONE_READER = encode o' wp rp) as (H1 & H2 & H3).
      { destruct o; [..|done]; destruct Hadd as (-> & Hw & ? & Hm); unfold writer_held, ONE_READER;
          by rewrite <-Hw. }
      exists 2%nat. unfold alone. solo_step Hlt; [|done]. cbn [replicate].
      solo_step Hlt; [|by rewrite H1, H2]. solo_step Hlt; [|by rewrite Z.eqb_refl]. rewrite H3.
      by destruct o.
    + assert (∃ w, usize_checked_add (encode o wp rp) ONE_READER = Some w ∧ writer_held w = true) as (w & H1 & H2).
      { destruct o; [..|done]; destruct Hadd as (-> & Hm); eauto. }
      exists 4%nat. unfold alone. solo_step Hlt; [|done]. cbn [replicate].
      do 2 (solo_step Hlt; [|by rewrite H1, H2]; cbn [fast_failed]). solo_step Hlt; [|done].
      cbn [run]. unfold step. cbn [pcs word]. rewrite list_lookup_insert_eq by done. cbn [tstep].
      rewrite H1, H2. by destruct o.
Qed.

Lemma solo_unlock_exclusive t ps wp rp :
  (t < length ps)%nat → ∃ k w' wk, unlock_exclusive (encode Writer wp rp) ⇓ (w', wk) ∧
  run (alone t StartUnlock k) (mkState (encode Writer wp rp) (<[t := HoldX]> ps)) ⇓
    mkState w' (<[t := wake_pc wk]> ps).
Proof.
  intros Hlt. rewrite unlock_exclusive_encode.
  destruct (encode_fields Writer wp rp) as (_ & _ & Hb & _); [done|].
  destruct (decide (wp || rp = true)) as [Hp|Hp].
  - exists (if wp && rp then 4 else 3)%nat. do 2 eexists. split; [done|].
    assert (Hne : (encode Writer wp rp =? ONE_WRITER) = false).
    { rewrite ONE_WRITER_encode. destruct (_ =? _) eqn:He; [|done].
      apply encode_eqb in He as (_ & -> & ->); done. }
    assert (Hk : ∀ k, run (alone t StartUnlock (S (S k))) (mkState (encode Writer wp rp) (<[t := HoldX]> ps)) =
      run (replicate k (t, Go)) (mkState (encode Writer wp rp) (<[t := UnlockXFree (encode Writer wp rp)]> ps))).
    { intros k. unfold alone. solo_step Hlt; [|done]. cbn [replicate]. solo_step Hlt; [|by rewrite Hne].
      solo_step Hlt; [done|]. rewrite writer_held_encode by done. unfold bit_set. rewrite Hb.
      destruct wp, rp; done. }
    destruct wp, rp; try done; cbn [andb]; rewrite Hk; cbn [replicate];
      (solo_step Hlt; [|by rewrite Hb, ?Z.eqb_refl]); try done. by solo_step Hlt.
  - destruct wp, rp; try done. exists 1%nat. do 2 eexists. split; [done|]. unfold alone.
    solo_step Hlt; [|done]. cbn [replicate]. solo_step Hlt; [done|]. by rewrite ONE_WRITER_encode, Z.eqb_refl.
Qed.

Lemma solo_unlock_shared t ps n wp :
  (t < length ps)%nat → 0 < n < max_readers → ∃ k,
  let '(w', wk) := unlock_shared (encode (Readers n) wp false) in
  run (alone t StartUnlock k) (mkState (encode (Readers n) wp false) (<[t := HoldS]> ps)) ⇓
    mkState w' (<[t := wake_pc wk]> ps).
Proof.
  intros Hlt Hn. rewrite unlock_shared_encode by done. pose proof max_readers_pos.
  pose proof (leave_encode n wp false Hn) as Hl.
  assert (H6 : (encode (Readers n) wp false =? Z.lor ONE_READER WRITERS_PARKED) = (n =? 1) && wp).
  { change (Z.lor ONE_READER WRITERS_PARKED) with (encode (Readers 1) true false).
    destruct (_ =? encode _ _ _) eqn:He.
    - apply encode_eqb in He as ([= ->] & -> & _); [done|done|cbn; lia].
    - destruct (Z.eqb_spec n 1) as [->|]; [|done]. destruct wp; [by rewrite Z.eqb_refl in He|done]. }
  exists (if (n =? 1) && wp then 2%nat else 1%nat). unfold alone.
  destruct (Z.eqb_spec n 1) as [Hn1|Hn1]; destruct wp; cbn [andb replicate];
    (solo_step Hlt; [|done]); (solo_step Hlt; [|by rewrite Hl, H6]); try done.
  solo_step Hlt; done.
Qed.

(** C30. A thread that runs without interference behaves as the functions of
    Lock say: it takes the lock or parks (setting its parking bit) exactly
    when [lock_exclusive] and [lock_shared] return or block, panics when the
    readers' count is used up, and its releasing functions leave the word
    and the wake-ups of [unlock_exclusive], [unlock_shared] and [downgrade]. *)
Theorem solo_run t ps o wp rp :
  (t < length ps)%nat → owner_ok o → (rp = true → o = Writer) →
  let w := encode o wp rp in
  let at_ p w := mkState w (<[t := p]> ps) in
  (∃ k, run (alone t StartLockX k) (at_ Idle w) =
     match lock_exclusive w with
     | Ret w' => Ret (at_ HoldX w')
     | _ => Ret (at_ ParkedX (Z.lor w WRITERS_PARKED))
     end) ∧
  (∃ k, run (alone t StartLockS k) (at_ Idle w) =
     match lock_shared w with
     | Ret w' => Ret (at_ HoldS w')
     | Blocked => Ret (at_ ParkedS (Z.lor w READERS_PARKED))
     | _ => Panic
     end) ∧
  match o with
  | Free => True
  | Readers _ => ∃ k, run (alone t StartUnlock k) (at_ HoldS w) ⇓
      at_ (wake_pc (unlock_shared w).2) (unlock_shared w).1
  | Writer =>
      (∃ k w' wk, unlock_exclusive w ⇓ (w', wk) ∧
         run (alone t StartUnlock k) (at_ HoldX w) ⇓ at_ (wake_pc wk) w') ∧
      (∃ k, run (alone t StartDowngrade k) (at_ HoldX w) ⇓
         at_ (match (downgrade w).2 with WakeNone => HoldS | _ => DowngradeWake end) (downgrade w).1)
  end.
Proof.
  intros Hlt Ho Hrp w at_. subst at_ w. cbn beta.
  rewrite lock_exclusive_encode, lock_shared_encode by done.
  destruct (encode_bits o wp rp Ho) as (_ & -> & ->). split_and!.
  - destruct (solo_lock_exclusive t ps o wp rp Hlt Ho) as [k Hk]. exists k. rewrite Hk. by destruct o.
  - destruct (solo_lock_shared t ps o wp rp Hlt Ho) as [k Hk]. exists k. rewrite Hk.
    destruct o; [| |done]; by destruct (add_reader _).
  - destruct o as [|n|]; [done| |split].
    + destruct rp; [by specialize (Hrp eq_refl)|]. destruct (solo_unlock_shared t ps n wp Hlt Ho) as [k Hk].
      exists k. by destruct (unlock_shared _).
    + by apply solo_unlock_exclusive.
    + exists 1%nat. rewrite downgrade_encode. unfold alone. solo_step Hlt; [|done]. cbn [replicate].
      pose proof (downgrade_encode wp rp) as Hd. unfold downgrade in Hd. injection Hd as Hd _.
      destruct (encode_fields Writer wp rp) as (_ & _ & _ & Hr); [done|].
      solo_step Hlt; [|unfold bit_set; by rewrite Hd, Hr]. by destruct rp.
Qed.
End theorems.

(** Witnesses: a writer, then a reader and another writer that park, and the
    release of the lock. *)
Section instances.
#[local] Existing Instance debug64.

Definition contention : list (nat * choice) :=
  alone 0 StartLockX 1 ++ alone 1 StartLockS 5 ++ alone 2 StartLockX 5.

Definition contended : lstate :=
  mkState (encode Writer true true) [HoldX; ParkedS; ParkedX].

Lemma contended_reachable : reachable 3 contended.
Proof. apply (run_reachable 3 contention (initial 3)); [apply reach_init|by vm_compute]. Qed.

Lemma solo_run_witness :
  (0 < length [Idle])%nat ∧ owner_ok (Readers 2) ∧
  ∃ k, run (alone 0 StartUnlock k) (mkState (encode (Readers 2) false false) [HoldS]) ⇓
    mkState (encode (Readers 1) false false) [Idle].
Proof.
  split; [by vm_compute; lia|]. split; [by vm_compute|].
  destruct (solo_run 0 [Idle] (Readers 2) false false) as (_ & _ & Hex);
    [by vm_compute; lia|by vm_compute|done|exact Hex].
Defined.
End instances.
