(* ===== verification/LockWeak.v ===== *)
(** * LockWeak: the lock under weak memory (src/src/lock.rs)

    LockMachine runs the lock on a sequentially consistent word. Here the same
    programs run on the memory the orderings of lock.rs ask for: a relaxed
    load, or the failing side of a compare-exchange, may read any value that
    coherence allows; a successful read-modify-write reads the value just
    before its own in the modification order; [Acquire] and [Release] transfer
    what a thread knows, along release sequences.

    [message]s are the writes to [state] in modification order. A thread's
    [tview] is how far into that order it has read and which accesses to the
    data behind the lock happen before its next step. A write may go anywhere
    in the modification order that coherence and the atomicity of the
    read-modify-writes leave open, not only at its end. Reads of values that
    are written later (load buffering) are not part of the model.

    The queues of [parking_lot_core] are locked while [park] validates and
    while [unpark_all] and [unpark_one] run, so they carry views of their own. *)

From stdpp Require Import base gmap sets list.
From S2P Require Import Prelude Machine Lock LockMachine.

Open Scope Z_scope.

Inductive ordering := Relaxed | Acquire | Release.

(** What a step does to [state], having read the value [w]: the orderings are
    those of the calls in lock.rs. All loads and failures are [Relaxed]. *)
Inductive atomic :=
| NoAtomic                  (* a decision on local variables *)
| Load                      (* a load, or a compare-exchange that failed *)
| Rmw (ord : ordering)      (* a compare-exchange that succeeded, [fetch_sub], [fetch_and] *)
| Store (ord : ordering).

Definition releases (ord : ordering) : bool := match ord with Release => true | _ => false end.
Definition acquires (ord : ordering) : bool := match ord with Acquire => true | _ => false end.

(** Accesses to the data the lock protects: reads and writes of the shard, and
    the relaxed increments of a frequency counter ([bump_freq]). *)
Inductive data := DRead | DWrite | DBump.

#[global] Instance data_eq_dec : EqDecision data.
Proof. solve_decision. Defined.

(** A write to [state]: its value, whether it is a read-modify-write of the
    write before it, and the data accesses it publishes. *)
Record message := mkMsg { val : Z; rmw : bool; released : gset nat }.

(** What a thread knows: the newest message it has read or written, and the
    data accesses (positions in [log]) that happen before its next step. *)
Record tview := mkView { seen : nat; ids : gset nat }.

Definition view_join (v1 v2 : tview) : tview :=
  mkView (Nat.max (seen v1) (seen v2)) (ids v1 ∪ ids v2).

(** The memory, the threads, the two queues ([self] and [self + 1]) and the
    data accesses so far with the threads that made them. *)
Record wstate := mkWeak {
  hist : list message;
  wpcs : list pc;
  views : list tview;
  lot_x : tview;
  lot_s : tview;
  log : list (nat * data)
}.

(** A step synchronises (with the choices of LockMachine, and the message it
    reads or writes after), or accesses the data. *)
Inductive wchoice := Sync (ch : choice) (i : nat) | Data (d : data).

Section weak.
Context `{!Target}.
Implicit Types (ch : choice) (w s : Z) (p : pc) (h : list message) (v : tview) (σ : wstate).

Definition both_parked : Z := Z.lor READERS_PARKED WRITERS_PARKED.

(** The access of a step that reads [w]. *)
Definition atomic_of ch w p : atomic :=
  match p with
  | TryX => if w =? 0 then Rmw Acquire else Load
  | LockX1 | LockX2 => if cas_weak ch w 0 then Rmw Acquire else Load
  | LockXLoad _ => Load
  | LockXLoop _ s =>
      if Z.land s ONE_WRITER =? 0 then if cas_weak ch w s then Rmw Acquire else Load
      else if Z.land s WRITERS_PARKED =? 0 then
        match ch with
        | Spin => NoAtomic
        | _ => if cas_weak ch w s then Rmw Relaxed else Load
        end
      else NoAtomic
  | LockXPark => Load
  | UnlockX => if w =? ONE_WRITER then Rmw Release else Load
  | UnlockXLoad => Load
  | UnlockXFree s =>
      if negb (Z.land s both_parked =? both_parked) then
        if w =? s then Rmw Release else Load
      else NoAtomic
  | UnlockXStore => Store Release
  | Downgrade => Rmw Release
  | FastS _ => Load
  | FastSCas _ s => if cas_weak ch w s then Rmw Acquire else Load
  | TrySLoad => Load
  | TrySLoop s =>
      match usize_checked_add s ONE_READER with
      | Some new_state =>
          if writer_held new_state then NoAtomic
          else if cas_weak ch w s then Rmw Acquire else Load
      | None => NoAtomic
      end
  | LockSLoad => Load
  | LockSLoop s =>
      match usize_checked_add s ONE_READER with
      | Some _ => if cas_weak ch w s then Rmw Acquire else Load
      | None =>
          if Z.land s READERS_PARKED =? 0 then
            match ch with
            | Spin => NoAtomic
            | _ => if cas_weak ch w s then Rmw Relaxed else Load
            end
          else NoAtomic
      end
  | LockSPark => Load
  | UnlockS => Rmw Release
  | UnlockSSlow => if w =? WRITERS_PARKED then Rmw Relaxed else Load
  | _ => NoAtomic
  end.

(** A write may follow message [i] unless the next message is a
    read-modify-write of [i]. *)
Definition slot_open h (i : nat) : bool :=
  match h !! S i with Some m => negb (rmw m) | None => true end.

Definition write_after (i : nat) (m : message) h : list message :=
  take (S i) h ++ m :: drop (S i) h.

(** The messages after a new one at position [k] move up. *)
Definition shift (k : nat) v : tview :=
  mkView (if (k <=? seen v)%nat then S (seen v) else seen v) (ids v).

(** One step of a thread with view [v] that reads message [i] (or writes after
    it): the new history, the position of a new message, the thread's view. *)
Definition wtstep ch (i : nat) h v p : outcome (list message * option nat * tview * pc) :=
  match h !! i with
  | Some m =>
      if (i <? seen v)%nat then Blocked else
      '(w', p') ← tstep ch (val m) p;
      match atomic_of ch (val m) p with
      | NoAtomic => Ret (h, None, v, p')
      | Load => Ret (h, None, mkView i (ids v), p')
      | Rmw ord =>
          if slot_open h i then
            Ret (write_after i
                   (mkMsg w' true (released m ∪ (if releases ord then ids v else ∅))) h,
                 Some (S i),
                 mkView (S i) (ids v ∪ (if acquires ord then released m else ∅)), p')
          else Blocked
      | Store ord =>
          if slot_open h i then
            Ret (write_after i (mkMsg w' false (if releases ord then ids v else ∅)) h,
                 Some (S i), mkView (S i) (ids v), p')
          else Blocked
      end
  | None => Blocked
  end.

(** Shared locks do not write; the frequency counters are atomic. *)
Definition permitted p (d : data) : bool :=
  match p, d with
  | HoldX, _ => true
  | HoldS, (DRead | DBump) => true
  | _, _ => false
  end.

(** The queue whose lock a step takes. *)
Inductive queue := QueueX | QueueS.

Definition queue_of p : option queue :=
  match p with
  | LockXPark | WakeX => Some QueueX
  | LockSPark | WakeS | DowngradeWake => Some QueueS
  | _ => None
  end.

Definition lot σ (q : queue) : tview := match q with QueueX => lot_x σ | QueueS => lot_s σ end.

Definition set_lot (q : queue) v σ : wstate :=
  match q with
  | QueueX => mkWeak (hist σ) (wpcs σ) (views σ) v (lot_s σ) (log σ)
  | QueueS => mkWeak (hist σ) (wpcs σ) (views σ) (lot_x σ) v (log σ)
  end.

(** The view with which a step starts, the queue being locked. *)
Definition entry_view σ p v : tview :=
  match queue_of p with Some q => view_join v (lot σ q) | None => v end.

(** The queue is unlocked at the end of the step. *)
Definition leave_queue p v σ : wstate :=
  match queue_of p with Some q => set_lot q v σ | None => σ end.

Definition shift_all (k : option nat) σ : wstate :=
  match k with
  | Some k => mkWeak (hist σ) (wpcs σ) (shift k <$> views σ) (shift k (lot_x σ)) (shift k (lot_s σ)) (log σ)
  | None => σ
  end.

Definition set_thread (t : nat) p v σ : wstate :=
  mkWeak (hist σ) (<[t := p]> (wpcs σ)) (<[t := v]> (views σ)) (lot_x σ) (lot_s σ) (log σ).

Definition wstep (t : nat) (c : wchoice) σ : outcome wstate :=
  match wpcs σ !! t, views σ !! t with
  | Some p, Some v =>
      match c with
      | Data d =>
          if permitted p d then
            Ret (mkWeak (hist σ) (wpcs σ) (<[t := mkView (seen v) ({[length (log σ)]} ∪ ids v)]> (views σ))
                   (lot_x σ) (lot_s σ) (log σ ++ [(t, d)]))
          else Blocked
      | Sync ch i =>
          let v := entry_view σ p v in
          match p with
          | WakeS | WakeX | DowngradeWake =>
              σ' ← step t ch (mkState 0 (wpcs σ));
              Ret (leave_queue p v
                     (mkWeak (hist σ) (pcs σ') (<[t := v]> (views σ)) (lot_x σ) (lot_s σ) (log σ)))
          | _ =>
              '(h, k, v', p') ← wtstep ch i (hist σ) v p;
              Ret (leave_queue p v'
                     (set_thread t p' v'
                        (shift_all k (mkWeak h (wpcs σ) (views σ) (lot_x σ) (lot_s σ) (log σ)))))
          end
      end
  | _, _ => Blocked
  end.

Definition wzero : tview := mkView 0 ∅.

Definition winitial (n : nat) : wstate :=
  mkWeak [mkMsg lock_init false ∅] (replicate n Idle) (replicate n wzero) wzero wzero [].

Inductive wreachable (n : nat) : wstate → Prop :=
| wreach_init : wreachable n (winitial n)
| wreach_step t c σ σ' : wreachable n σ → wstep t c σ ⇓ σ' → wreachable n σ'.

(** A run along a given schedule. *)
Fixpoint wrun (schedule : list (nat * wchoice)) σ : outcome wstate :=
  match schedule with
  | [] => Ret σ
  | (t, c) :: rest => σ ← wstep t c σ; wrun rest σ
  end.

(** The newest value of [state]. *)
Definition newest σ : Z := match last (hist σ) with Some m => val m | None => 0 end.

(** The threads and the newest value, as a state of LockMachine. *)
Definition sequential σ : lstate := mkState (newest σ) (wpcs σ).

(** What a thread may read. The writes that matter to a location are those of
    [log] that satisfy [to]; a read of thread [t] may return the effect of the
    write [k] unless a later one happens before the read. *)
Definition may_read (to : data → bool) σ (t k : nat) : Prop :=
  (∃ t0 d, log σ !! k = Some (t0, d) ∧ to d = true) ∧
  ∀ v k' t' d', views σ !! t = Some v → (k < k')%nat → log σ !! k' = Some (t', d') →
    to d' = true → k' ∉ ids v.

(** A frequency counter is written by the increments, and by the writes that
    initialise or reset it; the rest of the data only by the writes. *)
Definition counter_write (d : data) : bool := match d with DRead => false | _ => true end.
Definition plain_write (d : data) : bool := match d with DWrite => true | _ => false end.
End weak.
