(* ===== verification/LockWeakInv.v ===== *)
(** * LockWeakInv: the invariant of the lock under weak memory

    The invariant of LockInv holds for the newest value of the state word and
    the threads. Around it: every message is a word some thread may have read,
    the messages since a holder's own are read-modify-writes, under a writer
    their parking bits only grow, the queues' views tell a thread that parks
    about the wake-ups that happened, and the data accesses are known to the
    threads that must not race with them.

    A step that writes reads the newest message ([slot_newest]), so it is a
    step of LockMachine; a step that only reads may read an old one, and moves
    the thread in a way the invariant tolerates ([stale_keeps]). *)

From Stdlib Require Import ZifyBool.
From stdpp Require Import base gmap sets list.
From S2P Require Import Prelude Machine Lock LockMachine LockInv LockWeak.

Open Scope Z_scope.

Section weak_inv.
Context `{!Target}.
Implicit Types (ch : choice) (w s N : Z) (p : pc) (h : list message) (v : tview) (σ : wstate)
  (o : owner) (wp rp : bool) (ps : list pc).

(** ** The writing steps *)

(** The writes to the word, from [encode o wp rp] to [encode o' wp' rp']. *)
Inductive transition : atomic → owner → bool → bool → pc → owner → bool → bool → pc → Prop :=
| take_x wp wp' rp p :
    holds_x p = false → holds_s p = false → (wp → wp') →
    transition (Rmw Acquire) Free wp rp p Writer wp' rp HoldX
| take_s o wp rp o' p :
    holds_x p = false → holds_s p = false → add_reader o = Some o' →
    transition (Rmw Acquire) o wp rp p o' wp rp HoldS
| mark_x o rp p :
    holds_x p = false → holds_s p = false → o ≠ Free →
    transition (Rmw Relaxed) o false rp p o true rp LockXPark
| mark_s wp p :
    holds_x p = false → holds_s p = false →
    transition (Rmw Relaxed) Writer wp false p Writer wp true LockSPark
| free_x wp rp p :
    holds_x p = true → wp && rp = false →
    transition (Rmw Release) Writer wp rp p Free false false
      (if rp then WakeS else if wp then WakeX else Idle)
| store_x :
    transition (Store Release) Writer true true UnlockXStore Free true false WakeS
| to_shared wp rp :
    transition (Rmw Release) Writer wp rp Downgrade (Readers 1) wp false
      (if rp then DowngradeWake else HoldS)
| leave_s n wp :
    transition (Rmw Release) (Readers n) wp false UnlockS
      (if n =? 1 then Free else Readers (n - 1)) wp false
      (if (n =? 1) && wp then UnlockSSlow else Idle)
| clear_x :
    transition (Rmw Relaxed) Free true false UnlockSSlow Free false false WakeX.

Definition writes (a : atomic) : bool := match a with Rmw _ | Store _ => true | _ => false end.

Section transition_facts.
Context a o wp rp p o' wp' rp' p' (Ht : transition a o wp rp p o' wp' rp' p').

(** The threads that leave the lock release; the others do not hold it. *)
Lemma transition_releases :
  holds_x p || holds_s p = true → a = Rmw Release ∨ a = Store Release ∧ holds_x p = true.
Proof.
  inversion Ht; subst; intros Hp; eauto;
    repeat match goal with Hf : _ p = false |- _ => rewrite Hf in Hp end; done.
Qed.

Lemma transition_store ord : a = Store ord → o = Writer ∧ wp = true ∧ rp = true ∧ holds_x p = true.
Proof. by inversion Ht; subst. Qed.

(** A parking bit is cleared by the thread that wakes. *)
Lemma transition_bits :
  (wp = true → wp' = true ∨ p' = WakeX) ∧ (rp = true → rp' = true ∨ wakes_s p' = true).
Proof.
  inversion Ht; subst; split; intros Hb; subst; eauto; try done.
  - left. destruct wp'; naive_solver.
  - destruct rp; [done|by right].
Qed.

(** Nobody takes the lock from a writer. *)
Lemma transition_writer :
  holds_x p = false → o = Writer → o' = Writer ∧ (wp → wp') ∧ (rp → rp') ∧ holds_x p' = false.
Proof. inversion Ht; subst; intros Hx Ho; try done; subst; try congruence; by (split_and!; intros). Qed.

Lemma transition_free :
  o' = Free → wp' = true → p' = UnlockSSlow ∨ rp = true ∧ pending_s p = pending_s p'.
Proof.
  inversion Ht; subst; intros Ho Hw; try done; eauto.
  - destruct o; cbn in *; simplify_eq. by case_match; simplify_eq.
  - destruct (n =? 1); [|done]. subst. by left.
Qed.

(** A thread that takes the lock acquires. *)
Lemma transition_takes :
  holds_x p' || holds_s p' = true → holds_x p || holds_s p = false →
  a = Rmw Acquire ∧ o ≠ Writer ∧ (holds_x p' = true → o = Free).
Proof.
  inversion Ht; subst; intros Hn Hb; try done.
  - split_and!; [done| |done]. by intros ->.
  - rewrite orb_false_iff in Hb. destruct Hb. congruence.
Qed.

Lemma transition_takes_x : holds_x p' = true → holds_x p || holds_s p = false.
Proof.
  inversion Ht; subst; intros Hx; try done; [by rewrite orb_false_iff|..]; by repeat case_match.
Qed.
End transition_facts.

(** A step that does not write leaves the word alone and, when it does not
    read either, does not depend on it. *)
Lemma silent_step ch w p w' p' :
  tstep ch w p ⇓ (w', p') → writes (atomic_of ch w p) = false → w' = w.
Proof.
  intros Hs Ha. destruct p; cbn [tstep atomic_of] in *; unfold both_parked, rust_assert in *;
    try done; try (by repeat case_match; simplify_eq).
  (* the assertions of the releasing functions *)
  all: repeat (case_match; try done); cbn in *; simplify_eq; try done; repeat (case_match; try done); by simplify_eq.
Qed.

Lemma local_step ch w w2 p w' p' :
  tstep ch w p ⇓ (w', p') → atomic_of ch w p = NoAtomic → tstep ch w2 p ⇓ (w2, p').
Proof.
  intros Hs Ha. destruct p; cbn [tstep atomic_of] in *; unfold both_parked, cas_weak in *; try done;
    repeat (case_match; try done); by simplify_eq.
Qed.

Section writing.
Context N o wp rp ps (Hi : linv N o wp rp ps) (t : nat).

(** The step that writes [w'] and goes from [p] to [p'] is a transition. *)
Definition transits (a : atomic) w' p p' : Prop :=
  ∃ o' wp' rp', w' = encode o' wp' rp' ∧ owner_ok o' ∧ transition a o wp rp p o' wp' rp' p'.

Lemma cas_exclusive_transits p :
  holds_x p = false → holds_s p = false → encode o wp rp = 0 →
  transits (Rmw Acquire) ONE_WRITER p HoldX.
Proof.
  unfold transits. intros Hx Hs Hz%Z.eqb_eq. pose proof (linv_owner_ok _ _ _ _ _ Hi) as Ho.
  rewrite encode_zero in Hz by done. destruct o; try done. destruct wp, rp; try done.
  exists Writer, false, false. split_and!; [apply ONE_WRITER_encode|done|by constructor].
Qed.

Lemma lock_slow_transits aw s ch w' p' :
  ps !! t = Some (LockXLoop aw s) → tstep ch (encode o wp rp) (LockXLoop aw s) ⇓ (w', p') →
  let a := atomic_of ch (encode o wp rp) (LockXLoop aw s) in
  writes a = true → transits a w' (LockXLoop aw s) p'.
Proof.
  intros Hp Hs a Hw. subst a. unfold transits. destruct (li_locals _ _ _ _ _ Hi _ _ Hp) as [Haw (o0 & a & b & -> & Ho0 & _)].
  pose proof (linv_owner_ok _ _ _ _ _ Hi) as Ho. cbn [tstep atomic_of] in *.
  destruct (encode_bits o0 a b Ho0) as (Hwb & Hlw & _). rewrite free_encode in * by done.
  destruct (decide (o0 = Free)) as [->|Hne].
  - destruct (cas_weak _ _ _) eqn:Hc; [|done]. apply cas_weak_encode in Hc as (<- & -> & ->); [|done..].
    injection Hs as <- <-. rewrite encode_acquire. destruct Haw as [-> | ->].
    + exists Writer, wp, rp. rewrite Z.lor_0_r. by split_and!; [..|constructor].
    + exists Writer, true, rp. destruct (encode_bits Writer wp rp) as (_ & -> & _); [done|].
      by split_and!; [..|constructor].
  - assert (match o0 with Free => true | _ => false end = false) as Hf by (by destruct o0).
    rewrite Hf, Hwb in *. destruct a; [done|]. cbn in Hw, Hs.
    destruct (cas_weak ch (encode o wp rp) (encode o0 false b)) eqn:Hc; [|by destruct ch].
    apply cas_weak_encode in Hc as (-> & <- & ->); [|done..]. exists o, true, rp.
    rewrite Hlw in Hs. destruct ch; cbn in *; simplify_eq; (split_and!; [done..|by constructor]).
Qed.

Lemma lock_shared_slow_transits s ch w' p' :
  ps !! t = Some (LockSLoop s) → tstep ch (encode o wp rp) (LockSLoop s) ⇓ (w', p') →
  let a := atomic_of ch (encode o wp rp) (LockSLoop s) in
  writes a = true → transits a w' (LockSLoop s) p'.
Proof.
  intros Hp Hs a Hw. subst a. unfold transits. destruct (li_threads _ _ _ _ _ Hi) as [_ Hmax].
  pose proof (linv_owner_ok _ _ _ _ _ Hi) as Ho. pose proof (li_locals _ _ _ _ _ Hi _ _ Hp) as Hls.
  cbn [tstep atomic_of] in *. destruct (usize_checked_add _ _) as [new|] eqn:Hadd.
  - destruct (cas_weak _ _ _) eqn:Hc; [|done].
    destruct (plausible_add _ _ _ Hmax Hls Hadd) as (_ & o0 & a0 & b0 & o' & -> & Ho0 & Ho' & ->).
    apply assert_Ret in Hs as [_ Hs]. injection Hs as <- <-.
    apply cas_weak_encode in Hc as (-> & -> & ->); [|done..]. exists o', wp, rp.
    split_and!; [done| |by constructor]. pose proof (encode_add_reader o wp rp Ho) as He.
    rewrite Ho' in He. by destruct o; [..|done]; destruct He as (_ & _ & ? & _).
  - destruct (checked_add_writer _ _ Hmax Hls Hadd) as (a & b & ->).
    destruct (encode_fields Writer a b) as (_ & _ & _ & Hr); [done|].
    destruct (encode_bits Writer a b) as (_ & _ & Hlr); [done|]. rewrite Hr, Hlr in *.
    destruct b; [done|]. cbn in Hw, Hs.
    destruct (cas_weak ch (encode o wp rp) (encode Writer a false)) eqn:Hc; [|by destruct ch].
    apply cas_weak_encode in Hc as (<- & -> & <-); [|done..]. exists Writer, wp, true.
    destruct ch; cbn in *; simplify_eq; (split_and!; [done..|by constructor]).
Qed.

(** [try_lock_shared_fast] and [try_lock_shared_slow]. *)
Lemma add_reader_ok o' : add_reader o = Some o' → owner_ok o' ∧ encode o wp rp + ONE_READER = encode o' wp rp.
Proof.
  intros Ho'. pose proof (encode_add_reader o wp rp (linv_owner_ok _ _ _ _ _ Hi)) as He.
  rewrite Ho' in He. unfold ONE_READER. by destruct o; [..|done]; destruct He as (_ & ? & ? & _).
Qed.

Lemma try_shared_transits p ch w' p' :
  ps !! t = Some p → match p with FastSCas _ _ | TrySLoop _ => True | _ => False end →
  tstep ch (encode o wp rp) p ⇓ (w', p') → writes (atomic_of ch (encode o wp rp) p) = true →
  transits (atomic_of ch (encode o wp rp) p) w' p p'.
Proof.
  intros Hp Hk Hs Hw. unfold transits. destruct (li_threads _ _ _ _ _ Hi) as [_ Hmax].
  pose proof (linv_owner_ok _ _ _ _ _ Hi) as Ho. pose proof (li_locals _ _ _ _ _ Hi _ _ Hp) as Hls.
  destruct p; try done; cbn [tstep atomic_of locals_ok] in *.
  - destruct (cas_weak _ _ _) eqn:Hc; [|done]. destruct Hls as (o0 & a0 & b0 & o' & -> & Ho0 & Ho').
    injection Hs as <- <-. apply cas_weak_encode in Hc as (-> & -> & ->); [|done..].
    destruct (add_reader_ok _ Ho') as [? ->]. exists o', wp, rp. by split_and!; [..|constructor].
  - destruct (usize_checked_add _ _) as [new|] eqn:Hadd; [|done].
    destruct (plausible_add _ _ _ Hmax Hls Hadd) as (Hnw & o0 & a0 & b0 & o' & -> & Ho0 & Ho' & ->).
    rewrite Hnw in *. destruct (cas_weak _ _ _) eqn:Hc; [|done]. injection Hs as <- <-.
    apply cas_weak_encode in Hc as (-> & -> & ->); [|done..]. destruct (add_reader_ok _ Ho').
    exists o', wp, rp. by split_and!; [..|constructor].
Qed.

(** [unlock_exclusive] and [unlock_exclusive_slow]. *)
Lemma unlock_exclusive_transits p ch w' p' :
  ps !! t = Some p → match p with UnlockX | UnlockXFree _ | UnlockXStore => True | _ => False end →
  tstep ch (encode o wp rp) p ⇓ (w', p') → writes (atomic_of ch (encode o wp rp) p) = true →
  transits (atomic_of ch (encode o wp rp) p) w' p p'.
Proof.
  intros Hp Hk Hs Hw. unfold transits. pose proof (li_phase _ _ _ _ _ Hi _ _ Hp) as Hph.
  assert (o = Writer) as -> by (eapply holder_x; [done..|by destruct p]).
  destruct p; try done; cbn [tstep atomic_of phase_ok] in *.
  - rewrite ONE_WRITER_encode in *. destruct (_ =? _) eqn:He; [|done]. injection Hs as <- <-.
    apply encode_eqb in He as (_ & -> & ->); [|done..]. exists Free, false, false.
    split_and!; [done..|]. by apply (free_x false false).
  - destruct Hph as (a & b & -> & Hab & _). unfold both_parked in *.
    destruct (encode_fields Writer a b) as (_ & _ & Hf & _); [done|]. rewrite Hf in *.
    destruct (negb _) eqn:Hb; [|done]. destruct (_ =? encode _ a b) eqn:He; [|done].
    apply encode_eqb in He as (_ & <- & <-); [|done..]. exists Free, false, false.
    destruct wp, rp; try done; cbn in Hs; injection Hs as <- <-; (split_and!; [done..|]).
    + by apply (free_x true false).
    + by apply (free_x false true).
  - destruct wp, rp; try done. injection Hs as <- <-. exists Free, true, false.
    split_and!; [done..|constructor].
Qed.

Lemma leaving_transits p ch w' p' :
  ps !! t = Some p → match p with Downgrade | UnlockS | UnlockSSlow => True | _ => False end →
  tstep ch (encode o wp rp) p ⇓ (w', p') → writes (atomic_of ch (encode o wp rp) p) = true →
  transits (atomic_of ch (encode o wp rp) p) w' p p'.
Proof.
  intros Hp Hk Hs Hw. unfold transits. pose proof (linv_owner_ok _ _ _ _ _ Hi) as Ho. pose proof max_readers_pos.
  destruct p; try done; cbn [tstep atomic_of] in *.
  - assert (o = Writer) as -> by (by eapply holder_x).
    pose proof (downgrade_encode wp rp) as Hd. unfold downgrade in Hd. injection Hd as Hd _.
    rewrite Hd in Hs. unfold bit_set in Hs.
    destruct (encode_fields Writer wp rp) as (_ & _ & _ & Hr); [done|]. rewrite Hr in Hs.
    exists (Readers 1), wp, false. injection Hs as <- <-. split_and!; [done|cbn; lia|].
    destruct rp; [apply (to_shared wp true)|apply (to_shared wp false)].
  - destruct (holder_s _ _ _ _ _ Hi _ _ Hp eq_refl) as (n & -> & Hn & ->).
    rewrite leave_encode in Hs by done. injection Hs as <- <-.
    exists (if n =? 1 then Free else Readers (n - 1)), wp, false. split_and!; [done| |].
    + destruct (Z.eqb_spec n 1); cbn; [done|lia].
    + assert (((encode (Readers n) wp false =? Z.lor ONE_READER WRITERS_PARKED)) = (n =? 1) && wp) as ->.
      { change (Z.lor ONE_READER WRITERS_PARKED) with (encode (Readers 1) true false).
        destruct (_ =? encode _ _ _) eqn:He.
        - apply encode_eqb in He as ([= ->] & -> & _); [done|done|cbn; lia].
        - destruct (Z.eqb_spec n 1) as [->|]; [|done]. destruct wp; [by rewrite Z.eqb_refl in He|done]. }
      constructor.
  - change WRITERS_PARKED with (encode Free true false) in *.
    destruct (_ =? _) eqn:He; [|done]. injection Hs as <- <-.
    apply encode_eqb in He as (-> & -> & ->); [|done..]. exists Free, false, false.
    split_and!; [done..|constructor].
Qed.

Lemma writing_step p ch w' p' :
  ps !! t = Some p → tstep ch (encode o wp rp) p ⇓ (w', p') →
  writes (atomic_of ch (encode o wp rp) p) = true →
  ∃ o' wp' rp', w' = encode o' wp' rp' ∧ linv N o' wp' rp' (<[t := p']> ps) ∧
    transition (atomic_of ch (encode o wp rp) p) o wp rp p o' wp' rp' p'.
Proof.
  intros Hp Hs Hw. enough (transits (atomic_of ch (encode o wp rp) p) w' p p') as (o' & wp' & rp' & -> & Ho' & Ht).
  { exists o', wp', rp'. split_and!; [done| |done].
    destruct (tstep_keeps _ _ _ _ _ Hi _ _ _ _ _ Hp Hs) as (o1 & a1 & b1 & He & Hl).
    by apply encode_inj in He as (<- & <- & <-); [|done|by eapply linv_owner_ok]. }
  destruct p; try done; try (by apply try_shared_transits); try (by apply unlock_exclusive_transits);
    try (by apply leaving_transits).
  1-3: cbn [tstep atomic_of] in *; match type of Hw with writes (if ?c then _ else _) = _ => destruct c eqn:Hc; [|done] end;
    injection Hs as <- <-; apply cas_exclusive_transits; [done..|].
  1-3: apply Z.eqb_eq; by destruct ch.
  - by apply lock_slow_transits.
  - by apply lock_shared_slow_transits.
Qed.
End writing.

(** ** The reading steps *)

Section reading.
Context N o wp rp ps (Hi : linv N o wp rp ps) (t : nat).

Lemma keeps_same p' : keeps N ps t (encode o wp rp) p' → linv N o wp rp (<[t := p']> ps).
Proof.
  intros (o' & wp' & rp' & He & Hl).
  by apply encode_inj in He as (<- & <- & <-); [|by eapply linv_owner_ok..].
Qed.

(** Loads and failed compare-exchanges outside of the releasing functions and
    [park]. *)
Lemma outside_load p ch w w' p' :
  ps !! t = Some p → plausible N w → tstep ch w p ⇓ (w', p') → atomic_of ch w p = Load →
  match p with
  | TryX | LockX1 | LockX2 | LockXLoad _ | LockXLoop _ _ | FastS _ | FastSCas _ _
  | TrySLoad | TrySLoop _ | LockSLoad | LockSLoop _ => True
  | _ => False
  end → linv N o wp rp (<[t := p']> ps).
Proof.
  intros Hp Hpl Hs Ha Hk. destruct (li_threads _ _ _ _ _ Hi) as [_ Hmax].
  pose proof (li_locals _ _ _ _ _ Hi _ _ Hp) as Hls. apply keeps_same.
  destruct p; try done; cbn [tstep atomic_of locals_ok] in *.
  1-3: repeat case_match; simplify_eq; lock_move Hi Hp o o wp rp; by left.
  - injection Hs as <- <-. lock_move Hi Hp o o wp rp.
  - assert (p' = LockXLoop acquire_with w) as -> by (repeat case_match; by simplify_eq).
    destruct Hls. lock_move Hi Hp o o wp rp.
  - destruct (usize_checked_add _ _) as [new|] eqn:Hadd.
    + destruct (plausible_add _ _ _ Hmax Hpl Hadd) as (Hw & o1 & wp1 & rp1 & o' & ? & ? & ? & _).
      rewrite Hw in Hs. injection Hs as <- <-. eapply outside; [done..| |done]. cbn. naive_solver.
    + injection Hs as <- <-. by eapply outside; [..|destruct a|destruct a].
  - assert (p' = fast_failed a) as -> by (repeat case_match; by simplify_eq).
    by eapply outside; [..|destruct a|].
  - injection Hs as <- <-. by eapply outside.
  - assert (p' = TrySLoop w) as -> by (repeat case_match; by simplify_eq). by eapply outside.
  - injection Hs as <- <-. by eapply outside.
  - assert (p' = LockSLoop w ∨ p' = LockSLoad) as [-> | ->]; [|by eapply outside..].
    unfold rust_assert in Hs. repeat (case_match; try done); cbn in Hs; simplify_eq; eauto.
Qed.

(** The thread that failed to wake the writers is not the only one that takes
    care of them. *)
Definition covered : Prop :=
  wp = true → cnt holds_x ps + cnt holds_s ps = 0 → 1 < cnt pending_s ps + cnt last_reader ps.

Lemma stale_keeps p ch w w' p' :
  ps !! t = Some p → plausible N w → tstep ch w p ⇓ (w', p') → atomic_of ch w p = Load →
  phase_ok wp rp p' →
  (p' = ParkedX → wp = true ∨ 0 < cnt wakes_x (<[t := p']> ps)) →
  (p' = ParkedS → rp = true ∨ 0 < cnt wakes_s ps) →
  (p = UnlockSSlow → covered) →
  linv N o wp rp (<[t := p']> ps).
Proof.
  intros Hp Hpl Hs Ha Hph Hx Hr Hc. rewrite (cnt_insert _ _ _ _ _ Hp) in Hx.
  destruct p; try done; try (by eapply outside_load); apply keeps_same; cbn [tstep atomic_of] in *.
  - case_match; injection Hs as <- <-; [|lock_move Hi Hp o o wp rp; by right].
    specialize (Hx eq_refl). lock_move Hi Hp o o wp rp.
  - case_match; injection Hs as <- <-; [done|]. lock_move Hi Hp o o wp rp.
  - apply assert_Ret in Hs as [_ Hs]. apply assert_Ret in Hs as [_ Hs]. injection Hs as <- <-.
    lock_move Hi Hp o o wp rp.
  - assert (p' = UnlockXStore) as ->.
    { unfold both_parked, rust_assert in *. repeat (case_match; try done); cbn in Hs; by simplify_eq. }
    lock_move Hi Hp o o wp rp.
  - case_match; injection Hs as <- <-; [|by eapply outside].
    specialize (Hr eq_refl). lock_move Hi Hp o o wp rp.
  - case_match; injection Hs as <- <-; [done|]. specialize (Hc eq_refl). unfold covered in Hc.
    lock_move Hi Hp o o wp rp.
Qed.
End reading.
End weak_inv.
