(* ===== verification/LockWeakState.v ===== *)
(** * LockWeakState: the invariant on whole states of LockWeak

    What holds of the messages, of every thread's position in them, of the
    queues' views and of the data accesses; and the two ways in which a step
    keeps it: without a new message ([frame_inv]) and with one at the end of
    the modification order ([append_inv]). *)

From stdpp Require Import base gmap sets list.
From S2P Require Import Prelude Machine Lock LockMachine LockInv LockWeak LockWeakInv.

Open Scope Z_scope.

(** About to wake one parked writer. *)
Definition wakes_w (p : pc) : bool := match p with WakeX => true | _ => false end.

Section state_inv.
Context `{!Target}.
Implicit Types (ch : choice) (N : Z) (p : pc) (h : list message) (m : message) (v : tview) (σ : wstate)
  (o : owner) (wp rp : bool) (ps : list pc) (vs : list tview) (t i k : nat).

(** Every message is a word some thread may have read, and only the releasing
    [store], which overwrites a known value, is not a read-modify-write. *)
Record mem_ok N h : Prop := {
  mo_plausible i m : h !! i = Some m → plausible N (val m);
  mo_store i m m' : h !! i = Some m → h !! S i = Some m' → rmw m' = false →
    val m = encode Writer true true
}.

(** What the releasing writer has read. *)
Definition read_phase h p v : Prop :=
  match p with
  | UnlockXLoad => ∃ m a b, h !! seen v = Some m ∧ val m = encode Writer a b ∧ a || b = true
  | UnlockXFree s => ∃ m a b, h !! seen v = Some m ∧ val m = s ∧ s = encode Writer a b ∧ a || b = true
  | UnlockXStore => ∃ m, h !! seen v = Some m ∧ val m = encode Writer true true
  | _ => True
  end.

(** A thread's position: the messages after a holder's position are
    read-modify-writes, and under a writer the parking bits only grow. *)
Record pos_ok h p v : Prop := {
  po_seen : (seen v < length h)%nat;
  po_rmw : holds_x p || holds_s p = true → ∀ i m, (seen v < i)%nat → h !! i = Some m → rmw m = true;
  po_grow : holds_x p = true → ∀ i j m m', (seen v ≤ i)%nat → (i ≤ j)%nat →
    h !! i = Some m → h !! j = Some m' →
    ∃ a b a' b', val m = encode Writer a b ∧ val m' = encode Writer a' b' ∧ (a → a') ∧ (b → b');
  po_phase : read_phase h p v
}.

(** A parking bit some thread may still read (at [l] or later) is in the
    newest message, or the thread that cleared it has yet to take the queue. *)
Definition bit_kept h ps vs (l : nat) (bit : Z) (waker : pc → bool) : Prop :=
  ∀ i m n, (l ≤ i)%nat → h !! i = Some m → bit_set (val m) bit = true → last h = Some n →
    bit_set (val n) bit = true ∨
    ∃ t p v, ps !! t = Some p ∧ vs !! t = Some v ∧ waker p = true ∧ (i < seen v)%nat.

(** A free lock with the writers' bit: a reader will come by, or the last
    reader, whose message is the newest, will look after the writers. *)
Definition free_ok o wp h ps vs : Prop :=
  o = Free → wp = true →
  0 < cnt pending_s ps ∨ ∃ t v, ps !! t = Some UnlockSSlow ∧ vs !! t = Some v ∧ S (seen v) = length h.

(** A data access is published by the newest message, or the thread that made
    it still holds the lock. *)
Definition accounted m ps vs (lg : list (nat * data)) : Prop :=
  ∀ k t d, lg !! k = Some (t, d) →
    k ∈ released m ∨
    ∃ p v, ps !! t = Some p ∧ vs !! t = Some v ∧ k ∈ ids v ∧
      holds_x p || (holds_s p && negb (bool_decide (d = DWrite))) = true.

(** A writer knows of all accesses, a reader of all writes. *)
Definition informed (lg : list (nat * data)) p v : Prop :=
  (holds_x p = true → ∀ k, (k < length lg)%nat → k ∈ ids v) ∧
  (holds_s p = true → ∀ k t, lg !! k = Some (t, DWrite) → k ∈ ids v).

Record winv N σ m o wp rp : Prop := {
  wi_last : last (hist σ) = Some m;
  wi_val : val m = encode o wp rp;
  wi_linv : linv N o wp rp (wpcs σ);
  wi_len : length (views σ) = length (wpcs σ);
  wi_mem : mem_ok N (hist σ);
  wi_pos t p v : wpcs σ !! t = Some p → views σ !! t = Some v → pos_ok (hist σ) p v;
  wi_lots : (seen (lot_x σ) < length (hist σ) ∧ seen (lot_s σ) < length (hist σ))%nat;
  wi_kept_x : bit_kept (hist σ) (wpcs σ) (views σ) (seen (lot_x σ)) WRITERS_PARKED wakes_w;
  wi_kept_s : bit_kept (hist σ) (wpcs σ) (views σ) (seen (lot_s σ)) READERS_PARKED wakes_s;
  wi_free : free_ok o wp (hist σ) (wpcs σ) (views σ);
  wi_log : accounted m (wpcs σ) (views σ) (log σ);
  wi_informed t p v : wpcs σ !! t = Some p → views σ !! t = Some v → informed (log σ) p v
}.

Lemma winitial_inv n :
  Z.of_nat n + 1 < max_readers → winv (Z.of_nat n) (winitial n) (mkMsg lock_init false ∅) Free false false.
Proof.
  intros Hn. destruct (initial_inv n Hn) as (o & wp & rp & He & Hl). cbn [word pcs initial] in He, Hl.
  change lock_init with (encode Free false false) in He.
  apply encode_inj in He as (<- & <- & <-); [|done|by eapply linv_owner_ok].
  constructor; try done; cbn [winitial hist wpcs views lot_x lot_s log].
  - by rewrite !length_replicate.
  - constructor; [|by intros [|i] ? ? ? [=]..].
    intros [|i] ? [= <-]; by exists Free, false, false.
  - intros t p v [-> _]%lookup_replicate [-> _]%lookup_replicate. constructor; [cbn; lia|done..].
  - cbn. lia.
  - intros [|i] m' n' _; [|by intros [=]]. by intros [= <-].
  - intros [|i] m' n' _; [|by intros [=]]. by intros [= <-].
  - by intros t p v [-> _]%lookup_replicate [-> _]%lookup_replicate.
Qed.

(** ** Steps without a new message *)

Section frame.
Context N σ m o wp rp (Hi : winv N σ m o wp rp) σ'.
Context (Hh : hist σ' = hist σ) (Hlog : log σ' = log σ) (Hl : linv N o wp rp (wpcs σ')).
Context (Hlen : length (views σ') = length (wpcs σ')) (Hlen' : length (wpcs σ') = length (wpcs σ)).
Context (Hthreads : ∀ t p v p' v',
  wpcs σ !! t = Some p → views σ !! t = Some v → wpcs σ' !! t = Some p' → views σ' !! t = Some v' →
  (seen v ≤ seen v')%nat ∧ ids v ⊆ ids v' ∧ holds_x p' = holds_x p ∧ holds_s p' = holds_s p ∧
  pos_ok (hist σ) p' v').
Context (Hlots : (seen (lot_x σ) ≤ seen (lot_x σ') < length (hist σ))%nat ∧
                 (seen (lot_s σ) ≤ seen (lot_s σ') < length (hist σ))%nat).
(** The wakers that go on. *)
Context (Hwx : ∀ t p v, wpcs σ !! t = Some p → views σ !! t = Some v → wakes_w p = true →
  (seen (lot_x σ') < seen v)%nat → wpcs σ' !! t = Some p).
Context (Hws : ∀ t p v, wpcs σ !! t = Some p → views σ !! t = Some v → wakes_s p = true →
  (seen (lot_s σ') < seen v)%nat → wpcs σ' !! t = Some p).
Context (Hfree : free_ok o wp (hist σ) (wpcs σ') (views σ')).

(** Threads before and after the step. *)
Lemma frame_old t p' v' :
  wpcs σ' !! t = Some p' → views σ' !! t = Some v' →
  ∃ p v, wpcs σ !! t = Some p ∧ views σ !! t = Some v.
Proof.
  intros Hp Hv. apply lookup_lt_Some in Hp, Hv. rewrite Hlen' in Hp.
  destruct (lookup_lt_is_Some_2 (wpcs σ) t) as [p ?]; [done|].
  destruct (lookup_lt_is_Some_2 (views σ) t) as [v ?]; [rewrite (wi_len _ _ _ _ _ _ Hi); lia|].
  by exists p, v.
Qed.

Lemma frame_new t p v :
  wpcs σ !! t = Some p → views σ !! t = Some v →
  ∃ p' v', wpcs σ' !! t = Some p' ∧ views σ' !! t = Some v'.
Proof.
  intros Hp Hv. apply lookup_lt_Some in Hp, Hv.
  destruct (lookup_lt_is_Some_2 (wpcs σ') t) as [p' ?]; [lia|].
  destruct (lookup_lt_is_Some_2 (views σ') t) as [v' ?]; [lia|]. by exists p', v'.
Qed.

Lemma frame_kept l l' bit waker :
  bit_kept (hist σ) (wpcs σ) (views σ) l bit waker → (l ≤ l')%nat →
  (∀ t p v, wpcs σ !! t = Some p → views σ !! t = Some v → waker p = true →
    (l' < seen v)%nat → wpcs σ' !! t = Some p) →
  bit_kept (hist σ) (wpcs σ') (views σ') l' bit waker.
Proof.
  intros Hk Hle Hw i mi n Hi' Hmi Hb Hn.
  destruct (Hk i mi n) as [?|(t & p & v & Hp & Hv & Hwk & Hs)]; [lia|done..|by left|]. right.
  destruct (frame_new _ _ _ Hp Hv) as (p' & v' & Hp' & Hv').
  destruct (Hthreads _ _ _ _ _ Hp Hv Hp' Hv') as (? & _). exists t, p, v'.
  split_and!; [|done..|lia]. eapply Hw; [done..|lia].
Qed.

Lemma frame_inv : winv N σ' m o wp rp.
Proof.
  pose proof Hi as [Hlast Hval Hlinv Hlen0 Hmem Hpos Hlots0 Hkx Hks Hfr Hlg Hinf]. constructor; rewrite ?Hh, ?Hlog; try done.
  - intros t p' v' Hp' Hv'. destruct (frame_old _ _ _ Hp' Hv') as (p & v & Hp & Hv). by eapply Hthreads.
  - lia.
  - eapply frame_kept; [done|lia|done].
  - eapply frame_kept; [done|lia|done].
  - intros k t d Hk. destruct (Hlg k t d Hk) as [?|(p & v & Hp & Hv & Hin & Hd)]; [by left|right].
    destruct (frame_new _ _ _ Hp Hv) as (p' & v' & Hp' & Hv').
    destruct (Hthreads _ _ _ _ _ Hp Hv Hp' Hv') as (_ & ? & Hx & Hs & _). exists p', v'.
    rewrite Hx, Hs. split_and!; [done..|set_solver|done].
  - intros t p' v' Hp' Hv'. destruct (frame_old _ _ _ Hp' Hv') as (p & v & Hp & Hv).
    destruct (Hthreads _ _ _ _ _ Hp Hv Hp' Hv') as (_ & ? & Hx & Hs & _).
    destruct (Hinf t p v Hp Hv) as [H1 H2]. split; rewrite ?Hx, ?Hs; set_solver.
Qed.
End frame.

(** ** Steps with a new message *)

(** The data accesses a write publishes and a read-modify-write learns of. *)
Definition published (a : atomic) m v : gset nat :=
  match a with
  | Rmw ord => released m ∪ (if releases ord then ids v else ∅)
  | Store ord => if releases ord then ids v else ∅
  | _ => ∅
  end.

Definition learned (a : atomic) m : gset nat :=
  match a with Rmw ord => if acquires ord then released m else ∅ | _ => ∅ end.

Definition is_rmw (a : atomic) : bool := match a with Rmw _ => true | _ => false end.

(** Thread [t] goes to [p'] and writes [w'] after the newest message [m]. *)
Definition append t (a : atomic) m w' p' v σ : wstate :=
  mkWeak (hist σ ++ [mkMsg w' (is_rmw a) (published a m v)])
    (<[t := p']> (wpcs σ)) (<[t := mkView (length (hist σ)) (ids v ∪ learned a m)]> (views σ))
    (lot_x σ) (lot_s σ) (log σ).

(** A writer excludes every other holder. *)
Lemma holder_alone N o wp rp ps t t' p p' :
  linv N o wp rp ps → ps !! t = Some p → ps !! t' = Some p' → t ≠ t' →
  holds_x p = true → holds_x p' || holds_s p' = false.
Proof.
  intros Hl Hp Hp' Hne Hx. apply not_true_is_false. intros Hh. apply Hne.
  apply (holders_exclude N (mkState (encode o wp rp) ps) t t' p p'); [by exists o, wp, rp|done..].
Qed.

Section append.
Context N σ m o wp rp (Hi : winv N σ m o wp rp).
Context t p v (Hp : wpcs σ !! t = Some p) (Hv : views σ !! t = Some v).
Context a o' wp' rp' p' (Ht : transition a o wp rp p o' wp' rp' p').
Context (Hl : linv N o' wp' rp' (<[t := p']> (wpcs σ))).
Context (Hnw : wakes_w p = false ∧ wakes_s p = false).

Notation σ' := (append t a m (encode o' wp' rp') p' v σ).
Notation m' := (mkMsg (encode o' wp' rp') (is_rmw a) (published a m v)).

(** Threads after the step. *)
Lemma append_thread t0 p0 v0 :
  wpcs σ' !! t0 = Some p0 → views σ' !! t0 = Some v0 →
  t0 = t ∧ p0 = p' ∧ v0 = mkView (length (hist σ)) (ids v ∪ learned a m) ∨
  t0 ≠ t ∧ wpcs σ !! t0 = Some p0 ∧ views σ !! t0 = Some v0.
Proof.
  cbn [append wpcs views]. rewrite !list_lookup_insert_Some. naive_solver.
Qed.

Lemma append_self : wpcs σ' !! t = Some p' ∧ views σ' !! t = Some (mkView (length (hist σ)) (ids v ∪ learned a m)).
Proof.
  cbn [append wpcs views].
  split; apply list_lookup_insert_eq; [by eapply lookup_lt_Some in Hp|by eapply lookup_lt_Some in Hv].
Qed.

Lemma append_other t0 : t0 ≠ t → wpcs σ' !! t0 = wpcs σ !! t0 ∧ views σ' !! t0 = views σ !! t0.
Proof. intros Hne. cbn [append wpcs views]. by rewrite !list_lookup_insert_ne. Qed.

Lemma newest_lookup : hist σ !! pred (length (hist σ)) = Some m.
Proof. rewrite <-last_lookup. apply Hi. Qed.

Lemma append_mem : mem_ok N (hist σ').
Proof.
  destruct (wi_mem _ _ _ _ _ _ Hi) as [Hpl Hst]. constructor; cbn [append hist].
  - intros i mi [[_ Hmi]|[_ <-]]%lookup_snoc_Some; [by eapply Hpl|by eapply linv_plausible].
  - intros i mi mi' H1 [[Hlt H2]|[Hlen <-]]%lookup_snoc_Some Hr.
    + apply lookup_snoc_Some in H1 as [[_ H1]|[-> _]]; [by eapply Hst|lia].
    + apply lookup_snoc_Some in H1 as [[_ H1]|[-> _]]; [|lia].
      assert (mi = m) as -> by (pose proof newest_lookup as Hn; rewrite <-Hlen in Hn; cbn in Hn; congruence).
      rewrite (wi_val _ _ _ _ _ _ Hi). cbn in Hr. destruct a as [| | |ord]; try done; [by inversion Ht..|].
      by destruct (transition_store _ _ _ _ _ _ _ _ _ Ht ord eq_refl) as (-> & -> & -> & _).
Qed.

(** A thread other than [t] under the new message. *)
Lemma append_pos_other t0 p0 v0 :
  t0 ≠ t → wpcs σ !! t0 = Some p0 → views σ !! t0 = Some v0 → pos_ok (hist σ') p0 v0.
Proof.
  intros Hne Hp0 Hv0. pose proof (wi_pos _ _ _ _ _ _ Hi _ _ _ Hp0 Hv0) as [Hs Hr Hg Hph].
  constructor; cbn [append hist].
  - rewrite length_app. cbn. lia.
  - intros Hh i mi Hlt [[_ Hmi]|[_ <-]]%lookup_snoc_Some; [by eapply Hr|]. cbn.
    destruct a as [| | |ord]; try done; [by inversion Ht..|].
    destruct (transition_store _ _ _ _ _ _ _ _ _ Ht ord eq_refl) as (_ & _ & _ & Hx).
    pose proof (holder_alone _ _ _ _ _ _ _ _ _ (wi_linv _ _ _ _ _ _ Hi) Hp Hp0 ltac:(done) Hx). congruence.
  - intros Hx i j mi mj Hsi Hij H1 H2.
    assert (holds_x p || holds_s p = false) as [Hpx _]%orb_false_iff
      by (by eapply holder_alone; [apply Hi|..]).
    assert (o = Writer) as HW by (eapply holder_x; [apply Hi|done..]).
    destruct (transition_writer _ _ _ _ _ _ _ _ _ Ht Hpx HW) as (HW' & Hw & Hrp & _).
    apply lookup_snoc_Some in H2 as [[Hlt H2]|[-> <-]].
    + apply lookup_snoc_Some in H1 as [[_ H1]|[-> _]]; [by eapply Hg|lia].
    + cbn. rewrite HW'. apply lookup_snoc_Some in H1 as [[Hlt H1]|[-> <-]].
      * destruct (Hg Hx i (pred (length (hist σ))) mi m) as (a1 & b1 & a2 & b2 & He1 & He2 & ? & ?);
          [lia|lia|done|apply newest_lookup|].
        rewrite (wi_val _ _ _ _ _ _ Hi), HW in He2. apply encode_inj in He2 as (_ & <- & <-); [|done..].
        exists a1, b1, wp', rp'. naive_solver.
      * exists wp', rp', wp', rp'. cbn. by rewrite HW'.
  - destruct p0; try done; cbn [read_phase] in *; destruct Hph as (mi & Hph); exists mi.
    all: rewrite lookup_app_l by lia; exact Hph.
Qed.

(** The writing thread itself. *)
Lemma append_pos_self x : pos_ok (hist σ') p' (mkView (length (hist σ)) x).
Proof.
  constructor; cbn [append hist seen].
  - rewrite length_app. cbn. lia.
  - intros _ i mi Hlt [[? _]|[? _]]%lookup_snoc_Some; lia.
  - intros Hx i j mi mj Hsi Hij [[? _]|[_ <-]]%lookup_snoc_Some; [lia|].
    intros [[? _]|[_ <-]]%lookup_snoc_Some; [lia|]. exists wp', rp', wp', rp'.
    assert (o' = Writer) as ->; [|done].
    eapply holder_x; [exact Hl| |done]. apply append_self.
  - inversion Ht; subst; cbn; try done; by repeat case_match.
Qed.

Lemma append_kept l bit waker :
  bit_kept (hist σ) (wpcs σ) (views σ) l bit waker → waker p = false →
  (bit_set (encode o wp rp) bit = true →
   bit_set (encode o' wp' rp') bit = true ∨ waker p' = true) →
  bit_kept (hist σ') (wpcs σ') (views σ') l bit waker.
Proof.
  intros Hk Hnp Hb i mi n Hle Hmi Hbi. cbn [append hist] in *. rewrite last_snoc. intros [= <-]. cbn [val].
  apply lookup_snoc_Some in Hmi as [[Hlt Hmi]|[_ <-]]; [|by left].
  destruct (Hk i mi m Hle Hmi Hbi (wi_last _ _ _ _ _ _ Hi)) as [Hm|(t0 & p0 & v0 & Hp0 & Hv0 & Hw & Hs)].
  - rewrite (wi_val _ _ _ _ _ _ Hi) in Hm. destruct (Hb Hm) as [?|?]; [by left|right].
    exists t, p', (mkView (length (hist σ)) (ids v ∪ learned a m)). destruct append_self. by split_and!.
  - right. exists t0, p0, v0. destruct (append_other t0) as [-> ->]; [intros ->; congruence|]. by split_and!.
Qed.

Lemma append_free : free_ok o' wp' (hist σ') (wpcs σ') (views σ').
Proof.
  intros Ho Hw. destruct append_self as [Hp' Hv'].
  destruct (transition_free _ _ _ _ _ _ _ _ _ Ht Ho Hw) as [Hu|[Hr He]].
  - right. exists t. eexists. rewrite Hp', Hu. split_and!; [done..|]. cbn [append hist seen].
    rewrite length_app. cbn. lia.
  - left. cbn [append wpcs]. rewrite (cnt_insert _ _ _ _ _ Hp), He.
    pose proof (li_readers_bit _ _ _ _ _ (wi_linv _ _ _ _ _ _ Hi) Hr). lia.
Qed.

(** The leaving thread publishes what it did and knows. *)
Lemma append_published k :
  k ∈ ids v → holds_x p || holds_s p = true → k ∈ published a m v.
Proof.
  intros Hk Hh. destruct (transition_releases _ _ _ _ _ _ _ _ _ Ht Hh) as [-> | [-> _]]; cbn; set_solver.
Qed.

(** A write keeps what the newest message publishes. *)
Lemma append_keeps_published k : (k < length (log σ))%nat → k ∈ released m → k ∈ published a m v.
Proof.
  intros Hlt Hk.
  assert (is_rmw a = true ∨ ∃ ord, a = Store ord) as [Ha|[ord Ha]] by (inversion Ht; subst; cbn; eauto).
  { destruct a; try done. cbn. set_solver. }
  destruct (transition_store _ _ _ _ _ _ _ _ _ Ht ord Ha) as (_ & _ & _ & Hx).
  apply append_published; [|by rewrite Hx].
  destruct (wi_informed _ _ _ _ _ _ Hi _ _ _ Hp Hv) as [Hix _]. by apply Hix.
Qed.

Lemma append_log : accounted m' (wpcs σ') (views σ') (log σ').
Proof.
  intros k t0 d Hk. cbn [append log released] in *.
  destruct (wi_log _ _ _ _ _ _ Hi k t0 d Hk) as [Hr|(p0 & v0 & Hp0 & Hv0 & Hin & Hd)].
  { left. apply append_keeps_published; [by eapply lookup_lt_Some|done]. }
  destruct (decide (t0 = t)) as [->|Hne].
  - left. assert (p0 = p) as -> by congruence. assert (v0 = v) as -> by congruence.
    apply append_published; [done|]. destruct (holds_x p), (holds_s p); done.
  - right. exists p0, v0. by destruct (append_other t0 Hne) as [-> ->].
Qed.

Lemma append_informed t0 p0 v0 :
  wpcs σ' !! t0 = Some p0 → views σ' !! t0 = Some v0 → informed (log σ') p0 v0.
Proof.
  intros Hp0 Hv0. destruct (append_thread _ _ _ Hp0 Hv0) as [(-> & -> & ->)|(Hne & Hp1 & Hv1)];
    [|by eapply (wi_informed _ _ _ _ _ _ Hi)]. cbn [append log ids].
  destruct (wi_informed _ _ _ _ _ _ Hi _ _ _ Hp Hv) as [Hix His].
  destruct (decide (holds_x p || holds_s p = true)) as [Hh|Hh%not_true_is_false].
  - split.
    + intros Hx. pose proof (transition_takes_x _ _ _ _ _ _ _ _ _ Ht Hx). congruence.
    + intros Hs k t1 Hk. apply elem_of_union_l. destruct (holds_x p) eqn:Hpx.
      * apply Hix; [done|]. by eapply lookup_lt_Some.
      * by eapply His.
  - destruct (decide (holds_x p' || holds_s p' = true)) as [Hh'|[Hx Hs]%not_true_is_false%orb_false_iff].
    2:{ by split; rewrite ?Hx, ?Hs. }
    destruct (transition_takes _ _ _ _ _ _ _ _ _ Ht Hh' Hh) as (-> & HoW & Hfree). cbn [learned acquires].
    assert (Hold : ∀ k t1 d, log σ !! k = Some (t1, d) → holds_x p' = true ∨ d = DWrite → k ∈ ids v ∪ released m).
    { intros k t1 d Hk Hor. destruct (wi_log _ _ _ _ _ _ Hi k t1 d Hk) as [?|(p1 & v1 & Hp1 & Hv1 & _ & Hd)]; [set_solver|].
      exfalso. pose proof (li_owned _ _ _ _ _ (wi_linv _ _ _ _ _ _ Hi)) as Hown.
      pose proof (cnt_member holds_x _ _ _ Hp1) as Hcx. pose proof (cnt_member holds_s _ _ _ Hp1) as Hcs.
      destruct (holds_x p1); [destruct o; cbn in *; done || lia|]. cbn in Hd. destruct (holds_s p1); [|done].
      destruct Hor as [Hx| ->]; [|done]. rewrite (Hfree Hx) in Hown. cbn in Hown, Hcs. lia. }
    split; [|by intros Hs k t1 Hk; eapply Hold; [done|right]].
    intros Hx k [[t1 d] Hk]%lookup_lt_is_Some_2. eapply Hold; [done|by left].
Qed.

Lemma append_inv : winv N σ' m' o' wp' rp'.
Proof.
  destruct Hnw as [Hw Hs]. pose proof (linv_owner_ok _ _ _ _ _ (wi_linv _ _ _ _ _ _ Hi)) as Ho.
  pose proof (linv_owner_ok _ _ _ _ _ Hl) as Ho'.
  destruct (transition_bits _ _ _ _ _ _ _ _ _ Ht) as [Hbw Hbr].
  assert (Hlen : length (hist σ') = S (length (hist σ))) by (cbn [append hist]; rewrite length_app; cbn; lia).
  constructor.
  - apply last_snoc.
  - done.
  - exact Hl.
  - cbn [append wpcs views]. rewrite !length_insert. apply Hi.
  - apply append_mem.
  - intros t0 p0 v0 Hp0 Hv0. destruct (append_thread _ _ _ Hp0 Hv0) as [(-> & -> & ->)|(Hne & Hp1 & Hv1)].
    + apply append_pos_self.
    + by eapply append_pos_other.
  - rewrite Hlen. destruct (wi_lots _ _ _ _ _ _ Hi). cbn [append lot_x lot_s]. lia.
  - apply append_kept; [apply Hi|done|]. unfold bit_set.
    destruct (encode_bits o wp rp Ho) as (-> & _). destruct (encode_bits o' wp' rp' Ho') as (-> & _).
    destruct wp; [|done]. destruct (Hbw eq_refl) as [-> | ->]; auto.
  - apply append_kept; [apply Hi|done|]. unfold bit_set.
    destruct (encode_fields o wp rp Ho) as (_ & _ & _ & ->). destruct (encode_fields o' wp' rp' Ho') as (_ & _ & _ & ->).
    destruct rp; [|done]. destruct (Hbr eq_refl) as [-> | ?]; auto.
  - apply append_free.
  - apply append_log.
  - apply append_informed.
Qed.
End append.
End state_inv.
