(* ===== verification/LockWeakSteps.v ===== *)
(** * LockWeakSteps: every step of LockWeak keeps the invariant

    A step that writes reads the newest message, so it is a step of
    LockMachine on the newest value; a step that reads may read an old
    message; the unparking steps and the data accesses leave the messages
    alone. No step fails an assertion. *)

From Stdlib Require Import ZifyBool.
From stdpp Require Import base gmap sets list.
From S2P Require Import Prelude Machine Lock LockMachine LockInv LockWeak LockWeakInv LockWeakState.

Open Scope Z_scope.

Section steps.
Context `{!Target}.
Implicit Types (ch : choice) (N w : Z) (p : pc) (h : list message) (m : message) (v : tview) (σ : wstate)
  (o : owner) (wp rp : bool) (ps : list pc) (vs : list tview) (t i k : nat).

(** ** Writes go to the end of the modification order *)

(** The value before a plain store is not one that a thread outside of the
    lock replaces. *)
Lemma no_write_both N o wp rp ps t p ch :
  linv N o wp rp ps → ps !! t = Some p → holds_x p || holds_s p = false →
  writes (atomic_of ch (encode Writer true true) p) = false.
Proof.
  intros Hl Hp Hh. pose proof (li_locals _ _ _ _ _ Hl _ _ Hp) as Hls.
  destruct (li_threads _ _ _ _ _ Hl) as [_ Hmax]. pose proof max_readers_pos.
  assert (Hcas : ∀ o1 a b, owner_ok o1 → (o1, a, b) ≠ (Writer, true, true) →
    cas_weak ch (encode Writer true true) (encode o1 a b) = false).
  { intros o1 a b Ho1 Hne. destruct (cas_weak _ _ _) eqn:Hc; [|done].
    apply cas_weak_encode in Hc as (-> & -> & ->); done. }
  assert (Hcas0 : cas_weak ch (encode Writer true true) 0 = false) by (by apply (Hcas Free false false)).
  destruct p; try done; cbn [atomic_of locals_ok] in *.
  - by rewrite encode_zero.
  - by rewrite Hcas0.
  - by rewrite Hcas0.
  - destruct Hls as [_ (o1 & a & b & -> & Ho1 & _)]. rewrite free_encode by done.
    destruct (encode_bits o1 a b Ho1) as (-> & _). destruct (decide (o1 = Free)) as [->|Hne].
    + by rewrite Hcas.
    + destruct o1; [done|..]; (destruct a; cbn; [done|]); rewrite Hcas by done; by destruct ch.
  - destruct Hls as (o1 & a1 & b & o' & -> & Ho1 & Hadd). rewrite Hcas; [done..|]. by intros [= -> _ _].
  - destruct (usize_checked_add s ONE_READER) as [new|] eqn:Hadd; [|done].
    destruct (plausible_add _ _ _ Hmax Hls Hadd) as (-> & o1 & a & b & o' & -> & Ho1 & Ho' & _).
    rewrite Hcas; [done..|]. by intros [= -> _ _].
  - destruct (usize_checked_add s ONE_READER) as [new|] eqn:Hadd.
    + destruct (plausible_add _ _ _ Hmax Hls Hadd) as (_ & o1 & a & b & o' & -> & Ho1 & Ho' & _).
      rewrite Hcas; [done..|]. by intros [= -> _ _].
    + destruct (checked_add_writer _ _ Hmax Hls Hadd) as (a & b & ->).
      destruct (encode_fields Writer a b) as (_ & _ & _ & ->); [done|]. destruct b; cbn; [done|].
      rewrite Hcas by done. by destruct ch.
  - change WRITERS_PARKED with (encode Free true false).
    destruct (_ =? _) eqn:He; [|done]. by apply encode_eqb in He as (? & _).
Qed.

Section at_state.
Context N σ m o wp rp (Hi : winv N σ m o wp rp).
Context t p v (Hp : wpcs σ !! t = Some p) (Hv : views σ !! t = Some v).

Lemma slot_newest ch i mi :
  (seen v ≤ i)%nat → hist σ !! i = Some mi → writes (atomic_of ch (val mi) p) = true →
  slot_open (hist σ) i = true → S i = length (hist σ) ∧ mi = m.
Proof.
  intros Hs Hmi Hw Hopen. pose proof (lookup_lt_Some _ _ _ Hmi) as Hlt.
  assert (Hend : S i = length (hist σ)).
  { destruct (decide (S i = length (hist σ))) as [|Hne]; [done|exfalso].
    destruct (lookup_lt_is_Some_2 (hist σ) (S i)) as [m' Hm']; [lia|].
    unfold slot_open in Hopen. rewrite Hm' in Hopen. apply negb_true_iff in Hopen.
    destruct (holds_x p || holds_s p) eqn:Hh.
    - pose proof (po_rmw _ _ _ (wi_pos _ _ _ _ _ _ Hi _ _ _ Hp Hv) Hh (S i) m' ltac:(lia) Hm'). congruence.
    - rewrite (mo_store _ _ (wi_mem _ _ _ _ _ _ Hi) _ _ _ Hmi Hm' Hopen) in Hw.
      by rewrite (no_write_both _ _ _ _ _ _ _ _ (wi_linv _ _ _ _ _ _ Hi) Hp Hh) in Hw. }
  split; [done|]. pose proof (wi_last _ _ _ _ _ _ Hi) as Hl. rewrite last_lookup, <-Hend in Hl.
  cbn in Hl. congruence.
Qed.

(** What a step that does not write keeps. *)
Lemma silent_kinds ch w w' p' :
  tstep ch w p ⇓ (w', p') → writes (atomic_of ch w p) = false →
  holds_x p' = holds_x p ∧ holds_s p' = holds_s p ∧ (pending_s p = true → pending_s p' = true) ∧
  wakes_w p = false ∧ wakes_s p = false.
Proof.
  clear. intros Hs Hw. destruct p; cbn [tstep atomic_of] in *; unfold both_parked, rust_assert in *; try done;
    repeat (case_match; try done); cbn in *; simplify_eq; try done; try (by destruct a);
    repeat (case_match; try done); by simplify_eq.
Qed.

(** ** Reading *)

Lemma silent_pos p' v' :
  (seen v ≤ seen v' < length (hist σ))%nat → holds_x p' = holds_x p → holds_s p' = holds_s p →
  read_phase (hist σ) p' v' → pos_ok (hist σ) p' v'.
Proof.
  intros Hs Hx Hh Hph. destruct (wi_pos _ _ _ _ _ _ Hi _ _ _ Hp Hv) as [_ Hr Hg _].
  constructor; [lia| |rewrite Hx|done].
  - rewrite Hx, Hh. intros Hor i mi Hlt. apply (Hr Hor). lia.
  - intros Hpx i j mi mj Hle. apply (Hg Hpx). lia.
Qed.

(** A writer reads its own word, with the bits set since. *)
Lemma writer_reads i mi :
  holds_x p = true → (seen v ≤ i)%nat → hist σ !! i = Some mi → ∃ a b, val mi = encode Writer a b.
Proof.
  intros Hx Hs Hmi. destruct (po_grow _ _ _ (wi_pos _ _ _ _ _ _ Hi _ _ _ Hp Hv) Hx i i mi mi)
    as (a & b & _ & _ & ? & _); [done..|]. by exists a, b.
Qed.

(** What it read before is still set. *)
Lemma writer_reads_on i ms mi a b :
  holds_x p = true → (seen v ≤ i)%nat → hist σ !! seen v = Some ms → val ms = encode Writer a b →
  hist σ !! i = Some mi → ∃ a' b', val mi = encode Writer a' b' ∧ (a → a') ∧ (b → b').
Proof.
  intros Hx Hs Hms He Hmi. destruct (po_grow _ _ _ (wi_pos _ _ _ _ _ _ Hi _ _ _ Hp Hv) Hx (seen v) i ms mi)
    as (a0 & b0 & a' & b' & He' & ? & ? & ?); [done..|].
  rewrite He in He'. apply encode_inj in He' as (_ & <- & <-); [|done..]. by exists a', b'.
Qed.

Lemma load_phase ch i mi w' p' x :
  (seen v ≤ i)%nat → hist σ !! i = Some mi → tstep ch (val mi) p ⇓ (w', p') →
  atomic_of ch (val mi) p = Load → read_phase (hist σ) p' (mkView i x).
Proof.
  intros Hs Hmi Ht Ha. pose proof (po_phase _ _ _ (wi_pos _ _ _ _ _ _ Hi _ _ _ Hp Hv)) as Hph.
  pose proof (writer_reads i mi) as Hr. pose proof (writer_reads_on i) as Hon.
  destruct p; cbn [tstep atomic_of] in *; unfold both_parked in *; try done;
    try (repeat (case_match; try done); cbn in *; simplify_eq; try done; by (destruct a || case_match)).
  - destruct (Hr eq_refl Hs Hmi) as (a & b & He). rewrite He, ONE_WRITER_encode in *.
    destruct (_ =? _) eqn:Hc; [done|]. injection Ht as <- <-. exists mi, a, b. cbn. split_and!; [done..|].
    destruct a, b; try done. by rewrite Z.eqb_refl in Hc.
  - apply assert_Ret in Ht as [_ Ht]. apply assert_Ret in Ht as [_ Ht]. injection Ht as <- <-.
    destruct Hph as (ms & a & b & Hms & He & Hab).
    destruct (Hon ms mi a b eq_refl Hs Hms He Hmi) as (a' & b' & ? & ? & ?).
    exists mi, a', b'. cbn. split_and!; [done..|]. destruct a, b, a', b'; naive_solver.
  - destruct Hph as (ms & a & b & Hms & He & Heq & Hab). rewrite Heq in He.
    destruct (Hon ms mi a b eq_refl Hs Hms He Hmi) as (a' & b' & He' & ? & ?).
    destruct (negb _) in Ha, Ht; [|done]. rewrite He', Heq in *. destruct (_ =? encode _ a b) eqn:Hc; [done|].
    apply assert_Ret in Ht as [_ Ht]. injection Ht as <- <-. exists mi. split; [done|].
    destruct a, b, a', b'; try done; try (by rewrite Z.eqb_refl in Hc); naive_solver.
  - unfold rust_assert in Ht. repeat (case_match; try done); cbn in Ht; by simplify_eq.
Qed.

Lemma local_phase ch w w' p' :
  tstep ch w p ⇓ (w', p') → atomic_of ch w p = NoAtomic → read_phase (hist σ) p' v.
Proof.
  intros Ht Ha. pose proof (po_phase _ _ _ (wi_pos _ _ _ _ _ _ Hi _ _ _ Hp Hv)) as Hph.
  destruct p; cbn [tstep atomic_of] in *; try done;
    try (repeat (case_match; try done); cbn in *; by simplify_eq).
  destruct Hph as (ms & a & b & Hms & He & Heq & Hab). unfold both_parked in *.
  destruct (negb _) eqn:Hb in Ha, Ht; [by case_match|]. injection Ht as <- <-. exists ms. split; [done|].
  rewrite He, Heq in *. destruct (encode_fields Writer a b) as (_ & _ & Hf & _); [done|].
  rewrite Hf in Hb. by destruct a, b.
Qed.

(** No assertion fails, whatever message is read. *)
Lemma load_defined ch i mi :
  (seen v ≤ i)%nat → hist σ !! i = Some mi →
  tstep ch (val mi) p = Blocked ∨ ∃ w' p', tstep ch (val mi) p ⇓ (w', p').
Proof.
  intros Hs Hmi. pose proof (po_phase _ _ _ (wi_pos _ _ _ _ _ _ Hi _ _ _ Hp Hv)) as Hph.
  pose proof (li_locals _ _ _ _ _ (wi_linv _ _ _ _ _ _ Hi) _ _ Hp) as Hls.
  destruct (li_threads _ _ _ _ _ (wi_linv _ _ _ _ _ _ Hi)) as [_ Hmax]. pose proof (writer_reads_on i) as Hon.
  destruct p; cbn [tstep]; try (repeat case_match; first [by left | right; by do 2 eexists]); right.
  - destruct Hph as (ms & a & b & Hms & He & Hab).
    destruct (Hon ms mi a b eq_refl Hs Hms He Hmi) as (a' & b' & -> & ? & ?).
    rewrite writer_held_encode by done. unfold bit_set.
    destruct (encode_fields Writer a' b') as (_ & _ & -> & _); [done|].
    destruct a, b, a', b'; try done; try (by cbn; do 2 eexists); naive_solver.
  - destruct Hph as (ms & a & b & Hms & He & Heq & Hab). rewrite Heq in He.
    destruct (Hon ms mi a b eq_refl Hs Hms He Hmi) as (a' & b' & -> & ? & ?). rewrite Heq, both_parked_encode.
    destruct (encode_fields Writer a b) as (_ & _ & -> & _); [done|].
    destruct (_ =? encode _ a b) eqn:Hc.
    + destruct a, b; try done; cbn; by do 2 eexists.
    + assert (a' = true ∧ b' = true) as [-> ->].
      { destruct a, b, a', b'; try done; try (by rewrite Z.eqb_refl in Hc); naive_solver. }
      rewrite Z.eqb_refl. destruct a, b; try done; cbn; by do 2 eexists.
  - destruct (usize_checked_add _ _) as [new|] eqn:Hadd.
    + destruct (plausible_add _ _ _ Hmax Hls Hadd) as [-> _]. cbn. case_match; by do 2 eexists.
    + repeat case_match; by do 2 eexists.
Qed.

(** The phase of the releasing writer, as LockInv has it: in terms of the
    newest word. *)
Lemma phase_of p' v' : pos_ok (hist σ) p' v' → phase_ok wp rp p'.
Proof.
  intros [Hs _ Hg Hph]. pose proof (newest_lookup _ _ _ _ _ _ Hi) as Hn.
  assert (Hon : ∀ ms a b, holds_x p' = true → hist σ !! seen v' = Some ms → val ms = encode Writer a b →
    (a → wp) ∧ (b → rp)).
  { intros ms a b Hx Hms He.
    destruct (Hg Hx (seen v') (pred (length (hist σ))) ms m) as (a1 & b1 & a2 & b2 & He1 & He2 & ? & ?); [lia|lia|done..|].
    rewrite He in He1. rewrite (wi_val _ _ _ _ _ _ Hi) in He2.
    apply encode_inj in He1 as (_ & <- & <-); [|done..].
    apply encode_inj in He2 as (_ & <- & <-); [done| |done]. eapply linv_owner_ok, Hi. }
  destruct p'; try done; cbn [read_phase phase_ok] in *.
  - destruct Hph as (ms & a & b & Hms & He & Hab). destruct (Hon ms a b eq_refl Hms He).
    destruct a, b, wp, rp; naive_solver.
  - destruct Hph as (ms & a & b & Hms & He & -> & Hab). exists a, b.
    destruct (Hon ms a b eq_refl Hms He). naive_solver.
  - destruct Hph as (ms & Hms & He). destruct (Hon ms true true eq_refl Hms He). destruct wp, rp; naive_solver.
Qed.

Lemma entry_bounds :
  (seen v ≤ seen (entry_view σ p v) < length (hist σ))%nat ∧ ids v ⊆ ids (entry_view σ p v).
Proof.
  pose proof (po_seen _ _ _ (wi_pos _ _ _ _ _ _ Hi _ _ _ Hp Hv)). destruct (wi_lots _ _ _ _ _ _ Hi).
  unfold entry_view. destruct (queue_of p) as [[]|]; cbn; (split; [lia|set_solver]).
Qed.

(** The last reader that cannot clear the writers' bit is not needed. *)
Lemma last_reader_covered ch i mi :
  p = UnlockSSlow → (seen v ≤ i)%nat → hist σ !! i = Some mi → atomic_of ch (val mi) p = Load →
  o = Free → wp = true →
  0 < cnt pending_s (wpcs σ) ∨
  ∃ t' v', t' ≠ t ∧ wpcs σ !! t' = Some UnlockSSlow ∧ views σ !! t' = Some v' ∧ S (seen v') = length (hist σ).
Proof.
  intros Hu Hs Hmi Ha HF Hw.
  destruct (wi_free _ _ _ _ _ _ Hi HF Hw) as [?|(t' & v' & Hp' & Hv' & Hend)]; [by left|].
  destruct (decide (t' = t)) as [->|Hne]; [|right; by exists t', v']. exfalso.
  assert (v' = v) as -> by congruence. pose proof (lookup_lt_Some _ _ _ Hmi).
  assert (i = pred (length (hist σ))) as -> by lia. rewrite (newest_lookup _ _ _ _ _ _ Hi) in Hmi.
  injection Hmi as <-. rewrite (wi_val _ _ _ _ _ _ Hi), HF, Hw, Hu in Ha. cbn in Ha.
  destruct rp; [|done].
  destruct (li_readers_bit _ _ _ _ _ (wi_linv _ _ _ _ _ _ Hi) eq_refl).
  pose proof (li_owned _ _ _ _ _ (wi_linv _ _ _ _ _ _ Hi)) as Hown. rewrite HF in Hown. cbn in Hown. lia.
Qed.

(** A parked reader or writer has been told of the wake-ups so far. *)
Lemma park_bit q bit waker i mi :
  bit_kept (hist σ) (wpcs σ) (views σ) (seen (lot σ q)) bit waker →
  queue_of p = Some q → (seen (entry_view σ p v) ≤ i)%nat → hist σ !! i = Some mi →
  bit_set (val mi) bit = true →
  bit_set (encode o wp rp) bit = true ∨ ∃ t' q', wpcs σ !! t' = Some q' ∧ waker q' = true.
Proof.
  intros Hk Hq Hle Hmi Hb. unfold entry_view in Hle. rewrite Hq in Hle. cbn in Hle.
  destruct (Hk i mi m) as [Hm|(t' & p0 & v0 & ? & _ & ? & _)]; [lia|done|done|apply Hi| |].
  - left. by rewrite <-(wi_val _ _ _ _ _ _ Hi).
  - right. by exists t', p0.
Qed.

Lemma parks ch w w' p' :
  tstep ch w p ⇓ (w', p') →
  (p' = ParkedX → queue_of p = Some QueueX ∧ bit_set w WRITERS_PARKED = true) ∧
  (p' = ParkedS → queue_of p = Some QueueS ∧ bit_set w READERS_PARKED = true).
Proof.
  clear. intros Ht. destruct p; cbn [tstep] in Ht; unfold rust_assert in Ht; repeat (case_match; try done);
    cbn in Ht; simplify_eq; try done; try (by destruct a); try (by repeat case_match; simplify_eq).
  all: by match goal with Hb : _ && _ = true |- _ => apply andb_true_iff in Hb as [_ Hb]; split end.
Qed.

Lemma load_linv ch i mi w' p' :
  (seen (entry_view σ p v) ≤ i)%nat → hist σ !! i = Some mi → tstep ch (val mi) p ⇓ (w', p') →
  atomic_of ch (val mi) p = Load → linv N o wp rp (<[t := p']> (wpcs σ)).
Proof.
  intros Hle Hmi Ht Ha. destruct entry_bounds as [Hs _]. pose proof (lookup_lt_Some _ _ _ Hmi).
  pose proof (wi_linv _ _ _ _ _ _ Hi) as Hl. pose proof (linv_owner_ok _ _ _ _ _ Hl) as Ho.
  destruct (silent_kinds _ _ _ _ Ht) as (Hx & Hsx & _ & Hww & _); [by rewrite Ha|].
  eapply (stale_keeps _ _ _ _ _ Hl _ _ _ _ _ _ Hp); [by eapply (wi_mem _ _ _ _ _ _ Hi)|done|done|..].
  - apply (phase_of _ (mkView i ∅)). apply silent_pos; [cbn; lia|done..|]. eapply load_phase; [|done..]. lia.
  - intros ->. destruct (parks _ _ _ _ Ht) as [HX _]. destruct (HX eq_refl) as [Hq Hb].
    destruct (park_bit QueueX _ _ _ _ (wi_kept_x _ _ _ _ _ _ Hi) Hq Hle Hmi Hb) as [Hm|(t' & q' & Hq' & Hw)].
    + left. unfold bit_set in Hm. destruct (encode_bits o wp rp Ho) as (Hwb & _). rewrite Hwb in Hm. by destruct wp.
    + right. apply cnt_pos. exists t', q'. destruct q'; try done.
      by rewrite list_lookup_insert_ne by (intros ->; rewrite Hp in Hq'; simplify_eq).
  - intros ->. destruct (parks _ _ _ _ Ht) as [_ HS]. destruct (HS eq_refl) as [Hq Hb].
    destruct (park_bit QueueS _ _ _ _ (wi_kept_s _ _ _ _ _ _ Hi) Hq Hle Hmi Hb) as [Hm|(t' & q' & Hq' & Hw)].
    + left. unfold bit_set in Hm. destruct (encode_fields o wp rp Ho) as (_ & _ & _ & Hrb). rewrite Hrb in Hm. by destruct rp.
    + right. apply cnt_pos. by exists t', q'.
  - intros Hu Hw Hz. pose proof (li_owned _ _ _ _ _ Hl) as Hown.
    pose proof (cnt_nonneg holds_x (wpcs σ)). pose proof (cnt_nonneg holds_s (wpcs σ)).
    pose proof (cnt_member last_reader _ _ _ Hp) as Hm. rewrite Hu in Hm. cbn in Hm.
    destruct (last_reader_covered ch i mi Hu) as [?|(t' & v' & Hne & Hp' & _)]; [lia|done|done|by destruct o; cbn in Hown; done || lia|done|lia|].
    pose proof (cnt_members last_reader _ _ _ _ _ Hp Hp' ltac:(done)) as Hm2. rewrite Hu in Hm2. cbn in Hm2.
    pose proof (cnt_nonneg pending_s (wpcs σ)). lia.
Qed.

Lemma silent_free p' v' :
  (pending_s p = true → pending_s p' = true) →
  (p = UnlockSSlow → o = Free → wp = true →
    0 < cnt pending_s (wpcs σ) ∨
    ∃ t' v', t' ≠ t ∧ wpcs σ !! t' = Some UnlockSSlow ∧ views σ !! t' = Some v' ∧ S (seen v') = length (hist σ)) →
  free_ok o wp (hist σ) (<[t := p']> (wpcs σ)) (<[t := v']> (views σ)).
Proof.
  intros Hpend Hcov HF Hw.
  assert (0 < cnt pending_s (wpcs σ) ∨
    ∃ t' v', t' ≠ t ∧ wpcs σ !! t' = Some UnlockSSlow ∧ views σ !! t' = Some v' ∧ S (seen v') = length (hist σ))
    as [Hc|(t1 & v1 & Hne & Hp1 & Hv1 & Hend)].
  { destruct (decide (p = UnlockSSlow)) as [Hu|Hu]; [by apply Hcov|].
    destruct (wi_free _ _ _ _ _ _ Hi HF Hw) as [?|(t1 & v1 & Hp1 & ?)]; [by left|].
    right. exists t1, v1. split; [|done]. congruence. }
  - left. rewrite (cnt_insert _ _ _ _ _ Hp). destruct (pending_s p); [rewrite Hpend by done; lia|].
    pose proof (b2z_range (pending_s p')). cbn. lia.
  - right. exists t1, v1. by rewrite !list_lookup_insert_ne.
Qed.

(** What taking and leaving a queue does to the state. *)
Lemma leave_queue_fields v' σ1 :
  hist (leave_queue p v' σ1) = hist σ1 ∧ wpcs (leave_queue p v' σ1) = wpcs σ1 ∧
  views (leave_queue p v' σ1) = views σ1 ∧ log (leave_queue p v' σ1) = log σ1.
Proof. clear. unfold leave_queue. by destruct (queue_of p) as [[]|]. Qed.

Lemma leave_queue_lots v' σ1 :
  lot_x σ1 = lot_x σ → lot_s σ1 = lot_s σ → (seen (entry_view σ p v) ≤ seen v' < length (hist σ))%nat →
  (seen (lot_x σ) ≤ seen (lot_x (leave_queue p v' σ1)) < length (hist σ))%nat ∧
  (seen (lot_s σ) ≤ seen (lot_s (leave_queue p v' σ1)) < length (hist σ))%nat.
Proof.
  intros Hx Hs Hb. destruct (wi_lots _ _ _ _ _ _ Hi). unfold leave_queue, entry_view in *.
  destruct (queue_of p) as [[]|]; cbn in *; rewrite ?Hx, ?Hs; lia.
Qed.

(** A step that does not write. *)
Lemma silent_inv p' v' :
  (seen (entry_view σ p v) ≤ seen v' < length (hist σ))%nat → ids v' = ids (entry_view σ p v) →
  linv N o wp rp (<[t := p']> (wpcs σ)) → pos_ok (hist σ) p' v' →
  holds_x p' = holds_x p → holds_s p' = holds_s p → wakes_w p = false → wakes_s p = false →
  free_ok o wp (hist σ) (<[t := p']> (wpcs σ)) (<[t := v']> (views σ)) →
  winv N (leave_queue p v' (set_thread t p' v' σ)) m o wp rp.
Proof.
  intros Hb Hids Hl Hpos Hx Hs Hww Hws Hfree. destruct entry_bounds as [He Hsub].
  destruct (leave_queue_fields v' (set_thread t p' v' σ)) as (Hh & Hps & Hvs & Hlg).
  assert (Hother : ∀ t0 p0, wpcs σ !! t0 = Some p0 → wakes_w p0 || wakes_s p0 = true →
    <[t := p']> (wpcs σ) !! t0 = Some p0).
  { intros t0 p0 Hp0 Hw0. rewrite list_lookup_insert_ne; [done|]. intros <-.
    rewrite Hp in Hp0. simplify_eq. by rewrite Hww, Hws in Hw0. }
  apply (frame_inv _ _ _ _ _ _ Hi); rewrite ?Hh, ?Hps, ?Hvs, ?Hlg; cbn [set_thread hist wpcs views log]; try done.
  - rewrite !length_insert. apply Hi.
  - by rewrite length_insert.
  - intros t0 p0 v0 p1 v1 Hp0 Hv0. rewrite !list_lookup_insert_Some.
    intros [(<- & <- & _)|[Hne Hp1]] [(Ht & <- & _)|[Hne' Hv1]]; try done.
    + assert (p0 = p) as -> by congruence. assert (v0 = v) as -> by congruence.
      split_and!; [lia|by rewrite Hids|done..].
    + assert (p1 = p0) as -> by congruence. assert (v1 = v0) as -> by congruence.
      split_and!; [done..|by eapply (wi_pos _ _ _ _ _ _ Hi)].
  - by apply leave_queue_lots.
  - intros t0 p0 v0 Hp0 _ Hw _. apply Hother; [done|]. by rewrite Hw.
  - intros t0 p0 v0 Hp0 _ Hw _. apply Hother; [done|]. by rewrite Hw, orb_true_r.
Qed.

(** ** The steps of the threads *)

Definition winv_some σ : Prop := ∃ m o wp rp, winv N σ m o wp rp.

Lemma weak_eta : mkWeak (hist σ) (wpcs σ) (views σ) (lot_x σ) (lot_s σ) (log σ) = σ.
Proof. clear. by destruct σ. Qed.

Lemma write_after_end i m' h : S i = length h → write_after i m' h = h ++ [m'].
Proof. intros Hend. unfold write_after. by rewrite take_ge, drop_ge by lia. Qed.

(** Positions do not move when the new message is the last. *)
Lemma shift_end k h :
  k = length (hist σ) →
  shift_all (Some k) (mkWeak h (wpcs σ) (views σ) (lot_x σ) (lot_s σ) (log σ)) =
    mkWeak h (wpcs σ) (views σ) (lot_x σ) (lot_s σ) (log σ).
Proof.
  intros ->. destruct (wi_lots _ _ _ _ _ _ Hi) as [Hx Hs].
  assert (Hsh : ∀ v, (seen v < length (hist σ))%nat → shift (length (hist σ)) v = v).
  { intros [s x] Hlt. unfold shift. cbn in *. by destruct (Nat.leb_spec (length (hist σ)) s); [lia|]. }
  cbn. rewrite !Hsh by done. f_equal. apply list_eq. intros j. rewrite list_lookup_fmap.
  destruct (views σ !! j) as [vj|] eqn:Hj; [|done]. cbn. f_equal. apply Hsh.
  destruct (lookup_lt_is_Some_2 (wpcs σ) j) as [pj Hpj].
  { rewrite <-(wi_len _ _ _ _ _ _ Hi). by eapply lookup_lt_Some. }
  apply (wi_pos _ _ _ _ _ _ Hi _ _ _ Hpj Hj).
Qed.

Lemma local_inv ch w w' p' :
  tstep ch w p ⇓ (w', p') → atomic_of ch w p = NoAtomic →
  winv_some (leave_queue p (entry_view σ p v) (set_thread t p' (entry_view σ p v) σ)).
Proof.
  intros Ht Ha. exists m, o, wp, rp. destruct entry_bounds as [He _].
  destruct (silent_kinds _ _ _ _ Ht) as (Hx & Hs & Hpend & Hww & Hws); [by rewrite Ha|].
  assert (Hq : entry_view σ p v = v).
  { unfold entry_view. destruct p; try done. }
  apply silent_inv; try done.
  - lia.
  - eapply keeps_same; [apply Hi|]. eapply tstep_keeps; [apply Hi|exact Hp|]. by eapply local_step.
  - rewrite Hq in *. apply silent_pos; [lia|done..|by eapply local_phase].
  - apply silent_free; [done|]. intros ->. by cbn in Ha; case_match.
Qed.

Lemma load_inv ch i mi w' p' :
  (seen (entry_view σ p v) ≤ i)%nat → hist σ !! i = Some mi → tstep ch (val mi) p ⇓ (w', p') →
  atomic_of ch (val mi) p = Load →
  let v' := mkView i (ids (entry_view σ p v)) in
  winv_some (leave_queue p v' (set_thread t p' v' σ)).
Proof.
  intros Hle Hmi Ht Ha v'. exists m, o, wp, rp. destruct entry_bounds as [He _].
  pose proof (lookup_lt_Some _ _ _ Hmi).
  destruct (silent_kinds _ _ _ _ Ht) as (Hx & Hs & Hpend & Hww & Hws); [by rewrite Ha|].
  apply silent_inv; try done.
  - by eapply load_linv.
  - apply silent_pos; [cbn; lia|done..|]. eapply load_phase; [|done..]. lia.
  - apply silent_free; [done|]. intros Hu. eapply last_reader_covered; [done| |done..]. lia.
Qed.

(** A writing step is a step of LockMachine. *)
Lemma writing_step_newest ch i mi w' p' :
  (seen v ≤ i)%nat → hist σ !! i = Some mi → tstep ch (val mi) p ⇓ (w', p') →
  writes (atomic_of ch (val mi) p) = true → slot_open (hist σ) i = true →
  S i = length (hist σ) ∧ mi = m ∧
  winv_some (append t (atomic_of ch (val mi) p) m w' p' v σ).
Proof.
  intros Hle Hmi Ht Hw Hopen. destruct (slot_newest ch i mi Hle Hmi Hw Hopen) as [Hend ->].
  split_and!; [done..|]. rewrite (wi_val _ _ _ _ _ _ Hi) in *.
  destruct (writing_step _ _ _ _ _ (wi_linv _ _ _ _ _ _ Hi) _ _ _ _ _ Hp Ht Hw) as (o' & wp' & rp' & -> & Hl & Htr).
  do 4 eexists. eapply append_inv; [exact Hi|done..|]. by destruct p.
Qed.

(** Unparking: the waker goes on, parked threads return from [park]. *)
Definition woken p0 p1 : Prop :=
  p1 = p0 ∨ p0 = ParkedS ∧ p1 = LockSLoad ∨ p0 = ParkedX ∧ p1 = LockXLoad WRITERS_PARKED.

Definition after_wake p : pc := match p with DowngradeWake => HoldS | _ => Idle end.

Definition wake_result (ps1 : list pc) : Prop :=
  linv N o wp rp ps1 ∧ length ps1 = length (wpcs σ) ∧ ps1 !! t = Some (after_wake p) ∧
  ∀ t0 p0 p1, t0 ≠ t → wpcs σ !! t0 = Some p0 → ps1 !! t0 = Some p1 → woken p0 p1.

Lemma wake_readers : wakes_s p = true → wake_result (<[t := after_wake p]> (unpark <$> wpcs σ)).
Proof.
  intros Hw. pose proof (lookup_lt_Some _ _ _ Hp) as Hlt. split_and!.
  - eapply WakeS_keeps; [apply Hi|done|]. destruct p; try done; by (left + right).
  - by rewrite length_insert, length_fmap.
  - by rewrite list_lookup_insert_eq by (by rewrite length_fmap).
  - intros t0 p0 p1 Hne Hp0. rewrite list_lookup_insert_ne, list_lookup_fmap, Hp0 by done. intros [= <-].
    unfold woken. destruct p0; cbn; auto.
Qed.

Lemma wake_writer t' :
  p = WakeX → wpcs σ !! t' = Some ParkedX →
  wake_result (<[t := Idle]> (<[t' := LockXLoad WRITERS_PARKED]> (wpcs σ))).
Proof.
  intros Hw Ht'. pose proof (lookup_lt_Some _ _ _ Hp) as Hlt. unfold wake_result. rewrite Hw. split_and!.
  - apply WakeX_keeps; [apply Hi|by rewrite <-Hw|done].
  - by rewrite !length_insert.
  - by rewrite list_lookup_insert_eq by (by rewrite length_insert).
  - intros t0 p0 p1 Hne Hp0. rewrite list_lookup_insert_ne by done. rewrite list_lookup_insert_Some.
    unfold woken. intros [(-> & <- & _)|[_ ?]]; [right; right; split; congruence|left; congruence].
Qed.

Lemma wake_nobody : p = WakeX → ParkedX ∉ wpcs σ → wake_result (<[t := Idle]> (wpcs σ)).
Proof.
  intros Hw Hno. pose proof (lookup_lt_Some _ _ _ Hp) as Hlt. unfold wake_result. rewrite Hw. split_and!.
  - apply WakeX_none; [apply Hi|by rewrite <-Hw|done].
  - by rewrite length_insert.
  - by rewrite list_lookup_insert_eq.
  - intros t0 p0 p1 Hne Hp0. rewrite list_lookup_insert_ne by done. intros. left. congruence.
Qed.

Lemma wake_step ch (σ1 : lstate) :
  wakes_w p || wakes_s p = true → step t ch (mkState 0 (wpcs σ)) ⇓ σ1 → wake_result (pcs σ1).
Proof.
  intros Hw Hst. unfold step in Hst. cbn [pcs word] in Hst. rewrite Hp in Hst.
  pose proof wake_readers as Hr. pose proof wake_writer as Hwr. pose proof wake_nobody as Hno.
  destruct p; try done; try (injection Hst as <-; by apply Hr).
  destruct ch; case_bool_decide; try done; injection Hst as <-; cbn [pcs]; auto.
Qed.

Lemma wake_goes ps1 t0 p0 :
  wake_result ps1 → t0 ≠ t → wpcs σ !! t0 = Some p0 →
  (∃ p1, ps1 !! t0 = Some p1 ∧ woken p0 p1) ∧ (parked p0 = false → ps1 !! t0 = Some p0).
Proof.
  intros (_ & Hlen & _ & Hother) Hne Hp0.
  destruct (lookup_lt_is_Some_2 ps1 t0) as [p1 Hp1]; [rewrite Hlen; by eapply lookup_lt_Some|].
  pose proof (Hother t0 p0 p1 Hne Hp0 Hp1) as Hw. split; [by exists p1|].
  intros Hnp. by destruct Hw as [->|[[-> _]|[-> _]]].
Qed.

Lemma wake_free ps1 v' :
  wakes_w p || wakes_s p = true → wake_result ps1 → free_ok o wp (hist σ) ps1 (<[t := v']> (views σ)).
Proof.
  intros Hw Hres HF HW. destruct (wi_free _ _ _ _ _ _ Hi HF HW) as [Hc|(t1 & v1 & Hp1 & Hv1 & Hend)].
  - left. apply cnt_pos in Hc as (t1 & p1 & Hp1 & Hpend). apply cnt_pos.
    destruct (decide (t1 = t)) as [->|Hne]; [assert (p1 = p) as -> by congruence; clear -Hw Hpend; by destruct p|].
    destruct (wake_goes ps1 t1 p1 Hres Hne Hp1) as [(p2 & Hp2 & Hwk) _]. exists t1, p2. split; [done|].
    by destruct Hwk as [->|[[-> ->]|[-> ->]]].
  - right. assert (t1 ≠ t) as Hne by (intros ->; assert (p = UnlockSSlow) as Hu by congruence; by rewrite Hu in Hw).
    exists t1, v1. rewrite list_lookup_insert_ne by done. split_and!; [by eapply wake_goes|done..].
Qed.

Lemma wake_inv ps1 :
  wakes_w p || wakes_s p = true → wake_result ps1 →
  winv_some (leave_queue p (entry_view σ p v)
    (mkWeak (hist σ) ps1 (<[t := entry_view σ p v]> (views σ)) (lot_x σ) (lot_s σ) (log σ))).
Proof.
  intros Hw Hres. pose proof Hres as (Hl & Hlen & Hself & Hother). exists m, o, wp, rp.
  destruct entry_bounds as [He Hsub]. set (v' := entry_view σ p v) in *.
  set (σ1 := mkWeak _ ps1 _ _ _ _). destruct (leave_queue_fields v' σ1) as (Hh & Hps & Hvs & Hlg).
  destruct (leave_queue_lots v' σ1) as [Hlx Hls]; [done..|fold v'; lia|].
  assert (Hlot : (wakes_w p = true → seen (lot_x (leave_queue p v' σ1)) = seen v') ∧
                 (wakes_s p = true → seen (lot_s (leave_queue p v' σ1)) = seen v')).
  { clear. unfold leave_queue. by destruct p. }
  assert (Hstays : ∀ t0 p0 v0, wpcs σ !! t0 = Some p0 → views σ !! t0 = Some v0 → parked p0 = false →
    (t0 = t → p0 = p → (seen v' < seen v)%nat) → ps1 !! t0 = Some p0).
  { intros t0 p0 v0 Hp0 Hv0 Hnp Ht0. destruct (decide (t0 = t)) as [->|Hne]; [|by eapply wake_goes].
    specialize (Ht0 eq_refl ltac:(congruence)). lia. }
  apply (frame_inv _ _ _ _ _ _ Hi); rewrite ?Hh, ?Hps, ?Hvs, ?Hlg; try done; subst σ1; cbn [hist wpcs views log] in *.
  - rewrite length_insert, Hlen. apply Hi.
  - intros t0 p0 v0 p1 v1 Hp0 Hv0 Hp1. rewrite list_lookup_insert_Some. intros [(<- & <- & _)|[Hne Hv1]].
    + assert (p0 = p) as -> by congruence. assert (v0 = v) as -> by congruence.
      assert (p1 = after_wake p) as -> by congruence.
      split_and!; [lia|done|by destruct p|by destruct p|]. apply silent_pos; [lia|by destruct p..].
    + assert (v1 = v0) as -> by congruence. pose proof (wi_pos _ _ _ _ _ _ Hi _ _ _ Hp0 Hv0) as Hpos.
      destruct (Hother t0 p0 p1) as [->|[[-> ->]|[-> ->]]]; [done..| | |]; (split_and!; [done..|]); [done|..];
        by constructor; [apply Hpos|..].
  - intros t0 p0 v0 Hp0 Hv0 Hw0 Hlt. eapply Hstays; [done..|by destruct p0|]. intros -> ->.
    destruct Hlot as [Hx _]. rewrite Hx in Hlt by done. congruence.
  - intros t0 p0 v0 Hp0 Hv0 Hw0 Hlt. eapply Hstays; [done..|by destruct p0|]. intros -> ->.
    destruct Hlot as [_ Hx]. rewrite Hx in Hlt by done. congruence.
  - by apply wake_free.
Qed.

(** ** Accesses to the data *)

Definition noted : tview := mkView (seen v) ({[length (log σ)]} ∪ ids v).

(** The thread's own view afterwards, and those of the others. *)
Lemma noted_views t0 v0 :
  <[t := noted]> (views σ) !! t0 = Some v0 →
  ∃ v1, views σ !! t0 = Some v1 ∧ seen v0 = seen v1 ∧ ids v1 ⊆ ids v0 ∧ (t0 = t → v0 = noted ∧ v1 = v).
Proof.
  rewrite list_lookup_insert_Some. intros [(<- & <- & _)|[Hne Hv0]].
  - exists v. split_and!; [done|done|cbn; set_solver|done].
  - exists v0. split_and!; [done..|]. congruence.
Qed.

Lemma noted_lookup t0 v0 :
  views σ !! t0 = Some v0 → ∃ v1, <[t := noted]> (views σ) !! t0 = Some v1 ∧ seen v1 = seen v0 ∧ ids v0 ⊆ ids v1.
Proof.
  intros Hv0. destruct (decide (t0 = t)) as [->|Hne].
  - exists noted. rewrite list_lookup_insert_eq by (by eapply lookup_lt_Some).
    assert (v0 = v) as -> by congruence. split_and!; [done|done|cbn; set_solver].
  - exists v0. by rewrite list_lookup_insert_ne.
Qed.

Lemma noted_kept l bit waker :
  bit_kept (hist σ) (wpcs σ) (views σ) l bit waker →
  bit_kept (hist σ) (wpcs σ) (<[t := noted]> (views σ)) l bit waker.
Proof.
  intros Hk i mi n H1 H2 H3 H4. destruct (Hk i mi n H1 H2 H3 H4) as [?|(t0 & p0 & v0 & ? & Hv0 & ? & ?)]; [by left|].
  right. destruct (noted_lookup _ _ Hv0) as (v1 & ? & Hs & _). exists t0, p0, v1. by rewrite Hs.
Qed.

Lemma pos_ok_seen h p0 v0 v1 : pos_ok h p0 v0 → seen v1 = seen v0 → pos_ok h p0 v1.
Proof. intros [] Hs. constructor; unfold read_phase; rewrite ?Hs; done. Qed.

Lemma permitted_holds d : permitted p d = true → holds_x p || (holds_s p && negb (bool_decide (d = DWrite))) = true.
Proof. clear. by destruct p, d. Qed.

Lemma data_informed d t0 p0 v0 :
  permitted p d = true → wpcs σ !! t0 = Some p0 → <[t := noted]> (views σ) !! t0 = Some v0 →
  informed (log σ ++ [(t, d)]) p0 v0.
Proof.
  intros Hd%permitted_holds Hp0 Hv0. destruct (noted_views _ _ Hv0) as (v1 & Hv1 & _ & Hsub & Hself).
  destruct (wi_informed _ _ _ _ _ _ Hi _ _ _ Hp0 Hv1) as [Hx Hs].
  assert (Hnew : holds_x p0 = true ∨ holds_s p0 = true ∧ d = DWrite → length (log σ) ∈ ids v0).
  { intros Hor. destruct (decide (t0 = t)) as [Ht|Hne]; [destruct (Hself Ht) as [-> _]; cbn; set_solver|].
    exfalso. destruct Hor as [Hx0|[Hs0 ->]].
    - pose proof (holder_alone _ _ _ _ _ _ _ _ _ (wi_linv _ _ _ _ _ _ Hi) Hp0 Hp Hne Hx0) as [Hpx Hps]%orb_false_iff.
      by rewrite Hpx, Hps in Hd.
    - rewrite andb_false_r, orb_false_r in Hd.
      pose proof (holder_alone _ _ _ _ _ _ _ _ _ (wi_linv _ _ _ _ _ _ Hi) Hp Hp0 ltac:(done) Hd) as [_ Hf]%orb_false_iff.
      congruence. }
  split.
  - intros Hx0 k Hk. rewrite length_app in Hk. cbn in Hk.
    destruct (decide (k = length (log σ))) as [->|Hne]; [by apply Hnew; left|]. apply Hsub, Hx; [done|lia].
  - intros Hs0 k t1 [[_ Hk]|[-> [= _ Hw]]]%lookup_snoc_Some; [by eapply Hsub, Hs|]. apply Hnew. by right.
Qed.

Lemma data_inv d :
  permitted p d = true →
  winv_some (mkWeak (hist σ) (wpcs σ) (<[t := noted]> (views σ)) (lot_x σ) (lot_s σ) (log σ ++ [(t, d)])).
Proof.
  intros Hd. exists m, o, wp, rp. pose proof Hi as [Hlast Hval Hlinv Hlen Hmem Hpos Hlots Hkx Hks Hfr Hlg Hinf]. constructor; cbn [hist wpcs views lot_x lot_s log]; try done.
  - by rewrite length_insert.
  - intros t0 p0 v0 Hp0 Hv0. destruct (noted_views _ _ Hv0) as (v1 & Hv1 & Hs & _). by eapply pos_ok_seen; [eapply Hpos|].
  - by apply noted_kept.
  - by apply noted_kept.
  - intros HF HW. destruct (Hfr HF HW) as [?|(t0 & v0 & ? & Hv0 & ?)]; [by left|right].
    destruct (noted_lookup _ _ Hv0) as (v1 & ? & Hs & _). exists t0, v1. by rewrite Hs.
  - intros k t0 d0 [[_ Hk]|[-> [= <- <-]]]%lookup_snoc_Some.
    + destruct (Hlg k t0 d0 Hk) as [?|(p0 & v0 & ? & Hv0 & ? & ?)]; [by left|right].
      destruct (noted_lookup _ _ Hv0) as (v1 & ? & _ & ?). exists p0, v1. split_and!; [done|done|set_solver|done].
    + right. exists p, noted. split_and!; [done| |cbn; set_solver|by apply permitted_holds].
      apply list_lookup_insert_eq. by eapply lookup_lt_Some.
  - intros t0 p0 v0. by apply data_informed.
Qed.
End at_state.

(** ** Steps *)

(** The two forms of a synchronising step. *)
Definition park_step t ch σ p v : outcome wstate :=
  σ1 ← step t ch (mkState 0 (wpcs σ));
  Ret (leave_queue p v (mkWeak (hist σ) (pcs σ1) (<[t := v]> (views σ)) (lot_x σ) (lot_s σ) (log σ))).

Definition word_step t ch i σ p v : outcome wstate :=
  '(h, k, v', p') ← wtstep ch i (hist σ) v p;
  Ret (leave_queue p v' (set_thread t p' v'
    (shift_all k (mkWeak h (wpcs σ) (views σ) (lot_x σ) (lot_s σ) (log σ))))).

Lemma wstep_sync t ch i σ p v :
  wpcs σ !! t = Some p → views σ !! t = Some v →
  wstep t (Sync ch i) σ =
    if wakes_w p || wakes_s p then park_step t ch σ p (entry_view σ p v)
    else word_step t ch i σ p (entry_view σ p v).
Proof. intros Hp Hv. unfold wstep. rewrite Hp, Hv. by destruct p. Qed.

(** The cases of a step on the word: nothing written, or one message after the
    newest one, which the step has read. *)
Lemma word_step_cases N m o wp rp t ch i σ p v σ' :
  winv N σ m o wp rp → wpcs σ !! t = Some p → views σ !! t = Some v →
  word_step t ch i σ p (entry_view σ p v) ⇓ σ' →
  ∃ mi w' p', hist σ !! i = Some mi ∧ (seen (entry_view σ p v) ≤ i)%nat ∧ tstep ch (val mi) p ⇓ (w', p') ∧
  let a := atomic_of ch (val mi) p in
  match a with
  | NoAtomic => σ' = leave_queue p (entry_view σ p v) (set_thread t p' (entry_view σ p v) σ)
  | Load => let v' := mkView i (ids (entry_view σ p v)) in σ' = leave_queue p v' (set_thread t p' v' σ)
  | _ => mi = m ∧ σ' = append t a m w' p' v σ
  end ∧ winv_some N σ'.
Proof.
  intros Hi Hp Hv ([[[h k] v'] p'] & H1 & [= <-])%bind_Ret.
  unfold wtstep in H1. destruct (hist σ !! i) as [mi|] eqn:Hmi; [|done].
  destruct (Nat.ltb_spec i (seen (entry_view σ p v))) as [|Hle]; [done|].
  apply bind_Ret in H1 as ([w' p1] & Ht & H1). exists mi, w', p1. split_and!; [done..|].
  assert (Hwr : writes (atomic_of ch (val mi) p) = true → slot_open (hist σ) i = true →
    entry_view σ p v = v ∧ queue_of p = None ∧ S i = length (hist σ) ∧ mi = m ∧
    winv_some N (append t (atomic_of ch (val mi) p) m w' p1 v σ)).
  { intros Hw Hopen. assert (Hq : queue_of p = None) by (by destruct p).
    assert (He : entry_view σ p v = v) by (unfold entry_view; by rewrite Hq). rewrite He in Hle.
    by destruct (writing_step_newest _ _ _ _ _ _ Hi _ _ _ Hp Hv ch i mi w' p1) as (Hend & Hm & Hinv). }
  destruct (atomic_of ch (val mi) p) as [| |ord|ord] eqn:Ha.
  - injection H1 as <- <- <- <-. cbn [shift_all]. rewrite weak_eta. split; [done|by eapply local_inv].
  - injection H1 as <- <- <- <-. cbn [shift_all]. rewrite weak_eta. split; [done|by eapply load_inv].
  - destruct (slot_open _ i); [|done]. destruct (Hwr eq_refl eq_refl) as (He & Hq & Hend & -> & Hinv).
    injection H1 as <- <- <- <-. unfold leave_queue.
    rewrite Hq, (shift_end _ _ _ _ _ _ Hi), write_after_end, He, Hend by done. by split_and!.
  - destruct (slot_open _ i); [|done]. destruct (Hwr eq_refl eq_refl) as (He & Hq & Hend & -> & Hinv).
    injection H1 as <- <- <- <-. unfold leave_queue.
    rewrite Hq, (shift_end _ _ _ _ _ _ Hi), write_after_end, He, Hend by done.
    unfold append in *. cbn [learned] in *. rewrite union_empty_r_L in *. by split_and!.
Qed.

Lemma wstep_inv N t c σ σ' : winv_some N σ → wstep t c σ ⇓ σ' → winv_some N σ'.
Proof.
  intros (m & o & wp & rp & Hi) Hst.
  destruct (wpcs σ !! t) as [p|] eqn:Hp; [|unfold wstep in Hst; by rewrite Hp in Hst].
  destruct (views σ !! t) as [v|] eqn:Hv; [|unfold wstep in Hst; by rewrite Hp, Hv in Hst].
  destruct c as [ch i|d].
  - rewrite (wstep_sync _ _ _ _ _ _ Hp Hv) in Hst. destruct (_ || _) eqn:Hw.
    + apply bind_Ret in Hst as (σ1 & H1 & [= <-]). eapply wake_inv; [done..|by eapply wake_step].
    + by destruct (word_step_cases _ _ _ _ _ _ _ _ _ _ _ _ Hi Hp Hv Hst) as (mi & w' & p' & _ & _ & _ & _ & ?).
  - unfold wstep in Hst. rewrite Hp, Hv in Hst. destruct (permitted p d) eqn:Hd; [|done].
    injection Hst as <-. by eapply data_inv.
Qed.

(** No step fails an assertion. *)
Lemma wstep_defined N t c σ : winv_some N σ → wstep t c σ = Blocked ∨ ∃ σ', wstep t c σ ⇓ σ'.
Proof.
  intros (m & o & wp & rp & Hi).
  destruct (wpcs σ !! t) as [p|] eqn:Hp; [|unfold wstep; rewrite Hp; by left].
  destruct (views σ !! t) as [v|] eqn:Hv; [|unfold wstep; rewrite Hp, Hv; by left].
  destruct c as [ch i|d]; [|unfold wstep; rewrite Hp, Hv; case_match; eauto].
  rewrite (wstep_sync _ _ _ _ _ _ Hp Hv). destruct (_ || _) eqn:Hw.
  - unfold park_step. assert (step t ch (mkState 0 (wpcs σ)) = Blocked ∨ ∃ l : lstate, step t ch (mkState 0 (wpcs σ)) ⇓ l)
      as [-> |[l ->]]; [|by left|right; by eexists].
    unfold step. cbn [pcs word]. rewrite Hp. destruct p; try done; eauto. destruct ch; case_bool_decide; eauto.
  - unfold word_step, wtstep. destruct (hist σ !! i) as [mi|] eqn:Hmi; [|by left].
    destruct (Nat.ltb_spec i (seen (entry_view σ p v))) as [|Hle]; [by left|].
    destruct (entry_bounds _ _ _ _ _ _ Hi _ _ _ Hp Hv) as [He _].
    destruct (load_defined _ _ _ _ _ _ Hi _ _ _ Hp Hv ch i mi) as [-> |(w' & p' & ->)]; [lia|done|by left|].
    cbn. destruct (atomic_of _ _ _); try case_match; cbn; eauto.
Qed.

(** ** LockMachine inside LockWeak *)

Lemma sequential_inv N σ m o wp rp : winv N σ m o wp rp → newest σ = encode o wp rp ∧ state_inv N (sequential σ).
Proof.
  intros Hi. assert (Hn : newest σ = encode o wp rp).
  { unfold newest. rewrite (wi_last _ _ _ _ _ _ Hi). apply Hi. }
  split; [done|]. exists o, wp, rp. split; [done|apply Hi].
Qed.

(** The word and the threads after a step. *)
Lemma sequential_after p v σ : sequential (leave_queue p v σ) = sequential σ.
Proof. unfold leave_queue. by destruct (queue_of p) as [[]|]. Qed.
(** A step of LockMachine, with the unparking apart. *)
Lemma step_forms t ch w ps p :
  ps !! t = Some p →
  step t ch (mkState w ps) =
    if wakes_w p || wakes_s p
    then l ← step t ch (mkState 0 ps); Ret (mkState w (pcs l))
    else '(w', p') ← tstep ch w p; Ret (mkState w' (<[t := p']> ps)).
Proof.
  intros Hp. unfold step. cbn [pcs word]. rewrite Hp.
  destruct p; cbn; try done. by destruct ch; case_bool_decide.
Qed.

(** Every step of LockMachine on the newest word is a step here: read the
    newest message. *)
Lemma sequential_step N σ t ch l :
  winv_some N σ → step t ch (sequential σ) ⇓ l →
  ∃ σ', wstep t (Sync ch (pred (length (hist σ)))) σ ⇓ σ' ∧ sequential σ' = l.
Proof.
  intros (m & o & wp & rp & Hi) Hst. pose proof (newest_lookup _ _ _ _ _ _ Hi) as Hn.
  assert (Hnew : newest σ = val m) by (unfold newest; by rewrite (wi_last _ _ _ _ _ _ Hi)).
  destruct (wpcs σ !! t) as [p|] eqn:Hp; [|unfold step in Hst; cbn [sequential pcs] in Hst; by rewrite Hp in Hst].
  destruct (lookup_lt_is_Some_2 (views σ) t) as [v Hv]; [rewrite (wi_len _ _ _ _ _ _ Hi); by eapply lookup_lt_Some|].
  destruct (entry_bounds _ _ _ _ _ _ Hi _ _ _ Hp Hv) as [He _].
  rewrite (wstep_sync _ _ _ _ _ _ Hp Hv). unfold sequential at 1 in Hst. rewrite (step_forms _ _ _ _ _ Hp) in Hst.
  destruct (_ || _).
  - apply bind_Ret in Hst as (l1 & Hl1 & [= <-]). unfold park_step. rewrite Hl1. cbn. eexists. split; [done|].
    rewrite sequential_after. done.
  - apply bind_Ret in Hst as ([w' p'] & Ht & [= <-]). rewrite Hnew in Ht. unfold word_step, wtstep. rewrite Hn.
    destruct (Nat.ltb_spec (pred (length (hist σ))) (seen (entry_view σ p v))); [lia|]. rewrite Ht. cbn.
    pose proof (silent_step _ _ _ _ _ Ht) as Hs.
    assert (Hopen : slot_open (hist σ) (pred (length (hist σ))) = true).
    { unfold slot_open. by rewrite lookup_ge_None_2 by lia. }
    rewrite Hopen. destruct (atomic_of ch (val m) p); cbn; eexists; (split; [done|]); rewrite sequential_after;
      unfold sequential, newest; cbn.
    1,2: rewrite (wi_last _ _ _ _ _ _ Hi); by rewrite Hs.
    1,2: rewrite write_after_end by lia; by rewrite last_snoc.
Qed.

(** A step that writes is a step of LockMachine on the newest word. *)
Lemma writes_sequential N σ t ch i σ' :
  winv_some N σ → wstep t (Sync ch i) σ ⇓ σ' → hist σ' ≠ hist σ →
  step t ch (sequential σ) ⇓ sequential σ' ∧ ∃ m', hist σ' = hist σ ++ [m'].
Proof.
  intros (m & o & wp & rp & Hi) Hst Hne.
  assert (Hnew : newest σ = val m) by (unfold newest; by rewrite (wi_last _ _ _ _ _ _ Hi)).
  destruct (wpcs σ !! t) as [p|] eqn:Hp; [|unfold wstep in Hst; by rewrite Hp in Hst].
  destruct (views σ !! t) as [v|] eqn:Hv; [|unfold wstep in Hst; by rewrite Hp, Hv in Hst].
  rewrite (wstep_sync _ _ _ _ _ _ Hp Hv) in Hst. unfold sequential at 1. rewrite (step_forms _ _ _ _ _ Hp).
  destruct (_ || _).
  - apply bind_Ret in Hst as (l1 & Hl1 & [= <-]). by destruct (leave_queue_fields p (entry_view σ p v)
      (mkWeak (hist σ) (pcs l1) (<[t := entry_view σ p v]> (views σ)) (lot_x σ) (lot_s σ) (log σ))) as [Hh _].
  - destruct (word_step_cases _ _ _ _ _ _ _ _ _ _ _ _ Hi Hp Hv Hst) as (mi & w' & p' & Hmi & _ & Ht & Hc & _).
    cbn zeta in Hc. destruct (atomic_of ch (val mi) p) eqn:Ha.
    + destruct (leave_queue_fields p (entry_view σ p v) (set_thread t p' (entry_view σ p v) σ)) as [Hh _]. destruct Hne. rewrite Hc. exact Hh.
    + destruct (leave_queue_fields p (mkView i (ids (entry_view σ p v)))
        (set_thread t p' (mkView i (ids (entry_view σ p v))) σ)) as [Hh _]. destruct Hne. rewrite Hc. exact Hh.
    + destruct Hc as [-> ->]. rewrite Hnew, Ht. split; [|by eexists]. unfold sequential, newest. cbn. by rewrite last_snoc.
    + destruct Hc as [-> ->]. rewrite Hnew, Ht. split; [|by eexists]. unfold sequential, newest. cbn. by rewrite last_snoc.
Qed.

Lemma wreachable_inv n σ :
  Z.of_nat n + 1 < max_readers → wreachable n σ → winv_some (Z.of_nat n) σ.
Proof.
  intros Hn Hr. induction Hr; [|by eapply wstep_inv].
  do 4 eexists. by apply winitial_inv.
Qed.
End steps.
