(* ===== verification/LockWeakTheorems.v ===== *)
(** * LockWeakTheorems: the lock under weak memory

    The properties of src/src/lock.rs that depend on its memory orderings:
    mutual exclusion and no failing assertion although loads may be stale, no
    lost wake-ups, freedom from data races of what the lock protects, the
    visibility of the relaxed frequency counters to a writer, and the relation
    to the sequentially consistent LockMachine. *)

From stdpp Require Import base gmap sets list.
From S2P Require Import Prelude Machine Lock LockMachine LockInv LockWeak LockWeakInv LockWeakState LockWeakSteps.

Open Scope Z_scope.

(** Two accesses of which one is a write are a race unless one happens before
    the other; increments of a counter are atomic. *)
Definition conflicting (d1 d2 : data) : bool :=
  match d1, d2 with DWrite, _ | _, DWrite => true | _, _ => false end.

Section theorems.
Context `{!Target}.
Implicit Types (σ : wstate) (p : pc) (t k : nat).

Lemma wrun_reachable n schedule σ σ' :
  wreachable n σ → wrun schedule σ ⇓ σ' → wreachable n σ'.
Proof.
  revert σ. induction schedule as [|[t c] rest IH]; intros σ Hr; cbn.
  - by intros [= <-].
  - intros (σ1 & H1 & H2)%bind_Ret. by eapply IH; [eapply wreach_step|].
Qed.

(** C6. Under weak memory, with the orderings of lock.rs and any number of
    threads below the reader limit: a thread that has the write lock is the
    only one that has the lock; the owner field of the newest value of [state]
    is the number of readers, or all ones under a writer; and no step fails an
    assertion of lock.rs, whichever of the allowed values its load reads. *)
Theorem weak_memory_safety n σ :
  Z.of_nat n + 1 < max_readers → wreachable n σ →
  (∀ t t' p p', wpcs σ !! t = Some p → wpcs σ !! t' = Some p' →
     holds_x p = true → holds_x p' || holds_s p' = true → t = t') ∧
  Z.land (newest σ) ONE_WRITER =
    (if 0 <? cnt holds_x (wpcs σ) then ONE_WRITER else ONE_READER * cnt holds_s (wpcs σ)) ∧
  ∀ t c, wstep t c σ = Blocked ∨ ∃ σ', wstep t c σ ⇓ σ'.
Proof.
  intros Hn Hr. pose proof (wreachable_inv n σ Hn Hr) as Hinv.
  pose proof Hinv as (m & o & wp & rp & Hi). destruct (sequential_inv _ _ _ _ _ _ Hi) as [Hnew Hsi]. split_and!.
  - intros t t' p p'. by apply (holders_exclude _ _ _ _ _ _ Hsi).
  - pose proof (wi_linv _ _ _ _ _ _ Hi) as Hl. rewrite Hnew.
    destruct (encode_fields o wp rp (linv_owner_ok _ _ _ _ _ Hl)) as (_ & -> & _).
    pose proof (li_owned _ _ _ _ _ Hl) as Ho. rewrite ONE_WRITER_max. unfold ONE_READER.
    destruct (Z.ltb_spec 0 (cnt holds_x (wpcs σ))); destruct o; cbn [owned readers_field] in *; lia.
  - intros t c. by eapply wstep_defined.
Qed.

(** A thread that knows of all later writes reads the newest one. *)
Lemma reads_newest to σ t v k k' t' d' :
  may_read to σ t k → views σ !! t = Some v → log σ !! k' = Some (t', d') → to d' = true →
  k' ∈ ids v → (k' ≤ k)%nat.
Proof.
  intros [_ Hread] Hv Hk' Hto Hin. destruct (Nat.le_gt_cases k' k) as [|Hlt]; [done|].
  by destruct (Hread v k' t' d').
Qed.

(** C7. Freedom from data races: when a thread is about to access the data
    behind the lock, every earlier access that conflicts with it (one of the
    two is a write) happens before it, through the release and acquire
    orderings of lock.rs; so a read can only return the newest write, as on a
    sequentially consistent memory. *)
Theorem data_race_freedom n σ t d σ' :
  Z.of_nat n + 1 < max_readers → wreachable n σ → wstep t (Data d) σ ⇓ σ' →
  (∀ k t0 d0, log σ !! k = Some (t0, d0) → conflicting d d0 = true →
     ∃ v, views σ !! t = Some v ∧ k ∈ ids v) ∧
  (∀ k k' t', may_read plain_write σ t k → log σ !! k' = Some (t', DWrite) → (k' ≤ k)%nat).
Proof.
  intros Hn Hr Hst. destruct (wreachable_inv n σ Hn Hr) as (m & o & wp & rp & Hi).
  unfold wstep in Hst. destruct (wpcs σ !! t) as [p|] eqn:Hp; [|done].
  destruct (views σ !! t) as [v|] eqn:Hv; [|done]. destruct (permitted p d) eqn:Hd; [|done].
  destruct (wi_informed _ _ _ _ _ _ Hi _ _ _ Hp Hv) as [Hx Hs].
  assert (Hknows : ∀ k t0 d0, log σ !! k = Some (t0, d0) → conflicting d d0 = true → k ∈ ids v).
  { intros k t0 d0 Hk Hc. pose proof (lookup_lt_Some _ _ _ Hk).
    destruct p; try done; [by apply Hx|]. destruct d, d0; try done; by eapply Hs. }
  split; [intros k t0 d0 Hk Hc; exists v; eauto|].
  intros k k' t' Hread Hk'. eapply reads_newest; [done..|]. eapply Hknows; [done|by destruct d].
Qed.

(** C29. The relaxed frequency counters: a thread that holds the write lock can
    only read the newest value of a counter, since all earlier increments (and
    writes) happen before it, as the comment on [bump_freq] claims. *)
Theorem bump_freq_visible n σ t p k :
  Z.of_nat n + 1 < max_readers → wreachable n σ → wpcs σ !! t = Some p → holds_x p = true →
  may_read counter_write σ t k →
  ∀ k' t' d', log σ !! k' = Some (t', d') → counter_write d' = true → (k' ≤ k)%nat.
Proof.
  intros Hn Hr Hp Hh Hread k' t' d' Hk' Hw. destruct (wreachable_inv n σ Hn Hr) as (m & o & wp & rp & Hi).
  destruct (lookup_lt_is_Some_2 (views σ) t) as [v Hv]; [rewrite (wi_len _ _ _ _ _ _ Hi); by eapply lookup_lt_Some|].
  destruct (wi_informed _ _ _ _ _ _ Hi _ _ _ Hp Hv) as [Hx _].
  eapply reads_newest; [done..|]. apply Hx; [done|by eapply lookup_lt_Some].
Qed.

(** C28. LockWeak and LockMachine: every step of the sequentially consistent
    machine is a step under weak memory (one that reads the newest message),
    and every step under weak memory that writes [state] is a step of the
    sequentially consistent machine and puts its message last in the
    modification order. *)
Theorem weak_and_sequential n σ t ch :
  Z.of_nat n + 1 < max_readers → wreachable n σ →
  (∀ l, step t ch (sequential σ) ⇓ l →
     ∃ σ', wstep t (Sync ch (pred (length (hist σ)))) σ ⇓ σ' ∧ sequential σ' = l) ∧
  (∀ i σ', wstep t (Sync ch i) σ ⇓ σ' → hist σ' ≠ hist σ →
     step t ch (sequential σ) ⇓ sequential σ' ∧ ∃ m, hist σ' = hist σ ++ [m]).
Proof.
  intros Hn Hr. pose proof (wreachable_inv n σ Hn Hr) as Hinv. split.
  - intros l. by eapply sequential_step.
  - intros i σ'. by eapply writes_sequential.
Qed.

(** C8. No wake-up is lost under weak memory: a parked reader has its parking
    bit set in the newest value under a writer, or a thread is about to unpark
    the readers; a parked writer has its bit set, or a thread is about to wake
    a writer or takes the lock with the bit; and while any thread is parked,
    one that is neither parked nor idle can take a step. *)
Theorem weak_no_lost_wakeup n σ t p :
  Z.of_nat n + 1 < max_readers → wreachable n σ → wpcs σ !! t = Some p → parked p = true →
  (p = ParkedS → (writer_held (newest σ) && bit_set (newest σ) READERS_PARKED = true) ∨
                 ∃ t' p', wpcs σ !! t' = Some p' ∧ wakes_s p' = true) ∧
  (p = ParkedX → bit_set (newest σ) WRITERS_PARKED = true ∨
                 ∃ t' p', wpcs σ !! t' = Some p' ∧ wakes_x p' = true) ∧
  ∃ t' p' c σ', wpcs σ !! t' = Some p' ∧ p' ≠ Idle ∧ parked p' = false ∧ wstep t' c σ ⇓ σ'.
Proof.
  intros Hn Hr Hp Hk. pose proof (wreachable_inv n σ Hn Hr) as Hinv.
  pose proof Hinv as (m & o & wp & rp & Hi). destruct (sequential_inv _ _ _ _ _ _ Hi) as [_ Hsi].
  destruct (parked_word _ _ _ _ Hsi Hp Hk) as (HS & HX & t' & p' & ch & l & Hp' & Hne & Hnp & Hst).
  split_and!; [done..|]. destruct (sequential_step _ _ _ _ _ Hinv Hst) as (σ' & Hw & _).
  by exists t', p', (Sync ch (pred (length (hist σ)))), σ'.
Qed.
End theorems.

(** Witnesses: thread 0 writes under the lock; thread 1 reads an old word,
    fails, and parks; or, thread 0 having released the lock, takes a read lock
    and reads the data. *)
Section instances.
#[local] Existing Instance debug64.

(** Thread 0 takes the write lock and writes. *)
Definition writer_enters : list (nat * wchoice) :=
  [(0%nat, Sync StartLockX 0); (0%nat, Sync Go 0); (0%nat, Data DWrite)].

(** Thread 1 reads the word from before that, fails to replace it, sets the
    readers' bit and parks. *)
Definition stale_reader_parks : list (nat * wchoice) :=
  [(1%nat, Sync StartLockS 0); (1%nat, Sync Go 0); (1%nat, Sync Go 1); (1%nat, Sync Go 1);
   (1%nat, Sync Go 1); (1%nat, Sync Go 1); (1%nat, Sync Go 2)].

(** Thread 0 releases, first failing to see nobody parked, and unparks
    thread 1, which takes the lock, reads the data and bumps a counter. *)
Definition reader_enters : list (nat * wchoice) :=
  [(0%nat, Sync StartUnlock 1); (0%nat, Sync Go 2); (0%nat, Sync Go 2); (0%nat, Sync Go 2);
   (0%nat, Sync Go 3); (1%nat, Sync Go 3); (1%nat, Sync Go 3); (1%nat, Data DBump)].

Definition weak_parked : wstate :=
  mkWeak [mkMsg 0 false ∅; mkMsg ONE_WRITER true ∅; mkMsg (ONE_WRITER + 1) true ∅]
    [HoldX; ParkedS] [mkView 1 {[0%nat]}; mkView 2 ∅] wzero (mkView 2 ∅) [(0%nat, DWrite)].

Lemma weak_parked_reachable : wreachable 2 weak_parked.
Proof.
  apply (wrun_reachable 2 (writer_enters ++ stale_reader_parks) (winitial 2)); [apply wreach_init|by vm_compute].
Qed.

Definition weak_shared : wstate :=
  mkWeak [mkMsg 0 false ∅; mkMsg ONE_WRITER true ∅; mkMsg (ONE_WRITER + 1) true ∅;
          mkMsg 0 true {[0%nat]}; mkMsg 4 true {[0%nat]}]
    [Idle; HoldS] [mkView 3 {[0%nat]}; mkView 4 {[0%nat; 1%nat]}] wzero (mkView 3 {[0%nat]})
    [(0%nat, DWrite); (1%nat, DBump)].

Lemma weak_shared_reachable : wreachable 2 weak_shared.
Proof.
  apply (wrun_reachable 2 reader_enters weak_parked); [apply weak_parked_reachable|by vm_compute].
Qed.

(** The reader leaves and thread 0 takes the write lock again. *)
Definition writer_returns : list (nat * wchoice) :=
  [(1%nat, Sync StartUnlock 4); (1%nat, Sync Go 4); (0%nat, Sync StartLockX 3); (0%nat, Sync Go 5)].

Definition weak_writer : wstate :=
  mkWeak (hist weak_shared ++ [mkMsg 0 true {[0%nat; 1%nat]}; mkMsg ONE_WRITER true {[0%nat; 1%nat]}])
    [HoldX; Idle] [mkView 6 {[0%nat; 1%nat]}; mkView 5 {[0%nat; 1%nat]}] wzero (mkView 3 {[0%nat]})
    (log weak_shared).

Lemma weak_writer_reachable : wreachable 2 weak_writer.
Proof.
  apply (wrun_reachable 2 writer_returns weak_shared); [apply weak_shared_reachable|by vm_compute].
Qed.

Lemma weak_memory_safety_witness :
  Z.of_nat 2 + 1 < max_readers ∧ wreachable 2 weak_parked ∧
  Z.land (newest weak_parked) ONE_WRITER = ONE_WRITER.
Proof.
  split; [by vm_compute|]. split; [apply weak_parked_reachable|].
  destruct (weak_memory_safety 2 weak_parked) as (_ & Hw & _);
    [by vm_compute|apply weak_parked_reachable|exact Hw].
Defined.

Lemma data_race_freedom_witness :
  wreachable 2 weak_shared ∧ (∃ v, views weak_shared !! 1%nat = Some v ∧ 0%nat ∈ ids v) ∧
  ∀ k' t', log weak_shared !! k' = Some (t', DWrite) → (k' ≤ 0)%nat.
Proof.
  split; [apply weak_shared_reachable|].
  destruct (data_race_freedom 2 weak_shared 1 DRead _ ltac:(by vm_compute) weak_shared_reachable eq_refl)
    as [Hrace Hread].
  split; [exact (Hrace 0%nat 0%nat DWrite eq_refl eq_refl)|].
  intros k' t' Hk'. apply (Hread 0%nat k' t'); [|exact Hk'].
  split; [by exists 0%nat, DWrite|]. intros v [|[|k]] t0 d _ Hk; [lia|by intros [= _ <-]|by intros [=]].
Defined.

Lemma bump_freq_visible_witness :
  wreachable 2 weak_writer ∧ log weak_writer !! 1%nat = Some (1%nat, DBump) ∧
  ∀ k' t' d', log weak_writer !! k' = Some (t', d') → counter_write d' = true → (k' ≤ 1)%nat.
Proof.
  split; [apply weak_writer_reachable|]. split; [reflexivity|].
  eapply (bump_freq_visible 2 weak_writer 0 HoldX 1);
    [by vm_compute|apply weak_writer_reachable|reflexivity..|].
  split; [by exists 1%nat, DBump|]. intros v [|[|k']] t' d' _ Hk; [lia|lia|by intros [=]].
Defined.

Lemma weak_and_sequential_witness :
  wreachable 2 weak_shared ∧
  ∃ σ', wstep 1 (Sync StartUnlock 4) weak_shared ⇓ σ' ∧
    sequential σ' = mkState (newest weak_shared) [Idle; UnlockS].
Proof.
  split; [apply weak_shared_reachable|].
  destruct (weak_and_sequential 2 weak_shared 1 StartUnlock) as [Hs _];
    [by vm_compute|apply weak_shared_reachable|].
  destruct (Hs (mkState (newest weak_shared) [Idle; UnlockS]) eq_refl) as (σ' & Hst & Hseq).
  exists σ'. split; [exact Hst|exact Hseq].
Defined.

Lemma weak_no_lost_wakeup_witness :
  wpcs weak_parked !! 1%nat = Some ParkedS ∧
  ∃ t' p' c σ', wpcs weak_parked !! t' = Some p' ∧ p' ≠ Idle ∧ parked p' = false ∧
    wstep t' c weak_parked ⇓ σ'.
Proof.
  split; [reflexivity|].
  destruct (weak_no_lost_wakeup 2 weak_parked 1 ParkedS) as (_ & _ & Hex);
    [by vm_compute|apply weak_parked_reachable|reflexivity..|exact Hex].
Defined.
End instances.
