(* ===== verification/RawTable.v ===== *)
(** * RawTable: the hashbrown table the shards are built on

    [hashbrown::raw::RawTable] is a third-party table, so it is a parameter
    of the development: the class [RawTable] lists the operations the sources
    call, and the class [RawTableSpec] states the behaviour they rely on,
    against a ghost view of the table as a finite map from bucket indices to
    (hash, item) pairs. It is the documented behaviour of the table, with one
    exception: [rt_remove_slots], that removing an item keeps pending insert
    slots valid, is what the comments of lib.rs and mapref/entry.rs and
    docs/internals.md rely on, while the documentation of [insert_in_slot] only
    covers slots after which the table was not mutated.

    A bucket handed out by the table is a pointer; reading, writing or
    removing through a bucket that holds no item is undefined behaviour, which
    the operations signal by [None].

    The second half relates a table to the finite map from keys to entries it
    stores ([repr]), and the last section gives an executable reference
    implementation of the interface, used to evaluate the model. *)

From stdpp Require Import base gmap list fin_maps.
From S2P Require Import Prelude Machine.

Open Scope Z_scope.

(** Buckets and insert slots are positions of the backing array. *)
Abbreviation bucket := nat (only parsing).
Abbreviation insert_slot := nat (only parsing).

Class RawTable (T : Type) := {
  table : Type;
  rt_with_capacity : Z → table;
  rt_find : table → Z → (T → bool) → option bucket;
  rt_find_or_find_insert_slot :
    table → Z → (T → bool) → (T → Z) → table * (bucket + insert_slot);
  rt_insert_in_slot : table → Z → insert_slot → T → option (table * bucket);
  rt_as_ref : table → bucket → option T;
  rt_write : table → bucket → T → option table;
  rt_remove : table → bucket → option (table * (T * insert_slot));
  rt_erase : table → bucket → option table;
  rt_iter : table → list bucket;
  rt_into_iter : table → list T;
  rt_len : table → Z;
  rt_capacity : table → Z;
  rt_try_reserve : table → Z → (T → Z) → option table;
  rt_shrink_to : table → Z → (T → Z) → table;
  rt_clone : table → (T → T) → table
}.

Arguments table T {_}.

(** The items of a view, in no particular order. *)
Definition view_items {T} (v : gmap bucket (Z * T)) : list (Z * T) := (map_to_list v).*2.

(** Rehashing is correct only for a hasher that recomputes the hashes the
    items were inserted with. *)
Definition hashed_by {T} (hasher : T → Z) (v : gmap bucket (Z * T)) : Prop :=
  ∀ h x, (h, x) ∈ view_items v → hasher x = h.

Class RawTableSpec (T : Type) {R : RawTable T} := {
  (** Ghost state: what the buckets hold, and which insert slots are valid
      for inserting an item of a given hash. *)
  rt_view : table T → gmap bucket (Z * T);
  rt_slot_valid : table T → Z → insert_slot → Prop;
  rt_with_capacity_view n : rt_view (rt_with_capacity n) = ∅;
  rt_find_some t h eq b :
    rt_find t h eq = Some b → ∃ h' x, rt_view t !! b = Some (h', x) ∧ eq x = true;
  rt_find_none t h eq :
    rt_find t h eq = None → ∀ b x, rt_view t !! b = Some (h, x) → eq x = false;
  (** [reserve(1)] may move the items; then the table is searched. *)
  rt_find_or_find_insert_slot_spec t h eq hasher t' r :
    hashed_by hasher (rt_view t) →
    rt_find_or_find_insert_slot t h eq hasher = (t', r) →
    view_items (rt_view t') ≡ₚ view_items (rt_view t) ∧
    match r with
    | inl b => ∃ h' x, rt_view t' !! b = Some (h', x) ∧ eq x = true
    | inr s => (∀ b x, rt_view t' !! b = Some (h, x) → eq x = false) ∧
               rt_slot_valid t' h s
    end;
  rt_insert_in_slot_spec t h s x :
    rt_slot_valid t h s →
    ∃ t' b, rt_insert_in_slot t h s x = Some (t', b) ∧
      rt_view t !! b = None ∧ rt_view t' = <[b := (h, x)]> (rt_view t);
  rt_as_ref_spec t b : rt_as_ref t b = snd <$> (rt_view t !! b);
  rt_write_spec t b h x x' :
    rt_view t !! b = Some (h, x) →
    ∃ t', rt_write t b x' = Some t' ∧ rt_view t' = <[b := (h, x')]> (rt_view t) ∧
      (∀ h0 s, rt_slot_valid t h0 s → rt_slot_valid t' h0 s);
  rt_remove_spec t b h x :
    rt_view t !! b = Some (h, x) →
    ∃ t' s', rt_remove t b = Some (t', (x, s')) ∧ rt_view t' = delete b (rt_view t);
  (** Removing never reallocates, so pending insert slots stay valid: what the
      sources assume between the search and the insertion of a new key. *)
  rt_remove_slots t b t' r h0 s :
    rt_remove t b = Some (t', r) → rt_slot_valid t h0 s → rt_slot_valid t' h0 s;
  rt_erase_spec t b h x :
    rt_view t !! b = Some (h, x) →
    ∃ t', rt_erase t b = Some t' ∧ rt_view t' = delete b (rt_view t);
  rt_iter_spec t :
    NoDup (rt_iter t) ∧ ∀ b, b ∈ rt_iter t ↔ is_Some (rt_view t !! b);
  rt_into_iter_spec t : rt_into_iter t ≡ₚ (view_items (rt_view t)).*2;
  rt_len_spec t : rt_len t = Z.of_nat (size (rt_view t));
  rt_capacity_spec t : rt_len t ≤ rt_capacity t;
  rt_try_reserve_spec t n hasher t' :
    hashed_by hasher (rt_view t) → rt_try_reserve t n hasher = Some t' →
    view_items (rt_view t') ≡ₚ view_items (rt_view t);
  rt_shrink_to_spec t n hasher :
    hashed_by hasher (rt_view t) →
    view_items (rt_view (rt_shrink_to t n hasher)) ≡ₚ view_items (rt_view t);
  (** Cloning clones the items. *)
  rt_clone_spec t clone :
    view_items (rt_view (rt_clone t clone)) ≡ₚ prod_map id clone <$> view_items (rt_view t)
}.

(** ** Hashers *)

(** [BuildHasher::hash_one] of the map's hasher: a [u64] per key. *)
Class BuildHasher (K : Type) := {
  hash_one : K → Z;
  hash_one_u64 : ∀ k, 0 ≤ hash_one k < 2 ^ 64
}.

(** ** Tables of key-entry pairs *)

Section repr.
Context {K E : Type} `{Countable K} `{!BuildHasher K}.
Context `{!RawTable (K * E)} `{!RawTableSpec (K * E)}.
Implicit Types (t : table (K * E)) (m : gmap K E) (k : K) (e : E) (b : bucket).

(** The closure [|(mk, _)| mk == &k]. *)
Definition key_eq k : K * E → bool := λ x, bool_decide (x.1 = k).

(** The closure [|(k, _)| hasher.hash_one(k)]. *)
Definition key_hash : K * E → Z := λ x, hash_one x.1.

Definition hashed_item (x : K * E) : Z * (K * E) := (hash_one x.1, x).

(** [repr t m]: the table stores exactly the pairs of [m], each under the
    hash of its key. *)
Definition repr t m : Prop :=
  view_items (rt_view t) ≡ₚ hashed_item <$> map_to_list m.

Lemma view_items_lookup (v : gmap bucket (Z * (K * E))) x :
  x ∈ view_items v ↔ ∃ b, v !! b = Some x.
Proof.
  unfold view_items. rewrite list_elem_of_fmap. split.
  - intros ([b y] & -> & Hy%elem_of_map_to_list). eauto.
  - intros [b Hb]. exists (b, x). by rewrite elem_of_map_to_list.
Qed.

Lemma repr_elem t m h k e :
  repr t m → (∃ b, rt_view t !! b = Some (h, (k, e))) ↔ h = hash_one k ∧ m !! k = Some e.
Proof.
  intros Hr. rewrite <-view_items_lookup, Hr, list_elem_of_fmap. split.
  - intros ([k' e'] & [= -> -> ->] & Hm%elem_of_map_to_list). done.
  - intros [-> Hm]. exists (k, e). by rewrite elem_of_map_to_list.
Qed.

Lemma repr_hashed t m : repr t m → hashed_by key_hash (rt_view t).
Proof.
  intros Hr h [k e] Hin%view_items_lookup.
  by apply (repr_elem _ _ _ _ _ Hr) in Hin as [-> _].
Qed.

(** A key is stored in one bucket only. *)
Lemma repr_bucket_inj t m b1 b2 h1 h2 k e1 e2 :
  repr t m → rt_view t !! b1 = Some (h1, (k, e1)) →
  rt_view t !! b2 = Some (h2, (k, e2)) → b1 = b2.
Proof.
  intros Hr H1 H2.
  assert (Hnd : NoDup ((λ x : Z * (K * E), x.2.1) <$> view_items (rt_view t))).
  { rewrite Hr, <-list_fmap_compose. apply NoDup_fst_map_to_list. }
  apply elem_of_map_to_list, list_elem_of_lookup in H1 as [i Hi].
  apply elem_of_map_to_list, list_elem_of_lookup in H2 as [j Hj].
  assert (i = j) as ->; [|congruence].
  eapply (NoDup_lookup _ i j k); [exact Hnd| |];
    unfold view_items; rewrite !list_lookup_fmap, ?Hi, ?Hj; done.
Qed.

(** Searching by key. *)
Lemma repr_find_Some t m k e :
  repr t m → m !! k = Some e →
  ∃ b, rt_find t (hash_one k) (key_eq k) = Some b ∧
       rt_view t !! b = Some (hash_one k, (k, e)).
Proof.
  intros Hr Hm.
  destruct (proj2 (repr_elem t m (hash_one k) k e Hr)) as [b0 Hb0]; [done|].
  destruct (rt_find t (hash_one k) (key_eq k)) as [b|] eqn:Hf.
  - exists b. split; [done|]. apply rt_find_some in Hf as (h' & [k' e'] & Hb & Heq).
    apply bool_decide_eq_true_1 in Heq. cbn in Heq. subst k'.
    by rewrite <-(repr_bucket_inj _ _ _ _ _ _ _ _ _ Hr Hb0 Hb).
  - eapply rt_find_none in Hf; [|exact Hb0].
    apply bool_decide_eq_false_1 in Hf. done.
Qed.

Lemma repr_find_None t m k h :
  repr t m → m !! k = None → rt_find t h (key_eq k) = None.
Proof.
  intros Hr Hm. destruct (rt_find t h (key_eq k)) as [b|] eqn:Hf; [|done].
  apply rt_find_some in Hf as (h' & [k' e'] & Hb & Heq).
  apply bool_decide_eq_true_1 in Heq. cbn in Heq. subst k'.
  assert (h' = hash_one k ∧ m !! k = Some e') as [_ ?]; [|congruence].
  apply (repr_elem t m); eauto.
Qed.

Lemma repr_lookup t m b h k e :
  repr t m → rt_view t !! b = Some (h, (k, e)) → h = hash_one k ∧ m !! k = Some e.
Proof. intros Hr Hb. apply (repr_elem t m); eauto. Qed.

Lemma repr_as_ref t b h x : rt_view t !! b = Some (h, x) → rt_as_ref t b = Some x.
Proof. intros Hb. by rewrite rt_as_ref_spec, Hb. Qed.

Lemma repr_delete t t' m b h k e :
  repr t m → rt_view t !! b = Some (h, (k, e)) →
  rt_view t' = delete b (rt_view t) → repr t' (delete k m).
Proof.
  intros Hr Hb Ht'. destruct (repr_lookup _ _ _ _ _ _ Hr Hb) as [-> Hm].
  unfold repr, view_items in *. rewrite Ht'.
  rewrite <-(map_to_list_delete _ _ _ Hb), <-(map_to_list_delete _ _ _ Hm) in Hr.
  by eapply Permutation_cons_inv.
Qed.

Lemma repr_insert t t' m b k e :
  repr t m → m !! k = None → rt_view t !! b = None →
  rt_view t' = <[b := (hash_one k, (k, e))]> (rt_view t) → repr t' (<[k := e]> m).
Proof.
  intros Hr Hm Hb Ht'. unfold repr, view_items in *. rewrite Ht'.
  rewrite (map_to_list_insert _ _ _ Hb), (map_to_list_insert _ _ _ Hm).
  cbn. by rewrite Hr.
Qed.

Lemma repr_write t t' m b h k e e' :
  repr t m → rt_view t !! b = Some (h, (k, e)) →
  rt_view t' = <[b := (h, (k, e'))]> (rt_view t) → repr t' (<[k := e']> m).
Proof.
  intros Hr Hb Ht'. destruct (repr_lookup _ _ _ _ _ _ Hr Hb) as [-> Hm].
  unfold repr, view_items in *.
  rewrite Ht', <-(insert_delete_eq (rt_view t)), <-(insert_delete_eq m).
  rewrite <-(map_to_list_delete _ _ _ Hb), <-(map_to_list_delete _ _ _ Hm) in Hr.
  rewrite !map_to_list_insert by apply lookup_delete_eq.
  cbn in *. apply Permutation_cons_inv in Hr. by rewrite Hr.
Qed.

Lemma repr_size t m : repr t m → rt_len t = Z.of_nat (size m).
Proof.
  intros Hr%Permutation_length. rewrite rt_len_spec.
  unfold view_items in Hr. rewrite !length_fmap in Hr.
  by rewrite <-!length_map_to_list, Hr.
Qed.

Lemma repr_empty n : repr (rt_with_capacity n) ∅.
Proof.
  unfold repr, view_items. by rewrite rt_with_capacity_view, !map_to_list_empty.
Qed.

Lemma repr_into_iter t m : repr t m → rt_into_iter t ≡ₚ map_to_list m.
Proof.
  intros Hr. rewrite rt_into_iter_spec, Hr, <-list_fmap_compose.
  by rewrite list_fmap_id.
Qed.

(** The buckets of [iter()], with what they hold. *)
Lemma repr_iter t m :
  repr t m → omap (rt_as_ref t) (rt_iter t) ≡ₚ map_to_list m.
Proof.
  intros Hr. destruct (rt_iter_spec t) as [Hnd Hdom].
  rewrite <-(repr_into_iter _ _ Hr), rt_into_iter_spec.
  unfold view_items. rewrite <-(omap_lookup_Permutation _ _ Hnd Hdom).
  clear. induction (rt_iter t) as [|b l IH]; [done|]. cbn.
  rewrite rt_as_ref_spec. destruct (rt_view t !! b) as [[h x]|]; cbn; [|exact IH].
  by rewrite IH.
Qed.
End repr.

(** ** A reference implementation

    An array of optional (hash, item) pairs searched from the front; it grows
    by one position when it is full. *)

Module ListTable.
Section list_table.
Context {T : Type}.

Local Abbreviation arr := (list (option (Z * T))).

Definition slot_eq (h : Z) (eq : T → bool) (o : option (Z * T)) : bool :=
  match o with Some (h', x) => (h' =? h) && eq x | None => false end.

(** The first position that satisfies [f]. *)
Fixpoint position (f : option (Z * T) → bool) (t : arr) : option nat :=
  match t with
  | [] => None
  | o :: t' => if f o then Some 0%nat else S <$> position f t'
  end.

Definition get (t : arr) (b : nat) : option (Z * T) := mjoin (t !! b).

Definition free (o : option (Z * T)) : bool := match o with None => true | _ => false end.

Definition iter (t : arr) : list nat :=
  filter (λ b, is_Some (get t b)) (seq 0 (length t)).

Definition find_or_slot (t : arr) (h : Z) (eq : T → bool) : arr * (nat + nat) :=
  match position (slot_eq h eq) t with
  | Some b => (t, inl b)
  | None =>
      match position free t with
      | Some i => (t, inr i)
      | None => (t ++ [None], inr (length t))
      end
  end.

Definition insert_at (t : arr) (h : Z) (s : nat) (x : T) : option (arr * nat) :=
  match t !! s with
  | Some None => Some (<[s := Some (h, x)]> t, s)
  | _ => None
  end.

Definition clone_items (clone : T → T) (t : arr) : arr :=
  (λ o : option (Z * T), prod_map id clone <$> o) <$> t.

#[global] Instance list_table : RawTable T := {
  table := arr;
  rt_with_capacity n := [];
  rt_find t h eq := position (slot_eq h eq) t;
  rt_find_or_find_insert_slot t h eq hasher := find_or_slot t h eq;
  rt_insert_in_slot := insert_at;
  rt_as_ref t b := snd <$> get t b;
  rt_write t b x :=
    match get t b with
    | Some (h, _) => Some (<[b := Some (h, x)]> t)
    | None => None
    end;
  rt_remove t b :=
    match get t b with
    | Some (_, x) => Some (<[b := None]> t, (x, b))
    | None => None
    end;
  rt_erase t b :=
    match get t b with
    | Some _ => Some (<[b := None]> t)
    | None => None
    end;
  rt_iter := iter;
  rt_into_iter t := omap (λ b, snd <$> get t b) (iter t);
  rt_len t := Z.of_nat (length (iter t));
  rt_capacity t := Z.of_nat (length t);
  rt_try_reserve t n hasher := Some t;
  rt_shrink_to t n hasher := t;
  rt_clone t clone := clone_items clone t
}.

Definition view (t : arr) : gmap nat (Z * T) := omap id (map_seq 0 t : gmap nat _).

Lemma view_lookup t b : view t !! b = get t b.
Proof. unfold view, get. rewrite lookup_omap, lookup_map_seq_0. by destruct (t !! b) as [[|]|]. Qed.

Lemma get_Some_lt t b x : get t b = Some x → (b < length t)%nat ∧ t !! b = Some (Some x).
Proof.
  unfold get. destruct (t !! b) as [o|] eqn:E; [|done]. cbn. intros ->.
  split; [by eapply lookup_lt_Some | done].
Qed.

Lemma view_insert t b o :
  (b < length t)%nat →
  view (<[b := o]> t) = match o with Some x => <[b := x]> (view t) | None => delete b (view t) end.
Proof.
  intros Hb. apply map_eq. intros i. rewrite view_lookup. unfold get.
  destruct (decide (b = i)) as [<-|Hne].
  - rewrite list_lookup_insert_eq by done.
    destruct o; cbn; [by rewrite lookup_insert_eq | by rewrite lookup_delete_eq].
  - rewrite list_lookup_insert_ne by done.
    destruct o; [rewrite lookup_insert_ne by done | rewrite lookup_delete_ne by done];
      by rewrite view_lookup.
Qed.

Lemma view_grow t : view (t ++ [None]) = view t.
Proof.
  apply map_eq. intros i. rewrite !view_lookup. unfold get.
  destruct (decide (i < length t)%nat) as [|Hge].
  - by rewrite lookup_app_l.
  - rewrite lookup_app_r by lia. rewrite (lookup_ge_None_2 t) by lia.
    by destruct (i - length t)%nat as [|[|]].
Qed.

Lemma position_Some f t b : position f t = Some b → ∃ o, t !! b = Some o ∧ f o = true.
Proof.
  revert b. induction t as [|o t IH]; intros b; cbn; [done|].
  destruct (f o) eqn:E; [intros [= <-]; eauto|].
  intros (b' & Hb' & ->)%fmap_Some. by apply IH.
Qed.

Lemma position_None f t b o : position f t = None → t !! b = Some o → f o = false.
Proof.
  revert b. induction t as [|o' t IH]; intros b; cbn; [done|].
  destruct (f o') eqn:E; [done|]. intros HN%fmap_None.
  destruct b; cbn; [by intros [= <-] | by apply IH].
Qed.

Lemma slot_eq_Some t h eq b :
  position (slot_eq h eq) t = Some b → ∃ h' x, view t !! b = Some (h', x) ∧ eq x = true.
Proof.
  intros ([[h' x]|] & Hb & Heq)%position_Some; [|done]. exists h', x.
  rewrite view_lookup. unfold get. rewrite Hb. cbn in *.
  by apply andb_true_iff in Heq as [_ ?].
Qed.

Lemma slot_eq_None t h eq b x :
  position (slot_eq h eq) t = None → view t !! b = Some (h, x) → eq x = false.
Proof.
  rewrite view_lookup. intros HN [_ Hb]%get_Some_lt.
  eapply position_None in HN; [|exact Hb]. cbn in HN.
  by rewrite Z.eqb_refl in HN.
Qed.

Lemma view_clone (t : arr) (clone : T → T) :
  view (clone_items clone t) = prod_map id clone <$> view t.
Proof.
  apply map_eq. intros b. rewrite lookup_fmap, !view_lookup. unfold get, clone_items. rewrite list_lookup_fmap.
  by destruct (t !! b) as [[|]|].
Qed.

Lemma iter_spec t : NoDup (iter t) ∧ ∀ b, b ∈ iter t ↔ is_Some (view t !! b).
Proof.
  split; [apply NoDup_filter, NoDup_seq|]. intros b. unfold iter.
  rewrite list_elem_of_filter, elem_of_seq, view_lookup. split; [by intros [? _]|].
  intros [x Hx]. split; [by eexists|]. apply get_Some_lt in Hx as [? _]. lia.
Qed.

Lemma into_iter_spec t :
  omap (λ b, snd <$> get t b) (iter t) ≡ₚ (view_items (view t)).*2.
Proof.
  destruct (iter_spec t) as [Hnd Hdom]. unfold view_items.
  rewrite <-(omap_lookup_Permutation _ _ Hnd Hdom). clear.
  induction (iter t) as [|b l IH]; [done|]. cbn. rewrite view_lookup.
  destruct (get t b) as [[h x]|]; cbn; [by rewrite IH | exact IH].
Qed.

Lemma iter_length t : length (iter t) = size (view t).
Proof.
  destruct (iter_spec t) as [Hnd Hdom].
  rewrite <-size_dom, <-(size_list_to_set (C := gset nat) (iter t) Hnd).
  f_equal. apply leibniz_equiv. intros b.
  by rewrite elem_of_list_to_set, elem_of_dom.
Qed.

Lemma iter_length_le t : (length (iter t) ≤ length t)%nat.
Proof.
  unfold iter. etrans; [apply length_filter|]. by rewrite length_seq.
Qed.

Lemma find_or_slot_spec t h eq t' r :
  find_or_slot t h eq = (t', r) →
  view t' = view t ∧
  match r with
  | inl b => ∃ h' x, view t' !! b = Some (h', x) ∧ eq x = true
  | inr s => (∀ b x, view t' !! b = Some (h, x) → eq x = false) ∧ t' !! s = Some None
  end.
Proof.
  unfold find_or_slot. destruct (position (slot_eq h eq) t) as [b|] eqn:Hp.
  { intros [= <- <-]. split; [done | by eapply slot_eq_Some]. }
  destruct (position free t) as [i|] eqn:Hf; intros [= <- <-].
  - split; [done|]. split; [intros b x; by apply slot_eq_None|].
    apply position_Some in Hf as ([|] & ? & ?); done.
  - rewrite view_grow. split; [done|]. split; [intros b x; by apply slot_eq_None|].
    by rewrite lookup_app_r, Nat.sub_diag by lia.
Qed.

Definition slot_free (t : arr) (s : nat) : Prop := t !! s = Some None.

Lemma insert_at_spec t h s x :
  slot_free t s →
  insert_at t h s x = Some (<[s := Some (h, x)]> t, s) ∧ view t !! s = None ∧
  view (<[s := Some (h, x)]> t) = <[s := (h, x)]> (view t).
Proof.
  unfold slot_free, insert_at. intros Hs. apply lookup_lt_Some in Hs as Hlt.
  rewrite view_lookup, view_insert by done. unfold get. by rewrite Hs.
Qed.

Lemma update_spec t b h x o :
  view t !! b = Some (h, x) →
  get t b = Some (h, x) ∧
  view (<[b := o]> t) = match o with Some y => <[b := y]> (view t) | None => delete b (view t) end ∧
  ∀ s, slot_free t s → slot_free (<[b := o]> t) s.
Proof.
  rewrite view_lookup. intros Hg. destruct (get_Some_lt _ _ _ Hg) as [Hlt Hb].
  split; [done|]. split; [by apply view_insert|]. unfold slot_free. intros s Hs.
  rewrite list_lookup_insert_ne; [done|]. congruence.
Qed.

#[global] Program Instance list_table_spec : RawTableSpec T := {
  rt_view := view;
  rt_slot_valid t h s := slot_free t s
}.
Next Obligation. intros n. apply map_eq. intros i. by rewrite view_lookup, lookup_empty. Qed.
Next Obligation. intros t h eq b. apply slot_eq_Some. Qed.
Next Obligation. intros t h eq HN b x. by apply slot_eq_None. Qed.
Next Obligation.
  intros t h eq hasher t' r _ Hf. apply find_or_slot_spec in Hf as [Hv Hr].
  split; [by rewrite Hv | done].
Qed.
Next Obligation.
  intros t h s x Hs. destruct (insert_at_spec t h s x Hs) as (? & ? & ?).
  exists (<[s := Some (h, x)]> t), s. done.
Qed.
Next Obligation. intros t b. by rewrite view_lookup. Qed.
Next Obligation.
  intros t b h x x' Hb. destruct (update_spec t b h x (Some (h, x')) Hb) as (Hg & ? & ?).
  exists (<[b := Some (h, x')]> t). cbn. rewrite Hg. auto.
Qed.
Next Obligation.
  intros t b h x Hb. destruct (update_spec t b h x None Hb) as (Hg & ? & ?).
  exists (<[b := None]> t), b. cbn. rewrite Hg. auto.
Qed.
Next Obligation.
  intros t b t' r h0 s. cbn. destruct (get t b) as [[h x]|] eqn:Hg; [|done]. intros [= <- _].
  apply (update_spec t b h x None). by rewrite view_lookup.
Qed.
Next Obligation.
  intros t b h x Hb. destruct (update_spec t b h x None Hb) as (Hg & ? & ?).
  exists (<[b := None]> t). cbn. rewrite Hg. auto.
Qed.
Next Obligation. apply iter_spec. Qed.
Next Obligation. apply into_iter_spec. Qed.
Next Obligation. intros t. cbn. by rewrite iter_length. Qed.
Next Obligation. intros t. cbn. pose proof (iter_length_le t). lia. Qed.
Next Obligation. by intros t n hasher t' _ [= <-]. Qed.
Next Obligation. by intros t n hasher _. Qed.
Next Obligation.
  intros t clone. cbn [rt_clone list_table]. rewrite view_clone. unfold view_items. rewrite map_to_list_fmap.
  rewrite <-!list_fmap_compose. done.
Qed.
End list_table.
End ListTable.
