(* ===== verification/Util.v ===== *)
(** * Util: cache entries (src/src/util.rs)

    [CacheEntry] with its S3-FIFO metadata, the saturating frequency counter
    and the in-place update of a value. *)

From stdpp Require Import base gmap list.
From S2P Require Import Prelude Machine.

Open Scope Z_scope.

(** [MAX_FREQ], [LOC_SMALL] and [LOC_MAIN] of shard.rs. *)
Definition MAX_FREQ : Z := 3.
Definition LOC_SMALL : Z := 0.
Definition LOC_MAIN : Z := 1.

(** [util::ptr_size_bits]. *)
Definition ptr_size_bits `{Target} : Z := usize_bits / 8 * 8.

(** [SharedValue<T>], a transparent wrapper of [T]: a cell is its current
    content. [get_mut] and [as_ptr] give the place of the content, which is
    read and replaced. *)
Section shared_value.
Context {T : Type}.
Definition shared_new (v : T) : T := v.
Definition shared_get (s : T) : T := s.
Definition shared_get_mut (v : T) (s : T) : T := v.
Definition shared_into_inner (s : T) : T := s.
Definition shared_clone (clone : T → T) (s : T) : T := shared_new (clone (shared_get s)).
End shared_value.

(** [CacheEntry<V>]; [value] is the content of the [SharedValue<V>] cell, and
    [freq] the current value of the [AtomicU8]. *)
Record CacheEntry (V : Type) := mkEntry {
  value : V;
  freq : Z;
  loc : Z
}.
Arguments mkEntry {V} _ _ _.
Arguments value {V} _.
Arguments freq {V} _.
Arguments loc {V} _.

Section entry.
Context {V : Type}.
Implicit Types (e : CacheEntry V) (v : V).

(** [CacheEntry::new]. *)
Definition entry_new v (l : Z) : CacheEntry V := mkEntry (shared_new v) 0 l.

(** [Clone for CacheEntry]. *)
Definition entry_clone (clone : V → V) e : CacheEntry V :=
  mkEntry (shared_clone clone (value e)) (freq e) (loc e).

Definition with_value v e : CacheEntry V := mkEntry v (freq e) (loc e).
Definition with_freq (f : Z) e : CacheEntry V := mkEntry (value e) f (loc e).
Definition with_loc (l : Z) e : CacheEntry V := mkEntry (value e) (freq e) l.

(** [CacheEntry::bump_freq]: [fetch_update] stores [f + 1] when the closure
    returns [Some] and leaves the counter alone when it returns [None]. *)
Definition bump_closure (f : Z) : option Z :=
  if f <? MAX_FREQ then Some (f + 1) else None.

Definition bump_freq e : CacheEntry V :=
  match bump_closure (freq e) with
  | Some f => with_freq f e
  | None => e
  end.

(** What every stored entry satisfies. *)
Definition entry_ok e : Prop :=
  0 ≤ freq e ≤ MAX_FREQ ∧ (loc e = LOC_SMALL ∨ loc e = LOC_MAIN).

Lemma bump_freq_eq e :
  bump_freq e = with_freq (if freq e <? MAX_FREQ then freq e + 1 else freq e) e.
Proof. unfold bump_freq, bump_closure. destruct e; cbn. by destruct (_ <? _). Qed.

Lemma bump_freq_value e : value (bump_freq e) = value e.
Proof. by rewrite bump_freq_eq. Qed.

Lemma bump_freq_loc e : loc (bump_freq e) = loc e.
Proof. by rewrite bump_freq_eq. Qed.

Lemma entry_new_ok v l : l = LOC_SMALL ∨ l = LOC_MAIN → entry_ok (entry_new v l).
Proof. split; cbn; [unfold MAX_FREQ; lia | done]. Qed.

Lemma bump_freq_ok e : entry_ok e → entry_ok (bump_freq e).
Proof.
  rewrite bump_freq_eq. intros [Hf Hl]. split; cbn; [|done].
  destruct (Z.ltb_spec (freq e) MAX_FREQ); lia.
Qed.

Lemma with_value_ok v e : entry_ok e → entry_ok (with_value v e).
Proof. done. Qed.

Lemma with_loc_ok l e : l = LOC_SMALL ∨ l = LOC_MAIN → entry_ok e → entry_ok (with_loc l e).
Proof. by intros Hl [Hf _]. Qed.

Lemma with_freq_ok f e : 0 ≤ f ≤ MAX_FREQ → entry_ok e → entry_ok (with_freq f e).
Proof. by intros Hf [_ Hl]. Qed.
End entry.

#[export] Hint Resolve entry_new_ok bump_freq_ok with_value_ok with_loc_ok with_freq_ok : neo.
#[export] Hint Extern 1 (_ = LOC_SMALL ∨ _) => (left; reflexivity) : neo.
#[export] Hint Extern 1 (_ ∨ _ = LOC_MAIN) => (right; reflexivity) : neo.

(** [Drop for AbortOnPanic]. *)
Definition drop_abort_on_panic (panicking : bool) : outcome unit :=
  if panicking then Abort else Ret tt.

(** [util::map_in_place_2]: replaces [*v] by [f(k, *v)]. A panic of the
    closure drops the [AbortOnPanic] guard while unwinding; after a normal
    return the guard is forgotten. The result of the closure is the new value,
    with its own state if it is an [FnMut]. *)
Definition map_in_place_2 {T U R : Type} (kv : U * T) (f : U → T → outcome R) : outcome R :=
  match f kv.1 kv.2 with
  | Panic => _ ← drop_abort_on_panic true; Panic
  | o => o
  end.
