(* ===== verification/Shard.v ===== *)
(** * Shard: one shard of the cache (src/src/shard.rs)

    [ShardData] holds the hashbrown table and the S3-FIFO state of a shard;
    the operations below are those of shard.rs, statement by statement. The
    queues are the two pairs of parallel deques of the source (front first);
    removed keys stay in them until an eviction sweep pops them. *)

From stdpp Require Import base gmap list.
From S2P Require Import Prelude Machine RawTable Util.

Open Scope Z_scope.

Section shard.
Context {K V : Type} `{Countable K} `{!BuildHasher K} `{!Target}.
Context `{!RawTable (K * CacheEntry V)}.

(** [struct ShardData]. *)
Record ShardData := mkShard {
  smap : table (K * CacheEntry V);
  small_hashes : list Z;
  small_keys : list K;
  main_hashes : list Z;
  main_keys : list K;
  ghost_set : gset Z;
  small_live : Z;
  main_live : Z;
  shard_cap : Z;
  small_cap : Z;
  main_cap : Z;
  ghost_cap : Z
}.

Implicit Types (s : ShardData).

(** Field assignments. *)
Definition set_map t s : ShardData :=
  mkShard t (small_hashes s) (small_keys s) (main_hashes s) (main_keys s) (ghost_set s)
    (small_live s) (main_live s) (shard_cap s) (small_cap s) (main_cap s) (ghost_cap s).
Definition set_small hs ks s : ShardData :=
  mkShard (smap s) hs ks (main_hashes s) (main_keys s) (ghost_set s)
    (small_live s) (main_live s) (shard_cap s) (small_cap s) (main_cap s) (ghost_cap s).
Definition set_main hs ks s : ShardData :=
  mkShard (smap s) (small_hashes s) (small_keys s) hs ks (ghost_set s)
    (small_live s) (main_live s) (shard_cap s) (small_cap s) (main_cap s) (ghost_cap s).
Definition set_ghost g s : ShardData :=
  mkShard (smap s) (small_hashes s) (small_keys s) (main_hashes s) (main_keys s) g
    (small_live s) (main_live s) (shard_cap s) (small_cap s) (main_cap s) (ghost_cap s).
Definition set_live sl ml s : ShardData :=
  mkShard (smap s) (small_hashes s) (small_keys s) (main_hashes s) (main_keys s) (ghost_set s)
    sl ml (shard_cap s) (small_cap s) (main_cap s) (ghost_cap s).

(** [ShardData::new]. *)
Definition shard_new (map_cap cap : Z) : ShardData :=
  let '(small_cap, main_cap, ghost_cap) :=
    if cap =? 0 then (0, 0, 0)
    else
      let s := Z.max (div_ceil cap 10) 1 in
      let m := Z.max (saturating_sub cap s) 1 in
      (s, m, cap) in
  mkShard (rt_with_capacity map_cap) [] [] [] [] ∅ 0 0 cap small_cap main_cap ghost_cap.

(** [ShardData::default]. *)
Definition shard_default : ShardData :=
  mkShard (rt_with_capacity 0) [] [] [] [] ∅ 0 0 0 0 0 0.

(** [ShardData::total_live], [len] and [capacity]. *)
Definition total_live s : outcome Z := usize_add (small_live s) (main_live s).
Definition shard_len s : Z := rt_len (smap s).
Definition shard_capacity s : Z := rt_capacity (smap s).

(** [ShardData::add_to_ghost]. *)
Definition add_to_ghost (hash : Z) s : ShardData :=
  let g := if Z.of_nat (size (ghost_set s)) >=? ghost_cap s then ∅ else ghost_set s in
  set_ghost ({[hash]} ∪ g) s.

(** The inner loop of both sweeps: pops the fronts of the two deques until
    the popped key is found in the table or a deque runs empty. *)
Fixpoint pop_live (t : table (K * CacheEntry V)) (hs : list Z) (ks : list K) :
    list Z * list K * option (Z * K * bucket) :=
  match hs, ks with
  | [], _ => ([], tail ks, None)
  | _ :: hs', [] => (hs', [], None)
  | h :: hs', k :: ks' =>
      match rt_find t h (key_eq k) with
      | Some b => (hs', ks', Some (h, k, b))
      | None => pop_live t hs' ks'
      end
  end.

(** [ShardData::evict_from_main]: the second-chance loop. *)
Fixpoint evict_from_main_loop (fuel : nat) s : outcome ShardData :=
  match fuel with
  | O => OutOfFuel
  | S fuel' =>
      let '(hs, ks, found) := pop_live (smap s) (main_hashes s) (main_keys s) in
      let s := set_main hs ks s in
      match found with
      | None => Ret s
      | Some (hash, key, b) =>
          '(k, e) ← deref (rt_as_ref (smap s) b);
          if freq e >? 0 then
            t ← deref (rt_write (smap s) b (k, with_freq (freq e - 1) e));
            let s := set_map t s in
            evict_from_main_loop fuel'
              (set_main (main_hashes s ++ [hash]) (main_keys s ++ [key]) s)
          else
            ml ← usize_sub (main_live s) 1;
            '(t, _) ← deref (rt_remove (smap s) b);
            Ret (set_map t (set_live (small_live s) ml s))
      end
  end.

(** The frequencies still to be counted down: every turn of the loop that
    does not return lowers this sum, so one more turn is enough. *)
Definition table_freqs (t : table (K * CacheEntry V)) : nat :=
  sum_list_with (λ x : K * CacheEntry V, Z.to_nat (freq x.2))
    (omap (rt_as_ref t) (rt_iter t)).

Definition evict_from_main s : outcome ShardData :=
  evict_from_main_loop (S (table_freqs (smap s))) s.

(** [ShardData::evict_from_small]. *)
Definition evict_from_small s : outcome ShardData :=
  let '(hs, ks, found) := pop_live (smap s) (small_hashes s) (small_keys s) in
  let s := set_small hs ks s in
  match found with
  | None => evict_from_main s
  | Some (hash, key, b) =>
      '(k, e) ← deref (rt_as_ref (smap s) b);
      if freq e >? 0 then
        t ← deref (rt_write (smap s) b (k, with_loc LOC_MAIN e));
        let s := set_map t s in
        sl ← usize_sub (small_live s) 1;
        let s := set_main (main_hashes s ++ [hash]) (main_keys s ++ [key]) s in
        ml ← usize_add (main_live s) 1;
        Ret (set_live sl ml s)
      else
        sl ← usize_sub (small_live s) 1;
        '(t, _) ← deref (rt_remove (smap s) b);
        Ret (add_to_ghost hash (set_map t (set_live sl (main_live s) s)))
  end.

(** [ShardData::evict_one]. *)
Definition evict_one s : outcome ShardData :=
  if small_live s >=? small_cap s then evict_from_small s else evict_from_main s.

(** The loop of every insertion of a new key:
    [while shard_cap > 0 && total_live() >= shard_cap { evict_one() }]. *)
Fixpoint make_room_loop (fuel : nat) s : outcome ShardData :=
  match fuel with
  | O => OutOfFuel
  | S fuel' =>
      if shard_cap s >? 0 then
        tl ← total_live s;
        if tl >=? shard_cap s then
          s ← evict_one s;
          make_room_loop fuel' s
        else Ret s
      else Ret s
  end.

(** Each turn shortens the small queue or removes an entry, so this many
    turns are always enough ([m_room_loop_returns] in Safety). *)
Definition room_fuel s : nat :=
  (Z.to_nat (rt_len (smap s)) + length (small_keys s) + 2)%nat.

Definition make_room s : outcome ShardData := make_room_loop (room_fuel s) s.

(** [ShardData::clear_all]: erases the buckets of [map.iter()], then the
    queues, the ghost set and the counters. *)
Fixpoint erase_all (bs : list bucket) (t : table (K * CacheEntry V)) :
    outcome (table (K * CacheEntry V)) :=
  match bs with
  | [] => Ret t
  | b :: bs' => t ← deref (rt_erase t b); erase_all bs' t
  end.

Definition clear_all s : outcome ShardData :=
  t ← erase_all (rt_iter (smap s)) (smap s);
  Ret (set_live 0 0 (set_ghost ∅ (set_main [] [] (set_small [] [] (set_map t s))))).

(** [ShardData::map_try_reserve] ([None] is [TryReserveError]) and
    [map_shrink_to]. *)
Definition map_try_reserve (additional : Z) s : option ShardData :=
  t ← rt_try_reserve (smap s) additional key_hash; Some (set_map t s).

Definition map_shrink_to (min_capacity : Z) s : ShardData :=
  set_map (rt_shrink_to (smap s) min_capacity key_hash) s.

(** [Clone for ShardData]: the table clones its items; keys and values are
    pure data, whose clones are themselves. *)
Definition shard_clone s : ShardData :=
  mkShard (rt_clone (smap s) (prod_map id (entry_clone id))) (small_hashes s) (small_keys s) (main_hashes s) (main_keys s)
    (ghost_set s) (small_live s) (main_live s) (shard_cap s) (small_cap s) (main_cap s) (ghost_cap s).
End shard.

Arguments ShardData K V {_}.
