(* ===== verification/ShardOps.v ===== *)
(** * ShardOps: what the cache operations do to a locked shard

    The bodies of the [Map] trait methods of src/src/lib.rs between taking and
    releasing the lock of the shard the key hashes to, and the two copies of the
    insertion path in [VacantEntry] of src/src/mapref/entry.rs. Closures passed
    by the caller are pure functions; a stateful [FnMut] threads its state. *)

From stdpp Require Import base gmap list.
From S2P Require Import Prelude Machine RawTable Util Shard.

Open Scope Z_scope.

Section ops.
Context {K V : Type} `{Countable K} `{!BuildHasher K} `{!Target}.
Context `{!RawTable (K * CacheEntry V)}.
Implicit Types (s : ShardData K V) (k key : K) (v : V) (b : bucket).

(** Registers a new key with its eviction queue. *)
Definition enqueue (l hash : Z) key s : outcome (ShardData K V) :=
  if l =? LOC_MAIN then
    let s := set_main (main_hashes s ++ [hash]) (main_keys s ++ [key]) s in
    ml ← usize_add (main_live s) 1;
    Ret (set_live (small_live s) ml s)
  else
    let s := set_small (small_hashes s ++ [hash]) (small_keys s ++ [key]) s in
    sl ← usize_add (small_live s) 1;
    Ret (set_live sl (main_live s) s).

(** The vacant branch of [_insert]: ghost check, eviction loop, insertion at
    the slot found before, queue registration. *)
Definition insert_vacant key (hash : Z) (slot : insert_slot) v s :
    outcome (ShardData K V * bucket) :=
  let hit := bool_decide (hash ∈ ghost_set s) in
  let s := set_ghost (ghost_set s ∖ {[hash]}) s in
  let l := if hit then LOC_MAIN else LOC_SMALL in
  s ← make_room s;
  '(t, b) ← deref (rt_insert_in_slot (smap s) hash slot (key, entry_new v l));
  s ← enqueue l hash key (set_map t s);
  Ret (s, b).

(** The body of [VacantEntry::insert] of src/src/mapref/entry.rs, a second copy
    of this code with a loop of its own. *)
Fixpoint vacant_room (fuel : nat) s : outcome (ShardData K V) :=
  match fuel with
  | O => OutOfFuel
  | S fuel' =>
      if shard_cap s >? 0 then
        tl ← total_live s;
        if tl >=? shard_cap s then
          s ← evict_one s;
          vacant_room fuel' s
        else Ret s
      else Ret s
  end.

Definition vacant_fill key (hash : Z) (slot : insert_slot) v s :
    outcome (ShardData K V * bucket) :=
  let hit := bool_decide (hash ∈ ghost_set s) in
  let s := set_ghost (ghost_set s ∖ {[hash]}) s in
  let l := if hit then LOC_MAIN else LOC_SMALL in
  s ← vacant_room (room_fuel s) s;
  '(t, b) ← deref (rt_insert_in_slot (smap s) hash slot (key, entry_new v l));
  let s := set_map t s in
  s ← (if l =? LOC_MAIN then
         let s := set_main (main_hashes s ++ [hash]) (main_keys s ++ [key]) s in
         ml ← usize_add (main_live s) 1;
         Ret (set_live (small_live s) ml s)
       else
         let s := set_small (small_hashes s ++ [hash]) (small_keys s ++ [key]) s in
         sl ← usize_add (small_live s) 1;
         Ret (set_live sl (main_live s) s));
  Ret (s, b).

(** The body of [VacantEntry::insert_entry], the third copy. *)
Fixpoint entry_room (fuel : nat) s : outcome (ShardData K V) :=
  match fuel with
  | O => OutOfFuel
  | S fuel' =>
      if shard_cap s >? 0 then
        tl ← total_live s;
        if tl >=? shard_cap s then
          s ← evict_one s;
          entry_room fuel' s
        else Ret s
      else Ret s
  end.

Definition entry_fill key (hash : Z) (slot : insert_slot) v s :
    outcome (ShardData K V * bucket) :=
  let hit := bool_decide (hash ∈ ghost_set s) in
  let s := set_ghost (ghost_set s ∖ {[hash]}) s in
  let l := if hit then LOC_MAIN else LOC_SMALL in
  s ← entry_room (room_fuel s) s;
  '(t, b) ← deref (rt_insert_in_slot (smap s) hash slot (key, entry_new v l));
  let s := set_map t s in
  s ← (if l =? LOC_MAIN then
         let s := set_main (main_hashes s ++ [hash]) (main_keys s ++ [key]) s in
         ml ← usize_add (main_live s) 1;
         Ret (set_live (small_live s) ml s)
       else
         let s := set_small (small_hashes s ++ [hash]) (small_keys s ++ [key]) s in
         sl ← usize_add (small_live s) 1;
         Ret (set_live sl (main_live s) s));
  Ret (s, b).

(** [_insert]. *)
Definition shard_insert key v s : outcome (ShardData K V * option V) :=
  let hash := hash_one key in
  let '(t, r) := rt_find_or_find_insert_slot (smap s) hash (key_eq key) key_hash in
  let s := set_map t s in
  match r with
  | inl b =>
      '(k, e) ← deref (rt_as_ref (smap s) b);
      t ← deref (rt_write (smap s) b (k, with_value v e));
      Ret (set_map t s, Some (value e))
  | inr slot =>
      '(s, _) ← insert_vacant key hash slot v s;
      Ret (s, None)
  end.

(** The live counters after the entry of a bucket with location [l] left
    the table by an explicit removal. *)
Definition uncount (l : Z) s : ShardData K V :=
  if l =? LOC_SMALL then set_live (saturating_sub (small_live s) 1) (main_live s) s
  else set_live (small_live s) (saturating_sub (main_live s) 1) s.

(** Removing a found bucket, as in [_remove] and [OccupiedEntry::remove_entry]. *)
Definition remove_bucket b s : outcome (ShardData K V * (K * V)) :=
  '(_, e) ← deref (rt_as_ref (smap s) b);
  '(t, (k, e', _)) ← deref (rt_remove (smap s) b);
  Ret (uncount (loc e) (set_map t s), (k, shared_into_inner (value e'))).

(** [_remove]. *)
Definition shard_remove key s : outcome (ShardData K V * option (K * V)) :=
  match rt_find (smap s) (hash_one key) (key_eq key) with
  | Some b => '(s, kv) ← remove_bucket b s; Ret (s, Some kv)
  | None => Ret (s, None)
  end.

(** [_remove_if]. *)
Definition shard_remove_if key (f : K → V → bool) s :
    outcome (ShardData K V * option (K * V)) :=
  match rt_find (smap s) (hash_one key) (key_eq key) with
  | Some b =>
      '(k, e) ← deref (rt_as_ref (smap s) b);
      if f k (value e) then '(s, kv) ← remove_bucket b s; Ret (s, Some kv)
      else Ret (s, None)
  | None => Ret (s, None)
  end.

(** [_remove_if_mut]: the predicate may change the value first. *)
Definition shard_remove_if_mut key (f : K → V → V * bool) s :
    outcome (ShardData K V * option (K * V)) :=
  match rt_find (smap s) (hash_one key) (key_eq key) with
  | Some b =>
      '(k, e) ← deref (rt_as_ref (smap s) b);
      let '(v', yes) := f k (value e) in
      t ← deref (rt_write (smap s) b (k, with_value v' e));
      let s := set_map t s in
      if yes : bool then '(s, kv) ← remove_bucket b s; Ret (s, Some kv)
      else Ret (s, None)
  | None => Ret (s, None)
  end.

(** [bump_freq] on the entry of a bucket: nothing is stored when the closure
    of [fetch_update] returns [None]. *)
Definition bump_at b s : outcome (ShardData K V) :=
  '(k, e) ← deref (rt_as_ref (smap s) b);
  match bump_closure (freq e) with
  | Some f => t ← deref (rt_write (smap s) b (k, with_freq f e)); Ret (set_map t s)
  | None => Ret s
  end.

(** The lookup of [_get] and [_get_mut]: bumps the frequency of the entry and
    returns the bucket the reference points into. *)
Definition shard_get key s : outcome (ShardData K V * option bucket) :=
  match rt_find (smap s) (hash_one key) (key_eq key) with
  | Some b => s ← bump_at b s; Ret (s, Some b)
  | None => Ret (s, None)
  end.

(** Reading through a bucket ([Ref::pair]) and writing the value
    ([RefMut::value_mut]). *)
Definition bucket_pair b s : outcome (K * V) :=
  '(k, e) ← deref (rt_as_ref (smap s) b); Ret (k, shared_get (value e)).

Definition bucket_set b v s : outcome (ShardData K V) :=
  '(k, e) ← deref (rt_as_ref (smap s) b);
  t ← deref (rt_write (smap s) b (k, with_value (shared_get_mut v (value e)) e));
  Ret (set_map t s).

(** The body of [_retain] for one shard, along the buckets of [map.iter()]. *)
Fixpoint retain_loop {St} (f : St → K → V → St * (V * bool)) (st : St)
    (bs : list bucket) s : outcome (St * ShardData K V) :=
  match bs with
  | [] => Ret (st, s)
  | b :: bs' =>
      '(k, e) ← deref (rt_as_ref (smap s) b);
      let '(st, (v', keep)) := f st k (value e) in
      t ← deref (rt_write (smap s) b (k, with_value v' e));
      let s := set_map t s in
      if negb keep then
        t ← deref (rt_erase (smap s) b);
        retain_loop f st bs' (uncount (loc e) (set_map t s))
      else retain_loop f st bs' s
  end.

Definition shard_retain {St} (f : St → K → V → St * (V * bool)) (st : St) s :
    outcome (St * ShardData K V) :=
  retain_loop f st (rt_iter (smap s)) s.

(** [_shrink_to_fit] for one shard. *)
Definition shard_shrink_to_fit s : ShardData K V :=
  map_shrink_to (rt_len (smap s)) s.
End ops.
