(* ===== verification/ShardModel.v ===== *)
(** * ShardModel: a shard as a finite map with two key queues

    The abstract counterpart of [ShardData]: the table becomes a finite map
    from keys to entries and each pair of parallel deques one list of keys.
    Its operations have no undefined behaviour by construction. [shard_rel]
    relates a shard to its model; the simulation lemmas show that every
    operation of Shard and ShardOps behaves as its model counterpart, hence
    never violates the contract of an [unsafe] block. *)

From stdpp Require Import base gmap list.
From S2P Require Import Prelude Machine RawTable Util Shard ShardOps.

Open Scope Z_scope.

Section model.
Context {K V : Type} `{Countable K} `{!BuildHasher K} `{!Target}.

Record Model := mkModel {
  m_map : gmap K (CacheEntry V);
  m_small : list K;
  m_main : list K;
  m_ghost : gset Z;
  m_small_live : Z;
  m_main_live : Z;
  m_cap : Z;
  m_small_cap : Z;
  m_ghost_cap : Z
}.

Implicit Types (a : Model) (m : gmap K (CacheEntry V)) (k : K) (ks : list K).

Definition m_set_map m a : Model :=
  mkModel m (m_small a) (m_main a) (m_ghost a) (m_small_live a) (m_main_live a)
    (m_cap a) (m_small_cap a) (m_ghost_cap a).
Definition m_set_small ks a : Model :=
  mkModel (m_map a) ks (m_main a) (m_ghost a) (m_small_live a) (m_main_live a)
    (m_cap a) (m_small_cap a) (m_ghost_cap a).
Definition m_set_main ks a : Model :=
  mkModel (m_map a) (m_small a) ks (m_ghost a) (m_small_live a) (m_main_live a)
    (m_cap a) (m_small_cap a) (m_ghost_cap a).
Definition m_set_ghost g a : Model :=
  mkModel (m_map a) (m_small a) (m_main a) g (m_small_live a) (m_main_live a)
    (m_cap a) (m_small_cap a) (m_ghost_cap a).
Definition m_set_live sl ml a : Model :=
  mkModel (m_map a) (m_small a) (m_main a) (m_ghost a) sl ml
    (m_cap a) (m_small_cap a) (m_ghost_cap a).

(** The first live key of a queue, its entry and the rest of the queue. *)
Fixpoint m_pop m ks : option (K * CacheEntry V * list K) :=
  match ks with
  | [] => None
  | k :: ks' =>
      match m !! k with
      | Some e => Some (k, e, ks')
      | None => m_pop m ks'
      end
  end.

Definition m_total_live a : outcome Z := usize_add (m_small_live a) (m_main_live a).

Definition m_add_ghost (h : Z) a : Model :=
  m_set_ghost
    ({[h]} ∪ (if Z.of_nat (size (m_ghost a)) >=? m_ghost_cap a then ∅ else m_ghost a)) a.

Fixpoint m_evict_main_loop (fuel : nat) a : outcome Model :=
  match fuel with
  | O => OutOfFuel
  | S fuel' =>
      match m_pop (m_map a) (m_main a) with
      | None => Ret (m_set_main [] a)
      | Some (k, e, ks) =>
          if freq e >? 0 then
            m_evict_main_loop fuel'
              (m_set_main (ks ++ [k])
                 (m_set_map (<[k := with_freq (freq e - 1) e]> (m_map a)) a))
          else
            ml ← usize_sub (m_main_live a) 1;
            Ret (m_set_live (m_small_live a) ml
                   (m_set_main ks (m_set_map (delete k (m_map a)) a)))
      end
  end.

Definition m_freqs m : nat :=
  sum_list_with (λ x : K * CacheEntry V, Z.to_nat (freq x.2)) (map_to_list m).

Definition m_evict_main a : outcome Model :=
  m_evict_main_loop (S (m_freqs (m_map a))) a.

Definition m_evict_small a : outcome Model :=
  match m_pop (m_map a) (m_small a) with
  | None => m_evict_main (m_set_small [] a)
  | Some (k, e, ks) =>
      let a := m_set_small ks a in
      if freq e >? 0 then
        sl ← usize_sub (m_small_live a) 1;
        ml ← usize_add (m_main_live a) 1;
        Ret (m_set_live sl ml
               (m_set_main (m_main a ++ [k])
                  (m_set_map (<[k := with_loc LOC_MAIN e]> (m_map a)) a)))
      else
        sl ← usize_sub (m_small_live a) 1;
        Ret (m_add_ghost (hash_one k)
               (m_set_live sl (m_main_live a) (m_set_map (delete k (m_map a)) a)))
  end.

Definition m_evict_one a : outcome Model :=
  if m_small_live a >=? m_small_cap a then m_evict_small a else m_evict_main a.

Fixpoint m_room_loop (fuel : nat) a : outcome Model :=
  match fuel with
  | O => OutOfFuel
  | S fuel' =>
      if m_cap a >? 0 then
        tl ← m_total_live a;
        if tl >=? m_cap a then a ← m_evict_one a; m_room_loop fuel' a
        else Ret a
      else Ret a
  end.

Definition m_room_fuel a : nat := (size (m_map a) + length (m_small a) + 2)%nat.
Definition m_make_room a : outcome Model := m_room_loop (m_room_fuel a) a.

Definition m_enqueue (l : Z) k a : outcome Model :=
  if l =? LOC_MAIN then
    ml ← usize_add (m_main_live a) 1;
    Ret (m_set_live (m_small_live a) ml (m_set_main (m_main a ++ [k]) a))
  else
    sl ← usize_add (m_small_live a) 1;
    Ret (m_set_live sl (m_main_live a) (m_set_small (m_small a ++ [k]) a)).

Definition m_insert_vacant k (v : V) a : outcome Model :=
  let l := if bool_decide (hash_one k ∈ m_ghost a) then LOC_MAIN else LOC_SMALL in
  a ← m_make_room (m_set_ghost (m_ghost a ∖ {[hash_one k]}) a);
  m_enqueue l k (m_set_map (<[k := entry_new v l]> (m_map a)) a).

Definition m_insert k (v : V) a : outcome (Model * option V) :=
  match m_map a !! k with
  | Some e => Ret (m_set_map (<[k := with_value v e]> (m_map a)) a, Some (value e))
  | None => a ← m_insert_vacant k v a; Ret (a, None)
  end.

Definition m_uncount (l : Z) a : Model :=
  if l =? LOC_SMALL then m_set_live (saturating_sub (m_small_live a) 1) (m_main_live a) a
  else m_set_live (m_small_live a) (saturating_sub (m_main_live a) 1) a.

Definition m_remove k a : Model :=
  match m_map a !! k with
  | Some e => m_uncount (loc e) (m_set_map (delete k (m_map a)) a)
  | None => a
  end.

(** Applies [g] to the entry of [k], if there is one. *)
Definition m_update k (g : CacheEntry V → CacheEntry V) a : Model :=
  match m_map a !! k with
  | Some e => m_set_map (<[k := g e]> (m_map a)) a
  | None => a
  end.

Definition m_get k a : Model := m_update k bump_freq a.

Definition m_clear a : Model :=
  m_set_live 0 0 (m_set_ghost ∅ (m_set_main [] (m_set_small [] (m_set_map ∅ a)))).
End model.

Arguments Model K V {_ _}.

(** ** Evictions only remove entries

    They may change the metadata of the entries that stay, never their values. *)

Section shrink.
Context {K V : Type} `{Countable K} `{!BuildHasher K} `{!Target}.
Implicit Types (a : Model K V) (m : gmap K (CacheEntry V)) (k : K).

Definition shrinks m m' : Prop :=
  ∀ k e', m' !! k = Some e' → ∃ e, m !! k = Some e ∧ value e' = value e.

Lemma shrinks_refl m : shrinks m m.
Proof. intros k e He. eauto. Qed.

Lemma shrinks_trans m1 m2 m3 : shrinks m1 m2 → shrinks m2 m3 → shrinks m1 m3.
Proof.
  intros H12 H23 k e3 (e2 & He2 & ->)%H23. by apply H12.
Qed.

Lemma shrinks_None m m' k : shrinks m m' → m !! k = None → m' !! k = None.
Proof.
  intros Hs Hk. destruct (m' !! k) as [e'|] eqn:He'; [|done].
  apply Hs in He' as (e & ? & _). congruence.
Qed.

Lemma shrinks_count m m' : shrinks m m' → (size m' ≤ size m)%nat.
Proof.
  intros Hs. rewrite <-!size_dom. apply subseteq_size. intros k. rewrite !elem_of_dom.
  intros [e' He']. apply Hs in He' as (e & -> & _). eauto.
Qed.

Lemma shrinks_delete m k : shrinks m (delete k m).
Proof. intros k' e' [_ He]%lookup_delete_Some. eauto. Qed.

Lemma shrinks_meta m k e e' : m !! k = Some e → value e' = value e → shrinks m (<[k := e']> m).
Proof.
  intros Hk Hv k' e2 [[<- <-] | [_ ?]]%lookup_insert_Some; eauto.
Qed.

Lemma m_pop_Some m ks k e ks' :
  m_pop m ks = Some (k, e, ks') →
  m !! k = Some e ∧ ∃ pre, ks = pre ++ k :: ks' ∧ Forall (λ k', m !! k' = None) pre.
Proof.
  induction ks as [|k0 ks IH]; cbn; [done|]. destruct (m !! k0) as [e0|] eqn:Hk0.
  - intros [= -> -> ->]. split; [done|]. by exists [].
  - intros (Hm & pre & -> & Hpre)%IH. split; [done|].
    exists (k0 :: pre). split; [done|]. by constructor.
Qed.

Lemma m_pop_None m ks k : m_pop m ks = None → k ∈ ks → m !! k = None.
Proof.
  induction ks as [|k0 ks IH]; cbn; [by intros _ ?%not_elem_of_nil|].
  destruct (m !! k0) as [e0|] eqn:Hk0; [done|].
  intros Hp [->|Hk]%elem_of_cons; auto.
Qed.

Lemma m_evict_main_loop_shrinks fuel a a' :
  m_evict_main_loop fuel a ⇓ a' → shrinks (m_map a) (m_map a').
Proof.
  revert a. induction fuel as [|fuel IH]; intros a; cbn; [done|].
  destruct (m_pop (m_map a) (m_main a)) as [[[k e] ks]|] eqn:Hp.
  - apply m_pop_Some in Hp as [Hk _]. destruct (freq e >? 0).
    + intros Ha%IH. eapply shrinks_trans; [|exact Ha]. by eapply shrinks_meta.
    + intros (ml & _ & [= <-])%bind_Ret. apply shrinks_delete.
  - intros [= <-]. apply shrinks_refl.
Qed.

Lemma m_evict_one_shrinks a a' : m_evict_one a ⇓ a' → shrinks (m_map a) (m_map a').
Proof.
  unfold m_evict_one, m_evict_small, m_evict_main.
  destruct (_ >=? _); [|by apply m_evict_main_loop_shrinks].
  destruct (m_pop (m_map a) (m_small a)) as [[[k e] ks]|] eqn:Hp;
    [|intros Ha; by apply m_evict_main_loop_shrinks in Ha].
  apply m_pop_Some in Hp as [Hk _]. destruct (freq e >? 0).
  - intros (sl & _ & (ml & _ & [= <-])%bind_Ret)%bind_Ret. by eapply shrinks_meta.
  - intros (sl & _ & [= <-])%bind_Ret. apply shrinks_delete.
Qed.

Lemma m_room_loop_shrinks fuel a a' :
  m_room_loop fuel a ⇓ a' → shrinks (m_map a) (m_map a').
Proof.
  revert a. induction fuel as [|fuel IH]; intros a; cbn; [done|].
  destruct (_ >? _); [|intros [= <-]; apply shrinks_refl].
  intros (tl & _ & Ha)%bind_Ret. destruct (_ >=? _); [|injection Ha as <-; apply shrinks_refl].
  apply bind_Ret in Ha as (a1 & Ha1%m_evict_one_shrinks & Ha2%IH).
  by eapply shrinks_trans.
Qed.

Lemma m_make_room_shrinks a a' : m_make_room a ⇓ a' → shrinks (m_map a) (m_map a').
Proof. apply m_room_loop_shrinks. Qed.
End shrink.

(** ** Simulation *)

Section simulation.
Context {K V : Type} `{Countable K} `{!BuildHasher K} `{!Target}.
Context `{!RawTable (K * CacheEntry V)} `{!RawTableSpec (K * CacheEntry V)}.
Implicit Types (s : ShardData K V) (a : Model K V) (k : K) (v : V).

(** The share of the main queue, which no operation reads. *)
Definition cap_main (cap scap : Z) : Z := if cap =? 0 then 0 else Z.max (saturating_sub cap scap) 1.

Record shard_rel s a : Prop := {
  rel_map : repr (smap s) (m_map a);
  rel_small_keys : small_keys s = m_small a;
  rel_small_hashes : small_hashes s = hash_one <$> m_small a;
  rel_main_keys : main_keys s = m_main a;
  rel_main_hashes : main_hashes s = hash_one <$> m_main a;
  rel_ghost : ghost_set s = m_ghost a;
  rel_small_live : small_live s = m_small_live a;
  rel_main_live : main_live s = m_main_live a;
  rel_cap : shard_cap s = m_cap a;
  rel_small_cap : small_cap s = m_small_cap a;
  rel_ghost_cap : ghost_cap s = m_ghost_cap a;
  rel_main_cap : main_cap s = cap_main (shard_cap s) (small_cap s)
}.

(** The insert slots that were valid before an eviction still are after it. *)
Definition slots_kept s s' : Prop :=
  ∀ h i, rt_slot_valid (smap s) h i → rt_slot_valid (smap s') h i.

(** The relation of an eviction step that started in [s0]. *)
Definition evict_rel s0 s a : Prop := shard_rel s a ∧ slots_kept s0 s.

Lemma slots_kept_refl s : slots_kept s s.
Proof. by intros h i. Qed.

Lemma slots_kept_trans s1 s2 s3 : slots_kept s1 s2 → slots_kept s2 s3 → slots_kept s1 s3.
Proof. unfold slots_kept. auto. Qed.

Lemma pop_live_sim t m ks :
  repr t m →
  match m_pop m ks with
  | None => pop_live t (hash_one <$> ks) ks = ([], [], None)
  | Some (k, e, ks') =>
      ∃ b, pop_live t (hash_one <$> ks) ks = (hash_one <$> ks', ks', Some (hash_one k, k, b)) ∧
           rt_view t !! b = Some (hash_one k, (k, e))
  end.
Proof.
  intros Hr. induction ks as [|k ks IH]; [done|]. cbn.
  destruct (m !! k) as [e|] eqn:Hk.
  - destruct (repr_find_Some _ _ _ _ Hr Hk) as (b & -> & Hb). eauto.
  - rewrite (repr_find_None _ _ _ _ Hr Hk). exact IH.
Qed.

Lemma table_freqs_repr t m : repr t m → table_freqs t = m_freqs m.
Proof.
  intros Hr. unfold table_freqs, m_freqs. by rewrite (repr_iter _ _ Hr).
Qed.

(** Reading, overwriting and removing the entry a bucket holds. *)
Lemma bucket_write_sim s a b k e e' :
  shard_rel s a → rt_view (smap s) !! b = Some (hash_one k, (k, e)) →
  ∃ t, rt_write (smap s) b (k, e') = Some t ∧
    evict_rel s (set_map t s) (m_set_map (<[k := e']> (m_map a)) a) ∧
    rt_view t = <[b := (hash_one k, (k, e'))]> (rt_view (smap s)).
Proof.
  intros Hrel Hb. destruct (rt_write_spec _ _ _ _ (k, e') Hb) as (t & -> & Hv & Hs).
  exists t. split; [done|]. split; [|done]. split; [|exact Hs].
  destruct Hrel as [Hr]. constructor; cbn; try done. by eapply repr_write.
Qed.

Lemma bucket_remove_sim s a b k e :
  shard_rel s a → rt_view (smap s) !! b = Some (hash_one k, (k, e)) →
  ∃ t i, rt_remove (smap s) b = Some (t, (k, e, i)) ∧
    evict_rel s (set_map t s) (m_set_map (delete k (m_map a)) a).
Proof.
  intros Hrel Hb. destruct (rt_remove_spec _ _ _ _ Hb) as (t & i & Ht & Hv). rewrite Ht.
  pose proof (λ h0 i0, rt_remove_slots _ _ _ _ h0 i0 Ht) as Hs.
  exists t, i. split; [done|]. split; [|exact Hs].
  destruct Hrel as [Hr]. constructor; cbn; try done. by eapply repr_delete.
Qed.

Lemma usize_rel_bind {A B} (R : A → B → Prop) (o : outcome Z) f g :
  o ≠ Undefined → (∀ z, outcome_rel R (f z) (g z)) → outcome_rel R (o ≫= f) (o ≫= g).
Proof. intros Ho Hfg. eapply outcome_rel_bind; [by apply outcome_rel_refl|]. by intros a ? _ <-. Qed.

Lemma set_main_rel s0 s a ks :
  evict_rel s0 s a →
  evict_rel s0 (set_main (hash_one <$> ks) ks s) (m_set_main ks a).
Proof. intros [[] Hs]. split; [by constructor | exact Hs]. Qed.

Lemma set_small_rel s0 s a ks :
  evict_rel s0 s a →
  evict_rel s0 (set_small (hash_one <$> ks) ks s) (m_set_small ks a).
Proof. intros [[] Hs]. split; [by constructor | exact Hs]. Qed.

Lemma set_live_rel s0 s a sl ml :
  evict_rel s0 s a → evict_rel s0 (set_live sl ml s) (m_set_live sl ml a).
Proof. intros [[] Hs]. split; [by constructor | exact Hs]. Qed.

Lemma push_main_rel s0 s a k :
  evict_rel s0 s a →
  evict_rel s0 (set_main (main_hashes s ++ [hash_one k]) (main_keys s ++ [k]) s)
    (m_set_main (m_main a ++ [k]) a).
Proof.
  intros [Hrel Hs]. destruct Hrel as [? ? ? Hk Hh]. rewrite Hk, Hh.
  change [hash_one k] with (hash_one <$> [k]). rewrite <-fmap_app.
  apply set_main_rel. by split; [constructor|].
Qed.

Lemma push_small_rel s0 s a k :
  evict_rel s0 s a →
  evict_rel s0 (set_small (small_hashes s ++ [hash_one k]) (small_keys s ++ [k]) s)
    (m_set_small (m_small a ++ [k]) a).
Proof.
  intros [Hrel Hs]. destruct Hrel as [? Hk Hh]. rewrite Hk, Hh.
  change [hash_one k] with (hash_one <$> [k]). rewrite <-fmap_app.
  apply set_small_rel. by split; [constructor|].
Qed.

Lemma set_ghost_rel s0 s a g :
  evict_rel s0 s a → evict_rel s0 (set_ghost g s) (m_set_ghost g a).
Proof. intros [[] Hs]. split; [by constructor | exact Hs]. Qed.

Lemma add_to_ghost_rel s0 s a h :
  evict_rel s0 s a → evict_rel s0 (add_to_ghost h s) (m_add_ghost h a).
Proof.
  intros [Hrel Hs]. unfold add_to_ghost, m_add_ghost.
  rewrite (rel_ghost _ _ Hrel), (rel_ghost_cap _ _ Hrel).
  by apply set_ghost_rel.
Qed.

Lemma evict_rel_trans s0 s1 s a : slots_kept s0 s1 → evict_rel s1 s a → evict_rel s0 s a.
Proof. intros H1 [H2 H3]. split; [done|]. by eapply slots_kept_trans. Qed.

Lemma evict_rel_refl s a : shard_rel s a → evict_rel s s a.
Proof. by split; [|apply slots_kept_refl]. Qed.

Lemma evict_from_main_loop_sim fuel s a :
  shard_rel s a →
  outcome_rel (evict_rel s) (evict_from_main_loop fuel s) (m_evict_main_loop fuel a).
Proof.
  revert s a. induction fuel as [|fuel IH]; intros s a Hrel; cbn; [constructor|].
  pose proof (pop_live_sim _ _ (m_main a) (rel_map _ _ Hrel)) as Hpop.
  rewrite (rel_main_keys _ _ Hrel), (rel_main_hashes _ _ Hrel).
  pose proof (evict_rel_refl _ _ Hrel) as Hs.
  destruct (m_pop (m_map a) (m_main a)) as [[[k e] ks]|].
  - destruct Hpop as (b & -> & Hb). cbn_rewrite (repr_as_ref _ _ _ _ Hb).
    pose proof (set_main_rel _ _ _ ks Hs) as Hs1.
    destruct (freq e >? 0).
    + destruct (bucket_write_sim _ _ b k e (with_freq (freq e - 1) e) (proj1 Hs1) Hb)
        as (t & Ht & Hs2 & _). cbn_rewrite Ht.
      apply (push_main_rel _ _ _ k), (evict_rel_trans s) in Hs2; [|apply Hs1].
      specialize (IH _ _ (proj1 Hs2)). eapply outcome_rel_mono; [exact IH|].
      intros s' a'. apply evict_rel_trans, Hs2.
    + rewrite (rel_main_live _ _ Hrel). apply usize_rel_bind; [auto with neo|]. intros ml.
      destruct (bucket_remove_sim _ _ b k e (proj1 Hs1) Hb) as (t & i & Ht & Hs2).
      cbn_rewrite Ht. constructor.
      apply (set_live_rel _ _ _ (m_small_live a) ml), (evict_rel_trans s) in Hs2; [|apply Hs1].
      by rewrite (rel_small_live _ _ Hrel).
  - rewrite Hpop. constructor. by apply (set_main_rel _ _ _ []).
Qed.

Lemma evict_from_main_sim s a :
  shard_rel s a → outcome_rel (evict_rel s) (evict_from_main s) (m_evict_main a).
Proof.
  intros Hrel. unfold evict_from_main, m_evict_main.
  rewrite (table_freqs_repr _ _ (rel_map _ _ Hrel)).
  by apply evict_from_main_loop_sim.
Qed.

Lemma evict_from_small_sim s a :
  shard_rel s a → outcome_rel (evict_rel s) (evict_from_small s) (m_evict_small a).
Proof.
  intros Hrel. unfold evict_from_small, m_evict_small.
  pose proof (pop_live_sim _ _ (m_small a) (rel_map _ _ Hrel)) as Hpop.
  rewrite (rel_small_keys _ _ Hrel), (rel_small_hashes _ _ Hrel).
  pose proof (evict_rel_refl _ _ Hrel) as Hs.
  destruct (m_pop (m_map a) (m_small a)) as [[[k e] ks]|].
  - destruct Hpop as (b & -> & Hb). cbn_rewrite (repr_as_ref _ _ _ _ Hb).
    pose proof (set_small_rel _ _ _ ks Hs) as Hs1. rewrite (rel_small_live _ _ Hrel).
    destruct (freq e >? 0).
    + destruct (bucket_write_sim _ _ b k e (with_loc LOC_MAIN e) (proj1 Hs1) Hb)
        as (t & Ht & Hs2 & _). cbn_rewrite Ht.
      apply usize_rel_bind; [auto with neo|]. intros sl. rewrite (rel_main_live _ _ Hrel).
      apply usize_rel_bind; [auto with neo|]. intros ml. constructor.
      apply (evict_rel_trans s _ _ _ (proj2 Hs1)).
      exact (set_live_rel _ _ _ sl ml (push_main_rel _ _ _ k Hs2)).
    + apply usize_rel_bind; [auto with neo|]. intros sl.
      destruct (bucket_remove_sim _ _ b k e (proj1 Hs1) Hb) as (t & i & Ht & Hs2).
      cbn_rewrite Ht. constructor. apply add_to_ghost_rel.
      apply (evict_rel_trans s _ _ _ (proj2 Hs1)). rewrite <-(rel_main_live _ _ Hrel).
      by apply (set_live_rel _ _ _ sl (main_live s)) in Hs2.
  - rewrite Hpop. apply (set_small_rel _ _ _ []) in Hs.
    eapply outcome_rel_mono; [apply evict_from_main_sim, Hs|].
    intros s' a'. apply evict_rel_trans, Hs.
Qed.

Lemma evict_one_sim s a :
  shard_rel s a → outcome_rel (evict_rel s) (evict_one s) (m_evict_one a).
Proof.
  intros Hrel. unfold evict_one, m_evict_one.
  rewrite (rel_small_live _ _ Hrel), (rel_small_cap _ _ Hrel).
  destruct (_ >=? _); [by apply evict_from_small_sim | by apply evict_from_main_sim].
Qed.

Lemma total_live_rel s a : shard_rel s a → total_live s = m_total_live a.
Proof.
  intros Hrel. unfold total_live, m_total_live.
  by rewrite (rel_small_live _ _ Hrel), (rel_main_live _ _ Hrel).
Qed.

Lemma make_room_loop_sim fuel s a :
  shard_rel s a → outcome_rel (evict_rel s) (make_room_loop fuel s) (m_room_loop fuel a).
Proof.
  revert s a. induction fuel as [|fuel IH]; intros s a Hrel; cbn; [constructor|].
  rewrite (rel_cap _ _ Hrel), (total_live_rel _ _ Hrel).
  pose proof (evict_rel_refl _ _ Hrel) as Hs.
  destruct (m_cap a >? 0); [|by constructor].
  apply usize_rel_bind; [apply usize_add_defined|]. intros tl.
  destruct (tl >=? m_cap a); [|by constructor].
  eapply outcome_rel_bind; [by apply evict_one_sim|]. intros s' a' _ Hs'.
  eapply outcome_rel_mono; [by apply IH, Hs'|]. intros s2 a2. apply evict_rel_trans, Hs'.
Qed.

Lemma room_fuel_rel s a : shard_rel s a → room_fuel s = m_room_fuel a.
Proof.
  intros Hrel. unfold room_fuel, m_room_fuel.
  by rewrite (repr_size _ _ (rel_map _ _ Hrel)), Nat2Z.id, (rel_small_keys _ _ Hrel).
Qed.

Lemma make_room_sim s a :
  shard_rel s a → outcome_rel (evict_rel s) (make_room s) (m_make_room a).
Proof.
  intros Hrel. unfold make_room, m_make_room. rewrite (room_fuel_rel _ _ Hrel).
  by apply make_room_loop_sim.
Qed.
End simulation.
