(* ===== verification/ShardSim.v ===== *)
(** * ShardSim: the operations on a locked shard simulate the model

    One simulation lemma per operation of ShardOps. Each one shows that the
    operation, started in a shard related to a model state, ends like the
    model operation: same outcome, same result, related states. *)

From stdpp Require Import base gmap list.
From S2P Require Import Prelude Machine RawTable Util Shard ShardOps ShardModel.

Open Scope Z_scope.

Section sim.
Context {K V : Type} `{Countable K} `{!BuildHasher K} `{!Target}.
Context `{!RawTable (K * CacheEntry V)} `{!RawTableSpec (K * CacheEntry V)}.
Implicit Types (s : ShardData K V) (a : Model K V) (k : K) (v : V).

(** [b] is the bucket of [k] in [s], holding [e]. *)
Definition at_bucket s (b : bucket) k (e : CacheEntry V) : Prop :=
  rt_view (smap s) !! b = Some (hash_one k, (k, e)).

Lemma at_bucket_model s a b k e : shard_rel s a → at_bucket s b k e → m_map a !! k = Some e.
Proof. intros Hrel Hb. by eapply repr_lookup; [apply Hrel|]. Qed.

Lemma shard_new_rel map_cap cap :
  shard_rel (shard_new map_cap cap : ShardData K V)
    (mkModel ∅ [] [] ∅ 0 0 cap (if cap =? 0 then 0 else Z.max (div_ceil cap 10) 1)
       (if cap =? 0 then 0 else cap)).
Proof.
  unfold shard_new. destruct (cap =? 0) eqn:Hz; constructor; cbn; unfold cap_main; rewrite ?Hz; auto using repr_empty.
Qed.

(** Operations that move the items but keep them. *)
Lemma rearrange_rel s a t :
  shard_rel s a → view_items (rt_view t) ≡ₚ view_items (rt_view (smap s)) →
  shard_rel (set_map t s) a.
Proof.
  intros [Hr] Hp. constructor; cbn; try done. unfold repr in *. by rewrite Hp.
Qed.

Lemma shard_clone_rel s a : shard_rel s a → shard_rel (shard_clone s) a.
Proof.
  intros [Hr]. constructor; cbn; try done. unfold repr in *. rewrite rt_clone_spec.
  rewrite (list_fmap_ext _ id), list_fmap_id by (by intros ? [? [? []]]). done.
Qed.

Lemma map_try_reserve_rel s a n s' :
  shard_rel s a → map_try_reserve n s = Some s' → shard_rel s' a.
Proof.
  intros Hrel. unfold map_try_reserve. intros (t & Ht & [= <-])%bind_Some.
  apply rearrange_rel; [done|]. eapply rt_try_reserve_spec; [|exact Ht].
  by eapply repr_hashed, Hrel.
Qed.

Lemma map_shrink_to_rel s a n : shard_rel s a → shard_rel (map_shrink_to n s) a.
Proof.
  intros Hrel. apply rearrange_rel; [done|]. apply rt_shrink_to_spec.
  by eapply repr_hashed, Hrel.
Qed.

Lemma find_or_slot_sim s a k t r :
  shard_rel s a →
  rt_find_or_find_insert_slot (smap s) (hash_one k) (key_eq k) key_hash = (t, r) →
  shard_rel (set_map t s) a ∧
  match r with
  | inl b => ∃ e, m_map a !! k = Some e ∧ at_bucket (set_map t s) b k e
  | inr i => m_map a !! k = None ∧ rt_slot_valid t (hash_one k) i
  end.
Proof.
  intros Hrel Hf. apply rt_find_or_find_insert_slot_spec in Hf as [Hp Hr];
    [|by eapply repr_hashed, Hrel].
  pose proof (rearrange_rel _ _ _ Hrel Hp) as Hrel'. split; [done|].
  destruct r as [b|i].
  - destruct Hr as (h & [k' e] & Hb & Heq%bool_decide_eq_true_1). cbn in Heq. subst k'.
    destruct (repr_lookup _ _ _ _ _ _ (rel_map _ _ Hrel') Hb) as [-> ?]. eauto.
  - destruct Hr as [Hnone Hi]. split; [|done].
    destruct (m_map a !! k) as [e|] eqn:Hk; [|done].
    destruct (proj2 (repr_elem _ _ (hash_one k) k e (rel_map _ _ Hrel'))) as [b Hb]; [done|].
    apply Hnone in Hb. by apply bool_decide_eq_false_1 in Hb.
Qed.

Lemma find_sim s a k :
  shard_rel s a →
  match m_map a !! k with
  | Some e => ∃ b, rt_find (smap s) (hash_one k) (key_eq k) = Some b ∧ at_bucket s b k e
  | None => rt_find (smap s) (hash_one k) (key_eq k) = None
  end.
Proof.
  intros Hrel. destruct (m_map a !! k) as [e|] eqn:Hk.
  - by apply (repr_find_Some _ _ _ _ (rel_map _ _ Hrel)).
  - by apply (repr_find_None _ _ _ _ (rel_map _ _ Hrel)).
Qed.

Lemma enqueue_sim l s a k :
  shard_rel s a →
  outcome_rel (λ s' a', shard_rel s' a' ∧ smap s' = smap s ∧ m_map a' = m_map a)
    (enqueue l (hash_one k) k s) (m_enqueue l k a).
Proof.
  intros Hrel%evict_rel_refl. unfold enqueue, m_enqueue. destruct (l =? LOC_MAIN).
  - apply (push_main_rel _ _ _ k) in Hrel as Hrel'.
    rewrite (rel_main_live _ _ (proj1 Hrel')). apply usize_rel_bind; [auto with neo|].
    intros ml. constructor. split; [|done].
    rewrite (rel_small_live _ _ (proj1 Hrel')). by apply (set_live_rel s).
  - apply (push_small_rel _ _ _ k) in Hrel as Hrel'.
    rewrite (rel_small_live _ _ (proj1 Hrel')). apply usize_rel_bind; [auto with neo|].
    intros sl. constructor. split; [|done].
    rewrite (rel_main_live _ _ (proj1 Hrel')). by apply (set_live_rel s).
Qed.

(** The three copies of the insertion of a new key agree. *)
Lemma room_copies fuel s : vacant_room fuel s = make_room_loop fuel s ∧ entry_room fuel s = make_room_loop fuel s.
Proof.
  revert s. induction fuel as [|fuel IH]; intros s; [done|]. cbn. destruct (_ >? _); [|done].
  destruct (total_live s) as [tl| | | | |]; [cbn|done..]. destruct (tl >=? shard_cap s); [|done].
  destruct (evict_one s) as [s'| | | | |]; [cbn; apply IH|done..].
Qed.

Lemma fill_copies k h i v s :
  vacant_fill k h i v s = insert_vacant k h i v s ∧ entry_fill k h i v s = insert_vacant k h i v s.
Proof.
  unfold vacant_fill, entry_fill, insert_vacant, make_room.
  set (s0 := set_ghost _ _). destruct (room_copies (room_fuel s0) s0) as [-> ->]. done.
Qed.

Lemma insert_vacant_sim s a k v i :
  shard_rel s a → m_map a !! k = None → rt_slot_valid (smap s) (hash_one k) i →
  outcome_rel
    (λ sb a', shard_rel sb.1 a' ∧ ∃ e, at_bucket sb.1 sb.2 k e ∧ value e = v)
    (insert_vacant k (hash_one k) i v s) (m_insert_vacant k v a).
Proof.
  intros Hrel Hk Hi. unfold insert_vacant, m_insert_vacant.
  rewrite (rel_ghost _ _ Hrel).
  set (l := if bool_decide _ then LOC_MAIN else LOC_SMALL).
  pose proof (set_ghost_rel _ _ _ (m_ghost a ∖ {[hash_one k]}) (evict_rel_refl _ _ Hrel))
    as [Hrel1 _].
  eapply outcome_rel_bind; [by apply make_room_sim|].
  intros s2 a2 Ha2 [Hrel2 Hs2].
  apply m_make_room_shrinks in Ha2. eapply shrinks_None in Ha2; [|exact Hk].
  destruct (rt_insert_in_slot_spec (smap s2) (hash_one k) i (k, entry_new v l))
    as (t & b & -> & Hb & Hv); [by apply Hs2|]. cbn.
  rewrite <-(outcome_bind_ret (m_enqueue _ _ _)).
  eapply outcome_rel_bind; [apply enqueue_sim|].
  - destruct Hrel2 as [Hr]. constructor; cbn; try done. by eapply repr_insert.
  - intros s3 a3 _ (Hrel3 & Hmap & _). constructor. split; [done|]. cbn.
    exists (entry_new v l). unfold at_bucket. rewrite Hmap. cbn. rewrite Hv.
    by rewrite lookup_insert_eq.
Qed.

Lemma shard_insert_sim s a k v :
  shard_rel s a →
  outcome_rel (λ x y, shard_rel x.1 y.1 ∧ x.2 = y.2) (shard_insert k v s) (m_insert k v a).
Proof.
  intros Hrel. unfold shard_insert, m_insert.
  destruct (rt_find_or_find_insert_slot _ _ _ _) as [t r] eqn:Hf.
  destruct (find_or_slot_sim _ _ _ _ _ Hrel Hf) as [Hrel1 Hr]. destruct r as [b|i].
  - destruct Hr as (e & -> & Hb). cbn_rewrite (repr_as_ref _ _ _ _ Hb).
    destruct (bucket_write_sim _ _ b k e (with_value v e) Hrel1 Hb) as (t2 & Ht2 & [Hrel2 _] & _).
    cbn_rewrite Ht2. by constructor.
  - destruct Hr as [Hk Hi]. rewrite Hk.
    eapply outcome_rel_bind; [by apply insert_vacant_sim|].
    intros [s2 b] a2 _ [Hrel2 _]. by constructor.
Qed.

(** Reading through a bucket. *)
Lemma bucket_pair_sim s b k e : at_bucket s b k e → bucket_pair b s ⇓ (k, value e).
Proof. intros Hb. unfold bucket_pair. by cbn_rewrite (repr_as_ref _ _ _ _ Hb). Qed.

Lemma bucket_set_sim s a b k e v :
  shard_rel s a → at_bucket s b k e →
  ∃ s', bucket_set b v s ⇓ s' ∧
    shard_rel s' (m_set_map (<[k := with_value v e]> (m_map a)) a) ∧
    at_bucket s' b k (with_value v e).
Proof.
  intros Hrel Hb. unfold bucket_set, shared_get_mut. cbn_rewrite (repr_as_ref _ _ _ _ Hb).
  destruct (bucket_write_sim _ _ _ _ _ (with_value v e) Hrel Hb) as (t & Ht & [Hrel' _] & Hv).
  cbn_rewrite Ht. exists (set_map t s). split_and!; [done|done|].
  unfold at_bucket. cbn. by rewrite Hv, lookup_insert_eq.
Qed.

Lemma uncount_rel l s a : shard_rel s a → shard_rel (uncount l s) (m_uncount l a).
Proof.
  intros Hrel. unfold uncount, m_uncount.
  rewrite (rel_small_live _ _ Hrel), (rel_main_live _ _ Hrel).
  destruct (l =? LOC_SMALL); by apply (set_live_rel s), evict_rel_refl.
Qed.

Lemma remove_bucket_sim s a b k e :
  shard_rel s a → at_bucket s b k e →
  ∃ s', remove_bucket b s ⇓ (s', (k, value e)) ∧ shard_rel s' (m_remove k a).
Proof.
  intros Hrel Hb. unfold remove_bucket, m_remove.
  rewrite (at_bucket_model _ _ _ _ _ Hrel Hb). cbn_rewrite (repr_as_ref _ _ _ _ Hb).
  destruct (bucket_remove_sim _ _ b k e Hrel Hb) as (t & i & Ht & Hrel2 & _).
  cbn_rewrite Ht. eexists. split; [done|]. by apply uncount_rel.
Qed.

Lemma shard_remove_sim s a k :
  shard_rel s a →
  ∃ s', shard_remove k s ⇓ (s', (λ e, (k, value e)) <$> (m_map a !! k)) ∧
        shard_rel s' (m_remove k a).
Proof.
  intros Hrel. unfold shard_remove. pose proof (find_sim _ _ k Hrel) as Hf.
  destruct (m_map a !! k) as [e|] eqn:Hk; cbn.
  - destruct Hf as (b & -> & Hb).
    destruct (remove_bucket_sim _ _ _ _ _ Hrel Hb) as (s' & -> & ?). by exists s'.
  - rewrite Hf. exists s. split; [done|]. unfold m_remove. by rewrite Hk.
Qed.

(** [_remove_if] and [_remove_if_mut] on the model. *)
Definition m_remove_if k (f : K → V → bool) a : Model K V * option (K * V) :=
  match m_map a !! k with
  | Some e => if f k (value e) then (m_remove k a, Some (k, value e)) else (a, None)
  | None => (a, None)
  end.

Lemma shard_remove_if_sim s a k f :
  shard_rel s a →
  ∃ s', shard_remove_if k f s ⇓ (s', (m_remove_if k f a).2) ∧
        shard_rel s' (m_remove_if k f a).1.
Proof.
  intros Hrel. unfold shard_remove_if, m_remove_if. pose proof (find_sim _ _ k Hrel) as Hf.
  destruct (m_map a !! k) as [e|] eqn:Hk; cbn.
  - destruct Hf as (b & -> & Hb). cbn_rewrite (repr_as_ref _ _ _ _ Hb).
    destruct (f k (value e)); [|by exists s].
    destruct (remove_bucket_sim _ _ _ _ _ Hrel Hb) as (s' & -> & ?). by exists s'.
  - rewrite Hf. by exists s.
Qed.

Definition m_remove_if_mut k (f : K → V → V * bool) a : Model K V * option (K * V) :=
  match m_map a !! k with
  | Some e =>
      let '(v', yes) := f k (value e) in
      let a := m_set_map (<[k := with_value v' e]> (m_map a)) a in
      if yes : bool then (m_remove k a, Some (k, v')) else (a, None)
  | None => (a, None)
  end.

Lemma shard_remove_if_mut_sim s a k f :
  shard_rel s a →
  ∃ s', shard_remove_if_mut k f s ⇓ (s', (m_remove_if_mut k f a).2) ∧
        shard_rel s' (m_remove_if_mut k f a).1.
Proof.
  intros Hrel. unfold shard_remove_if_mut, m_remove_if_mut.
  pose proof (find_sim _ _ k Hrel) as Hf.
  destruct (m_map a !! k) as [e|] eqn:Hk; cbn; [|rewrite Hf; by exists s].
  destruct Hf as (b & -> & Hb). cbn_rewrite (repr_as_ref _ _ _ _ Hb).
  destruct (f k (value e)) as [v' yes].
  destruct (bucket_write_sim _ _ _ _ _ (with_value v' e) Hrel Hb) as (t & Ht & [Hrel' _] & Hv).
  cbn_rewrite Ht.
  destruct yes; [|by eexists].
  destruct (remove_bucket_sim (set_map t s) _ b k (with_value v' e) Hrel') as (s' & -> & ?).
  - unfold at_bucket. cbn. by rewrite Hv, lookup_insert_eq.
  - by exists s'.
Qed.

(** [bump_freq] in a bucket. *)
Lemma bump_at_sim s a b k e :
  shard_rel s a → at_bucket s b k e →
  ∃ s', bump_at b s ⇓ s' ∧ shard_rel s' (m_set_map (<[k := bump_freq e]> (m_map a)) a) ∧
    at_bucket s' b k (bump_freq e) ∧
    rt_view (smap s') = <[b := (hash_one k, (k, bump_freq e))]> (rt_view (smap s)).
Proof.
  intros Hrel Hb. unfold bump_at, bump_freq. cbn_rewrite (repr_as_ref _ _ _ _ Hb).
  destruct (bump_closure (freq e)) as [f|].
  - destruct (bucket_write_sim _ _ _ _ _ (with_freq f e) Hrel Hb) as (t & Ht & [Hrel' _] & Hv).
    cbn_rewrite Ht. eexists. split_and!; [done|done| |done]. unfold at_bucket. cbn. by rewrite Hv, lookup_insert_eq.
  - exists s. split_and!; [done| |done|by rewrite insert_id].
    unfold m_set_map. rewrite insert_id by by apply (at_bucket_model _ _ _ _ _ Hrel Hb). by destruct a.
Qed.

(** [_get]: the returned bucket is the one of the key. *)
Lemma shard_get_sim s a k :
  shard_rel s a →
  ∃ s' r, shard_get k s ⇓ (s', r) ∧ shard_rel s' (m_get k a) ∧
    match m_map a !! k with
    | Some e => ∃ b, r = Some b ∧ at_bucket s' b k (bump_freq e)
    | None => r = None ∧ s' = s
    end.
Proof.
  intros Hrel. unfold shard_get, m_get, m_update. pose proof (find_sim _ _ k Hrel) as Hf.
  destruct (m_map a !! k) as [e|] eqn:Hk; [|rewrite Hf; by exists s, None].
  destruct Hf as (b & -> & Hb). destruct (bump_at_sim _ _ _ _ _ Hrel Hb) as (s' & -> & Hrel' & Hb' & _).
  exists s', (Some b). split_and!; [done|done|by exists b].
Qed.

(** [clear_all]. *)
Lemma erase_all_spec bs (t : table (K * CacheEntry V)) :
  NoDup bs → (∀ b, b ∈ bs → is_Some (rt_view t !! b)) →
  ∃ t', erase_all bs t ⇓ t' ∧
    ∀ b, rt_view t' !! b = if bool_decide (b ∈ bs) then None else rt_view t !! b.
Proof.
  revert t. induction bs as [|b bs IH]; intros t Hnd Hin.
  { exists t. split; [done|]. intros b. by rewrite bool_decide_eq_false_2 by set_solver. }
  apply NoDup_cons in Hnd as [Hb Hnd].
  destruct (Hin b) as [[h x] Hx]; [by left|]. cbn.
  destruct (rt_erase_spec _ _ _ _ Hx) as (t1 & -> & Hv). cbn.
  destruct (IH t1 Hnd) as (t' & -> & Ht').
  - intros b' Hb'. rewrite Hv, lookup_delete_ne by set_solver. apply Hin. by right.
  - exists t'. split; [done|]. intros b'. rewrite Ht', Hv.
    destruct (decide (b = b')) as [<-|Hne].
    + rewrite lookup_delete_eq, (bool_decide_eq_true_2 (b ∈ b :: bs)) by set_solver.
      by destruct (bool_decide _).
    + rewrite lookup_delete_ne by done. erewrite (bool_decide_ext _ (b' ∈ b :: bs)); [done|].
      rewrite elem_of_cons. split; [by right | by intros [-> | ?]].
Qed.

Lemma clear_all_sim s a :
  shard_rel s a → ∃ s', clear_all s ⇓ s' ∧ shard_rel s' (m_clear a).
Proof.
  intros Hrel. unfold clear_all. destruct (rt_iter_spec (smap s)) as [Hnd Hdom].
  destruct (erase_all_spec (rt_iter (smap s)) (smap s) Hnd) as (t & -> & Ht);
    [by intros b ?%Hdom|].
  eexists. split; [done|]. destruct Hrel. constructor; cbn; try done.
  unfold repr, view_items. replace (rt_view t) with (∅ : gmap nat (Z * (K * CacheEntry V)));
    [by rewrite !map_to_list_empty|].
  symmetry. apply map_eq. intros b. rewrite lookup_empty, Ht.
  case_bool_decide as Hb; [done|]. apply eq_None_not_Some. by rewrite <-Hdom.
Qed.

(** [_retain] visits the keys of the shard, each once, in some order. *)
Fixpoint m_retain {St} (f : St → K → V → St * (V * bool)) (st : St) (ks : list K) a :
    St * Model K V :=
  match ks with
  | [] => (st, a)
  | k :: ks' =>
      match m_map a !! k with
      | Some e =>
          let '(st, (v', keep)) := f st k (value e) in
          let a := m_set_map (<[k := with_value v' e]> (m_map a)) a in
          m_retain f st ks' (if negb keep then m_remove k a else a)
      | None => m_retain f st ks' a
      end
  end.

Definition bucket_of s (b : bucket) k : Prop := ∃ e, at_bucket s b k e.

Lemma retain_loop_sim {St} (f : St → K → V → St * (V * bool)) st bs ks s a :
  NoDup bs → Forall2 (bucket_of s) bs ks → shard_rel s a →
  ∃ s', retain_loop f st bs s ⇓ ((m_retain f st ks a).1, s') ∧
        shard_rel s' (m_retain f st ks a).2.
Proof.
  intros Hnd Hbs. revert st s a Hnd Hbs.
  induction bs as [|b bs IH] in ks |- *; intros st s a Hnd Hbs Hrel.
  { apply Forall2_nil_inv_l in Hbs as ->. by exists s. }
  apply NoDup_cons in Hnd as [Hb Hnd].
  apply Forall2_cons_inv_l in Hbs as (k & ks' & [e Hbk] & Hbs & ->). cbn [m_retain].
  rewrite (at_bucket_model _ _ _ _ _ Hrel Hbk). cbn [retain_loop].
  cbn_rewrite (repr_as_ref _ _ _ _ Hbk).
  destruct (f st k (value e)) as [st' [v' keep]].
  destruct (bucket_write_sim _ _ _ _ _ (with_value v' e) Hrel Hbk) as (t & Ht & [Hrel1 _] & Hv).
  cbn_rewrite Ht.
  assert (Hother : ∀ t2, (∀ b', b' ≠ b → rt_view t2 !! b' = rt_view (smap s) !! b') →
    ∀ s2, smap s2 = t2 → Forall2 (bucket_of s2) bs ks').
  { intros t2 Ht2 s2 Hs2. eapply Forall2_impl_in; [exact Hbs|].
    intros b' k' Hb' [e' He']. exists e'. unfold at_bucket in *. rewrite Hs2, Ht2; [done|].
    by intros ->. }
  destruct keep; cbn.
  - apply IH; [done| |done]. apply (Hother t); [|done].
    intros b' Hne. by rewrite Hv, lookup_insert_ne.
  - assert (Hb1 : rt_view t !! b = Some (hash_one k, (k, with_value v' e))).
    { by rewrite Hv, lookup_insert_eq. }
    destruct (rt_erase_spec _ _ _ _ Hb1) as (t2 & Ht2 & Hv2). cbn_rewrite Ht2.
    apply IH; [done| |].
    + apply (Hother t2); [|unfold uncount; by case_match].
      intros b' Hne. by rewrite Hv2, lookup_delete_ne, Hv, lookup_insert_ne.
    + unfold m_remove. cbn. rewrite lookup_insert_eq. cbn. apply uncount_rel.
      destruct Hrel1 as [Hr]. constructor; cbn; try done. by eapply repr_delete.
Qed.

Lemma iter_keys s a :
  shard_rel s a →
  ∃ ks, Forall2 (bucket_of s) (rt_iter (smap s)) ks ∧ ks ≡ₚ (map_to_list (m_map a)).*1.
Proof.
  intros Hrel. pose proof (repr_iter _ _ (rel_map _ _ Hrel)) as Hp.
  exists (omap (rt_as_ref (smap s)) (rt_iter (smap s))).*1. split; [|by rewrite Hp].
  destruct (rt_iter_spec (smap s)) as [_ Hdom].
  assert (Hall : ∀ b, b ∈ rt_iter (smap s) → is_Some (rt_view (smap s) !! b)) by (by intros b ?%Hdom).
  clear Hdom Hp. induction (rt_iter (smap s)) as [|b bs IH]; [constructor|].
  destruct (Hall b) as [[h [k e]] Hb]; [by left|].
  destruct (repr_lookup _ _ _ _ _ _ (rel_map _ _ Hrel) Hb) as [-> _].
  cbn. rewrite (repr_as_ref _ _ _ _ Hb). cbn. constructor; [by exists e|].
  apply IH. intros b' Hb'. apply Hall. by right.
Qed.

Lemma shard_retain_sim {St} (f : St → K → V → St * (V * bool)) st s a :
  shard_rel s a →
  ∃ ks s', ks ≡ₚ (map_to_list (m_map a)).*1 ∧
    shard_retain f st s ⇓ ((m_retain f st ks a).1, s') ∧
    shard_rel s' (m_retain f st ks a).2.
Proof.
  intros Hrel. destruct (iter_keys _ _ Hrel) as (ks & Hks & Hp).
  destruct (retain_loop_sim f st _ ks s a (proj1 (rt_iter_spec _)) Hks Hrel) as (s' & ? & ?).
  by exists ks, s'.
Qed.
End sim.
