(* ===== verification/Evict.v ===== *)
(** * Evict: eviction as a step relation

    Characterises one call of [evict_one] on the model by three kinds of step:
    promotion from small to main, eviction from small into the ghost set, and
    eviction from main after second chances. The invariants of the following
    files are proved by cases on these steps. *)

From stdpp Require Import base gmap list.
From S2P Require Import Prelude Machine RawTable Util Shard ShardModel.

Open Scope Z_scope.

Section lowered.
Context {K V : Type} `{Countable K}.
Implicit Types (m : gmap K (CacheEntry V)) (e : CacheEntry V) (k : K).

(** The entry after some second chances. *)
Definition lower_entry e e' : Prop :=
  value e' = value e ∧ loc e' = loc e ∧ 0 ≤ freq e' ≤ freq e.

Definition lowered m m' : Prop := ∀ k, option_Forall2 lower_entry (m !! k) (m' !! k).

Definition freqs_ok m : Prop := map_Forall (λ _ e, 0 ≤ freq e) m.

Lemma lower_entry_trans e1 e2 e3 : lower_entry e1 e2 → lower_entry e2 e3 → lower_entry e1 e3.
Proof. unfold lower_entry. intros (? & ? & ?) (? & ? & ?). split_and!; try congruence; lia. Qed.

Lemma lowered_refl m : freqs_ok m → lowered m m.
Proof.
  intros Hm k. destruct (m !! k) as [e|] eqn:Hk; constructor.
  specialize (Hm _ _ Hk). cbn in Hm. by split_and!; try lia.
Qed.

Lemma lowered_trans m1 m2 m3 : lowered m1 m2 → lowered m2 m3 → lowered m1 m3.
Proof.
  intros H12 H23 k. specialize (H12 k). specialize (H23 k).
  destruct H12; inversion H23; subst; constructor. by eapply lower_entry_trans.
Qed.

Lemma lowered_insert m k e e' :
  freqs_ok m → m !! k = Some e → lower_entry e e' → lowered m (<[k := e']> m).
Proof.
  intros Hm Hk He k'. destruct (decide (k = k')) as [<-|].
  - rewrite lookup_insert_eq, Hk. by constructor.
  - rewrite lookup_insert_ne by done. by apply lowered_refl.
Qed.

Lemma lowered_freqs_ok m m' : lowered m m' → freqs_ok m'.
Proof.
  intros Hl k e He. specialize (Hl k). rewrite He in Hl. inversion Hl as [? ? Hle|]; subst.
  apply Hle.
Qed.

Lemma lowered_is_Some m m' k : lowered m m' → is_Some (m' !! k) ↔ is_Some (m !! k).
Proof. intros Hl. specialize (Hl k). destruct Hl; split; intros [? ?]; eauto; done. Qed.

Lemma lowered_None m m' k : lowered m m' → m' !! k = None ↔ m !! k = None.
Proof. intros Hl. rewrite !eq_None_not_Some. by rewrite (lowered_is_Some m m'). Qed.

Lemma lowered_size m m' : lowered m m' → size m' = size m.
Proof.
  intros Hl. rewrite <-!size_dom. f_equal. apply set_eq. intros k.
  rewrite !elem_of_dom. by apply lowered_is_Some.
Qed.

Lemma lowered_lookup m m' k e' :
  lowered m m' → m' !! k = Some e' → ∃ e, m !! k = Some e ∧ lower_entry e e'.
Proof.
  intros Hl Hk. specialize (Hl k). rewrite Hk in Hl. inversion Hl; subst. eauto.
Qed.

(** The sum of the frequencies, which bounds the second-chance loop. *)
Lemma m_freqs_delete m k e :
  m !! k = Some e → m_freqs m = (Z.to_nat (freq e) + m_freqs (delete k m))%nat.
Proof. intros Hk. unfold m_freqs. by rewrite <-(map_to_list_delete m k e Hk). Qed.

Lemma m_freqs_insert m k e :
  m_freqs (<[k := e]> m) = (Z.to_nat (freq e) + m_freqs (delete k m))%nat.
Proof.
  rewrite (m_freqs_delete _ k e) by apply lookup_insert_eq.
  by rewrite delete_insert_eq.
Qed.
End lowered.

Section count_loc.
Context {K V : Type} `{Countable K}.
Implicit Types (m : gmap K (CacheEntry V)) (k : K) (e : CacheEntry V).

(** The number of entries at a location. *)
Definition count_loc (l : Z) m : Z :=
  Z.of_nat (size (filter (λ x : K * CacheEntry V, loc x.2 = l) m)).

Definition one_if (l : Z) e : Z := if decide (loc e = l) then 1 else 0.

Lemma one_if_spec l e : one_if l e = if loc e =? l then 1 else 0.
Proof. unfold one_if. destruct (decide _), (Z.eqb_spec (loc e) l); done. Qed.

Lemma count_loc_insert l m k e :
  m !! k = None → count_loc l (<[k := e]> m) = one_if l e + count_loc l m.
Proof.
  intros Hk. unfold count_loc, one_if. destruct (decide (loc e = l)) as [Hl|Hl].
  - rewrite map_filter_insert_True by done.
    rewrite map_size_insert_None; [lia|]. by apply map_lookup_filter_None_2; left.
  - rewrite map_filter_insert_False by done. by rewrite delete_id.
Qed.

Lemma count_loc_delete l m k e :
  m !! k = Some e → count_loc l m = one_if l e + count_loc l (delete k m).
Proof.
  intros Hk. rewrite <-(count_loc_insert l (delete k m) k e) by apply lookup_delete_eq.
  by rewrite insert_delete_eq, insert_id.
Qed.

Lemma count_loc_replace l m k e e' :
  m !! k = Some e → count_loc l (<[k := e']> m) = count_loc l m - one_if l e + one_if l e'.
Proof.
  intros Hk. rewrite <-insert_delete_eq, count_loc_insert by apply lookup_delete_eq.
  rewrite (count_loc_delete l m k e Hk). lia.
Qed.

Lemma count_loc_nonneg l m : 0 ≤ count_loc l m.
Proof. unfold count_loc. lia. Qed.

Lemma count_loc_le l m : count_loc l m ≤ Z.of_nat (size m).
Proof.
  unfold count_loc. apply Nat2Z.inj_le, map_subseteq_size, map_filter_subseteq.
Qed.

Lemma count_loc_pos l m k e : m !! k = Some e → loc e = l → 1 ≤ count_loc l m.
Proof.
  intros Hk Hl. rewrite (count_loc_delete l m k e Hk). unfold one_if.
  rewrite decide_True by done. pose proof (count_loc_nonneg l (delete k m)). lia.
Qed.

Lemma count_loc_zero l m : (∀ k e, m !! k = Some e → loc e ≠ l) → count_loc l m = 0.
Proof.
  intros Hm. unfold count_loc. replace (filter _ m) with (∅ : gmap K (CacheEntry V));
    [by rewrite map_size_empty|].
  symmetry. apply map_empty. intros k. apply map_lookup_filter_None. right. intros e.
  apply Hm.
Qed.

Lemma count_loc_nonzero l m : count_loc l m ≠ 0 → ∃ k e, m !! k = Some e ∧ loc e = l.
Proof.
  unfold count_loc. intros Hne.
  destruct (map_choose (filter (λ x : K * CacheEntry V, loc x.2 = l) m)) as (k & e & Hk).
  - intros E. rewrite E, map_size_empty in Hne. done.
  - apply map_lookup_filter_Some in Hk as [Hk Hl]. eauto.
Qed.

Lemma count_loc_lowered l m m' : lowered m m' → count_loc l m' = count_loc l m.
Proof.
  intros Hl. unfold count_loc. f_equal. rewrite <-!size_dom. f_equal. apply set_eq. intros k.
  rewrite !elem_of_dom. unfold is_Some. setoid_rewrite map_lookup_filter_Some.
  specialize (Hl k). destruct Hl as [e e' (_ & Hloc & _) | ].
  - cbn. split; intros (? & [= <-] & ?); eexists; split; eauto; congruence.
  - split; by intros (? & ? & _).
Qed.

Lemma count_loc_split m :
  map_Forall (λ _ e, entry_ok e) m →
  count_loc LOC_SMALL m + count_loc LOC_MAIN m = Z.of_nat (size m).
Proof.
  induction m as [|k e m Hk IH] using map_ind; intros Hm.
  - by rewrite !count_loc_zero by (intros ? ? ?; simplify_map_eq).
  - rewrite !count_loc_insert, map_size_insert_None by done.
    apply map_Forall_insert in Hm as [[_ He] Hm]; [|done]. specialize (IH Hm).
    rewrite !one_if_spec. destruct He as [-> | ->]; cbn; lia.
Qed.
End count_loc.

Section evict.
Context {K V : Type} `{Countable K} `{!BuildHasher K} `{!Target}.
Implicit Types (a : Model K V) (m : gmap K (CacheEntry V)) (k : K) (ks : list K).

(** How the second-chance loop ends: [k] is the first live key of the main
    queue whose frequency has come down to zero; the keys before it were
    dead, or got their second chance and were queued again. *)
Definition main_victim a k (e : CacheEntry V) m1 ks : Prop :=
  lowered (m_map a) m1 ∧ m1 !! k = Some e ∧ freq e = 0 ∧
  ∃ dead, m_main a ≡ₚ dead ++ k :: ks ∧ Forall (λ k', m_map a !! k' = None) dead.

(** The second-chance sweep itself, on the entries and the main queue: stale
    keys are dropped, a key with a positive frequency pays one for another
    round, and the first key at frequency zero is the victim. *)
Inductive sweep : gmap K (CacheEntry V) → list K → gmap K (CacheEntry V) → list K → K → Prop :=
| sweep_stale m m' k q q' victim :
    m !! k = None → sweep m q m' q' victim → sweep m (k :: q) m' q' victim
| sweep_spared m m' k e q q' victim :
    m !! k = Some e → 0 < freq e →
    sweep (<[k := with_freq (freq e - 1) e]> m) (q ++ [k]) m' q' victim →
    sweep m (k :: q) m' q' victim
| sweep_victim m k e q :
    m !! k = Some e → freq e = 0 → sweep m (k :: q) (delete k m) q k.

Lemma sweep_skip m pre q m' q' victim :
  Forall (λ k, m !! k = None) pre → sweep m q m' q' victim → sweep m (pre ++ q) m' q' victim.
Proof. intros Hpre Hs. induction Hpre as [|k pre Hk _ IH]; [done|]. by apply sweep_stale. Qed.

Definition evict_main_result a k m1 ks : outcome (Model K V) :=
  ml ← usize_sub (m_main_live a) 1;
  Ret (m_set_live (m_small_live a) ml (m_set_main ks (m_set_map (delete k m1) a))).

Lemma m_evict_main_loop_cases fuel a :
  freqs_ok (m_map a) → (m_freqs (m_map a) < fuel)%nat →
  (m_evict_main_loop fuel a ⇓ m_set_main [] a ∧ ∀ k, k ∈ m_main a → m_map a !! k = None) ∨
  ∃ k e m1 ks, main_victim a k e m1 ks ∧ sweep (m_map a) (m_main a) (delete k m1) ks k ∧
    m_evict_main_loop fuel a = evict_main_result a k m1 ks.
Proof.
  revert a. induction fuel as [|fuel IH]; intros a Hok Hfuel; [lia|]. cbn.
  destruct (m_pop (m_map a) (m_main a)) as [[[k e] ks]|] eqn:Hp.
  2:{ left. split; [done|]. intros k. by apply m_pop_None. }
  right. apply m_pop_Some in Hp as (Hk & pre & Hq & Hpre).
  pose proof (Hok _ _ Hk) as He. cbn in He. destruct (Z.gtb_spec (freq e) 0) as [Hpos|Hz].
  - set (a1 := m_set_main _ _).
    assert (Hl : lowered (m_map a) (m_map a1)).
    { cbn. apply (lowered_insert _ _ e); [done..|]. split_and!; [done..|cbn; lia|cbn; lia]. }
    destruct (IH a1) as [[_ Hdead] | (k' & e' & m1 & ks' & Hv & Hsw & Hres)].
    + by eapply lowered_freqs_ok.
    + cbn. rewrite m_freqs_insert. rewrite (m_freqs_delete _ k e Hk) in Hfuel. cbn. lia.
    + specialize (Hdead k). cbn in Hdead. rewrite lookup_insert_eq in Hdead.
      discriminate Hdead. apply elem_of_app. right. by left.
    + exists k', e', m1, ks'. split; [|split; [|exact Hres]].
      2:{ rewrite Hq. apply sweep_skip; [done|]. by eapply sweep_spared. }
      destruct Hv as (Hl1 & Hk' & He' & dead & Hperm & Hdead).
      split; [by eapply lowered_trans|]. split; [done|]. split; [done|].
      exists (pre ++ dead). rewrite Hq, <-app_assoc. cbn in Hperm.
      rewrite <-Hperm, <-Permutation_cons_append. split; [done|].
      apply Forall_app. split; [done|]. eapply Forall_impl; [exact Hdead|].
      intros k2 Hk2. by apply (lowered_None _ _ k2 Hl).
  - exists k, e, (m_map a), ks. split; [|split; [|done]].
    2:{ rewrite Hq. apply sweep_skip; [done|]. apply (sweep_victim _ _ e); [done|lia]. }
    split; [by apply lowered_refl|]. split; [done|]. split; [lia|].
    exists pre. by rewrite Hq.
Qed.

Lemma m_evict_main_cases a :
  freqs_ok (m_map a) →
  (m_evict_main a ⇓ m_set_main [] a ∧ ∀ k, k ∈ m_main a → m_map a !! k = None) ∨
  ∃ k e m1 ks, main_victim a k e m1 ks ∧ sweep (m_map a) (m_main a) (delete k m1) ks k ∧
    m_evict_main a = evict_main_result a k m1 ks.
Proof. intros Hok. apply m_evict_main_loop_cases; [done | lia]. Qed.

(** The small queue an [evict_from_main] call leaves: untouched when it was
    called directly, swept empty when [evict_from_small] fell through. *)
Definition small_after a ks : Prop :=
  (m_small_live a < m_small_cap a ∧ ks = m_small a) ∨
  (m_small_cap a ≤ m_small_live a ∧ m_pop (m_map a) (m_small a) = None ∧ ks = []).

Inductive evict_step a : Model K V → Prop :=
| evict_promote k e ks :
    m_small_cap a ≤ m_small_live a →
    m_pop (m_map a) (m_small a) = Some (k, e, ks) → 0 < freq e →
    evict_step a
      (m_set_live (m_small_live a - 1) (m_main_live a + 1)
         (m_set_main (m_main a ++ [k])
            (m_set_map (<[k := with_loc LOC_MAIN e]> (m_map a)) (m_set_small ks a))))
| evict_small_dead k e ks :
    m_small_cap a ≤ m_small_live a →
    m_pop (m_map a) (m_small a) = Some (k, e, ks) → freq e = 0 →
    evict_step a
      (m_add_ghost (hash_one k)
         (m_set_live (m_small_live a - 1) (m_main_live a)
            (m_set_map (delete k (m_map a)) (m_set_small ks a))))
| evict_main_dead k e m1 ks small' :
    small_after a small' → main_victim a k e m1 ks →
    sweep (m_map a) (m_main a) (delete k m1) ks k →
    evict_step a
      (m_set_live (m_small_live a) (m_main_live a - 1)
         (m_set_main ks (m_set_map (delete k m1) (m_set_small small' a)))).

Lemma m_pop_live m ks k e : m !! k = Some e → k ∈ ks → m_pop m ks ≠ None.
Proof. intros Hk Hin Hp. eapply m_pop_None in Hp; [|exact Hin]. congruence. Qed.

(** A sweep of a main queue with a live key evicts one. *)
Lemma m_evict_main_step a small' k0 e0 :
  freqs_ok (m_map a) → small_after a small' → 1 ≤ m_main_live a →
  m_map a !! k0 = Some e0 → k0 ∈ m_main a →
  ∃ a', m_evict_main (m_set_small small' a) ⇓ a' ∧ evict_step a a'.
Proof.
  intros Hok Hsm Hml Hk0 Hin.
  destruct (m_evict_main_cases (m_set_small small' a)) as
    [[_ Hdead] | (k & e & m1 & ks & Hv & Hsw & ->)]; [done| |].
  - specialize (Hdead k0 Hin). cbn in Hdead. congruence.
  - unfold evict_main_result. cbn. rewrite usize_sub_small by done. eexists.
    split; [done|]. exact (evict_main_dead a k e m1 ks small' Hsm Hv Hsw).
Qed.

(** A call of [evict_one] that finds a counted live key evicts or promotes. *)
Lemma m_evict_one_step a :
  freqs_ok (m_map a) → 1 ≤ m_small_cap a → m_main_live a + 1 < usize_mod →
  (m_small_live a < m_small_cap a ∨ m_pop (m_map a) (m_small a) = None →
     1 ≤ m_main_live a ∧ ∃ k e, m_map a !! k = Some e ∧ k ∈ m_main a) →
  ∃ a', m_evict_one a ⇓ a' ∧ evict_step a a'.
Proof.
  intros Hok Hsc Hmod Hmain. unfold m_evict_one.
  destruct (Z.geb_spec (m_small_live a) (m_small_cap a)) as [Hge|Hlt].
  2:{ destruct Hmain as (Hml & k & e & Hk & Hin); [by left|].
      destruct (m_evict_main_step a (m_small a) k e) as (a' & Ha' & ?); auto; [by left|].
      replace (m_set_small (m_small a) a) with a in Ha' by (by destruct a). eauto. }
  unfold m_evict_small. destruct (m_pop (m_map a) (m_small a)) as [[[k e] ks]|] eqn:Hp.
  2:{ destruct Hmain as (Hml & k & e & Hk & Hin); [by right|].
      eapply m_evict_main_step; eauto. by right. }
  pose proof (proj1 (m_pop_Some _ _ _ _ _ Hp)) as Hk. pose proof (Hok _ _ Hk) as He. cbn in He.
  cbn. rewrite usize_sub_small by lia. destruct (Z.gtb_spec (freq e) 0); cbn.
  - rewrite usize_add_small by lia. eexists. split; [done|]. by apply (evict_promote a k e ks).
  - eexists. split; [done|]. apply (evict_small_dead a k e ks); [done..|lia].
Qed.

Definition queued a : list K := m_small a ++ m_main a.

(** Steps only move keys between the queues, or drop them. *)
Lemma evict_step_queue a a' k : evict_step a a' → k ∈ queued a' → k ∈ queued a.
Proof.
  unfold queued. destruct 1 as [k0 e ks _ Hp _ | k0 e ks _ Hp _ | k0 e m1 ks small' Hsm Hv];
    cbn; rewrite ?elem_of_app, ?list_elem_of_singleton.
  - apply m_pop_Some in Hp as (_ & pre & -> & _). rewrite elem_of_app, elem_of_cons. tauto.
  - apply m_pop_Some in Hp as (_ & pre & -> & _). rewrite elem_of_app, elem_of_cons. tauto.
  - destruct Hv as (_ & _ & _ & dead & -> & _). rewrite elem_of_app, elem_of_cons.
    destruct Hsm as [[_ ->] | (_ & _ & ->)]; rewrite ?elem_of_nil; tauto.
Qed.
End evict.
