(* ===== verification/Safety.v ===== *)
(** * Safety: the invariant every history of a shard keeps

    [inv] holds of a new shard and is kept by every operation, whatever the
    order of insertions and removals. Removed keys may stay queued and may be
    inserted again, so the live counters can overestimate the entries
    ([drift]); the invariant bounds that error: a full shard still has a live,
    counted entry, and the main counter overestimates the entries of main by
    at most [shard_cap - small_cap]. This is enough for every eviction to find
    a victim without an arithmetic overflow, so every insertion returns. *)

From stdpp Require Import base gmap list.
From S2P Require Import Prelude Machine RawTable Util Shard ShardModel ShardSim Evict.

Open Scope Z_scope.

Section safety.
Context {K V : Type} `{Countable K} `{!BuildHasher K} `{!Target}.
Implicit Types (a : Model K V) (m : gmap K (CacheEntry V)) (k : K) (ks : list K).

(** The value of [total_live()], the number of entries, and by how much the
    former exceeds the latter. *)
Definition live a : Z := m_small_live a + m_main_live a.
Definition count a : Z := Z.of_nat (size (m_map a)).
Definition drift a : Z := live a - count a.

(** The capacity of the small queue of a shard of capacity [cap]. *)
Definition cap_small (cap : Z) : Z := if cap =? 0 then 0 else Z.max (div_ceil cap 10) 1.

Record caps_ok a : Prop := {
  caps_range : is_usize (m_cap a);
  caps_small : m_small_cap a = cap_small (m_cap a);
  caps_ghost : m_ghost_cap a = m_cap a
}.

(** An entry that is counted where its location says. *)
Definition counted a (e : CacheEntry V) : Prop :=
  (loc e = LOC_SMALL ∧ 1 ≤ m_small_live a) ∨ (loc e = LOC_MAIN ∧ 1 ≤ m_main_live a).

Record inv a : Prop := {
  inv_entries : map_Forall (λ _ e, entry_ok e) (m_map a);
  inv_small_queue k e : m_map a !! k = Some e → loc e = LOC_SMALL → k ∈ m_small a;
  inv_main_queue k e : m_map a !! k = Some e → loc e = LOC_MAIN → k ∈ m_main a;
  inv_small_live : 0 ≤ m_small_live a;
  inv_main_live : 0 ≤ m_main_live a;
  inv_drift : 0 ≤ drift a;
  inv_range : live a < usize_mod;
  inv_caps : caps_ok a;
  inv_ghost : Z.of_nat (size (m_ghost a)) ≤ m_ghost_cap a;
  inv_unbounded : m_cap a = 0 →
    m_small_live a = count a ∧ m_main_live a = 0 ∧ count_loc LOC_MAIN (m_map a) = 0;
  inv_bound : 0 < m_cap a → live a ≤ m_cap a;
  inv_witness : 0 < m_cap a → live a = m_cap a →
    ∃ k e, m_map a !! k = Some e ∧ counted a e;
  inv_phantom : 0 < m_cap a →
    m_main_live a - count_loc LOC_MAIN (m_map a) ≤ m_cap a - m_small_cap a;
  inv_ghost_hashes h : h ∈ m_ghost a → 0 ≤ h < 2 ^ 64
}.

Lemma cap_small_bounds cap : 0 < cap → 1 ≤ cap_small cap ≤ cap.
Proof.
  intros Hcap. unfold cap_small. destruct (Z.eqb_spec cap 0); [lia|].
  pose proof (div_ceil_spec cap 10). lia.
Qed.

Lemma inv_small_cap a : inv a → 0 < m_cap a → 1 ≤ m_small_cap a ≤ m_cap a.
Proof.
  intros Hi Hcap. rewrite (caps_small _ (inv_caps _ Hi)). by apply cap_small_bounds.
Qed.

Lemma inv_freqs a : inv a → freqs_ok (m_map a).
Proof. intros Hi k e He. by apply (inv_entries _ Hi) in He as [[? _] _]. Qed.

Lemma inv_entry k e a : inv a → m_map a !! k = Some e → entry_ok e.
Proof. intros Hi Hk. by apply (inv_entries _ Hi) in Hk. Qed.

Lemma inv_queued k e a : inv a → m_map a !! k = Some e → k ∈ queued a.
Proof.
  intros Hi Hk. unfold queued. apply elem_of_app.
  destruct (inv_entry _ _ _ Hi Hk) as [_ [?|?]]; [left|right];
    [by eapply inv_small_queue | by eapply inv_main_queue].
Qed.

Lemma inv_cap_nonneg a : inv a → 0 ≤ m_cap a < usize_mod.
Proof. intros Hi. apply (caps_range _ (inv_caps _ Hi)). Qed.

Lemma count_loc_empty l : count_loc l (∅ : gmap K (CacheEntry V)) = 0.
Proof. apply count_loc_zero. intros ? ? ?; simplify_map_eq. Qed.

Lemma inv_new cap : is_usize cap → inv (mkModel ∅ [] [] ∅ 0 0 cap (cap_small cap) cap).
Proof.
  intros Hcap. pose proof usize_mod_pos. unfold is_usize in Hcap.
  constructor; [|intros ? ? ?; simplify_map_eq|intros ? ? ?; simplify_map_eq|..];
    unfold drift, live, count; cbn [m_map m_small_live m_main_live m_cap m_small_cap m_ghost m_ghost_cap];
    rewrite ?map_size_empty, ?count_loc_empty, ?size_empty; try lia; [done|done| |set_solver].
  intros Hpos. pose proof (cap_small_bounds cap Hpos). lia.
Qed.

(** ** Eviction *)

Lemma size_delete_Some m k e :
  m !! k = Some e → Z.of_nat (size (delete k m)) = Z.of_nat (size m) - 1.
Proof.
  intros Hk. rewrite map_size_delete, Hk. cbn.
  destruct (size m) eqn:Hs; [|lia]. apply map_size_empty_inv in Hs. by subst m.
Qed.

Lemma count_pos a k e : m_map a !! k = Some e → 1 ≤ count a.
Proof. intros Hk%size_delete_Some. unfold count. lia. Qed.

(** A full shard always has a victim: either the small queue is swept and
    holds a live key, or the main queue holds a live key. *)
Lemma full_has_victim a :
  inv a → 0 < m_cap a → live a = m_cap a →
  m_small_live a < m_small_cap a ∨ m_pop (m_map a) (m_small a) = None →
  1 ≤ m_main_live a ∧ ∃ k e, m_map a !! k = Some e ∧ k ∈ m_main a.
Proof.
  intros Hi Hcap Hfull [Hlt|Hnone].
  - pose proof (inv_phantom _ Hi Hcap) as Hph. pose proof (inv_small_cap _ Hi Hcap).
    unfold live in Hfull. split; [lia|].
    destruct (decide (count_loc LOC_MAIN (m_map a) = 0)) as [?|Hc]; [lia|].
    destruct (count_loc_nonzero _ _ Hc) as (k & e & Hk & Hl).
    exists k, e. split; [done|]. by eapply inv_main_queue.
  - destruct (inv_witness _ Hi Hcap Hfull) as (k & e & Hk & [[Hl ?] | [Hl ?]]).
    + apply (m_pop_live _ _ _ _ Hk) in Hnone; [done|]. by eapply inv_small_queue.
    + split; [done|]. exists k, e. split; [done|]. by eapply inv_main_queue.
Qed.

Lemma full_evict_one a :
  inv a → 0 < m_cap a → live a = m_cap a → ∃ a', m_evict_one a ⇓ a' ∧ evict_step a a'.
Proof.
  intros Hi Hcap Hfull. pose proof (inv_small_cap _ Hi Hcap) as Hsc.
  destruct (Z.lt_ge_cases (m_main_live a + 1) usize_mod) as [Hlt|Hge].
  - apply m_evict_one_step; [by apply inv_freqs|lia|done|]. by apply full_has_victim.
  - pose proof (inv_cap_nonneg _ Hi). pose proof (inv_small_live _ Hi). unfold live in Hfull.
    (* the main counter alone fills the shard: only main is swept *)
    unfold m_evict_one. destruct (Z.geb_spec (m_small_live a) (m_small_cap a)); [lia|].
    destruct (full_has_victim _ Hi Hcap Hfull) as (Hml & k & e & Hk & Hin); [by left|].
    destruct (m_evict_main_step a (m_small a) k e) as (a' & Ha' & ?);
      auto using inv_freqs; [by left|].
    replace (m_set_small (m_small a) a) with a in Ha' by (by destruct a). eauto.
Qed.

(** The keys a sweep leaves in the small queue. *)
Lemma m_pop_rest m ks k e ks' k' e' :
  m_pop m ks = Some (k, e, ks') → m !! k' = Some e' → k' ≠ k → k' ∈ ks → k' ∈ ks'.
Proof.
  intros (_ & pre & -> & Hpre)%m_pop_Some Hk' Hne.
  intros [Hin | [->|Hin]%elem_of_cons]%elem_of_app; [|done|done].
  rewrite Forall_forall in Hpre. apply Hpre in Hin. congruence.
Qed.

Lemma main_victim_rest a k e m1 ks k' e' :
  main_victim a k e m1 ks → m_map a !! k' = Some e' → k' ≠ k → k' ∈ m_main a → k' ∈ ks.
Proof.
  intros (_ & _ & _ & dead & Hperm & Hdead) Hk' Hne Hin. rewrite Hperm in Hin.
  apply elem_of_app in Hin as [Hin | [->|Hin]%elem_of_cons]; [|done|done].
  rewrite Forall_forall in Hdead. apply Hdead in Hin. congruence.
Qed.

Lemma small_after_queued a small' k e :
  small_after a small' → m_map a !! k = Some e → k ∈ m_small a → k ∈ small'.
Proof.
  intros [[_ ->] | (_ & Hp & ->)] Hk Hin; [done|].
  by apply (m_pop_live _ _ _ _ Hk Hin) in Hp.
Qed.

Lemma m_add_ghost_size h a :
  0 < m_ghost_cap a → Z.of_nat (size (m_ghost a)) ≤ m_ghost_cap a →
  Z.of_nat (size (m_ghost (m_add_ghost h a))) ≤ m_ghost_cap a.
Proof.
  intros Hpos Hle. cbn. destruct (Z.geb_spec (Z.of_nat (size (m_ghost a))) (m_ghost_cap a)).
  - rewrite union_empty_r_L, size_singleton. lia.
  - pose proof (size_union_alt ({[h]} : gset Z) (m_ghost a)) as ->.
    rewrite size_singleton.
    assert (size (m_ghost a ∖ {[h]}) ≤ size (m_ghost a))%nat; [|lia].
    apply subseteq_size, subseteq_difference_l. done.
Qed.

Lemma lowered_entries m m' :
  lowered m m' → map_Forall (λ _ e, entry_ok e) m → map_Forall (λ _ e, entry_ok e) m'.
Proof.
  intros Hl Hm k e' He'. destruct (lowered_lookup _ _ _ _ Hl He') as (e & He & Hle).
  apply Hm in He as [[? ?] ?]. destruct Hle as (_ & Hloc & ? & ?).
  split; [lia | by rewrite Hloc].
Qed.

(** What every step does to the counters and to the measure of the loop. *)
Definition loop_measure a : nat := (size (m_map a) + length (m_small a))%nat.

Record evict_effect a a' : Prop := {
  effect_inv : inv a';
  effect_drift : drift a' = drift a;
  effect_cap : m_cap a' = m_cap a;
  effect_measure : (loop_measure a' < loop_measure a)%nat
}.

Lemma m_pop_length m ks k e ks' : m_pop m ks = Some (k, e, ks') → (length ks' < length ks)%nat.
Proof. intros (_ & pre & -> & _)%m_pop_Some. rewrite length_app. cbn. lia. Qed.

Lemma small_after_length a ks : small_after a ks → (length ks ≤ length (m_small a))%nat.
Proof. intros [[_ ->] | (_ & _ & ->)]; cbn; lia. Qed.

(** Unfolds the statistics of a model built by field updates. *)
Ltac stats :=
  unfold drift, live, count, loop_measure, counted, m_set_live, m_set_main, m_set_map, m_set_small,
    m_add_ghost, m_set_ghost in *;
  cbn [m_map m_small m_main m_ghost m_small_live m_main_live m_cap m_small_cap m_ghost_cap] in *.

Lemma promote_effect a k e ks :
  inv a → 0 < m_cap a → live a = m_cap a → m_small_cap a ≤ m_small_live a →
  m_pop (m_map a) (m_small a) = Some (k, e, ks) →
  evict_effect a
    (m_set_live (m_small_live a - 1) (m_main_live a + 1)
       (m_set_main (m_main a ++ [k])
          (m_set_map (<[k := with_loc LOC_MAIN e]> (m_map a)) (m_set_small ks a)))).
Proof.
  intros Hi Hcap Hfull Hge Hp. pose proof (proj1 (m_pop_Some _ _ _ _ _ Hp)) as Hk.
  pose proof (m_pop_length _ _ _ _ _ Hp). pose proof (inv_small_cap _ Hi Hcap).
  pose proof (inv_drift _ Hi). pose proof (inv_range _ Hi). pose proof (inv_main_live _ Hi).
  assert (Hsz : size (<[k := with_loc LOC_MAIN e]> (m_map a)) = size (m_map a))
    by (apply map_size_insert_Some; eauto).
  assert (Hi' : inv (m_set_live (m_small_live a - 1) (m_main_live a + 1)
       (m_set_main (m_main a ++ [k])
          (m_set_map (<[k := with_loc LOC_MAIN e]> (m_map a)) (m_set_small ks a))))).
  2:{ constructor; [done|stats; rewrite ?Hsz; lia..]. }
  constructor; stats; rewrite ?Hsz; try lia.
  - apply map_Forall_insert_2; [|apply Hi]. apply with_loc_ok; auto with neo. by eapply inv_entry.
  - intros k' e' [[<- <-] | [Hne Hk']]%lookup_insert_Some Hl; [done|].
    eapply m_pop_rest; [done..|]. by eapply inv_small_queue.
  - intros k' e' [[<- <-] | [Hne Hk']]%lookup_insert_Some Hl; apply elem_of_app;
      [right; by left | left; by eapply inv_main_queue].
  - by destruct (inv_caps _ Hi).
  - apply Hi.
  - intros _ _. exists k, (with_loc LOC_MAIN e). split; [apply lookup_insert_eq|].
    right. split; [done|lia].
  - intros _. rewrite (count_loc_replace _ _ _ _ _ Hk), !one_if_spec.
    pose proof (inv_phantom _ Hi Hcap). cbn [loc with_loc]. rewrite Z.eqb_refl.
    destruct (Z.eqb_spec (loc e) LOC_MAIN) as [Hl|]; [|lia].
    pose proof (count_loc_pos _ _ _ _ Hk Hl). lia.
  - apply Hi.
Qed.

Lemma ghosted_effect a k e ks :
  inv a → 0 < m_cap a → live a = m_cap a → m_small_cap a ≤ m_small_live a →
  m_pop (m_map a) (m_small a) = Some (k, e, ks) →
  evict_effect a
    (m_add_ghost (hash_one k)
       (m_set_live (m_small_live a - 1) (m_main_live a)
          (m_set_map (delete k (m_map a)) (m_set_small ks a)))).
Proof.
  intros Hi Hcap Hfull Hge Hp. pose proof (proj1 (m_pop_Some _ _ _ _ _ Hp)) as Hk.
  pose proof (m_pop_length _ _ _ _ _ Hp). pose proof (inv_small_cap _ Hi Hcap).
  pose proof (inv_drift _ Hi). pose proof (inv_range _ Hi). pose proof (inv_main_live _ Hi).
  pose proof (size_delete_Some _ _ _ Hk) as Hsz.
  set (a1 := m_set_live _ _ _).
  assert (Hg : Z.of_nat (size (m_ghost (m_add_ghost (hash_one k) a1))) ≤ m_ghost_cap a).
  { apply (m_add_ghost_size (hash_one k) a1); [|apply Hi].
    cbn. rewrite (caps_ghost _ (inv_caps _ Hi)). done. }
  assert (Hi' : inv (m_add_ghost (hash_one k) a1)).
  2:{ constructor; [done|subst a1; stats; lia..]. }
  constructor; [..|exact Hg|idtac|idtac|idtac|idtac|idtac]; clear Hg; subst a1; stats; try lia.
  - apply map_Forall_delete, Hi.
  - intros k' e' [Hne Hk']%lookup_delete_Some Hl. eapply m_pop_rest; [done..|].
    by eapply inv_small_queue.
  - intros k' e' [Hne Hk']%lookup_delete_Some Hl. by eapply inv_main_queue.
  - by destruct (inv_caps _ Hi).
  - intros _. pose proof (inv_phantom _ Hi Hcap).
    pose proof (count_loc_delete LOC_MAIN _ _ _ Hk) as Hc. rewrite one_if_spec in Hc.
    destruct (Z.eqb_spec (loc e) LOC_MAIN) as [Hl|]; [|lia].
    pose proof (count_loc_pos _ _ _ _ Hk Hl). lia.
  - intros h [->%elem_of_singleton | Hh]%elem_of_union; [apply hash_one_u64|].
    destruct (_ >=? _); [by apply elem_of_empty in Hh|by apply (inv_ghost_hashes _ Hi)].
Qed.

Lemma main_effect a k e m1 ks small' :
  inv a → 0 < m_cap a → live a = m_cap a → 1 ≤ m_main_live a →
  small_after a small' → main_victim a k e m1 ks →
  evict_effect a
    (m_set_live (m_small_live a) (m_main_live a - 1)
       (m_set_main ks (m_set_map (delete k m1) (m_set_small small' a)))).
Proof.
  intros Hi Hcap Hfull Hpos Hsm Hv. pose proof Hv as (Hlow & Hk & _ & _).
  pose proof (small_after_length _ _ Hsm). pose proof (inv_small_live _ Hi).
  pose proof (inv_drift _ Hi). pose proof (inv_range _ Hi).
  pose proof (size_delete_Some _ _ _ Hk) as Hsz. rewrite (lowered_size _ _ Hlow) in Hsz.
  set (a1 := m_set_live _ _ _). assert (Hi' : inv a1).
  2:{ constructor; [done|subst a1; stats; lia..]. }
  assert (Hold : ∀ k' e', m1 !! k' = Some e' → ∃ e0, m_map a !! k' = Some e0 ∧ loc e0 = loc e').
  { intros k' e' Hk'. destruct (lowered_lookup _ _ _ _ Hlow Hk') as (e0 & ? & _ & ? & _). eauto. }
  subst a1. constructor; stats; try lia.
  - apply map_Forall_delete. eapply lowered_entries, Hi. done.
  - intros k' e' [Hne (e0 & Hk0 & Hl0)%Hold]%lookup_delete_Some Hl.
    eapply small_after_queued; [done..|]. eapply inv_small_queue; [done..|congruence].
  - intros k' e' [Hne (e0 & Hk0 & Hl0)%Hold]%lookup_delete_Some Hl.
    eapply main_victim_rest; [done..|]. eapply inv_main_queue; [done..|congruence].
  - by destruct (inv_caps _ Hi).
  - apply Hi.
  - intros _. pose proof (inv_phantom _ Hi Hcap).
    pose proof (count_loc_delete LOC_MAIN _ _ _ Hk) as Hc.
    rewrite one_if_spec, (count_loc_lowered _ _ _ Hlow) in Hc.
    destruct (loc e =? LOC_MAIN); lia.
  - apply Hi.
Qed.

Lemma evict_step_effect a a' :
  inv a → 0 < m_cap a → live a = m_cap a → evict_step a a' → evict_effect a a'.
Proof.
  intros Hi Hcap Hfull [k e ks Hge Hp _ | k e ks Hge Hp _ | k e m1 ks small' Hsm Hv].
  - by apply promote_effect.
  - by apply (ghosted_effect _ _ e).
  - apply (main_effect _ _ e); try done. apply full_has_victim; [done..|].
    destruct Hsm as [[? _] | (_ & ? & _)]; auto.
Qed.

(** ** The eviction loop *)

Lemma m_total_live_live a : inv a → m_total_live a ⇓ live a.
Proof. intros Hi. apply usize_add_small, Hi. Qed.

(** The loop runs on a full shard only. *)
Definition full a : Prop := 0 < m_cap a ∧ live a = m_cap a.

(** A turn of the loop: an eviction step of a full shard. *)
Definition full_step a a' : Prop := inv a ∧ full a ∧ evict_step a a'.

Record room_made a a' : Prop := {
  room_inv : inv a';
  room_drift : drift a' = drift a;
  room_cap : m_cap a' = m_cap a;
  room_left : 0 < m_cap a → live a' < m_cap a;
  room_steps : rtc full_step a a';
  room_tight : ¬ full a → a' = a;
  room_evicts : full a → live a' = m_cap a - 1
}.

Lemma evict_step_live a a' : evict_step a a' → live a' = live a ∨ live a' = live a - 1.
Proof. intros []; stats; lia. Qed.

(** The loop returns whenever its fuel exceeds the measure. *)
Lemma m_room_loop_returns fuel a :
  inv a → (loop_measure a < fuel)%nat → ∃ a', m_room_loop fuel a ⇓ a' ∧ room_made a a'.
Proof.
  revert a. induction fuel as [|fuel IH]; intros a Hi Hfuel; [lia|]. cbn.
  destruct (Z.gtb_spec (m_cap a) 0) as [Hcap|Hz].
  2:{ exists a. split; [done|]. constructor; try done; unfold full; lia. }
  rewrite (m_total_live_live _ Hi). cbn. pose proof (inv_bound _ Hi Hcap) as Hb.
  destruct (Z.geb_spec (live a) (m_cap a)) as [Hge|Hlt].
  2:{ exists a. split; [done|]. constructor; try done; unfold full; lia. }
  assert (Hfull : live a = m_cap a) by lia.
  destruct (full_evict_one _ Hi Hcap Hfull) as (a1 & -> & Hstep). cbn.
  destruct (evict_step_effect _ _ Hi Hcap Hfull Hstep) as [Hi1 Hd1 Hc1 Hm1].
  destruct (IH a1 Hi1) as (a2 & -> & Hr); [lia|]. exists a2. split; [done|].
  destruct Hr as [Hi2 Hd2 Hc2 Hl2 Hs2 Ht2 He2].
  constructor; [done|congruence|congruence|rewrite Hc1 in Hl2; done| | |].
  - econstructor; [|exact Hs2]. done.
  - intros Hnf. by destruct Hnf.
  - intros _. rewrite <-Hc1. unfold full in Ht2, He2.
    destruct (evict_step_live _ _ Hstep) as [Hl|Hl]; [apply He2; lia | rewrite Ht2; lia].
Qed.

Lemma evict_step_shrinks a a' : evict_step a a' → shrinks (m_map a) (m_map a').
Proof.
  intros [k e ks _ Hp _ | k e ks _ Hp _ | k e m1 ks small' _ Hv]; cbn.
  - apply m_pop_Some in Hp as [Hk _]. by eapply shrinks_meta.
  - apply shrinks_delete.
  - intros k' e' [_ Hk']%lookup_delete_Some. destruct Hv as [Hl _].
    destruct (lowered_lookup _ _ _ _ Hl Hk') as (e0 & ? & ? & _). eauto.
Qed.

Lemma room_shrinks a a' : room_made a a' → shrinks (m_map a) (m_map a').
Proof.
  intros Hr. pose proof (room_steps _ _ Hr) as Hs. clear Hr.
  induction Hs as [|a a1 a2 (_ & _ & Hstep) _ IH]; [apply shrinks_refl|].
  eapply shrinks_trans; [by apply evict_step_shrinks | done].
Qed.

Lemma m_make_room_returns a : inv a → ∃ a', m_make_room a ⇓ a' ∧ room_made a a'.
Proof.
  intros Hi. apply m_room_loop_returns; [done|]. unfold loop_measure, m_room_fuel. lia.
Qed.

(** Nothing is evicted while there is room. *)
Lemma m_make_room_idle a : live a < usize_mod → (0 < m_cap a → live a < m_cap a) → m_make_room a ⇓ a.
Proof.
  intros Hmod Hroom. unfold m_make_room, m_room_fuel. rewrite Nat.add_comm. cbn.
  unfold m_total_live. rewrite usize_add_small by done. fold (live a). cbn.
  destruct (Z.gtb_spec (m_cap a) 0); [|done].
  destruct (Z.geb_spec (live a) (m_cap a)); [lia|done].
Qed.

(** ** The other operations keep the invariant *)

(** Replacing an entry by one at the same location. *)
Lemma inv_replace k e e' a :
  inv a → m_map a !! k = Some e → entry_ok e' → loc e' = loc e →
  inv (m_set_map (<[k := e']> (m_map a)) a).
Proof.
  intros Hi Hk He' Hl.
  assert (Hsz : size (<[k := e']> (m_map a)) = size (m_map a))
    by (apply map_size_insert_Some; eauto).
  assert (Hcl : ∀ l, count_loc l (<[k := e']> (m_map a)) = count_loc l (m_map a)).
  { intros l. rewrite (count_loc_replace _ _ _ _ _ Hk), !one_if_spec, Hl. lia. }
  constructor; stats; rewrite ?Hsz, ?Hcl; try apply Hi.
  - apply map_Forall_insert_2; [done | apply Hi].
  - intros k' e2 [[<- <-] | [_ Hk']]%lookup_insert_Some Hl'; [|by eapply inv_small_queue].
    eapply inv_small_queue; [done..|congruence].
  - intros k' e2 [[<- <-] | [_ Hk']]%lookup_insert_Some Hl'; [|by eapply inv_main_queue].
    eapply inv_main_queue; [done..|congruence].
  - by destruct (inv_caps _ Hi).
  - intros Hc Hf. destruct (inv_witness _ Hi Hc Hf) as (k0 & e0 & Hk0 & Hw).
    destruct (decide (k = k0)) as [<-|].
    + exists k, e'. rewrite lookup_insert_eq. split; [done|]. rewrite Hl.
      replace e with e0 by congruence. exact Hw.
    + exists k0, e0. by rewrite lookup_insert_ne.
Qed.

Lemma inv_get k a : inv a → inv (m_get k a).
Proof.
  intros Hi. unfold m_get, m_update. destruct (m_map a !! k) as [e|] eqn:Hk; [|done].
  eapply inv_replace; [done..| |apply bump_freq_loc]. eauto using inv_entry with neo.
Qed.

(** The counters after an explicit removal. *)
Lemma m_uncount_live l a :
  0 ≤ m_small_live a → 0 ≤ m_main_live a →
  let a' := m_uncount l a in
  0 ≤ m_small_live a' ∧ 0 ≤ m_main_live a' ∧
  (m_small_live a' = m_small_live a ∧ m_main_live a' = m_main_live a ∧
     (l = LOC_SMALL → m_small_live a = 0) ∧ (l ≠ LOC_SMALL → m_main_live a = 0) ∨
   l = LOC_SMALL ∧ m_small_live a' = m_small_live a - 1 ∧ m_main_live a' = m_main_live a ∨
   l ≠ LOC_SMALL ∧ m_small_live a' = m_small_live a ∧ m_main_live a' = m_main_live a - 1).
Proof.
  intros Hs Hm. unfold m_uncount, saturating_sub.
  destruct (Z.eqb_spec l LOC_SMALL); cbn; lia.
Qed.

Lemma m_uncount_fields l a :
  m_map (m_uncount l a) = m_map a ∧ m_small (m_uncount l a) = m_small a ∧
  m_main (m_uncount l a) = m_main a ∧ m_ghost (m_uncount l a) = m_ghost a ∧
  m_cap (m_uncount l a) = m_cap a ∧ m_small_cap (m_uncount l a) = m_small_cap a ∧
  m_ghost_cap (m_uncount l a) = m_ghost_cap a.
Proof. unfold m_uncount. by destruct (_ =? _). Qed.

Lemma inv_remove_entry k e a :
  inv a → m_map a !! k = Some e →
  let a' := m_uncount (loc e) (m_set_map (delete k (m_map a)) a) in
  inv a' ∧ drift a ≤ drift a'.
Proof.
  intros Hi Hk a'. subst a'. set (a1 := m_set_map (delete k (m_map a)) a).
  pose proof (size_delete_Some _ _ _ Hk) as Hsz. pose proof (inv_drift _ Hi) as Hd.
  destruct (inv_entry _ _ _ Hi Hk) as [_ Hloc].
  pose proof (count_loc_delete LOC_MAIN _ _ _ Hk) as Hcm. rewrite one_if_spec in Hcm.
  pose proof (count_loc_nonneg LOC_MAIN (delete k (m_map a))).
  destruct (m_uncount_live (loc e) a1) as (Hs0 & Hm0 & Hlive); [apply Hi..|].
  destruct (m_uncount_fields (loc e) a1) as (Em & Es & Ema & Eg & Ec & Esc & Egc).
  unfold a1 in Em, Es, Ema, Eg, Ec, Esc, Egc, Hlive. stats. fold a1 in Em, Es, Ema, Eg, Ec, Esc, Egc, Hlive.
  pose proof (inv_range _ Hi) as Hr. pose proof (inv_bound _ Hi) as Hb.
  pose proof (inv_phantom _ Hi) as Hph. pose proof (inv_unbounded _ Hi) as Hu.
  pose proof (inv_small_cap _ Hi) as Hsc.
  unfold drift, live, count in *. rewrite Em.
  split; [|lia]. constructor; unfold drift, live, count, counted; rewrite ?Em, ?Es, ?Ema, ?Eg, ?Ec, ?Esc, ?Egc.
  - apply map_Forall_delete, Hi.
  - intros k' e' [_ ?]%lookup_delete_Some ?. by eapply inv_small_queue.
  - intros k' e' [_ ?]%lookup_delete_Some ?. by eapply inv_main_queue.
  - done.
  - done.
  - lia.
  - lia.
  - destruct (inv_caps _ Hi). by constructor; rewrite ?Ec, ?Esc, ?Egc.
  - apply Hi.
  - intros Hz. destruct (Hu Hz) as (? & ? & ?).
    destruct (Z.eqb_spec (loc e) LOC_MAIN); [lia|]. destruct Hloc; [|done]. lia.
  - lia.
  - intros Hc Hf. destruct (inv_witness _ Hi Hc) as (k0 & e0 & Hk0 & Hw); [unfold live; lia|].
    unfold counted in Hw. exists k0, e0. rewrite lookup_delete_ne.
    + split; [done|]. lia.
    + intros <-. assert (e0 = e) as -> by congruence. unfold LOC_SMALL, LOC_MAIN in *. lia.
  - intros Hc. specialize (Hph Hc). destruct (Z.eqb_spec (loc e) LOC_MAIN) as [E|E].
    + unfold LOC_SMALL, LOC_MAIN in *. lia.
    + destruct Hloc; [|done]. lia.
  - apply Hi.
Qed.

Lemma inv_remove k a : inv a → inv (m_remove k a) ∧ drift a ≤ drift (m_remove k a).
Proof.
  intros Hi. unfold m_remove. destruct (m_map a !! k) as [e|] eqn:Hk; [|done].
  by apply inv_remove_entry.
Qed.

Lemma inv_clear a : inv a → inv (m_clear a).
Proof.
  intros Hi. destruct (inv_caps _ Hi) as [Hr Hsc Hg].
  pose proof (inv_new (m_cap a) Hr) as Hn. rewrite <-Hsc in Hn.
  unfold m_clear, m_set_live, m_set_ghost, m_set_main, m_set_small, m_set_map. cbn.
  by rewrite Hg.
Qed.

Lemma inv_set_value k e v a :
  inv a → m_map a !! k = Some e → inv (m_set_map (<[k := with_value v e]> (m_map a)) a).
Proof. intros Hi Hk. eapply inv_replace; [done..| |done]. by eapply with_value_ok, inv_entry. Qed.

Lemma inv_retain {St} (f : St → K → V → St * (V * bool)) st ks a :
  inv a → inv (m_retain f st ks a).2.
Proof.
  revert st a. induction ks as [|k ks IH]; intros st a Hi; [done|]. cbn.
  destruct (m_map a !! k) as [e|] eqn:Hk; [|by apply IH].
  destruct (f st k (value e)) as [st' [v' keep]]. apply IH.
  pose proof (inv_set_value _ _ v' _ Hi Hk). destruct keep; [done|]. by apply inv_remove.
Qed.

(** ** Insertion *)

(** An unbounded shard can count one more entry. *)
Definition has_headroom a : Prop := m_cap a = 0 → live a + 1 < usize_mod.

Definition ghost_loc k a : Z :=
  if bool_decide (hash_one k ∈ m_ghost a) then LOC_MAIN else LOC_SMALL.

Definition without_ghost k a : Model K V := m_set_ghost (m_ghost a ∖ {[hash_one k]}) a.

(** The state after a new entry is stored and registered. *)
Definition enqueued l k v a : Model K V :=
  let a := m_set_map (<[k := entry_new v l]> (m_map a)) a in
  if l =? LOC_MAIN then
    m_set_live (m_small_live a) (m_main_live a + 1) (m_set_main (m_main a ++ [k]) a)
  else m_set_live (m_small_live a + 1) (m_main_live a) (m_set_small (m_small a ++ [k]) a).

Lemma m_enqueue_returns l k v a :
  inv a → live a + 1 < usize_mod →
  m_enqueue l k (m_set_map (<[k := entry_new v l]> (m_map a)) a) ⇓ enqueued l k v a.
Proof.
  intros Hi Hmod. pose proof (inv_small_live _ Hi). pose proof (inv_main_live _ Hi).
  unfold live, m_enqueue, enqueued in *. destruct (l =? LOC_MAIN);
    cbn; by rewrite usize_add_small by lia.
Qed.

Lemma inv_enqueued l k v a :
  inv a → m_map a !! k = None → l = LOC_SMALL ∨ l = LOC_MAIN →
  (m_cap a = 0 → l = LOC_SMALL) → live a + 1 < usize_mod → (0 < m_cap a → live a < m_cap a) →
  inv (enqueued l k v a) ∧ drift (enqueued l k v a) = drift a.
Proof.
  intros Hi Hk Hl Hlz Hmod Hroom.
  assert (Hsz : Z.of_nat (size (<[k := entry_new v l]> (m_map a))) = count a + 1).
  { unfold count. rewrite map_size_insert_None by done. lia. }
  assert (Hent : map_Forall (λ _ e, entry_ok e) (<[k := entry_new v l]> (m_map a))).
  { apply map_Forall_insert_2; [by apply entry_new_ok | apply Hi]. }
  pose proof (count_loc_insert LOC_MAIN (m_map a) k (entry_new v l) Hk) as Hcm.
  rewrite one_if_spec in Hcm. cbn [loc entry_new] in Hcm.
  pose proof (inv_small_live _ Hi). pose proof (inv_main_live _ Hi).
  pose proof (inv_drift _ Hi) as Hd. pose proof (inv_bound _ Hi) as Hb.
  pose proof (inv_phantom _ Hi) as Hph. pose proof (inv_unbounded _ Hi) as Hu.
  pose proof (inv_caps _ Hi) as [].
  assert (Hlk : <[k := entry_new v l]> (m_map a) !! k = Some (entry_new v l))
    by apply lookup_insert_eq.
  unfold enqueued. destruct (Z.eqb_spec l LOC_MAIN) as [->|Hne].
  - split; [|stats; lia]. constructor; stats; rewrite ?Hsz; try lia; try done; try apply Hi.
    + intros k' e' [[<- <-] | [_ ?]]%lookup_insert_Some Hl'; [done|]. by eapply inv_small_queue.
    + intros k' e' [[<- <-] | [_ ?]]%lookup_insert_Some Hl'; apply elem_of_app;
        [right; by left | left; by eapply inv_main_queue].
    + intros Hz. by specialize (Hlz Hz).
    + intros _ _. eexists _, _. split; [exact Hlk|]. right. split; [done|lia].
  - destruct Hl as [->|]; [|done].
    split; [|stats; lia]. constructor; stats; rewrite ?Hsz; try lia; try done; try apply Hi.
    + intros k' e' [[<- <-] | [_ ?]]%lookup_insert_Some Hl'; apply elem_of_app;
        [right; by left | left; by eapply inv_small_queue].
    + intros k' e' [[<- <-] | [_ ?]]%lookup_insert_Some Hl'; [done|]. by eapply inv_main_queue.
    + intros _ _. eexists _, _. split; [exact Hlk|]. left. split; [done|lia].
Qed.

Lemma inv_without_ghost k a : inv a → inv (without_ghost k a).
Proof.
  intros Hi. constructor; try apply Hi; [by destruct (inv_caps _ Hi)|..].
  - cbn. etrans; [|apply (inv_ghost _ Hi)]. apply Nat2Z.inj_le, subseteq_size, subseteq_difference_l. done.
  - cbn. intros h [Hh _]%elem_of_difference. by apply (inv_ghost_hashes _ Hi).
Qed.

Lemma ghost_loc_cases k a : ghost_loc k a = LOC_SMALL ∨ ghost_loc k a = LOC_MAIN.
Proof. unfold ghost_loc. destruct (bool_decide _); auto. Qed.

(** Inserting a new key always returns: the loop makes room, and the entry is
    stored and queued where the ghost set says. *)
Lemma m_insert_vacant_returns k v a :
  inv a → m_map a !! k = None → has_headroom a →
  ∃ a1, room_made (without_ghost k a) a1 ∧ m_map a1 !! k = None ∧
    m_insert_vacant k v a ⇓ enqueued (ghost_loc k a) k v a1 ∧
    inv (enqueued (ghost_loc k a) k v a1) ∧
    drift (enqueued (ghost_loc k a) k v a1) = drift a ∧
    m_make_room (without_ghost k a) ⇓ a1.
Proof.
  intros Hi Hk Hhead. pose proof (inv_without_ghost k a Hi) as Hi0.
  destruct (m_make_room_returns _ Hi0) as (a1 & Ha1 & Hr).
  assert (Hk1 : m_map a1 !! k = None)
    by (eapply shrinks_None; [by apply room_shrinks | done]).
  pose proof (room_inv _ _ Hr) as Hi1. pose proof (room_cap _ _ Hr) as Hc1. cbn in Hc1.
  pose proof (inv_cap_nonneg _ Hi) as Hcap.
  assert (Hmod : live a1 + 1 < usize_mod).
  { destruct (decide (m_cap a = 0)) as [Hz|Hnz].
    - specialize (Hhead Hz). pose proof (room_drift _ _ Hr) as Hd. change (drift a1 = drift a) in Hd.
      destruct (inv_unbounded _ Hi Hz) as (? & ? & _).
      destruct (inv_unbounded _ Hi1) as (? & ? & _); [congruence|].
      pose proof (shrinks_count _ _ (room_shrinks _ _ Hr)) as Hsh. cbn in Hsh.
      unfold live, count in *. lia.
    - pose proof (room_left _ _ Hr) as Hl. cbn in Hl. lia. }
  destruct (inv_enqueued (ghost_loc k a) k v a1 Hi1 Hk1) as [Hi2 Hd2].
  - apply ghost_loc_cases.
  - rewrite Hc1. intros Hz. pose proof (inv_ghost _ Hi) as Hg.
    rewrite (caps_ghost _ (inv_caps _ Hi)), Hz in Hg. unfold ghost_loc.
    rewrite bool_decide_eq_false_2; [done|]. intros Hin.
    assert (size (m_ghost a) = 0)%nat as E by lia. apply size_empty_inv in E.
    by apply E, not_elem_of_empty in Hin.
  - done.
  - rewrite Hc1. intros Hpos. apply (room_left _ _ Hr). done.
  - exists a1. split_and!; try done.
    + unfold m_insert_vacant. fold (ghost_loc k a). fold (without_ghost k a). rewrite Ha1.
      by apply m_enqueue_returns.
    + rewrite Hd2. by apply (room_drift _ _ Hr).
Qed.

Lemma inv_drift_bound a : inv a → 0 < m_cap a → drift a < m_cap a.
Proof.
  intros Hi Hcap. pose proof (inv_bound _ Hi Hcap). unfold drift, count.
  destruct (Z.eq_dec (live a) (m_cap a)) as [Hf|]; [|lia].
  destruct (inv_witness _ Hi Hcap Hf) as (k & e & Hk & _).
  apply count_pos in Hk. unfold count in Hk. lia.
Qed.
End safety.
