(* ===== verification/Exact.v ===== *)
(** * Exact: shards whose queues hold every key at most once

    [exact] strengthens the invariant of Safety: no key is queued twice and the
    live counters are exact. It is kept by every operation except inserting a
    key while an old occurrence of it is still queued, that is after an
    explicit removal. *)

From stdpp Require Import base gmap list.
From S2P Require Import Prelude Machine RawTable Util Shard ShardModel ShardSim Evict Safety.

Open Scope Z_scope.

Section exact.
Context {K V : Type} `{Countable K} `{!BuildHasher K} `{!Target}.
Implicit Types (a : Model K V) (m : gmap K (CacheEntry V)) (k : K) (ks : list K).

Record exact a : Prop := {
  exact_nodup : NoDup (queued a);
  exact_small_live : m_small_live a = count_loc LOC_SMALL (m_map a);
  exact_main_live : m_main_live a = count_loc LOC_MAIN (m_map a)
}.

Lemma exact_drift a : inv a → exact a → drift a = 0.
Proof.
  intros Hi He. pose proof (count_loc_split _ (inv_entries _ Hi)) as Hsum.
  unfold drift, live, count. rewrite (exact_small_live _ He), (exact_main_live _ He). lia.
Qed.

(** A key queued in small is not at location main, and vice versa. *)
Lemma exact_loc_small a k e :
  inv a → exact a → m_map a !! k = Some e → k ∈ m_small a → loc e = LOC_SMALL.
Proof.
  intros Hi He Hk Hin. destruct (inv_entry _ _ _ Hi Hk) as [_ [?|Hl]]; [done|].
  pose proof (inv_main_queue _ Hi _ _ Hk Hl).
  pose proof (exact_nodup _ He) as (_ & Hdis & _)%NoDup_app. by destruct (Hdis k).
Qed.

Lemma exact_loc_main a k e :
  inv a → exact a → m_map a !! k = Some e → k ∈ m_main a → loc e = LOC_MAIN.
Proof.
  intros Hi He Hk Hin. destruct (inv_entry _ _ _ Hi Hk) as [_ [Hl|?]]; [|done].
  pose proof (inv_small_queue _ Hi _ _ Hk Hl).
  pose proof (exact_nodup _ He) as (_ & Hdis & _)%NoDup_app. by destruct (Hdis k).
Qed.

Lemma exact_pop_small a k e ks :
  inv a → exact a → m_pop (m_map a) (m_small a) = Some (k, e, ks) →
  m_map a !! k = Some e ∧ loc e = LOC_SMALL ∧ NoDup (k :: ks ++ m_main a).
Proof.
  intros Hi He Hp. apply m_pop_Some in Hp as (Hk & pre & Hq & Hpre).
  split_and!; [done| |].
  - apply (exact_loc_small a k); [done..|]. rewrite Hq. apply elem_of_app. right. by left.
  - pose proof (exact_nodup _ He) as Hnd. unfold queued in Hnd. rewrite Hq, <-app_assoc in Hnd.
    by apply NoDup_app in Hnd as (_ & _ & Hnd).
Qed.

Lemma exact_main_victim a k e m1 ks :
  inv a → exact a → main_victim a k e m1 ks →
  loc e = LOC_MAIN ∧ NoDup (m_small a ++ ks).
Proof.
  intros Hi He (Hl & Hk & Hf & dead & Hperm & Hdead).
  destruct (lowered_lookup _ _ _ _ Hl Hk) as (e0 & Hk0 & _ & Hloc & _). split.
  - rewrite Hloc. apply (exact_loc_main a k); [done..|]. rewrite Hperm.
    apply elem_of_app. right. by left.
  - pose proof (exact_nodup _ He) as Hnd. unfold queued in Hnd. rewrite Hperm in Hnd.
    apply NoDup_app in Hnd as (? & Hdis & (_ & _ & [_ ?]%NoDup_cons)%NoDup_app).
    apply NoDup_app. split_and!; [done| |done]. intros k' Hk' Hin. apply (Hdis k' Hk').
    apply elem_of_app. right. by right.
Qed.

Lemma small_after_NoDup a small' ks :
  small_after a small' → NoDup (m_small a ++ ks) → NoDup (small' ++ ks).
Proof.
  intros [[_ ->] | (_ & _ & ->)] Hnd; [done|]. by apply NoDup_app in Hnd as (_ & _ & ?).
Qed.

Lemma evict_step_exact a a' : inv a → exact a → evict_step a a' → exact a'.
Proof.
  intros Hi He [k e ks _ Hp _ | k e ks _ Hp _ | k e m1 ks small' Hsm Hv].
  - destruct (exact_pop_small _ _ _ _ Hi He Hp) as (Hk & Hl & Hnd).
    constructor; cbn; rewrite ?(count_loc_replace _ _ _ _ _ Hk), ?one_if_spec, ?Hl; cbn.
    + unfold queued. cbn. by rewrite app_assoc, <-Permutation_cons_append.
    + rewrite (exact_small_live _ He). lia.
    + rewrite (exact_main_live _ He). lia.
  - destruct (exact_pop_small _ _ _ _ Hi He Hp) as (Hk & Hl & [_ Hnd]%NoDup_cons).
    pose proof (count_loc_delete LOC_SMALL _ _ _ Hk) as Hcs.
    pose proof (count_loc_delete LOC_MAIN _ _ _ Hk) as Hcm.
    rewrite one_if_spec, Hl in Hcs, Hcm. cbn in Hcs, Hcm.
    destruct He as [_ Hes Hem]. constructor; cbn; [done|lia|lia].
  - destruct (exact_main_victim _ _ _ _ _ Hi He Hv) as (Hl & Hnd).
    destruct Hv as (Hlow & Hk & _ & _).
    pose proof (count_loc_delete LOC_SMALL _ _ _ Hk) as Hcs.
    pose proof (count_loc_delete LOC_MAIN _ _ _ Hk) as Hcm.
    rewrite one_if_spec, Hl, (count_loc_lowered LOC_SMALL _ _ Hlow) in Hcs.
    rewrite one_if_spec, Hl, (count_loc_lowered LOC_MAIN _ _ Hlow) in Hcm. cbn in Hcs, Hcm.
    destruct He as [_ Hes Hem]. constructor; cbn; [|lia|lia].
    by eapply small_after_NoDup.
Qed.

(** Along the whole eviction loop. *)
Lemma full_steps_exact a a' : exact a → rtc full_step a a' → exact a'.
Proof.
  intros He Hsteps. revert He. induction Hsteps as [|a a1 a2 (Hi & _ & Hstep) _ IH]; [done|].
  intros He. by eapply IH, evict_step_exact.
Qed.

Lemma full_steps_queue a a' k : rtc full_step a a' → k ∈ queued a' → k ∈ queued a.
Proof.
  induction 1 as [|a a1 a2 (_ & _ & Hstep) _ IH]; [done|].
  intros Hk. by eapply evict_step_queue, IH.
Qed.

(** ** The other operations *)

Lemma exact_new cap : exact (mkModel ∅ [] [] ∅ 0 0 cap (cap_small cap) cap).
Proof. constructor; cbn [m_map m_small_live m_main_live]; rewrite ?count_loc_empty; [constructor|done..]. Qed.

(** Inserting a key is clean when it is present or not queued. *)
Definition clean_key k a : Prop := is_Some (m_map a !! k) ∨ k ∉ queued a.

Lemma exact_enqueued l k v a :
  inv a → exact a → m_map a !! k = None → k ∉ queued a → l = LOC_SMALL ∨ l = LOC_MAIN →
  exact (enqueued l k v a).
Proof.
  intros Hi He Hk Hq Hl. assert (Hnd : NoDup (k :: queued a)) by (constructor; [done | apply He]).
  unfold enqueued. destruct (Z.eqb_spec l LOC_MAIN) as [->|Hne].
  - constructor; cbn; rewrite ?count_loc_insert, ?one_if_spec by done; cbn.
    + unfold queued. cbn. by rewrite app_assoc, <-Permutation_cons_append.
    + apply He.
    + rewrite (exact_main_live _ He). lia.
  - destruct Hl as [->|]; [|done].
    constructor; cbn; rewrite ?count_loc_insert, ?one_if_spec by done; cbn.
    + unfold queued. cbn. by rewrite <-Permutation_cons_append.
    + rewrite (exact_small_live _ He). lia.
    + apply He.
Qed.

Lemma exact_insert_vacant k v a a' :
  inv a → exact a → m_map a !! k = None → k ∉ queued a → has_headroom a →
  m_insert_vacant k v a ⇓ a' → exact a'.
Proof.
  intros Hi He Hk Hq Hhead Ha'.
  destruct (m_insert_vacant_returns k v a Hi Hk Hhead) as (a1 & Hr & Hk1 & Ha1 & _).
  rewrite Ha1 in Ha'. injection Ha' as <-. pose proof (room_steps _ _ Hr) as Hsteps.
  apply exact_enqueued; [apply Hr| |done| |apply ghost_loc_cases].
  - eapply full_steps_exact; [|exact Hsteps]. by destruct He; constructor.
  - by intros ?%(full_steps_queue _ _ _ Hsteps).
Qed.

(** Changing entries without moving them. *)
Lemma exact_replace k e e' a :
  exact a → m_map a !! k = Some e → loc e' = loc e →
  exact (m_set_map (<[k := e']> (m_map a)) a).
Proof.
  intros [Hnd Hs Hm] Hk Hl.
  constructor; cbn; rewrite ?(count_loc_replace _ _ _ _ _ Hk), ?one_if_spec, ?Hl; [done|lia|lia].
Qed.

Lemma exact_get k a : exact a → exact (m_get k a).
Proof.
  intros He. unfold m_get, m_update. destruct (m_map a !! k) as [e|] eqn:Hk; [|done].
  eapply exact_replace; [done..|]. apply bump_freq_loc.
Qed.

Lemma exact_remove k a : inv a → exact a → exact (m_remove k a).
Proof.
  intros Hi [Hnd Hs Hm]. unfold m_remove. destruct (m_map a !! k) as [e|] eqn:Hk; [|done].
  pose proof (count_loc_delete LOC_SMALL _ _ _ Hk) as Hcs.
  pose proof (count_loc_delete LOC_MAIN _ _ _ Hk) as Hcm.
  rewrite one_if_spec in Hcs, Hcm.
  pose proof (count_loc_nonneg LOC_SMALL (delete k (m_map a))).
  pose proof (count_loc_nonneg LOC_MAIN (delete k (m_map a))).
  destruct (inv_entry _ _ _ Hi Hk) as [_ Hl].
  constructor; rewrite ?(proj1 (m_uncount_fields _ _)); unfold m_uncount, saturating_sub.
  - unfold queued. by destruct (_ =? _).
  - destruct Hl as [Hl|Hl]; rewrite Hl in *; cbn in *; lia.
  - destruct Hl as [Hl|Hl]; rewrite Hl in *; cbn in *; lia.
Qed.

Lemma exact_clear a : exact (m_clear a).
Proof.
  constructor; cbn [m_map m_small_live m_main_live m_clear m_set_live m_set_ghost m_set_main
    m_set_small m_set_map]; rewrite ?count_loc_empty; [constructor|done..].
Qed.

Lemma exact_retain {St} (f : St → K → V → St * (V * bool)) st ks a :
  inv a → exact a → exact (m_retain f st ks a).2.
Proof.
  revert st a. induction ks as [|k ks IH]; intros st a Hi He; [done|]. cbn.
  destruct (m_map a !! k) as [e|] eqn:Hk; [|by apply IH].
  destruct (f st k (value e)) as [st' [v' keep]].
  pose proof (inv_set_value _ _ v' _ Hi Hk) as Hi1.
  assert (He1 : exact (m_set_map (<[k := with_value v' e]> (m_map a)) a)) by (by eapply exact_replace).
  apply IH; (destruct keep; [done|]); [by apply inv_remove | by apply exact_remove].
Qed.

(** ** Tidy queues

    Without explicit removals the queues hold no stale key either. *)

Definition tidy a : Prop := ∀ k, k ∈ queued a → is_Some (m_map a !! k).

Lemma tidy_pop_small a k e ks :
  tidy a → NoDup (queued a) → m_pop (m_map a) (m_small a) = Some (k, e, ks) →
  m_small a = k :: ks ∧ k ∉ ks ++ m_main a.
Proof.
  intros Ht Hnd (_ & pre & Hq & Hpre)%m_pop_Some. destruct pre as [|k0 pre]; cbn in Hq.
  - split; [done|]. unfold queued in Hnd. rewrite Hq in Hnd. by apply NoDup_cons in Hnd as [? _].
  - apply Forall_cons in Hpre as [Hk0 _]. destruct (Ht k0) as [? ?]; [|congruence].
    unfold queued. rewrite Hq. by left.
Qed.

Lemma evict_step_tidy a a' : exact a → tidy a → evict_step a a' → tidy a'.
Proof.
  intros [Hnd _ _] Ht [k e ks _ Hp _ | k e ks _ Hp _ | k e m1 ks small' Hsm Hv] k';
    unfold queued; cbn.
  - destruct (tidy_pop_small _ _ _ _ Ht Hnd Hp) as [Hs _]. intros Hk'.
    rewrite lookup_insert_is_Some. destruct (decide (k = k')); [by left|right]. split; [done|].
    apply Ht. unfold queued. rewrite Hs. set_solver.
  - destruct (tidy_pop_small _ _ _ _ Ht Hnd Hp) as [Hs Hk]. intros Hk'.
    rewrite lookup_delete_ne by (by intros ->). apply Ht. unfold queued. rewrite Hs. by right.
  - destruct Hv as (Hl & _ & _ & dead & Hperm & _). intros Hk'.
    assert (Hin : k' ∈ m_small a ∨ k' ∈ ks).
    { destruct Hsm as [[_ ->] | (_ & _ & ->)]; set_solver. }
    unfold queued in Hnd. rewrite Hperm in Hnd.
    assert (k ≠ k').
    { intros ->. apply NoDup_app in Hnd as (_ & Hdis & (_ & _ & [Hk _]%NoDup_cons)%NoDup_app).
      destruct Hin as [Hin|Hin]; [|done]. apply (Hdis _ Hin). apply elem_of_app. right. by left. }
    rewrite lookup_delete_ne by done. apply (lowered_is_Some _ _ _ Hl), Ht. unfold queued.
    rewrite Hperm. set_solver.
Qed.

Lemma full_steps_tidy a a' : exact a → tidy a → rtc full_step a a' → tidy a'.
Proof.
  intros He Ht Hsteps. revert He Ht.
  induction Hsteps as [|a a1 a2 (Hi & _ & Hstep) _ IH]; [done|].
  intros He Ht. apply IH; [by eapply evict_step_exact | by eapply evict_step_tidy].
Qed.

Lemma tidy_insert_vacant k v a a' :
  inv a → exact a → tidy a → m_map a !! k = None → has_headroom a →
  m_insert_vacant k v a ⇓ a' → tidy a'.
Proof.
  intros Hi He Ht Hk Hhead Ha'.
  destruct (m_insert_vacant_returns k v a Hi Hk Hhead) as (a1 & Hr & Hk1 & Ha1 & _).
  rewrite Ha1 in Ha'. injection Ha' as <-. pose proof (room_steps _ _ Hr) as Hsteps.
  assert (Ht1 : tidy a1).
  { eapply full_steps_tidy; [| |exact Hsteps]; [by destruct He; constructor | exact Ht]. }
  intros k'. unfold enqueued, queued. destruct (_ =? _); cbn; intros Hin;
    rewrite lookup_insert_is_Some; (destruct (decide (k = k')); [by left|right; split; [done|]]);
    apply Ht1; unfold queued; set_solver.
Qed.

Lemma tidy_replace k e e' a :
  tidy a → m_map a !! k = Some e → tidy (m_set_map (<[k := e']> (m_map a)) a).
Proof.
  intros Ht Hk k' Hk'. cbn. rewrite lookup_insert_is_Some.
  destruct (decide (k = k')); [by left|right]. split; [done|]. by apply Ht.
Qed.

(** The queues of a tidy shard are its keys, each once. *)
Lemma tidy_queued a :
  inv a → exact a → tidy a → queued a ≡ₚ (map_to_list (m_map a)).*1.
Proof.
  intros Hi He Ht. apply NoDup_Permutation; [apply He|apply NoDup_fst_map_to_list|].
  intros k. rewrite list_elem_of_fmap. split.
  - intros [e Hk]%Ht. exists (k, e). by rewrite elem_of_map_to_list.
  - intros ([k' e] & -> & Hk%elem_of_map_to_list). by eapply inv_queued.
Qed.

Lemma keys_filter_length l m ks :
  NoDup ks → (∀ k, k ∈ ks ↔ ∃ e, m !! k = Some e ∧ loc e = l) →
  Z.of_nat (length ks) = count_loc l m.
Proof.
  intros Hnd Hks. unfold count_loc. rewrite <-length_map_to_list, <-(length_fmap fst).
  f_equal. apply Permutation_length, NoDup_Permutation; [done|apply NoDup_fst_map_to_list|].
  intros k. rewrite Hks, list_elem_of_fmap. split.
  - intros (e & Hk & Hl). exists (k, e). by rewrite elem_of_map_to_list, map_lookup_filter_Some.
  - intros ([k' e] & -> & [Hk Hl]%elem_of_map_to_list%map_lookup_filter_Some). by exists e.
Qed.

Lemma tidy_small_length a :
  inv a → exact a → tidy a → Z.of_nat (length (m_small a)) = count_loc LOC_SMALL (m_map a).
Proof.
  intros Hi He Ht. apply keys_filter_length.
  - by apply (exact_nodup a) in He as [? _]%NoDup_app.
  - intros k. split.
    + intros Hk. destruct (Ht k) as [e He']; [apply elem_of_app; by left|]. exists e.
      split; [done|]. by eapply exact_loc_small.
    + intros (e & Hk & Hl). by eapply inv_small_queue.
Qed.

Lemma tidy_main_length a :
  inv a → exact a → tidy a → Z.of_nat (length (m_main a)) = count_loc LOC_MAIN (m_map a).
Proof.
  intros Hi He Ht. apply keys_filter_length.
  - by apply (exact_nodup a) in He as (_ & _ & ?)%NoDup_app.
  - intros k. split.
    + intros Hk. destruct (Ht k) as [e He']; [apply elem_of_app; by right|]. exists e.
      split; [done|]. by eapply exact_loc_main.
    + intros (e & Hk & Hl). by eapply inv_main_queue.
Qed.
End exact.
