(* ===== verification/ShardSpec.v ===== *)
(** * ShardSpec: the operations of a shard on its contents

    The functional behaviour of every operation of a shard, stated on the
    finite map of the key-value pairs it stores. [shard_ok] is the invariant
    of Safety at the level of the source: it holds of a new shard and every
    operation returns normally from it and keeps it. *)

From stdpp Require Import base gmap list.
From S2P Require Import Prelude Machine RawTable Util Shard ShardOps ShardModel ShardSim.
From S2P Require Import Evict Safety Exact.

Open Scope Z_scope.

Section model_spec.
Context {K V : Type} `{Countable K} `{!BuildHasher K} `{!Target}.
Implicit Types (a : Model K V) (k : K) (v : V).

(** The key-value pairs of a model state. *)
Definition m_contents a : gmap K V := value <$> m_map a.

(** The effect of inserting [k] on the pairs: [k] gets the value, other pairs
    are kept or evicted; nothing is evicted while there is room, and a full
    shard evicts exactly one entry for a new key. *)
Record insert_effect k v (is_full : Prop) (c c' : gmap K V) : Prop := {
  ins_here : c' !! k = Some v;
  ins_others k' v' : k' ≠ k → c' !! k' = Some v' → c !! k' = Some v';
  ins_room : is_Some (c !! k) ∨ ¬ is_full → c' = <[k := v]> c;
  ins_full : c !! k = None → is_full → size c' = size c
}.

Lemma m_contents_lookup a k : m_contents a !! k = value <$> m_map a !! k.
Proof. apply lookup_fmap. Qed.

Lemma enqueued_contents l k v a : m_contents (enqueued l k v a) = <[k := v]> (m_contents a).
Proof.
  unfold m_contents, enqueued. destruct (_ =? _); cbn [m_map m_set_live m_set_main m_set_small m_set_map];
    by rewrite fmap_insert.
Qed.

Lemma m_insert_spec k v a :
  inv a → has_headroom a →
  ∃ a', m_insert k v a ⇓ (a', m_contents a !! k) ∧ inv a' ∧
    m_cap a' = m_cap a ∧ drift a' = drift a ∧ live a' ≤ live a + 1 ∧
    insert_effect k v (full a) (m_contents a) (m_contents a').
Proof.
  intros Hi Hhead. unfold m_insert. rewrite m_contents_lookup.
  destruct (m_map a !! k) as [e|] eqn:Hk; cbn.
  - assert (Hc : m_contents (m_set_map (<[k := with_value v e]> (m_map a)) a)
      = <[k := v]> (m_contents a)) by (unfold m_contents; cbn; by rewrite fmap_insert).
    assert (Hkc : m_contents a !! k = Some (value e)) by (by rewrite m_contents_lookup, Hk).
    eexists. split_and!; [done|by apply inv_set_value|done| |unfold live; cbn; lia|].
    + unfold drift, live, count. cbn. rewrite map_size_insert_Some by eauto. done.
    + rewrite Hc. constructor.
      * apply lookup_insert_eq.
      * intros k' v' Hne. by rewrite lookup_insert_ne.
      * done.
      * congruence.
  - destruct (m_insert_vacant_returns k v a Hi Hk Hhead) as (a1 & Hr & Hk1 & -> & Hi' & Hd & _).
    pose proof (room_shrinks _ _ Hr) as Hsh. destruct Hr as [Hi1 Hd1 Hc1 _ _ Ht1 Hv1]. cbn.
    eexists. split_and!; [done|done| |done| |].
    { transitivity (m_cap a1); [unfold enqueued; by destruct (_ =? _) | exact Hc1]. }
    { pose proof (shrinks_count _ _ Hsh) as Hle. change (drift a1 = drift a) in Hd1.
      unfold enqueued, drift, live, count in *. destruct (_ =? _); cbn in *; lia. }
    rewrite enqueued_contents. constructor.
    + apply lookup_insert_eq.
    + intros k' v' Hne. rewrite lookup_insert_ne, !m_contents_lookup by done.
      intros (e' & He' & ->)%fmap_Some. apply Hsh in He' as (e & He & ->).
      cbn in He. by rewrite He.
    + intros [[v0 Hv0] | Hnf]; [by rewrite m_contents_lookup, Hk in Hv0|].
      rewrite Ht1; [done|]. exact Hnf.
    + intros _ Hf. specialize (Hv1 Hf). unfold m_contents.
      rewrite map_size_insert_None by (by rewrite lookup_fmap, Hk1).
      rewrite !map_size_fmap. change (drift a1 = drift a) in Hd1.
      change (live a1 = m_cap a - 1) in Hv1. destruct Hf as [_ Hf].
      change (live a = m_cap a) in Hf. unfold drift, count in Hd1. lia.
Qed.

Lemma m_insert_exact k v a a' r :
  inv a → exact a → clean_key k a → has_headroom a → m_insert k v a ⇓ (a', r) → exact a'.
Proof.
  intros Hi He Hclean Hhead. unfold m_insert. destruct (m_map a !! k) as [e|] eqn:Hk.
  - intros [= <- _]. by eapply exact_replace.
  - intros (a1 & Ha1 & [= <- _])%bind_Ret. destruct Hclean as [[e He']|Hq]; [congruence|].
    by eapply exact_insert_vacant.
Qed.

Lemma m_uncount_contents l a : m_contents (m_uncount l a) = m_contents a.
Proof. unfold m_uncount. by destruct (_ =? _). Qed.

Lemma m_remove_contents k a : m_contents (m_remove k a) = delete k (m_contents a).
Proof.
  unfold m_remove. destruct (m_map a !! k) as [e|] eqn:Hk.
  - rewrite m_uncount_contents. apply fmap_delete.
  - symmetry. apply delete_id. by rewrite m_contents_lookup, Hk.
Qed.

Lemma m_replace_contents k v e a :
  m_contents (m_set_map (<[k := with_value v e]> (m_map a)) a) = <[k := v]> (m_contents a).
Proof. unfold m_contents. cbn. by rewrite fmap_insert. Qed.

Lemma m_get_contents k a : m_contents (m_get k a) = m_contents a.
Proof.
  unfold m_get, m_update. destruct (m_map a !! k) as [e|] eqn:Hk; [|done].
  unfold m_contents. cbn. rewrite fmap_insert, bump_freq_value. apply insert_id.
  by rewrite lookup_fmap, Hk.
Qed.

Lemma m_clear_contents a : m_contents (m_clear a) = ∅.
Proof. apply fmap_empty. Qed.

(** What [_retain] does to the pairs, visited in the order of [kvs]. *)
Fixpoint retain_pairs {St} (f : St → K → V → St * (V * bool)) (st : St) (kvs : list (K * V)) :
    St * list (K * V) :=
  match kvs with
  | [] => (st, [])
  | (k, v) :: kvs' =>
      let '(st, (v', keep)) := f st k v in
      let '(st, rest) := retain_pairs f st kvs' in
      (st, if keep : bool then (k, v') :: rest else rest)
  end.

Lemma retain_pairs_keys {St} (f : St → K → V → St * (V * bool)) st kvs k :
  k ∈ (retain_pairs f st kvs).2.*1 → k ∈ kvs.*1.
Proof.
  revert st. induction kvs as [|[k0 v0] kvs IH]; intros st; cbn; [done|].
  destruct (f st k0 v0) as [st' [v' keep]]. specialize (IH st').
  destruct (retain_pairs f st' kvs) as [st2 rest]. destruct keep; cbn; rewrite !elem_of_cons; tauto.
Qed.

Lemma m_retain_pairs {St} (f : St → K → V → St * (V * bool)) st ks a :
  NoDup ks → (∀ k, k ∈ ks → is_Some (m_contents a !! k)) →
  ∃ kvs, kvs.*1 = ks ∧ Forall (λ kv, m_contents a !! kv.1 = Some kv.2) kvs ∧
    (m_retain f st ks a).1 = (retain_pairs f st kvs).1 ∧
    ∀ k, m_contents (m_retain f st ks a).2 !! k =
      if decide (k ∈ ks) then (list_to_map (retain_pairs f st kvs).2 : gmap K V) !! k
      else m_contents a !! k.
Proof.
  revert st a. induction ks as [|k0 ks IH]; intros st a Hnd Hin.
  { exists []. split_and!; [done|constructor|done|]. intros k.
    by rewrite decide_False by apply not_elem_of_nil. }
  apply NoDup_cons in Hnd as [Hk0 Hnd].
  destruct (Hin k0) as [v0 Hv0]; [by left|]. pose proof Hv0 as Hc0.
  rewrite m_contents_lookup in Hv0. apply fmap_Some in Hv0 as (e & He & ->). cbn. rewrite He.
  destruct (f st k0 (value e)) as [st' [v' keep]] eqn:Hf.
  set (a1 := if negb keep then _ else _).
  assert (Ha1 : ∀ k, m_contents a1 !! k =
    if decide (k = k0) then (if keep then Some v' else None) else m_contents a !! k).
  { intros k. subst a1. destruct keep; cbn; rewrite ?m_remove_contents, ?m_replace_contents;
      destruct (decide (k = k0)) as [->|]; simplify_map_eq; by rewrite ?m_contents_lookup. }
  destruct (IH st' a1 Hnd) as (kvs & Hks & Hall & Hst & Hc).
  { intros k Hk. rewrite Ha1, decide_False by congruence. apply Hin. by right. }
  exists ((k0, value e) :: kvs). cbn. rewrite Hf.
  pose proof (retain_pairs_keys f st' kvs k0) as Hkeys. rewrite Hks in Hkeys.
  destruct (retain_pairs f st' kvs) as [st2 rest] eqn:Hr. cbn in Hst, Hc, Hkeys. split_and!.
  - by rewrite Hks.
  - constructor; [done|]. rewrite Forall_forall in *. intros [k v] Hkv. cbn.
    specialize (Hall _ Hkv). cbn in Hall. rewrite Ha1, decide_False in Hall; [done|].
    intros ->. apply Hk0. rewrite <-Hks. apply list_elem_of_fmap. by exists (k0, v).
  - done.
  - intros k. cbn. rewrite Hc, Ha1. destruct (decide (k = k0)) as [->|Hne].
    + rewrite decide_False by done. rewrite decide_True by (by left). destruct keep; cbn.
      * by rewrite lookup_insert_eq.
      * symmetry. apply not_elem_of_list_to_map_1. tauto.
    + destruct (decide (k ∈ ks)) as [Hk|Hk].
      * rewrite decide_True by (by right). destruct keep; cbn; by rewrite ?lookup_insert_ne.
      * by rewrite decide_False by (by intros [->|]%elem_of_cons).
Qed.

(** The counters of the operations that remove or keep entries. *)
Lemma m_remove_stats k a :
  inv a → m_cap (m_remove k a) = m_cap a ∧ live (m_remove k a) ≤ live a.
Proof.
  intros Hi. unfold m_remove. destruct (m_map a !! k) as [e|]; [|done].
  set (a1 := m_set_map _ _).
  destruct (m_uncount_fields (loc e) a1) as (_ & _ & _ & _ & Hc & _).
  destruct (m_uncount_live (loc e) a1) as (_ & _ & Hl); [apply Hi..|].
  split; [done|]. unfold live. subst a1. cbn in *. lia.
Qed.

Lemma m_retain_stats {St} (f : St → K → V → St * (V * bool)) st ks a :
  inv a → m_cap (m_retain f st ks a).2 = m_cap a ∧ live (m_retain f st ks a).2 ≤ live a ∧
    drift a ≤ drift (m_retain f st ks a).2.
Proof.
  revert st a. induction ks as [|k ks IH]; intros st a Hi; [done|]. cbn.
  destruct (m_map a !! k) as [e|] eqn:Hk; [|by apply IH].
  destruct (f st k (value e)) as [st' [v' keep]].
  pose proof (inv_set_value _ _ v' _ Hi Hk) as Hi1. set (a1 := m_set_map _ _) in *.
  assert (drift a1 = drift a) as Hd.
  { unfold drift, live, count. cbn. rewrite map_size_insert_Some by eauto. done. }
  assert (live a1 = live a ∧ m_cap a1 = m_cap a) as [Hl Hc] by done.
  destruct (m_remove_stats k a1 Hi1) as [Hc2 Hl2]. destruct (inv_remove k a1 Hi1) as [Hi2 Hd2].
  destruct keep; cbn; [destruct (IH st' a1 Hi1) | destruct (IH st' (m_remove k a1) Hi2)]; lia.
Qed.
End model_spec.

Section shard_spec.
Context {K V : Type} `{Countable K} `{!BuildHasher K} `{!Target}.
Context `{!RawTable (K * CacheEntry V)} `{!RawTableSpec (K * CacheEntry V)}.
Implicit Types (s : ShardData K V) (a : Model K V) (k : K) (v : V).

(** The key-value pairs of a shard. *)
Definition contents s : gmap K V :=
  list_to_map (prod_map id value <$> rt_into_iter (smap s)).

(** The value of [total_live()], and by how much it exceeds the number of
    entries. *)
Definition shard_live s : Z := small_live s + main_live s.
Definition shard_drift s : Z := shard_live s - shard_len s.
Definition shard_full s : Prop := 0 < shard_cap s ∧ shard_live s = shard_cap s.

(** An unbounded shard can count one more entry. *)
Definition countable s : Prop := shard_cap s = 0 → shard_live s + 1 < usize_mod.

Definition shard_ok s : Prop := ∃ a, shard_rel s a ∧ inv a.
Definition shard_exact s : Prop := ∃ a, shard_rel s a ∧ inv a ∧ exact a.

(** What an operation that returned guarantees besides its effect. *)
Record shard_step s s' : Prop := {
  step_ok : shard_ok s';
  step_cap : shard_cap s' = shard_cap s;
  step_live : shard_live s' ≤ shard_live s + 1
}.

Lemma contents_rel s a : shard_rel s a → contents s = m_contents a.
Proof.
  intros Hrel. unfold contents, m_contents.
  rewrite <-(list_to_map_to_list (m_map a)) at 1. rewrite <-list_to_map_fmap.
  pose proof (repr_into_iter _ _ (rel_map _ _ Hrel)) as Hp.
  assert (Hnd : NoDup (prod_map id value <$> rt_into_iter (smap s)).*1).
  { rewrite Hp, <-list_fmap_compose.
    rewrite (list_fmap_ext _ fst) by (by intros ? []). apply NoDup_fst_map_to_list. }
  apply list_to_map_proper; [done|]. by rewrite Hp.
Qed.

Lemma contents_size s a : shard_rel s a → shard_len s = Z.of_nat (size (contents s)).
Proof.
  intros Hrel. rewrite (contents_rel _ _ Hrel). unfold m_contents. rewrite map_size_fmap.
  by apply repr_size, Hrel.
Qed.

Lemma shard_live_rel s a : shard_rel s a → shard_live s = live a.
Proof. intros []. unfold shard_live, live. congruence. Qed.

Lemma shard_drift_rel s a : shard_rel s a → shard_drift s = drift a.
Proof.
  intros Hrel. unfold shard_drift, drift, count. rewrite (shard_live_rel _ _ Hrel).
  by rewrite <-(repr_size _ _ (rel_map _ _ Hrel)).
Qed.

Lemma shard_full_rel s a : shard_rel s a → shard_full s ↔ full a.
Proof.
  intros Hrel. unfold shard_full, full. by rewrite (shard_live_rel _ _ Hrel), (rel_cap _ _ Hrel).
Qed.

Lemma shard_step_rel s s' a a' :
  shard_rel s a → shard_rel s' a' → inv a' → m_cap a' = m_cap a → live a' ≤ live a + 1 →
  shard_step s s'.
Proof.
  intros Hrel Hrel' Hi' Hc Hl. constructor.
  - by exists a'.
  - by rewrite (rel_cap _ _ Hrel), (rel_cap _ _ Hrel').
  - by rewrite (shard_live_rel _ _ Hrel), (shard_live_rel _ _ Hrel').
Qed.

Lemma shard_step_refl s : shard_ok s → shard_step s s.
Proof. intros Hs. by constructor; [..|lia]. Qed.

Lemma shard_len_contents s : shard_ok s → shard_len s = Z.of_nat (size (contents s)).
Proof. intros (a & Hrel & _). by eapply contents_size. Qed.

(** The counters of an unbounded shard are exact. *)
Lemma unbounded_shard_live s :
  shard_ok s → shard_cap s = 0 → shard_live s = Z.of_nat (size (contents s)).
Proof.
  intros (a & Hrel & Ha) Hcap. rewrite (rel_cap _ _ Hrel) in Hcap.
  rewrite (shard_live_rel _ _ Hrel), (contents_rel _ _ Hrel). unfold m_contents. rewrite map_size_fmap.
  destruct (inv_unbounded _ Ha Hcap) as (Hsl & Hml & _). unfold live. rewrite Hsl, Hml. unfold count. lia.
Qed.

(** Operations that keep the drift and the number of entries. *)
Lemma same_size_live s s' :
  shard_ok s → shard_ok s' → shard_drift s' = shard_drift s →
  size (contents s') = size (contents s) → shard_live s' = shard_live s.
Proof.
  intros Hs Hs' Hd Hsz. unfold shard_drift in Hd.
  rewrite (shard_len_contents s), (shard_len_contents s') in Hd by done. lia.
Qed.

Lemma countable_rel s a : shard_rel s a → countable s → has_headroom a.
Proof.
  intros Hrel. unfold countable, has_headroom. by rewrite (shard_live_rel _ _ Hrel), (rel_cap _ _ Hrel).
Qed.

(** ** The operations *)

Lemma shard_new_ok map_cap cap :
  is_usize cap → shard_exact (shard_new map_cap cap : ShardData K V).
Proof.
  intros Hcap. eexists. split; [apply shard_new_rel|].
  assert (Hg : (if cap =? 0 then 0 else cap) = cap) by (destruct (Z.eqb_spec cap 0); lia).
  rewrite Hg. split; [by apply inv_new | apply exact_new].
Qed.

Lemma exact_ok s : shard_exact s → shard_ok s.
Proof. intros (a & ? & ? & _). by exists a. Qed.

Lemma shard_insert_ok k v s :
  shard_ok s → countable s →
  ∃ s', shard_insert k v s ⇓ (s', contents s !! k) ∧ shard_step s s' ∧
    shard_drift s' = shard_drift s ∧
    insert_effect k v (shard_full s) (contents s) (contents s').
Proof.
  intros (a & Hrel & Hi) Hc. rewrite (contents_rel _ _ Hrel).
  destruct (m_insert_spec k v a Hi (countable_rel _ _ Hrel Hc))
    as (a' & Ha' & Hi' & Hcap & Hd & Hl & Heff).
  destruct (outcome_rel_Ret_r _ _ _ _ (shard_insert_sim _ _ k v Hrel) Ha') as ([s' r] & Hs' & Hrel' & Hr).
  cbn in Hrel', Hr. subst r. exists s'. split_and!; [done|by eapply shard_step_rel| |].
  - by rewrite (shard_drift_rel _ _ Hrel), (shard_drift_rel _ _ Hrel').
  - rewrite (contents_rel _ _ Hrel').
    destruct Heff as [Hh Ho Hro Hf]. constructor; [done..| |].
    + intros [?|Hn]; [by apply Hro; left|]. apply Hro. right. by rewrite <-(shard_full_rel _ _ Hrel).
    + intros Hk Hfu. apply Hf; [done|]. by rewrite <-(shard_full_rel _ _ Hrel).
Qed.

Lemma shard_remove_ok k s :
  shard_ok s →
  ∃ s', shard_remove k s ⇓ (s', pair k <$> contents s !! k) ∧ shard_step s s' ∧
    shard_drift s ≤ shard_drift s' ∧ contents s' = delete k (contents s).
Proof.
  intros (a & Hrel & Hi). destruct (shard_remove_sim _ _ k Hrel) as (s' & Hs' & Hrel').
  exists s'. rewrite (contents_rel _ _ Hrel), m_contents_lookup, <-option_fmap_compose.
  destruct (m_remove_stats k a Hi) as [Hc Hl]. destruct (inv_remove k a Hi) as [Hi' Hd].
  split_and!; [done| | |].
  - eapply shard_step_rel; [done..|lia].
  - by rewrite (shard_drift_rel _ _ Hrel), (shard_drift_rel _ _ Hrel').
  - by rewrite (contents_rel _ _ Hrel'), m_remove_contents.
Qed.

Lemma shard_remove_if_ok k f s :
  shard_ok s →
  let hit := match contents s !! k with Some v => f k v | None => false end in
  ∃ s', shard_remove_if k f s ⇓ (s', if hit : bool then pair k <$> contents s !! k else None) ∧
    shard_step s s' ∧ shard_drift s ≤ shard_drift s' ∧
    contents s' = if hit then delete k (contents s) else contents s.
Proof.
  intros (a & Hrel & Hi) hit. destruct (shard_remove_if_sim _ _ k f Hrel) as (s' & Hs' & Hrel').
  exists s'. rewrite Hs'. unfold m_remove_if in *. subst hit.
  rewrite (contents_rel _ _ Hrel), (contents_rel _ _ Hrel'), m_contents_lookup,
    (shard_drift_rel _ _ Hrel), (shard_drift_rel _ _ Hrel').
  destruct (m_remove_stats k a Hi) as [Hc Hl]. destruct (inv_remove k a Hi) as [Hi' Hd].
  destruct (m_map a !! k) as [e|]; cbn in *; [destruct (f k (value e)); cbn in *|];
    (split_and!; [done|eapply shard_step_rel; [done..|lia]|lia|]); try done.
  apply m_remove_contents.
Qed.

Lemma shard_remove_if_mut_ok k f s :
  shard_ok s →
  ∃ s' r, shard_remove_if_mut k f s ⇓ (s', r) ∧
    shard_step s s' ∧ shard_drift s ≤ shard_drift s' ∧
    match contents s !! k with
    | Some v =>
        let '(v', yes) := f k v in
        r = (if yes : bool then Some (k, v') else None) ∧
        contents s' = if yes then delete k (contents s) else <[k := v']> (contents s)
    | None => r = None ∧ contents s' = contents s
    end.
Proof.
  intros (a & Hrel & Hi). destruct (shard_remove_if_mut_sim _ _ k f Hrel) as (s' & Hs' & Hrel').
  exists s', (m_remove_if_mut k f a).2. split; [done|]. unfold m_remove_if_mut in *.
  rewrite (contents_rel _ _ Hrel), (contents_rel _ _ Hrel'), m_contents_lookup,
    (shard_drift_rel _ _ Hrel), (shard_drift_rel _ _ Hrel').
  destruct (m_map a !! k) as [e|] eqn:Hk; cbn in *.
  2:{ split_and!; [eapply shard_step_rel; [done..|lia]|lia|done|done]. }
  destruct (f k (value e)) as [v' yes]. pose proof (inv_set_value _ _ v' _ Hi Hk) as Hi1.
  set (a1 := m_set_map _ _) in *.
  assert (drift a1 = drift a) as Hd1.
  { unfold drift, live, count. cbn. rewrite map_size_insert_Some by eauto. done. }
  assert (live a1 = live a ∧ m_cap a1 = m_cap a) as [Hl1 Hc1] by done.
  destruct (m_remove_stats k a1 Hi1) as [Hc Hl]. destruct (inv_remove k a1 Hi1) as [Hi' Hd].
  assert (Hcont : m_contents a1 = <[k := v']> (m_contents a)) by apply m_replace_contents.
  clearbody a1. destruct yes; cbn in *;
    (split_and!; [eapply shard_step_rel; [done..|lia|lia]|lia|done|]).
  - by rewrite m_remove_contents, Hcont, delete_insert_eq.
  - done.
Qed.

(** [_get] returns the bucket of the key; reading through it gives the pair. *)
Lemma shard_get_ok k s :
  shard_ok s →
  ∃ s' r, shard_get k s ⇓ (s', r) ∧ shard_step s s' ∧ shard_drift s' = shard_drift s ∧
    contents s' = contents s ∧
    match contents s !! k with
    | Some v => ∃ b, r = Some b ∧ bucket_pair b s' ⇓ (k, v)
    | None => r = None ∧ s' = s
    end.
Proof.
  intros (a & Hrel & Hi). destruct (shard_get_sim _ _ k Hrel) as (s' & r & Hs' & Hrel' & Hr).
  exists s', r. rewrite (contents_rel _ _ Hrel), (contents_rel _ _ Hrel'), m_contents_lookup,
    (shard_drift_rel _ _ Hrel), (shard_drift_rel _ _ Hrel'), m_get_contents.
  assert (Hst : m_cap (m_get k a) = m_cap a ∧ live (m_get k a) = live a ∧ drift (m_get k a) = drift a).
  { unfold m_get, m_update, drift, live, count. destruct (m_map a !! k) as [e|] eqn:Hk; [|done].
    cbn. rewrite map_size_insert_Some by eauto. done. }
  destruct Hst as (Hc & Hl & Hd).
  split_and!; [done|eapply shard_step_rel; [done..|by apply inv_get|done|lia]|done|done|].
  destruct (m_map a !! k) as [e|]; cbn; [|done]. destruct Hr as (b & -> & Hb). exists b.
  split; [done|]. rewrite <-(bump_freq_value e). by eapply bucket_pair_sim.
Qed.

(** What visiting the keys in the order [ks] means for the pairs. *)
Lemma retain_model_ok {St} (f : St → K → V → St * (V * bool)) st s s' ks a :
  shard_rel s a → inv a → ks ≡ₚ (map_to_list (m_map a)).*1 → shard_rel s' (m_retain f st ks a).2 →
  ∃ kvs, kvs ≡ₚ map_to_list (contents s) ∧ (m_retain f st ks a).1 = (retain_pairs f st kvs).1 ∧
    shard_step s s' ∧ shard_drift s ≤ shard_drift s' ∧
    contents s' = list_to_map (retain_pairs f st kvs).2.
Proof.
  intros Hrel Hi Hks Hrel'.
  assert (Hin : ∀ k, k ∈ ks ↔ is_Some (m_contents a !! k)).
  { intros k. rewrite Hks, m_contents_lookup, fmap_is_Some, list_elem_of_fmap. split.
    - intros ([k' e] & -> & ?%elem_of_map_to_list). by eexists.
    - intros [e ?%elem_of_map_to_list]. by exists (k, e). }
  destruct (m_retain_pairs f st ks a) as (kvs & Hkvs & Hall & Hst & Hc).
  { rewrite Hks. apply NoDup_fst_map_to_list. }
  { intros k. apply Hin. }
  destruct (m_retain_stats f st ks a Hi) as (Hcap & Hl & Hd).
  exists kvs. rewrite <-Hst, (contents_rel _ _ Hrel), (contents_rel _ _ Hrel'),
    (shard_drift_rel _ _ Hrel), (shard_drift_rel _ _ Hrel').
  split_and!; [|done|eapply shard_step_rel; [done..|by apply inv_retain|done|lia]|done|].
  - apply NoDup_Permutation; [|apply NoDup_map_to_list|].
    + apply (NoDup_fmap_1 fst). rewrite Hkvs, Hks. apply NoDup_fst_map_to_list.
    + intros [k v]. rewrite elem_of_map_to_list. split.
      * intros Hkv. rewrite Forall_forall in Hall. by apply (Hall _ Hkv).
      * intros Hk. assert (k ∈ kvs.*1) as ([k' v'] & -> & Hkv)%list_elem_of_fmap.
        { rewrite Hkvs. apply Hin. by eexists. }
        rewrite Forall_forall in Hall. specialize (Hall _ Hkv). cbn in *. congruence.
  - apply map_eq. intros k. rewrite Hc. destruct (decide (k ∈ ks)) as [|Hk]; [done|].
    transitivity (@None V); [apply eq_None_not_Some; by rewrite <-Hin|]. symmetry.
    apply not_elem_of_list_to_map_1. intros Hin'%retain_pairs_keys. by rewrite Hkvs in Hin'.
Qed.

(** [_retain] calls the closure once per pair, in some order, threading its
    state; the pairs it keeps are those left. *)
Lemma shard_retain_ok {St} (f : St → K → V → St * (V * bool)) st s :
  shard_ok s →
  ∃ kvs s', kvs ≡ₚ map_to_list (contents s) ∧
    shard_retain f st s ⇓ ((retain_pairs f st kvs).1, s') ∧
    shard_step s s' ∧ shard_drift s ≤ shard_drift s' ∧
    contents s' = list_to_map (retain_pairs f st kvs).2.
Proof.
  intros (a & Hrel & Hi).
  destruct (shard_retain_sim f st _ _ Hrel) as (ks & s' & Hks & Hs' & Hrel').
  destruct (retain_model_ok f st s s' ks a Hrel Hi Hks Hrel') as (kvs & Hp & Hst & Hrest).
  exists kvs, s'. by rewrite <-Hst.
Qed.

Lemma shard_clear_ok s :
  shard_ok s →
  ∃ s', clear_all s ⇓ s' ∧ shard_step s s' ∧ contents s' = ∅ ∧ shard_live s' = 0 ∧
    small_keys s' = [] ∧ main_keys s' = [] ∧ ghost_set s' = ∅ ∧ shard_exact s'.
Proof.
  intros (a & Hrel & Hi). destruct (clear_all_sim _ _ Hrel) as (s' & Hs' & Hrel').
  exists s'. pose proof (inv_clear _ Hi) as Hi'.
  pose proof (inv_small_live _ Hi). pose proof (inv_main_live _ Hi).
  split_and!; try apply Hrel'; [done| | | |].
  - eapply shard_step_rel; [done..|]. unfold live. cbn. lia.
  - rewrite (contents_rel _ _ Hrel'). apply m_clear_contents.
  - by rewrite (shard_live_rel _ _ Hrel').
  - exists (m_clear a). split_and!; [done..|apply exact_clear].
Qed.

(** Rearranging the table. *)
Lemma shard_same_ok s s' a :
  shard_rel s a → inv a → shard_rel s' a →
  shard_step s s' ∧ contents s' = contents s ∧ shard_drift s' = shard_drift s.
Proof.
  intros Hrel Hi Hrel'. rewrite (contents_rel _ _ Hrel), (contents_rel _ _ Hrel'),
    (shard_drift_rel _ _ Hrel), (shard_drift_rel _ _ Hrel').
  split_and!; [|done|done]. eapply shard_step_rel; [done..|lia].
Qed.

Lemma map_try_reserve_ok n s s' :
  shard_ok s → map_try_reserve n s = Some s' →
  shard_step s s' ∧ contents s' = contents s ∧ shard_drift s' = shard_drift s.
Proof. intros (a & Hrel & Hi) Hs'. eapply shard_same_ok; eauto using map_try_reserve_rel. Qed.

Lemma shard_shrink_ok s :
  shard_ok s →
  let s' := shard_shrink_to_fit s in
  shard_step s s' ∧ contents s' = contents s ∧ shard_drift s' = shard_drift s.
Proof. intros (a & Hrel & Hi). eapply shard_same_ok; eauto using map_shrink_to_rel. Qed.

(** A bump only touches a frequency: every bucket reads as before. *)
Lemma bump_at_pairs b0 b kv s s' : bump_at b0 s ⇓ s' → bucket_pair b s ⇓ kv → bucket_pair b s' ⇓ kv.
Proof.
  unfold bump_at. intros ([k0 e] & Hb0 & Hs')%bind_Ret.
  destruct (bump_closure (freq e)) as [f|]; [|by injection Hs' as <-].
  apply bind_Ret in Hs' as (t & Hw & [= <-]).
  unfold bucket_pair. cbn [smap set_map]. rewrite rt_as_ref_spec in Hb0 |- *.
  destruct (rt_view (smap s) !! b0) as [[h x]|] eqn:Hv; [|done]. cbn in Hb0. injection Hb0 as ->.
  destruct (rt_write_spec _ _ _ _ (k0, with_freq f e) Hv) as (t' & Ht' & Hview & _).
  rewrite Ht' in Hw. cbn in Hw. injection Hw as <-. rewrite rt_as_ref_spec, Hview.
  destruct (decide (b = b0)) as [->|Hne]; [by rewrite lookup_insert_eq, Hv|by rewrite lookup_insert_ne].
Qed.

(** Writing the value of the entry a bucket holds. *)
Lemma bucket_set_ok b k v w s :
  shard_ok s → bucket_pair b s ⇓ (k, w) →
  ∃ s', bucket_set b v s ⇓ s' ∧ shard_step s s' ∧ shard_drift s' = shard_drift s ∧
    contents s' = <[k := v]> (contents s) ∧ bucket_pair b s' ⇓ (k, v).
Proof.
  intros (a & Hrel & Hi) Hb. unfold bucket_pair in Hb.
  rewrite rt_as_ref_spec in Hb. destruct (rt_view (smap s) !! b) as [[h [k' e]]|] eqn:Hv; [|done].
  cbn in Hb. injection Hb as Hk' Hw. subst k' w.
  destruct (repr_lookup _ _ _ _ _ _ (rel_map _ _ Hrel) Hv) as [-> Hk].
  destruct (bucket_set_sim s a b k e v Hrel Hv) as (s' & Hs' & Hrel' & Hb').
  exists s'. pose proof (inv_set_value _ _ v _ Hi Hk) as Hi'.
  rewrite (contents_rel _ _ Hrel), (contents_rel _ _ Hrel'),
    (shard_drift_rel _ _ Hrel), (shard_drift_rel _ _ Hrel').
  split_and!; [done| | |apply m_replace_contents|by apply (bucket_pair_sim _ _ _ _ Hb')].
  - eapply shard_step_rel; [done..|]. unfold live. cbn. lia.
  - unfold drift, live, count. cbn. rewrite map_size_insert_Some by eauto. done.
Qed.

(** The entry a readable bucket holds. *)
Lemma bucket_pair_at s a b k v :
  shard_rel s a → bucket_pair b s ⇓ (k, v) → ∃ e, at_bucket s b k e ∧ value e = v.
Proof.
  intros Hrel Hb. unfold bucket_pair in Hb. rewrite rt_as_ref_spec in Hb.
  destruct (rt_view (smap s) !! b) as [[h [k' e]]|] eqn:Hv; [|done]. cbn in Hb.
  injection Hb as -> <-. destruct (repr_lookup _ _ _ _ _ _ (rel_map _ _ Hrel) Hv) as [-> _].
  by exists e.
Qed.

Lemma bucket_contents b k v s : shard_ok s → bucket_pair b s ⇓ (k, v) → contents s !! k = Some v.
Proof.
  intros (a & Hrel & _) Hb. destruct (bucket_pair_at _ _ _ _ _ Hrel Hb) as (e & He & <-).
  by rewrite (contents_rel _ _ Hrel), m_contents_lookup, (at_bucket_model _ _ _ _ _ Hrel He).
Qed.

(** The bucket of a key. *)
Lemma find_bucket k s :
  shard_ok s →
  match contents s !! k with
  | Some v => ∃ b e, rt_find (smap s) (hash_one k) (key_eq k) = Some b ∧
      rt_as_ref (smap s) b = Some (k, e) ∧ value e = v ∧ bucket_pair b s ⇓ (k, v)
  | None => rt_find (smap s) (hash_one k) (key_eq k) = None
  end.
Proof.
  intros (a & Hrel & _). pose proof (find_sim s a k Hrel) as Hf.
  rewrite (contents_rel _ _ Hrel), m_contents_lookup. destruct (m_map a !! k) as [e|]; [|done].
  destruct Hf as (b & Hf & Hb). exists b, e. split_and!; [done|by apply (repr_as_ref _ _ (hash_one k))|done|].
  by apply (bucket_pair_sim _ _ _ _ Hb).
Qed.

(** The search finds the only bucket of its key. *)
Lemma find_at b k v s :
  shard_ok s → bucket_pair b s ⇓ (k, v) → rt_find (smap s) (hash_one k) (key_eq k) = Some b.
Proof.
  intros (a & Hrel & _) Hb. destruct (bucket_pair_at _ _ _ _ _ Hrel Hb) as (e & He & _).
  destruct (repr_find_Some _ _ k e (rel_map _ _ Hrel)) as (b' & -> & Hb').
  - by apply (at_bucket_model _ _ _ _ _ Hrel He).
  - f_equal. by apply (repr_bucket_inj _ _ _ _ _ _ _ _ _ (rel_map _ _ Hrel) Hb' He).
Qed.

Lemma bump_at_ok b k v s :
  shard_ok s → bucket_pair b s ⇓ (k, v) →
  ∃ s', bump_at b s ⇓ s' ∧ shard_get k s ⇓ (s', Some b) ∧ shard_step s s' ∧ contents s' = contents s.
Proof.
  intros Hs Hb. destruct (shard_get_ok k s Hs) as (s' & r & Hget & Hst & _ & Hcont & _).
  exists s'. pose proof Hget as Hg. unfold shard_get in Hg. rewrite (find_at b k v s Hs Hb) in Hg.
  apply bind_Ret in Hg as (s1 & Hb1 & [= -> <-]). by split_and!.
Qed.

(** ** Exact counters *)

(** Inserting [k] queues no key twice. *)
Definition clean k s : Prop :=
  is_Some (contents s !! k) ∨ k ∉ small_keys s ++ main_keys s.

Lemma clean_rel k s a : shard_rel s a → clean k s ↔ clean_key k a.
Proof.
  intros Hrel. unfold clean, clean_key, queued.
  rewrite (contents_rel _ _ Hrel), m_contents_lookup, fmap_is_Some.
  by rewrite (rel_small_keys _ _ Hrel), (rel_main_keys _ _ Hrel).
Qed.

Lemma shard_insert_exact k v s s' r :
  shard_exact s → countable s → clean k s → shard_insert k v s ⇓ (s', r) → shard_exact s'.
Proof.
  intros (a & Hrel & Hi & He) Hc Hcl Hs'.
  destruct (m_insert_spec k v a Hi (countable_rel _ _ Hrel Hc)) as (a0 & Ha0 & Hi0 & _).
  destruct (outcome_rel_Ret _ _ _ _ (shard_insert_sim _ _ k v Hrel) Hs') as ([a' r'] & Ha' & Hrel' & _).
  rewrite Ha' in Ha0. injection Ha0 as <- _. exists a'. split_and!; [done..|].
  eapply (m_insert_exact k v a); [done..| |by apply (countable_rel s)|exact Ha'].
  by rewrite <-(clean_rel _ _ _ Hrel).
Qed.

Lemma exact_live s : shard_exact s → total_live s ⇓ shard_len s ∧ shard_drift s = 0.
Proof.
  intros (a & Hrel & Hi & He). pose proof (exact_drift _ Hi He) as Hd.
  rewrite <-(shard_drift_rel _ _ Hrel) in Hd. split; [|done].
  rewrite (total_live_rel _ _ Hrel), (m_total_live_live _ Hi), <-(shard_live_rel _ _ Hrel).
  f_equal. unfold shard_drift in Hd. lia.
Qed.
End shard_spec.
