(* ===== verification/Policy.v ===== *)
(** * Policy: S3-FIFO as a deterministic step relation

    What eviction decides, apart from hashes, buckets and loops: the state of
    the policy is read off a shard by [policy], and [s3_step] is one eviction.
    The step is a function of the state ([s3_step_det]), and for a main queue
    without repeated keys the sweep of that queue has a closed form: its victim
    is the first key of the least frequency ([sweep_first_least]). *)

From stdpp Require Import base gmap list.
From S2P Require Import Prelude Machine RawTable Util Shard ShardOps ShardModel ShardSim.
From S2P Require Import Evict Safety Exact ShardSpec.

Open Scope Z_scope.

Inductive action (K : Type) := Promoted (k : K) | EvictedSmall (k : K) | EvictedMain (k : K).

Arguments Promoted {K} k.
Arguments EvictedSmall {K} k.
Arguments EvictedMain {K} k.

Section policy.
Context {K V : Type} `{Countable K} `{!BuildHasher K} `{!Target}.
Implicit Types (a : Model K V) (m : gmap K (CacheEntry V)) (k : K) (q : list K) (e : CacheEntry V).

(** [k] is the oldest key of [q] that is still stored, with the entry [e];
    [q'] are the keys behind it. *)
Definition oldest m q k e q' : Prop :=
  m !! k = Some e ∧ ∃ pre, q = pre ++ k :: q' ∧ Forall (λ k', m !! k' = None) pre.

(** The ghost set with one more hash: it is emptied when it is full. *)
Definition ghost_with (h : Z) a : gset Z :=
  {[h]} ∪ (if Z.of_nat (size (m_ghost a)) >=? m_ghost_cap a then ∅ else m_ghost a).

(** An over-full small queue gives up its oldest stored key: promoted to the
    tail of the main queue if it was accessed, and otherwise evicted, its hash
    remembered. When the small queue is within its limit, or no key of it is
    stored any more, the main queue is swept. *)
Inductive s3_step a : action K → Model K V → Prop :=
| s3_promote k e q :
    m_small_cap a ≤ m_small_live a → oldest (m_map a) (m_small a) k e q → 0 < freq e →
    s3_step a (Promoted k)
      (mkModel (<[k := with_loc LOC_MAIN e]> (m_map a)) q (m_main a ++ [k]) (m_ghost a)
         (m_small_live a - 1) (m_main_live a + 1) (m_cap a) (m_small_cap a) (m_ghost_cap a))
| s3_evict_small k e q :
    m_small_cap a ≤ m_small_live a → oldest (m_map a) (m_small a) k e q → freq e = 0 →
    s3_step a (EvictedSmall k)
      (mkModel (delete k (m_map a)) q (m_main a) (ghost_with (hash_one k) a)
         (m_small_live a - 1) (m_main_live a) (m_cap a) (m_small_cap a) (m_ghost_cap a))
| s3_evict_main k m' q :
    m_small_live a < m_small_cap a → sweep (m_map a) (m_main a) m' q k →
    s3_step a (EvictedMain k)
      (mkModel m' (m_small a) q (m_ghost a)
         (m_small_live a) (m_main_live a - 1) (m_cap a) (m_small_cap a) (m_ghost_cap a))
| s3_fall_through k m' q :
    m_small_cap a ≤ m_small_live a → Forall (λ k', m_map a !! k' = None) (m_small a) →
    sweep (m_map a) (m_main a) m' q k →
    s3_step a (EvictedMain k)
      (mkModel m' [] q (m_ghost a)
         (m_small_live a) (m_main_live a - 1) (m_cap a) (m_small_cap a) (m_ghost_cap a)).

Lemma m_pop_oldest m q k e q' : m_pop m q = Some (k, e, q') → oldest m q k e q'.
Proof. by intros [Hk Hpre]%m_pop_Some. Qed.

Lemma evict_step_s3 a a' : evict_step a a' → ∃ act, s3_step a act a'.
Proof.
  intros [k e q Hge Hp Hf | k e q Hge Hp Hf | k e m1 q small' Hsm Hv Hsw].
  - exists (Promoted k). by apply (s3_promote a k e q); [|apply m_pop_oldest|].
  - exists (EvictedSmall k). by apply (s3_evict_small a k e q); [|apply m_pop_oldest|].
  - exists (EvictedMain k). destruct Hsm as [[Hlt ->] | (Hge & Hp & ->)].
    + by apply (s3_evict_main a k (delete k m1) q).
    + apply (s3_fall_through a k (delete k m1) q); [done| |done]. apply Forall_forall.
      intros k' Hk'. by eapply m_pop_None.
Qed.

(** ** The step is deterministic *)

Lemma sweep_det m q m1 q1 k1 m2 q2 k2 :
  sweep m q m1 q1 k1 → sweep m q m2 q2 k2 → m1 = m2 ∧ q1 = q2 ∧ k1 = k2.
Proof.
  intros Hs. revert m2 q2 k2. induction Hs; intros m2 q2 k2 Hs2; inversion Hs2; simplify_eq; try lia; eauto.
Qed.

Lemma oldest_det m q k1 e1 q1 k2 e2 q2 :
  oldest m q k1 e1 q1 → oldest m q k2 e2 q2 → k1 = k2 ∧ e1 = e2 ∧ q1 = q2.
Proof.
  intros (Hk1 & pre1 & -> & Hp1) (Hk2 & pre2 & Heq & Hp2). revert pre2 Heq Hp2.
  induction pre1 as [|x pre1 IH]; intros [|y pre2] Heq Hp2; cbn in Heq; simplify_eq.
  - done.
  - apply Forall_cons in Hp2 as [? _]. congruence.
  - apply Forall_cons in Hp1 as [? _]. congruence.
  - apply Forall_cons in Hp1 as [_ Hp1]. apply Forall_cons in Hp2 as [_ Hp2]. by eapply IH.
Qed.

Lemma oldest_stored m q k e q' : oldest m q k e q' → ¬ Forall (λ k', m !! k' = None) q.
Proof. intros (Hk & pre & -> & _) [_ [Hn _]%Forall_cons]%Forall_app. congruence. Qed.

Lemma s3_step_det a act1 a1 act2 a2 : s3_step a act1 a1 → s3_step a act2 a2 → act1 = act2 ∧ a1 = a2.
Proof.
  intros [k1 e1 q1 H1 Ho1 Hf1|k1 e1 q1 H1 Ho1 Hf1|k1 m1 q1 H1 Hs1|k1 m1 q1 H1 Hn1 Hs1]
         [k2 e2 q2 H2 Ho2 Hf2|k2 e2 q2 H2 Ho2 Hf2|k2 m2 q2 H2 Hs2|k2 m2 q2 H2 Hn2 Hs2]; try lia;
    try (destruct (oldest_det _ _ _ _ _ _ _ _ Ho1 Ho2) as (-> & -> & ->); done || lia);
    try (destruct (sweep_det _ _ _ _ _ _ _ _ Hs1 Hs2) as (-> & -> & ->); done);
    exfalso; by eapply oldest_stored.
Qed.

(** ** The victim of a sweep *)

(** [k] is the first key of [q] among those of the least frequency. *)
Definition first_least m q k : Prop :=
  ∃ pre post e, q = pre ++ k :: post ∧ m !! k = Some e ∧
    Forall (λ k', ∀ e', m !! k' = Some e' → freq e < freq e') pre ∧
    Forall (λ k', ∀ e', m !! k' = Some e' → freq e ≤ freq e') post.

(** A key that was spared waits for its next turn at the end of the queue. *)
Lemma first_least_spared m k e q victim :
  m !! k = Some e → k ∉ q → first_least (<[k := with_freq (freq e - 1) e]> m) (q ++ [k]) victim →
  first_least m (k :: q) victim.
Proof.
  intros Hk Hq (pre & post & e1 & Heq & Hv & Hpre & Hpost).
  assert (Hback : ∀ (P : CacheEntry V → Prop) l, l ⊆ q →
    Forall (λ k', ∀ e', <[k := with_freq (freq e - 1) e]> m !! k' = Some e' → P e') l →
    Forall (λ k', ∀ e', m !! k' = Some e' → P e') l).
  { intros P l Hl HP. apply Forall_forall. intros k' Hk' e' He'. rewrite Forall_forall in HP.
    apply (HP k' Hk'). rewrite lookup_insert_ne; [done|]. intros ->. by apply Hq, Hl. }
  destruct post as [|x post _] using rev_ind.
  - apply app_inj_tail in Heq as [-> <-]. rewrite lookup_insert_eq in Hv. injection Hv as <-.
    exists [], pre, e. split_and!; [done|done|constructor|].
    apply (Hback (λ e', freq e ≤ freq e')); [done|]. eapply Forall_impl; [exact Hpre|]. cbn. intros k' Hlt e' He'.
    specialize (Hlt e' He'). lia.
  - rewrite app_comm_cons, app_assoc in Heq. apply app_inj_tail in Heq as [-> <-].
    assert (Hne : k ≠ victim) by (intros ->; apply Hq, elem_of_app; right; by left).
    rewrite lookup_insert_ne in Hv by done. apply Forall_app in Hpost as [Hpost Hlast].
    rewrite Forall_singleton in Hlast. specialize (Hlast _ (lookup_insert_eq _ _ _)). cbn in Hlast.
    exists (k :: pre), post, e1. split_and!; [done|done| |].
    + constructor; [intros e' He'; assert (e' = e) as -> by congruence; lia|].
      apply (Hback (λ e', freq e1 < freq e')); [|done]. set_solver.
    + apply (Hback (λ e', freq e1 ≤ freq e')); [|done]. set_solver.
Qed.

Lemma sweep_first_least m q m' q' victim :
  freqs_ok m → NoDup q → sweep m q m' q' victim → first_least m q victim.
Proof.
  intros Hok Hnd Hs. induction Hs as [m m' k q q' victim Hk _ IH|m m' k e q q' victim Hk Hf _ IH|m k e q Hk Hf];
    apply NoDup_cons in Hnd as [Hq Hnd].
  - destruct (IH Hok Hnd) as (pre & post & e & -> & Hv & Hpre & Hpost). exists (k :: pre), post, e.
    split_and!; [done..| |done]. constructor; [congruence|done].
  - apply (first_least_spared m k e); [done..|]. apply IH.
    + apply map_Forall_insert_2; [cbn; lia|done].
    + apply NoDup_app. split_and!; [done| |by apply NoDup_singleton].
      intros k' Hk' ->%list_elem_of_singleton. done.
  - exists [], q, e. split_and!; [done|done|constructor|]. rewrite Hf. apply Forall_forall.
    intros k' _ e' He'. by apply (Hok _ _ He').
Qed.
End policy.

(** ** The policy state of a shard *)

Section shard.
Context {K V : Type} `{Countable K} `{!BuildHasher K} `{!Target}.
Context `{!RawTable (K * CacheEntry V)} `{!RawTableSpec (K * CacheEntry V)}.
Implicit Types (s : ShardData K V) (a : Model K V) (k : K) (v : V).

(** The stored entries, with frequencies and locations. *)
Definition entries s : gmap K (CacheEntry V) := list_to_map (rt_into_iter (smap s)).

Definition policy s : Model K V :=
  mkModel (entries s) (small_keys s) (main_keys s) (ghost_set s) (small_live s) (main_live s)
    (shard_cap s) (small_cap s) (ghost_cap s).

Lemma policy_rel s a : shard_rel s a → policy s = a.
Proof.
  intros Hrel. assert (entries s = m_map a) as He.
  { unfold entries. pose proof (repr_into_iter _ _ (rel_map _ _ Hrel)) as Hp.
    rewrite <-(list_to_map_to_list (m_map a)). apply list_to_map_proper; [|done].
    rewrite Hp. apply NoDup_fst_map_to_list. }
  unfold policy. destruct a; destruct Hrel; cbn in *. congruence.
Qed.

Lemma entries_contents s : shard_ok s → contents s = value <$> entries s.
Proof.
  intros (a & Hrel & _). rewrite (contents_rel _ _ Hrel). by rewrite <-(policy_rel _ _ Hrel).
Qed.

(** A turn of the loop that makes room. *)
Definition s3_turn a a' : Prop := full a ∧ ∃ act, s3_step a act a'.

Lemma room_turns a a' : room_made a a' → rtc s3_turn a a'.
Proof.
  intros Hr. pose proof (room_steps _ _ Hr) as Hs. clear Hr.
  induction Hs as [|a a1 a2 (_ & Hf & Hstep) _ IH]; [done|].
  eapply rtc_l; [|exact IH]. split; [done|by apply evict_step_s3].
Qed.
End shard.
