(* ===== verification/ShardHistory.v ===== *)
(** * ShardHistory: guarantees for every history of a shard

    A history is a sequence of operations on one shard, as the cache methods
    issue them under the write lock of the shard. The theorems hold for every
    history from a new shard, in both overflow regimes. *)

From stdpp Require Import base gmap list.
From S2P Require Import Prelude Machine RawTable Util Shard ShardOps ShardModel ShardSim.
From S2P Require Import Evict Safety Exact ShardSpec.

Open Scope Z_scope.

Section history.
Context {K V : Type} `{Countable K} `{!BuildHasher K} `{!Target}.
Context `{!RawTable (K * CacheEntry V)}.
Implicit Types (s : ShardData K V) (k : K) (v : V).

Inductive shard_op :=
| OpInsert k v
| OpGet k
| OpSet k v                                (* [get_mut], then a write through the guard *)
| OpRemove k
| OpRemoveIf k (f : K → V → bool)
| OpRemoveIfMut k (f : K → V → V * bool)
| OpRetain (f : K → V → V * bool)
| OpClear
| OpReserve (additional : Z)
| OpShrinkToFit.

Definition run_op (op : shard_op) s : outcome (ShardData K V) :=
  match op with
  | OpInsert k v => '(s, _) ← shard_insert k v s; Ret s
  | OpGet k => '(s, _) ← shard_get k s; Ret s
  | OpSet k v =>
      '(s, r) ← shard_get k s;
      match r with Some b => bucket_set b v s | None => Ret s end
  | OpRemove k => '(s, _) ← shard_remove k s; Ret s
  | OpRemoveIf k f => '(s, _) ← shard_remove_if k f s; Ret s
  | OpRemoveIfMut k f => '(s, _) ← shard_remove_if_mut k f s; Ret s
  | OpRetain f => '(_, s) ← shard_retain (λ st k v, (st, f k v)) tt s; Ret s
  | OpClear => clear_all s
  | OpReserve n => Ret (default s (map_try_reserve n s))
  | OpShrinkToFit => Ret (shard_shrink_to_fit s)
  end.

Fixpoint run_ops (ops : list shard_op) s : outcome (ShardData K V) :=
  match ops with
  | [] => Ret s
  | op :: ops' => s ← run_op op s; run_ops ops' s
  end.

(** The operations that remove keys explicitly. *)
Definition removes (op : shard_op) : bool :=
  match op with
  | OpRemove _ | OpRemoveIf _ _ | OpRemoveIfMut _ _ | OpRetain _ => true
  | _ => false
  end.

Definition is_clear (op : shard_op) : bool :=
  match op with OpClear => true | _ => false end.

Lemma run_ops_app ops1 ops2 s :
  run_ops (ops1 ++ ops2) s = (s ← run_ops ops1 s; run_ops ops2 s).
Proof.
  revert s. induction ops1 as [|op ops1 IH]; intros s; [done|]. cbn.
  destruct (run_op op s); cbn; auto.
Qed.

Context `{!RawTableSpec (K * CacheEntry V)}.

(** Every operation returns, whatever state the history has led to. *)
Lemma run_op_ok op s :
  shard_ok s → countable s →
  ∃ s', run_op op s ⇓ s' ∧ shard_step s s' ∧
    (is_clear op = false → shard_drift s ≤ shard_drift s').
Proof.
  intros Hs Hc. destruct op as [k v|k|k v|k|k f|k f|f| |n|]; cbn.
  - destruct (shard_insert_ok k v s Hs Hc) as (s' & -> & Hst & Hd & _). exists s'. auto with lia.
  - destruct (shard_get_ok k s Hs) as (s' & r & -> & Hst & Hd & _). exists s'. auto with lia.
  - destruct (shard_get_ok k s Hs) as (s1 & r & -> & Hst & Hd & Hcont & Hr). cbn.
    destruct (contents s !! k) as [w|] eqn:Hw;
      [|destruct Hr as [-> ->]; by exists s; auto using shard_step_refl with lia].
    destruct Hr as (b & -> & Hb).
    destruct (bucket_set_ok b k v w s1 (step_ok _ _ Hst) Hb) as (s' & -> & Hst' & Hd' & Hc' & _).
    exists s'. split; [done|]. split; [|lia].
    destruct Hst as [Hok1 Hcap1 Hl1], Hst' as [Hok Hcap2 Hl2]. constructor; [done|congruence|].
    rewrite (same_size_live s s'); [lia|done|done|lia|]. rewrite Hc', Hcont.
    apply map_size_insert_Some. by eexists.
  - destruct (shard_remove_ok k s Hs) as (s' & -> & Hst & Hd & _). by exists s'.
  - destruct (shard_remove_if_ok k f s Hs) as (s' & -> & Hst & Hd & _). by exists s'.
  - destruct (shard_remove_if_mut_ok k f s Hs) as (s' & r & -> & Hst & Hd & _). by exists s'.
  - destruct (shard_retain_ok (λ st k v, (st, f k v)) tt s Hs) as (? & s' & _ & -> & Hst & Hd & _).
    by exists s'.
  - destruct (shard_clear_ok s Hs) as (s' & -> & Hst & _). by exists s'.
  - destruct (map_try_reserve n s) as [s'|] eqn:Hr; cbn.
    + destruct (map_try_reserve_ok _ _ _ Hs Hr) as (? & _ & ?). exists s'. auto with lia.
    + exists s. auto using shard_step_refl with lia.
  - destruct (shard_shrink_ok s Hs) as (? & _ & ?). eexists. split; [done|]. auto with lia.
Qed.

(** The counter of an unbounded shard has room for [n] more operations. *)
Definition room_for (n : nat) s : Prop :=
  shard_cap s = 0 → shard_live s + Z.of_nat n < usize_mod.

Lemma room_for_countable n s : room_for (S n) s → countable s.
Proof. intros Hr Hz. specialize (Hr Hz). lia. Qed.

Lemma room_for_step n s s' : room_for (S n) s → shard_step s s' → room_for n s'.
Proof. intros Hr [_ Hc Hl] Hz. rewrite Hc in Hz. specialize (Hr Hz). lia. Qed.

Lemma run_ops_ok ops s :
  shard_ok s → room_for (length ops) s →
  ∃ s', run_ops ops s ⇓ s' ∧ shard_ok s' ∧ shard_cap s' = shard_cap s ∧
    (forallb (negb ∘ is_clear) ops = true → shard_drift s ≤ shard_drift s').
Proof.
  revert s. induction ops as [|op ops IH]; intros s Hs Hr; [by exists s; auto with lia|].
  destruct (run_op_ok op s Hs (room_for_countable _ _ Hr)) as (s1 & Hs1 & Hst & Hd).
  destruct (IH s1 (step_ok _ _ Hst) (room_for_step _ _ _ Hr Hst)) as (s' & Hs' & Hok & Hc & Hd').
  exists s'. cbn [run_ops]. rewrite Hs1. cbn. split_and!; [done..| |].
  - by rewrite Hc, (step_cap _ _ Hst).
  - cbn. intros [Hop Hops]%andb_true_iff. specialize (Hd' Hops).
    apply negb_true_iff in Hop. specialize (Hd Hop). lia.
Qed.

(** With room to spare for [n] further operations. *)
Lemma run_ops_ok_live n ops s :
  shard_ok s → room_for (length ops + n) s →
  ∃ s', run_ops ops s ⇓ s' ∧ shard_ok s' ∧ room_for n s'.
Proof.
  revert s. induction ops as [|op ops IH]; intros s Hs Hr; [by exists s|].
  destruct (run_op_ok op s Hs (room_for_countable _ _ Hr)) as (s1 & Hs1 & Hst & _).
  destruct (IH s1 (step_ok _ _ Hst) (room_for_step _ _ _ Hr Hst)) as (s' & Hs' & Hok & Hr').
  exists s'. cbn. by rewrite Hs1.
Qed.

(** The number of operations an unbounded shard can count. *)
Definition history_ok (cap : Z) (ops : list shard_op) : Prop :=
  is_usize cap ∧ (cap = 0 → Z.of_nat (length ops) < usize_mod).

Lemma history_room map_cap cap ops :
  history_ok cap ops →
  shard_ok (shard_new map_cap cap) ∧ room_for (length ops) (shard_new map_cap cap).
Proof.
  intros [Hcap Hops]. split; [by apply exact_ok, shard_new_ok|].
  unfold room_for, shard_live, shard_new. destruct (cap =? 0); cbn; lia.
Qed.

Lemma shard_new_cap map_cap cap : shard_cap (shard_new map_cap cap : ShardData K V) = cap.
Proof. unfold shard_new. by destruct (cap =? 0). Qed.

(** ** Exact histories *)

Definition shard_tidy s : Prop :=
  ∃ a, shard_rel s a ∧ inv a ∧ exact a ∧ tidy a.

Lemma shard_new_tidy map_cap cap :
  is_usize cap → shard_tidy (shard_new map_cap cap).
Proof.
  intros Hcap. eexists. split; [apply shard_new_rel|].
  assert (Hg : (if cap =? 0 then 0 else cap) = cap) by (destruct (Z.eqb_spec cap 0); lia).
  rewrite Hg. split_and!; [by apply inv_new|apply exact_new|].
  by intros k ?%not_elem_of_nil.
Qed.

Lemma shard_insert_tidy k v s s' r :
  shard_tidy s → countable s → shard_insert k v s ⇓ (s', r) → shard_tidy s'.
Proof.
  intros (a & Hrel & Hi & He & Ht) Hc%(countable_rel _ _ Hrel) Hs'.
  destruct (m_insert_spec k v a Hi Hc) as (a0 & Ha0 & Hi0 & _).
  destruct (outcome_rel_Ret _ _ _ _ (shard_insert_sim _ _ k v Hrel) Hs') as ([a' r'] & Ha' & Hrel' & _).
  rewrite Ha' in Ha0. injection Ha0 as <- _. cbn in Hrel'. exists a'. split_and!; [done..| |].
  - eapply (m_insert_exact k v a); [done..| |done|exact Ha'].
    destruct (m_map a !! k) eqn:Hk; [left; rewrite Hk; by eexists|right]. intros [? ?]%Ht. congruence.
  - unfold m_insert in Ha'. destruct (m_map a !! k) as [e|] eqn:Hk.
    + injection Ha' as <- _. by eapply tidy_replace.
    + apply bind_Ret in Ha' as (a1 & Ha1 & [= <- _]). by eapply (tidy_insert_vacant k v a).
Qed.

Lemma shard_get_tidy k s s' r : shard_tidy s → shard_get k s ⇓ (s', r) → shard_tidy s'.
Proof.
  intros (a & Hrel & Hi & He & Ht) Hs'.
  destruct (shard_get_sim _ _ k Hrel) as (s1 & r1 & Hs1 & Hrel1 & _).
  rewrite Hs1 in Hs'. injection Hs' as <- _. exists (m_get k a).
  split_and!; [done|by apply inv_get|by apply exact_get|].
  unfold m_get, m_update. destruct (m_map a !! k) eqn:Hk; [|done]. by eapply tidy_replace.
Qed.

Lemma bucket_set_tidy b v s s' : shard_tidy s → bucket_set b v s ⇓ s' → shard_tidy s'.
Proof.
  intros (a & Hrel & Hi & He & Ht) Hs'. pose proof Hs' as Hb. unfold bucket_set in Hb.
  rewrite rt_as_ref_spec in Hb. destruct (rt_view (smap s) !! b) as [[h [k e]]|] eqn:Hv; [|done].
  destruct (repr_lookup _ _ _ _ _ _ (rel_map _ _ Hrel) Hv) as [-> Hk].
  destruct (bucket_set_sim s a b k e v Hrel Hv) as (s1 & Hs1 & Hrel1 & _).
  rewrite Hs1 in Hs'. injection Hs' as <-. eexists. split; [exact Hrel1|].
  split_and!; [by apply inv_set_value|by eapply exact_replace|by eapply tidy_replace].
Qed.

Lemma run_op_tidy op s s' :
  removes op = false → shard_tidy s → countable s → run_op op s ⇓ s' → shard_tidy s'.
Proof.
  intros Hop Hs Hc. destruct op as [k v|k|k v|k|k f|k f|f| |n|]; try done; cbn.
  - intros ([s1 r] & Hs1 & [= <-])%bind_Ret. by eapply shard_insert_tidy.
  - intros ([s1 r] & Hs1 & [= <-])%bind_Ret. by eapply shard_get_tidy.
  - intros ([s1 r] & Hs1 & Hs')%bind_Ret. apply shard_get_tidy in Hs1; [|done].
    destruct r; [by eapply bucket_set_tidy | by injection Hs' as <-].
  - destruct Hs as (a & Hrel & Hi & _). destruct (clear_all_sim _ _ Hrel) as (s1 & -> & Hrel1).
    intros [= <-]. exists (m_clear a). split_and!; [done|by apply inv_clear|apply exact_clear|].
    by intros k ?%not_elem_of_nil.
  - intros [= <-]. destruct (map_try_reserve n s) as [s1|] eqn:Hr; [|done]. cbn.
    destruct Hs as (a & Hrel & Ha). exists a. by eauto using map_try_reserve_rel.
  - intros [= <-]. destruct Hs as (a & Hrel & Ha). exists a. by eauto using map_shrink_to_rel.
Qed.

Lemma run_ops_tidy ops s s' :
  forallb (negb ∘ removes) ops = true → shard_tidy s → room_for (length ops) s →
  run_ops ops s ⇓ s' → shard_tidy s'.
Proof.
  revert s. induction ops as [|op ops IH]; intros s Hrem Hs Hr; cbn; [by intros [= <-]|].
  cbn in Hrem. apply andb_true_iff in Hrem as [Hop%negb_true_iff Hops].
  pose proof (room_for_countable _ _ Hr) as Hc.
  intros (s1 & Hs1 & Hs')%bind_Ret. eapply IH; [done| | |done].
  - by eapply run_op_tidy.
  - destruct (run_op_ok op s) as (s2 & Hs2 & Hst & _); [|done|].
    { destruct Hs as (a & ? & ? & _). by exists a. }
    rewrite Hs1 in Hs2. injection Hs2 as <-. by eapply room_for_step.
Qed.
End history.
Arguments shard_op K V : clear implicits.
