(* ===== verification/TryResult.v ===== *)
(** * TryResult: the result of a non-blocking lookup (src/src/try_result.rs) *)

From stdpp Require Import base gmap list.
From S2P Require Import Prelude Machine.

(** [enum TryResult<R>]. *)
Inductive TryResult (R : Type) : Type :=
| Present (r : R)
| Absent
| Locked.

Arguments Present {R} r.
Arguments Absent {R}.
Arguments Locked {R}.

Section try_result.
Context {R : Type}.
Implicit Types (t : TryResult R).

Definition is_present t : bool := match t with Present _ => true | _ => false end.
Definition is_absent t : bool := match t with Absent => true | _ => false end.
Definition is_locked t : bool := match t with Locked => true | _ => false end.

(** [TryResult::unwrap] panics on [Locked] and [Absent]. *)
Definition try_result_unwrap t : outcome R :=
  match t with
  | Present r => Ret r
  | Locked => Panic
  | Absent => Panic
  end.

Definition try_unwrap t : option R :=
  match t with Present r => Some r | _ => None end.
End try_result.
