(* ===== verification/Cache.v ===== *)
(** * Cache: the sharded cache (src/src/lib.rs, src/src/t.rs, src/src/mapref/one.rs)

    [NeoCache] is an array of locked shards; a key is stored in the shard its
    hash selects. Every operation locks one shard at a time, runs the shard
    operation of ShardOps and releases the lock, or hands the lock over to the
    guard it returns ([Ref], [RefMut]). Guards name the locked shard and the
    bucket they point into; reading through a guard reads that bucket, so a
    dangling guard is undefined behaviour. A lock that another live guard
    makes unavailable blocks the operation. *)

From stdpp Require Import base gmap list.
From S2P Require Import Prelude Machine Lock RawTable Util Shard ShardOps TryResult.

Open Scope Z_scope.

Section cache.
Context {K V : Type} `{Countable K} `{!BuildHasher K} `{!Target}.
Context `{!RawTable (K * CacheEntry V)}.

(** [CachePadded<RwLock<ShardData<K, V>>>]: the lock word and what it protects. *)
Record RwLock := mkLock {
  lock_word : Z;
  lock_data : ShardData K V
}.

(** [struct NeoCache]; the hasher is the [BuildHasher] instance. *)
Record NeoCache := mkCache {
  shift : Z;
  shards : list RwLock;
  cache_capacity : Z
}.

Implicit Types (c : NeoCache) (k key : K) (v : V) (i idx : Z).

(** ** Constructors *)

(** [default_shard_amount]; the argument is [available_parallelism()]. *)
Definition default_shard_amount (parallelism : Z) : outcome Z :=
  n ← usize_mul parallelism 16; next_power_of_two n.

Definition ncb (shard_amount : Z) : Z := trailing_zeros shard_amount.

(** [with_capacity_and_hasher_and_shard_amount], the core constructor. *)
Definition with_capacity_and_hasher_and_shard_amount (cap shard_amount : Z) : outcome NeoCache :=
  _ ← rust_assert (shard_amount >? 1);
  _ ← rust_assert (is_power_of_two shard_amount);
  shard_amount ←
    (if (cap >? 0) && (cap / shard_amount <? 4) then
       p ← next_power_of_two (cap / 4); Ret (Z.max p 2)
     else Ret shard_amount);
  shift ← usize_sub ptr_size_bits (ncb shard_amount);
  let shard_cap := if cap =? 0 then 0 else Z.max (div_ceil cap shard_amount) 1 in
  Ret (mkCache shift
         (replicate (Z.to_nat shard_amount) (mkLock lock_init (shard_new 0 shard_cap))) cap).

Definition with_capacity_and_hasher (parallelism cap : Z) : outcome NeoCache :=
  n ← default_shard_amount parallelism;
  with_capacity_and_hasher_and_shard_amount cap n.

(** [with_hasher]: unbounded. *)
Definition with_hasher (parallelism : Z) : outcome NeoCache := with_capacity_and_hasher parallelism 0.

Definition with_shard_amount (cap shard_amount : Z) : outcome NeoCache :=
  with_capacity_and_hasher_and_shard_amount cap shard_amount.
Definition with_hasher_and_shard_amount (shard_amount : Z) : outcome NeoCache :=
  with_capacity_and_hasher_and_shard_amount 0 shard_amount.
Definition new (parallelism cap : Z) : outcome NeoCache :=
  with_capacity_and_hasher parallelism cap.
Definition new_unbounded (parallelism : Z) : outcome NeoCache :=
  with_capacity_and_hasher parallelism 0.
Definition cache_default (parallelism : Z) : outcome NeoCache := with_hasher parallelism.

(** ** Routing *)

Definition hash_u64 k : Z := hash_one k.
Definition hash_usize k : Z := as_usize (hash_u64 k).

(** [determine_shard]. *)
Definition determine_shard c (hash : Z) : outcome Z :=
  h ← usize_shl hash 7; usize_shr h (shift c).

(** ** Shards and their locks *)

Definition _shard_count c : Z := Z.of_nat (length (shards c)).

(** [self.shards.get_unchecked(i)]: out of bounds is undefined behaviour. *)
Definition get_unchecked i c : outcome RwLock := deref (shards c !! Z.to_nat i).

Definition set_shard i (l : RwLock) c : NeoCache :=
  mkCache (shift c) (<[Z.to_nat i := l]> (shards c)) (cache_capacity c).

Definition in_bounds i c : bool := i <? _shard_count c.

(** [_get_read_shard]: access without taking the lock. *)
Definition _get_read_shard i c : outcome (ShardData K V) :=
  _ ← debug_assert (in_bounds i c); l ← get_unchecked i c; Ret (lock_data l).

(** [_yield_read_shard], [_yield_write_shard] and the non-blocking variants:
    the cache with the lock taken. *)
Definition _yield_read_shard i c : outcome NeoCache :=
  _ ← debug_assert (in_bounds i c);
  l ← get_unchecked i c;
  w ← lock_shared (lock_word l);
  Ret (set_shard i (mkLock w (lock_data l)) c).

Definition _yield_write_shard i c : outcome NeoCache :=
  _ ← debug_assert (in_bounds i c);
  l ← get_unchecked i c;
  w ← lock_exclusive (lock_word l);
  Ret (set_shard i (mkLock w (lock_data l)) c).

Definition _try_yield_read_shard i c : outcome (option NeoCache) :=
  _ ← debug_assert (in_bounds i c);
  l ← get_unchecked i c;
  Ret ((λ w, set_shard i (mkLock w (lock_data l)) c) <$> try_lock_shared (lock_word l)).

Definition _try_yield_write_shard i c : outcome (option NeoCache) :=
  _ ← debug_assert (in_bounds i c);
  l ← get_unchecked i c;
  Ret ((λ w, set_shard i (mkLock w (lock_data l)) c) <$> try_lock_exclusive (lock_word l)).

(** Dropping a guard. *)
Definition drop_read i c : outcome NeoCache :=
  l ← get_unchecked i c;
  Ret (set_shard i (mkLock (unlock_shared (lock_word l)).1 (lock_data l)) c).

Definition drop_write i c : outcome NeoCache :=
  l ← get_unchecked i c;
  '(w, _) ← unlock_exclusive (lock_word l);
  Ret (set_shard i (mkLock w (lock_data l)) c).

(** The data behind a guard. *)
Definition guarded i c : outcome (ShardData K V) :=
  l ← get_unchecked i c; Ret (lock_data l).

Definition set_guarded i (s : ShardData K V) c : outcome NeoCache :=
  l ← get_unchecked i c; Ret (set_shard i (mkLock (lock_word l) s) c).

(** An operation that runs under the write lock of shard [i] and releases it. *)
Definition with_write {A} i (f : ShardData K V → outcome (ShardData K V * A)) c :
    outcome (NeoCache * A) :=
  c ← _yield_write_shard i c;
  s ← guarded i c;
  '(s, a) ← f s;
  c ← set_guarded i s c;
  c ← drop_write i c;
  Ret (c, a).

(** ** Keyed operations *)

Definition shard_of c k : outcome Z := determine_shard c (as_usize (hash_u64 k)).

Definition _insert key v c : outcome (NeoCache * option V) :=
  idx ← shard_of c key; with_write idx (shard_insert key v) c.

Definition _remove key c : outcome (NeoCache * option (K * V)) :=
  idx ← shard_of c key; with_write idx (shard_remove key) c.

Definition _remove_if key (f : K → V → bool) c : outcome (NeoCache * option (K * V)) :=
  idx ← shard_of c key; with_write idx (shard_remove_if key f) c.

Definition _remove_if_mut key (f : K → V → V * bool) c : outcome (NeoCache * option (K * V)) :=
  idx ← shard_of c key; with_write idx (shard_remove_if_mut key f) c.

(** ** Guards *)

(** [Ref] and [RefMut]: the locked shard and the bucket of the pointers. *)
Record Ref := mkRef { ref_shard : Z; ref_bucket : bucket }.
Record RefMut := mkRefMut { refmut_shard : Z; refmut_bucket : bucket }.

(** The lookup under a taken lock; the lock is released on a miss. *)
Definition _get key c : outcome (NeoCache * option Ref) :=
  idx ← shard_of c key;
  c ← _yield_read_shard idx c;
  s ← guarded idx c;
  '(s, r) ← shard_get key s;
  c ← set_guarded idx s c;
  match r with
  | Some b => Ret (c, Some (mkRef idx b))
  | None => c ← drop_read idx c; Ret (c, None)
  end.

Definition _get_mut key c : outcome (NeoCache * option RefMut) :=
  idx ← shard_of c key;
  c ← _yield_write_shard idx c;
  s ← guarded idx c;
  '(s, r) ← shard_get key s;
  c ← set_guarded idx s c;
  match r with
  | Some b => Ret (c, Some (mkRefMut idx b))
  | None => c ← drop_write idx c; Ret (c, None)
  end.

Definition _try_get key c : outcome (NeoCache * TryResult Ref) :=
  idx ← shard_of c key;
  r ← _try_yield_read_shard idx c;
  match r with
  | None => Ret (c, Locked)
  | Some c =>
      s ← guarded idx c;
      '(s, r) ← shard_get key s;
      c ← set_guarded idx s c;
      match r with
      | Some b => Ret (c, Present (mkRef idx b))
      | None => c ← drop_read idx c; Ret (c, Absent)
      end
  end.

Definition _try_get_mut key c : outcome (NeoCache * TryResult RefMut) :=
  idx ← shard_of c key;
  r ← _try_yield_write_shard idx c;
  match r with
  | None => Ret (c, Locked)
  | Some c =>
      s ← guarded idx c;
      '(s, r) ← shard_get key s;
      c ← set_guarded idx s c;
      match r with
      | Some b => Ret (c, Present (mkRefMut idx b))
      | None => c ← drop_write idx c; Ret (c, Absent)
      end
  end.

(** [Ref::pair], [RefMut::pair], a write through [RefMut::value_mut], and
    [RefMut::downgrade]. *)
Definition ref_pair (r : Ref) c : outcome (K * V) :=
  s ← guarded (ref_shard r) c; bucket_pair (ref_bucket r) s.
Definition drop_ref (r : Ref) c : outcome NeoCache := drop_read (ref_shard r) c.

Definition refmut_pair (r : RefMut) c : outcome (K * V) :=
  s ← guarded (refmut_shard r) c; bucket_pair (refmut_bucket r) s.
Definition refmut_set (r : RefMut) v c : outcome NeoCache :=
  s ← guarded (refmut_shard r) c;
  s ← bucket_set (refmut_bucket r) v s;
  set_guarded (refmut_shard r) s c.
Definition drop_refmut (r : RefMut) c : outcome NeoCache := drop_write (refmut_shard r) c.

Definition refmut_downgrade (r : RefMut) c : outcome (NeoCache * Ref) :=
  l ← get_unchecked (refmut_shard r) c;
  Ret (set_shard (refmut_shard r) (mkLock (downgrade (lock_word l)).1 (lock_data l)) c,
       mkRef (refmut_shard r) (refmut_bucket r)).

(** [_alter]: the closure may panic. *)
Definition _alter key (f : K → V → outcome V) c : outcome NeoCache :=
  '(c, r) ← _get_mut key c;
  match r with
  | Some r =>
      kv ← refmut_pair r c;
      v' ← map_in_place_2 kv f;
      c ← refmut_set r v' c;
      drop_refmut r c
  | None => Ret c
  end.

(** [_view]. *)
Definition _view {R} key (f : K → V → R) c : outcome (NeoCache * option R) :=
  '(c, r) ← _get key c;
  match r with
  | Some r =>
      '(k, v) ← ref_pair r c;
      c ← drop_ref r c;
      Ret (c, Some (f k v))
  | None => Ret (c, None)
  end.

(** [Map::_contains_key]: the guard is dropped at once. *)
Definition _contains_key key c : outcome (NeoCache * bool) :=
  '(c, r) ← _get key c;
  match r with
  | Some r => c ← drop_ref r c; Ret (c, true)
  | None => Ret (c, false)
  end.

(** ** Operations on all shards *)

(** [self.shards.iter().for_each(|s| ...)] with the lock of one shard taken
    at a time; [for_write] threads the state of a closure. *)
Fixpoint for_write {St} (f : St → ShardData K V → outcome (ShardData K V * St)) (st : St)
    (is_ : list nat) c : outcome (NeoCache * St) :=
  match is_ with
  | [] => Ret (c, st)
  | i :: is' =>
      '(c, st) ← with_write (Z.of_nat i) (f st) c;
      for_write f st is' c
  end.

Fixpoint sum_read (f : ShardData K V → Z) (acc : Z) (is_ : list nat) c : outcome (NeoCache * Z) :=
  match is_ with
  | [] => Ret (c, acc)
  | i :: is' =>
      c ← _yield_read_shard (Z.of_nat i) c;
      s ← guarded (Z.of_nat i) c;
      c ← drop_read (Z.of_nat i) c;
      acc ← usize_add acc (f s);
      sum_read f acc is' c
  end.

Definition all_shards c : list nat := seq 0 (length (shards c)).

Definition _len c : outcome (NeoCache * Z) := sum_read shard_len 0 (all_shards c) c.
Definition _capacity c : outcome (NeoCache * Z) := sum_read shard_capacity 0 (all_shards c) c.

(** [Map::_is_empty]. *)
Definition _is_empty c : outcome (NeoCache * bool) :=
  '(c, n) ← _len c; Ret (c, n =? 0).

Definition _retain {St} (f : St → K → V → St * (V * bool)) (st : St) c : outcome (NeoCache * St) :=
  for_write (λ st s, '(st, s) ← shard_retain f st s; Ret (s, st)) st (all_shards c) c.

(** [Map::_clear]. *)
Definition _clear c : outcome NeoCache :=
  '(c, _) ← _retain (λ st _ v, (st, (v, false))) tt c; Ret c.

(** [NeoCache::clear]. *)
Definition clear c : outcome NeoCache :=
  '(c, _) ← for_write (λ st s, s ← clear_all s; Ret (s, st)) tt (all_shards c) c; Ret c.

Definition _shrink_to_fit c : outcome NeoCache :=
  '(c, _) ← for_write (λ st s, Ret (shard_shrink_to_fit s, st)) tt (all_shards c) c; Ret c.

(** [try_reserve] stops at the first shard that cannot allocate; [false] is
    [Err(TryReserveError)]. *)
Fixpoint try_reserve_loop (additional : Z) (is_ : list nat) c : outcome (NeoCache * bool) :=
  match is_ with
  | [] => Ret (c, true)
  | i :: is' =>
      '(c, ok) ← with_write (Z.of_nat i) (λ s,
        match map_try_reserve additional s with
        | Some s => Ret (s, true)
        | None => Ret (s, false)
        end) c;
      if ok : bool then try_reserve_loop additional is' c else Ret (c, false)
  end.

Definition try_reserve (additional : Z) c : outcome (NeoCache * bool) :=
  try_reserve_loop additional (all_shards c) c.

(** [Clone for NeoCache]: each shard is cloned under its read lock into a
    new lock. *)
Fixpoint clone_loop (is_ : list nat) c : outcome (NeoCache * list RwLock) :=
  match is_ with
  | [] => Ret (c, [])
  | i :: is' =>
      c ← _yield_read_shard (Z.of_nat i) c;
      s ← guarded (Z.of_nat i) c;
      c ← drop_read (Z.of_nat i) c;
      '(c, ls) ← clone_loop is' c;
      Ret (c, mkLock lock_init (shard_clone s) :: ls)
  end.

Definition cache_clone c : outcome (NeoCache * NeoCache) :=
  '(c, ls) ← clone_loop (all_shards c) c;
  Ret (c, mkCache (shift c) ls (cache_capacity c)).

(** ** Operators, [Extend] and [FromIterator] *)

Definition op_shl (pair : K * V) c : outcome (NeoCache * option V) := _insert pair.1 pair.2 c.
Definition op_shr key c : outcome (NeoCache * Ref) :=
  '(c, r) ← _get key c; r ← unwrap r; Ret (c, r).
Definition op_bitor key c : outcome (NeoCache * RefMut) :=
  '(c, r) ← _get_mut key c; r ← unwrap r; Ret (c, r).
Definition op_sub key c : outcome (NeoCache * option (K * V)) := _remove key c.
Definition op_bitand key c : outcome (NeoCache * bool) := _contains_key key c.

Fixpoint extend (pairs : list (K * V)) c : outcome NeoCache :=
  match pairs with
  | [] => Ret c
  | (k, v) :: pairs' => '(c, _) ← _insert k v c; extend pairs' c
  end.

Definition from_iter (parallelism : Z) (pairs : list (K * V)) : outcome NeoCache :=
  c ← cache_default parallelism; extend pairs c.
End cache.

Arguments NeoCache K V {_}.
Arguments RwLock K V {_}.
