(* ===== verification/Guards.v ===== *)
(** * Guards: single-key references and their projections (src/src/mapref/one.rs)

    The accessors of [Ref] and [RefMut], and the mapped guards [MappedRef] and
    [MappedRefMut]: a projection turns a guard of a value into a guard of a
    part of it, and the lock moves along. A pointer to a part of a value is a
    [place]: where to read it and how to write it. A closure that returns a
    [&T] out of a [&V] chooses a place of the value it is given; a closure on
    [&mut V] may also change the value first. *)

From stdpp Require Import base gmap list.
From S2P Require Import Prelude Machine Lock RawTable Util Shard ShardOps TryResult Cache.

Open Scope Z_scope.

(** ** Places *)

(** A place of type [T] in values of type [V]; [pl_get] is [None] on a value
    that does not have the place (another enum variant, an index out of
    range), where the pointer would dangle. *)
Record place (V T : Type) := mkPlace {
  pl_get : V → option T;
  pl_set : T → V → V
}.
Arguments mkPlace {V T} _ _.
Arguments pl_get {V T} _ _.
Arguments pl_set {V T} _ _ _.

Definition place_id {V} : place V V := mkPlace Some (λ t _, t).

(** A place inside a place. *)
Definition place_comp {V T T2} (p : place V T) (q : place T T2) : place V T2 :=
  mkPlace (λ v, pl_get p v ≫= pl_get q)
    (λ t2 v, match pl_get p v with Some t => pl_set p (pl_set q t2 t) v | None => v end).

(** Fields of a pair, the payload of [Some], an element of a vector. *)
Definition place_fst {A B} : place (A * B) A := mkPlace (λ v, Some v.1) (λ a v, (a, v.2)).
Definition place_snd {A B} : place (A * B) B := mkPlace (λ v, Some v.2) (λ b v, (v.1, b)).
Definition place_some {A} : place (option A) A := mkPlace id (λ a _, Some a).
Definition place_index {A} (i : nat) : place (list A) A := mkPlace (λ v, v !! i) (λ a v, <[i := a]> v).

(** The laws of memory: a place that exists holds what was last written to
    it, and writing back what it holds changes nothing. *)
Class Place {V T} (p : place V T) : Prop := {
  place_get_set v t : is_Some (pl_get p v) → pl_get p (pl_set p t v) = Some t;
  place_set_get v t : pl_get p v = Some t → pl_set p t v = v;
  place_set_set v t t' : is_Some (pl_get p v) → pl_set p t (pl_set p t' v) = pl_set p t v
}.

#[global] Instance place_id_ok {V} : Place (@place_id V).
Proof. split; cbn; congruence. Qed.
#[global] Instance place_fst_ok {A B} : Place (@place_fst A B).
Proof. split; try done. by intros [] ? [= <-]. Qed.
#[global] Instance place_snd_ok {A B} : Place (@place_snd A B).
Proof. split; try done. by intros [] ? [= <-]. Qed.
#[global] Instance place_some_ok {A} : Place (@place_some A).
Proof. by split. Qed.
#[global] Instance place_index_ok {A} i : Place (@place_index A i).
Proof.
  split; cbn.
  - intros v t Hv%lookup_lt_is_Some. by apply list_lookup_insert_eq.
  - intros v t Hv. by apply list_insert_id.
  - intros v t t' _. apply list_insert_insert_eq.
Qed.
#[global] Instance place_comp_ok {V T T2} (p : place V T) (q : place T T2) :
  Place p → Place q → Place (place_comp p q).
Proof.
  intros [Hgs Hsg Hss] [Hgs' Hsg' Hss']. split; cbn.
  - intros v t2 [t Ht]. destruct (pl_get p v) as [x|] eqn:Hx; [|done]. cbn in Ht.
    rewrite Hgs by done. cbn. by apply Hgs'.
  - intros v t2. destruct (pl_get p v) as [x|] eqn:Hx; [|done]. cbn. intros Ht.
    rewrite (Hsg' _ _ Ht). by apply Hsg.
  - intros v t2 t2' [t Ht]. destruct (pl_get p v) as [x|] eqn:Hx; [|done]. cbn in Ht.
    rewrite Hgs, Hss, Hss' by done. done.
Qed.

Section guards.
Context {K V : Type} `{Countable K} `{!BuildHasher K} `{!Target}.
Context `{!RawTable (K * CacheEntry V)}.
Implicit Types (c : NeoCache K V) (k : K) (v : V).

(** ** [Ref] and [RefMut] *)

(** [Ref::key], [Ref::value] and [Deref]. *)
Definition ref_key (r : Ref) c : outcome K := '(k, _) ← ref_pair r c; Ret k.
Definition ref_value (r : Ref) c : outcome V := '(_, v) ← ref_pair r c; Ret v.
Definition ref_deref (r : Ref) c : outcome V := ref_value r c.

(** [RefMut::key], [RefMut::value] and [Deref]. A [&mut V] obtained by
    [value_mut], [pair_mut] or [deref_mut] is used by writing to it. *)
Definition refmut_key (r : RefMut) c : outcome K := '(k, _) ← refmut_pair r c; Ret k.
Definition refmut_value (r : RefMut) c : outcome V := '(_, v) ← refmut_pair r c; Ret v.
Definition refmut_deref (r : RefMut) c : outcome V := refmut_value r c.
Definition refmut_deref_mut (r : RefMut) v c : outcome (NeoCache K V) := refmut_set r v c.

(** ** Mapped guards *)

(** [MappedRef] and [MappedRefMut]: the guard, the key and a pointer to a part
    of the value. *)
Record MappedRef (T : Type) := mkMappedRef {
  mref_shard : Z;
  mref_bucket : bucket;
  mref_place : place V T
}.
Record MappedRefMut (T : Type) := mkMappedRefMut {
  mmut_shard : Z;
  mmut_bucket : bucket;
  mmut_place : place V T
}.
Arguments mkMappedRef {T} _ _ _.
Arguments mref_shard {T} _.
Arguments mref_bucket {T} _.
Arguments mref_place {T} _.
Arguments mkMappedRefMut {T} _ _ _.
Arguments mmut_shard {T} _.
Arguments mmut_bucket {T} _.
Arguments mmut_place {T} _.

Section mapped.
Context {T : Type}.
Implicit Types (r : Ref) (g : RefMut) (m : MappedRef T) (w : MappedRefMut T) (t : T).

(** [Ref::map] and [Ref::try_map]. *)
Definition ref_map (f : V → outcome (place V T)) r c : outcome (MappedRef T) :=
  v ← ref_value r c;
  p ← f v;
  Ret (mkMappedRef (ref_shard r) (ref_bucket r) p).

Definition ref_try_map (f : V → outcome (option (place V T))) r c : outcome (MappedRef T + Ref) :=
  v ← ref_value r c;
  o ← f v;
  match o with
  | Some p => Ret (inl (mkMappedRef (ref_shard r) (ref_bucket r) p))
  | None => Ret (inr r)
  end.

(** [MappedRef::pair], [key], [value], [Deref] and [AsRef]. *)
Definition mapped_pair m c : outcome (K * T) :=
  s ← guarded (mref_shard m) c;
  '(k, v) ← bucket_pair (mref_bucket m) s;
  t ← deref (pl_get (mref_place m) v);
  Ret (k, t).
Definition mapped_key m c : outcome K := '(k, _) ← mapped_pair m c; Ret k.
Definition mapped_value m c : outcome T := '(_, t) ← mapped_pair m c; Ret t.
Definition mapped_deref m c : outcome T := mapped_value m c.
Definition mapped_as_ref {TDeref} (as_ref : T → TDeref) m c : outcome TDeref :=
  t ← mapped_value m c; Ret (as_ref t).
Definition drop_mapped m c : outcome (NeoCache K V) := drop_read (mref_shard m) c.

(** [RefMut::map] and [RefMut::try_map]. *)
Definition refmut_map (f : V → outcome (V * place V T)) g c :
    outcome (NeoCache K V * MappedRefMut T) :=
  v ← refmut_value g c;
  '(v, p) ← f v;
  c ← refmut_set g v c;
  Ret (c, mkMappedRefMut (refmut_shard g) (refmut_bucket g) p).

Definition refmut_try_map (f : V → outcome (V * option (place V T))) g c :
    outcome (NeoCache K V * (MappedRefMut T + RefMut)) :=
  v ← refmut_value g c;
  '(v, o) ← f v;
  c ← refmut_set g v c;
  match o with
  | Some p => Ret (c, inl (mkMappedRefMut (refmut_shard g) (refmut_bucket g) p))
  | None => Ret (c, inr g)
  end.

(** [MappedRefMut::pair], [key], [value], [Deref], and a write through
    [value_mut], [pair_mut] or [DerefMut]. *)
Definition mapped_mut_pair w c : outcome (K * T) :=
  s ← guarded (mmut_shard w) c;
  '(k, v) ← bucket_pair (mmut_bucket w) s;
  t ← deref (pl_get (mmut_place w) v);
  Ret (k, t).
Definition mapped_mut_key w c : outcome K := '(k, _) ← mapped_mut_pair w c; Ret k.
Definition mapped_mut_value w c : outcome T := '(_, t) ← mapped_mut_pair w c; Ret t.
Definition mapped_mut_deref w c : outcome T := mapped_mut_value w c.

Definition mapped_mut_set w t c : outcome (NeoCache K V) :=
  s ← guarded (mmut_shard w) c;
  '(_, v) ← bucket_pair (mmut_bucket w) s;
  _ ← deref (pl_get (mmut_place w) v);
  s ← bucket_set (mmut_bucket w) (pl_set (mmut_place w) t v) s;
  set_guarded (mmut_shard w) s c.
Definition mapped_mut_deref_mut w t c : outcome (NeoCache K V) := mapped_mut_set w t c.
Definition drop_mapped_mut w c : outcome (NeoCache K V) := drop_write (mmut_shard w) c.
End mapped.

(** Projecting further. *)
Section further.
Context {T T2 : Type}.

(** [MappedRef::map] and [MappedRef::try_map]. *)
Definition mapped_map (f : T → outcome (place T T2)) (m : MappedRef T) c : outcome (MappedRef T2) :=
  t ← mapped_value m c;
  q ← f t;
  Ret (mkMappedRef (mref_shard m) (mref_bucket m) (place_comp (mref_place m) q)).

Definition mapped_try_map (f : T → outcome (option (place T T2))) (m : MappedRef T) c :
    outcome (MappedRef T2 + MappedRef T) :=
  t ← mapped_value m c;
  o ← f t;
  match o with
  | Some q => Ret (inl (mkMappedRef (mref_shard m) (mref_bucket m) (place_comp (mref_place m) q)))
  | None => Ret (inr m)
  end.

(** [MappedRefMut::map] and [MappedRefMut::try_map]. *)
Definition mapped_mut_map (f : T → outcome (T * place T T2)) (w : MappedRefMut T) c :
    outcome (NeoCache K V * MappedRefMut T2) :=
  t ← mapped_mut_value w c;
  '(t, q) ← f t;
  c ← mapped_mut_set w t c;
  Ret (c, mkMappedRefMut (mmut_shard w) (mmut_bucket w) (place_comp (mmut_place w) q)).

Definition mapped_mut_try_map (f : T → outcome (T * option (place T T2))) (w : MappedRefMut T) c :
    outcome (NeoCache K V * (MappedRefMut T2 + MappedRefMut T)) :=
  t ← mapped_mut_value w c;
  '(t, o) ← f t;
  c ← mapped_mut_set w t c;
  match o with
  | Some q =>
      Ret (c, inl (mkMappedRefMut (mmut_shard w) (mmut_bucket w) (place_comp (mmut_place w) q)))
  | None => Ret (c, inr w)
  end.
End further.
End guards.

Arguments MappedRef V T : clear implicits.
Arguments MappedRefMut V T : clear implicits.
Arguments mkMappedRef {V T} _ _ _.
Arguments mref_shard {V T} _.
Arguments mref_bucket {V T} _.
Arguments mref_place {V T} _.
Arguments mkMappedRefMut {V T} _ _ _.
Arguments mmut_shard {V T} _.
Arguments mmut_bucket {V T} _.
Arguments mmut_place {V T} _.
