(* ===== verification/Entry.v ===== *)
(** * Entry: the entry API (src/src/mapref/entry.rs)

    An [Entry] is a key with the write lock of its shard and either the bucket
    that holds the key or the slot found for it. The methods that consume an
    entry release the lock, or pass it on to the [RefMut] they return. *)

From stdpp Require Import base gmap list.
From S2P Require Import Prelude Machine Lock RawTable Util Shard ShardOps TryResult Cache.

Open Scope Z_scope.

Section entry.
Context {K V : Type} `{Countable K} `{!BuildHasher K} `{!Target}.
Context `{!RawTable (K * CacheEntry V)}.

(** [struct VacantEntry] and [struct OccupiedEntry]; the guard is the index
    of the locked shard. *)
Record VacantEntry := mkVacant {
  ve_shard : Z;
  ve_key : K;
  ve_hash : Z;
  ve_slot : insert_slot
}.

Record OccupiedEntry := mkOccupied {
  oe_shard : Z;
  oe_bucket : bucket;
  oe_key : K
}.

Inductive Entry :=
| Occupied (e : OccupiedEntry)
| Vacant (e : VacantEntry).

Implicit Types (c : NeoCache K V) (k key : K) (v : V).

(** The search of [_entry] and [_try_entry] under the write lock of [idx]. *)
Definition entry_search idx key c : outcome (NeoCache K V * Entry) :=
  s ← guarded idx c;
  let '(t, r) := rt_find_or_find_insert_slot (smap s) (hash_u64 key) (key_eq key) key_hash in
  c ← set_guarded idx (set_map t s) c;
  match r with
  | inl elem => Ret (c, Occupied (mkOccupied idx elem key))
  | inr slot => Ret (c, Vacant (mkVacant idx key (hash_u64 key) slot))
  end.

(** [_entry]. *)
Definition _entry key c : outcome (NeoCache K V * Entry) :=
  idx ← shard_of c key;
  c ← _yield_write_shard idx c;
  entry_search idx key c.

(** [_try_entry]. *)
Definition _try_entry key c : outcome (NeoCache K V * option Entry) :=
  idx ← shard_of c key;
  r ← _try_yield_write_shard idx c;
  match r with
  | None => Ret (c, None)
  | Some c => '(c, e) ← entry_search idx key c; Ret (c, Some e)
  end.

(** [VacantEntry::insert]: ghost check, eviction, insertion and queue
    registration; the guard moves into the returned [RefMut]. *)
Definition vacant_insert (e : VacantEntry) v c : outcome (NeoCache K V * RefMut) :=
  s ← guarded (ve_shard e) c;
  '(s, b) ← vacant_fill (ve_key e) (ve_hash e) (ve_slot e) v s;
  c ← set_guarded (ve_shard e) s c;
  Ret (c, mkRefMut (ve_shard e) b).

(** [VacantEntry::insert_entry]. *)
Definition vacant_insert_entry (e : VacantEntry) v c : outcome (NeoCache K V * OccupiedEntry) :=
  s ← guarded (ve_shard e) c;
  '(s, b) ← entry_fill (ve_key e) (ve_hash e) (ve_slot e) v s;
  c ← set_guarded (ve_shard e) s c;
  Ret (c, mkOccupied (ve_shard e) b (ve_key e)).

(** [VacantEntry::into_key]: dropping the entry releases the lock. *)
Definition vacant_into_key (e : VacantEntry) c : outcome (NeoCache K V * K) :=
  c ← drop_write (ve_shard e) c; Ret (c, ve_key e).

(** [VacantEntry::key]. *)
Definition vacant_key (e : VacantEntry) : K := ve_key e.

(** [OccupiedEntry::get] and [key]. *)
Definition occupied_pair (e : OccupiedEntry) c : outcome (K * V) :=
  s ← guarded (oe_shard e) c; bucket_pair (oe_bucket e) s.
Definition occupied_get (e : OccupiedEntry) c : outcome V :=
  '(_, v) ← occupied_pair e c; Ret v.
Definition occupied_key (e : OccupiedEntry) c : outcome K :=
  '(k, _) ← occupied_pair e c; Ret k.

(** A write through [OccupiedEntry::get_mut]. *)
Definition occupied_set (e : OccupiedEntry) v c : outcome (NeoCache K V) :=
  s ← guarded (oe_shard e) c;
  s ← bucket_set (oe_bucket e) v s;
  set_guarded (oe_shard e) s c.

(** [OccupiedEntry::insert]: [mem::replace] of the value. *)
Definition occupied_insert (e : OccupiedEntry) v c : outcome (NeoCache K V * V) :=
  old ← occupied_get e c; c ← occupied_set e v c; Ret (c, old).

(** [OccupiedEntry::into_ref]. *)
Definition into_ref (e : OccupiedEntry) : RefMut := mkRefMut (oe_shard e) (oe_bucket e).

Definition occupied_into_key (e : OccupiedEntry) c : outcome (NeoCache K V * K) :=
  c ← drop_write (oe_shard e) c; Ret (c, oe_key e).

(** [OccupiedEntry::remove_entry] and [remove]. *)
Definition remove_entry (e : OccupiedEntry) c : outcome (NeoCache K V * (K * V)) :=
  s ← guarded (oe_shard e) c;
  '(s, kv) ← remove_bucket (oe_bucket e) s;
  c ← set_guarded (oe_shard e) s c;
  c ← drop_write (oe_shard e) c;
  Ret (c, kv).

Definition occupied_remove (e : OccupiedEntry) c : outcome (NeoCache K V * V) :=
  '(c, (_, v)) ← remove_entry e c; Ret (c, v).

(** [OccupiedEntry::replace_entry]: a new entry with the location and the
    frequency of the old one, stored under the key of the entry. *)
Definition replace_entry (e : OccupiedEntry) v c : outcome (NeoCache K V * (K * V)) :=
  s ← guarded (oe_shard e) c;
  '(k, old) ← deref (rt_as_ref (smap s) (oe_bucket e));
  let new_entry := with_freq (freq old) (entry_new v (loc old)) in
  t ← deref (rt_write (smap s) (oe_bucket e) (oe_key e, new_entry));
  c ← set_guarded (oe_shard e) (set_map t s) c;
  c ← drop_write (oe_shard e) c;
  Ret (c, (k, value old)).

(** ** [Entry] *)

(** [Entry::and_modify]. *)
Definition and_modify (f : V → V) (e : Entry) c : outcome (NeoCache K V * Entry) :=
  match e with
  | Occupied o => v ← occupied_get o c; c ← occupied_set o (f v) c; Ret (c, Occupied o)
  | Vacant _ => Ret (c, e)
  end.

Definition entry_key (e : Entry) c : outcome K :=
  match e with Occupied o => occupied_key o c | Vacant w => Ret (vacant_key w) end.

Definition into_key (e : Entry) c : outcome (NeoCache K V * K) :=
  match e with Occupied o => occupied_into_key o c | Vacant w => vacant_into_key w c end.

(** [Entry::or_insert_with]; the closure may panic. [or_insert] and
    [or_default] are the cases of a constant. *)
Definition or_insert_with (f : outcome V) (e : Entry) c : outcome (NeoCache K V * RefMut) :=
  match e with
  | Occupied o => Ret (c, into_ref o)
  | Vacant w => v ← f; vacant_insert w v c
  end.

Definition or_insert v (e : Entry) c : outcome (NeoCache K V * RefMut) :=
  match e with
  | Occupied o => Ret (c, into_ref o)
  | Vacant w => vacant_insert w v c
  end.

Definition or_default (v_default : V) (e : Entry) c : outcome (NeoCache K V * RefMut) :=
  match e with
  | Occupied o => Ret (c, into_ref o)
  | Vacant w => vacant_insert w v_default c
  end.

(** [Entry::or_try_insert_with]: an error of the closure drops the vacant
    entry, and with it the lock. *)
Definition or_try_insert_with {E} (f : outcome (V + E)) (e : Entry) c :
    outcome (NeoCache K V * (RefMut + E)) :=
  match e with
  | Occupied o => Ret (c, inl (into_ref o))
  | Vacant w =>
      r ← f;
      match r with
      | inl v => '(c, g) ← vacant_insert w v c; Ret (c, inl g)
      | inr err => c ← drop_write (ve_shard w) c; Ret (c, inr err)
      end
  end.

(** [Entry::insert] and [insert_entry]. *)
Definition entry_insert v (e : Entry) c : outcome (NeoCache K V * RefMut) :=
  match e with
  | Occupied o => '(c, _) ← occupied_insert o v c; Ret (c, into_ref o)
  | Vacant w => vacant_insert w v c
  end.

Definition insert_entry v (e : Entry) c : outcome (NeoCache K V * OccupiedEntry) :=
  match e with
  | Occupied o => '(c, _) ← occupied_insert o v c; Ret (c, o)
  | Vacant w => vacant_insert_entry w v c
  end.
End entry.

Arguments Entry K : clear implicits.
Arguments OccupiedEntry K : clear implicits.
Arguments VacantEntry K : clear implicits.
