(* ===== verification/Unwind.v ===== *)
(** * Unwind: operations whose closure, or the clone of whose key, panics

    In the other files a panic ends the computation. Here the closure of an
    operation may panic and the panic unwinds through the operation, as when
    the caller catches it: the guards of the operation are dropped on the way,
    which releases the lock of the shard, and the cache stays in use. A closure
    that panics gives [None], after whatever it did to the value it was lent;
    an operation that passes the panic on gives [None] with the cache it leaves
    behind. ([alter] and [alter_all] abort the process instead, see
    [map_in_place_2].)

    An insertion of a new key clones the key for the eviction queue; [clones]
    says whether [K::clone] returns there or panics. *)

From stdpp Require Import base gmap list.
From S2P Require Import Prelude Machine Lock RawTable Util Shard ShardOps TryResult Cache Entry.

Open Scope Z_scope.

(** ** Calls with a closure or a key that may panic

    A caller that catches the panic. The guard or entry the last two return is
    dropped, after reading the pair in the case of [or_insert_with]. *)

Inductive closure_call (K V St R : Type) :=
| CallRemoveIf (key : K) (f : K → V → option bool)
| CallRemoveIfMut (key : K) (f : K → V → V * option bool)
| CallView (key : K) (f : K → V → option R)
| CallRetain (f : St → K → V → St * (V * option bool)) (st : St)
| CallInsert (clones : bool) (key : K) (v : V)
| CallOrInsertWith (clones : bool) (key : K) (f : option V)
| CallAndModify (key : K) (f : V → V * option unit).

Inductive call_result (K V St R : Type) :=
| RemovedPair (kv : option (K * V))
| Viewed (r : option R)
| Retained (st : St)
| Inserted (old : option V)
| Stored (kv : K * V)
| Modified.

Arguments CallRemoveIf {K V St R} key f.
Arguments CallRemoveIfMut {K V St R} key f.
Arguments CallView {K V St R} key f.
Arguments CallRetain {K V St R} f st.
Arguments CallInsert {K V St R} clones key v.
Arguments CallOrInsertWith {K V St R} clones key f.
Arguments CallAndModify {K V St R} key f.
Arguments RemovedPair {K V St R} kv.
Arguments Viewed {K V St R} r.
Arguments Retained {K V St R} st.
Arguments Inserted {K V St R} old.
Arguments Stored {K V St R} kv.
Arguments Modified {K V St R}.

Section unwind.
Context {K V : Type} `{Countable K} `{!BuildHasher K} `{!Target}.
Context `{!RawTable (K * CacheEntry V)}.
Implicit Types (c : NeoCache K V) (s : ShardData K V) (k : K) (v : V).

(** ** Keyed operations *)

(** [_remove_if]: the predicate runs before the table is touched. *)
Definition shard_remove_if_unwind key (f : K → V → option bool) s :
    outcome (ShardData K V * option (option (K * V))) :=
  match rt_find (smap s) (hash_one key) (key_eq key) with
  | Some b =>
      '(k, e) ← deref (rt_as_ref (smap s) b);
      match f k (shared_get (value e)) with
      | Some true => '(s, kv) ← remove_bucket b s; Ret (s, Some (Some kv))
      | Some false => Ret (s, Some None)
      | None => Ret (s, None)
      end
  | None => Ret (s, Some None)
  end.

Definition _remove_if_unwind key f c : outcome (NeoCache K V * option (option (K * V))) :=
  idx ← shard_of c key; with_write idx (shard_remove_if_unwind key f) c.

(** [_remove_if_mut]: what the predicate did to the value stays. *)
Definition shard_remove_if_mut_unwind key (f : K → V → V * option bool) s :
    outcome (ShardData K V * option (option (K * V))) :=
  match rt_find (smap s) (hash_one key) (key_eq key) with
  | Some b =>
      '(k, e) ← deref (rt_as_ref (smap s) b);
      let '(v', yes) := f k (value e) in
      t ← deref (rt_write (smap s) b (k, with_value (shared_get_mut v' (value e)) e));
      let s := set_map t s in
      match yes with
      | Some true => '(s, kv) ← remove_bucket b s; Ret (s, Some (Some kv))
      | Some false => Ret (s, Some None)
      | None => Ret (s, None)
      end
  | None => Ret (s, Some None)
  end.

Definition _remove_if_mut_unwind key f c : outcome (NeoCache K V * option (option (K * V))) :=
  idx ← shard_of c key; with_write idx (shard_remove_if_mut_unwind key f) c.

(** [_view]: the [Ref] the closure reads from is dropped in any case. *)
Definition _view_unwind {R} key (f : K → V → option R) c : outcome (NeoCache K V * option (option R)) :=
  '(c, r) ← _get key c;
  match r with
  | Some r =>
      '(k, v) ← ref_pair r c;
      c ← drop_ref r c;
      Ret (c, match f k v with Some x => Some (Some x) | None => None end)
  | None => Ret (c, Some None)
  end.

(** ** Insertion *)

(** The vacant branch of [_insert]: the key is cloned once there is room, before
    the pair is stored. *)
Definition insert_vacant_unwind (clones : bool) key (hash : Z) (slot : insert_slot) v s :
    outcome (ShardData K V * option bucket) :=
  let hit := bool_decide (hash ∈ ghost_set s) in
  let s := set_ghost (ghost_set s ∖ {[hash]}) s in
  let l := if hit then LOC_MAIN else LOC_SMALL in
  s ← make_room s;
  if clones then
    '(t, b) ← deref (rt_insert_in_slot (smap s) hash slot (key, entry_new v l));
    s ← enqueue l hash key (set_map t s);
    Ret (s, Some b)
  else Ret (s, None).

(** [_insert]: replacing the value of a present key clones nothing. *)
Definition shard_insert_unwind (clones : bool) key v s : outcome (ShardData K V * option (option V)) :=
  let hash := hash_one key in
  let '(t, r) := rt_find_or_find_insert_slot (smap s) hash (key_eq key) key_hash in
  let s := set_map t s in
  match r with
  | inl b =>
      '(k, e) ← deref (rt_as_ref (smap s) b);
      t ← deref (rt_write (smap s) b (k, with_value v e));
      Ret (set_map t s, Some (Some (value e)))
  | inr slot =>
      '(s, b) ← insert_vacant_unwind clones key hash slot v s;
      Ret (s, match b with Some _ => Some None | None => None end)
  end.

Definition _insert_unwind (clones : bool) key v c : outcome (NeoCache K V * option (option V)) :=
  idx ← shard_of c key; with_write idx (shard_insert_unwind clones key v) c.

(** ** [_retain] *)

Fixpoint retain_loop_unwind {St} (f : St → K → V → St * (V * option bool)) (st : St)
    (bs : list bucket) s : outcome (ShardData K V * option St) :=
  match bs with
  | [] => Ret (s, Some st)
  | b :: bs' =>
      '(k, e) ← deref (rt_as_ref (smap s) b);
      let '(st, (v', keep)) := f st k (value e) in
      t ← deref (rt_write (smap s) b (k, with_value (shared_get_mut v' (value e)) e));
      let s := set_map t s in
      match keep with
      | None => Ret (s, None)
      | Some true => retain_loop_unwind f st bs' s
      | Some false =>
          t ← deref (rt_erase (smap s) b);
          retain_loop_unwind f st bs' (uncount (loc e) (set_map t s))
      end
  end.

Fixpoint retain_shards_unwind {St} (f : St → K → V → St * (V * option bool)) (st : St)
    (is_ : list nat) c : outcome (NeoCache K V * option St) :=
  match is_ with
  | [] => Ret (c, Some st)
  | i :: is' =>
      '(c, r) ← with_write (Z.of_nat i) (λ s, retain_loop_unwind f st (rt_iter (smap s)) s) c;
      match r with
      | Some st => retain_shards_unwind f st is' c
      | None => Ret (c, None)
      end
  end.

Definition _retain_unwind {St} (f : St → K → V → St * (V * option bool)) (st : St) c :
    outcome (NeoCache K V * option St) :=
  retain_shards_unwind f st (all_shards c) c.

(** ** Entries *)

(** [VacantEntry::insert]: the guard moves into the [RefMut] or is dropped. *)
Definition vacant_fill_unwind (clones : bool) key (hash : Z) (slot : insert_slot) v s :
    outcome (ShardData K V * option bucket) :=
  let hit := bool_decide (hash ∈ ghost_set s) in
  let s := set_ghost (ghost_set s ∖ {[hash]}) s in
  let l := if hit then LOC_MAIN else LOC_SMALL in
  s ← vacant_room (room_fuel s) s;
  if clones then
    '(t, b) ← deref (rt_insert_in_slot (smap s) hash slot (key, entry_new v l));
    s ← enqueue l hash key (set_map t s);
    Ret (s, Some b)
  else Ret (s, None).

Definition vacant_insert_unwind (clones : bool) (e : VacantEntry K) v c : outcome (NeoCache K V * option RefMut) :=
  s ← guarded (ve_shard e) c;
  '(s, b) ← vacant_fill_unwind clones (ve_key e) (ve_hash e) (ve_slot e) v s;
  c ← set_guarded (ve_shard e) s c;
  match b with
  | Some b => Ret (c, Some (mkRefMut (ve_shard e) b))
  | None => c ← drop_write (ve_shard e) c; Ret (c, None)
  end.

(** [Entry::or_insert_with]: when the closure panics, the vacant entry is
    dropped. *)
Definition or_insert_with_unwind (clones : bool) (f : option V) (e : Entry K) c : outcome (NeoCache K V * option RefMut) :=
  match e with
  | Occupied o => Ret (c, Some (into_ref o))
  | Vacant w =>
      match f with
      | Some v => vacant_insert_unwind clones w v c
      | None => c ← drop_write (ve_shard w) c; Ret (c, None)
      end
  end.

(** [Entry::and_modify]: the closure returns normally or panics after a
    change of the value; then the occupied entry is dropped. *)
Definition and_modify_unwind (f : V → V * option unit) (e : Entry K) c :
    outcome (NeoCache K V * option (Entry K)) :=
  match e with
  | Occupied o =>
      v ← occupied_get o c;
      let '(v', r) := f v in
      c ← occupied_set o v' c;
      match r with
      | Some _ => Ret (c, Some (Occupied o))
      | None => c ← drop_write (oe_shard o) c; Ret (c, None)
      end
  | Vacant _ => Ret (c, Some e)
  end.

(** ** The calls *)

Definition finish_ref (r : option RefMut) c : outcome (NeoCache K V * option (K * V)) :=
  match r with
  | Some g => kv ← refmut_pair g c; c ← drop_refmut g c; Ret (c, Some kv)
  | None => Ret (c, None)
  end.

Definition finish_entry (r : option (Entry K)) c : outcome (NeoCache K V * option unit) :=
  match r with
  | Some (Occupied o) => c ← drop_write (oe_shard o) c; Ret (c, Some tt)
  | Some (Vacant w) => c ← drop_write (ve_shard w) c; Ret (c, Some tt)
  | None => Ret (c, None)
  end.

Definition entry_or_insert_with (clones : bool) key (f : option V) c : outcome (NeoCache K V * option (K * V)) :=
  '(c, e) ← _entry key c; '(c, r) ← or_insert_with_unwind clones f e c; finish_ref r c.

Definition entry_and_modify key (f : V → V * option unit) c : outcome (NeoCache K V * option unit) :=
  '(c, e) ← _entry key c; '(c, r) ← and_modify_unwind f e c; finish_entry r c.

Definition finish {A B} (g : A → B) (o : outcome (NeoCache K V * option A)) : outcome (NeoCache K V * option B) :=
  '(c, r) ← o; Ret (c, option_map g r).

Definition run_closure {St R} (call : closure_call K V St R) c : outcome (NeoCache K V * option (call_result K V St R)) :=
  match call with
  | CallRemoveIf k f => finish RemovedPair (_remove_if_unwind k f c)
  | CallRemoveIfMut k f => finish RemovedPair (_remove_if_mut_unwind k f c)
  | CallView k f => finish Viewed (_view_unwind k f c)
  | CallRetain f st => finish Retained (_retain_unwind f st c)
  | CallInsert cl k v => finish Inserted (_insert_unwind cl k v c)
  | CallOrInsertWith cl k f => finish Stored (entry_or_insert_with cl k f c)
  | CallAndModify k f => finish (λ _, Modified) (entry_and_modify k f c)
  end.
End unwind.
