(* ===== verification/Threads.v ===== *)
(** * Threads: cache operations run by concurrent threads

    An operation is a [plan]: the critical sections it goes through, each with
    the shard it locks, the way it takes the lock and what it does to the shard
    under the lock. Two machines run any number of threads, each of which
    carries out a list of jobs.

    - The atomic machine runs a whole critical section in one step.
    - The fine machine takes and releases every lock by the atomic steps of
      LockMachine, a thread of which is a thread here, and runs [bump_freq],
      which happens under a read lock, as the loads and compare-exchanges of
      [AtomicU8::fetch_update]. A data access checks nothing: that the lock is
      held is something to prove.

    An iterator locks the next shard before it lets go of the current one, so
    a section may keep its lock until the next section has taken its own. *)

From stdpp Require Import base gmap list.
From S2P Require Import Prelude Machine Lock LockMachine RawTable Util Shard ShardOps TryResult Cache.

Open Scope Z_scope.

(** The two ways to hold a lock. *)
Inductive mode := Shared | Exclusive.

#[global] Instance mode_eq_dec : EqDecision mode.
Proof. solve_decision. Defined.

Section plans.
Context {K V : Type} `{Countable K} `{!BuildHasher K} `{!Target}.
Context `{!RawTable (K * CacheEntry V)}.

(** The rest of an operation with result [R]: a section under the write lock,
    a section under the read lock, or the lookup of [_get] with the copy of the
    pair behind the guard. [busy] is what follows a failed non-blocking attempt
    to take the lock ([None]: the operation blocks). [hold] keeps the lock
    until the next section has its own, or the operation ends. *)
Inductive plan (R : Type) :=
| Done (r : R)
| Write (busy : option (plan R)) (hold : bool) (i : nat)
    (body : ShardData K V → outcome (ShardData K V * plan R))
| Read (hold : bool) (i : nat) (body : ShardData K V → outcome (plan R))
| Look (busy : option (plan R)) (i : nat) (key : K) (next : option (K * V) → plan R).

Arguments Done {R} r.
Arguments Write {R} busy hold i body.
Arguments Read {R} hold i body.
Arguments Look {R} busy i key next.

(** The lock the next section needs: mode and shard, and what to do if it is
    not available. *)
Definition head {R} (p : plan R) : option (mode * nat) :=
  match p with
  | Done _ => None
  | Write _ _ i _ => Some (Exclusive, i)
  | Read _ i _ => Some (Shared, i)
  | Look _ i _ _ => Some (Shared, i)
  end.

Definition if_busy {R} (p : plan R) : option (plan R) :=
  match p with Write busy _ _ _ | Look busy _ _ _ => busy | _ => None end.

(** The operation of LockMachine that takes the lock. *)
Definition start_lock {R} (p : plan R) (m : mode) : choice :=
  match m, if_busy p with
  | Exclusive, None => StartLockX
  | Exclusive, Some _ => StartTryX
  | Shared, None => StartLockS
  | Shared, Some _ => StartTryS
  end.

(** One step of [fetch_update] on the current value [cur]: first a load, then
    a weak compare-exchange with the value read before. [inl prev]: go on with
    [prev]; [inr o]: done, [o] is stored if there is one. *)
Definition fetch_update (ch : choice) (prev : option Z) (cur : Z) : Z + option Z :=
  let again := match bump_closure cur with Some _ => inl cur | None => inr None end in
  match prev with
  | None => again
  | Some prev => if cas_weak ch cur prev then inr (bump_closure prev) else again
  end.
End plans.

Arguments plan K V {_} R.
Arguments Done {K V _ R} r.
Arguments Write {K V _ R} busy hold i body.
Arguments Read {K V _ R} hold i body.
Arguments Look {K V _ R} busy i key next.

Section machines.
Context {K V : Type} `{Countable K} `{!BuildHasher K} `{!Target}.
Context `{!RawTable (K * CacheEntry V)}.
Context {J R : Type} (plan_of : J → outcome (plan K V R)).
Implicit Types (t i : nat) (p : plan K V R) (s : ShardData K V).

(** What an observer sees: calls, returns, and the critical sections in
    between ([busy]: the lock was not available). *)
Inductive tevent :=
| EvCall t (j : J)
| EvSection t (busy : bool)
| EvReturn t (r : R).

(** ** The atomic machine *)

(** A whole section on the shards [d]. *)
Definition section (busy : bool) p (d : list (ShardData K V)) : outcome (list (ShardData K V) * plan K V R) :=
  match p with
  | Done _ => Blocked
  | Write b _ i body =>
      if busy then match b with Some p => Ret (d, p) | None => Blocked end
      else s ← deref (d !! i); '(s, p) ← body s; Ret (<[i := s]> d, p)
  | Read _ i body =>
      if busy then Blocked else s ← deref (d !! i); p ← body s; Ret (d, p)
  | Look b i key next =>
      if busy then match b with Some p => Ret (d, p) | None => Blocked end
      else
        s ← deref (d !! i);
        '(s, r) ← shard_get key s;
        match r with
        | Some b => kv ← bucket_pair b s; Ret (<[i := s]> d, next (Some kv))
        | None => Ret (<[i := s]> d, next None)
        end
  end.

(** The jobs a thread has not started and the rest of the current one. *)
Record aconfig := mkAConfig {
  a_data : list (ShardData K V);
  a_threads : list (list J * option (plan K V R))
}.

Inductive astep : aconfig → tevent → aconfig → Prop :=
| astep_call d ts t j todo p :
    ts !! t = Some (j :: todo, None) → plan_of j ⇓ p →
    astep (mkAConfig d ts) (EvCall t j) (mkAConfig d (<[t := (todo, Some p)]> ts))
| astep_section d ts t busy todo p d' p' :
    ts !! t = Some (todo, Some p) → section busy p d ⇓ (d', p') →
    astep (mkAConfig d ts) (EvSection t busy) (mkAConfig d' (<[t := (todo, Some p')]> ts))
| astep_return d ts t r todo :
    ts !! t = Some (todo, Some (Done r)) →
    astep (mkAConfig d ts) (EvReturn t r) (mkAConfig d (<[t := (todo, None)]> ts)).

Inductive aexec (α0 : aconfig) : list tevent → aconfig → Prop :=
| aexec_nil : aexec α0 [] α0
| aexec_snoc evs α e α' : aexec α0 evs α → astep α e α' → aexec α0 (evs ++ [e]) α'.

(** ** The fine machine *)

(** Where a thread is. [kept] is a lock it still has from the last section. *)
Inductive ctl :=
| Rest                                            (* between two jobs *)
| Begin (kept : option (mode * nat)) p            (* about to take the lock of [p], or to return *)
| Enter (kept : option (mode * nat)) p            (* inside the lock function *)
| Leave (m : mode) (i : nat) (entered : bool) p   (* releasing [i]; then the body of [p], or its start *)
| Body p                                          (* about to access the shard *)
| Bump (busy : option (plan K V R)) (i : nat) (b : bucket) (prev : option Z) (key : K)
    (next : option (K * V) → plan K V R)          (* in [bump_freq] *)
| Guard (i : nat) (b : bucket) (next : option (K * V) → plan K V R). (* holding a [Ref] *)

Record config := mkConfig {
  locks : list lstate;
  data : list (ShardData K V);
  threads : list (list J * ctl)
}.
Implicit Types (σ : config) (k : ctl).

Definition set_thread t todo k σ : config :=
  mkConfig (locks σ) (data σ) (<[t := (todo, k)]> (threads σ)).
Definition set_data i s σ : config := mkConfig (locks σ) (<[i := s]> (data σ)) (threads σ).
Definition set_lock i l σ : config := mkConfig (<[i := l]> (locks σ)) (data σ) (threads σ).

Definition lock_step i t ch σ : outcome config :=
  l ← deref (locks σ !! i); l ← step t ch l; Ret (set_lock i l σ).

Definition pc_at i t σ : option pc := locks σ !! i ≫= λ l, pcs l !! t.

(** After the access of a section. *)
Definition sequel (m : mode) (hold : bool) i p : ctl :=
  if hold then Begin (Some (m, i)) p else Leave m i false p.

(** Taking a lock. *)
Definition enter_step t todo kept p ch σ : outcome (config * option tevent) :=
  '(_, i) ← deref (head p);
  match pc_at i t σ with
  | Some HoldX | Some HoldS =>
      Ret (set_thread t todo (match kept with Some (m, j) => Leave m j true p | None => Body p end) σ, None)
  | Some Idle =>
      p' ← deref (if_busy p);
      Ret (set_thread t todo (Begin kept p') σ, Some (EvSection t true))
  | Some _ => σ ← lock_step i t ch σ; Ret (σ, None)
  | None => Undefined
  end.

(** Releasing a lock. *)
Definition leave_step t todo i (entered : bool) p ch σ : outcome (config * option tevent) :=
  match pc_at i t σ with
  | Some HoldX | Some HoldS => σ ← lock_step i t StartUnlock σ; Ret (σ, None)
  | Some Idle => Ret (set_thread t todo (if entered then Body p else Begin None p) σ, None)
  | Some _ => σ ← lock_step i t ch σ; Ret (σ, None)
  | None => Undefined
  end.

(** Accessing the shard. *)
Definition body_step t todo p σ : outcome (config * option tevent) :=
  match p with
  | Done _ => Undefined
  | Write _ hold i body =>
      s ← deref (data σ !! i);
      '(s, p) ← body s;
      Ret (set_thread t todo (sequel Exclusive hold i p) (set_data i s σ), Some (EvSection t false))
  | Read hold i body =>
      s ← deref (data σ !! i);
      p ← body s;
      Ret (set_thread t todo (sequel Shared hold i p) σ, Some (EvSection t false))
  | Look busy i key next =>
      s ← deref (data σ !! i);
      match rt_find (smap s) (hash_one key) (key_eq key) with
      | Some b => Ret (set_thread t todo (Bump busy i b None key next) σ, None)
      | None => Ret (set_thread t todo (Leave Shared i false (next None)) σ, Some (EvSection t false))
      end
  end.

Definition bump_step t todo busy i b prev key next ch σ : outcome (config * option tevent) :=
  s ← deref (data σ !! i);
  '(k, e) ← deref (rt_as_ref (smap s) b);
  match fetch_update ch prev (freq e) with
  | inl prev => Ret (set_thread t todo (Bump busy i b (Some prev) key next) σ, None)
  | inr None => Ret (set_thread t todo (Guard i b next) σ, Some (EvSection t false))
  | inr (Some f) =>
      m ← deref (rt_write (smap s) b (k, with_freq f e));
      Ret (set_thread t todo (Guard i b next) (set_data i (set_map m s) σ), Some (EvSection t false))
  end.

(** A step of thread [t]; [Blocked] when it has none. *)
Definition cstep t ch σ : outcome (config * option tevent) :=
  match threads σ !! t with
  | None => Blocked
  | Some (todo, k) =>
      match k with
      | Rest =>
          match todo with
          | [] => Blocked
          | j :: todo => p ← plan_of j; Ret (set_thread t todo (Begin None p) σ, Some (EvCall t j))
          end
      | Begin kept (Done r) =>
          match kept with
          | Some (m, i) => Ret (set_thread t todo (Leave m i false (Done r)) σ, None)
          | None => Ret (set_thread t todo Rest σ, Some (EvReturn t r))
          end
      | Begin kept p =>
          '(m, i) ← deref (head p);
          σ ← lock_step i t (start_lock p m) σ;
          Ret (set_thread t todo (Enter kept p) σ, None)
      | Enter kept p => enter_step t todo kept p ch σ
      | Leave m i entered p => leave_step t todo i entered p ch σ
      | Body p => body_step t todo p σ
      | Bump busy i b prev key next => bump_step t todo busy i b prev key next ch σ
      | Guard i b next =>
          s ← deref (data σ !! i);
          kv ← bucket_pair b s;
          Ret (set_thread t todo (Leave Shared i false (next (Some kv))) σ, None)
      end
  end.

(** The next step accesses shard [i]; it may change entries there. *)
Definition accesses k i : Prop :=
  match k with
  | Body p => snd <$> head p = Some i
  | Bump _ j _ _ _ _ | Guard j _ _ => i = j
  | _ => False
  end.

Definition writes k i : Prop := match k with Body (Write _ _ j _) => i = j | _ => False end.

Inductive exec (σ0 : config) : list tevent → config → Prop :=
| exec_nil : exec σ0 [] σ0
| exec_snoc evs σ t ch σ' e :
    exec σ0 evs σ → cstep t ch σ ⇓ (σ', e) → exec σ0 (evs ++ option_list e) σ'.

(** An executable scheduler: the threads to step, in order; a thread that has
    no step is passed over. *)
Fixpoint run_schedule (sched : list (nat * choice)) σ : outcome (config * list tevent) :=
  match sched with
  | [] => Ret (σ, [])
  | (t, ch) :: sched' =>
      match cstep t ch σ with
      | Blocked => run_schedule sched' σ
      | o => '(σ, e) ← o; '(σ, evs) ← run_schedule sched' σ; Ret (σ, option_list e ++ evs)
      end
  end.

Lemma run_schedule_exec sched σ0 evs0 σ σ' evs :
  exec σ0 evs0 σ → run_schedule sched σ ⇓ (σ', evs) → exec σ0 (evs0 ++ evs) σ'.
Proof.
  revert evs0 σ evs. induction sched as [|[t ch] sched IH]; intros evs0 σ evs Hex; cbn [run_schedule].
  { intros [= <- <-]. by rewrite app_nil_r. }
  destruct (cstep t ch σ) as [[σ1 e]| | | | |] eqn:Hst; try done; [|by apply IH]. cbn [mbind outcome_bind].
  intros ([σ2 evs2] & Hrun & [= <- <-])%bind_Ret. rewrite app_assoc.
  eapply IH; [by eapply exec_snoc|done].
Qed.
End machines.

Arguments tevent J R : clear implicits.
Arguments ctl K V {_} R.
Arguments config K V {_} J R.
Arguments aconfig K V {_} J R.
