(* ===== verification/GuardMachine.v ===== *)
(** * GuardMachine: callers that keep guards

    Callers of the cache hold guards ([Ref], [RefMut], [Entry]) over time and
    in any order. A state is the cache with the guards that are alive; an
    action is one call of the public interface, made by any of the callers
    while all the guards of the state exist. [clear] and [retain] take the
    locks of the shards one after the other, so the turn of one shard is an
    action of its own. An action that has to wait for a lock is [Blocked]: it
    does not happen in that state, and other callers go on. *)

From stdpp Require Import base gmap list.
From S2P Require Import Prelude Machine Lock RawTable Util Shard ShardOps TryResult Cache Entry Guards.

Open Scope Z_scope.

Section machine.
Context {K V : Type} `{Countable K} `{!BuildHasher K} `{!Target}.
Context `{!RawTable (K * CacheEntry V)}.
Implicit Types (c : NeoCache K V) (k : K) (v : V) (i id : nat).

Inductive guard :=
| GRef (r : Ref)
| GMut (r : RefMut)
| GEntry (e : Entry K).

(** Guards by the number they were created with. *)
Record state := mkState { s_cache : NeoCache K V; s_live : gmap nat guard }.
Implicit Types (σ : state) (g : guard) (gs : gmap nat guard).

(** The shard a guard holds, and the bucket it points to. *)
Definition guard_shard g : Z :=
  match g with
  | GRef r => ref_shard r
  | GMut r => refmut_shard r
  | GEntry (Occupied o) => oe_shard o
  | GEntry (Vacant w) => ve_shard w
  end.

Definition guard_bucket g : option bucket :=
  match g with
  | GRef r => Some (ref_bucket r)
  | GMut r => Some (refmut_bucket r)
  | GEntry (Occupied o) => Some (oe_bucket o)
  | GEntry (Vacant _) => None
  end.

(** Reading the pair behind a guard; a vacant entry only has its key. *)
Definition guard_pair g c : outcome (option (K * V)) :=
  match g with
  | GRef r => kv ← ref_pair r c; Ret (Some kv)
  | GMut r => kv ← refmut_pair r c; Ret (Some kv)
  | GEntry (Occupied o) => kv ← occupied_pair o c; Ret (Some kv)
  | GEntry (Vacant _) => Ret None
  end.

Inductive action :=
| AGet k | ATryGet k | AGetMut k | ATryGetMut k | AEntry k | ATryEntry k
| AInsert k v | ARemove k | ARemoveIf k (f : K → V → bool) | ARemoveIfMut k (f : K → V → V * bool)
| AClearTurn i | ARetainTurn i (f : K → V → V * bool)
| ARead id | AWrite id v | ADowngrade id | ADrop id
| AEntryInsert id v | AOrInsert id v | AInsertEntry id v | ARemoveEntry id | AReplaceEntry id v.

(** The state after a call that may have returned a guard. *)
Definition keep (o : option guard) c gs : state :=
  match o with
  | Some g => mkState c (<[fresh (dom gs) := g]> gs)
  | None => mkState c gs
  end.

Definition present {A} (r : TryResult A) : option A :=
  match r with Present a => Some a | _ => None end.

Definition drop_guard g c : outcome (NeoCache K V) :=
  match g with
  | GRef r => drop_ref r c
  | GMut r => drop_refmut r c
  | GEntry (Occupied o) => '(c, _) ← occupied_into_key o c; Ret c
  | GEntry (Vacant w) => '(c, _) ← vacant_into_key w c; Ret c
  end.

(** What a method of guard [g] does; [None] if [g] has no such method. *)
Definition method (a : action) g c : option (outcome (NeoCache K V * option guard)) :=
  match a, g with
  | ARead _, _ => Some (_ ← guard_pair g c; Ret (c, Some g))
  | AWrite _ v, GMut r => Some (c ← refmut_set r v c; Ret (c, Some g))
  | AWrite _ v, GEntry (Occupied o) => Some (c ← occupied_set o v c; Ret (c, Some g))
  | ADowngrade _, GMut r => Some ('(c, r) ← refmut_downgrade r c; Ret (c, Some (GRef r)))
  | ADrop _, _ => Some (c ← drop_guard g c; Ret (c, None))
  | AEntryInsert _ v, GEntry e => Some ('(c, r) ← entry_insert v e c; Ret (c, Some (GMut r)))
  | AOrInsert _ v, GEntry e => Some ('(c, r) ← or_insert v e c; Ret (c, Some (GMut r)))
  | AInsertEntry _ v, GEntry e =>
      Some ('(c, o) ← insert_entry v e c; Ret (c, Some (GEntry (Occupied o))))
  | ARemoveEntry _, GEntry (Occupied o) => Some ('(c, _) ← remove_entry o c; Ret (c, None))
  | AReplaceEntry _ v, GEntry (Occupied o) => Some ('(c, _) ← replace_entry o v c; Ret (c, None))
  | _, _ => None
  end.

Definition replace_guard id (o : option guard) c gs : state :=
  mkState c (match o with Some g => <[id := g]> gs | None => delete id gs end).

Definition on_guard id (a : action) σ : outcome state :=
  match s_live σ !! id with
  | None => Ret σ
  | Some g =>
      match method a g (s_cache σ) with
      | None => Ret σ
      | Some o => '(c, g') ← o; Ret (replace_guard id g' c (s_live σ))
      end
  end.

Definition exec (a : action) σ : outcome state :=
  let c := s_cache σ in
  let gs := s_live σ in
  match a with
  | AGet k => '(c, r) ← _get k c; Ret (keep (GRef <$> r) c gs)
  | ATryGet k => '(c, r) ← _try_get k c; Ret (keep (GRef <$> present r) c gs)
  | AGetMut k => '(c, r) ← _get_mut k c; Ret (keep (GMut <$> r) c gs)
  | ATryGetMut k => '(c, r) ← _try_get_mut k c; Ret (keep (GMut <$> present r) c gs)
  | AEntry k => '(c, e) ← _entry k c; Ret (keep (Some (GEntry e)) c gs)
  | ATryEntry k => '(c, r) ← _try_entry k c; Ret (keep (GEntry <$> r) c gs)
  | AInsert k v => '(c, _) ← _insert k v c; Ret (mkState c gs)
  | ARemove k => '(c, _) ← _remove k c; Ret (mkState c gs)
  | ARemoveIf k f => '(c, _) ← _remove_if k f c; Ret (mkState c gs)
  | ARemoveIfMut k f => '(c, _) ← _remove_if_mut k f c; Ret (mkState c gs)
  | AClearTurn i =>
      if in_bounds (Z.of_nat i) c then
        '(c, _) ← with_write (Z.of_nat i) (λ s, s ← clear_all s; Ret (s, tt)) c;
        Ret (mkState c gs)
      else Ret σ
  | ARetainTurn i f =>
      if in_bounds (Z.of_nat i) c then
        '(c, _) ← with_write (Z.of_nat i)
           (λ s, '(st, s) ← shard_retain (λ st k v, (st, f k v)) tt s; Ret (s, st)) c;
        Ret (mkState c gs)
      else Ret σ
  | ARead id | AWrite id _ | ADowngrade id | ADrop id | AEntryInsert id _ | AOrInsert id _
  | AInsertEntry id _ | ARemoveEntry id | AReplaceEntry id _ => on_guard id a σ
  end.

(** The states the callers can bring about from [σ0] in [n] actions. *)
Inductive reach (σ0 : state) : nat → state → Prop :=
| reach_here : reach σ0 0 σ0
| reach_step n a σ σ' : reach σ0 n σ → exec a σ ⇓ σ' → reach σ0 (S n) σ'.
End machine.

Arguments state K V {_}.
Arguments guard K : clear implicits.
Arguments action K V : clear implicits.
