(* ===== verification/Iter.v ===== *)
(** * Iter: iterators over all shards (src/src/iter.rs, src/src/mapref/multiple.rs)

    [Iter] and [IterMut] walk over the shards and keep the lock of the shard
    they are in: a guard behind an [Arc] that every yielded reference
    ([RefMulti], [RefMutMulti]) shares. The lock is released when the last
    owner of the [Arc] is dropped, so the reference counts are part of the
    state: a store of live [Arc]s with the shard they guard. [OwningIter]
    consumes the cache and takes the table out of one shard after the other. *)

From stdpp Require Import base gmap list.
From S2P Require Import Prelude Machine Lock RawTable Util Shard ShardOps TryResult Cache.

Open Scope Z_scope.

(** ** Shared guards *)

(** A live [Arc<RwLock..Guard>]: the guarded shard and the strong count. *)
Record arc_cell := mkArc { arc_shard : Z; arc_strong : nat }.

(** Addresses of [Arc]s. *)
Abbreviation arc := nat (only parsing).

Section iter.
Context {K V : Type} `{Countable K} `{!BuildHasher K} `{!Target}.
Context `{!RawTable (K * CacheEntry V)}.
Implicit Types (c : NeoCache K V) (k : K) (v : V).

(** The cache with the live [Arc]s. *)
Record world := mkWorld { w_cache : NeoCache K V; w_arcs : gmap arc arc_cell }.

(** The kind of lock: [_yield_read_shard] with a read guard, or
    [_yield_write_shard] with a write guard. *)
Record guard_kind := mkKind {
  gk_yield : Z → NeoCache K V → outcome (NeoCache K V);
  gk_drop : Z → NeoCache K V → outcome (NeoCache K V)
}.
Definition read_guard : guard_kind := mkKind _yield_read_shard drop_read.
Definition write_guard : guard_kind := mkKind _yield_write_shard drop_write.

Implicit Types (g : guard_kind) (w : world) (a : arc).

(** [Arc::new(guard)], [Arc::clone] and the drop of an [Arc]. *)
Definition arc_new (i : Z) w : world * arc :=
  let a := fresh (dom (w_arcs w)) in
  (mkWorld (w_cache w) (<[a := mkArc i 1]> (w_arcs w)), a).

Definition arc_clone a w : outcome world :=
  cell ← deref (w_arcs w !! a);
  Ret (mkWorld (w_cache w)
         (<[a := mkArc (arc_shard cell) (S (arc_strong cell))]> (w_arcs w))).

Definition arc_drop g a w : outcome world :=
  cell ← deref (w_arcs w !! a);
  match arc_strong cell with
  | S (S n) => Ret (mkWorld (w_cache w) (<[a := mkArc (arc_shard cell) (S n)]> (w_arcs w)))
  | _ => c ← gk_drop g (arc_shard cell) (w_cache w);
         Ret (mkWorld c (delete a (w_arcs w)))
  end.

(** [Arc::deref]: the shard behind the guard. *)
Definition arc_shard_data a w : outcome (ShardData K V) :=
  cell ← deref (w_arcs w !! a); guarded (arc_shard cell) (w_cache w).

(** ** [Iter] and [IterMut] *)

(** [RefMulti] and [RefMutMulti]: a share of the guard and the bucket. *)
Record RefMulti := mkRefMulti { multi_guard : arc; multi_bucket : bucket }.

(** [Iter] and [IterMut]: the next shard; the guard of the current shard with
    the buckets its [RawIter] has not yielded yet. *)
Record Iter := mkIter { shard_i : Z; current : option (arc * list bucket) }.

(** [Iter::new]. *)
Definition iter_new : Iter := mkIter 0 None.

(** Dropping the contents of [current]. *)
Definition drop_current g (it : Iter) w : outcome world :=
  match current it with
  | Some (a, _) => arc_drop g a w
  | None => Ret w
  end.

(** [next]: the loop makes at most one turn per remaining shard and one more.
    The assignment to [self.current] drops the guard of the previous shard
    after the next one is locked. *)
Fixpoint next_loop g (fuel : nat) (it : Iter) w : outcome (world * Iter * option RefMulti) :=
  match fuel with
  | O => OutOfFuel
  | S fuel' =>
      match current it with
      | Some (a, b :: bs) =>
          s ← arc_shard_data a w;
          _ ← deref (rt_as_ref (smap s) b);
          w ← arc_clone a w;
          Ret (w, mkIter (shard_i it) (Some (a, bs)), Some (mkRefMulti a b))
      | _ =>
          if shard_i it =? _shard_count (w_cache w) then Ret (w, it, None)
          else
            c ← gk_yield g (shard_i it) (w_cache w);
            s ← guarded (shard_i it) c;
            let '(w, a) := arc_new (shard_i it) (mkWorld c (w_arcs w)) in
            w ← drop_current g it w;
            i ← usize_add (shard_i it) 1;
            next_loop g fuel' (mkIter i (Some (a, rt_iter (smap s)))) w
      end
  end.

Definition next g (it : Iter) w : outcome (world * Iter * option RefMulti) :=
  next_loop g (S (Z.to_nat (_shard_count (w_cache w) - shard_i it))) it w.

(** [Iter::next] and [IterMut::next]; a clone of an [Iter] starts over. *)
Definition IterMut : Type := Iter.
Definition RefMutMulti : Type := RefMulti.
Definition iter_mut_new : IterMut := iter_new.
Definition iter_next (it : Iter) w : outcome (world * Iter * option RefMulti) :=
  next read_guard it w.
Definition iter_mut_next (it : IterMut) w : outcome (world * IterMut * option RefMutMulti) :=
  next write_guard it w.
Definition iter_clone (it : Iter) : Iter := iter_new.

(** The drop of the iterator. *)
Definition drop_iter g (it : Iter) w : outcome world := drop_current g it w.

(** [RefMulti::pair], a write through [RefMutMulti::pair_mut], and the drops. *)
Definition multi_pair (r : RefMulti) w : outcome (K * V) :=
  s ← arc_shard_data (multi_guard r) w; bucket_pair (multi_bucket r) s.

Definition multi_key (r : RefMulti) w : outcome K := '(k, _) ← multi_pair r w; Ret k.
Definition multi_value (r : RefMulti) w : outcome V := '(_, v) ← multi_pair r w; Ret v.

Definition multi_set (r : RefMulti) v w : outcome world :=
  cell ← deref (w_arcs w !! multi_guard r);
  s ← guarded (arc_shard cell) (w_cache w);
  s ← bucket_set (multi_bucket r) v s;
  c ← set_guarded (arc_shard cell) s (w_cache w);
  Ret (mkWorld c (w_arcs w)).

(** [RefMutMulti::pair], [key] and [value]: under the write guard. *)
Definition multi_mut_pair (r : RefMutMulti) w : outcome (K * V) :=
  s ← arc_shard_data (multi_guard r) w; bucket_pair (multi_bucket r) s.

Definition multi_mut_key (r : RefMutMulti) w : outcome K := '(k, _) ← multi_mut_pair r w; Ret k.
Definition multi_mut_value (r : RefMutMulti) w : outcome V := '(_, v) ← multi_mut_pair r w; Ret v.

(** [Deref] and [DerefMut]. *)
Definition multi_mut_deref (r : RefMutMulti) w : outcome V := multi_mut_value r w.
Definition multi_deref (r : RefMulti) w : outcome V := multi_value r w.
Definition multi_deref_mut (r : RefMulti) v w : outcome world := multi_set r v w.

Definition drop_multi g (r : RefMulti) w : outcome world := arc_drop g (multi_guard r) w.

(** [for r in iter { body }]: every reference is dropped at the end of its
    turn, the iterator at the end of the loop. A body that fails ([?] in the
    body) leaves the loop; its reference and the iterator are dropped. *)
Fixpoint for_loop {St E} g (body : RefMulti → St → world → outcome (world * (St + E))) (fuel : nat)
    (it : Iter) (st : St) w : outcome (world * (St + E)) :=
  match fuel with
  | O => OutOfFuel
  | S fuel' =>
      '(w, it, r) ← next g it w;
      match r with
      | None => w ← drop_iter g it w; Ret (w, inl st)
      | Some r =>
          '(w, res) ← body r st w;
          w ← drop_multi g r w;
          match res with
          | inl st => for_loop g body fuel' it st w
          | inr err => w ← drop_iter g it w; Ret (w, inr err)
          end
      end
  end.

(** The number of turns of a loop over the whole cache, and one more. *)
Definition all_items c : nat :=
  sum_list (length ∘ rt_iter ∘ smap ∘ lock_data <$> shards c).

Definition try_for_each {St E} g (body : RefMulti → St → world → outcome (world * (St + E)))
    (st : St) c : outcome (world * (St + E)) :=
  for_loop g body (S (all_items c)) iter_new st (mkWorld c ∅).

(** [Iterator::for_each]: the body does not fail. *)
Definition for_each {St} g (body : RefMulti → St → world → outcome (world * St)) (st : St) c :
    outcome (world * St) :=
  '(w, r) ← try_for_each (E:=Empty_set) g (λ r st w, '(w, st) ← body r st w; Ret (w, inl st)) st c;
  match r with inl st => Ret (w, st) | inr err => Empty_set_rect (λ _, _) err end.

(** [for r in &cache { let (k, v) = r.pair(); f(k, v)?; }], the loop of
    [Serialize] and [Debug]. *)
Definition for_pairs {St E} (f : St → K * V → St + E) (st : St) c : outcome (NeoCache K V * (St + E)) :=
  '(w, r) ← try_for_each read_guard (λ r st w, kv ← multi_pair r w; Ret (w, f st kv)) st c;
  Ret (w_cache w, r).

(** All pairs, in the order of the iterator. *)
Definition iter_pairs c : outcome (NeoCache K V * list (K * V)) :=
  '(c, r) ← for_pairs (E:=Empty_set) (λ kvs kv, inl (kvs ++ [kv])) [] c;
  match r with inl kvs => Ret (c, kvs) | inr err => Empty_set_rect (λ _, _) err end.

(** [_alter_all]: the closure is an [FnMut] with state [St] and may panic. *)
Definition _alter_all {St} (f : St → K → V → outcome (St * V)) (st : St) c :
    outcome (NeoCache K V * St) :=
  '(w, st) ← for_each write_guard
     (λ r st w,
        kv ← multi_pair r w;
        '(st, v) ← map_in_place_2 kv (f st);
        w ← multi_set r v w;
        Ret (w, st)) st c;
  Ret (w_cache w, st).

(** ** [OwningIter] *)

(** [current] is the rest of the [RawIntoIter] of the table taken out of the
    current shard. *)
Record OwningIter := mkOwning {
  own_map : NeoCache K V;
  own_shard_i : Z;
  own_current : option (list (K * CacheEntry V))
}.

(** [OwningIter::new], [IntoIterator for NeoCache]. *)
Definition owning_new c : OwningIter := mkOwning c 0 None.

(** [mem::take(&mut shard.map)]: an empty table stays behind. *)
Definition take_table (s : ShardData K V) : outcome (ShardData K V * table (K * CacheEntry V)) :=
  Ret (set_map (rt_with_capacity 0) s, smap s).

Fixpoint owning_loop (fuel : nat) (it : OwningIter) : outcome (OwningIter * option (K * V)) :=
  match fuel with
  | O => OutOfFuel
  | S fuel' =>
      match own_current it with
      | Some ((k, e) :: rest) =>
          Ret (mkOwning (own_map it) (own_shard_i it) (Some rest), Some (k, shared_into_inner (value e)))
      | _ =>
          if own_shard_i it =? _shard_count (own_map it) then Ret (it, None)
          else
            '(c, t) ← with_write (own_shard_i it) take_table (own_map it);
            i ← usize_add (own_shard_i it) 1;
            owning_loop fuel' (mkOwning c i (Some (rt_into_iter t)))
      end
  end.

Definition owning_next (it : OwningIter) : outcome (OwningIter * option (K * V)) :=
  owning_loop (S (Z.to_nat (_shard_count (own_map it) - own_shard_i it))) it.

(** [cache.into_iter().collect()]. *)
Fixpoint owning_collect (fuel : nat) (it : OwningIter) (acc : list (K * V)) :
    outcome (OwningIter * list (K * V)) :=
  match fuel with
  | O => OutOfFuel
  | S fuel' =>
      '(it, r) ← owning_next it;
      match r with
      | None => Ret (it, acc)
      | Some kv => owning_collect fuel' it (acc ++ [kv])
      end
  end.

Definition into_iter_pairs c : outcome (OwningIter * list (K * V)) :=
  owning_collect (S (sum_list (length ∘ rt_into_iter ∘ smap ∘ lock_data <$> shards c)))
    (owning_new c) [].
End iter.

Arguments world K V {_}.
Arguments OwningIter K V {_}.
Arguments guard_kind K V {_}.
