(* ===== verification/MapTrait.v ===== *)
(** * MapTrait: the [Map] trait (src/src/t.rs) and the public interface (src/src/lib.rs)

    [Map] is the interface the public methods of [NeoCache] are written
    against. The class has the required methods of the trait, on a state of
    type [M]; the provided methods are definitions over the class, and
    [NeoCache] is an instance. The public methods forward to the trait. A guard
    that is dropped calls [map_drop_read] or [map_drop_write]. *)

From stdpp Require Import base gmap list.
From S2P Require Import Prelude Machine Lock RawTable Util Shard ShardOps TryResult Cache Entry Iter.

Open Scope Z_scope.

Section trait.
Context {K V : Type} `{!RawTable (K * CacheEntry V)} `{Countable K}.

Class Map (M : Type) := {
  map_shard_count : M → Z;
  map_get_read_shard : Z → M → outcome (ShardData K V);
  map_yield_read_shard : Z → M → outcome M;
  map_yield_write_shard : Z → M → outcome M;
  map_try_yield_read_shard : Z → M → outcome (option M);
  map_try_yield_write_shard : Z → M → outcome (option M);
  map_drop_read : Z → M → outcome M;
  map_drop_write : Z → M → outcome M;
  map_insert : K → V → M → outcome (M * option V);
  map_remove : K → M → outcome (M * option (K * V));
  map_remove_if : K → (K → V → bool) → M → outcome (M * option (K * V));
  map_remove_if_mut : K → (K → V → V * bool) → M → outcome (M * option (K * V));
  map_iter : M → Iter;
  map_iter_mut : M → IterMut;
  map_get : K → M → outcome (M * option Ref);
  map_get_mut : K → M → outcome (M * option RefMut);
  map_try_get : K → M → outcome (M * TryResult Ref);
  map_try_get_mut : K → M → outcome (M * TryResult RefMut);
  map_shrink_to_fit : M → outcome M;
  map_retain {St : Type} : (St → K → V → St * (V * bool)) → St → M → outcome (M * St);
  map_len : M → outcome (M * Z);
  map_capacity : M → outcome (M * Z);
  map_alter : K → (K → V → outcome V) → M → outcome M;
  map_alter_all {St : Type} : (St → K → V → outcome (St * V)) → St → M → outcome (M * St);
  map_view {R : Type} : K → (K → V → R) → M → outcome (M * option R);
  map_entry : K → M → outcome (M * Entry K);
  map_try_entry : K → M → outcome (M * option (Entry K));
  map_hasher : M → K → Z
}.

(** ** Provided methods *)

Context {M : Type} `{!Map M}.
Implicit Types (m : M) (k : K).

(** [self._retain(|_, _| false)]. *)
Definition map_clear m : outcome M :=
  '(m, _) ← map_retain (λ st _ v, (st, (v, false))) tt m; Ret m.

(** [self._get(key).is_some()]; the guard is dropped at once. *)
Definition map_contains_key k m : outcome (M * bool) :=
  '(m, r) ← map_get k m;
  match r with
  | Some r => m ← map_drop_read (ref_shard r) m; Ret (m, true)
  | None => Ret (m, false)
  end.

(** [self._len() == 0]. *)
Definition map_is_empty m : outcome (M * bool) :=
  '(m, n) ← map_len m; Ret (m, n =? 0).
End trait.

Arguments Map K V {_} M.

(** ** [impl Map for NeoCache] *)

Section instance.
Context {K V : Type} `{Countable K} `{!BuildHasher K} `{!Target}.
Context `{!RawTable (K * CacheEntry V)}.
Implicit Types (c : NeoCache K V) (k : K) (v : V).

Definition _iter c : Iter := iter_new.
Definition _iter_mut c : IterMut := iter_mut_new.

(** [_hasher] and [hasher]: the hash function of the map. *)
Definition _hasher c : K → Z := hash_one.
Definition hasher c : K → Z := hash_one.

#[global] Instance neo_map : Map K V (NeoCache K V) := {|
  map_shard_count := _shard_count;
  map_get_read_shard := _get_read_shard;
  map_yield_read_shard := _yield_read_shard;
  map_yield_write_shard := _yield_write_shard;
  map_try_yield_read_shard := _try_yield_read_shard;
  map_try_yield_write_shard := _try_yield_write_shard;
  map_drop_read := drop_read;
  map_drop_write := drop_write;
  map_insert := _insert;
  map_remove := _remove;
  map_remove_if := _remove_if;
  map_remove_if_mut := _remove_if_mut;
  map_iter := _iter;
  map_iter_mut := _iter_mut;
  map_get := _get;
  map_get_mut := _get_mut;
  map_try_get := _try_get;
  map_try_get_mut := _try_get_mut;
  map_shrink_to_fit := _shrink_to_fit;
  map_retain _ f st c := _retain f st c;
  map_len := _len;
  map_capacity := _capacity;
  map_alter := _alter;
  map_alter_all _ f st c := _alter_all f st c;
  map_view _ k f c := _view k f c;
  map_entry := _entry;
  map_try_entry := _try_entry;
  map_hasher := _hasher
|}.

(** ** Public methods *)

Definition api_insert k v c : outcome (NeoCache K V * option V) := map_insert k v c.
Definition api_remove k c : outcome (NeoCache K V * option (K * V)) := map_remove k c.
Definition api_remove_if k f c : outcome (NeoCache K V * option (K * V)) := map_remove_if k f c.
Definition api_remove_if_mut k f c : outcome (NeoCache K V * option (K * V)) := map_remove_if_mut k f c.
Definition api_iter c : Iter := map_iter c.
Definition api_iter_mut c : IterMut := map_iter_mut c.
Definition api_get k c : outcome (NeoCache K V * option Ref) := map_get k c.
Definition api_get_mut k c : outcome (NeoCache K V * option RefMut) := map_get_mut k c.
Definition api_try_get k c : outcome (NeoCache K V * TryResult Ref) := map_try_get k c.
Definition api_try_get_mut k c : outcome (NeoCache K V * TryResult RefMut) := map_try_get_mut k c.
Definition api_shrink_to_fit c : outcome (NeoCache K V) := map_shrink_to_fit c.
Definition api_retain {St} (f : St → K → V → St * (V * bool)) st c : outcome (NeoCache K V * St) :=
  map_retain f st c.
Definition api_len c : outcome (NeoCache K V * Z) := map_len c.
Definition api_is_empty c : outcome (NeoCache K V * bool) := map_is_empty c.
Definition api_capacity c : outcome (NeoCache K V * Z) := map_capacity c.
Definition api_cache_capacity c : Z := cache_capacity c.
Definition api_alter k f c : outcome (NeoCache K V) := map_alter k f c.
Definition api_alter_all {St} (f : St → K → V → outcome (St * V)) st c : outcome (NeoCache K V * St) :=
  map_alter_all f st c.
Definition api_view {R} k (f : K → V → R) c : outcome (NeoCache K V * option R) := map_view k f c.
Definition api_contains_key k c : outcome (NeoCache K V * bool) := map_contains_key k c.
Definition api_entry k c : outcome (NeoCache K V * Entry K) := map_entry k c.
Definition api_try_entry k c : outcome (NeoCache K V * option (Entry K)) := map_try_entry k c.

(** [IntoIterator for &NeoCache], and [IntoParallelIterator]: rayon's
    [par_bridge] turns the iterator into a parallel one (rayon_impl.rs). *)
Definition into_iter_ref c : Iter := api_iter c.
Definition into_par_iter {Bridge : Type} (par_bridge : Iter → Bridge) c : Bridge :=
  par_bridge (api_iter c).
End instance.
