(* ===== verification/Bridge.v ===== *)
(** * Bridge: a cache iterated in parallel (src/src/rayon_impl.rs)

    [into_par_iter] hands the iterator of a cache to rayon's [par_bridge],
    which is a parameter of [MapTrait.into_par_iter]. Here it is instantiated
    by a record of what anyone can do with the iterator and its references: a
    call of [next], the drop of a reference, the drop of the iterator. A run
    is any sequence of these events, as the workers of a parallel iterator
    produce them. *)

From stdpp Require Import base gmap list.
From S2P Require Import Prelude Machine Lock RawTable Util Shard ShardOps TryResult Cache Guards Entry Iter MapTrait.

Open Scope Z_scope.

Section bridge.
Context {K V : Type} `{Countable K} `{!BuildHasher K} `{!Target}.
Context `{!RawTable (K * CacheEntry V)}.
Implicit Types (c : NeoCache K V).

(** The iterator until it is dropped, the references the workers hold, the
    pairs that were handed out, and whether the iterator has ended. The
    reference to the [n]-th pair has number [n]. *)
Record bridge := mkBridge {
  br_world : world K V;
  br_iter : option Iter;
  br_refs : gmap nat RefMulti;
  br_out : list (K * V);
  br_done : bool
}.
Implicit Types (σ : bridge).

(** [IterBridge] over an iterator of [c]. *)
Definition bridge_of c (it : Iter) : bridge := mkBridge (mkWorld c ∅) (Some it) ∅ [] false.

Inductive event := EvNext | EvDrop (n : nat) | EvDropIter.

#[global] Instance event_eq_dec : EqDecision event.
Proof. solve_decision. Defined.

Definition bridge_step (e : event) σ : outcome bridge :=
  match e with
  | EvNext =>
      match br_iter σ with
      | Some it =>
          '(w, it, r) ← iter_next it (br_world σ);
          match r with
          | Some r =>
              kv ← multi_pair r w;
              Ret (mkBridge w (Some it) (<[length (br_out σ) := r]> (br_refs σ))
                     (br_out σ ++ [kv]) (br_done σ))
          | None => Ret (mkBridge w (Some it) (br_refs σ) (br_out σ) true)
          end
      | None => Ret σ
      end
  | EvDrop n =>
      match br_refs σ !! n with
      | Some r =>
          w ← drop_multi read_guard r (br_world σ);
          Ret (mkBridge w (br_iter σ) (delete n (br_refs σ)) (br_out σ) (br_done σ))
      | None => Ret σ
      end
  | EvDropIter =>
      match br_iter σ with
      | Some it =>
          w ← drop_iter read_guard it (br_world σ);
          Ret (mkBridge w None (br_refs σ) (br_out σ) (br_done σ))
      | None => Ret σ
      end
  end.

Fixpoint bridge_run (es : list event) σ : outcome bridge :=
  match es with
  | [] => Ret σ
  | e :: es' => σ ← bridge_step e σ; bridge_run es' σ
  end.
End bridge.

Arguments bridge K V {_}.
