(* ===== verification/Serde.v ===== *)
(** * Serde: serialization of the cache (src/src/ser.rs)

    A data format is third-party code: the class [MapFormat] has the calls of
    serde's [Serializer], [SerializeMap], [Deserializer] and [MapAccess] that
    ser.rs makes, for maps from [K] to [V] (the [Serialize] and [Deserialize]
    of keys and values are part of the calls). A [Result] is a sum, [inl] being
    [Ok]. *)

From stdpp Require Import base gmap list strings.
From S2P Require Import Prelude StdFmt Machine Lock RawTable Util Shard ShardOps TryResult Cache Iter.

Open Scope Z_scope.

Class MapFormat (K V : Type) := {
  document : Type;                                        (* [Ser::Ok], read by [D] *)
  ser_error : Type;                                       (* [Ser::Error] *)
  ser_map : Type;                                         (* [Ser::SerializeMap] *)
  serialize_map : option Z → ser_map + ser_error;
  serialize_entry : ser_map → K * V → ser_map + ser_error;
  serialize_end : ser_map → document + ser_error;
  de_error : Type;                                        (* [D::Error], [A::Error] *)
  map_access : Type;                                      (* [A: MapAccess] *)
  next_entry : map_access → (option (K * V) + de_error) * map_access;
  deserialize_map {T : Type} :
    document → (map_access → outcome (T + de_error)) → outcome (T + de_error)
}.
Arguments document K V {_}.
Arguments ser_error K V {_}.
Arguments ser_map K V {_}.
Arguments de_error K V {_}.
Arguments map_access K V {_}.

Section serde.
Context {K V : Type} `{Countable K} `{!BuildHasher K} `{!Target}.
Context `{!RawTable (K * CacheEntry V)} `{!MapFormat K V}.
Implicit Types (c : NeoCache K V).

(** [Serialize for NeoCache]: the number of entries first, then every pair
    under the read lock of its shard; an error ends the loop. *)
Definition serialize c : outcome (NeoCache K V * (document K V + ser_error K V)) :=
  '(c, n) ← _len c;
  match serialize_map (Some n) with
  | inr err => Ret (c, inr err)
  | inl map =>
      '(c, r) ← for_pairs serialize_entry map c;
      match r with
      | inl map => Ret (c, serialize_end map)
      | inr err => Ret (c, inr err)
      end
  end.

(** [NeoCacheVisitor::expecting]: [write!(formatter, "a map")]. *)
Definition expecting {W} `{!Write W} (w : W) : W * fmt_result := write_str "a map" w.

(** [NeoCacheVisitor::visit_map]: the format decides how long the loop runs,
    so the loop has fuel; the number of threads is that of the machine. *)
Fixpoint visit_loop (fuel : nat) (access : map_access K V) c : outcome (NeoCache K V + de_error K V) :=
  match fuel with
  | O => OutOfFuel
  | S fuel' =>
      match next_entry access with
      | (inr err, _) => Ret (inr err)
      | (inl None, _) => Ret (inl c)
      | (inl (Some (k, v)), access) => '(c, _) ← _insert k v c; visit_loop fuel' access c
      end
  end.

Definition visit_map (fuel : nat) (parallelism : Z) (access : map_access K V) :
    outcome (NeoCache K V + de_error K V) :=
  c ← with_hasher parallelism; visit_loop fuel access c.

(** [Deserialize for NeoCache]. *)
Definition deserialize (fuel : nat) (parallelism : Z) (d : document K V) :
    outcome (NeoCache K V + de_error K V) :=
  deserialize_map d (visit_map fuel parallelism).
End serde.

(** ** What a format promises *)

Section format.
Context {K V : Type} `{!MapFormat K V}.

(** Writing a map entry by entry, with the number of entries announced. *)
Definition write_map (kvs : list (K * V)) : document K V + ser_error K V :=
  match serialize_map (Some (Z.of_nat (length kvs))) with
  | inr err => inr err
  | inl m =>
      match foldl (λ r kv, match r with inl m => serialize_entry m kv | inr err => inr err end) (inl m) kvs with
      | inl m => serialize_end m
      | inr err => inr err
      end
  end.

(** [access] hands out [kvs], then ends, or fails with an error. *)
Inductive yields : map_access K V → list (K * V) → option (de_error K V) → Prop :=
| yields_end a a' : next_entry a = (inl None, a') → yields a [] None
| yields_error a a' err : next_entry a = (inr err, a') → yields a [] (Some err)
| yields_entry a a' kv kvs r :
    next_entry a = (inl (Some kv), a') → yields a' kvs r → yields a (kv :: kvs) r.
End format.

(** A format reads back what it wrote: the entries of a document written
    entry by entry with distinct keys are handed to [visit_map], each once, in
    some order. *)
Class MapFormatSpec (K V : Type) `{!MapFormat K V} : Prop :=
  read_back (kvs : list (K * V)) (d : document K V) :
    NoDup kvs.*1 → write_map kvs = inl d →
    ∃ access kvs', kvs' ≡ₚ kvs ∧ yields access kvs' None ∧
      ∀ T (visit : map_access K V → outcome (T + de_error K V)), deserialize_map d visit = visit access.
