(* ===== verification/ReadOnly.v ===== *)
(** * ReadOnly: the read-only view (src/src/read_only.rs)

    [ReadOnlyView] owns the cache, so nobody can write to it and its lookups
    and iterators read the shards without taking locks. *)

From stdpp Require Import base gmap list.
From S2P Require Import Prelude Machine Lock RawTable Util Shard ShardOps TryResult Cache.

Open Scope Z_scope.

Section read_only.
Context {K V : Type} `{Countable K} `{!BuildHasher K} `{!Target}.
Context `{!RawTable (K * CacheEntry V)}.
Implicit Types (c : NeoCache K V) (k : K) (v : V).

Record ReadOnlyView := mkView { view_map : NeoCache K V }.
Implicit Types (view : ReadOnlyView).

(** [ReadOnlyView::new], [NeoCache::into_read_only] and [ReadOnlyView::into_inner]. *)
Definition view_new c : ReadOnlyView := mkView c.
Definition into_read_only c : ReadOnlyView := view_new c.
Definition into_inner view : NeoCache K V := view_map view.

(** [Clone for ReadOnlyView]. *)
Definition view_clone view : outcome ReadOnlyView :=
  '(_, c) ← cache_clone (view_map view); Ret (mkView c).

(** [len], [is_empty] and [capacity] are those of the cache. *)
Definition view_len view : outcome Z := '(_, n) ← _len (view_map view); Ret n.
Definition view_is_empty view : outcome bool := '(_, b) ← _is_empty (view_map view); Ret b.
Definition view_capacity view : outcome Z := '(_, n) ← _capacity (view_map view); Ret n.

Definition view_get_key_value k view : outcome (option (K * V)) :=
  let hash := hash_u64 k in
  idx ← determine_shard (view_map view) (as_usize hash);
  s ← _get_read_shard idx (view_map view);
  match rt_find (smap s) hash (key_eq k) with
  | Some b => '(k, e) ← deref (rt_as_ref (smap s) b); Ret (Some (k, value e))
  | None => Ret None
  end.

Definition view_get k view : outcome (option V) :=
  r ← view_get_key_value k view; Ret (option_map snd r).

Definition view_contains_key k view : outcome bool :=
  r ← view_get k view; Ret (bool_decide (is_Some r)).

(** The buckets of one shard, then the pairs they hold. *)
Fixpoint view_buckets (s : ShardData K V) (bs : list bucket) : outcome (list (K * V)) :=
  match bs with
  | [] => Ret []
  | b :: bs' =>
      '(k, e) ← deref (rt_as_ref (smap s) b);
      rest ← view_buckets s bs';
      Ret ((k, value e) :: rest)
  end.

Fixpoint view_shards (is_ : list nat) view : outcome (list (K * V)) :=
  match is_ with
  | [] => Ret []
  | i :: is' =>
      s ← _get_read_shard (Z.of_nat i) (view_map view);
      kvs ← view_buckets s (rt_iter (smap s));
      rest ← view_shards is' view;
      Ret (kvs ++ rest)
  end.

(** [iter], [keys] and [values]. *)
Definition view_iter view : outcome (list (K * V)) := view_shards (all_shards (view_map view)) view.
Definition view_keys view : outcome (list K) := kvs ← view_iter view; Ret kvs.*1.
Definition view_values view : outcome (list V) := kvs ← view_iter view; Ret kvs.*2.
End read_only.

Arguments ReadOnlyView K V {_}.
