(* ===== verification/Fmt.v ===== *)
(** * Fmt: formatting (the [Debug] and [Display] implementations)

    The implementations of lib.rs, mapref/one.rs and read_only.rs over the
    formatting traits of StdFmt: any writer, with its errors, in the plain
    ([{:?}]) and the alternate ([{:#?}]) form. *)

From stdpp Require Import base gmap list strings.
From S2P Require Import Prelude Machine Lock RawTable Util Shard ShardOps TryResult Cache Guards Iter ReadOnly StdFmt.

Open Scope Z_scope.

Section fmt.
Context {K V : Type} `{Countable K} `{!BuildHasher K} `{!Target}.
Context `{!RawTable (K * CacheEntry V)} `{!Debug K}.
Context {W : Type} `{!Write W} (alternate : bool).
Implicit Types (c : NeoCache K V) (w : W).

(** The key and the value of a guard. *)
Definition guard_fmt {A} `{!Debug A} (name : string) (key : outcome K) (value : outcome A) w :
    outcome (W * fmt_result) :=
  let b := debug_struct name w in
  k ← key;
  let b := field alternate "k" k b in
  v ← value;
  let b := field alternate "v" v b in
  Ret (finish_struct alternate b).

Definition ref_fmt `{!Debug V} (r : Ref) c w : outcome (W * fmt_result) :=
  guard_fmt "Ref" (ref_key r c) (ref_value r c) w.
Definition refmut_fmt `{!Debug V} (r : RefMut) c w : outcome (W * fmt_result) :=
  guard_fmt "RefMut" (refmut_key r c) (refmut_value r c) w.
Definition mapped_fmt {T} `{!Debug T} (r : MappedRef V T) c w : outcome (W * fmt_result) :=
  guard_fmt "MappedRef" (mapped_key r c) (mapped_value r c) w.
Definition mapped_mut_fmt {T} `{!Debug T} (r : MappedRefMut V T) c w : outcome (W * fmt_result) :=
  guard_fmt "MappedRefMut" (mapped_mut_key r c) (mapped_mut_value r c) w.

(** [Display for MappedRef]. *)
Definition mapped_display {T} `{!Display T} (r : MappedRef V T) c w : outcome (W * fmt_result) :=
  t ← mapped_value r c; Ret (display_fmt t w).

(** [Debug for NeoCache] and [Debug for ReadOnlyView]: the entries of the
    [DebugMap] are added one by one, also after an error of the writer. *)
Definition cache_fmt `{!Debug V} c w : outcome (NeoCache K V * (W * fmt_result)) :=
  '(c, pmap) ← for_pairs (E:=Empty_set) (λ pmap kv, inl (map_entry alternate kv.1 kv.2 pmap)) (debug_map w) c;
  match pmap with
  | inl pmap => Ret (c, finish_map pmap)
  | inr err => Empty_set_rect (λ _, _) err
  end.

Definition view_fmt `{!Debug V} (view : ReadOnlyView K V) w : outcome (W * fmt_result) :=
  '(_, r) ← cache_fmt (view_map view) w; Ret r.
End fmt.
