(* ===== verification/ThreadLocks.v ===== *)
(** * ThreadLocks: threads and their locks

    The role a thread plays for a lock ([Out], taking it, having it, releasing
    it) against the program counter it has in the machine of that lock, and how
    the steps of the lock change roles. *)

From stdpp Require Import base gmap list.
From S2P Require Import Prelude Machine Lock LockMachine LockInv RawTable Util Shard ShardOps TryResult Cache Threads.

Open Scope Z_scope.

(** ** Program counters by role *)

Definition idle (q : pc) : bool := match q with Idle => true | _ => false end.

Definition acquiring (m : mode) (try : bool) (q : pc) : bool :=
  match m, try, q with
  | Exclusive, false, (LockX1 | LockX2 | LockXLoad _ | LockXLoop _ _ | LockXPark | ParkedX) => true
  | Exclusive, true, TryX => true
  | Shared, false, (FastS (First | Second) | FastSCas (First | Second) _ | LockSLoad | LockSLoop _ | LockSPark | ParkedS) => true
  | Shared, true, (FastS Try | FastSCas Try _ | TrySLoad | TrySLoop _) => true
  | _, _, _ => false
  end.

Definition holding (m : mode) (q : pc) : bool :=
  match m, q with Exclusive, HoldX | Shared, HoldS => true | _, _ => false end.

Definition releasing (m : mode) (q : pc) : bool :=
  match m, q with
  | Exclusive, (UnlockX | UnlockXLoad | UnlockXFree _ | UnlockXStore | WakeS | WakeX) => true
  | Shared, (UnlockS | UnlockSSlow | WakeX) => true
  | _, _ => false
  end.

Inductive role := Out | Taking (m : mode) (try : bool) | Has (m : mode) | Dropping (m : mode).

Definition role_ok (r : role) (q : pc) : bool :=
  match r with
  | Out => idle q
  | Taking m try => acquiring m try q || holding m q || try && idle q
  | Has m => holding m q
  | Dropping m => holding m q || releasing m q || idle q
  end.

(** What waking does to a parked thread. *)
Definition woken (q q' : pc) : Prop :=
  q' = q ∨ (q = ParkedS ∧ q' = LockSLoad) ∨ (q = ParkedX ∧ q' = LockXLoad WRITERS_PARKED).

Lemma woken_role r q q' : woken q q' → role_ok r q = true → role_ok r q' = true.
Proof.
  intros [->|[[-> ->]|[-> ->]]]; [done| |]; destruct r as [|[] []|[]|[]]; done.
Qed.

Lemma woken_active q q' : woken q q' → (q = Idle ∨ q = HoldX ∨ q = HoldS) → q' = q.
Proof. intros [->|[[-> ->]|[-> ->]]]; [done|by intros [|[]]..]. Qed.

Section steps.
Context `{!Target}.
Implicit Types (t u : nat) (l : lstate) (m : mode) (ch : choice).

(** A step changes the thread's own counter, and wakes others. *)
Lemma step_local t ch l l' :
  step t ch l ⇓ l' →
  length (pcs l') = length (pcs l) ∧
  (∃ q q', pcs l !! t = Some q ∧ pcs l' !! t = Some q' ∧
     match q with
     | WakeS => q' = Idle
     | WakeX => q' = Idle
     | DowngradeWake => q' = HoldS
     | _ => ∃ w', tstep ch (word l) q ⇓ (w', q')
     end) ∧
  (∀ u q, u ≠ t → pcs l !! u = Some q → ∃ q', pcs l' !! u = Some q' ∧ woken q q').
Proof.
  unfold step. destruct (pcs l !! t) as [q|] eqn:Ht; [|done]. intros Hs.
  assert (Hlt : (t < length (pcs l))%nat) by by eapply lookup_lt_Some.
  assert (Hsame : ∀ q' w, l' = mkState w (<[t := q']> (pcs l)) →
    length (pcs l') = length (pcs l) ∧ pcs l' !! t = Some q' ∧
    ∀ u q, u ≠ t → pcs l !! u = Some q → ∃ q', pcs l' !! u = Some q' ∧ woken q q').
  { intros q' w ->. cbn. split_and!; [by rewrite length_insert|by apply list_lookup_insert_eq|].
    intros u qu Hne Hu. exists qu. rewrite list_lookup_insert_ne by done. by split; [|left]. }
  assert (Hall : ∀ q', l' = mkState (word l) (<[t := q']> (unpark <$> pcs l)) →
    length (pcs l') = length (pcs l) ∧ pcs l' !! t = Some q' ∧
    ∀ u q, u ≠ t → pcs l !! u = Some q → ∃ q', pcs l' !! u = Some q' ∧ woken q q').
  { intros q' ->. cbn. split_and!.
    - by rewrite length_insert, length_fmap.
    - apply list_lookup_insert_eq. by rewrite length_fmap.
    - intros u qu Hne Hu. exists (unpark qu). rewrite list_lookup_insert_ne, list_lookup_fmap, Hu by done.
      split; [done|]. destruct qu; try (by left). right; left; done. }
  assert (Hgen : ('(w, p') ← tstep ch (word l) q; Ret (mkState w (<[t := p']> (pcs l)))) ⇓ l' →
    ∃ q' w', tstep ch (word l) q ⇓ (w', q') ∧ l' = mkState w' (<[t := q']> (pcs l))).
  { intros ([w' q'] & Hw & [= <-])%bind_Ret. by exists q', w'. }
  destruct q;
    try (apply Hgen in Hs as (q' & w' & Hw & ->); destruct (Hsame q' w' eq_refl) as (? & ? & ?);
         split_and!; [done| |done]; eexists _, q'; split_and!; [done|done|by exists w']).
  - injection Hs as <-. destruct (Hall Idle eq_refl) as (? & ? & ?). split_and!; [done| |done]. by eexists _, Idle.
  - destruct ch as [| | | | | | | | |t']; case_bool_decide as Hp; try done; injection Hs as <-;
      try (destruct (Hsame Idle (word l) eq_refl) as (? & ? & ?); split_and!; [done| |done]; by eexists _, Idle).
    split_and!; cbn.
    + by rewrite !length_insert.
    + eexists _, Idle. split_and!; [done| |done]. apply list_lookup_insert_eq. by rewrite length_insert.
    + intros u qu Hne Hu. rewrite list_lookup_insert_ne by done. destruct (decide (u = t')) as [->|Hne'].
      * exists (LockXLoad WRITERS_PARKED). rewrite list_lookup_insert_eq by by eapply lookup_lt_Some.
        split; [done|]. right; right. split; [congruence|done].
      * exists qu. rewrite list_lookup_insert_ne by done. by split; [|left].
  - injection Hs as <-. destruct (Hall HoldS eq_refl) as (? & ? & ?). split_and!; [done| |done]. by eexists _, HoldS.
Qed.

Ltac tstep_cases :=
  unfold rust_assert in *; repeat (case_match; try done); simplify_eq/=; try done.

Lemma acquiring_step m try ch w q w' q' :
  acquiring m try q = true → tstep ch w q ⇓ (w', q') →
  role_ok (Taking m try) q' = true.
Proof.
  intros Ha Hs. unfold role_ok.
  destruct m, try, q; try done; cbn in Hs; try (destruct a; try done); tstep_cases.
Qed.

Lemma releasing_step m ch w q w' q' :
  releasing m q = true → tstep ch w q ⇓ (w', q') → role_ok (Dropping m) q' = true.
Proof.
  intros Ha Hs. unfold role_ok. destruct m, q; try done; cbn in Hs; tstep_cases.
  all: destruct (rust_assert _); cbn in *; simplify_eq/=; try done.
Qed.
End steps.
