(* ===== verification/CacheSpec.v ===== *)
(** * CacheSpec: the cache as a map

    The invariant of [NeoCache] (its shards satisfy the invariant of ShardSpec,
    every key is stored in the shard its hash selects, the locks are in a valid
    state) and the effect of its operations on the map of all key-value
    pairs. *)

From stdpp Require Import base gmap list.
From S2P Require Import Prelude Machine Lock RawTable Util Shard ShardOps ShardModel ShardSim.
From S2P Require Import Evict Safety Exact ShardSpec TryResult Cache.

Open Scope Z_scope.

Section cache_spec.
Context {K V : Type} `{Countable K} `{!BuildHasher K} `{!Target}.
Context `{!RawTable (K * CacheEntry V)} `{!RawTableSpec (K * CacheEntry V)}.
Implicit Types (c : NeoCache K V) (k : K) (v : V) (i j : nat) (l : RwLock K V).

(** ** Routing *)

(** The shard of a key. *)
Definition route c k : Z := (hash_usize k * 2 ^ 7) mod usize_mod / 2 ^ shift c.

(** The shards are a power of two, and the shift leaves that many bits. *)
Definition geometry c : Prop :=
  ∃ n, 1 ≤ n < usize_bits ∧ shift c = usize_bits - n ∧ _shard_count c = 2 ^ n.

Lemma shard_of_route c k :
  geometry c → shard_of c k ⇓ route c k ∧ 0 ≤ route c k < _shard_count c.
Proof.
  intros (n & Hn & Hs & Hc). pose proof usize_bits_bounds.
  unfold shard_of, determine_shard, route, hash_usize.
  rewrite usize_shl_small by lia. cbn. rewrite usize_shr_small by lia. split; [done|].
  pose proof (mod_is_usize (as_usize (hash_u64 k) * 2 ^ 7)) as [Hlo Hhi].
  rewrite Hc, Hs. split; [apply Z.div_pos; [lia|apply Z.pow_pos_nonneg; lia]|].
  apply Z.div_lt_upper_bound; [apply Z.pow_pos_nonneg; lia|].
  rewrite <-Z.pow_add_r by lia. replace (usize_bits - n + n) with usize_bits by lia. done.
Qed.

(** ** The invariant *)

(** The number of entries a shard may hold. *)
Definition shard_limit c : Z :=
  if cache_capacity c =? 0 then 0 else Z.max (div_ceil (cache_capacity c) (_shard_count c)) 1.

Definition lock_ok (w : Z) : Prop := ∃ o, owner_ok o ∧ w = encode o false false.

Record lock_inv c i l : Prop := {
  li_shard : shard_ok (lock_data l);
  li_route k : is_Some (contents (lock_data l) !! k) → route c k = Z.of_nat i;
  li_cap : shard_cap (lock_data l) = shard_limit c;
  li_lock : lock_ok (lock_word l)
}.

Record cache_ok c : Prop := {
  co_geometry : geometry c;
  co_capacity : is_usize (cache_capacity c);
  co_shards i l : shards c !! i = Some l → lock_inv c i l
}.

(** All key-value pairs. *)
Definition cache_contents c : gmap K V := ⋃ (contents ∘ lock_data <$> shards c).

Lemma union_list_lookup (ms : list (gmap K V)) i m k :
  ms !! i = Some m → (∀ j m', ms !! j = Some m' → is_Some (m' !! k) → j = i) →
  (⋃ ms) !! k = m !! k.
Proof.
  revert i. induction ms as [|m0 ms IH]; intros i Hi Honly; [done|]. cbn.
  destruct i as [|i]; cbn in Hi.
  - injection Hi as ->. destruct (m !! k) as [v|] eqn:Hk; [by apply lookup_union_Some_l|].
    rewrite lookup_union_r by done. apply eq_None_not_Some. intros [v Hv].
    assert (∃ j m', ms !! j = Some m' ∧ is_Some (m' !! k)) as (j & m' & Hj & Hm').
    { clear -Hv. induction ms as [|m1 ms IH]; [done|]. cbn in Hv.
      apply lookup_union_Some_raw in Hv as [Hv | [_ Hv]].
      - exists 0%nat, m1. by split; [|eexists].
      - destruct (IH Hv) as (j & m' & ? & ?). by exists (S j), m'. }
    by specialize (Honly (S j) m' Hj Hm').
  - rewrite lookup_union_r.
    + apply (IH i Hi). intros j m' Hj Hm'. by injection (Honly (S j) m' Hj Hm').
    + apply eq_None_not_Some. intros Hs. by specialize (Honly 0%nat m0 eq_refl Hs).
Qed.

(** The shard a key is routed to. *)
Definition home c k l : Prop := shards c !! Z.to_nat (route c k) = Some l.

Lemma home_exists c k : geometry c → ∃ l, home c k l.
Proof.
  intros [_ Hr]%(shard_of_route _ k). apply lookup_lt_is_Some. unfold _shard_count in Hr. lia.
Qed.

Lemma cache_contents_lookup c k l :
  cache_ok c → home c k l → cache_contents c !! k = contents (lock_data l) !! k.
Proof.
  intros Hc Hl. apply (union_list_lookup _ (Z.to_nat (route c k))).
  - rewrite list_lookup_fmap. unfold home in Hl. by rewrite Hl.
  - intros j m' Hj Hm'. rewrite list_lookup_fmap in Hj. apply fmap_Some in Hj as (l' & Hj & ->).
    apply (li_route _ _ _ (co_shards _ Hc _ _ Hj)) in Hm'. rewrite Hm'. by rewrite Nat2Z.id.
Qed.

(** ** Replacing a shard *)

Lemma set_shard_geometry c z l : geometry c → geometry (set_shard z l c).
Proof.
  intros (n & Hn & Hs & Hc). exists n. split_and!; try done; [lia..|].
  unfold _shard_count in *. cbn. by rewrite length_insert.
Qed.

Lemma set_shard_limit c z l : shard_limit (set_shard z l c) = shard_limit c.
Proof. unfold shard_limit, _shard_count. cbn. by rewrite length_insert. Qed.

Lemma lock_inv_set c z l i l' : lock_inv c i l' → lock_inv (set_shard z l c) i l'.
Proof. intros []. constructor; try done. by rewrite set_shard_limit. Qed.

(** The update of a shard keeps the invariant. *)
Lemma set_shard_ok c i l l' :
  cache_ok c → shards c !! i = Some l → lock_inv c i l' →
  cache_ok (set_shard (Z.of_nat i) l' c).
Proof.
  intros Hc Hl Hl'. constructor.
  - apply set_shard_geometry, Hc.
  - apply Hc.
  - intros j lj. cbn. rewrite Nat2Z.id. intros [(-> & <- & _) | [_ Hj]]%list_lookup_insert_Some.
    + by apply lock_inv_set.
    + apply lock_inv_set. by apply Hc.
Qed.

Lemma set_shard_contents c i l l' k :
  cache_ok c → shards c !! i = Some l → lock_inv c i l' →
  cache_contents (set_shard (Z.of_nat i) l' c) !! k =
    if decide (route c k = Z.of_nat i) then contents (lock_data l') !! k
    else cache_contents c !! k.
Proof.
  intros Hc Hl Hl'. pose proof (set_shard_ok _ _ _ _ Hc Hl Hl') as Hc'.
  destruct (decide _) as [Hr|Hr].
  - apply cache_contents_lookup; [done|]. unfold home. change (route (set_shard _ _ _) k) with (route c k).
    rewrite Hr, Nat2Z.id. cbn. rewrite Nat2Z.id. apply list_lookup_insert_eq. by eapply lookup_lt_Some.
  - destruct (home_exists c k (co_geometry _ Hc)) as (lk & Hk).
    rewrite (cache_contents_lookup c k lk) by done. apply cache_contents_lookup; [done|].
    unfold home in *. change (route (set_shard _ _ _) k) with (route c k). cbn. rewrite Nat2Z.id.
    rewrite list_lookup_insert_ne; [done|]. intros ->. apply Hr.
    pose proof (proj2 (shard_of_route c k (co_geometry _ Hc))). lia.
Qed.

(** ** Taking and releasing locks *)

Lemma set_shard_twice z l l' c : set_shard z l' (set_shard z l c) = set_shard z l' c.
Proof. unfold set_shard. cbn. by rewrite list_insert_insert_eq. Qed.

Lemma get_shard c i l : shards c !! i = Some l → get_unchecked (Z.of_nat i) c ⇓ l.
Proof. intros Hl. unfold get_unchecked. by rewrite Nat2Z.id, Hl. Qed.

Lemma get_set_shard c i l l' :
  shards c !! i = Some l → get_unchecked (Z.of_nat i) (set_shard (Z.of_nat i) l' c) ⇓ l'.
Proof.
  intros Hl. apply get_shard. cbn. rewrite Nat2Z.id. apply list_lookup_insert_eq.
  by eapply lookup_lt_Some.
Qed.

Lemma bounds_assert c i l : shards c !! i = Some l → debug_assert (in_bounds (Z.of_nat i) c) ⇓ tt.
Proof.
  intros Hl%lookup_lt_Some. unfold debug_assert, in_bounds, _shard_count.
  destruct (Z.ltb_spec (Z.of_nat i) (Z.of_nat (length (shards c)))); [|lia].
  by destruct overflow_checks.
Qed.

Lemma yield_write c i l :
  shards c !! i = Some l →
  _yield_write_shard (Z.of_nat i) c =
    (w ← lock_exclusive (lock_word l); Ret (set_shard (Z.of_nat i) (mkLock w (lock_data l)) c)).
Proof.
  intros Hl. unfold _yield_write_shard.
  by rewrite (bounds_assert _ _ _ Hl), (get_shard _ _ _ Hl).
Qed.

Lemma yield_read c i l :
  shards c !! i = Some l →
  _yield_read_shard (Z.of_nat i) c =
    (w ← lock_shared (lock_word l); Ret (set_shard (Z.of_nat i) (mkLock w (lock_data l)) c)).
Proof.
  intros Hl. unfold _yield_read_shard.
  by rewrite (bounds_assert _ _ _ Hl), (get_shard _ _ _ Hl).
Qed.

(** Accessing the shard behind a taken lock. *)
Lemma try_yield_read c i l :
  shards c !! i = Some l →
  _try_yield_read_shard (Z.of_nat i) c =
    Ret ((λ w, set_shard (Z.of_nat i) (mkLock w (lock_data l)) c) <$> try_lock_shared (lock_word l)).
Proof.
  intros Hl. unfold _try_yield_read_shard.
  by rewrite (bounds_assert _ _ _ Hl), (get_shard _ _ _ Hl).
Qed.

Lemma try_yield_write c i l :
  shards c !! i = Some l →
  _try_yield_write_shard (Z.of_nat i) c =
    Ret ((λ w, set_shard (Z.of_nat i) (mkLock w (lock_data l)) c) <$> try_lock_exclusive (lock_word l)).
Proof.
  intros Hl. unfold _try_yield_write_shard.
  by rewrite (bounds_assert _ _ _ Hl), (get_shard _ _ _ Hl).
Qed.

Lemma guarded_set c i l l' :
  shards c !! i = Some l → guarded (Z.of_nat i) (set_shard (Z.of_nat i) l' c) ⇓ lock_data l'.
Proof. intros Hl. unfold guarded. by rewrite (get_set_shard _ _ _ _ Hl). Qed.

Lemma set_guarded_set c i l l' s :
  shards c !! i = Some l →
  set_guarded (Z.of_nat i) s (set_shard (Z.of_nat i) l' c) ⇓
    set_shard (Z.of_nat i) (mkLock (lock_word l') s) c.
Proof.
  intros Hl. unfold set_guarded. rewrite (get_set_shard _ _ _ _ Hl). cbn.
  by rewrite set_shard_twice.
Qed.

Lemma encode_free : encode Free false false = 0.
Proof. done. Qed.

Lemma lock_exclusive_free : lock_exclusive 0 ⇓ ONE_WRITER.
Proof. done. Qed.

Lemma unlock_exclusive_writer : unlock_exclusive ONE_WRITER ⇓ (0, WakeNone).
Proof. unfold unlock_exclusive. by rewrite Z.eqb_refl. Qed.

Lemma drop_write_set c i l s :
  shards c !! i = Some l →
  drop_write (Z.of_nat i) (set_shard (Z.of_nat i) (mkLock ONE_WRITER s) c) ⇓
    set_shard (Z.of_nat i) (mkLock 0 s) c.
Proof.
  intros Hl. unfold drop_write. rewrite (get_set_shard _ _ _ _ Hl). cbn.
  rewrite unlock_exclusive_writer. cbn. by rewrite set_shard_twice.
Qed.

Lemma with_write_ok {A} (f : ShardData K V → outcome (ShardData K V * A)) c i l s a :
  shards c !! i = Some l → lock_word l = 0 → f (lock_data l) ⇓ (s, a) →
  with_write (Z.of_nat i) f c ⇓ (set_shard (Z.of_nat i) (mkLock 0 s) c, a).
Proof.
  intros Hl Hw Hf. unfold with_write.
  rewrite (yield_write _ _ _ Hl), Hw, lock_exclusive_free. cbn.
  rewrite (guarded_set _ _ _ _ Hl). cbn. rewrite Hf. cbn.
  rewrite (set_guarded_set _ _ _ _ _ Hl). cbn. by rewrite (drop_write_set _ _ _ _ Hl).
Qed.

Lemma with_write_inv {A} (f : ShardData K V → outcome (ShardData K V * A)) c c' i l a :
  shards c !! i = Some l → lock_word l = 0 → with_write (Z.of_nat i) f c ⇓ (c', a) →
  ∃ s, f (lock_data l) ⇓ (s, a) ∧ c' = set_shard (Z.of_nat i) (mkLock 0 s) c.
Proof.
  intros Hl Hw Hrun. destruct (f (lock_data l)) as [[s a']| | | | |] eqn:Hf.
  1:{ rewrite (with_write_ok _ _ _ _ _ _ Hl Hw Hf) in Hrun. injection Hrun as <- <-. by exists s. }
  all: unfold with_write in Hrun; rewrite (yield_write _ _ _ Hl), Hw, lock_exclusive_free in Hrun;
    cbn [mbind outcome_bind] in Hrun; rewrite (guarded_set _ _ _ _ Hl) in Hrun;
    cbn [mbind outcome_bind lock_data] in Hrun; by rewrite Hf in Hrun.
Qed.

(** A lock that is not free blocks. *)
Lemma with_write_blocked {A} (f : ShardData K V → outcome (ShardData K V * A)) c i l :
  shards c !! i = Some l → lock_ok (lock_word l) → lock_word l ≠ 0 →
  with_write (Z.of_nat i) f c = Blocked.
Proof.
  intros Hl (o & Ho & Hw) Hne. unfold with_write. rewrite (yield_write _ _ _ Hl), Hw.
  rewrite lock_exclusive_encode by done. rewrite Hw in Hne. by destruct o.
Qed.

(** Read locks. *)
Lemma lock_shared_ok w w' :
  lock_ok w → lock_shared w ⇓ w' → lock_ok w' ∧ w' ≠ 0 ∧ (unlock_shared w').1 = w.
Proof.
  intros (o & Ho & ->). rewrite lock_shared_encode by done.
  pose proof (encode_add_reader o false false Ho) as Hadd.
  destruct o as [|n|]; [..|done]; destruct Hadd as [_ Hadd]; cbn [add_reader owner_ok] in *.
  - intros [= <-]. destruct Hadd as (_ & Ho' & _). split; [by exists (Readers 1)|]. split; [done|].
    by rewrite unlock_shared_encode.
  - destruct (Z.ltb_spec (n + 1) max_readers); [|done].
    intros [= <-]. destruct Hadd as (_ & Ho' & _). split; [by exists (Readers (n + 1))|].
    split; [unfold encode; cbn [readers_field]; lia|].
    rewrite unlock_shared_encode by done. destruct (Z.eqb_spec (n + 1) 1); [lia|]. cbn.
    by replace (n + 1 - 1) with n by lia.
Qed.

(** ** Keyed operations *)

(** [c'] differs from [c] in shard [z] only. *)
Record same_except (z : Z) c c' : Prop := {
  se_shift : shift c' = shift c;
  se_capacity : cache_capacity c' = cache_capacity c;
  se_length : length (shards c') = length (shards c);
  se_shards j : Z.of_nat j ≠ z → shards c' !! j = shards c !! j
}.

Lemma set_shard_same z l c : 0 ≤ z → same_except z c (set_shard z l c).
Proof.
  intros Hz. constructor; try done; cbn; [by rewrite length_insert|].
  intros j Hj. apply list_lookup_insert_ne. lia.
Qed.

Lemma home_index c k l :
  cache_ok c → home c k l →
  ∃ i, route c k = Z.of_nat i ∧ shards c !! i = Some l ∧ shard_of c k ⇓ Z.of_nat i ∧ lock_inv c i l.
Proof.
  intros Hc Hl. destruct (shard_of_route c k (co_geometry _ Hc)) as [Hs Hr].
  exists (Z.to_nat (route c k)). rewrite Z2Nat.id by lia. split_and!; [done..|]. by apply Hc.
Qed.

(** The new content of a shard: old keys, and perhaps [k]. *)
Definition no_new_keys_but k (m m' : gmap K V) : Prop :=
  ∀ k', is_Some (m' !! k') → is_Some (m !! k') ∨ k' = k.

Lemma lock_inv_step c k i l s w :
  lock_inv c i l → shard_step (lock_data l) s → route c k = Z.of_nat i →
  no_new_keys_but k (contents (lock_data l)) (contents s) → lock_ok w →
  lock_inv c i (mkLock w s).
Proof.
  intros [Hok Hr Hcap Hlock] [Hok' Hcap' _] Hk Hkeys Hw. constructor; cbn; [done| |congruence|done].
  intros k' [Hk'| ->]%Hkeys; auto.
Qed.

Lemma lock_ok_zero : lock_ok 0.
Proof. by exists Free. Qed.

(** The contents of [c'] when the shard of [k] holds [m'] instead. *)
Definition contents_at c k (m' : gmap K V) c' : Prop :=
  ∀ k', cache_contents c' !! k' =
    if decide (route c k' = route c k) then m' !! k' else cache_contents c !! k'.

Lemma home_update c k l s w :
  cache_ok c → home c k l → shard_step (lock_data l) s →
  no_new_keys_but k (contents (lock_data l)) (contents s) → lock_ok w →
  let c' := set_shard (route c k) (mkLock w s) c in
  cache_ok c' ∧ same_except (route c k) c c' ∧ home c' k (mkLock w s) ∧
  contents_at c k (contents s) c'.
Proof.
  intros Hc Hl Hst Hkeys Hw. destruct (home_index _ _ _ Hc Hl) as (i & Hr & Hi & Hs & Hinv).
  pose proof (lock_inv_step _ _ _ _ _ w Hinv Hst Hr Hkeys Hw) as Hinv'.
  unfold contents_at. rewrite Hr. split_and!.
  - by eapply set_shard_ok.
  - apply set_shard_same. lia.
  - unfold home. change (route (set_shard _ _ _) k) with (route c k). rewrite Hr. cbn.
    rewrite Nat2Z.id. apply list_lookup_insert_eq. by eapply lookup_lt_Some.
  - intros k'. by rewrite (set_shard_contents _ _ _ _ _ Hc Hi Hinv').
Qed.

Lemma keyed_write_ok {A} (f : ShardData K V → outcome (ShardData K V * A)) c k l s a :
  cache_ok c → home c k l → lock_word l = 0 → f (lock_data l) ⇓ (s, a) →
  shard_step (lock_data l) s → no_new_keys_but k (contents (lock_data l)) (contents s) →
  ∃ c', (idx ← shard_of c k; with_write idx f c) ⇓ (c', a) ∧ cache_ok c' ∧
    same_except (route c k) c c' ∧ home c' k (mkLock 0 s) ∧ contents_at c k (contents s) c'.
Proof.
  intros Hc Hl Hw Hf Hst Hkeys. destruct (home_index _ _ _ Hc Hl) as (i & Hr & Hi & Hs & Hinv).
  exists (set_shard (route c k) (mkLock 0 s) c). split.
  - rewrite Hs, Hr. cbn. by apply (with_write_ok _ _ _ l).
  - by apply (home_update c k l s 0); [..|apply lock_ok_zero].
Qed.

(** The pairs of a shard are the pairs routed to it. *)
Lemma contents_filter c i l :
  cache_ok c → shards c !! i = Some l →
  filter (λ kv : K * V, route c kv.1 = Z.of_nat i) (cache_contents c) = contents (lock_data l).
Proof.
  intros Hc Hl. apply map_eq. intros k. apply option_eq. intros v.
  rewrite map_lookup_filter_Some. cbn. split.
  - intros [Hk Hr]. rewrite (cache_contents_lookup c k l) in Hk; [done..|].
    unfold home. by rewrite Hr, Nat2Z.id.
  - intros Hk. assert (Hr : route c k = Z.of_nat i).
    { eapply (li_route _ _ _ (co_shards _ Hc _ _ Hl)). by eexists. }
    split; [|done]. rewrite (cache_contents_lookup c k l); [done..|].
    unfold home. by rewrite Hr, Nat2Z.id.
Qed.

Lemma size_filter_split (P : K * V → Prop) `{!∀ x, Decision (P x)} (m : gmap K V) :
  size m = (size (filter P m) + size (filter (λ x, ¬ P x) m))%nat.
Proof.
  rewrite <-map_size_disj_union by apply map_disjoint_filter_complement.
  by rewrite map_filter_union_complement.
Qed.

(** If one shard changes, the size changes as the size of that shard. *)
Lemma contents_size_change c c' i l l' :
  cache_ok c → cache_ok c' → (∀ k, route c' k = route c k) →
  shards c !! i = Some l → shards c' !! i = Some l' →
  (∀ k, route c k ≠ Z.of_nat i → cache_contents c' !! k = cache_contents c !! k) →
  (size (cache_contents c') + size (contents (lock_data l)) =
   size (cache_contents c) + size (contents (lock_data l')))%nat.
Proof.
  intros Hc Hc' Hr Hl Hl' Hout.
  rewrite (size_filter_split (λ kv, route c kv.1 = Z.of_nat i) (cache_contents c)),
    (size_filter_split (λ kv, route c' kv.1 = Z.of_nat i) (cache_contents c')).
  rewrite (contents_filter c i l), (contents_filter c' i l') by done.
  replace (filter (λ x : K * V, route c' x.1 ≠ Z.of_nat i) (cache_contents c'))
    with (filter (λ x : K * V, route c x.1 ≠ Z.of_nat i) (cache_contents c)); [lia|].
  apply map_eq. intros k. apply option_eq. intros v. rewrite !map_lookup_filter_Some. cbn.
  rewrite Hr. split; intros [? Hne]; (split; [|done]); [rewrite Hout | rewrite <-Hout]; done.
Qed.

(** ** The operations *)

(** No live guard holds the shard of [k]. *)
Definition unlocked c k : Prop := ∃ l, home c k l ∧ lock_word l = 0.

(** The shard of [k] is full, or can count one more entry. *)
Definition full_at c k : Prop := ∃ l, home c k l ∧ shard_full (lock_data l).
Definition countable_at c k : Prop := ∀ l, home c k l → countable (lock_data l).

Lemma same_route c c' k : shift c' = shift c → route c' k = route c k.
Proof. intros Hs. unfold route. by rewrite Hs. Qed.

(** An insertion into the shard of [k] is an insertion into the cache. *)
Lemma insert_effect_lift c c' k v l l' :
  cache_ok c → cache_ok c' → same_except (route c k) c c' → home c k l → home c' k l' →
  contents_at c k (contents (lock_data l')) c' →
  insert_effect k v (shard_full (lock_data l)) (contents (lock_data l)) (contents (lock_data l')) →
  insert_effect k v (full_at c k) (cache_contents c) (cache_contents c').
Proof.
  intros Hc Hc' Hsame Hl Hl' Hcont [Hhere Hothers Hroom Hevict].
  destruct (home_index _ _ _ Hc Hl) as (i & Hr & Hi & _ & Hinv).
  assert (Hfull : full_at c k ↔ shard_full (lock_data l)).
  { split; [|by exists l]. intros (l2 & Hl2 & Hf). unfold home in *. congruence. }
  constructor.
  - by rewrite Hcont, decide_True.
  - intros k' v' Hne. rewrite Hcont. destruct (decide (route c k' = route c k)) as [Hrk|]; [|done].
    rewrite (cache_contents_lookup c k' l) by (done || unfold home; by rewrite Hrk). by apply Hothers.
  - rewrite (cache_contents_lookup c k l Hc Hl), Hfull. intros Hcase. specialize (Hroom Hcase).
    apply map_eq. intros k'. rewrite Hcont, Hroom. destruct (decide (k = k')) as [<-|Hne].
    + by rewrite decide_True, !lookup_insert_eq.
    + rewrite !lookup_insert_ne by done. destruct (decide _) as [Hrk|]; [|done].
      symmetry. apply cache_contents_lookup; [done|]. unfold home. by rewrite Hrk.
  - rewrite (cache_contents_lookup c k l Hc Hl), Hfull. intros Hn Hf. specialize (Hevict Hn Hf).
    pose proof (contents_size_change c c' i l l' Hc Hc') as Hsz.
    unfold home in Hl'. rewrite (same_route c c' k (se_shift _ _ _ Hsame)), Hr, Nat2Z.id in Hl'.
    rewrite Hevict in Hsz. enough (size (cache_contents c') + size (contents (lock_data l))
      = size (cache_contents c) + size (contents (lock_data l)))%nat by lia.
    apply Hsz; [|done|done|].
    + intros k'. by apply same_route, Hsame.
    + intros k' Hne. rewrite Hcont, decide_False; [done|]. congruence.
Qed.

Lemma insert_no_new_keys k v (P : Prop) (m m' : gmap K V) :
  insert_effect k v P m m' → no_new_keys_but k m m'.
Proof.
  intros Heff k' [v' Hv']. destruct (decide (k' = k)) as [->|Hne]; [by right|left].
  exists v'. by apply (ins_others _ _ _ _ _ Heff).
Qed.

Lemma cache_insert_ok c k v :
  cache_ok c → unlocked c k → countable_at c k →
  ∃ c', _insert k v c ⇓ (c', cache_contents c !! k) ∧ cache_ok c' ∧ unlocked c' k ∧
    same_except (route c k) c c' ∧
    insert_effect k v (full_at c k) (cache_contents c) (cache_contents c').
Proof.
  intros Hc (l & Hl & Hw) Hcount. destruct (home_index _ _ _ Hc Hl) as (i & Hr & Hi & _ & Hinv).
  destruct (shard_insert_ok k v (lock_data l) (li_shard _ _ _ Hinv) (Hcount _ Hl))
    as (s & Hs & Hst & _ & Heff). rewrite (cache_contents_lookup c k l Hc Hl).
  destruct (keyed_write_ok (shard_insert k v) c k l s _ Hc Hl Hw Hs Hst)
    as (c' & Hins & Hc' & Hsame & Hhome & Hcont); [by eapply insert_no_new_keys|].
  exists c'. split_and!; [done|done|by exists (mkLock 0 s)|done|].
  by eapply (insert_effect_lift c c' k v l (mkLock 0 s)).
Qed.

(** The operations that keep or remove keys. *)
Lemma no_new_keys_delete k k' (m : gmap K V) : no_new_keys_but k m (delete k' m).
Proof. intros k2 [v [_ Hv]%lookup_delete_Some]. left. by eexists. Qed.

Lemma no_new_keys_insert k v (m : gmap K V) : no_new_keys_but k m (<[k := v]> m).
Proof. intros k2 [->|[_ ?]]%lookup_insert_is_Some; [by right|by left]. Qed.

Lemma no_new_keys_refl k (m : gmap K V) : no_new_keys_but k m m.
Proof. by left. Qed.

(** The contents of the cache when the pairs of one shard become [g m]. *)
Lemma cache_contents_local c c' k l s (g : gmap K V → gmap K V) :
  cache_ok c → home c k l → contents s = g (contents (lock_data l)) →
  contents_at c k (contents s) c' →
  (∀ m m' k', m !! k' = m' !! k' → g m !! k' = g m' !! k') →
  (∀ m k', k' ≠ k → g m !! k' = m !! k') →
  cache_contents c' = g (cache_contents c).
Proof.
  intros Hc Hl Hs Hcont Hloc Hother. apply map_eq. intros k'. rewrite Hcont.
  destruct (decide (route c k' = route c k)) as [Hr|Hr].
  - rewrite Hs. apply Hloc. symmetry. apply cache_contents_lookup; [done|].
    unfold home. by rewrite Hr.
  - symmetry. apply Hother. by intros ->.
Qed.

(** *** Lookups *)

(** What a lookup of [k] does to the cache: it may change frequencies and
    the lock word of the shard of [k], not the contents. *)
Record looked_up k (w : Z) c c' : Prop := {
  lu_ok : cache_ok c';
  lu_same : same_except (route c k) c c';
  lu_contents : cache_contents c' = cache_contents c;
  lu_word : ∃ l, home c' k l ∧ lock_word l = w
}.

Lemma set_shard_looked_up c k i l s w :
  cache_ok c → route c k = Z.of_nat i → shards c !! i = Some l →
  shard_step (lock_data l) s → contents s = contents (lock_data l) → lock_ok w →
  looked_up k w c (set_shard (Z.of_nat i) (mkLock w s) c).
Proof.
  intros Hc Hr Hl Hst Hcont Hw. pose proof (co_shards _ Hc _ _ Hl) as Hinv.
  assert (Hinv' : lock_inv c i (mkLock w s)).
  { eapply lock_inv_step; [done..| |done]. rewrite Hcont. apply no_new_keys_refl. }
  constructor.
  - by eapply set_shard_ok.
  - rewrite Hr. apply set_shard_same. lia.
  - apply map_eq. intros k'. rewrite (set_shard_contents _ _ _ _ _ Hc Hl Hinv'). cbn.
    destruct (decide _) as [Hrk|]; [|done]. rewrite Hcont. symmetry.
    apply cache_contents_lookup; [done|]. unfold home. by rewrite Hrk, Nat2Z.id.
  - exists (mkLock w s). split; [|done]. unfold home.
    change (route (set_shard _ _ _) k) with (route c k). rewrite Hr. cbn. rewrite Nat2Z.id.
    apply list_lookup_insert_eq. by eapply lookup_lt_Some.
Qed.

(** The guard [r] points to the pair [(k, v)] of [c], in the shard of [k]. *)
Definition points_to (z : Z) (b : bucket) c k v : Prop :=
  z = route c k ∧ (s ← guarded z c; bucket_pair b s) ⇓ (k, v).

Lemma cache_get_ok c k l w :
  cache_ok c → home c k l → lock_shared (lock_word l) ⇓ w →
  ∃ c' r, _get k c ⇓ (c', r) ∧
    match cache_contents c !! k with
    | Some v => looked_up k w c c' ∧
        ∃ g, r = Some g ∧ points_to (ref_shard g) (ref_bucket g) c' k v
    | None => r = None ∧ looked_up k (lock_word l) c c'
    end.
Proof.
  intros Hc Hl Hw. destruct (home_index _ _ _ Hc Hl) as (i & Hr & Hi & Hs & Hinv).
  destruct (lock_shared_ok _ _ (li_lock _ _ _ Hinv) Hw) as (Hw_ok & _ & Hunlock).
  destruct (shard_get_ok k (lock_data l) (li_shard _ _ _ Hinv)) as (s & r & Hget & Hst & _ & Hcont & Hcase).
  unfold _get. rewrite Hs. cbn. rewrite (yield_read _ _ _ Hi), Hw. cbn.
  rewrite (guarded_set _ _ _ _ Hi). cbn. rewrite Hget. cbn.
  rewrite (set_guarded_set _ _ _ _ _ Hi). cbn.
  rewrite (cache_contents_lookup c k l Hc Hl). destruct (contents (lock_data l) !! k) as [v|].
  - destruct Hcase as (b & -> & Hb). eexists _, _. split; [done|]. split.
    + by apply (set_shard_looked_up _ _ _ l).
    + exists (mkRef (Z.of_nat i) b). split; [done|]. cbn. split; [by rewrite <-Hr|].
      by rewrite (guarded_set _ _ _ _ Hi).
  - destruct Hcase as [-> _]. unfold drop_read. rewrite (get_set_shard _ _ _ _ Hi). cbn.
    rewrite set_shard_twice, Hunlock. eexists _, _. split; [done|]. split; [done|].
    by apply (set_shard_looked_up _ _ _ l); [..|apply Hinv].
Qed.

Lemma cache_get_mut_ok c k l :
  cache_ok c → home c k l → lock_word l = 0 →
  ∃ c' r, _get_mut k c ⇓ (c', r) ∧
    match cache_contents c !! k with
    | Some v => looked_up k ONE_WRITER c c' ∧
        ∃ g, r = Some g ∧ points_to (refmut_shard g) (refmut_bucket g) c' k v
    | None => r = None ∧ looked_up k 0 c c'
    end.
Proof.
  intros Hc Hl Hw. destruct (home_index _ _ _ Hc Hl) as (i & Hr & Hi & Hs & Hinv).
  destruct (shard_get_ok k (lock_data l) (li_shard _ _ _ Hinv)) as (s & r & Hget & Hst & _ & Hcont & Hcase).
  unfold _get_mut. rewrite Hs. cbn. rewrite (yield_write _ _ _ Hi), Hw, lock_exclusive_free. cbn.
  rewrite (guarded_set _ _ _ _ Hi). cbn. rewrite Hget. cbn.
  rewrite (set_guarded_set _ _ _ _ _ Hi). cbn.
  rewrite (cache_contents_lookup c k l Hc Hl). destruct (contents (lock_data l) !! k) as [v|].
  - destruct Hcase as (b & -> & Hb). eexists _, _. split; [done|]. split.
    + apply (set_shard_looked_up _ _ _ l); [done..|]. exists Writer. split; [done|].
      rewrite ONE_WRITER_max. unfold encode. cbn [readers_field]. lia.
    + exists (mkRefMut (Z.of_nat i) b). split; [done|]. cbn. split; [by rewrite <-Hr|].
      by rewrite (guarded_set _ _ _ _ Hi).
  - destruct Hcase as [-> _]. rewrite (drop_write_set _ _ _ _ Hi).
    eexists _, _. split; [done|]. split; [done|].
    by apply (set_shard_looked_up _ _ _ l); [..|apply lock_ok_zero].
Qed.

(** Dropping a read guard. *)
Lemma drop_read_ok c k l :
  cache_ok c → home c k l → (∃ w, lock_ok w ∧ lock_shared w ⇓ lock_word l) →
  ∃ c', drop_read (route c k) c ⇓ c' ∧ looked_up k (unlock_shared (lock_word l)).1 c c'.
Proof.
  intros Hc Hl (w & Hw_ok & Hw). destruct (home_index _ _ _ Hc Hl) as (i & Hr & Hi & _ & Hinv).
  destruct (lock_shared_ok _ _ Hw_ok Hw) as (_ & _ & Hun).
  unfold drop_read. rewrite Hr, (get_shard _ _ _ Hi). cbn. eexists. split; [done|].
  apply (set_shard_looked_up _ _ _ l); try done; [apply shard_step_refl, Hinv|]. by rewrite Hun.
Qed.

Lemma same_except_trans c1 c2 c3 k :
  same_except (route c1 k) c1 c2 → same_except (route c2 k) c2 c3 → same_except (route c1 k) c1 c3.
Proof.
  intros [Hs1 Hc1 Hn1 Hsh1] [Hs2 Hc2 Hn2 Hsh2]. rewrite (same_route c1 c2 k Hs1) in Hsh2.
  constructor; try congruence. intros j Hj. by rewrite Hsh2, Hsh1.
Qed.

Lemma looked_up_trans k w1 w2 c1 c2 c3 :
  looked_up k w1 c1 c2 → looked_up k w2 c2 c3 → looked_up k w2 c1 c3.
Proof.
  intros [_ Hsame1 Hcont1 _] [Hok Hsame2 Hcont2 Hw]. constructor; [done| |congruence|done].
  by eapply same_except_trans.
Qed.

(** A read guard, from its creation to its drop: the shard is as before. *)
Lemma get_then_drop c k l w :
  cache_ok c → home c k l → lock_shared (lock_word l) ⇓ w →
  ∃ c' r, _get k c ⇓ (c', r) ∧
    match cache_contents c !! k with
    | Some v => ∃ g c2, r = Some g ∧ ref_pair g c' ⇓ (k, v) ∧ drop_ref g c' ⇓ c2 ∧
        looked_up k (lock_word l) c c2
    | None => r = None ∧ looked_up k (lock_word l) c c'
    end.
Proof.
  intros Hc Hl Hw. destruct (cache_get_ok c k l w Hc Hl Hw) as (c' & r & Hget & Hcase).
  exists c', r. split; [done|]. destruct (cache_contents c !! k) as [v|]; [|done].
  destruct Hcase as (Hlu & g & -> & Hz & Hg). exists g.
  destruct (home_index _ _ _ Hc Hl) as (i & _ & _ & _ & Hinv).
  destruct (lu_word _ _ _ _ Hlu) as (l' & Hl' & Hw').
  destruct (drop_read_ok c' k l' (lu_ok _ _ _ _ Hlu) Hl') as (c2 & Hdrop & Hlu2).
  { exists (lock_word l). rewrite Hw'. split; [apply Hinv|done]. }
  exists c2. unfold drop_ref. rewrite Hz. split_and!; [done|by unfold ref_pair; rewrite Hz in *|done|].
  rewrite Hw', (proj2 (proj2 (lock_shared_ok _ _ (li_lock _ _ _ Hinv) Hw))) in Hlu2.
  by eapply looked_up_trans.
Qed.

(** *** Writing through an exclusive guard *)

Lemma held_set_ok c z b k v v' l :
  cache_ok c → home c k l → points_to z b c k v →
  ∃ c' l', (s ← guarded z c; s ← bucket_set b v' s; set_guarded z s c) ⇓ c' ∧ cache_ok c' ∧
    same_except (route c k) c c' ∧ points_to z b c' k v' ∧
    home c' k l' ∧ lock_word l' = lock_word l ∧
    cache_contents c' = <[k := v']> (cache_contents c).
Proof.
  intros Hc Hl [-> Hg]. destruct (home_index _ _ _ Hc Hl) as (i & Hr & Hi & _ & Hinv).
  unfold points_to. rewrite Hr in Hg |- *. unfold guarded, set_guarded in Hg |- *.
  rewrite (get_shard _ _ _ Hi) in Hg |- *. cbn [mbind outcome_bind] in Hg |- *.
  destruct (bucket_set_ok b k v' v (lock_data l) (li_shard _ _ _ Hinv) Hg) as (s & -> & Hst & _ & Hcont & Hb).
  cbn [mbind outcome_bind]. rewrite <-Hr.
  destruct (home_update c k l s (lock_word l) Hc Hl Hst) as (Hc' & Hsame & Hhome & Hcc);
    [rewrite Hcont; apply no_new_keys_insert|apply Hinv|].
  eexists _, _. split; [done|]. split_and!; [done|done|by symmetry| |done|done|].
  - rewrite Hr, (get_set_shard _ _ _ _ Hi). done.
  - eapply (cache_contents_local c _ k l s (insert k v')); [done..| |].
    + intros m m' k' Hm. destruct (decide (k = k')) as [<-|]; by simplify_map_eq.
    + intros m k' Hne. by rewrite lookup_insert_ne.
Qed.

Lemma held_drop_ok c k l :
  cache_ok c → home c k l → lock_word l = ONE_WRITER →
  ∃ c', drop_write (route c k) c ⇓ c' ∧ looked_up k 0 c c'.
Proof.
  intros Hc Hl Hw. destruct (home_index _ _ _ Hc Hl) as (i & Hr & Hi & _ & Hinv).
  unfold drop_write. rewrite Hr, (get_shard _ _ _ Hi). cbn [mbind outcome_bind].
  rewrite Hw, unlock_exclusive_writer. eexists. split; [done|].
  by apply (set_shard_looked_up _ _ _ l); [..|apply shard_step_refl, Hinv| |apply lock_ok_zero].
Qed.

(** *** Operations on all shards *)

(** No guard is live. *)
Definition quiescent c : Prop := ∀ i l, shards c !! i = Some l → lock_word l = 0.

Lemma quiescent_unlocked c k : cache_ok c → quiescent c → unlocked c k.
Proof.
  intros Hc Hq. destruct (home_exists c k (co_geometry _ Hc)) as (l & Hl).
  exists l. split; [done|]. by eapply Hq.
Qed.

Lemma set_shard_quiescent c i s : quiescent c → quiescent (set_shard (Z.of_nat i) (mkLock 0 s) c).
Proof.
  intros Hq j l. cbn. rewrite Nat2Z.id. intros [(-> & <- & _) | [_ Hj]]%list_lookup_insert_Some; [done|].
  by eapply Hq.
Qed.

(** Same parameters, possibly other shards. *)
Definition same_params c c' : Prop :=
  shift c' = shift c ∧ cache_capacity c' = cache_capacity c ∧ length (shards c') = length (shards c).

Definition no_new_keys (m m' : gmap K V) : Prop := ∀ k, is_Some (m' !! k) → is_Some (m !! k).

Lemma lock_inv_step_keep c i l s :
  lock_inv c i l → shard_step (lock_data l) s → no_new_keys (contents (lock_data l)) (contents s) →
  lock_inv c i (mkLock 0 s).
Proof.
  intros [Hok Hr Hcap Hlock] [Hok' Hcap' _] Hkeys.
  constructor; cbn; [done| |congruence|apply lock_ok_zero]. eauto.
Qed.

(** A turn of the loop over the shards. *)
Lemma for_write_turn {St} (f : St → ShardData K V → outcome (ShardData K V * St)) st st' c i l s :
  cache_ok c → quiescent c → shards c !! i = Some l → f st (lock_data l) ⇓ (s, st') →
  shard_step (lock_data l) s → no_new_keys (contents (lock_data l)) (contents s) →
  let c' := set_shard (Z.of_nat i) (mkLock 0 s) c in
  with_write (Z.of_nat i) (f st) c ⇓ (c', st') ∧ cache_ok c' ∧ quiescent c' ∧ same_params c c' ∧
  (∀ k, cache_contents c' !! k =
     if decide (route c k = Z.of_nat i) then contents s !! k else cache_contents c !! k).
Proof.
  intros Hc Hq Hl Hf Hst Hkeys c'.
  pose proof (lock_inv_step_keep _ _ _ _ (co_shards _ Hc _ _ Hl) Hst Hkeys) as Hinv'. split_and!.
  - eapply with_write_ok; [done|by eapply Hq|done].
  - by eapply set_shard_ok.
  - by apply set_shard_quiescent.
  - split_and!; [done..|]. cbn. by rewrite length_insert.
  - intros k. by apply (set_shard_contents _ _ l).
Qed.

Lemma for_write_ok {St} (f : St → ShardData K V → outcome (ShardData K V * St))
    (P : ShardData K V → ShardData K V → Prop) st is_ c :
  (∀ st s, shard_ok s → ∃ s' st', f st s ⇓ (s', st') ∧ shard_step s s' ∧
     no_new_keys (contents s) (contents s') ∧ P s s') →
  cache_ok c → quiescent c → NoDup is_ → Forall (λ i, i < length (shards c))%nat is_ →
  ∃ c' st', for_write f st is_ c ⇓ (c', st') ∧ cache_ok c' ∧ quiescent c' ∧ same_params c c' ∧
    ∀ i l', shards c' !! i = Some l' → ∃ l, shards c !! i = Some l ∧
      if decide (i ∈ is_) then P (lock_data l) (lock_data l') else l' = l.
Proof.
  intros Hf. revert st c. induction is_ as [|i is_ IH]; intros st c Hc Hq Hnd Hlen.
  { exists c, st. split_and!; try done. intros i l' Hl'. exists l'. split; [done|].
    by rewrite decide_False by apply not_elem_of_nil. }
  apply NoDup_cons in Hnd as [Hi Hnd]. apply Forall_cons in Hlen as [Hlt Hlen].
  destruct (lookup_lt_is_Some_2 _ _ Hlt) as [l Hl].
  destruct (Hf st (lock_data l)) as (s & st1 & Hs & Hst & Hkeys & HP); [by apply (co_shards _ Hc _ _ Hl)|].
  destruct (for_write_turn f st st1 c i l s Hc Hq Hl Hs Hst Hkeys) as (Hturn & Hc1 & Hq1 & Hp1 & _).
  set (c1 := set_shard _ _ _) in *.
  destruct (IH st1 c1) as (c' & st' & Hrun & Hc' & Hq' & Hp' & Hsh); [done..| |].
  { eapply Forall_impl; [exact Hlen|]. cbn. intros j. by rewrite length_insert. }
  exists c', st'. cbn. rewrite Hturn. split_and!; [done..| |].
  - destruct Hp1 as (? & ? & ?), Hp' as (? & ? & ?). split_and!; congruence.
  - intros j l' Hl'. destruct (Hsh _ _ Hl') as (l1 & Hl1 & Hcase).
    cbn in Hl1. rewrite Nat2Z.id in Hl1.
    apply list_lookup_insert_Some in Hl1 as [(<- & <- & _) | [Hne Hl1]].
    + exists l. split; [done|]. rewrite decide_True by (by left).
      rewrite decide_False in Hcase by done. by subst l'.
    + exists l1. split; [done|]. destruct (decide (j ∈ is_)).
      * by rewrite decide_True by (by right).
      * by rewrite decide_False by (by intros [->|]%elem_of_cons).
Qed.

(** The shards of [all_shards], each once. *)
Lemma all_shards_spec c : NoDup (all_shards c) ∧ Forall (λ i, i < length (shards c))%nat (all_shards c).
Proof.
  split; [apply NoDup_seq|]. apply Forall_forall. intros i [_ Hi]%elem_of_seq. lia.
Qed.

(** When every shard's pairs become [g] of its pairs, so do all pairs. *)
Lemma cache_contents_each c c' (g : gmap K V → gmap K V) :
  cache_ok c → cache_ok c' → same_params c c' →
  (∀ i l l', shards c !! i = Some l → shards c' !! i = Some l' →
    contents (lock_data l') = g (contents (lock_data l))) →
  (∀ m m' k, m !! k = m' !! k → g m !! k = g m' !! k) →
  cache_contents c' = g (cache_contents c).
Proof.
  intros Hc Hc' (Hs & _ & _) Heach Hloc. apply map_eq. intros k.
  destruct (home_exists c k (co_geometry _ Hc)) as (l & Hl).
  destruct (home_exists c' k (co_geometry _ Hc')) as (l' & Hl').
  rewrite (cache_contents_lookup c' k l') by done.
  assert (Hroute : route c' k = route c k) by (unfold route; by rewrite Hs).
  unfold home in Hl'. rewrite Hroute in Hl'. rewrite (Heach _ _ _ Hl Hl').
  apply Hloc. symmetry. by apply cache_contents_lookup.
Qed.

(** *** [_retain] *)

Lemma retain_pairs_app {St} (f : St → K → V → St * (V * bool)) st kvs1 kvs2 :
  retain_pairs f st (kvs1 ++ kvs2) =
    let '(st1, l1) := retain_pairs f st kvs1 in
    let '(st2, l2) := retain_pairs f st1 kvs2 in (st2, l1 ++ l2).
Proof.
  revert st. induction kvs1 as [|[k v] kvs1 IH]; intros st; cbn.
  - by destruct (retain_pairs f st kvs2).
  - destruct (f st k v) as [st' [v' keep]]. rewrite IH.
    destruct (retain_pairs f st' kvs1) as [st1 l1].
    destruct (retain_pairs f st1 kvs2) as [st2 l2]. by destruct keep.
Qed.

(** The pairs routed to the shards of a list. *)
Definition routed c (is_ : list nat) (m : gmap K V) : gmap K V :=
  filter (λ kv : K * V, Z.to_nat (route c kv.1) ∈ is_) m.

Lemma routed_index c k i : cache_ok c → Z.to_nat (route c k) = i ↔ route c k = Z.of_nat i.
Proof. intros Hc. pose proof (proj2 (shard_of_route c k (co_geometry _ Hc))). lia. Qed.

Lemma routed_cons c i is_ l :
  cache_ok c → shards c !! i = Some l → i ∉ is_ →
  map_to_list (routed c (i :: is_) (cache_contents c)) ≡ₚ
    map_to_list (contents (lock_data l)) ++ map_to_list (routed c is_ (cache_contents c)).
Proof.
  intros Hc Hl Hi. rewrite <-(contents_filter c i l) by done.
  apply NoDup_Permutation; [apply NoDup_map_to_list| |].
  - apply NoDup_app. split_and!; [apply NoDup_map_to_list| |apply NoDup_map_to_list].
    intros [k v] [_ Hk]%elem_of_map_to_list%map_lookup_filter_Some
      [_ Hk']%elem_of_map_to_list%map_lookup_filter_Some.
    cbn in *. apply (routed_index c k i Hc) in Hk. congruence.
  - intros [k v]. unfold routed.
    rewrite elem_of_app, !elem_of_map_to_list, !map_lookup_filter_Some. cbn.
    rewrite elem_of_cons, (routed_index c k i Hc). tauto.
Qed.

Lemma retained_keys {St} (f : St → K → V → St * (V * bool)) st kvs (m : gmap K V) k :
  kvs ≡ₚ map_to_list m → k ∈ (retain_pairs f st kvs).2.*1 → is_Some (m !! k).
Proof.
  intros Hp Hk%retain_pairs_keys. rewrite Hp in Hk.
  apply list_elem_of_fmap in Hk as ([k' v] & -> & Hkv%elem_of_map_to_list). by eexists.
Qed.

Lemma routed_set c i l' is_ m' :
  cache_ok c → i ∉ is_ →
  (∀ k, route c k ≠ Z.of_nat i → m' !! k = cache_contents c !! k) →
  routed (set_shard (Z.of_nat i) l' c) is_ m' = routed c is_ (cache_contents c).
Proof.
  intros Hc Hi Hm'. apply map_eq. intros k. apply option_eq. intros v. unfold routed.
  rewrite !map_lookup_filter_Some. cbn. change (route (set_shard _ _ _) k) with (route c k).
  split; intros [Hk Hr]; (split; [|done]); [rewrite <-Hm' | rewrite Hm']; try done;
    intros Hr'; apply (routed_index c k i Hc) in Hr'; congruence.
Qed.

(** A body that does to the pairs of a shard what [f] says. *)
Definition retains {St} (f : St → K → V → St * (V * bool))
    (body : St → ShardData K V → outcome (ShardData K V * St)) : Prop :=
  ∀ st s, shard_ok s →
  ∃ kvs s', kvs ≡ₚ map_to_list (contents s) ∧ body st s ⇓ (s', (retain_pairs f st kvs).1) ∧
    shard_step s s' ∧ contents s' = list_to_map (retain_pairs f st kvs).2.

Lemma retain_loop_ok {St} (f : St → K → V → St * (V * bool)) body st is_ c :
  retains f body → cache_ok c → quiescent c → NoDup is_ → Forall (λ i, i < length (shards c))%nat is_ →
  ∃ kvs c', kvs ≡ₚ map_to_list (routed c is_ (cache_contents c)) ∧
    for_write body st is_ c ⇓ (c', (retain_pairs f st kvs).1) ∧
    cache_ok c' ∧ quiescent c' ∧ same_params c c' ∧
    ∀ k, cache_contents c' !! k =
      if decide (Z.to_nat (route c k) ∈ is_)
      then (list_to_map (retain_pairs f st kvs).2 : gmap K V) !! k else cache_contents c !! k.
Proof.
  intros Hbody. revert st c. induction is_ as [|i is_ IH]; intros st c Hc Hq Hnd Hlen.
  { exists [], c. split_and!; try done.
      unfold routed. replace (filter _ (cache_contents c)) with (∅ : gmap K V);
        [by rewrite map_to_list_empty|].
      symmetry. apply map_empty. intros k. apply map_lookup_filter_None. right.
      intros v _. apply not_elem_of_nil. }
  apply NoDup_cons in Hnd as [Hi Hnd]. apply Forall_cons in Hlen as [Hlt Hlen].
  destruct (lookup_lt_is_Some_2 _ _ Hlt) as [l Hl].
  pose proof (co_shards _ Hc _ _ Hl) as Hinv.
  destruct (Hbody st (lock_data l) (li_shard _ _ _ Hinv)) as (kvs1 & s & Hp1 & Hs & Hst & Hcont1).
  destruct (retain_pairs f st kvs1) as [st1 l1] eqn:Hrp1. cbn in Hs, Hcont1.
  assert (Hkeys1 : ∀ k, k ∈ l1.*1 → is_Some (contents (lock_data l) !! k)).
  { intros k Hk. apply (retained_keys f st kvs1); [done|]. by rewrite Hrp1. }
  destruct (for_write_turn body st st1 c i l s Hc Hq Hl) as (Hturn & Hc1 & Hq1 & Hpar1 & Hcc1); [done|done| |].
  { intros k [v Hv]. apply Hkeys1. rewrite Hcont1 in Hv. apply elem_of_list_to_map_2 in Hv.
    apply list_elem_of_fmap. by exists (k, v). }
  set (c1 := set_shard _ _ _) in *.
  destruct (IH st1 c1) as (kvs2 & c' & Hp2 & Hrun & Hc' & Hq' & Hpar' & Hcc'); [done..| |].
  { eapply Forall_impl; [exact Hlen|]. cbn. intros j. by rewrite length_insert. }
  exists (kvs1 ++ kvs2), c'. rewrite retain_pairs_app, Hrp1.
  destruct (retain_pairs f st1 kvs2) as [st2 l2] eqn:Hrp2. cbn in Hrun, Hcc' |- *.
  assert (Hsame : routed c1 is_ (cache_contents c1) = routed c is_ (cache_contents c)).
  { apply routed_set; [done..|]. intros k Hr. by rewrite Hcc1, decide_False. }
  rewrite Hsame in Hp2. split_and!; [|by rewrite Hturn|done|done| |].
  - by rewrite (routed_cons c i is_ l Hc Hl Hi), Hp1, Hp2.
  - destruct Hpar1 as (? & ? & ?), Hpar' as (? & ? & ?). split_and!; congruence.
  - intros k. rewrite Hcc'. change (route c1 k) with (route c k). rewrite list_to_map_app.
    assert (Hkeys2 : k ∈ l2.*1 → Z.to_nat (route c k) ∈ is_).
    { intros Hk. destruct (retained_keys f st1 kvs2 _ k Hp2) as [v Hv]; [by rewrite Hrp2|].
      by apply map_lookup_filter_Some in Hv as [_ ?]. }
    destruct (decide (Z.to_nat (route c k) ∈ is_)) as [Hin|Hin].
    + rewrite decide_True by (by right). symmetry. apply lookup_union_r.
      apply not_elem_of_list_to_map_1. intros Hk%Hkeys1%(li_route _ _ _ Hinv).
      apply (routed_index c k i Hc) in Hk. congruence.
    + rewrite Hcc1, Hcont1. destruct (decide (route c k = Z.of_nat i)) as [Hr|Hr].
      * rewrite decide_True by (apply elem_of_cons; left; by apply (routed_index c k i Hc)). symmetry.
        rewrite lookup_union_l; [done|]. apply not_elem_of_list_to_map_1. tauto.
      * rewrite decide_False; [done|]. intros [?%(routed_index c k i Hc)|]%elem_of_cons; done.
Qed.

(** *** Sums over the shards *)

(** Every shard can be read. *)
Definition readable c : Prop :=
  ∀ i l, shards c !! i = Some l → ∃ w, lock_shared (lock_word l) ⇓ w.

Lemma quiescent_readable c : quiescent c → readable c.
Proof.
  intros Hq i l Hl. rewrite (Hq _ _ Hl). exists (encode (Readers 1) false false).
  change 0 with (encode Free false false) at 1. by rewrite lock_shared_encode.
Qed.

Definition Zsum (zs : list Z) : Z := foldr Z.add 0 zs.

Lemma Zsum_nonneg zs : Forall (Z.le 0) zs → 0 ≤ Zsum zs.
Proof. induction 1; cbn; [done|]. unfold Zsum in *. lia. Qed.

(** Reading a shard under its read lock leaves the cache as it was. *)
Lemma read_shard_ok c i l :
  cache_ok c → readable c → shards c !! i = Some l →
  ∃ c1, _yield_read_shard (Z.of_nat i) c ⇓ c1 ∧ guarded (Z.of_nat i) c1 ⇓ lock_data l ∧
    drop_read (Z.of_nat i) c1 ⇓ c.
Proof.
  intros Hc Hread Hl. destruct (Hread _ _ Hl) as [w Hw].
  destruct (lock_shared_ok _ _ (li_lock _ _ _ (co_shards _ Hc _ _ Hl)) Hw) as (_ & _ & Hun).
  rewrite (yield_read _ _ _ Hl), Hw. eexists. split; [done|]. rewrite (guarded_set _ _ _ _ Hl).
  split; [done|]. unfold drop_read. rewrite (get_set_shard _ _ _ _ Hl). cbn.
  rewrite Hun, set_shard_twice. unfold set_shard. rewrite Nat2Z.id, list_insert_id; [by destruct c|].
  rewrite Hl. by destruct l.
Qed.

Lemma sum_read_ok (f : ShardData K V → Z) acc c i ls :
  cache_ok c → readable c → drop i (shards c) = ls →
  Forall (λ l, 0 ≤ f (lock_data l)) ls → 0 ≤ acc →
  acc + Zsum (f ∘ lock_data <$> ls) < usize_mod →
  sum_read f acc (seq i (length ls)) c ⇓ (c, acc + Zsum (f ∘ lock_data <$> ls)).
Proof.
  intros Hc Hread. revert acc i. induction ls as [|l ls IH]; intros acc i Hdrop Hpos Hacc Hmod.
  { cbn in *. by rewrite Z.add_0_r. }
  assert (Hl : shards c !! i = Some l).
  { rewrite <-(Nat.add_0_r i), <-lookup_drop, Hdrop. done. }
  apply Forall_cons in Hpos as [Hpl Hpos]. cbn in Hmod.
  assert (0 ≤ Zsum (f ∘ lock_data <$> ls)) by (by apply Zsum_nonneg, Forall_fmap).
  destruct (read_shard_ok c i l Hc Hread Hl) as (c1 & Hy & Hg & Hd).
  cbn [sum_read seq length]. rewrite Hy. cbn [mbind outcome_bind]. rewrite Hg. cbn [mbind outcome_bind].
  rewrite Hd. cbn [mbind outcome_bind].
  unfold Zsum in *. cbn [foldr fmap list_fmap] in *.
  rewrite usize_add_small by lia. cbn. rewrite IH; [f_equal; f_equal; lia|..|lia|lia].
  - rewrite <-(Nat.add_1_r i), <-drop_drop, Hdrop. done.
  - done.
Qed.

Lemma union_list_member (ms : list (gmap K V)) k v :
  (⋃ ms) !! k = Some v → ∃ j m, ms !! j = Some m ∧ is_Some (m !! k).
Proof.
  induction ms as [|m1 ms IH]; [done|]. cbn. intros [Hv | [_ Hv]]%lookup_union_Some_raw.
  - exists 0%nat, m1. by split; [|eexists].
  - destruct (IH Hv) as (j & m' & ? & ?). by exists (S j), m'.
Qed.

Lemma union_list_size (ms : list (gmap K V)) :
  (∀ i j m m' k, ms !! i = Some m → ms !! j = Some m' → is_Some (m !! k) → is_Some (m' !! k) → i = j) →
  Z.of_nat (size (⋃ ms)) = Zsum ((λ m, Z.of_nat (size m)) <$> ms).
Proof.
  induction ms as [|m ms IH]; intros Hdis; [done|]. cbn.
  rewrite map_size_disj_union, Nat2Z.inj_add, IH; [done| |].
  - intros i j m1 m2 k Hi Hj H1 H2. by injection (Hdis (S i) (S j) m1 m2 k Hi Hj H1 H2).
  - apply map_disjoint_spec. intros k v v' Hv Hv'.
    destruct (union_list_member ms k v' Hv') as (j & m' & Hj & Hm').
    assert (Hm : is_Some (m !! k)) by by eexists.
    by specialize (Hdis 0%nat (S j) m m' k eq_refl Hj Hm Hm').
Qed.

Lemma cache_size c :
  cache_ok c → Z.of_nat (size (cache_contents c)) = Zsum (shard_len ∘ lock_data <$> shards c).
Proof.
  intros Hc. unfold cache_contents. rewrite union_list_size.
  - rewrite <-list_fmap_compose. f_equal. apply list_fmap_ext. intros i l Hl. cbn.
    symmetry. by apply shard_len_contents, (co_shards _ Hc _ _ Hl).
  - intros i j m m' k Hi Hj Hm Hm'. rewrite list_lookup_fmap in Hi, Hj.
    apply fmap_Some in Hi as (li & Hi & ->). apply fmap_Some in Hj as (lj & Hj & ->).
    apply (li_route _ _ _ (co_shards _ Hc _ _ Hi)) in Hm.
    apply (li_route _ _ _ (co_shards _ Hc _ _ Hj)) in Hm'. lia.
Qed.

(** [len] counts the pairs. *)
Lemma cache_len_ok c :
  cache_ok c → readable c → Z.of_nat (size (cache_contents c)) < usize_mod →
  _len c ⇓ (c, Z.of_nat (size (cache_contents c))).
Proof.
  intros Hc Hread Hsz. unfold _len, all_shards. rewrite cache_size in Hsz |- * by done.
  rewrite (sum_read_ok shard_len 0 c 0 (shards c)); try done.
  apply Forall_forall. intros l [i Hi]%list_elem_of_lookup.
  rewrite (shard_len_contents (lock_data l)) by apply (co_shards _ Hc _ _ Hi). lia.
Qed.

Lemma Zsum_le (f : RwLock K V → Z) b ls :
  Forall (λ l, f l ≤ b) ls → Zsum (f <$> ls) ≤ Z.of_nat (length ls) * b.
Proof. unfold Zsum. induction 1; cbn [fmap list_fmap foldr length]; lia. Qed.

Lemma shard_len_le c i l :
  cache_ok c → shards c !! i = Some l → 0 < cache_capacity c → shard_len (lock_data l) ≤ shard_limit c.
Proof.
  intros Hc Hl Hcap. pose proof (co_shards _ Hc _ _ Hl) as [(a & Hrel & Hi) _ Hlim _].
  assert (Hpos : 0 < shard_limit c).
  { unfold shard_limit. destruct (Z.eqb_spec (cache_capacity c) 0); lia. }
  rewrite <-Hlim in *. rewrite (rel_cap _ _ Hrel) in *.
  pose proof (inv_bound _ Hi Hpos). pose proof (inv_drift _ Hi) as Hd.
  rewrite <-(shard_drift_rel _ _ Hrel) in Hd. unfold shard_drift in Hd.
  rewrite (shard_live_rel _ _ Hrel) in Hd. lia.
Qed.

Lemma cache_size_bound c :
  cache_ok c → 0 < cache_capacity c →
  Z.of_nat (size (cache_contents c)) ≤ _shard_count c * shard_limit c.
Proof.
  intros Hc Hcap. rewrite cache_size by done. apply Zsum_le, Forall_forall.
  intros l [i Hi]%list_elem_of_lookup. by eapply shard_len_le.
Qed.

Lemma shard_limit_sum c :
  cache_ok c → 0 < cache_capacity c →
  cache_capacity c ≤ _shard_count c * shard_limit c ≤ cache_capacity c + _shard_count c - 1.
Proof.
  intros Hc Hcap. destruct (co_geometry _ Hc) as (n & Hn & _ & Hcnt).
  assert (Hpos : 0 < _shard_count c) by (rewrite Hcnt; apply Z.pow_pos_nonneg; lia).
  pose proof (div_ceil_spec (cache_capacity c) (_shard_count c)) as Hd.
  unfold shard_limit. destruct (Z.eqb_spec (cache_capacity c) 0); [lia|]. nia.
Qed.

(** *** Construction *)

(** The number of shards the core constructor settles on. *)
Definition final_amount (cap n p : Z) : Z :=
  if (cap >? 0) && (cap / n <? 4) then Z.max (2 ^ p) 2 else n.

Lemma pow2_amount n : 1 < n < usize_mod → is_power_of_two n = true →
  ∃ m, 1 ≤ m < usize_bits ∧ n = 2 ^ m.
Proof.
  intros Hn [_ Hp]%is_power_of_two_true. exists (Z.log2 n). split; [|done].
  pose proof (Z.log2_pos n). split; [lia|]. apply (Z.pow_lt_mono_r_iff 2); [lia| |].
  - pose proof usize_bits_bounds. lia.
  - rewrite <-Hp. unfold usize_mod in Hn. lia.
Qed.

Lemma fresh_cache_ok cap m :
  is_usize cap → 1 ≤ m < usize_bits →
  let limit := if cap =? 0 then 0 else Z.max (div_ceil cap (2 ^ m)) 1 in
  let c := mkCache (usize_bits - m)
             (replicate (Z.to_nat (2 ^ m)) (mkLock lock_init (shard_new 0 limit))) cap in
  cache_ok c ∧ quiescent c ∧ cache_contents c = ∅ ∧ _shard_count c = 2 ^ m.
Proof.
  intros Hcap Hm limit c.
  assert (Hpow : 2 ≤ 2 ^ m) by (change 2 with (2 ^ 1) at 1; apply Z.pow_le_mono_r; lia).
  assert (Hcount : _shard_count c = 2 ^ m)
    by (unfold _shard_count; cbn; rewrite length_replicate; lia).
  assert (Hlimit : shard_limit c = limit) by (unfold shard_limit; by rewrite Hcount).
  assert (Hex : shard_exact (shard_new 0 limit : ShardData K V)).
  { apply shard_new_ok. unfold is_usize in *. subst limit. destruct (Z.eqb_spec cap 0); [lia|].
    pose proof (div_ceil_spec cap (2 ^ m)). nia. }
  assert (Hempty : contents (shard_new 0 limit : ShardData K V) = ∅).
  { pose proof (shard_new_rel (K:=K) (V:=V) 0 limit) as Hrel.
    rewrite (contents_rel _ _ Hrel). apply fmap_empty. }
  split_and!; [|by intros i l [-> _]%lookup_replicate| |done].
  - constructor; [exists m; split_and!; done || lia|done|].
    intros i l [-> _]%lookup_replicate. constructor; cbn.
    + by apply exact_ok.
    + intros k. rewrite Hempty, lookup_empty. by intros [? ?].
    + rewrite Hlimit. unfold shard_new. by destruct (limit =? 0).
    + apply lock_ok_zero.
  - unfold cache_contents. cbn. rewrite fmap_replicate. cbn. rewrite Hempty. clear Hcount Hlimit.
    induction (Z.to_nat (2 ^ m)) as [|n IH]; [done|]. cbn. rewrite IH. apply map_union_empty.
Qed.

Lemma constructor_ok cap n :
  is_usize cap → 1 < n < usize_mod → is_power_of_two n = true →
  ∃ c p, with_capacity_and_hasher_and_shard_amount cap n ⇓ c ∧ cache_ok c ∧ quiescent c ∧
    cache_contents c = ∅ ∧ cache_capacity c = cap ∧
    next_power_of_two (cap / 4) ⇓ 2 ^ p ∧ 0 ≤ p ∧ _shard_count c = final_amount cap n p.
Proof.
  intros Hcap Hn Hp2. unfold is_usize in Hcap.
  destruct (next_power_of_two_small (cap / 4)) as (p & Hp & Hnext & Hrange & _).
  { apply Z.div_pos; lia. }
  { pose proof (Z.mul_div_le cap 4). lia. }
  assert (Hm : ∃ m, 1 ≤ m < usize_bits ∧ final_amount cap n p = 2 ^ m).
  { unfold final_amount. destruct (_ && _); [|by apply pow2_amount].
    apply pow2_amount; [pose proof usize_mod_ge; lia|].
    destruct (Z.max_spec (2 ^ p) 2) as [[_ ->] | [_ ->]]; [done|by apply is_power_of_two_pow]. }
  destruct Hm as (m & Hm & Hfin). destruct (fresh_cache_ok cap m) as (Hok & Hq & Hemp & Hcnt); [done..|].
  eexists _, p. unfold with_capacity_and_hasher_and_shard_amount.
  destruct (Z.gtb_spec n 1); [|lia]. rewrite Hp2. cbn [rust_assert mbind outcome_bind].
  replace (if (cap >? 0) && (cap / n <? 4) then _ else _) with (Ret (final_amount cap n p) : outcome Z).
  2:{ unfold final_amount. destruct (_ && _); [|done]. by rewrite Hnext. }
  cbn [mbind outcome_bind]. rewrite Hfin. unfold ncb. rewrite trailing_zeros_pow2 by lia.
  replace ptr_size_bits with usize_bits
    by (unfold ptr_size_bits; destruct usize_bits_ok as [-> | ->]; done).
  rewrite usize_sub_small by lia. cbn [mbind outcome_bind]. split_and!; done.
Qed.

(** *** Side conditions *)

Lemma bounded_countable c k : cache_ok c → 0 < cache_capacity c → countable_at c k.
Proof.
  intros Hc Hcap l Hl. destruct (home_index _ _ _ Hc Hl) as (i & _ & _ & _ & Hinv). intros Hz.
  rewrite (li_cap _ _ _ Hinv) in Hz. unfold shard_limit in Hz.
  destruct (Z.eqb_spec (cache_capacity c) 0); lia.
Qed.

Lemma same_except_quiescent c c' k :
  cache_ok c → same_except (route c k) c c' → quiescent c → unlocked c' k → quiescent c'.
Proof.
  intros Hc [Hs _ _ Hsame] Hq (l & Hl & Hw) j lj Hj.
  unfold home in Hl. rewrite (same_route c c' k Hs) in Hl.
  pose proof (proj2 (shard_of_route c k (co_geometry _ Hc))).
  destruct (decide (Z.of_nat j = route c k)) as [Hr|Hr].
  - rewrite <-Hr, Nat2Z.id in Hl. congruence.
  - rewrite Hsame in Hj by done. by eapply Hq.
Qed.

Lemma unlocked_readable c k l :
  home c k l → lock_word l = 0 → lock_shared (lock_word l) ⇓ encode (Readers 1) false false.
Proof.
  intros _ ->. change 0 with (encode Free false false) at 1. by rewrite lock_shared_encode.
Qed.

(** *** The pairs, shard by shard *)

Lemma union_list_to_list (ms : list (gmap K V)) :
  (∀ i j m m' k, ms !! i = Some m → ms !! j = Some m' → is_Some (m !! k) → is_Some (m' !! k) → i = j) →
  map_to_list (⋃ ms) ≡ₚ concat (map_to_list <$> ms).
Proof.
  induction ms as [|m ms IH]; intros Hdis; [cbn; by rewrite map_to_list_empty|]. cbn.
  rewrite <-IH.
  - apply map_to_list_disj_union, map_disjoint_spec. intros k v v' Hv Hv'.
    destruct (union_list_member ms k v' Hv') as (j & m' & Hj & Hm').
    assert (Hm : is_Some (m !! k)) by by eexists.
    by specialize (Hdis 0%nat (S j) m m' k eq_refl Hj Hm Hm').
  - intros i j m1 m2 k Hi Hj H1 H2. by injection (Hdis (S i) (S j) m1 m2 k Hi Hj H1 H2).
Qed.

Lemma cache_contents_list c :
  cache_ok c →
  map_to_list (cache_contents c) ≡ₚ concat (map_to_list ∘ contents ∘ lock_data <$> shards c).
Proof.
  intros Hc. unfold cache_contents. rewrite union_list_to_list.
  - by rewrite <-list_fmap_compose.
  - intros i j m m' k. rewrite !list_lookup_fmap, !fmap_Some.
    intros (l & Hl & ->) (l' & Hl' & ->) Hm Hm'.
    pose proof (li_route _ _ _ (co_shards _ Hc _ _ Hl) k Hm).
    pose proof (li_route _ _ _ (co_shards _ Hc _ _ Hl') k Hm'). lia.
Qed.

(** *** Unbounded caches *)

Definition unbounded c : Prop := cache_capacity c = 0.

Lemma unbounded_not_full c k : cache_ok c → unbounded c → ¬ full_at c k.
Proof.
  intros Hc Hu (l & Hl & [Hcap _]). destruct (home_index _ _ _ Hc Hl) as (i & _ & _ & _ & Hinv).
  rewrite (li_cap _ _ _ Hinv) in Hcap. unfold shard_limit in Hcap. rewrite Hu in Hcap. cbn in Hcap. lia.
Qed.

Lemma unbounded_live c i l :
  cache_ok c → unbounded c → shards c !! i = Some l →
  shard_live (lock_data l) ≤ Z.of_nat (size (cache_contents c)).
Proof.
  intros Hc Hu Hi. pose proof (co_shards _ Hc _ _ Hi) as Hinv.
  rewrite (unbounded_shard_live (lock_data l) (li_shard _ _ _ Hinv)).
  2:{ rewrite (li_cap _ _ _ Hinv). unfold shard_limit. by rewrite Hu. }
  rewrite <-(contents_filter c i _ Hc Hi).
  rewrite (size_filter_split (λ kv, route c kv.1 = Z.of_nat i) (cache_contents c)). lia.
Qed.

Lemma unbounded_countable c k :
  cache_ok c → unbounded c → Z.of_nat (size (cache_contents c)) + 1 < usize_mod → countable_at c k.
Proof.
  intros Hc Hu Hsz l Hl. destruct (home_index _ _ _ Hc Hl) as (i & _ & Hi & _ & _). intros _.
  pose proof (unbounded_live c i l Hc Hu Hi). lia.
Qed.

(** Extending an unbounded cache keeps every pair, the last value of a
    repeated key winning. *)
Lemma extend_ok pairs c :
  cache_ok c → quiescent c → unbounded c →
  Z.of_nat (size (cache_contents c)) + Z.of_nat (length pairs) < usize_mod →
  ∃ c', extend pairs c ⇓ c' ∧ cache_ok c' ∧ quiescent c' ∧ unbounded c' ∧
    cache_contents c' = foldl (λ m kv, <[kv.1 := kv.2]> m) (cache_contents c) pairs.
Proof.
  revert c. induction pairs as [|[k v] pairs IH]; intros c Hc Hq Hu Hsz; [by exists c|].
  cbn [length] in Hsz. pose proof (quiescent_unlocked c k Hc Hq) as Hun.
  destruct (cache_insert_ok c k v Hc Hun) as (c1 & Hins & Hc1 & Hun1 & Hsame & Heff).
  { apply unbounded_countable; [done..|lia]. }
  pose proof (ins_room _ _ _ _ _ Heff (or_intror (unbounded_not_full c k Hc Hu))) as Hcont.
  destruct (IH c1 Hc1) as (c' & Hrun & Hc' & Hq' & Hu' & Hcc).
  - by apply (same_except_quiescent c c1 k).
  - unfold unbounded. by rewrite (se_capacity _ _ _ Hsame).
  - rewrite Hcont. destruct (cache_contents c !! k) as [w|] eqn:Hk.
    + rewrite map_size_insert_Some by (by eexists). lia.
    + rewrite map_size_insert_None by done. lia.
  - exists c'. cbn. rewrite Hins. cbn. split_and!; [done..|]. by rewrite Hcc, Hcont.
Qed.

Lemma foldl_insert_list (kvs : list (K * V)) (m : gmap K V) :
  NoDup kvs.*1 → (∀ k, k ∈ kvs.*1 → m !! k = None) →
  foldl (λ m kv, <[kv.1 := kv.2]> m) m kvs = list_to_map kvs ∪ m.
Proof.
  revert m. induction kvs as [|[k v] kvs IH]; intros m Hnd Hm; cbn; [by rewrite (left_id_L ∅ (∪))|].
  apply NoDup_cons in Hnd as [Hk Hnd]. rewrite IH; [|done|].
  - rewrite <-insert_union_r, insert_union_l; [done|]. by apply not_elem_of_list_to_map_1.
  - intros k' Hk'. rewrite lookup_insert_ne by (intros ->; done). apply Hm. by right.
Qed.

Lemma foldl_insert_last (kvs : list (K * V)) :
  foldl (λ m kv, <[kv.1 := kv.2]> m) (∅ : gmap K V) kvs = list_to_map (reverse kvs).
Proof.
  induction kvs as [|[k v] kvs IH] using rev_ind; [done|]. rewrite foldl_app, reverse_app. cbn. by rewrite IH.
Qed.

(** The default constructors. *)
Lemma default_ok parallelism cap :
  1 ≤ parallelism → 32 * parallelism ≤ usize_mod → is_usize cap →
  ∃ c, new parallelism cap ⇓ c ∧ cache_ok c ∧ quiescent c ∧ cache_contents c = ∅ ∧
    cache_capacity c = cap.
Proof.
  intros Hp Hmod Hcap. unfold new, with_capacity_and_hasher, default_shard_amount, usize_mul.
  destruct (Z.ltb_spec (parallelism * 16) usize_mod); [|lia]. cbn [mbind outcome_bind].
  destruct (next_power_of_two_small (parallelism * 16)) as (p & Hp0 & -> & Hrange & _); [lia..|].
  cbn [mbind outcome_bind].
  destruct (constructor_ok cap (2 ^ p) Hcap) as (c & q & ? & ? & ? & ? & ? & _);
    [lia|by apply is_power_of_two_pow|]. by exists c.
Qed.
End cache_spec.
