(* ===== verification/ThreadInv.v ===== *)
(** * ThreadInv: the invariant of concurrent threads

    What every plan must promise ([psafe]), the invariant of the fine machine,
    and the state of the atomic machine it stands for. A plan works for every
    shard the other threads may leave, takes locks in ascending order while it
    keeps one, and has a number of insertions left ([credit]) for every shard:
    an unbounded shard counts its entries in a [usize], so together the threads
    must not insert more than fit. *)

From stdpp Require Import base gmap list.
From S2P Require Import Prelude Machine Lock LockMachine LockInv RawTable Util Shard ShardOps ShardModel ShardSim.
From S2P Require Import Evict Safety Exact ShardSpec TryResult Cache Threads ThreadLocks CacheSpec.

Open Scope Z_scope.

Section inv.
Context {K V : Type} `{Countable K} `{!BuildHasher K} `{!Target}.
Context `{!RawTable (K * CacheEntry V)} `{!RawTableSpec (K * CacheEntry V)}.
Context {J R : Type} (plan_of : J → outcome (plan K V R)).
(** The cache (its parameters), the entries a shard may come to hold, and the
    insertions a job makes. *)
Context (c0 : NeoCache K V) (bound : nat → nat) (credit_of : J → nat → nat).
Implicit Types (t i : nat) (p : plan K V R) (s : ShardData K V) (σ : config K V J R) (k : ctl K V R).
Implicit Types (cr : nat → nat) (d : list (ShardData K V)).

(** ** Plans *)

Definition inv_at i s : Prop := lock_inv c0 i (mkLock 0 s).

Record fits cr i s : Prop := {
  fits_inv : inv_at i s;
  fits_size : (size (contents s) ≤ bound i)%nat;
  fits_credit : unbounded c0 → (size (contents s) + cr i ≤ bound i)%nat
}.

(** A shard lock above the one that is kept. *)
Definition above (kept : option nat) i : Prop :=
  (i < length (shards c0))%nat ∧ match kept with Some j => (j < i)%nat | None => True end.

Inductive psafe : (nat → nat) → option nat → plan K V R → Prop :=
| psafe_done cr kept r : psafe cr kept (Done r)
| psafe_write cr kept (busy : option (plan K V R)) (hold : bool) i (body : ShardData K V → outcome (ShardData K V * plan K V R)) :
    above kept i →
    (∀ p, busy = Some p → psafe cr kept p) →
    (∀ s, fits cr i s → ∃ s' p cr', body s ⇓ (s', p) ∧ inv_at i s' ∧ (∀ j, (cr' j ≤ cr j)%nat) ∧
       (unbounded c0 → (size (contents s') + cr' i ≤ size (contents s) + cr i)%nat) ∧
       psafe cr' (if hold then Some i else None) p) →
    psafe cr kept (Write busy hold i body)
| psafe_read cr kept (hold : bool) i (body : ShardData K V → outcome (plan K V R)) :
    above kept i →
    (∀ s, fits cr i s → ∃ p, body s ⇓ p ∧ psafe cr (if hold then Some i else None) p) →
    psafe cr kept (Read hold i body)
| psafe_look cr kept (busy : option (plan K V R)) i key (next : option (K * V) → plan K V R) :
    above kept i →
    (∀ p, busy = Some p → psafe cr kept p) →
    (∀ o : option V, psafe cr None (next (pair key <$> o))) →
    psafe cr kept (Look busy i key next).

Lemma psafe_head cr kept p m i : psafe cr kept p → head p = Some (m, i) → above kept i.
Proof. by destruct 1; intros [= <- <-]. Qed.

Lemma psafe_busy cr kept p p' : psafe cr kept p → if_busy p = Some p' → psafe cr kept p'.
Proof. destruct 1; cbn; try done; auto. Qed.

Lemma psafe_none cr kept p : psafe cr kept p → psafe cr None p.
Proof.
  induction 1 as [cr kept r|cr kept busy hold i body [Hi _] Hb IHb Hbody|cr kept hold i body [Hi _] Hbody
    |cr kept busy i key next [Hi _] Hb IHb Hnext]; constructor; try done; by split.
Qed.

(** ** Roles *)

Definition kept_role (kept : option (mode * nat)) i : role :=
  match kept with Some (m, j) => if decide (i = j) then Has m else Out | None => Out end.

Definition role_of k i : role :=
  match k with
  | Rest => Out
  | Begin kept _ => kept_role kept i
  | Enter kept p =>
      match head p with
      | Some (m, j) =>
          if decide (i = j) then Taking m (match if_busy p with Some _ => true | None => false end)
          else kept_role kept i
      | None => kept_role kept i
      end
  | Leave m j entered p =>
      if decide (i = j) then Dropping m else if entered then kept_role (head p) i else Out
  | Body p => kept_role (head p) i
  | Bump _ j _ _ _ _ | Guard j _ _ => kept_role (Some (Shared, j)) i
  end.

(** ** The state of a thread *)

Definition readable_pair d i (b : bucket) (kv : K * V) : Prop :=
  ∃ s, d !! i = Some s ∧ bucket_pair b s ⇓ kv.

Definition kept_ok (kept : option (mode * nat)) : Prop :=
  match kept with Some (_, j) => (j < length (shards c0))%nat | None => True end.

Definition ctl_ok d cr k : Prop :=
  match k with
  | Rest => True
  | Begin kept p => psafe cr (snd <$> kept) p ∧ kept_ok kept
  | Enter kept p => psafe cr (snd <$> kept) p ∧ is_Some (head p) ∧ kept_ok kept
  | Leave m i entered p =>
      psafe cr (if entered then Some i else None) p ∧ (entered = true → is_Some (head p)) ∧
      (i < length (shards c0))%nat
  | Body p => psafe cr None p ∧ is_Some (head p)
  | Bump busy i b prev key next =>
      ∃ v, readable_pair d i b (key, v) ∧ psafe cr None (next (Some (key, v))) ∧
        (i < length (shards c0))%nat
  | Guard i b next =>
      ∃ kv, readable_pair d i b kv ∧ psafe cr None (next (Some kv)) ∧ (i < length (shards c0))%nat
  end.

(** The shard a thread is reading through a bucket. *)
Definition reads k i : Prop :=
  match k with Bump _ j _ _ _ _ | Guard j _ _ => i = j | _ => False end.

Lemma ctl_ok_data d d' cr k :
  (∀ i s, reads k i → d !! i = Some s →
     ∃ s', d' !! i = Some s' ∧ ∀ b kv, bucket_pair b s ⇓ kv → bucket_pair b s' ⇓ kv) →
  ctl_ok d cr k → ctl_ok d' cr k.
Proof.
  intros Hd. destruct k as [| | | | |busy i b prev key next|i b next]; try done.
  - intros (v & (s & Hs & Hb) & Hp). destruct (Hd i s eq_refl Hs) as (s' & Hs' & Hkeep).
    exists v. split; [|done]. exists s'. auto.
  - intros (kv & (s & Hs & Hb) & Hp). destruct (Hd i s eq_refl Hs) as (s' & Hs' & Hkeep).
    exists kv. split; [|done]. exists s'. auto.
Qed.

(** ** The invariant *)

Definition todo_credit (todo : list J) i : nat := sum_list ((λ j, credit_of j i) <$> todo).

(** The insertions all threads may still make. *)
Definition credits (crs : list (nat → nat)) (ths : list (list J * ctl K V R)) i : nat :=
  sum_list (zip_with (λ cr th, cr i + todo_credit th.1 i)%nat crs ths).

Record cinv (crs : list (nat → nat)) σ : Prop := {
  ci_locks : length (locks σ) = length (shards c0);
  ci_shards : length (data σ) = length (shards c0);
  ci_lock i l : locks σ !! i = Some l → state_inv (Z.of_nat (length (threads σ))) l;
  ci_role t todo k i q :
    threads σ !! t = Some (todo, k) → pc_at i t σ = Some q → role_ok (role_of k i) q = true;
  ci_data i s : data σ !! i = Some s → inv_at i s;
  ci_ctl : Forall2 (λ cr th, ctl_ok (data σ) cr th.2) crs (threads σ);
  ci_credit i s : unbounded c0 → data σ !! i = Some s →
    (size (contents s) + credits crs (threads σ) i ≤ bound i)%nat
}.

(** ** The atomic state *)

Definition abs_ctl d k : option (plan K V R) :=
  match k with
  | Rest => None
  | Begin _ p | Enter _ p | Leave _ _ _ p | Body p => Some p
  | Bump busy i b prev key next => Some (Look busy i key next)
  | Guard i b next =>
      match s ← deref (d !! i); bucket_pair b s with Ret kv => Some (next (Some kv)) | _ => None end
  end.

Definition abs σ : aconfig K V J R :=
  mkAConfig (data σ) ((λ th, (th.1, abs_ctl (data σ) th.2)) <$> threads σ).

(** The events of a step against the atomic machine. *)
Definition matches σ (e : option (tevent J R)) σ' : Prop :=
  match e with
  | None => abs σ' = abs σ
  | Some e => astep plan_of (abs σ) e (abs σ')
  end.

Lemma abs_thread σ t todo k :
  threads σ !! t = Some (todo, k) → a_threads (abs σ) !! t = Some (todo, abs_ctl (data σ) k).
Proof. intros Ht. cbn. by rewrite list_lookup_fmap, Ht. Qed.

Lemma abs_set_thread σ t todo k :
  abs (set_thread t todo k σ) =
    mkAConfig (data σ) (<[t := (todo, abs_ctl (data σ) k)]> (a_threads (abs σ))).
Proof. unfold abs, set_thread. cbn. by rewrite list_fmap_insert. Qed.

Lemma abs_stutter σ t todo k k' :
  threads σ !! t = Some (todo, k) → abs_ctl (data σ) k' = abs_ctl (data σ) k →
  abs (set_thread t todo k' σ) = abs σ.
Proof.
  intros Ht Hk. rewrite abs_set_thread, Hk, list_insert_id; [done|]. by apply abs_thread.
Qed.

(** Other threads read the same pairs before and after. *)
Lemma abs_ctl_data d d' cr k :
  (∀ i s, reads k i → d !! i = Some s →
     ∃ s', d' !! i = Some s' ∧ ∀ b kv, bucket_pair b s ⇓ kv → bucket_pair b s' ⇓ kv) →
  ctl_ok d cr k → abs_ctl d' k = abs_ctl d k.
Proof.
  intros Hd. destruct k as [| | | | | |i b next]; try done.
  intros (kv & (s & Hs & Hb) & _). destruct (Hd i s eq_refl Hs) as (s' & Hs' & Hkeep).
  cbn. rewrite Hs, Hs'. cbn. by rewrite Hb, (Hkeep _ _ Hb).
Qed.
End inv.
