(* ===== verification/ThreadSteps.v ===== *)
(** * ThreadSteps: every step of the fine machine

    A step of a thread keeps the invariant and is a step, or no step, of the
    atomic machine; a thread never reaches undefined behaviour or a panic. *)

From stdpp Require Import base gmap list.
From S2P Require Import Prelude Machine Lock LockMachine LockInv RawTable Util Shard ShardOps ShardModel ShardSim.
From S2P Require Import Evict Safety Exact ShardSpec TryResult Cache Threads ThreadLocks CacheSpec ThreadInv.

Open Scope Z_scope.

Section steps.
Context {K V : Type} `{Countable K} `{!BuildHasher K} `{!Target}.
Context `{!RawTable (K * CacheEntry V)} `{!RawTableSpec (K * CacheEntry V)}.
Context {J R : Type} (plan_of : J → outcome (plan K V R)).
Context (c0 : NeoCache K V) (bound : nat → nat) (credit_of : J → nat → nat).
Implicit Types (t u i : nat) (p : plan K V R) (s : ShardData K V) (σ : config K V J R) (k : ctl K V R).
Implicit Types (cr : nat → nat) (d : list (ShardData K V)) (crs : list (nat → nat)).

#[local] Abbreviation cinv := (cinv c0 bound credit_of).
#[local] Abbreviation ctl_ok := (ctl_ok c0 bound).
#[local] Abbreviation psafe := (psafe c0 bound).
#[local] Abbreviation inv_at := (inv_at c0).
#[local] Abbreviation credits := (credits credit_of).
#[local] Abbreviation todo_credit := (todo_credit credit_of).
#[local] Abbreviation matches := (matches plan_of).

(** What is assumed of the bound and of the jobs. *)
Context (Hbound : ∀ i s, ¬ unbounded c0 → inv_at i s → (size (contents s) ≤ bound i)%nat).
Context (Hjobs : ∀ j, ∃ p, plan_of j ⇓ p ∧ psafe (credit_of j) None p).

(** ** Credits *)

Lemma credits_lookup crs (ths : list (list J * ctl K V R)) t cr th i :
  crs !! t = Some cr → ths !! t = Some th →
  (cr i + todo_credit th.1 i ≤ credits crs ths i)%nat.
Proof.
  revert ths t. induction crs as [|cr0 crs IH]; intros [|th0 ths] [|t]; try done; cbn.
  - intros [= ->] [= ->]. unfold ThreadInv.credits. cbn. lia.
  - intros Hc Ht. pose proof (IH ths t Hc Ht). unfold ThreadInv.credits in *. cbn. lia.
Qed.

Lemma credits_insert crs (ths : list (list J * ctl K V R)) t cr th cr' th' i :
  crs !! t = Some cr → ths !! t = Some th →
  (credits (<[t := cr']> crs) (<[t := th']> ths) i + (cr i + todo_credit th.1 i) =
   credits crs ths i + (cr' i + todo_credit th'.1 i))%nat.
Proof.
  revert ths t. induction crs as [|cr0 crs IH]; intros [|th0 ths] [|t]; try done.
  - intros [= ->] [= ->]. unfold ThreadInv.credits. cbn. lia.
  - intros Hc Ht. pose proof (IH ths t Hc Ht) as Hi.
    change (credits (cr0 :: crs) (th0 :: ths) i)
      with (cr0 i + todo_credit th0.1 i + credits crs ths i)%nat.
    change (credits (<[S t := cr']> (cr0 :: crs)) (<[S t := th']> (th0 :: ths)) i)
      with (cr0 i + todo_credit th0.1 i + credits (<[t := cr']> crs) (<[t := th']> ths) i)%nat. lia.
Qed.

(** ** Updates *)

(** Thread [t] moves to [k'] with the locks [ls] and the shards [d]. *)
Lemma cinv_update crs σ t todo k cr todo' k' cr' ls d :
  cinv crs σ → threads σ !! t = Some (todo, k) → crs !! t = Some cr →
  let σ' := mkConfig ls d (<[t := (todo', k')]> (threads σ)) in
  length ls = length (locks σ) → length d = length (data σ) →
  (∀ i l, ls !! i = Some l → state_inv (Z.of_nat (length (threads σ))) l) →
  (∀ i q, pc_at i t σ' = Some q → role_ok (role_of k' i) q = true) →
  (∀ u i q, u ≠ t → pc_at i u σ' = Some q → ∃ q0, pc_at i u σ = Some q0 ∧ woken q0 q) →
  (∀ i s, d !! i = Some s → inv_at i s) →
  (∀ u todo k i s, u ≠ t → threads σ !! u = Some (todo, k) → reads k i → data σ !! i = Some s →
     ∃ s', d !! i = Some s' ∧ ∀ b kv, bucket_pair b s ⇓ kv → bucket_pair b s' ⇓ kv) →
  ctl_ok d cr' k' →
  (∀ i s', unbounded c0 → d !! i = Some s' → ∃ s, data σ !! i = Some s ∧
     (size (contents s') + cr' i + todo_credit todo' i ≤ size (contents s) + cr i + todo_credit todo i)%nat) →
  cinv (<[t := cr']> crs) σ'.
Proof.
  intros [Hl Hs Hlock Hrole Hdata Hctl Hcred] Ht Hcr σ' Hls Hd Hlock' Hme Hothers Hdata' Hkeep Hk' Hcred'.
  subst σ'. constructor; cbn [locks data threads].
  - congruence.
  - congruence.
  - rewrite length_insert. apply Hlock'.
  - intros u todo1 k1 i q [(<- & [= <- <-] & _)|[Hne Hu]]%list_lookup_insert_Some Hq; [by apply Hme|].
    destruct (Hothers u i q) as (q0 & Hq0 & Hw); [done..|].
    eapply woken_role; [exact Hw|]. by eapply Hrole.
  - done.
  - apply Forall2_same_length_lookup_2; [rewrite !length_insert; by eapply Forall2_length|].
    intros u cru [todo1 k1] Hu Hu'. destruct (decide (t = u)) as [<-|Hne].
    { rewrite list_lookup_insert_eq in Hu by by eapply lookup_lt_Some.
      rewrite list_lookup_insert_eq in Hu' by by eapply lookup_lt_Some. by simplify_eq/=. }
    rewrite list_lookup_insert_ne in Hu by done. rewrite list_lookup_insert_ne in Hu' by done.
    cbn. eapply ctl_ok_data; [|by apply (Forall2_lookup_lr _ _ _ _ _ _ Hctl Hu Hu')].
    intros i s Hr Hs0. by eapply Hkeep.
  - intros i s' Hub Hs'. destruct (Hcred' i s' Hub Hs') as (s & Hs0 & Hle).
    pose proof (credits_insert crs (threads σ) t cr _ cr' (todo', k') i Hcr Ht) as Hins.
    pose proof (credits_lookup crs (threads σ) t cr _ i Hcr Ht).
    pose proof (Hcred i s Hub Hs0). cbn [fst] in *. lia.
Qed.
(** A step that is impossible now, or returns as it should. *)
Definition returns σ (o : outcome (config K V J R * option (tevent J R))) : Prop :=
  ∃ σ' e crs', o ⇓ (σ', e) ∧ cinv crs' σ' ∧ matches σ e σ'.

Definition good σ o : Prop := o = Blocked ∨ returns σ o.

(** ** One thread *)

Section thread.
Context crs σ t todo k cr (Hinv : cinv crs σ) (Ht : threads σ !! t = Some (todo, k)) (Hcr : crs !! t = Some cr).

Lemma my_ctl : ctl_ok (data σ) cr k.
Proof. exact (Forall2_lookup_lr _ _ _ _ _ _ (ci_ctl _ _ _ _ _ Hinv) Hcr Ht). Qed.

Lemma my_lock i : (i < length (shards c0))%nat → ∃ l q, locks σ !! i = Some l ∧ pcs l !! t = Some q.
Proof.
  intros Hi. rewrite <-(ci_locks _ _ _ _ _ Hinv) in Hi. destruct (lookup_lt_is_Some_2 _ _ Hi) as [l Hl].
  destruct (ci_lock _ _ _ _ _ Hinv i l Hl) as (o & wp & rp & _ & Hli).
  destruct (li_threads _ _ _ _ _ Hli) as [Hlen _]. apply lookup_lt_Some in Ht.
  destruct (lookup_lt_is_Some_2 (pcs l) t) as [q Hq]; [lia|]. by exists l, q.
Qed.

Lemma my_pc i : (i < length (shards c0))%nat → ∃ q, pc_at i t σ = Some q ∧ role_ok (role_of k i) q = true.
Proof.
  intros (l & q & Hl & Hq)%my_lock. exists q. assert (Hpc : pc_at i t σ = Some q) by (unfold pc_at; by rewrite Hl).
  split; [done|]. by eapply ci_role.
Qed.

Lemma my_shard i : (i < length (shards c0))%nat → ∃ s, data σ !! i = Some s.
Proof. intros Hi. rewrite <-(ci_shards _ _ _ _ _ Hinv) in Hi. by apply lookup_lt_is_Some_2. Qed.

Lemma fits_now i s : data σ !! i = Some s → fits c0 bound cr i s.
Proof.
  intros Hs. pose proof (ci_data _ _ _ _ _ Hinv i s Hs) as Hi.
  pose proof (credits_lookup crs (threads σ) t cr _ i Hcr Ht) as Hle.
  assert (Hu : unbounded c0 → (size (contents s) + cr i ≤ bound i)%nat).
  { intros Hu. pose proof (ci_credit _ _ _ _ _ Hinv i s Hu Hs). cbn in *. lia. }
  constructor; [done| |done]. destruct (decide (cache_capacity c0 = 0)) as [Hz|Hz].
  - specialize (Hu Hz). lia.
  - by apply Hbound.
Qed.

(** A move that touches neither locks nor shards. *)
Lemma move_thread todo' k' cr' :
  (∀ i q, pc_at i t σ = Some q → role_ok (role_of k i) q = true → role_ok (role_of k' i) q = true) →
  ctl_ok (data σ) cr' k' →
  (∀ i, (cr' i + todo_credit todo' i ≤ cr i + todo_credit todo i)%nat) →
  cinv (<[t := cr']> crs) (set_thread t todo' k' σ).
Proof.
  intros Hrole Hk' Hcred. apply (cinv_update crs σ t todo k cr); try done.
  - apply Hinv.
  - intros i q Hq. apply Hrole; [done|]. by eapply ci_role.
  - intros u i q Hne Hq. exists q. by split; [|left].
  - apply Hinv.
  - intros u todo1 k1 i s _ _ _ Hs. by exists s.
  - intros i s _ Hs. exists s. split; [done|]. specialize (Hcred i). lia.
Qed.

(** What a lock step does to the counter of its thread. *)
Definition moved (ch : choice) (q q' : pc) : Prop :=
  match q with
  | WakeS => q' = Idle
  | WakeX => q' = Idle
  | DowngradeWake => q' = HoldS
  | _ => ∃ w w', tstep ch w q ⇓ (w', q')
  end.

Lemma move_lock i ch k' :
  (i < length (shards c0))%nat →
  (∀ q q', pc_at i t σ = Some q → role_ok (role_of k i) q = true → moved ch q q' →
     role_ok (role_of k' i) q' = true) →
  (∀ j q, j ≠ i → role_ok (role_of k j) q = true → role_ok (role_of k' j) q = true) →
  ctl_ok (data σ) cr k' →
  lock_step i t ch σ = Blocked ∨
  ∃ σ1, lock_step i t ch σ ⇓ σ1 ∧ cinv crs (set_thread t todo k' σ1) ∧
    data σ1 = data σ ∧ threads σ1 = threads σ.
Proof.
  intros Hi Hrole Hother Hk'. destruct (my_lock i Hi) as (l & q & Hl & Hq). unfold lock_step. rewrite Hl.
  cbn [deref mbind outcome_bind]. pose proof (ci_lock _ _ _ _ _ Hinv i l Hl) as Hli.
  destruct (step_defined _ t ch l Hli) as [Hb|[l' Hst]]; [left; by rewrite Hb|right]. rewrite Hst. cbn.
  eexists. split; [done|]. split; [|done].
  destruct (step_local t ch l l' Hst) as (Hlen & (q0 & q' & Hq0 & Hq' & Hmv) & Hwake).
  assert (q0 = q) as -> by congruence.
  assert (Hpc : ∀ u j, j ≠ i → pc_at j u (set_lock i l' σ) = pc_at j u σ).
  { intros u j Hne. unfold pc_at. cbn. by rewrite list_lookup_insert_ne. }
  assert (Hpci : ∀ u, pc_at i u (set_lock i l' σ) = pcs l' !! u).
  { intros u. unfold pc_at. cbn. rewrite list_lookup_insert_eq by by eapply lookup_lt_Some. done. }
  assert (Hpcold : ∀ u, pc_at i u σ = pcs l !! u) by (intros u; unfold pc_at; by rewrite Hl).
  rewrite <-(list_insert_id crs t cr Hcr). apply (cinv_update crs σ t todo k cr); try done; cbn [locks data set_lock].
  - by rewrite length_insert.
  - intros j lj [(-> & <- & _)|[_ Hj]]%list_lookup_insert_Some; [by eapply step_inv|by eapply ci_lock].
  - intros j qj Hqj. change (pc_at j t (set_lock i l' σ) = Some qj) in Hqj. destruct (decide (j = i)) as [->|Hne].
    + rewrite Hpci in Hqj. assert (qj = q') as -> by congruence. rewrite <-Hpcold in Hq.
      eapply Hrole; [done|by eapply ci_role|]. unfold moved. destruct q; eauto.
    + rewrite Hpc in Hqj by done. apply Hother; [done|]. by eapply ci_role.
  - intros u j qj Hne Hqj. change (pc_at j u (set_lock i l' σ) = Some qj) in Hqj.
    destruct (decide (j = i)) as [->|Hnei].
    + rewrite Hpci in Hqj. rewrite Hpcold.
      destruct (lookup_lt_is_Some_2 (pcs l) u) as [qu Hqu]; [rewrite <-Hlen; by eapply lookup_lt_Some|].
      destruct (Hwake u qu Hne Hqu) as (q2 & Hq2 & Hw). assert (q2 = qj) as -> by congruence. by exists qu.
    + rewrite Hpc in Hqj by done. exists qj. by split; [|left].
  - apply Hinv.
  - intros u todo1 k1 j s _ _ _ Hs. by exists s.
  - intros j s _ Hs. by exists s.
Qed.

(** A move that changes a shard: under the write lock, or so that every bucket
    reads as before. *)
Lemma others_stable i s s' :
  data σ !! i = Some s →
  pc_at i t σ = Some HoldX ∨ (∀ b kv, bucket_pair b s ⇓ kv → bucket_pair b s' ⇓ kv) →
  ∀ u todo k j s0, u ≠ t → threads σ !! u = Some (todo, k) → reads k j → data σ !! j = Some s0 →
    ∃ s1, <[i := s']> (data σ) !! j = Some s1 ∧ ∀ b kv, bucket_pair b s0 ⇓ kv → bucket_pair b s1 ⇓ kv.
Proof.
  intros Hs Hwhy u todo1 k1 j s0 Hne Hu Hr Hs0. destruct (decide (j = i)) as [->|Hj].
  2:{ exists s0. by rewrite list_lookup_insert_ne. }
  assert (s0 = s) as -> by congruence. exists s'. rewrite list_lookup_insert_eq by by eapply lookup_lt_Some.
  split; [done|]. destruct Hwhy as [Hx|Hkeep]; [exfalso|done].
  destruct (locks σ !! i) as [l|] eqn:Hl; unfold pc_at in Hx; rewrite Hl in Hx; [|done]. cbn in Hx.
  pose proof (ci_lock _ _ _ _ _ Hinv i l Hl) as Hli.
  assert (Hlen : length (pcs l) = length (threads σ)).
  { destruct Hli as (o & wp & rp & _ & Hi). destruct (li_threads _ _ _ _ _ Hi). lia. }
  destruct (lookup_lt_is_Some_2 (pcs l) u) as [q Hq]; [rewrite Hlen; by eapply lookup_lt_Some|].
  assert (Hrole : role_ok (role_of k1 i) q = true).
  { eapply ci_role; [exact Hinv|done|]. unfold pc_at. by rewrite Hl. }
  assert (Hhs : q = HoldS).
  { destruct k1 as [| | | | |? j1|j1]; cbn in Hr; try done; subst j1; cbn in Hrole;
      rewrite decide_True in Hrole by done; by destruct q. }
  subst q. apply Hne. symmetry. by apply (holders_exclude _ _ _ _ _ _ Hli Hx Hq).
Qed.

Lemma move_data i s s' k' cr' :
  data σ !! i = Some s → inv_at i s' →
  pc_at i t σ = Some HoldX ∨ (∀ b kv, bucket_pair b s ⇓ kv → bucket_pair b s' ⇓ kv) →
  (∀ j q, role_ok (role_of k j) q = true → role_ok (role_of k' j) q = true) →
  ctl_ok (<[i := s']> (data σ)) cr' k' →
  (∀ j, (cr' j ≤ cr j)%nat) →
  (unbounded c0 → (size (contents s') + cr' i ≤ size (contents s) + cr i)%nat) →
  cinv (<[t := cr']> crs) (set_thread t todo k' (set_data i s' σ)) ∧
  abs (set_thread t todo k' (set_data i s' σ)) =
    mkAConfig (<[i := s']> (data σ))
      (<[t := (todo, abs_ctl (<[i := s']> (data σ)) k')]> (a_threads (abs σ))).
Proof.
  intros Hs Hs' Hwhy Hrole Hk' Hcr' Hsz. pose proof (others_stable i s s' Hs Hwhy) as Hstable. split.
  - apply (cinv_update crs σ t todo k cr); try done; cbn [locks data set_data].
    + by rewrite length_insert.
    + apply Hinv.
    + intros j q Hq. apply Hrole. by eapply ci_role.
    + intros u j q Hne Hq. exists q. by split; [|left].
    + intros j sj [(-> & <- & _)|[_ Hj]]%list_lookup_insert_Some; [done|by eapply ci_data].
    + intros j sj Hu [(-> & <- & _)|[_ Hj]]%list_lookup_insert_Some.
      * exists s. split; [done|]. specialize (Hsz Hu). lia.
      * exists sj. split; [done|]. specialize (Hcr' j). lia.
  - unfold abs, set_thread, set_data. cbn. f_equal. apply list_eq. intros u. rewrite list_lookup_fmap.
    destruct (decide (t = u)) as [<-|Hne].
    + assert (t < length (threads σ))%nat by by eapply lookup_lt_Some.
      rewrite !list_lookup_insert_eq by (rewrite ?length_fmap; done). done.
    + rewrite !list_lookup_insert_ne, list_lookup_fmap by done.
      destruct (threads σ !! u) as [[todo1 k1]|] eqn:Hu; [|done]. cbn. do 2 f_equal.
      destruct (Forall2_lookup_r _ _ _ _ _ (ci_ctl _ _ _ _ _ Hinv) Hu) as (cru & _ & Hku).
      apply (abs_ctl_data c0 bound _ _ cru); [|done].
      intros j sj Hr Hj. by eapply Hstable; [by apply not_eq_sym|..].
Qed.

(** Staying where it is. *)
Lemma set_thread_id σ1 : threads σ1 = threads σ → set_thread t todo k σ1 = σ1.
Proof.
  intros He. unfold set_thread. rewrite list_insert_id; [by destruct σ1|]. by rewrite He.
Qed.

Lemma abs_same σ1 : data σ1 = data σ → threads σ1 = threads σ → abs σ1 = abs σ.
Proof. unfold abs. by intros -> ->. Qed.

(** A lock step inside a lock function. *)
Lemma lock_turn i ch :
  (i < length (shards c0))%nat →
  (∀ q q', pc_at i t σ = Some q → role_ok (role_of k i) q = true → moved ch q q' →
     role_ok (role_of k i) q' = true) →
  good σ (σ ← lock_step i t ch σ; Ret (σ, None)).
Proof.
  intros Hi Hrole. destruct (move_lock i ch k Hi Hrole) as [->|(σ1 & -> & Hinv1 & Hd & Hth)];
    [done|apply my_ctl|by left|right].
  rewrite (set_thread_id σ1 Hth) in Hinv1. eexists _, _, _. split_and!; [done|done|]. by apply abs_same.
Qed.
End thread.

(** ** The places of a thread *)

Section places.
Context crs σ t (todo : list J) cr (Hinv : cinv crs σ) (Hcr : crs !! t = Some cr).

Lemma rest_returns ch j todo' : threads σ !! t = Some (j :: todo', Rest) → returns σ (cstep plan_of t ch σ).
Proof.
  intros Ht. unfold cstep. rewrite Ht. destruct (Hjobs j) as (p & Hp & Hsafe). rewrite Hp. cbn. eexists _, _, _. split; [done|]. split.
  - apply (move_thread _ _ _ _ _ _ Hinv Ht Hcr) with (cr' := credit_of j); [done|by split|].
    intros i. unfold todo_credit. cbn. lia.
  - cbn. rewrite abs_set_thread. apply astep_call; [|done]. by apply abs_thread in Ht.
Qed.

Lemma start_acquires p m q q' :
  idle q = true → moved (start_lock p m) q q' →
  acquiring m (match if_busy p with Some _ => true | None => false end) q' = true.
Proof.
  intros Hq. destruct q; try done. unfold moved, start_lock. intros (w & w' & Hs).
  destruct m, (if_busy p); cbn in Hs; by injection Hs as _ <-.
Qed.

Lemma begin_good ch kept p : threads σ !! t = Some (todo, Begin kept p) → good σ (cstep plan_of t ch σ).
Proof.
  intros Ht. pose proof (my_ctl _ _ _ _ _ _ Hinv Ht Hcr) as [Hsafe Hkept].
  unfold cstep. rewrite Ht. destruct (head p) as [[m i]|] eqn:Hh.
  - assert (Hgoal : good σ (σ0 ← lock_step i t (start_lock p m) σ;
      Ret (set_thread t todo (Enter kept p) σ0, None))); [|destruct p; [done|exact Hgoal..]].
    destruct (psafe_head _ _ _ _ _ _ _ Hsafe Hh) as [Hi Habove].
    destruct (move_lock _ _ _ _ _ _ Hinv Ht Hcr i (start_lock p m) (Enter kept p) Hi)
      as [->|(σ1 & -> & Hinv1 & Hd & Hth)]; [| | |by left|right].
    + intros q q' _ Hrole Hmv. cbn in *. rewrite Hh, decide_True by done.
      assert (Hout : kept_role kept i = Out).
      { destruct kept as [[m' j]|]; [|done]. cbn in *. rewrite decide_False; [done|lia]. }
      rewrite Hout in Hrole. cbn. by rewrite (start_acquires p m q q').
    + intros j q Hne Hrole. cbn in *. by rewrite Hh, decide_False.
    + cbn. split_and!; [done|by rewrite Hh|done].
    + cbn. eexists _, _, _. split_and!; [done|done|]. cbn. rewrite <-(abs_same σ σ1 Hd Hth).
      eapply abs_stutter; [by rewrite Hth|done].
  - destruct p as [r| | |]; try done. destruct kept as [[m i]|]; right; eexists _, _, _; (split; [done|]); split.
    + apply (move_thread _ _ _ _ _ _ Hinv Ht Hcr) with (cr' := cr); [|by split; [constructor|split]|done].
      intros j q _. cbn. destruct (decide _); [|done]. cbn. by intros ->.
    + cbn. by eapply abs_stutter.
    + by apply (move_thread _ _ _ _ _ _ Hinv Ht Hcr) with (cr' := cr).
    + cbn. rewrite abs_set_thread. apply (astep_return _ _ _ t r todo). by apply abs_thread in Ht.
Qed.

(** The counter of a thread that has the lock, or is out of it. *)
Lemma taking_held m try q : (q = HoldX ∨ q = HoldS) → role_ok (Taking m try) q = true → holding m q = true.
Proof. intros [-> | ->]; destruct m, try; done. Qed.

Lemma taking_turn m try ch q q' :
  q ≠ Idle → q ≠ HoldX → q ≠ HoldS → role_ok (Taking m try) q = true → moved ch q q' →
  role_ok (Taking m try) q' = true.
Proof.
  intros Hni Hnx Hns Hrole Hmv. assert (Ha : acquiring m try q = true).
  { unfold role_ok in Hrole. apply orb_true_iff in Hrole as [[Ha|Hx]%orb_true_iff|Hx]; [done|exfalso..].
    - by destruct m, q.
    - apply andb_true_iff in Hx as [_ Hx]. by destruct q. }
  assert (∃ w w', tstep ch w q ⇓ (w', q')) as (w & w' & Hs).
  { destruct q; try (by destruct m, try); exact Hmv. }
  by eapply acquiring_step.
Qed.

Lemma dropping_turn m ch q q' :
  q ≠ Idle → q ≠ HoldX → q ≠ HoldS → role_ok (Dropping m) q = true → moved ch q q' →
  role_ok (Dropping m) q' = true.
Proof.
  intros Hni Hnx Hns Hrole Hmv. assert (Ha : releasing m q = true).
  { unfold role_ok in Hrole. apply orb_true_iff in Hrole as [[Hx|Ha]%orb_true_iff|Hx]; [exfalso|done|exfalso].
    - by destruct m, q.
    - by destruct q. }
  destruct q; try (by destruct m); try (cbn in Hmv; subst q'; by destruct m);
    destruct Hmv as (w & w' & Hs); by eapply releasing_step.
Qed.

Lemma enter_good ch kept p : threads σ !! t = Some (todo, Enter kept p) → good σ (cstep plan_of t ch σ).
Proof.
  intros Ht. pose proof (my_ctl _ _ _ _ _ _ Hinv Ht Hcr) as (Hsafe & [[m i] Hh] & Hkept).
  unfold cstep. rewrite Ht. unfold enter_step. rewrite Hh. cbn [deref mbind outcome_bind].
  destruct (psafe_head _ _ _ _ _ _ _ Hsafe Hh) as [Hi Habove].
  destruct (my_pc _ _ _ _ _ Hinv Ht i Hi) as (q & Hq & Hrole). rewrite Hq.
  cbn in Hrole. rewrite Hh, decide_True in Hrole by done.
  assert (Hheld : q = HoldX ∨ q = HoldS →
    good σ (Ret (set_thread t todo (match kept with Some (m, j) => Leave m j true p | None => Body p end) σ, None))).
  { intros Hx. pose proof (taking_held _ _ _ Hx Hrole) as Hhold. right. eexists _, _, _. split; [done|]. split.
    - apply (move_thread _ _ _ _ _ _ Hinv Ht Hcr) with (cr' := cr); [| |done].
      + intros j q0 Hq0. destruct kept as [[m' j']|]; cbn; rewrite Hh; cbn; intros Hr.
        * destruct (decide (j = j')) as [->|Hne]; [|destruct (decide (j = i)) as [->|]; [|done]].
          -- cbn in *. rewrite decide_False in Hr by lia. cbn in *. by rewrite Hr.
          -- by assert (q0 = q) as -> by congruence.
        * destruct (decide (j = i)) as [->|]; [|done]. by assert (q0 = q) as -> by congruence.
      + destruct kept as [[m' j']|]; cbn; rewrite Hh; [by split_and!|by split].
    - cbn. eapply abs_stutter; [done|]. by destruct kept as [[]|]. }
  assert (Hturn : q ≠ Idle → q ≠ HoldX → q ≠ HoldS → good σ (σ ← lock_step i t ch σ; Ret (σ, None))).
  { intros Hni Hnx Hns. apply (lock_turn _ _ _ _ _ _ Hinv Ht Hcr i ch Hi). intros q0 q' Hq0 _ Hmv.
    assert (q0 = q) as -> by congruence. cbn. rewrite Hh, decide_True by done. by eapply taking_turn. }
  destruct q; try (apply Hturn; done); [|apply Hheld; by left|apply Hheld; by right].
  destruct (if_busy p) as [p'|] eqn:Hb; [|by destruct m]. right. eexists _, _, _. split; [done|]. split.
  - apply (move_thread _ _ _ _ _ _ Hinv Ht Hcr) with (cr' := cr); [|split; [by eapply psafe_busy|done]|done].
    intros j q0 Hq0. cbn. rewrite Hh. destruct (decide (j = i)) as [->|]; [|done].
    assert (q0 = Idle) as -> by congruence. intros _. destruct kept as [[m' j']|]; [|done]. cbn in *.
    by rewrite decide_False by lia.
  - cbn. rewrite abs_set_thread. apply (astep_section _ _ _ t true todo p (data σ) p').
    + by apply abs_thread in Ht.
    + destruct p; try done; cbn in Hb; by subst.
Qed.

Lemma leave_good ch m i entered p : threads σ !! t = Some (todo, Leave m i entered p) → good σ (cstep plan_of t ch σ).
Proof.
  intros Ht. pose proof (my_ctl _ _ _ _ _ _ Hinv Ht Hcr) as (Hsafe & Hh & Hi).
  unfold cstep. rewrite Ht. unfold leave_step.
  destruct (my_pc _ _ _ _ _ Hinv Ht i Hi) as (q & Hq & Hrole). rewrite Hq.
  cbn in Hrole. rewrite decide_True in Hrole by done.
  assert (Hturn : ∀ ch, (∀ q', moved ch q q' → role_ok (Dropping m) q' = true) →
    good σ (σ ← lock_step i t ch σ; Ret (σ, None))).
  { intros ch' Hmv. apply (lock_turn _ _ _ _ _ _ Hinv Ht Hcr i ch' Hi). intros q0 q' Hq0 _ Hm.
    assert (q0 = q) as -> by congruence. cbn. rewrite decide_True by done. by apply Hmv. }
  assert (Hheld : q = HoldX ∨ q = HoldS → good σ (σ ← lock_step i t StartUnlock σ; Ret (σ, None))).
  { intros Hx. apply Hturn. intros q' Hm. destruct Hx as [-> | ->]; destruct Hm as (w & w' & [= _ <-]); by destruct m. }
  destruct q; try (by apply Hturn; intros q'; apply dropping_turn); [|apply Hheld; by left|apply Hheld; by right].
  right. eexists _, _, _. split; [done|]. split.
  - apply (move_thread _ _ _ _ _ _ Hinv Ht Hcr) with (cr' := cr); [| |done].
    + intros j q0 Hq0. cbn. destruct (decide (j = i)) as [->|Hne].
      * assert (q0 = Idle) as -> by congruence. intros _. destruct entered; [|done]. cbn.
        destruct (Hh eq_refl) as [[m' j'] Hh']. rewrite Hh'. cbn.
        destruct (psafe_head _ _ _ _ _ _ _ Hsafe Hh') as [_ Hlt]. by rewrite decide_False by lia.
      * by destruct entered.
    + destruct entered; cbn; [|by split]. split; [by eapply psafe_none|by apply Hh].
  - cbn. eapply abs_stutter; [done|]. by destruct entered.
Qed.

(** The lock of a section is held while the shard is accessed. *)
Lemma held_pc k m i q :
  threads σ !! t = Some (todo, k) → role_of k i = Has m → pc_at i t σ = Some q → holding m q = true.
Proof. intros Ht Hr Hq. pose proof (ci_role _ _ _ _ _ Hinv _ _ _ i q Ht Hq) as Hok. by rewrite Hr in Hok. Qed.

Lemma sequel_role p m (hold : bool) i p' j q :
  head p = Some (m, i) →
  role_ok (role_of (Body p) j) q = true → role_ok (role_of (sequel m hold i p') j) q = true.
Proof.
  intros Hh. cbn. rewrite Hh. unfold sequel. destruct hold; cbn; [done|].
  destruct (decide (j = i)); [|done]. cbn. by intros ->.
Qed.

Lemma sequel_ok d m (hold : bool) i p' cr' :
  psafe cr' (if hold then Some i else None) p' → (i < length (shards c0))%nat →
  ctl_ok d cr' (sequel m hold i p').
Proof. intros Hp Hi. unfold sequel. by destruct hold; cbn; split_and!. Qed.

Lemma abs_sequel d m (hold : bool) i p' : abs_ctl d (sequel m hold i p') = Some p'.
Proof. by destruct hold. Qed.

Lemma body_returns ch p : threads σ !! t = Some (todo, Body p) → returns σ (cstep plan_of t ch σ).
Proof.
  intros Ht. pose proof (my_ctl _ _ _ _ _ _ Hinv Ht Hcr) as (Hsafe & [[m i] Hh]).
  unfold cstep. rewrite Ht. pose proof (abs_thread _ _ _ _ Ht) as Habs. cbn [abs_ctl] in Habs.
  inversion Hsafe as [|cr1 kept busy hold j body [Hi _] _ Hbody|cr1 kept hold j body [Hi _] Hbody
    |cr1 kept busy j key next [Hi _] _ Hnext]; subst; [done|..]; injection Hh as <- <-;
    destruct (my_shard _ _ Hinv _ Hi) as [s Hs]; cbn [body_step]; rewrite Hs; cbn [deref mbind outcome_bind];
    pose proof (fits_now _ _ _ _ _ _ Hinv Ht Hcr _ _ Hs) as Hfits.
  - destruct (Hbody s Hfits) as (s' & p' & cr' & Hb & Hinv' & Hcr' & Hsz & Hp'). rewrite Hb. cbn.
    destruct (my_pc _ _ _ _ _ Hinv Ht j Hi) as (q & Hq & _).
    assert (Hx : holding Exclusive q = true) by (eapply held_pc; [done| |done]; cbn; by rewrite decide_True).
    destruct (move_data _ _ _ _ _ _ Hinv Ht Hcr j s s' (sequel Exclusive hold j p') cr' Hs Hinv') as [Hnew Hab].
    + left. rewrite Hq. by destruct q.
    + intros i q0. by apply sequel_role.
    + by apply sequel_ok.
    + done.
    + done.
    + eexists _, _, _. split_and!; [done|done|]. cbn. rewrite Hab, abs_sequel.
      eapply astep_section; [done|]. cbn. rewrite Hs. cbn. by rewrite Hb.
  - destruct (Hbody s Hfits) as (p' & Hb & Hp'). rewrite Hb. cbn. eexists _, _, _. split; [done|]. split.
    + apply (move_thread _ _ _ _ _ _ Hinv Ht Hcr) with (cr' := cr); [|by apply sequel_ok|done].
      intros i q0 _. by apply sequel_role.
    + cbn. rewrite abs_set_thread, abs_sequel. eapply astep_section; [done|]. cbn. rewrite Hs. cbn. by rewrite Hb.
  - pose proof (li_shard _ _ _ (fits_inv _ _ _ _ _ Hfits)) as Hok. cbn in Hok.
    pose proof (find_bucket key s Hok) as Hf. destruct (contents s !! key) as [v|].
    + destruct Hf as (b & e & Hf & _ & _ & Hb). rewrite Hf. eexists _, _, _. split; [done|]. split.
      * apply (move_thread _ _ _ _ _ _ Hinv Ht Hcr) with (cr' := cr); [done| |done].
        exists v. split_and!; [by exists s|apply (Hnext (Some v))|done].
      * cbn. by eapply abs_stutter.
    + rewrite Hf. eexists _, _, _. split; [done|]. split.
      * apply (move_thread _ _ _ _ _ _ Hinv Ht Hcr) with (cr' := cr); [|by split_and!; [apply (Hnext None)|..]|done].
        intros i q0 _. cbn. destruct (decide (i = j)); [|done]. cbn. by intros ->.
      * cbn. rewrite abs_set_thread. eapply astep_section; [done|]. cbn. rewrite Hs. cbn. unfold shard_get.
        rewrite Hf. cbn. by rewrite list_insert_id.
Qed.

(** The end of [fetch_update]: what the closure makes of the current value. *)
Lemma fetch_update_end ch prev cur o : fetch_update ch prev cur = inr o → bump_closure cur = o.
Proof.
  unfold fetch_update. destruct prev as [prev|].
  - destruct (cas_weak ch cur prev) eqn:Hc.
    + assert (cur = prev) as -> by (destruct ch; cbn in Hc; try done; by apply Z.eqb_eq). by intros [= ->].
    + destruct (bump_closure cur) eqn:Hb; by intros [= <-].
  - destruct (bump_closure cur) eqn:Hb; by intros [= <-].
Qed.

Lemma bump_returns ch busy i b prev key next :
  threads σ !! t = Some (todo, Bump busy i b prev key next) → returns σ (cstep plan_of t ch σ).
Proof.
  intros Ht. pose proof (my_ctl _ _ _ _ _ _ Hinv Ht Hcr) as (v & (s & Hs & Hb) & Hsafe & Hi).
  unfold cstep. rewrite Ht. unfold bump_step. rewrite Hs. cbn [deref mbind outcome_bind].
  pose proof (abs_thread _ _ _ _ Ht) as Habs. cbn [abs_ctl] in Habs.
  pose proof (ci_data _ _ _ _ _ Hinv i s Hs) as Hinvs. pose proof (li_shard _ _ _ Hinvs) as Hok. cbn in Hok.
  destruct (bump_at_ok b key v s Hok Hb) as (s' & Hbump & Hget & Hst & Hcont).
  pose proof (bump_at_pairs b b (key, v) s s' Hbump Hb) as Hb'.
  assert (Hsec : section false (Look busy i key next) (data σ) ⇓ (<[i := s']> (data σ), next (Some (key, v)))).
  { cbn. rewrite Hs. cbn. rewrite Hget. cbn. by rewrite Hb'. }
  unfold bump_at in Hbump. destruct (rt_as_ref (smap s) b) as [[k0 e]|] eqn:Href; [|done].
  cbn [deref mbind outcome_bind] in Hbump |- *.
  destruct (fetch_update ch prev (freq e)) as [prev'|o] eqn:Hfu.
  { eexists _, _, _. split; [done|]. split.
    - apply (move_thread _ _ _ _ _ _ Hinv Ht Hcr) with (cr' := cr); [done| |done].
      exists v. split_and!; [by exists s|done|done].
    - cbn. by eapply abs_stutter. }
  rewrite (fetch_update_end _ _ _ _ Hfu) in Hbump. destruct o as [f|].
  - apply bind_Ret in Hbump as (m & Hw & [= Hm]). rewrite Hw. cbn [mbind outcome_bind]. rewrite Hm.
    destruct (move_data _ _ _ _ _ _ Hinv Ht Hcr i s s' (Guard i b next) cr Hs) as [Hnew Hab].
    + eapply lock_inv_step_keep; [done|done|]. cbn. rewrite Hcont. intros k1 Hk1. done.
    + right. intros b0 kv0. apply (bump_at_pairs b). unfold bump_at. rewrite Href. cbn.
      rewrite (fetch_update_end _ _ _ _ Hfu), Hw. cbn. by rewrite Hm.
    + done.
    + exists (key, v). split_and!; [|done|done]. exists s'. split; [|done].
      apply list_lookup_insert_eq. by eapply lookup_lt_Some.
    + done.
    + intros _. by rewrite Hcont.
    + eexists _, _, _. split_and!; [done|done|]. cbn [ThreadInv.matches]. rewrite Hab.
      assert (Hg : abs_ctl (<[i := s']> (data σ)) (Guard i b next) = Some (next (Some (key, v)))).
      { cbn. rewrite list_lookup_insert_eq by by eapply lookup_lt_Some. cbn. by rewrite Hb'. }
      rewrite Hg. by eapply astep_section.
  - injection Hbump as <-. eexists _, _, _. split; [done|]. split.
    + apply (move_thread _ _ _ _ _ _ Hinv Ht Hcr) with (cr' := cr); [done| |done].
      exists (key, v). split_and!; [by exists s|done|done].
    + cbn [ThreadInv.matches]. rewrite abs_set_thread. cbn. rewrite Hs. cbn. rewrite Hb.
      rewrite list_insert_id in Hsec by done. by eapply astep_section.
Qed.

Lemma guard_returns ch i b next : threads σ !! t = Some (todo, Guard i b next) → returns σ (cstep plan_of t ch σ).
Proof.
  intros Ht. pose proof (my_ctl _ _ _ _ _ _ Hinv Ht Hcr) as (kv & (s & Hs & Hb) & Hsafe & Hi).
  unfold cstep. rewrite Ht, Hs. cbn. rewrite Hb. cbn. eexists _, _, _. split; [done|]. split.
  - apply (move_thread _ _ _ _ _ _ Hinv Ht Hcr) with (cr' := cr); [|by split_and!|done].
    intros j q0 _. cbn. destruct (decide (j = i)); [|done]. cbn. by intros ->.
  - cbn. eapply abs_stutter; [done|]. cbn. rewrite Hs. cbn. by rewrite Hb.
Qed.
End places.

(** A thread about to write a shard excludes the others. *)
Lemma accesses_role k i : accesses k i → ∃ m, role_of k i = Has m.
Proof.
  destruct k as [| | | |p| |]; cbn; try done.
  - destruct (head p) as [[m j]|]; [|done]. intros [= ->]. exists m. cbn. by rewrite decide_True.
  - intros ->. exists Shared. by rewrite decide_True.
  - intros ->. exists Shared. by rewrite decide_True.
Qed.

Lemma writes_role k i : writes k i → role_of k i = Has Exclusive.
Proof. destruct k as [| | | |[]| |]; cbn; try done. intros ->. by rewrite decide_True. Qed.

Lemma no_race crs σ t u i todo todo' k k' :
  cinv crs σ → threads σ !! t = Some (todo, k) → threads σ !! u = Some (todo', k') →
  writes k i → accesses k' i → t = u.
Proof.
  intros Hinv Ht Hu Hw%writes_role Ha. destruct (accesses_role _ _ Ha) as [m Hm].
  assert (Hi : (i < length (shards c0))%nat).
  { pose proof (ci_ctl _ _ _ _ _ Hinv) as Hall. destruct (Forall2_lookup_r _ _ _ _ _ Hall Hu) as (cr & _ & Hok).
    destruct k' as [| | | |p| |]; cbn in Ha, Hok; try done.
    - destruct Hok as [Hsafe [[m' j] Hh]]. rewrite Hh in Ha. injection Ha as ->. by apply (psafe_head _ _ _ _ _ _ _ Hsafe Hh).
    - destruct Hok as (v & _ & _ & Hi). by subst.
    - destruct Hok as (kv & _ & _ & Hi). by subst. }
  destruct (my_lock _ _ _ _ _ Hinv Ht i Hi) as (l & q & Hl & Hq).
  destruct (my_lock _ _ _ _ _ Hinv Hu i Hi) as (l' & q' & Hl' & Hq'). assert (l' = l) as -> by congruence.
  assert (Hpc : ∀ x y, pcs l !! x = Some y → pc_at i x σ = Some y) by (intros x y; unfold pc_at; by rewrite Hl).
  pose proof (ci_role _ _ _ _ _ Hinv _ _ _ i q Ht (Hpc _ _ Hq)) as Hx. rewrite Hw in Hx.
  pose proof (ci_role _ _ _ _ _ Hinv _ _ _ i q' Hu (Hpc _ _ Hq')) as Hs. rewrite Hm in Hs.
  apply (holders_exclude _ l t u q q' (ci_lock _ _ _ _ _ Hinv i l Hl) Hq Hq').
  - by destruct q.
  - by destruct m, q'.
Qed.

(** Every step is impossible now, or keeps the invariant and the atomic view. *)
Lemma cstep_good crs σ t ch : cinv crs σ → good σ (cstep plan_of t ch σ).
Proof.
  intros Hinv. destruct (threads σ !! t) as [[todo k]|] eqn:Ht; [|left; unfold cstep; by rewrite Ht].
  destruct (Forall2_lookup_r _ _ _ _ _ (ci_ctl _ _ _ _ _ Hinv) Ht) as (cr & Hcr & _).
  destruct k as [|kept p|kept p|m i entered p|p|busy i b prev key next|i b next].
  - destruct todo as [|j todo]; [left; unfold cstep; by rewrite Ht|right; by eapply rest_returns].
  - by eapply begin_good.
  - by eapply enter_good.
  - by eapply leave_good.
  - right. by eapply body_returns.
  - right. by eapply bump_returns.
  - right. by eapply guard_returns.
Qed.

(** Executions. *)
Lemma exec_good crs σ evs σ' :
  cinv crs σ → exec plan_of σ evs σ' →
  (∃ crs', cinv crs' σ') ∧ aexec plan_of (abs σ) evs (abs σ').
Proof.
  intros Hinv. induction 1 as [|evs σ1 t ch σ2 e Hex IH Hst].
  { split; [by exists crs|constructor]. }
  destruct IH as [[crs1 Hinv1] Ha1]. destruct (cstep_good crs1 σ1 t ch Hinv1) as [Hb|(σ3 & e3 & crs3 & Hr & Hinv3 & Hm)].
  { by rewrite Hb in Hst. }
  assert (σ3 = σ2 ∧ e3 = e) as [-> ->] by (split; congruence). split; [by exists crs3|].
  destruct e as [e|]; cbn [option_list]; cbn [ThreadInv.matches] in Hm.
  - by eapply aexec_snoc.
  - rewrite app_nil_r. by rewrite Hm.
Qed.
End steps.
