(* ===== verification/ThreadProgress.v ===== *)
(** * ThreadProgress: the threads never block each other for good

    A thread that cannot take a step has finished or is parked at a lock. The
    lock is then held by a thread that can take a step, or that keeps it while
    it is parked at a lock of a higher shard. *)

From stdpp Require Import base gmap list.
From S2P Require Import Prelude Machine Lock LockMachine LockInv RawTable Util Shard ShardOps ShardModel ShardSim.
From S2P Require Import Evict Safety Exact ShardSpec TryResult Cache Threads ThreadLocks CacheSpec ThreadInv ThreadSteps.

Open Scope Z_scope.

Section progress.
Context {K V : Type} `{Countable K} `{!BuildHasher K} `{!Target}.
Context `{!RawTable (K * CacheEntry V)} `{!RawTableSpec (K * CacheEntry V)}.
Context {J R : Type} (plan_of : J → outcome (plan K V R)).
Context (c0 : NeoCache K V) (bound : nat → nat) (credit_of : J → nat → nat).
Context (Hbound : ∀ i s, ¬ unbounded c0 → inv_at c0 i s → (size (contents s) ≤ bound i)%nat).
Context (Hjobs : ∀ j, ∃ p, plan_of j ⇓ p ∧ psafe c0 bound (credit_of j) None p).
Implicit Types (t i : nat) (p : plan K V R) (σ : config K V J R) (k : ctl K V R).

#[local] Abbreviation cinv := (cinv c0 bound credit_of).

Definition can_step σ t : Prop := ∃ ch r, cstep plan_of t ch σ ⇓ r.

(** Parked at the lock of shard [i]. *)
Definition parked_at σ t i : Prop :=
  ∃ todo kept p m q, threads σ !! t = Some (todo, Enter kept p) ∧ head p = Some (m, i) ∧
    pc_at i t σ = Some q ∧ parked q = true.

Lemma not_blocked crs σ t ch : cinv crs σ → cstep plan_of t ch σ ≠ Blocked → can_step σ t.
Proof.
  intros Hinv Hnb. destruct (cstep_good plan_of c0 bound credit_of Hbound Hjobs crs σ t ch Hinv)
    as [?|(σ' & e & crs' & Hr & _)]; [done|]. by exists ch, (σ', e).
Qed.

Lemma lock_step_ret σ i t ch l l' : locks σ !! i = Some l → step t ch l ⇓ l' → lock_step i t ch σ ⇓ set_lock i l' σ.
Proof. intros Hl Hs. unfold lock_step. rewrite Hl. cbn. by rewrite Hs. Qed.

(** A thread inside a lock function, not parked. *)
Lemma lock_enabled crs σ t todo k i l q :
  cinv crs σ → threads σ !! t = Some (todo, k) → locks σ !! i = Some l → pcs l !! t = Some q → parked q = false →
  ∃ ch σ', lock_step i t ch σ ⇓ σ'.
Proof.
  intros Hinv Ht Hl Hq Hp. pose proof (ci_lock _ _ _ _ _ Hinv i l Hl) as Hli.
  destruct (step_enabled _ t q l Hli Hq Hp) as (ch & l' & Hs). eexists ch, _. by eapply lock_step_ret.
Qed.

Lemma begin_steps crs σ t todo kept p :
  cinv crs σ → threads σ !! t = Some (todo, Begin kept p) → can_step σ t.
Proof.
  intros Hinv Ht. apply (not_blocked crs σ t Go Hinv). unfold cstep. rewrite Ht.
  destruct (Forall2_lookup_r _ _ _ _ _ (ci_ctl _ _ _ _ _ Hinv) Ht) as (cr & Hcr & Hsafe & Hkept).
  destruct (head p) as [[m i]|] eqn:Hh; [|destruct p; try done; by destruct kept as [[]|]].
  destruct (psafe_head _ _ _ _ _ _ _ Hsafe Hh) as [Hi Habove].
  destruct (my_lock c0 bound credit_of crs σ t todo _ Hinv Ht i Hi) as (l & q & Hl & Hq).
  assert (Hidle : q = Idle).
  { assert (Hr : role_ok (role_of (Begin kept p) i) q = true).
    { eapply ci_role; [exact Hinv|done|]. unfold pc_at. by rewrite Hl. }
    cbn in Hr. destruct kept as [[m' j]|]; cbn in Hr, Habove; [rewrite decide_False in Hr by lia|]; by destruct q. }
  subst q. assert (Hs : ∃ l', step t (start_lock p m) l ⇓ l').
  { unfold step. rewrite Hq. unfold start_lock. destruct m, (if_busy p); cbn; by eexists. }
  destruct Hs as [l' Hs]. destruct p; try done; cbn in Hh; injection Hh as <- <-; cbn [deref head mbind outcome_bind];
    by rewrite (lock_step_ret _ _ _ _ _ _ Hl Hs).
Qed.

Lemma enter_steps crs σ t todo kept p m i q :
  cinv crs σ → threads σ !! t = Some (todo, Enter kept p) → head p = Some (m, i) →
  pc_at i t σ = Some q → parked q = false → can_step σ t.
Proof.
  intros Hinv Ht Hh Hq Hp. destruct (locks σ !! i) as [l|] eqn:Hl; unfold pc_at in Hq; rewrite Hl in Hq; [|done].
  cbn in Hq. destruct (lock_enabled crs σ t todo _ i l q Hinv Ht Hl Hq Hp) as (ch & σ' & Hs).
  assert (Hpc : pc_at i t σ = Some q) by (unfold pc_at; by rewrite Hl).
  pose proof (ci_role _ _ _ _ _ Hinv _ _ _ i q Ht Hpc) as Hr. cbn in Hr. rewrite Hh, decide_True in Hr by done.
  apply (not_blocked crs σ t ch Hinv). unfold cstep. rewrite Ht. unfold enter_step. rewrite Hh.
  cbn [deref mbind outcome_bind]. rewrite Hpc.
  destruct q; try (by rewrite Hs); try done. destruct (if_busy p) as [p'|]; [done|]. by destruct m.
Qed.

Lemma leave_steps crs σ t todo m i entered p :
  cinv crs σ → threads σ !! t = Some (todo, Leave m i entered p) → can_step σ t.
Proof.
  intros Hinv Ht. destruct (Forall2_lookup_r _ _ _ _ _ (ci_ctl _ _ _ _ _ Hinv) Ht) as (cr & Hcr & _ & _ & Hi).
  destruct (my_lock c0 bound credit_of crs σ t todo _ Hinv Ht i Hi) as (l & q & Hl & Hq).
  assert (Hpc : pc_at i t σ = Some q) by (unfold pc_at; by rewrite Hl).
  pose proof (ci_role _ _ _ _ _ Hinv _ _ _ i q Ht Hpc) as Hr. cbn in Hr. rewrite decide_True in Hr by done.
  assert (Hp : parked q = false) by (by destruct m, q).
  destruct (lock_enabled crs σ t todo _ i l q Hinv Ht Hl Hq Hp) as (ch & σ' & Hs).
  apply (not_blocked crs σ t ch Hinv). unfold cstep. rewrite Ht. unfold leave_step. rewrite Hpc.
  destruct q; try (by rewrite Hs); try done.
  all: unfold lock_step; rewrite Hl; cbn [deref mbind outcome_bind]; unfold step; by rewrite Hq.
Qed.

(** Why a thread does not step. *)
Lemma stuck_thread crs σ t todo k :
  cinv crs σ → threads σ !! t = Some (todo, k) →
  can_step σ t ∨ (todo = [] ∧ k = Rest) ∨ ∃ i, parked_at σ t i.
Proof.
  intros Hinv Ht. destruct (Forall2_lookup_r _ _ _ _ _ (ci_ctl _ _ _ _ _ Hinv) Ht) as (cr & Hcr & Hk).
  assert (Hret : ∀ ch, returns plan_of c0 bound credit_of σ (cstep plan_of t ch σ) → can_step σ t).
  { intros ch (σ' & e & crs' & Hr & _). by exists ch, (σ', e). }
  destruct k as [|kept p|kept p|m i entered p|p|busy i b prev key next|i b next].
  - destruct todo as [|j todo]; [right; by left|left]. apply (Hret Go). by eapply rest_returns.
  - left. by eapply begin_steps.
  - destruct Hk as (Hsafe & [[m i] Hh] & _). destruct (psafe_head _ _ _ _ _ _ _ Hsafe Hh) as [Hi _].
    destruct (my_pc c0 bound credit_of crs σ t todo _ Hinv Ht i Hi) as (q & Hq & _).
    destruct (parked q) eqn:Hp; [|left; by eapply enter_steps]. right; right. exists i.
    by exists todo, kept, p, m, q.
  - left. by eapply leave_steps.
  - left. apply (Hret Go). by eapply body_returns.
  - left. apply (Hret Go). by eapply bump_returns.
  - left. apply (Hret Go). by eapply guard_returns.
Qed.

(** Whoever keeps a parked thread waiting can step, or waits at a higher lock. *)
Lemma waits_for crs σ t i :
  cinv crs σ → parked_at σ t i → ∃ u, can_step σ u ∨ ∃ i', (i < i' < length (shards c0))%nat ∧ parked_at σ u i'.
Proof.
  intros Hinv (todo & kept & p & m & q & Ht & Hh & Hq & Hp).
  destruct (locks σ !! i) as [l|] eqn:Hl; unfold pc_at in Hq; rewrite Hl in Hq; [|done]. cbn in Hq.
  pose proof (ci_lock _ _ _ _ _ Hinv i l Hl) as (o & wp & rp & _ & Hli).
  destruct (busy_thread _ _ _ _ _ Hli t q Hq Hp) as (u & qu & Hqu & Hni & Hnp). exists u.
  assert (Hlen : length (pcs l) = length (threads σ)) by (destruct (li_threads _ _ _ _ _ Hli); lia).
  destruct (lookup_lt_is_Some_2 (threads σ) u) as [[todou ku] Hu]; [rewrite <-Hlen; by eapply lookup_lt_Some|].
  assert (Hrole : role_ok (role_of ku i) qu = true).
  { eapply ci_role; [exact Hinv|done|]. unfold pc_at. by rewrite Hl. }
  destruct (stuck_thread crs σ u todou ku Hinv Hu) as [|[[_ ->]|[i' Hpark]]]; [by left|by destruct qu|].
  right. exists i'. split; [|done]. destruct Hpark as (todo1 & kept1 & p1 & m1 & q1 & Hu1 & Hh1 & Hq1 & Hp1).
  assert (ku = Enter kept1 p1) as -> by congruence.
  destruct (Forall2_lookup_r _ _ _ _ _ (ci_ctl _ _ _ _ _ Hinv) Hu) as (cr & _ & Hsafe & _ & _).
  destruct (psafe_head _ _ _ _ _ _ _ Hsafe Hh1) as [Hi' Habove]. cbn in Hrole. rewrite Hh1 in Hrole.
  destruct (decide (i = i')) as [<-|Hne].
  { assert (Hpq : pc_at i u σ = Some qu) by (unfold pc_at; by rewrite Hl). congruence. }
  destruct kept1 as [[m2 j]|]; cbn in Hrole, Habove; [|by destruct qu].
  destruct (decide (i = j)) as [->|]; [lia|by destruct qu].
Qed.

Lemma progress crs σ :
  cinv crs σ → (∀ t todo k, threads σ !! t = Some (todo, k) → todo = [] ∧ k = Rest) ∨ ∃ t, can_step σ t.
Proof.
  intros Hinv. assert (Hpark : ∀ n t i, (length (shards c0) - i ≤ n)%nat → parked_at σ t i → ∃ u, can_step σ u).
  { induction n as [|n IH]; intros t i Hn Hp;
      destruct (waits_for crs σ t i Hinv Hp) as (u & [|(i' & Hi' & Hp')]); [by exists u|lia|by exists u|].
    eapply (IH u i'); [lia|done]. }
  assert (Hall : ∀ ts : list (list J * ctl K V R), (∀ th, th ∈ ts → th.1 = [] ∧ th.2 = Rest) ∨ ∃ th, th ∈ ts ∧ ¬ (th.1 = [] ∧ th.2 = Rest)).
  { clear. intros ts. induction ts as [|[todo k] ts [IH|(th & Hin & Hno)]]; [left; by intros th ?%elem_of_nil| |].
    - assert (Hdec : (todo = [] ∧ k = Rest) ∨ ¬ (todo = [] ∧ k = Rest)).
      { destruct todo; [|right; by intros []]. destruct k; try (right; by intros []). by left. }
      destruct Hdec as [Hd|Hd]; [left|right; exists (todo, k); split; [by left|done]].
      intros th [->|Hin]%elem_of_cons; [done|by apply IH].
    - right. exists th. split; [by right|done]. }
  destruct (Hall (threads σ)) as [Hdone|([todo k] & [t Ht]%list_elem_of_lookup & Hno)]; [left|right].
  - intros t todo k Ht. by apply (Hdone (todo, k)), (list_elem_of_lookup_2 _ t).
  - destruct (stuck_thread crs σ t todo k Hinv Ht) as [|[|[i Hp]]]; [by exists t|done|].
    by eapply (Hpark _ t i (Nat.le_refl _)).
Qed.
End progress.
