(* ===== verification/ThreadFinish.v ===== *)
(** * ThreadFinish: the threads can always finish

    From every reachable state some schedule lets all threads complete their
    jobs: a thread that is not parked gets its lock, or parks, within a few
    steps of its own, and a thread that releases a lock does so within a few. *)

From stdpp Require Import base gmap list.
From S2P Require Import Prelude Machine Lock LockMachine LockInv RawTable Util Shard ShardOps ShardModel ShardSim.
From S2P Require Import Evict Safety Exact ShardSpec TryResult Cache Threads ThreadLocks CacheSpec ThreadInv ThreadSteps ThreadProgress.

Open Scope Z_scope.

(** ** Inside a lock function *)

Section lock.
Context `{!Target}.
Implicit Types (t : nat) (l : lstate) (m : mode) (w : Z) (q : pc).

(** How many more steps a thread alone needs until it has the lock, gives up
    or parks. *)
Definition patience w q : nat :=
  match q with
  | TryX => 1
  | LockX1 => 5
  | LockX2 => 4
  | LockXLoad _ => 3
  | LockXLoop _ s => if s =? w then 2 else 5
  | LockXPark => if bit_set w ONE_WRITER && bit_set w WRITERS_PARKED then 1 else 4
  | FastS First => 7
  | FastSCas First _ => 6
  | FastS Second => 5
  | FastSCas Second _ => 4
  | FastS Try => 4
  | FastSCas Try _ => 3
  | TrySLoad => 2
  | TrySLoop s => if s =? w then 1 else 2
  | LockSLoad => 3
  | LockSLoop s => if s =? w then 2 else 5
  | LockSPark => if writer_held w && bit_set w READERS_PARKED then 1 else 4
  | _ => 0
  end.

Lemma bit_set_lor w b x : bit_set w x = true → bit_set (Z.lor w b) x = true.
Proof.
  unfold bit_set. rewrite !negb_true_iff, !Z.eqb_neq, Z.land_lor_distr_l. intros Hw [Hz _]%Z.lor_eq_0_iff. done.
Qed.

Lemma bit_set_new w b : b ≠ 0 → bit_set (Z.lor w b) b = true.
Proof.
  intros Hb. unfold bit_set. rewrite negb_true_iff, Z.eqb_neq, Z.land_lor_distr_l, Z.land_diag.
  by intros [_ Hz]%Z.lor_eq_0_iff.
Qed.

(** Where a step leads: nearer to the end, or to it. *)
Definition nearer w q w' q' : Prop := (patience w' q' < patience w q)%nat ∨ parked q' = true ∨ idle q' = true ∨ q' = HoldX ∨ q' = HoldS.

Lemma loop_x_nearer w aw s w' q' : tstep Go w (LockXLoop aw s) ⇓ (w', q') → nearer w (LockXLoop aw s) w' q'.
Proof.
  cbn. unfold nearer. destruct (Z.land s ONE_WRITER =? 0) eqn:Hx.
  - destruct (Z.eqb_spec w s) as [->|Hne]; intros [= <- <-]; [by auto|left]. cbn. rewrite Z.eqb_refl.
    destruct (Z.eqb_spec s w); [congruence|lia].
  - assert (Hxb : bit_set s ONE_WRITER = true) by (unfold bit_set; by rewrite Hx).
    destruct (Z.land s WRITERS_PARKED =? 0) eqn:Hp.
    + destruct (Z.eqb_spec w s) as [->|Hne]; intros [= <- <-]; left; cbn; rewrite Z.eqb_refl.
      * rewrite bit_set_lor, bit_set_new by done. cbn. lia.
      * destruct (Z.eqb_spec s w); [congruence|lia].
    + assert (Hpb : bit_set s WRITERS_PARKED = true) by (unfold bit_set; by rewrite Hp).
      intros [= <- <-]. left. cbn. destruct (Z.eqb_spec s w) as [->|]; [rewrite Hxb, Hpb; cbn; lia|].
      destruct (_ && _); lia.
Qed.

Lemma loop_s_nearer N w s w' q' :
  N + 1 < max_readers → plausible N s → tstep Go w (LockSLoop s) ⇓ (w', q') → nearer w (LockSLoop s) w' q'.
Proof.
  intros HN Hpl. cbn. unfold nearer. destruct (usize_checked_add s ONE_READER) as [new|] eqn:Hadd.
  - intros (_ & _ & Hs)%bind_Ret. destruct (Z.eqb_spec w s) as [->|Hne]; injection Hs as <- <-; [by auto|left]. cbn.
    destruct (Z.eqb_spec s w); [congruence|lia].
  - destruct (checked_add_writer s N HN Hpl Hadd) as (wp & rp & ->).
    assert (Hh : ∀ wp rp, writer_held (encode Writer wp rp) = true) by (intros; by rewrite writer_held_encode).
    destruct (encode_bits Writer wp rp) as (_ & _ & Hlor); [done|].
    destruct (Z.land (encode Writer wp rp) READERS_PARKED =? 0) eqn:Hp.
    + destruct (Z.eqb_spec w (encode Writer wp rp)) as [->|Hne]; intros [= <- <-]; left; cbn; rewrite Z.eqb_refl.
      * rewrite bit_set_new by done. rewrite Hlor, Hh. cbn. lia.
      * destruct (Z.eqb_spec (encode Writer wp rp) w); [congruence|lia].
    + intros [= <- <-]. left. cbn. destruct (Z.eqb_spec (encode Writer wp rp) w) as [<-|].
      * unfold bit_set. rewrite Hp, Hh. cbn. lia.
      * destruct (_ && _); lia.
Qed.

(** A step of a thread that takes the lock. *)
Lemma acquire_turn N l t m try q :
  state_inv N l → pcs l !! t = Some q → acquiring m try q = true → parked q = false →
  ∃ w' q', step t Go l ⇓ mkState w' (<[t := q']> (pcs l)) ∧ role_ok (Taking m try) q' = true ∧ nearer (word l) q w' q'.
Proof.
  intros Hinv Hq Ha Hp.
  assert (Hst : ∃ w' q', tstep Go (word l) q ⇓ (w', q') ∧ step t Go l ⇓ mkState w' (<[t := q']> (pcs l))).
  { assert (Heq : step t Go l = ('(w, p') ← tstep Go (word l) q; Ret (mkState w (<[t := p']> (pcs l)))))
      by (unfold step; rewrite Hq; by destruct m, try, q).
    assert (Hnb : tstep Go (word l) q ≠ Blocked) by (destruct m, try, q; try done; cbn; unfold rust_assert; repeat (case_match; try done)).
    destruct (step_defined N t Go l Hinv) as [Hb|[l' Hl']]; rewrite Heq in *.
    - by destruct (tstep Go (word l) q) as [[]| | | | |].
    - pose proof Hl' as ([w' q'] & Hs & [= <-])%bind_Ret. by exists w', q'. }
  destruct Hst as (w' & q' & Hs & Hstep). exists w', q'. split_and!; [done|by eapply acquiring_step|].
  destruct Hinv as (o & wp & rp & Hw & Hi). destruct (li_threads _ _ _ _ _ Hi) as [_ HN].
  pose proof (li_locals _ _ _ _ _ Hi t q Hq) as Hloc. unfold nearer.
  destruct q; try (by destruct m, try).
  - cbn in Hs. destruct (_ =? _); injection Hs as <- <-; auto.
  - cbn in Hs. destruct (_ =? _); injection Hs as <- <-; auto.
  - cbn in Hs. destruct (_ =? _); injection Hs as <- <-; auto.
  - cbn in Hs. injection Hs as <- <-. left. cbn. rewrite Z.eqb_refl. lia.
  - by apply loop_x_nearer in Hs.
  - cbn in Hs. destruct (_ && _) eqn:Hb; injection Hs as <- <-; [auto|]. left. cbn. rewrite Hb. lia.
  - cbn in Hs. destruct (usize_checked_add _ _) as [new|]; [destruct (negb _)|]; injection Hs as <- <-; left;
      destruct a; cbn; lia.
  - cbn in Hs. destruct (_ =? _); injection Hs as <- <-; [auto|left]. destruct a; cbn; lia.
  - cbn in Hs. injection Hs as <- <-. left. cbn. rewrite Z.eqb_refl. lia.
  - cbn in Hs. destruct (usize_checked_add _ _) as [new|]; [|injection Hs as <- <-; auto].
    destruct (writer_held new); [injection Hs as <- <-; auto|].
    destruct (Z.eqb_spec (word l) s) as [Heq|Hne]; injection Hs as <- <-; auto. left. cbn. rewrite Z.eqb_refl.
    destruct (Z.eqb_spec s (word l)); [congruence|lia].
  - cbn in Hs. injection Hs as <- <-. left. cbn. rewrite Z.eqb_refl. lia.
  - by eapply loop_s_nearer in Hs.
  - cbn in Hs. destruct (_ && _) eqn:Hb; injection Hs as <- <-; [auto|]. left. cbn. rewrite Hb. lia.
Qed.

(** A thread that releases the lock: no loop. *)
Definition release_left q : nat :=
  match q with
  | HoldX => 6 | UnlockX => 5 | UnlockXLoad => 4 | UnlockXFree _ => 3 | UnlockXStore => 2
  | HoldS => 4 | UnlockS => 3 | UnlockSSlow => 2
  | WakeS | WakeX => 1
  | _ => 0
  end.

Lemma release_nearer ch m q q' w w' :
  releasing m q = true → tstep ch w q ⇓ (w', q') → (release_left q' < release_left q)%nat.
Proof.
  intros Hr Hs. destruct m, q; try done; cbn in Hs; unfold rust_assert in Hs;
    repeat (case_match; try done); simplify_eq/=; try lia.
  all: destruct (rust_assert _); cbn in *; simplify_eq/=; lia.
Qed.

Lemma unlock_starts l t q :
  pcs l !! t = Some q → q = HoldX ∨ q = HoldS →
  ∃ l' q', step t StartUnlock l ⇓ l' ∧ pcs l' !! t = Some q' ∧ (release_left q' < release_left q)%nat.
Proof.
  intros Hq Hh. assert (Hlt : (t < length (pcs l))%nat) by by eapply lookup_lt_Some.
  destruct Hh as [-> | ->]; eexists _, _; unfold step; rewrite Hq; cbn;
    (split; [done|]); cbn; (split; [by apply list_lookup_insert_eq|cbn; lia]).
Qed.
End lock.

(** ** The work left *)

Section order.
Context {K V : Type} `{Countable K} `{!BuildHasher K} `{!Target}.
Context `{!RawTable (K * CacheEntry V)}.
Context {J R : Type}.
Implicit Types (p : plan K V R) (k : ctl K V R) (i : nat).

(** The plan after a section. *)
Inductive next_plan : plan K V R → plan K V R → Prop :=
| np_busy p p' : if_busy p = Some p' → next_plan p' p
| np_write busy hold i (body : ShardData K V → outcome (ShardData K V * plan K V R)) s s' p' :
    body s ⇓ (s', p') → next_plan p' (Write busy hold i body)
| np_read hold i (body : ShardData K V → outcome (plan K V R)) s p' : body s ⇓ p' → next_plan p' (Read hold i body)
| np_look busy i key (next : option (K * V) → plan K V R) o : next_plan (next o) (Look busy i key next).

Fixpoint next_plan_acc p : Acc next_plan p.
Proof.
  destruct p as [r|busy hold i body|hold i body|busy i key next]; constructor; intros p' Hn; inversion Hn; subst; try discriminate.
  - cbn in *. destruct busy as [q|]; [|discriminate]. assert (q = p') as <- by congruence. apply next_plan_acc.
  - destruct (body s) as [[s1 q]| | | | |] eqn:Hs; try discriminate.
    assert (q = p') as <- by congruence. apply next_plan_acc.
  - destruct (body s) as [q| | | | |] eqn:Hs; try discriminate.
    assert (q = p') as <- by congruence. apply next_plan_acc.
  - cbn in *. destruct busy as [q|]; [|discriminate]. assert (q = p') as <- by congruence. apply next_plan_acc.
  - apply next_plan_acc.
Qed.

(** The next place of a thread, lock functions and [bump_freq] done. *)
Inductive ctl_next : ctl K V R → ctl K V R → Prop :=
| cn_begin kept p : is_Some (head p) → ctl_next (Enter kept p) (Begin kept p)
| cn_return r : ctl_next Rest (Begin None (Done r))
| cn_drop m i r : ctl_next (Leave m i false (Done r)) (Begin (Some (m, i)) (Done r))
| cn_body p : ctl_next (Body p) (Enter None p)
| cn_swap m i p : ctl_next (Leave m i true p) (Enter (Some (m, i)) p)
| cn_busy kept p p' : if_busy p = Some p' → ctl_next (Begin kept p') (Enter kept p)
| cn_swapped m i p : ctl_next (Body p) (Leave m i true p)
| cn_left m i p : ctl_next (Begin None p) (Leave m i false p)
| cn_done m hold i p p' : next_plan p' p → ctl_next (sequel m hold i p') (Body p)
| cn_found busy i b key next : ctl_next (Bump busy i b None key next) (Body (Look busy i key next))
| cn_bumped busy i b prev key next : ctl_next (Guard i b next) (Bump busy i b prev key next)
| cn_copied i b next kv : ctl_next (Leave Shared i false (next (Some kv))) (Guard i b next).

(** Every place of a thread with plan [p] leads to the end. *)
Record ends p : Prop := {
  ends_begin kept : Acc ctl_next (Begin kept p);
  ends_enter kept : Acc ctl_next (Enter kept p);
  ends_leave m i entered : Acc ctl_next (Leave m i entered p);
  ends_body : Acc ctl_next (Body p)
}.

Lemma guard_acc i b next : (∀ o, ends (next o)) → Acc ctl_next (Guard i b next).
Proof. intros Hn. constructor. intros k Hk. inversion Hk; subst. apply Hn. Qed.

Lemma bump_acc busy i b prev key next : (∀ o, ends (next o)) → Acc ctl_next (Bump busy i b prev key next).
Proof. intros Hn. constructor. intros k Hk. inversion Hk; subst. by apply guard_acc. Qed.

Lemma rest_acc : Acc ctl_next Rest.
Proof. constructor. intros k Hk. inversion Hk. Qed.

Lemma plan_ends p : ends p.
Proof.
  induction (next_plan_acc p) as [p _ IH].
  assert (Hbody : Acc ctl_next (Body p)).
  { constructor. intros k Hk. inversion Hk as [| | | | | | | |m hold i p1 p' Hn| | |]; subst.
    - destruct (IH p' Hn) as [Hb _ Hl _]. destruct hold; cbn; [apply Hb|apply Hl].
    - apply bump_acc. intros o. apply IH, np_look. }
  assert (Hbusy : ∀ kept p', if_busy p = Some p' → Acc ctl_next (Begin kept p')).
  { intros kept p' Hb. apply IH. by constructor. }
  assert (Hswap : ∀ m i, Acc ctl_next (Leave m i true p)).
  { intros m i. constructor. intros k Hk. inversion Hk; by subst. }
  assert (Henter : ∀ kept, Acc ctl_next (Enter kept p)).
  { intros kept. constructor. intros k Hk. inversion Hk; subst; [done|apply Hswap|by apply Hbusy]. }
  assert (Hnone : Acc ctl_next (Begin None p)).
  { constructor. intros k Hk. inversion Hk; subst; [apply Henter|apply rest_acc]. }
  assert (Hleft : ∀ m i, Acc ctl_next (Leave m i false p)).
  { intros m i. constructor. intros k Hk. inversion Hk; by subst. }
  constructor; [|done|by intros m i []|done].
  intros kept. constructor. intros k Hk. inversion Hk; subst; [apply Henter|apply rest_acc|apply Hleft].
Qed.

Lemma ctl_acc k : Acc ctl_next k.
Proof.
  destruct k as [|kept p|kept p|m i entered p|p|busy i b prev key next|i b next].
  - apply rest_acc.
  - exact (ends_begin _ (plan_ends p) kept).
  - exact (ends_enter _ (plan_ends p) kept).
  - exact (ends_leave _ (plan_ends p) m i entered).
  - exact (ends_body _ (plan_ends p)).
  - apply bump_acc. intros o. apply plan_ends.
  - apply guard_acc. intros o. apply plan_ends.
Qed.

(** A thread with jobs to do, and a list of threads one of which moves. *)
Inductive thread_next : list J * ctl K V R → list J * ctl K V R → Prop :=
| tn_call j todo p : thread_next (todo, Begin None p) (j :: todo, Rest)
| tn_ctl todo k k' : ctl_next k' k → thread_next (todo, k') (todo, k).

Lemma thread_acc th : Acc thread_next th.
Proof.
  destruct th as [todo k]. revert k. induction todo as [|j todo IH]; intros k; induction (ctl_acc k) as [k _ IHk];
    constructor; intros th Hth; inversion Hth; subst; auto.
Qed.

Inductive threads_next : list (list J * ctl K V R) → list (list J * ctl K V R) → Prop :=
| ts_next ths t th th' : ths !! t = Some th → thread_next th' th → threads_next (<[t := th']> ths) ths.

Lemma threads_acc ths : Acc threads_next ths.
Proof.
  induction ths as [|th ths IH].
  { constructor. intros ths Hn. inversion Hn; by subst. }
  revert th. induction IH as [ths _ IHths]. intros th. induction (thread_acc th) as [th Hth IHth].
  constructor. intros ths' Hn. inversion Hn as [ths1 t th1 th' Ht Hnext]; subst. destruct t as [|t]; cbn in *.
  - injection Ht as <-. by apply IHth.
  - apply IHths. by econstructor.
Qed.
End order.

(** ** Advancing *)

Section advance.
Context {K V : Type} `{Countable K} `{!BuildHasher K} `{!Target}.
Context `{!RawTable (K * CacheEntry V)} `{!RawTableSpec (K * CacheEntry V)}.
Context {J R : Type} (plan_of : J → outcome (plan K V R)).
Context (c0 : NeoCache K V) (bound : nat → nat) (credit_of : J → nat → nat).
Context (Hbound : ∀ i s, ¬ unbounded c0 → inv_at c0 i s → (size (contents s) ≤ bound i)%nat).
Context (Hjobs : ∀ j, ∃ p, plan_of j ⇓ p ∧ psafe c0 bound (credit_of j) None p).
Implicit Types (t i : nat) (p : plan K V R) (σ : config K V J R) (k : ctl K V R).

#[local] Abbreviation cinv := (cinv c0 bound credit_of).

Lemma exec_trans σ0 σ1 σ2 evs1 evs2 :
  exec plan_of σ0 evs1 σ1 → exec plan_of σ1 evs2 σ2 → exec plan_of σ0 (evs1 ++ evs2) σ2.
Proof.
  intros Hex. induction 1 as [|evs σ t ch σ' e _ IH Hst]; [by rewrite app_nil_r|]. rewrite app_assoc. by eapply exec_snoc.
Qed.

Lemma exec_one σ t ch σ' e : cstep plan_of t ch σ ⇓ (σ', e) → exec plan_of σ (option_list e) σ'.
Proof. intros Hst. apply (exec_snoc _ σ [] σ t ch σ' e); [constructor|done]. Qed.

(** The threads come to the next place of one of them. *)
Definition advances σ : Prop :=
  ∃ evs σ', exec plan_of σ evs σ' ∧ threads_next (threads σ') (threads σ).

Lemma advances_after σ σ' evs : exec plan_of σ evs σ' → threads σ' = threads σ → advances σ' → advances σ.
Proof.
  intros Hex Hth (evs' & σ2 & Hex' & Hn). rewrite Hth in Hn. eexists _, σ2. split; [by eapply exec_trans|done].
Qed.

Lemma advances_step σ t ch σ' e th th' :
  cstep plan_of t ch σ ⇓ (σ', e) → threads σ !! t = Some th → threads σ' = <[t := th']> (threads σ) →
  thread_next th' th → advances σ.
Proof.
  intros Hst Ht Hth Hn. eexists _, σ'. split; [by eapply exec_one|]. rewrite Hth. by econstructor.
Qed.

(** Places that are left by one step. *)
Lemma cstep_next σ t ch σ' e todo k :
  cstep plan_of t ch σ ⇓ (σ', e) → threads σ !! t = Some (todo, k) →
  match k with Enter _ _ | Leave _ _ _ _ | Bump _ _ _ _ _ _ => False | _ => True end → advances σ.
Proof.
  intros Hst Ht Hk. pose proof Hst as Hrun. unfold cstep in Hrun. rewrite Ht in Hrun.
  destruct k as [|kept p| | |p| |i b next]; try done; clear Hk.
  - destruct todo as [|j todo]; [done|]. apply bind_Ret in Hrun as (p & _ & [= <- <-]).
    eapply advances_step; [done|done|done|constructor].
  - assert (Henter : is_Some (head p) → ('(m, i) ← deref (head p); σ ← lock_step i t (start_lock p m) σ;
      Ret (set_thread t todo (Enter kept p) σ, None)) ⇓ (σ', e) → advances σ).
    { intros Hh ([m i] & _ & (σ1 & Hl & [= <- <-])%bind_Ret)%bind_Ret.
      apply bind_Ret in Hl as (l & _ & (l' & _ & [= <-])%bind_Ret).
      eapply advances_step; [done|done|done|]. by apply tn_ctl, cn_begin. }
    destruct p; try (by apply Henter). destruct kept as [[m i]|]; injection Hrun as <- <-;
      (eapply advances_step; [done|done|done|]); apply tn_ctl; constructor.
  - destruct p as [r|busy hold i body|hold i body|busy i key next]; try done; cbn in Hrun;
      apply bind_Ret in Hrun as (s & _ & Hrun).
    + apply bind_Ret in Hrun as ([s' p'] & Hb & [= <- <-]). eapply advances_step; [done|done|done|].
      apply tn_ctl, cn_done. by eapply np_write.
    + apply bind_Ret in Hrun as (p' & Hb & [= <- <-]). eapply advances_step; [done|done|done|].
      apply tn_ctl, cn_done. by eapply np_read.
    + destruct (rt_find _ _ _); injection Hrun as <- <-; (eapply advances_step; [done|done|done|]); apply tn_ctl.
      * constructor.
      * apply (cn_done Shared false i (Look busy i key next)), np_look.
  - apply bind_Ret in Hrun as (s & _ & (kv & _ & [= <- <-])%bind_Ret). eapply advances_step; [done|done|done|].
    apply tn_ctl. constructor.
Qed.

Lemma step_cinv crs σ t ch σ' e : cinv crs σ → cstep plan_of t ch σ ⇓ (σ', e) → ∃ crs', cinv crs' σ'.
Proof.
  intros Hi Hst. destruct (cstep_good plan_of c0 bound credit_of Hbound Hjobs crs σ t ch Hi)
    as [Hb|(σ1 & e1 & crs1 & Hr & Hi1 & _)]; [congruence|]. exists crs1. by assert (σ1 = σ') as -> by congruence.
Qed.

(** The counter of a thread in a lock. *)
Lemma my_state crs σ t todo k i :
  cinv crs σ → threads σ !! t = Some (todo, k) → (i < length (shards c0))%nat →
  ∃ l q, locks σ !! i = Some l ∧ pcs l !! t = Some q ∧ pc_at i t σ = Some q ∧
    role_ok (role_of k i) q = true ∧ state_inv (Z.of_nat (length (threads σ))) l.
Proof.
  intros Hi Ht Hlt. destruct (my_lock c0 bound credit_of crs σ t todo k Hi Ht i Hlt) as (l & q & Hl & Hq).
  assert (Hpc : pc_at i t σ = Some q) by (unfold pc_at; by rewrite Hl). exists l, q.
  split_and!; [done|done|done|by eapply ci_role|by eapply ci_lock].
Qed.

(** After a step in lock [i]. *)
Lemma pc_after σ i l l' u : locks σ !! i = Some l → pc_at i u (set_lock i l' σ) = pcs l' !! u.
Proof. intros Hl. unfold pc_at. cbn. by rewrite list_lookup_insert_eq by by eapply lookup_lt_Some. Qed.

(** Releasing a lock comes to an end. *)
Lemma leave_advances n crs σ t todo m i entered p :
  cinv crs σ → threads σ !! t = Some (todo, Leave m i entered p) →
  (∀ q, pc_at i t σ = Some q → release_left q ≤ n)%nat → advances σ.
Proof.
  revert crs σ. induction n as [n IH] using lt_wf_ind. intros crs σ Hi Ht Hn.
  destruct (Forall2_lookup_r _ _ _ _ _ (ci_ctl _ _ _ _ _ Hi) Ht) as (cr & _ & _ & _ & Hlt).
  destruct (my_state crs σ t todo _ i Hi Ht Hlt) as (l & q & Hl & Hq & Hpc & Hrole & Hst).
  cbn in Hrole. rewrite decide_True in Hrole by done. specialize (Hn q Hpc).
  assert (Hstep : ∀ ch l' q', leave_step t todo i entered p ch σ = (σ ← lock_step i t ch σ; Ret (σ, None)) ∨
      ch = StartUnlock ∧ (∃ ch', leave_step t todo i entered p ch' σ = (σ ← lock_step i t StartUnlock σ; Ret (σ, None))) →
    step t ch l ⇓ l' → pcs l' !! t = Some q' → (release_left q' < release_left q)%nat → advances σ).
  { intros ch l' q' Hleave Hs Hq' Hless.
    assert (Hex : ∃ ch', cstep plan_of t ch' σ ⇓ (set_lock i l' σ, None)).
    { destruct Hleave as [Heq|[-> [ch' Heq]]]; [exists ch|exists ch']; unfold cstep; rewrite Ht, Heq;
        by rewrite (lock_step_ret _ _ _ _ _ _ Hl Hs). }
    destruct Hex as [ch' Hc]. destruct (step_cinv _ _ _ _ _ _ Hi Hc) as [crs' Hi'].
    eapply advances_after; [by eapply exec_one|done|]. eapply (IH (release_left q')); [lia|exact Hi'|exact Ht|].
    intros q1. rewrite (pc_after _ _ _ _ _ Hl), Hq'. by intros [= ->]. }
  destruct (decide (q = Idle)) as [->|Hni].
  { assert (Hc : cstep plan_of t Go σ ⇓ (set_thread t todo (if entered then Body p else Begin None p) σ, None)).
    { unfold cstep, leave_step. by rewrite Ht, Hpc. }
    eapply advances_step; [exact Hc|exact Ht|done|]. apply tn_ctl. destruct entered; constructor. }
  destruct (decide (q = HoldX ∨ q = HoldS)) as [Hh|Hh].
  - destruct (unlock_starts l t q) as (l' & q' & Hs & Hq' & Hless); [done|done|].
    apply (Hstep StartUnlock l' q'); [|done..]. right. split; [done|]. exists Go. unfold leave_step. rewrite Hpc.
    by destruct Hh as [-> | ->].
  - assert (Hrel : releasing m q = true).
    { cbn in Hrole. apply orb_true_iff in Hrole as [[Hx|Hx]%orb_true_iff|Hx]; [|done|by destruct q].
      exfalso. apply Hh. destruct m, q; try done; auto. }
    destruct (step_enabled _ t q l Hst Hq) as (ch & l' & Hs); [by destruct m, q|].
    destruct (step_local t ch l l' Hs) as (_ & (q0 & q' & Hq0 & Hq' & Hcase) & _).
    assert (q0 = q) as -> by congruence. apply (Hstep ch l' q'); [|done|done|].
    + left. unfold leave_step. rewrite Hpc. destruct m, q; try done; exfalso; apply Hh; auto.
    + destruct q; try (by destruct m); try (subst q'; cbn; lia); destruct Hcase as [w' Hw]; by eapply release_nearer.
Qed.

(** The last step of [fetch_update]. *)
Lemma bump_last crs σ t todo busy i b prev key next s key0 e o :
  cinv crs σ → threads σ !! t = Some (todo, Bump busy i b prev key next) → data σ !! i = Some s →
  rt_as_ref (smap s) b = Some (key0, e) → fetch_update Go prev (freq e) = inr o →
  ∃ ev σ', cstep plan_of t Go σ ⇓ (σ', ev) ∧ threads σ' = <[t := (todo, Guard i b next)]> (threads σ).
Proof.
  intros Hi Ht Hs Href Ho. destruct (Forall2_lookup_r _ _ _ _ _ (ci_ctl _ _ _ _ _ Hi) Ht) as (cr & Hcr & _).
  destruct (bump_returns plan_of c0 bound credit_of crs σ t todo cr Hi Hcr Go busy i b prev key next Ht)
    as (σ' & ev & _ & Hst & _). exists ev, σ'. split; [done|]. unfold cstep in Hst. rewrite Ht in Hst.
  unfold bump_step in Hst. rewrite Hs in Hst. cbn [deref mbind outcome_bind] in Hst. rewrite Href in Hst.
  cbn [deref mbind outcome_bind] in Hst. rewrite Ho in Hst.
  destruct o as [f|]; [apply bind_Ret in Hst as (mm & _ & Hst)|]; by injection Hst as <- <-.
Qed.

(** [fetch_update] comes to an end. *)
Lemma bump_advances crs σ t todo busy i b prev key next :
  cinv crs σ → threads σ !! t = Some (todo, Bump busy i b prev key next) → advances σ.
Proof.
  intros Hi Ht. destruct (Forall2_lookup_r _ _ _ _ _ (ci_ctl _ _ _ _ _ Hi) Ht) as (cr & _ & v & (s & Hs & Hb) & _).
  destruct (rt_as_ref (smap s) b) as [[k0 e]|] eqn:Href; [|unfold bucket_pair in Hb; by rewrite Href in Hb].
  assert (Hnext : thread_next (todo, Guard i b next) (todo, Bump busy i b prev key next)) by apply tn_ctl, cn_bumped.
  destruct (fetch_update Go prev (freq e)) as [cur|o] eqn:Hfu.
  2:{ destruct (bump_last crs σ t todo busy i b prev key next s k0 e o Hi Ht Hs Href Hfu) as (ev & σ' & Hst & Hth).
      by eapply advances_step. }
  assert (cur = freq e) as -> by (unfold fetch_update in Hfu; by repeat case_match; simplify_eq).
  set (σ1 := set_thread t todo (Bump busy i b (Some (freq e)) key next) σ).
  assert (Hc : cstep plan_of t Go σ ⇓ (σ1, None)).
  { unfold cstep. rewrite Ht. unfold bump_step. rewrite Hs. cbn [deref mbind outcome_bind]. rewrite Href.
    cbn [deref mbind outcome_bind]. by rewrite Hfu. }
  destruct (step_cinv _ _ _ _ _ _ Hi Hc) as [crs1 Hi1].
  assert (Hlt : (t < length (threads σ))%nat) by by eapply lookup_lt_Some.
  destruct (bump_last crs1 σ1 t todo busy i b (Some (freq e)) key next s k0 e (bump_closure (freq e)) Hi1)
    as (ev & σ2 & Hst & Hth).
  - by apply list_lookup_insert_eq.
  - done.
  - done.
  - unfold fetch_update. cbn. by rewrite Z.eqb_refl.
  - eexists _, σ2. split; [by eapply exec_trans; eapply exec_one|]. rewrite Hth. cbn [σ1 set_thread threads].
    rewrite list_insert_insert_eq. by econstructor.
Qed.

(** ** Taking a lock *)

(** A thread that waits for a lock without being parked. *)
Definition active σ t : bool :=
  match threads σ !! t with
  | Some (_, Enter _ p) =>
      match head p with
      | Some (_, i) => match pc_at i t σ with Some q => negb (parked q) | None => false end
      | None => false
      end
  | _ => false
  end.

Definition actives σ : nat := length (filter (λ t, active σ t = true) (seq 0 (length (threads σ)))).

Lemma filter_le (f g : nat → bool) (l : list nat) :
  (∀ u, g u = true → f u = true) →
  (length (filter (λ u, g u = true) l) ≤ length (filter (λ u, f u = true) l))%nat.
Proof.
  intros Hgf. induction l as [|u l IH]; [done|]. rewrite !filter_cons. destruct (decide (g u = true)) as [Hg|Hg].
  - rewrite decide_True by auto. cbn. lia.
  - destruct (decide _); cbn; lia.
Qed.

Lemma filter_fewer (f g : nat → bool) (l : list nat) t :
  (∀ u, g u = true → f u = true) → t ∈ l → f t = true → g t = false →
  (length (filter (λ u, g u = true) l) < length (filter (λ u, f u = true) l))%nat.
Proof.
  intros Hgf. induction l as [|u l IH]; [by intros ?%elem_of_nil|]. intros [->|Hin]%elem_of_cons Hf Hg; rewrite !filter_cons.
  - rewrite (decide_True _ _ Hf), decide_False by congruence. cbn. pose proof (filter_le f g l Hgf). lia.
  - specialize (IH Hin Hf Hg). destruct (decide (g u = true)) as [Hgu|Hgu].
    + rewrite decide_True by auto. cbn. lia.
    + destruct (decide _); cbn; lia.
Qed.

(** A thread that has its lock, or has given up. *)
Lemma enter_last σ t todo kept p m i q :
  threads σ !! t = Some (todo, Enter kept p) → head p = Some (m, i) → pc_at i t σ = Some q →
  role_ok (Taking m (match if_busy p with Some _ => true | None => false end)) q = true →
  idle q = true ∨ q = HoldX ∨ q = HoldS → advances σ.
Proof.
  intros Ht Hh Hpc Hrole Hend. assert (Hcases : q = Idle ∨ q = HoldX ∨ q = HoldS) by (destruct q; naive_solver).
  destruct (decide (q = Idle)) as [->|Hni].
  - destruct (if_busy p) as [p'|] eqn:Hb; [|by destruct m]. eapply (advances_step σ t Go _ (Some _)); [|exact Ht| |].
    + unfold cstep. rewrite Ht. unfold enter_step. rewrite Hh. cbn. rewrite Hpc, Hb. done.
    + done.
    + by apply tn_ctl, cn_busy.
  - eapply (advances_step σ t Go _ None); [|exact Ht| |].
    + unfold cstep. rewrite Ht. unfold enter_step. rewrite Hh. cbn. rewrite Hpc. by destruct Hcases as [|[-> | ->]].
    + done.
    + apply tn_ctl. destruct kept as [[]|]; constructor.
Qed.

(** A step of the lock function; no other thread moves. *)
Lemma enter_turn crs σ t todo kept p m i l q :
  cinv crs σ → threads σ !! t = Some (todo, Enter kept p) → head p = Some (m, i) →
  locks σ !! i = Some l → pcs l !! t = Some q → parked q = false → idle q = false → q ≠ HoldX → q ≠ HoldS →
  ∃ crs' l' q', cstep plan_of t Go σ ⇓ (set_lock i l' σ, None) ∧ cinv crs' (set_lock i l' σ) ∧
    pcs l' !! t = Some q' ∧ nearer (word l) q (word l') q' ∧
    ∀ j u, u ≠ t → pc_at j u (set_lock i l' σ) = pc_at j u σ.
Proof.
  intros Hi Ht Hh Hl Hq Hnp Hni Hnx Hns.
  assert (Hpc : pc_at i t σ = Some q) by (unfold pc_at; by rewrite Hl).
  pose proof (ci_role _ _ _ _ _ Hi _ _ _ i q Ht Hpc) as Hrole. cbn in Hrole. rewrite Hh, decide_True in Hrole by done.
  assert (Hacq : acquiring m (match if_busy p with Some _ => true | None => false end) q = true).
  { cbn in Hrole. rewrite Hni, andb_false_r, orb_false_r in Hrole. apply orb_true_iff in Hrole as [|Hx]; [done|].
    by destruct m, q. }
  destruct (acquire_turn _ l t _ _ q (ci_lock _ _ _ _ _ Hi i l Hl) Hq Hacq Hnp) as (w' & q' & Hs & _ & Hnear).
  set (l' := mkState w' (<[t := q']> (pcs l))) in *.
  assert (Hc : cstep plan_of t Go σ ⇓ (set_lock i l' σ, None)).
  { unfold cstep. rewrite Ht. unfold enter_step. rewrite Hh. cbn [deref mbind outcome_bind]. rewrite Hpc.
    pose proof (lock_step_ret _ _ _ _ _ _ Hl Hs) as Hls. by destruct q; try done; rewrite Hls. }
  destruct (step_cinv _ _ _ _ _ _ Hi Hc) as [crs' Hi']. exists crs', l', q'. split_and!; [done|done| |done|].
  - apply list_lookup_insert_eq. by eapply lookup_lt_Some.
  - intros j u Hne. destruct (decide (j = i)) as [->|Hji].
    + rewrite (pc_after _ _ _ _ _ Hl). cbn. rewrite list_lookup_insert_ne by done. unfold pc_at. by rewrite Hl.
    + unfold pc_at. cbn. by rewrite list_lookup_insert_ne by done.
Qed.

(** The active threads after a step of one of them. *)
Lemma active_others σ σ' t u :
  threads σ' = threads σ → (∀ j u, u ≠ t → pc_at j u σ' = pc_at j u σ) → u ≠ t → active σ' u = active σ u.
Proof.
  intros Hth Hpcs Hne. unfold active. rewrite Hth. destruct (threads σ !! u) as [[todo [|kept p|kept p| | | |]]|]; try done.
  destruct (head p) as [[m j]|]; [|done]. by rewrite Hpcs.
Qed.

(** A thread that is not parked gets its lock, gives up or parks. *)
Lemma enter_advances n crs σ t todo kept p m i :
  cinv crs σ → threads σ !! t = Some (todo, Enter kept p) → head p = Some (m, i) → active σ t = true →
  (∀ l q, locks σ !! i = Some l → pcs l !! t = Some q → patience (word l) q ≤ n)%nat →
  advances σ ∨
  ∃ evs σ' crs', exec plan_of σ evs σ' ∧ cinv crs' σ' ∧ threads σ' = threads σ ∧ (actives σ' < actives σ)%nat.
Proof.
  revert crs σ. induction n as [n IH] using lt_wf_ind. intros crs σ Hi Ht Hh Hact Hn.
  destruct (Forall2_lookup_r _ _ _ _ _ (ci_ctl _ _ _ _ _ Hi) Ht) as (cr & _ & Hsafe & _).
  destruct (psafe_head _ _ _ _ _ _ _ Hsafe Hh) as [Hlt _].
  destruct (my_state crs σ t todo _ i Hi Ht Hlt) as (l & q & Hl & Hq & Hpc & Hrole & _).
  cbn in Hrole. rewrite Hh, decide_True in Hrole by done. specialize (Hn l q Hl Hq).
  assert (Hnp : parked q = false).
  { unfold active in Hact. rewrite Ht, Hh, Hpc in Hact. by apply negb_true_iff. }
  destruct (decide (idle q = true ∨ q = HoldX ∨ q = HoldS)) as [Hend|Hend]; [left; by eapply enter_last|].
  destruct (enter_turn crs σ t todo kept p m i l q) as (crs' & l' & q' & Hc & Hi' & Hq' & Hnear & Hpcs);
    [done..|apply not_true_is_false; tauto|tauto|tauto|].
  set (σ' := set_lock i l' σ) in *. assert (Hpc' : pc_at i t σ' = Some q') by (unfold σ'; by rewrite (pc_after _ _ _ _ _ Hl)).
  assert (Hsub : ∀ u, active σ' u = true → active σ u = true).
  { intros u. destruct (decide (u = t)) as [->|Hne]; [done|]. by rewrite (active_others σ σ' t u). }
  assert (Hact' : active σ' t = negb (parked q')) by (unfold active; cbn [σ' set_lock threads]; by rewrite Ht, Hh, Hpc').
  destruct (parked q') eqn:Hp'.
  { right. eexists _, σ', crs'. split_and!; [by eapply exec_one|done|done|]. unfold actives. cbn [σ' set_lock threads].
    apply (filter_fewer _ _ _ t); [done| |done|done]. apply elem_of_seq. apply lookup_lt_Some in Ht. lia. }
  destruct Hnear as [Hless|[Hpark|Hdone]]; [|congruence|].
  - destruct (IH (patience (word l') q') ltac:(lia) crs' σ' Hi' Ht Hh Hact') as [Hadv|(evs & σ2 & crs2 & Hex & Hi2 & Hth & Hfew)].
    + intros l1 q1. cbn [σ' set_lock locks]. rewrite list_lookup_insert_eq by by eapply lookup_lt_Some.
      intros [= <-]. rewrite Hq'. by intros [= <-].
    + left. by eapply advances_after; [eapply exec_one|..].
    + right. eexists _, σ2, crs2. split_and!; [by eapply exec_trans; [eapply exec_one|]|done|done|].
      pose proof (filter_le (active σ) (active σ') (seq 0 (length (threads σ))) Hsub). unfold actives in *.
      cbn [σ' set_lock threads] in Hfew. lia.
  - left. eapply advances_after; [by eapply exec_one|done|]. eapply (enter_last σ'); [exact Ht|exact Hh|exact Hpc'| |done].
    pose proof (ci_role _ _ _ _ _ Hi' t todo _ i q' Ht Hpc') as Hr. cbn in Hr. by rewrite Hh, decide_True in Hr.
Qed.

(** ** All threads *)

Definition finished σ : Prop := ∀ t todo k, threads σ !! t = Some (todo, k) → todo = [] ∧ k = Rest.

Lemma some_advance n crs σ : cinv crs σ → (actives σ ≤ n)%nat → finished σ ∨ advances σ.
Proof.
  revert crs σ. induction n as [n IH] using lt_wf_ind. intros crs σ Hi Hn.
  destruct (progress plan_of c0 bound credit_of Hbound Hjobs crs σ Hi) as [Hfin|(t & ch & [σ1 e] & Hst)]; [by left|right].
  destruct (threads σ !! t) as [[todo k]|] eqn:Ht; [|unfold cstep in Hst; by rewrite Ht in Hst].
  destruct k as [|kept p|kept p|m i entered p|p|busy i b prev key next|i b next]; try (by eapply cstep_next).
  - destruct (Forall2_lookup_r _ _ _ _ _ (ci_ctl _ _ _ _ _ Hi) Ht) as (cr & _ & Hsafe & [[m i] Hh] & _).
    destruct (psafe_head _ _ _ _ _ _ _ Hsafe Hh) as [Hlt _].
    destruct (my_state crs σ t todo _ i Hi Ht Hlt) as (l & q & Hl & Hq & Hpc & _ & _).
    assert (Hact : active σ t = true).
    { unfold active. rewrite Ht, Hh, Hpc. destruct q; try done; exfalso; unfold cstep, enter_step in Hst;
        rewrite Ht, Hh in Hst; cbn in Hst; rewrite Hpc in Hst; unfold lock_step in Hst; rewrite Hl in Hst; cbn in Hst;
        unfold step in Hst; by rewrite Hq in Hst. }
    destruct (enter_advances (patience (word l) q) crs σ t todo kept p m i Hi Ht Hh Hact)
      as [|(evs & σ' & crs' & Hex & Hi' & Hth & Hfew)]; [intros l1 q1; rewrite Hl; intros [= <-]; rewrite Hq; by intros [= <-]|done|].
    eapply advances_after; [done|done|]. destruct (IH (actives σ') ltac:(lia) crs' σ' Hi' (Nat.le_refl _)) as [Hfin|]; [|done].
    exfalso. assert (Ht' : threads σ' !! t = Some (todo, Enter kept p)) by by rewrite Hth. by destruct (Hfin _ _ _ Ht').
  - eapply (leave_advances 6); [done|done|]. intros q _. destruct q; cbn; lia.
  - by eapply bump_advances.
Qed.

Lemma can_finish crs σ : cinv crs σ → ∃ evs σ', exec plan_of σ evs σ' ∧ finished σ'.
Proof.
  intros Hi. remember (threads σ) as ths eqn:Hths. revert crs σ Hi Hths.
  induction (threads_acc ths) as [ths _ IH]. intros crs σ Hi ->.
  destruct (some_advance (actives σ) crs σ Hi (Nat.le_refl _)) as [Hfin|(evs & σ1 & Hex & Hn)].
  { exists [], σ. by split; [constructor|]. }
  destruct (exec_good plan_of c0 bound credit_of Hbound Hjobs crs σ evs σ1 Hi Hex) as [[crs1 Hi1] _].
  destruct (IH _ Hn crs1 σ1 Hi1 eq_refl) as (evs2 & σ2 & Hex2 & Hfin). eexists _, σ2. split; [by eapply exec_trans|done].
Qed.
End advance.
