(* ===== verification/CacheEffects.v ===== *)
(** * CacheEffects: the effect of the map operations on the contents

    Removal, reading, alteration, [retain] and [clear] on a cache whose shards
    are free, as functions on the map of all pairs. *)

From stdpp Require Import base gmap list.
From S2P Require Import Prelude Machine Lock RawTable Util Shard ShardOps ShardModel ShardSim.
From S2P Require Import Evict Safety Exact ShardSpec TryResult Cache CacheSpec.

Open Scope Z_scope.

Section effects.
Context {K V : Type} `{Countable K} `{!BuildHasher K} `{!Target}.
Context `{!RawTable (K * CacheEntry V)} `{!RawTableSpec (K * CacheEntry V)}.
Implicit Types (c : NeoCache K V) (k : K) (v : V).

(** [remove] returns the stored pair, deletes exactly that key and
    leaves the lock free; it does nothing when the key is absent. *)
Lemma remove_effect c k :
  cache_ok c → unlocked c k →
  ∃ c', _remove k c ⇓ (c', pair k <$> cache_contents c !! k) ∧ cache_ok c' ∧ unlocked c' k ∧
    same_except (route c k) c c' ∧ cache_contents c' = delete k (cache_contents c).
Proof.
  intros Hc (l & Hl & Hw). destruct (home_index _ _ _ Hc Hl) as (i & _ & _ & _ & Hinv).
  destruct (shard_remove_ok k (lock_data l) (li_shard _ _ _ Hinv)) as (s & Hs & Hst & _ & Hcont).
  rewrite (cache_contents_lookup c k l Hc Hl).
  destruct (keyed_write_ok (shard_remove k) c k l s _ Hc Hl Hw Hs Hst)
    as (c' & Hrun & Hc' & Hsame & Hhome & Hcc); [rewrite Hcont; apply no_new_keys_delete|].
  exists c'. split_and!; [done|done|by exists (mkLock 0 s)|done|].
  eapply (cache_contents_local c c' k l s (delete k)); try done.
  - intros m m' k' Hm. destruct (decide (k = k')) as [<-|]; by simplify_map_eq.
  - intros m k' Hne. by rewrite lookup_delete_ne.
Qed.

(** [remove_if] removes the pair exactly when it is present and the
    predicate holds of it. *)
Lemma remove_if_effect c k f :
  cache_ok c → unlocked c k →
  let hit := match cache_contents c !! k with Some v => f k v | None => false end in
  ∃ c', _remove_if k f c ⇓ (c', if hit : bool then pair k <$> cache_contents c !! k else None) ∧
    cache_ok c' ∧ unlocked c' k ∧ same_except (route c k) c c' ∧
    cache_contents c' = if hit then delete k (cache_contents c) else cache_contents c.
Proof.
  intros Hc (l & Hl & Hw). destruct (home_index _ _ _ Hc Hl) as (i & _ & _ & _ & Hinv).
  destruct (shard_remove_if_ok k f (lock_data l) (li_shard _ _ _ Hinv)) as (s & Hs & Hst & _ & Hcont).
  rewrite (cache_contents_lookup c k l Hc Hl). cbn. revert Hs Hcont.
  set (hit := match contents (lock_data l) !! k with Some v => f k v | None => false end).
  intros Hs Hcont.
  destruct (keyed_write_ok (shard_remove_if k f) c k l s _ Hc Hl Hw Hs Hst)
    as (c' & Hrun & Hc' & Hsame & Hhome & Hcc).
  { rewrite Hcont. destruct hit; [apply no_new_keys_delete|apply no_new_keys_refl]. }
  exists c'. split_and!; [done|done|by exists (mkLock 0 s)|done|].
  eapply (cache_contents_local c c' k l s (λ m, if hit then delete k m else m)); try done.
  - intros m m' k' Hm. destruct hit; [|done]. destruct (decide (k = k')) as [<-|]; by simplify_map_eq.
  - intros m k' Hne. destruct hit; [by rewrite lookup_delete_ne|done].
Qed.

(** [remove_if_mut] stores the value its predicate leaves behind, or
    removes the pair and returns it with that value. *)
Lemma remove_if_mut_effect c k f :
  cache_ok c → unlocked c k →
  ∃ c' r, _remove_if_mut k f c ⇓ (c', r) ∧ cache_ok c' ∧ unlocked c' k ∧ same_except (route c k) c c' ∧
    match cache_contents c !! k with
    | Some v =>
        let '(v', yes) := f k v in
        r = (if yes : bool then Some (k, v') else None) ∧
        cache_contents c' = if yes then delete k (cache_contents c) else <[k := v']> (cache_contents c)
    | None => r = None ∧ cache_contents c' = cache_contents c
    end.
Proof.
  intros Hc (l & Hl & Hw). destruct (home_index _ _ _ Hc Hl) as (i & _ & _ & _ & Hinv).
  destruct (shard_remove_if_mut_ok k f (lock_data l) (li_shard _ _ _ Hinv))
    as (s & r & Hs & Hst & _ & Hcase). rewrite (cache_contents_lookup c k l Hc Hl).
  assert (Hg : ∃ g : gmap K V → gmap K V, contents s = g (contents (lock_data l)) ∧
    (∀ m m' k', m !! k' = m' !! k' → g m !! k' = g m' !! k') ∧
    (∀ m k', k' ≠ k → g m !! k' = m !! k') ∧ (∀ m, no_new_keys_but k m (g m)) ∧
    ∀ c', cache_contents c' = g (cache_contents c) →
      match contents (lock_data l) !! k with
      | Some v => let '(v', yes) := f k v in r = (if yes : bool then Some (k, v') else None) ∧
          cache_contents c' = if yes then delete k (cache_contents c) else <[k := v']> (cache_contents c)
      | None => r = None ∧ cache_contents c' = cache_contents c
      end).
  { destruct (contents (lock_data l) !! k) as [v|] eqn:Hk.
    2:{ destruct Hcase as [-> Hcont]. exists id. split_and!; auto using no_new_keys_refl. }
    destruct (f k v) as [v' yes]. destruct Hcase as [-> Hcont].
    exists (λ m, if yes then delete k m else <[k := v']> m). split; [done|]. split_and!.
    - intros m m' k' Hm. destruct yes, (decide (k = k')) as [<-|]; by simplify_map_eq.
    - intros m k' Hne. destruct yes; by simplify_map_eq.
    - intros m. destruct yes; [apply no_new_keys_delete|apply no_new_keys_insert].
    - by intros c' ->. }
  destruct Hg as (g & Hcont & Hloc & Hoth & Hnew & Hres).
  destruct (keyed_write_ok (shard_remove_if_mut k f) c k l s _ Hc Hl Hw Hs Hst)
    as (c' & Hrun & Hc' & Hsame & Hhome & Hcc); [rewrite Hcont; apply Hnew|].
  exists c', r. split_and!; [done|done|by exists (mkLock 0 s)|done|]. apply Hres.
  by eapply (cache_contents_local c c' k l s g).
Qed.

(** The shard of [k] can be read: it is free, or only readers hold it. *)
Definition readable_at c k : Prop :=
  ∃ l w, home c k l ∧ lock_shared (lock_word l) ⇓ w.

(** Reading: [view] applies its function to the stored pair and
    [contains_key] tells whether there is one, also while other readers hold
    the shard. The contents, the other shards and the lock of the shard are
    afterwards as before (only frequencies may differ). *)
Lemma view_and_contains {R} c k (f : K → V → R) :
  cache_ok c → readable_at c k →
  ∃ l c1 c2, home c k l ∧
    _view k f c ⇓ (c1, f k <$> cache_contents c !! k) ∧ looked_up k (lock_word l) c c1 ∧
    _contains_key k c ⇓ (c2, bool_decide (is_Some (cache_contents c !! k))) ∧
    looked_up k (lock_word l) c c2.
Proof.
  intros Hc (l & w & Hl & Hw). destruct (get_then_drop c k l w Hc Hl Hw) as (c' & r & Hget & Hcase).
  exists l. unfold _view, _contains_key. rewrite Hget. cbn.
  destruct (cache_contents c !! k) as [v|].
  - destruct Hcase as (g & c2 & -> & Hg & Hdrop & Hlu). exists c2, c2.
    cbn. rewrite Hg. cbn. rewrite Hdrop. by split_and!.
  - destruct Hcase as [-> Hlu]. by exists c', c'.
Qed.

Lemma alter_ok c k f :
  cache_ok c → unlocked c k →
  match cache_contents c !! k with
  | Some v =>
      match f k v with
      | Ret v' => ∃ c', _alter k f c ⇓ c' ∧ cache_ok c' ∧ unlocked c' k ∧ same_except (route c k) c c' ∧
          cache_contents c' = <[k := v']> (cache_contents c)
      | Panic => _alter k f c = Abort
      | _ => True
      end
  | None => ∃ c', _alter k f c ⇓ c' ∧ looked_up k 0 c c'
  end.
Proof.
  intros Hc (l & Hl & Hw). destruct (cache_get_mut_ok c k l Hc Hl Hw) as (c1 & r & Hget & Hcase).
  unfold _alter. rewrite Hget. cbn. destruct (cache_contents c !! k) as [v|].
  2:{ destruct Hcase as [-> Hlu]. by exists c1. }
  destruct Hcase as (Hlu & g & -> & Hz & Hg). unfold refmut_pair, map_in_place_2. rewrite Hg. cbn.
  destruct (f k v) as [v'| | | | |] eqn:Hf; try done. cbn.
  destruct Hlu as [Hc1 Hsame Hcont (l1 & Hl1 & Hw1)].
  destruct (held_set_ok c1 _ _ k v v' l1 Hc1 Hl1 (conj Hz Hg))
    as (c2 & l2 & Hset & Hc2 & Hsame2 & _ & Hl2 & Hw2 & Hcont2).
  destruct (held_drop_ok c2 k l2 Hc2 Hl2) as (c3 & Hdrop & [Hc3 Hsame3 Hcont3 Hw3]); [congruence|].
  exists c3. unfold refmut_set, drop_refmut. rewrite Hset. cbn.
  rewrite Hz, <-(same_route c1 c2 k (se_shift _ _ _ Hsame2)), Hdrop. split_and!; [done..| |congruence].
  eapply same_except_trans; [done|]. by eapply same_except_trans.
Qed.

(** A loop over all shards whose body does what [f] says. *)
Lemma retain_all_ok {St} (f : St → K → V → St * (V * bool)) body st c :
  retains f body → cache_ok c → quiescent c →
  ∃ kvs c', kvs ≡ₚ map_to_list (cache_contents c) ∧
    for_write body st (all_shards c) c ⇓ (c', (retain_pairs f st kvs).1) ∧
    cache_ok c' ∧ quiescent c' ∧ same_params c c' ∧
    cache_contents c' = list_to_map (retain_pairs f st kvs).2.
Proof.
  intros Hbody Hc Hq. destruct (all_shards_spec c) as [Hnd Hlen].
  destruct (retain_loop_ok f body st (all_shards c) c Hbody Hc Hq Hnd Hlen)
    as (kvs & c' & Hp & Hrun & Hc' & Hq' & Hpar & Hcont).
  assert (Hall : ∀ k, Z.to_nat (route c k) ∈ all_shards c).
  { intros k. pose proof (proj2 (shard_of_route c k (co_geometry _ Hc))).
    unfold all_shards, _shard_count in *. apply elem_of_seq. lia. }
  exists kvs, c'. split_and!; try done.
  - rewrite Hp. unfold routed. rewrite map_filter_id; [done|]. intros k v _. apply Hall.
  - apply map_eq. intros k. by rewrite Hcont, decide_True.
Qed.

Lemma retain_ok {St} (f : St → K → V → St * (V * bool)) st c :
  cache_ok c → quiescent c →
  ∃ kvs c', kvs ≡ₚ map_to_list (cache_contents c) ∧
    _retain f st c ⇓ (c', (retain_pairs f st kvs).1) ∧ cache_ok c' ∧ quiescent c' ∧ same_params c c' ∧
    cache_contents c' = list_to_map (retain_pairs f st kvs).2.
Proof.
  apply retain_all_ok. intros st0 s Hs.
  destruct (shard_retain_ok f st0 s Hs) as (kvs & s' & Hp & Hrun & Hst & _ & Hcont).
  exists kvs, s'. by rewrite Hrun.
Qed.

Lemma clear_ok c :
  cache_ok c → quiescent c →
  ∃ c', clear c ⇓ c' ∧ cache_ok c' ∧ quiescent c' ∧ same_params c c' ∧ cache_contents c' = ∅ ∧
    ∀ i l, shards c' !! i = Some l →
      let s := lock_data l in
      shard_live s = 0 ∧ small_keys s = [] ∧ main_keys s = [] ∧ ghost_set s = ∅.
Proof.
  intros Hc Hq. destruct (all_shards_spec c) as [Hnd Hlen]. unfold clear.
  destruct (for_write_ok (λ (st : unit) s, s ← clear_all s; Ret (s, st))
    (λ s s', contents s' = ∅ ∧ shard_live s' = 0 ∧ small_keys s' = [] ∧ main_keys s' = [] ∧ ghost_set s' = ∅)
    tt (all_shards c) c) as (c' & st' & Hrun & Hc' & Hq' & Hpar & Hsh); [|done..|].
  { intros st s Hs. destruct (shard_clear_ok s Hs) as (s' & Hs' & Hst & Hcont & Hlive & Hsm & Hma & Hg & _).
    exists s', st. rewrite Hs'. split_and!; try done. intros k. rewrite Hcont, lookup_empty. by intros [? ?]. }
  assert (Hin : ∀ i l, shards c' !! i = Some l → contents (lock_data l) = ∅ ∧
    shard_live (lock_data l) = 0 ∧ small_keys (lock_data l) = [] ∧ main_keys (lock_data l) = [] ∧
    ghost_set (lock_data l) = ∅).
  { intros i l' Hl'. destruct (Hsh _ _ Hl') as (l & Hl & HP). rewrite decide_True in HP; [done|].
    unfold all_shards. apply elem_of_seq. apply lookup_lt_Some in Hl. lia. }
  exists c'. rewrite Hrun. split_and!; try done.
  - apply (cache_contents_each c c' (λ _, ∅)); [done..| |done].
    intros i l l' _ Hl'. by apply (Hin i).
  - intros i l Hl. by apply (Hin i).
Qed.

Lemma shrink_ok c :
  cache_ok c → quiescent c →
  ∃ c', _shrink_to_fit c ⇓ c' ∧ cache_ok c' ∧ quiescent c' ∧ same_params c c' ∧
    cache_contents c' = cache_contents c.
Proof.
  intros Hc Hq. destruct (all_shards_spec c) as [Hnd Hlen]. unfold _shrink_to_fit.
  destruct (for_write_ok (λ (st : unit) s, Ret (shard_shrink_to_fit s, st))
    (λ s s', contents s' = contents s) tt (all_shards c) c)
    as (c' & st' & Hrun & Hc' & Hq' & Hpar & Hsh); [|done..|].
  { intros st s Hs. destruct (shard_shrink_ok s Hs) as (Hst & Hcont & _).
    eexists _, st. split; [done|]. split_and!; [done| |done]. intros k. by rewrite Hcont. }
  exists c'. rewrite Hrun. split_and!; try done.
  apply (cache_contents_each c c' id); [done..| |done].
  intros i l l' Hl Hl'. destruct (Hsh _ _ Hl') as (l0 & Hl0 & HP). rewrite decide_True in HP.
  - assert (l0 = l) as -> by congruence. done.
  - unfold all_shards. apply elem_of_seq. apply lookup_lt_Some in Hl. lia.
Qed.
End effects.
