(* ===== verification/EntrySpec.v ===== *)
(** * EntrySpec: entries and held shards

    What the search, insertion, removal and replacement through a bucket do to
    the contents of a shard, and what the cache looks like while the write lock
    of a shard is held by an entry, and after the entry is consumed. *)

From stdpp Require Import base gmap list.
From S2P Require Import Prelude Machine Lock RawTable Util Shard ShardOps ShardModel ShardSim.
From S2P Require Import Evict Safety Exact ShardSpec TryResult Cache Entry CacheSpec.

Open Scope Z_scope.

Section shard.
Context {K V : Type} `{Countable K} `{!BuildHasher K} `{!Target}.
Context `{!RawTable (K * CacheEntry V)} `{!RawTableSpec (K * CacheEntry V)}.
Implicit Types (s : ShardData K V) (k : K) (v : V).

(** The combined search keeps the pairs; it finds the bucket of the key or a
    slot for it. *)
Lemma search_ok k s t r :
  shard_ok s → rt_find_or_find_insert_slot (smap s) (hash_one k) (key_eq k) key_hash = (t, r) →
  shard_step s (set_map t s) ∧ contents (set_map t s) = contents s ∧
  match r with
  | inl b => ∃ v, contents s !! k = Some v ∧ bucket_pair b (set_map t s) ⇓ (k, v)
  | inr i => contents s !! k = None ∧ rt_slot_valid t (hash_one k) i
  end.
Proof.
  intros (a & Hrel & Hi) Hf. destruct (find_or_slot_sim s a k t r Hrel Hf) as [Hrel' Hr].
  destruct (shard_same_ok s (set_map t s) a Hrel Hi Hrel') as (Hst & Hcont & _).
  split_and!; [done..|]. rewrite (contents_rel _ _ Hrel), m_contents_lookup. destruct r as [b|i].
  - destruct Hr as (e & -> & Hb). exists (value e). split; [done|]. by apply (bucket_pair_sim _ _ k).
  - by destruct Hr as [-> Hslot].
Qed.

Lemma insert_vacant_ok k v s i :
  shard_ok s → countable s → contents s !! k = None → rt_slot_valid (smap s) (hash_one k) i →
  ∃ s' b, insert_vacant k (hash_one k) i v s ⇓ (s', b) ∧ shard_step s s' ∧
    bucket_pair b s' ⇓ (k, v) ∧
    insert_effect k v (shard_full s) (contents s) (contents s').
Proof.
  intros (a & Hrel & Hi) Hc Hk Hslot.
  pose proof (countable_rel _ _ Hrel Hc) as Hhead.
  assert (Hk' : m_map a !! k = None)
    by (rewrite (contents_rel _ _ Hrel), m_contents_lookup in Hk; by apply fmap_None in Hk).
  destruct (m_insert_spec k v a Hi Hhead) as (a' & Ha' & Hi' & Hcap & _ & Hl & Heff).
  unfold m_insert in Ha'. rewrite Hk' in Ha'. apply bind_Ret in Ha' as (a1 & Ha1 & [= <- _]).
  destruct (outcome_rel_Ret_r _ _ _ _ (insert_vacant_sim s a k v i Hrel Hk' Hslot) Ha1)
    as ([s' b] & Hs' & Hrel' & e & Hb & Hv). cbn in Hrel', Hb.
  exists s', b. split_and!; [done|by eapply shard_step_rel|rewrite <-Hv; by apply bucket_pair_sim|].
  rewrite (contents_rel _ _ Hrel), (contents_rel _ _ Hrel').
  destruct Heff as [Hh Ho Hro Hf]. pose proof (shard_full_rel _ _ Hrel) as Hfull.
  constructor; [done..| |]; [intros [?|?]|intros ??]; (apply Hro || apply Hf); auto;
    [right; by rewrite <-Hfull | by rewrite <-Hfull].
Qed.

Lemma remove_bucket_ok b k v s :
  shard_ok s → bucket_pair b s ⇓ (k, v) →
  ∃ s', remove_bucket b s ⇓ (s', (k, v)) ∧ shard_step s s' ∧ contents s' = delete k (contents s).
Proof.
  intros (a & Hrel & Hi) Hb. destruct (bucket_pair_at _ _ _ _ _ Hrel Hb) as (e & He & <-).
  destruct (remove_bucket_sim s a b k e Hrel He) as (s' & Hs' & Hrel').
  destruct (m_remove_stats k a Hi) as [Hc Hl]. destruct (inv_remove k a Hi) as [Hi' _].
  exists s'. split_and!; [done|eapply shard_step_rel; [done..|lia]|].
  by rewrite (contents_rel _ _ Hrel), (contents_rel _ _ Hrel'), m_remove_contents.
Qed.

(** Overwriting an entry by one with the same key, location and frequency. *)
Lemma bucket_replace_ok b k v w s :
  shard_ok s → bucket_pair b s ⇓ (k, w) →
  ∃ e t, rt_as_ref (smap s) b = Some (k, e) ∧ value e = w ∧
    rt_write (smap s) b (k, with_freq (freq e) (entry_new v (loc e))) = Some t ∧
    shard_step s (set_map t s) ∧ contents (set_map t s) = <[k := v]> (contents s) ∧
    (k, e) ∈ rt_into_iter (smap s) ∧ (k, mkEntry v (freq e) (loc e)) ∈ rt_into_iter t.
Proof.
  intros (a & Hrel & Hi) Hb. destruct (bucket_pair_at _ _ _ _ _ Hrel Hb) as (e & He & Hw).
  pose proof (at_bucket_model _ _ _ _ _ Hrel He) as Hk.
  destruct (bucket_write_sim s a b k e (with_value v e) Hrel He) as (t & Ht & [Hrel' _] & _).
  exists e, t. split_and!; [by apply (repr_as_ref _ _ (hash_one k))|done|done| | | |].
  - eapply shard_step_rel; [done..|by apply inv_set_value|done|]. unfold live. cbn. lia.
  - rewrite (contents_rel _ _ Hrel), (contents_rel _ _ Hrel'). apply m_replace_contents.
  - by rewrite (repr_into_iter _ _ (rel_map _ _ Hrel)), elem_of_map_to_list.
  - change t with (smap (set_map t s)). rewrite (repr_into_iter _ _ (rel_map _ _ Hrel')).
    apply elem_of_map_to_list, lookup_insert_eq.
Qed.
End shard.

Section cache.
Context {K V : Type} `{Countable K} `{!BuildHasher K} `{!Target}.
Context `{!RawTable (K * CacheEntry V)} `{!RawTableSpec (K * CacheEntry V)}.
Implicit Types (c : NeoCache K V) (s : ShardData K V) (k : K) (v : V).

(** Access to the shard of [k] while its lock is held. *)
Section held.
Context c k l (Hc : cache_ok c) (Hl : home c k l).

Lemma guarded_held l' : guarded (route c k) (set_shard (route c k) l' c) ⇓ lock_data l'.
Proof. destruct (home_index _ _ _ Hc Hl) as (i & -> & Hi & _). by eapply guarded_set. Qed.

Lemma set_guarded_held l' s :
  set_guarded (route c k) s (set_shard (route c k) l' c) ⇓
    set_shard (route c k) (mkLock (lock_word l') s) c.
Proof. destruct (home_index _ _ _ Hc Hl) as (i & -> & Hi & _). by eapply set_guarded_set. Qed.

Lemma drop_write_held s :
  drop_write (route c k) (set_shard (route c k) (mkLock ONE_WRITER s) c) ⇓
    set_shard (route c k) (mkLock 0 s) c.
Proof. destruct (home_index _ _ _ Hc Hl) as (i & -> & Hi & _). by eapply drop_write_set. Qed.

(** [_entry] locks the shard and finds the key or a slot for it. *)
Lemma entry_ok :
  lock_word l = 0 →
  ∃ t e, let s := set_map t (lock_data l) in
    _entry k c ⇓ (set_shard (route c k) (mkLock ONE_WRITER s) c, e) ∧
    shard_step (lock_data l) s ∧ contents s = contents (lock_data l) ∧
    match e with
    | Occupied o => ∃ b v, o = mkOccupied (route c k) b k ∧
        contents (lock_data l) !! k = Some v ∧ bucket_pair b s ⇓ (k, v)
    | Vacant w => ∃ i, w = mkVacant (route c k) k (hash_one k) i ∧
        contents (lock_data l) !! k = None ∧ rt_slot_valid t (hash_one k) i
    end.
Proof.
  intros Hw. destruct (home_index _ _ _ Hc Hl) as (i & Hr & Hi & Hs & Hinv).
  destruct (rt_find_or_find_insert_slot (smap (lock_data l)) (hash_one k) (key_eq k) key_hash)
    as [t r] eqn:Hf.
  destruct (search_ok k (lock_data l) t r (li_shard _ _ _ Hinv) Hf) as (Hst & Hcont & Hcase).
  unfold _entry, entry_search. rewrite Hs. cbn [mbind outcome_bind].
  rewrite (yield_write _ _ _ Hi), Hw, lock_exclusive_free, <-Hr. cbn [mbind outcome_bind].
  rewrite guarded_held. cbn [mbind outcome_bind lock_data]. unfold hash_u64. rewrite Hf.
  rewrite set_guarded_held. cbn [mbind outcome_bind lock_word].
  destruct r as [b|slot].
  - destruct Hcase as (v & Hv & Hb). eexists t, _. split_and!; [done..|]. by exists b, v.
  - destruct Hcase as [Hk Hslot]. eexists t, _. split_and!; [done..|]. by exists slot.
Qed.
End held.

Lemma ONE_WRITER_ok : lock_ok ONE_WRITER.
Proof.
  exists Writer. split; [done|]. rewrite ONE_WRITER_max. unfold encode. cbn [readers_field]. lia.
Qed.

(** The cache while an entry is live: the lock of the shard is held, an occupied
    entry points to the pair of its key, a vacant one can be filled. *)
Lemma entry_held c k :
  cache_ok c → unlocked c k →
  ∃ c1 e, _entry k c ⇓ (c1, e) ∧ looked_up k ONE_WRITER c c1 ∧
    match e with
    | Occupied o => ∃ v, cache_contents c !! k = Some v ∧ points_to (oe_shard o) (oe_bucket o) c1 k v
    | Vacant w => cache_contents c !! k = None ∧ ve_shard w = route c k ∧
        (countable_at c k → ∀ v, ∃ c2 g l2, vacant_insert w v c1 ⇓ (c2, g) ∧ cache_ok c2 ∧
           same_except (route c k) c c2 ∧ home c2 k l2 ∧ lock_word l2 = ONE_WRITER ∧
           points_to (refmut_shard g) (refmut_bucket g) c2 k v ∧
           insert_effect k v (full_at c k) (cache_contents c) (cache_contents c2))
    end.
Proof.
  intros Hc (l & Hl & Hw). rewrite (cache_contents_lookup c k l Hc Hl).
  destruct (home_index _ _ _ Hc Hl) as (i & Hr & Hi & _ & Hinv).
  destruct (entry_ok c k l Hc Hl Hw) as (t & e & He & Hst & Hcont & Hcase).
  set (s := set_map t (lock_data l)) in *. eexists _, e. split; [exact He|]. split.
  { rewrite Hr. apply (set_shard_looked_up _ _ _ l); [done..|apply ONE_WRITER_ok]. }
  destruct e as [o|w].
  - destruct Hcase as (b & v & -> & Hk & Hb). exists v. split; [done|]. split; [done|].
    cbn. by rewrite (guarded_held _ _ _ Hc Hl).
  - destruct Hcase as (slot & -> & Hk & Hslot). split_and!; [done..|]. intros Hcount v.
    destruct (insert_vacant_ok k v s slot (step_ok _ _ Hst) (Hcount _ Hl)) as (s' & b & Hins & Hst' & Hb & Heff);
      [by rewrite Hcont|done|].
    unfold vacant_insert. cbn [ve_shard ve_key ve_hash ve_slot].
    rewrite (guarded_held _ _ _ Hc Hl). cbn [mbind outcome_bind lock_data].
    rewrite (proj1 (fill_copies _ _ _ _ _)), Hins.
    cbn [mbind outcome_bind]. rewrite (set_guarded_held _ _ _ Hc Hl). cbn [mbind outcome_bind lock_word].
    rewrite Hcont in Heff.
    assert (Hst2 : shard_step (lock_data l) s').
    { constructor; [apply Hst'|by rewrite (step_cap _ _ Hst'), (step_cap _ _ Hst)|apply Hst']. }
    destruct (home_update c k l s' ONE_WRITER Hc Hl Hst2) as (Hc' & Hsame & Hhome & Hcc);
      [by eapply insert_no_new_keys|apply ONE_WRITER_ok|].
    eexists _, _, _. split; [done|]. split_and!; [done..| |by eapply (insert_effect_lift c _ k v l (mkLock ONE_WRITER s'))].
    split; [done|]. cbn. by rewrite (guarded_held _ _ _ Hc Hl).
Qed.

(** The cache after the entry of a present key was consumed. *)
Lemma consumed_ok c k l s (g : gmap K V → gmap K V) :
  cache_ok c → home c k l → shard_step (lock_data l) s →
  contents s = g (contents (lock_data l)) →
  (∀ m, no_new_keys_but k m (g m)) →
  (∀ m m' k', m !! k' = m' !! k' → g m !! k' = g m' !! k') →
  (∀ m k', k' ≠ k → g m !! k' = m !! k') →
  let c' := set_shard (route c k) (mkLock 0 s) c in
  cache_ok c' ∧ unlocked c' k ∧ cache_contents c' = g (cache_contents c).
Proof.
  intros Hc Hl Hst Hcont Hnew Hloc Hoth.
  destruct (home_update c k l s 0 Hc Hl Hst) as (Hc' & _ & Hhome & Hcc);
    [rewrite Hcont; apply Hnew|apply lock_ok_zero|].
  split_and!; [done|by exists (mkLock 0 s)|]. by eapply (cache_contents_local c _ k l s g).
Qed.

Lemma shard_step_trans_cap s1 s2 s3 :
  shard_step s1 s2 → shard_live s2 = shard_live s1 → shard_step s2 s3 → shard_step s1 s3.
Proof.
  intros [_ Hc1 _] Hl [Hok Hc2 Hl2]. constructor; [done|congruence|lia].
Qed.
End cache.
