(* ===== verification/UnwindSpec.v ===== *)
(** * UnwindSpec: what is left behind when a closure panics

    The operations of Unwind on the pairs of a shard and of the cache. Keyed
    operations replace the value of their key or delete it; [retain] behaves as
    with a closure that keeps every pair after the panic. *)

From stdpp Require Import base gmap list.
From S2P Require Import Prelude Machine Lock RawTable Util Shard ShardOps ShardModel ShardSim.
From S2P Require Import Evict Safety Exact ShardSpec TryResult Cache Entry Unwind CacheSpec CacheEffects EntrySpec.

Open Scope Z_scope.

(** The closure of [retain], until it panics. *)
Definition until_panic {K V St} (f : St → K → V → St * (V * option bool)) (st : option St) (k : K) (v : V) :
    option St * (V * bool) :=
  match st with
  | None => (None, (v, true))
  | Some st =>
      let '(st', (v', keep)) := f st k v in
      match keep with Some b => (Some st', (v', b)) | None => (None, (v', true)) end
  end.

(** An operation that did not panic. *)
Definition returned {A B} (o : outcome (A * B)) : outcome (A * option B) :=
  '(a, b) ← o; Ret (a, Some b).

(** The pairs after an insertion of [k] that stopped before the pair was
    stored: those of the whole insertion, without [k]. *)
Definition abandoned `{Countable K} {V} (k : K) (v : V) (full : Prop) (m m' : gmap K V) : Prop :=
  ∃ m1, insert_effect k v full m m1 ∧ m' = delete k m1.

Section shard.
Context {K V : Type} `{Countable K} `{!BuildHasher K} `{!Target}.
Context `{!RawTable (K * CacheEntry V)} `{!RawTableSpec (K * CacheEntry V)}.
Implicit Types (s : ShardData K V) (k : K) (v : V) (m : gmap K V).

(** An operation on the shard of [k] that leaves [new] as its value. *)
Definition sets k (new : option V) s s' : Prop :=
  shard_step s s' ∧ contents s' = partial_alter (λ _, new) k (contents s).

Lemma sets_same k s : shard_ok s → sets k (contents s !! k) s s.
Proof. intros Hs. split; [by apply shard_step_refl|]. by rewrite partial_alter_self. Qed.

(** Writing the value of a present key keeps the counters. *)
Lemma write_step b k v w s :
  shard_ok s → bucket_pair b s ⇓ (k, w) →
  ∃ s', bucket_set b v s ⇓ s' ∧ sets k (Some v) s s' ∧ shard_live s' = shard_live s ∧ bucket_pair b s' ⇓ (k, v).
Proof.
  intros Hs Hb. destruct (bucket_set_ok b k v w s Hs Hb) as (s' & Hset & Hst & Hd & Hcont & Hb').
  exists s'. split_and!; [done|done| |done]. apply same_size_live; [done|apply Hst|done|].
  rewrite Hcont. apply map_size_insert_Some. exists w. by eapply bucket_contents.
Qed.

Lemma shard_remove_if_unwind_ok k f s :
  shard_ok s →
  ∃ s' r new, shard_remove_if_unwind k f s ⇓ (s', r) ∧ sets k new s s' ∧
    match contents s !! k with
    | Some v =>
        match f k v with
        | None => new = Some v ∧ r = None
        | Some true => new = None ∧ r = Some (Some (k, v))
        | Some false => new = Some v ∧ r = Some None
        end
    | None => new = None ∧ r = Some None
    end.
Proof.
  intros Hs. pose proof (find_bucket k s Hs) as Hf. pose proof (sets_same k s Hs) as Hid.
  unfold shard_remove_if_unwind. destruct (contents s !! k) as [v|] eqn:Hk.
  2:{ rewrite Hf. by eexists s, _, _. }
  destruct Hf as (b & e & -> & Hr & <- & Hb). rewrite Hr. cbn. unfold shared_get.
  destruct (f k (value e)) as [[]|]; [|by eexists s, _, _..].
  destruct (remove_bucket_ok b k _ s Hs Hb) as (s' & -> & Hst & Hcont). by eexists s', _, None.
Qed.

Lemma shard_remove_if_mut_unwind_ok k f s :
  shard_ok s →
  ∃ s' r new, shard_remove_if_mut_unwind k f s ⇓ (s', r) ∧ sets k new s s' ∧
    match contents s !! k with
    | Some v =>
        match (f k v).2 with
        | None => new = Some (f k v).1 ∧ r = None
        | Some true => new = None ∧ r = Some (Some (k, (f k v).1))
        | Some false => new = Some (f k v).1 ∧ r = Some None
        end
    | None => new = None ∧ r = Some None
    end.
Proof.
  intros Hs. pose proof (find_bucket k s Hs) as Hf. pose proof (sets_same k s Hs) as Hid.
  unfold shard_remove_if_mut_unwind. destruct (contents s !! k) as [v|] eqn:Hk.
  2:{ rewrite Hf. by eexists s, _, _. }
  destruct Hf as (b & e & -> & Hr & <- & Hb). rewrite Hr. cbn [deref mbind outcome_bind].
  destruct (f k (value e)) as [v' yes] eqn:Hfk. cbn [fst snd].
  destruct (write_step b k v' _ s Hs Hb) as (s1 & Hset & Hs1 & Hlive & Hb1).
  unfold bucket_set in Hset. rewrite Hr in Hset. cbn [deref mbind outcome_bind] in Hset.
  apply bind_Ret in Hset as (t & -> & [= <-]). cbn [mbind outcome_bind].
  destruct yes as [[]|]; [|by eexists _, _, _..]. pose proof Hs1 as [Hst1 Hc1].
  destruct (remove_bucket_ok b k v' _ (step_ok _ _ Hst1) Hb1) as (s' & -> & Hst & Hcont).
  eexists s', _, None. split; [done|]. split; [|done]. split; [by eapply shard_step_trans_cap|].
  rewrite Hcont, Hc1. exact (delete_insert_eq (contents s) k v').
Qed.

(** *** Insertions *)

Lemma insert_vacant_clones k h i v s :
  insert_vacant_unwind true k h i v s = returned (insert_vacant k h i v s).
Proof.
  unfold insert_vacant_unwind, insert_vacant, returned. destruct (make_room _) as [s1| | | | |]; [cbn|done..].
  destruct (rt_insert_in_slot _ _ _ _) as [[t b]|]; [cbn|done]. by destruct (enqueue _ _ _ _).
Qed.

Lemma vacant_fill_copy cl k h i v s : vacant_fill_unwind cl k h i v s = insert_vacant_unwind cl k h i v s.
Proof.
  unfold vacant_fill_unwind, insert_vacant_unwind, make_room.
  set (s0 := set_ghost _ _). by destruct (room_copies (room_fuel s0) s0) as [-> _].
Qed.

Lemma shard_insert_clones k v s : shard_insert_unwind true k v s = returned (shard_insert k v s).
Proof.
  unfold shard_insert_unwind, shard_insert. destruct (rt_find_or_find_insert_slot _ _ _ _) as [t [b|i]].
  - destruct (rt_as_ref _ _) as [[k0 e]|]; [cbn|done]. by destruct (rt_write _ _ _).
  - rewrite insert_vacant_clones. unfold returned. by destruct (insert_vacant _ _ _ _ _) as [[]| | | | |].
Qed.

(** The clone panics: the room was made, and nothing is stored. [s1] is the
    shard of the same insertion without the panic. *)
Lemma insert_vacant_panics k v s i :
  shard_ok s → countable s → contents s !! k = None → rt_slot_valid (smap s) (hash_one k) i →
  ∃ s' s1, insert_vacant_unwind false k (hash_one k) i v s ⇓ (s', None) ∧ shard_step s s' ∧ shard_step s s1 ∧
    insert_effect k v (shard_full s) (contents s) (contents s1) ∧ contents s' = delete k (contents s1).
Proof.
  intros Hs Hcount Hk Hslot. destruct (insert_vacant_ok k v s i Hs Hcount Hk Hslot) as (s1 & b & Hins & Hst1 & _ & Heff).
  destruct Hs as (a & Hrel & Hi).
  assert (Hk' : m_map a !! k = None)
    by (rewrite (contents_rel _ _ Hrel), m_contents_lookup in Hk; by apply fmap_None in Hk).
  destruct (m_insert_vacant_returns k v a Hi Hk' (countable_rel _ _ Hrel Hcount)) as (a1 & Hr & Hk1 & Ha & _ & _ & Ha1).
  destruct (set_ghost_rel _ _ _ (m_ghost a ∖ {[hash_one k]}) (evict_rel_refl _ _ Hrel)) as [Hrel0 _].
  destruct (outcome_rel_Ret_r _ _ _ _ (make_room_sim _ _ Hrel0) Ha1) as (s' & Hs' & Hrel' & _).
  destruct (outcome_rel_Ret_r _ _ _ _ (insert_vacant_sim s a k v i Hrel Hk' Hslot) Ha) as ([s2 b2] & Hs2 & Hrel2 & _).
  rewrite Hins in Hs2. injection Hs2 as <- <-. cbn [fst] in Hrel2. exists s', s1.
  split_and!; [| |done|done|].
  - unfold insert_vacant_unwind. rewrite (rel_ghost _ _ Hrel), Hs'. done.
  - apply (shard_step_rel s s' a a1); [done..|apply (room_inv _ _ Hr)|apply (room_cap _ _ Hr)|]. pose proof (shrinks_count _ _ (room_shrinks _ _ Hr)). pose proof (room_drift _ _ Hr) as Hd.
    unfold drift, live, count in *. cbn in *. lia.
  - rewrite (contents_rel _ _ Hrel'), (contents_rel _ _ Hrel2), enqueued_contents.
    symmetry. apply delete_insert_id. by rewrite m_contents_lookup, Hk1.
Qed.

(** The clone of a new key is the only one that can panic. *)
Lemma shard_insert_unwind_ok (cl : bool) k v s :
  shard_ok s → countable s →
  ∃ s', shard_step s s' ∧
    if decide (cl = false ∧ contents s !! k = None) then
      shard_insert_unwind cl k v s ⇓ (s', None) ∧
      ∃ s1, shard_step s s1 ∧ insert_effect k v (shard_full s) (contents s) (contents s1) ∧
        contents s' = delete k (contents s1)
    else
      shard_insert_unwind cl k v s ⇓ (s', Some (contents s !! k)) ∧
      insert_effect k v (shard_full s) (contents s) (contents s').
Proof.
  intros Hs Hcount. destruct (decide _) as [[-> Hk]|Hn].
  - unfold shard_insert_unwind. destruct (rt_find_or_find_insert_slot _ _ _ _) as [t r] eqn:Hf.
    destruct (search_ok k s t r Hs Hf) as (Hst & Hcont & Hr). destruct r as [b|i].
    { destruct Hr as (v0 & Hv0 & _). congruence. }
    destruct Hr as [_ Hslot]. rewrite <-Hcont in Hk.
    destruct (insert_vacant_panics k v _ i (step_ok _ _ Hst) Hcount Hk Hslot) as (s' & s1 & Hrun & Hst' & Hst1 & Heff & Hdel).
    exists s'. split; [by eapply shard_step_trans_cap|]. rewrite Hrun. split; [done|]. exists s1.
    rewrite <-Hcont. split_and!; [by eapply shard_step_trans_cap|done|done].
  - destruct (shard_insert_ok k v s Hs Hcount) as (s' & Hrun & Hst & _ & Heff). exists s'. split_and!; [done| |done].
    transitivity (returned (shard_insert k v s)); [|by rewrite Hrun]. destruct cl; [by apply shard_insert_clones|].
    unfold shard_insert_unwind, shard_insert. destruct (rt_find_or_find_insert_slot _ _ _ _) as [t r] eqn:Hf.
    destruct (search_ok k s t r Hs Hf) as (_ & _ & Hr). destruct r as [b|i]; [|destruct Hr; tauto].
    destruct (rt_as_ref _ _) as [[k0 e]|]; [cbn|done]. by destruct (rt_write _ _ _).
Qed.

(** *** [retain] *)

(** After the panic nothing changes. *)
Lemma retain_after_panic {St} (f : St → K → V → St * (V * option bool)) ks (a : Model K V) :
  m_retain (until_panic f) None ks a = (None, a).
Proof.
  revert a. induction ks as [|k ks IH]; intros a; [done|]. cbn. destruct (m_map a !! k) as [e|] eqn:Hk; [|apply IH].
  rewrite IH. f_equal. unfold m_set_map. rewrite insert_id; [by destruct a|]. by destruct e.
Qed.

Lemma retain_loop_unwind_sim {St} (f : St → K → V → St * (V * option bool)) st bs ks s (a : Model K V) :
  NoDup bs → Forall2 (bucket_of s) bs ks → shard_rel s a →
  ∃ s', retain_loop_unwind f st bs s ⇓ (s', (m_retain (until_panic f) (Some st) ks a).1) ∧
        shard_rel s' (m_retain (until_panic f) (Some st) ks a).2.
Proof.
  intros Hnd Hbs. revert st s a Hnd Hbs.
  induction bs as [|b bs IH] in ks |- *; intros st s a Hnd Hbs Hrel.
  { apply Forall2_nil_inv_l in Hbs as ->. by exists s. }
  apply NoDup_cons in Hnd as [Hb Hnd].
  apply Forall2_cons_inv_l in Hbs as (k & ks' & [e Hbk] & Hbs & ->). cbn [m_retain until_panic].
  rewrite (at_bucket_model _ _ _ _ _ Hrel Hbk). cbn [retain_loop_unwind].
  cbn_rewrite (repr_as_ref _ _ _ _ Hbk). unfold shared_get_mut.
  destruct (f st k (value e)) as [st' [v' keep]].
  destruct (bucket_write_sim _ _ _ _ _ (with_value v' e) Hrel Hbk) as (t & Ht & [Hrel1 _] & Hv).
  cbn_rewrite Ht.
  assert (Hother : ∀ t2, (∀ b', b' ≠ b → rt_view t2 !! b' = rt_view (smap s) !! b') →
    ∀ s2, smap s2 = t2 → Forall2 (bucket_of s2) bs ks').
  { intros t2 Ht2 s2 Hs2. eapply Forall2_impl_in; [exact Hbs|].
    intros b' k' Hb' [e' He']. exists e'. unfold at_bucket in *. rewrite Hs2, Ht2; [done|].
    by intros ->. }
  destruct keep as [[]|]; cbn.
  - apply IH; [done| |done]. apply (Hother t); [|done].
    intros b' Hne. by rewrite Hv, lookup_insert_ne.
  - assert (Hb1 : rt_view t !! b = Some (hash_one k, (k, with_value v' e))).
    { by rewrite Hv, lookup_insert_eq. }
    destruct (rt_erase_spec _ _ _ _ Hb1) as (t2 & Ht2 & Hv2). cbn_rewrite Ht2.
    apply IH; [done| |].
    + apply (Hother t2); [|unfold uncount; by case_match].
      intros b' Hne. by rewrite Hv2, lookup_delete_ne, Hv, lookup_insert_ne.
    + unfold m_remove. cbn. rewrite lookup_insert_eq. cbn. apply uncount_rel.
      destruct Hrel1 as [Hr]. constructor; cbn; try done. by eapply repr_delete.
  - rewrite retain_after_panic. by eexists.
Qed.

(** The body of [retain] for one shard; after a panic, shards are left alone. *)
Definition retain_body {St} (f : St → K → V → St * (V * option bool)) (st : option St) s :
    outcome (ShardData K V * option St) :=
  match st with
  | Some st => retain_loop_unwind f st (rt_iter (smap s)) s
  | None => Ret (s, None)
  end.

Lemma retain_pairs_after_panic {St} (f : St → K → V → St * (V * option bool)) (kvs : list (K * V)) :
  retain_pairs (until_panic f) None kvs = (None, kvs).
Proof. induction kvs as [|[k v] kvs IH]; [done|]. cbn. by rewrite IH. Qed.

Lemma retain_body_ok {St} (f : St → K → V → St * (V * option bool)) : retains (until_panic f) (retain_body f).
Proof.
  intros [st|] s Hs.
  - destruct Hs as (a & Hrel & Hi). destruct (iter_keys _ _ Hrel) as (ks & Hks & Hp).
    destruct (retain_loop_unwind_sim f st _ ks s a (proj1 (rt_iter_spec _)) Hks Hrel) as (s' & Hrun & Hrel').
    destruct (retain_model_ok _ _ s s' ks a Hrel Hi Hp Hrel') as (kvs & Hkvs & Hst & Hstep & _ & Hcont).
    exists kvs, s'. by rewrite <-Hst.
  - exists (map_to_list (contents s)), s. rewrite retain_pairs_after_panic. cbn.
    split_and!; [done|done|by apply shard_step_refl|]. by rewrite list_to_map_to_list.
Qed.
End shard.

Section cache.
Context {K V : Type} `{Countable K} `{!BuildHasher K} `{!Target}.
Context `{!RawTable (K * CacheEntry V)} `{!RawTableSpec (K * CacheEntry V)}.
Implicit Types (c : NeoCache K V) (s : ShardData K V) (k : K) (v : V).

(** The cache after an unwound operation: usable, with all locks free. *)
Record usable c c' : Prop := {
  us_ok : cache_ok c';
  us_free : quiescent c';
  us_params : same_params c c'
}.

Lemma usable_at c c' k :
  cache_ok c → quiescent c → cache_ok c' → unlocked c' k → same_except (route c k) c c' → usable c c'.
Proof.
  intros Hc Hq Hc' Hu Hsame. constructor; [done|by apply (same_except_quiescent c c' k)|by destruct Hsame].
Qed.

Lemma alter_local k (new : option V) :
  (∀ (m m' : gmap K V) k', m !! k' = m' !! k' →
     partial_alter (λ _, new) k m !! k' = partial_alter (λ _, new) k m' !! k') ∧
  (∀ (m : gmap K V) k', k' ≠ k → partial_alter (λ _, new) k m !! k' = m !! k') ∧
  (∀ m : gmap K V, no_new_keys_but k m (partial_alter (λ _, new) k m)).
Proof.
  split_and!.
  - intros m m' k' Hm. destruct (decide (k = k')) as [<-|].
    + by rewrite !lookup_partial_alter_eq.
    + by rewrite !lookup_partial_alter_ne.
  - intros m k' Hne. by rewrite lookup_partial_alter_ne.
  - intros m k' Hk'. destruct (decide (k' = k)) as [|Hne]; [by right|left].
    by rewrite lookup_partial_alter_ne in Hk'.
Qed.

(** A keyed operation under the write lock. *)
Lemma keyed_unwind_ok {A} (f : ShardData K V → outcome (ShardData K V * A)) c k :
  cache_ok c → quiescent c →
  ∃ l, home c k l ∧ cache_contents c !! k = contents (lock_data l) !! k ∧ shard_ok (lock_data l) ∧
  ∀ s a new, f (lock_data l) ⇓ (s, a) → sets k new (lock_data l) s →
    ∃ c', (idx ← shard_of c k; with_write idx f c) ⇓ (c', a) ∧ usable c c' ∧
      cache_contents c' = partial_alter (λ _, new) k (cache_contents c).
Proof.
  intros Hc Hq. destruct (quiescent_unlocked c k Hc Hq) as (l & Hl & Hw). exists l.
  destruct (home_index _ _ _ Hc Hl) as (i & _ & _ & _ & Hinv).
  split_and!; [done|by apply cache_contents_lookup|apply Hinv|]. intros s a new Hf [Hst Hcont].
  destruct (alter_local k new) as (Hloc & Hoth & Hnew).
  destruct (keyed_write_ok f c k l s a Hc Hl Hw Hf Hst) as (c' & Hrun & Hc' & Hsame & Hhome & Hcc);
    [rewrite Hcont; apply Hnew|].
  exists c'. split_and!; [done| |by eapply (cache_contents_local c c' k l s)].
  eapply usable_at; [done..| |done]. by exists (mkLock 0 s).
Qed.

Lemma for_write_idle {St} (f : St → K → V → St * (V * option bool)) is_ c :
  quiescent c → Forall (λ i, i < length (shards c))%nat is_ →
  for_write (retain_body f) None is_ c ⇓ (c, None).
Proof.
  intros Hq Hlen. induction Hlen as [|j is_ Hj _ IH]; [done|]. destruct (lookup_lt_is_Some_2 _ _ Hj) as [l Hl].
  cbn [for_write]. rewrite (with_write_ok _ _ _ l (lock_data l) None Hl (Hq _ _ Hl)) by done.
  cbn [mbind outcome_bind]. replace (set_shard (Z.of_nat j) _ c) with c; [done|].
  unfold set_shard. rewrite Nat2Z.id, list_insert_id; [by destruct c|]. rewrite Hl. f_equal.
  rewrite <-(Hq _ _ Hl). by destruct l.
Qed.

(** [retain]: the loop that stops at a panic does what a loop over all shards
    would do that leaves the rest alone. *)
Lemma retain_shards_for_write {St} (f : St → K → V → St * (V * option bool)) st is_ c c' r :
  cache_ok c → quiescent c → NoDup is_ → Forall (λ i, i < length (shards c))%nat is_ →
  for_write (retain_body f) (Some st) is_ c ⇓ (c', r) → retain_shards_unwind f st is_ c ⇓ (c', r).
Proof.
  revert st c. induction is_ as [|i is_ IH]; intros st c Hc Hq Hnd Hlen; [done|].
  apply NoDup_cons in Hnd as [Hi Hnd]. apply Forall_cons in Hlen as [Hlt Hlen].
  destruct (lookup_lt_is_Some_2 _ _ Hlt) as [l Hl]. pose proof (co_shards _ Hc _ _ Hl) as Hinv.
  destruct (retain_body_ok f (Some st) (lock_data l) (li_shard _ _ _ Hinv)) as (kvs & s & Hp & Hs & Hst & Hcont).
  destruct (for_write_turn (retain_body f) (Some st) _ c i l s Hc Hq Hl Hs Hst) as (Hturn & Hc1 & Hq1 & Hpar1 & _).
  { intros k [v Hv]. apply (retained_keys (until_panic f) (Some st) kvs); [done|]. rewrite Hcont in Hv.
    apply elem_of_list_to_map_2 in Hv. apply list_elem_of_fmap. by exists (k, v). }
  cbn [for_write retain_shards_unwind]. rewrite Hturn. cbn [mbind outcome_bind].
  change (λ s, retain_loop_unwind f st (rt_iter (smap s)) s) with (retain_body f (Some st)). rewrite Hturn.
  cbn [mbind outcome_bind]. set (c1 := set_shard _ _ _) in *.
  assert (Hlen1 : Forall (λ i, i < length (shards c1))%nat is_).
  { eapply Forall_impl; [exact Hlen|]. cbn. intros j. by rewrite length_insert. }
  destruct (retain_pairs (until_panic f) (Some st) kvs).1 as [st1|]; [by apply IH|].
  by rewrite for_write_idle.
Qed.

Lemma retain_unwind_ok {St} (f : St → K → V → St * (V * option bool)) st c :
  cache_ok c → quiescent c →
  ∃ kvs c', kvs ≡ₚ map_to_list (cache_contents c) ∧
    _retain_unwind f st c ⇓ (c', (retain_pairs (until_panic f) (Some st) kvs).1) ∧ usable c c' ∧
    cache_contents c' = list_to_map (retain_pairs (until_panic f) (Some st) kvs).2.
Proof.
  intros Hc Hq. destruct (retain_all_ok _ _ (Some st) c (retain_body_ok f) Hc Hq)
    as (kvs & c' & Hp & Hrun & Hc' & Hq' & Hpar & Hcont).
  destruct (all_shards_spec c) as [Hnd Hlen]. exists kvs, c'. split_and!; [done| |done|done].
  by apply retain_shards_for_write.
Qed.

(** *** Insertions whose clone panics *)

Lemma abandoned_lift c c' k v l s' s1 :
  cache_ok c → home c k l → shard_step (lock_data l) s1 →
  insert_effect k v (shard_full (lock_data l)) (contents (lock_data l)) (contents s1) →
  contents s' = delete k (contents s1) → contents_at c k (contents s') c' →
  abandoned k v (full_at c k) (cache_contents c) (cache_contents c').
Proof.
  intros Hc Hl Hst Heff Hs' Hcc. pose proof (insert_no_new_keys _ _ _ _ _ Heff) as Hnew.
  destruct (home_update c k l s1 0 Hc Hl Hst Hnew lock_ok_zero) as (Hc1 & Hsame & Hhome & Hcc1).
  eexists. split; [by eapply (insert_effect_lift c _ k v l (mkLock 0 s1))|].
  apply map_eq. intros k'. destruct (decide (k' = k)) as [->|Hne].
  - by rewrite Hcc, decide_True, Hs', !lookup_delete_eq.
  - rewrite lookup_delete_ne, Hcc, Hcc1, Hs' by done. case_match; [|done]. by apply lookup_delete_ne.
Qed.

Lemma abandoned_no_new_keys k v (P : Prop) (m m1 m' : gmap K V) :
  insert_effect k v P m m1 → m' = delete k m1 → no_new_keys_but k m m'.
Proof. intros Heff -> k' [v' [_ Hv']%lookup_delete_Some]. by apply (insert_no_new_keys _ _ _ _ _ Heff). Qed.

(** A vacant entry whose insertion panics releases its lock. *)
Lemma vacant_insert_panics c c1 k v w :
  cache_ok c → unlocked c k → countable_at c k → _entry k c ⇓ (c1, Vacant w) →
  ∃ c2, vacant_insert_unwind false w v c1 ⇓ (c2, None) ∧ cache_ok c2 ∧ unlocked c2 k ∧
    same_except (route c k) c c2 ∧ abandoned k v (full_at c k) (cache_contents c) (cache_contents c2).
Proof.
  intros Hc (l & Hl & Hw) Hcount He. destruct (entry_ok c k l Hc Hl Hw) as (t & e & He' & Hst & Hcont & Hcase).
  rewrite He in He'. injection He' as -> <-. destruct Hcase as (i & -> & Hk & Hslot).
  destruct (insert_vacant_panics k v _ i (step_ok _ _ Hst) (Hcount _ Hl)) as (s' & s1 & Hrun & Hst' & Hst1 & Heff & Hdel);
    [by rewrite Hcont|done|].
  unfold vacant_insert_unwind. cbn [ve_shard ve_key ve_hash ve_slot].
  rewrite (guarded_held _ _ _ Hc Hl). cbn [mbind outcome_bind lock_data]. rewrite vacant_fill_copy, Hrun. cbn [mbind outcome_bind].
  rewrite (set_guarded_held _ _ _ Hc Hl). cbn [mbind outcome_bind lock_word].
  rewrite (drop_write_held _ _ _ Hc Hl). cbn [mbind outcome_bind]. rewrite Hcont in Heff.
  assert (Hst2 : shard_step (lock_data l) s') by (by apply (shard_step_trans_cap _ _ _ Hst)).
  assert (Hst3 : shard_step (lock_data l) s1) by (by apply (shard_step_trans_cap _ _ _ Hst)).
  destruct (home_update c k l s' 0 Hc Hl Hst2) as (Hc2 & Hsame & Hhome & Hcc);
    [by eapply abandoned_no_new_keys|apply lock_ok_zero|].
  eexists. split_and!; [done..|by eexists|done|]. by eapply abandoned_lift.
Qed.

Lemma vacant_insert_clones w v c : vacant_insert_unwind true w v c = returned (vacant_insert w v c).
Proof.
  unfold vacant_insert_unwind, vacant_insert, returned. destruct (guarded _ _) as [s| | | | |]; [cbn|done..].
  destruct (fill_copies (ve_key w) (ve_hash w) (ve_slot w) v s) as [-> _].
  rewrite vacant_fill_copy, insert_vacant_clones. unfold returned.
  destruct (insert_vacant _ _ _ _ _) as [[s' b]| | | | |]; [cbn|done..].
  by destruct (set_guarded _ _ _).
Qed.

(** *** The specification of the calls *)

(** What a call does to the pairs [m], given whether its shard is full. *)
Definition closure_spec {St R} (call : closure_call K V St R) (full : K → Prop) (m m' : gmap K V)
    (r : option (call_result K V St R)) : Prop :=
  match call with
  | CallRemoveIf k f =>
      match m !! k with
      | Some v =>
          match f k v with
          | Some true => m' = delete k m ∧ r = Some (RemovedPair (Some (k, v)))
          | Some false => m' = m ∧ r = Some (RemovedPair None)
          | None => m' = m ∧ r = None
          end
      | None => m' = m ∧ r = Some (RemovedPair None)
      end
  | CallRemoveIfMut k f =>
      match m !! k with
      | Some v =>
          match f k v with
          | (v', Some true) => m' = delete k m ∧ r = Some (RemovedPair (Some (k, v')))
          | (v', Some false) => m' = <[k := v']> m ∧ r = Some (RemovedPair None)
          | (v', None) => m' = <[k := v']> m ∧ r = None
          end
      | None => m' = m ∧ r = Some (RemovedPair None)
      end
  | CallView k f =>
      m' = m ∧
      match m !! k with
      | Some v => r = (λ x, Viewed (Some x)) <$> f k v
      | None => r = Some (Viewed None)
      end
  | CallRetain f st =>
      ∃ kvs, kvs ≡ₚ map_to_list m ∧ m' = list_to_map (retain_pairs (until_panic f) (Some st) kvs).2 ∧
        r = Retained <$> (retain_pairs (until_panic f) (Some st) kvs).1
  | CallInsert cl k v =>
      match m !! k with
      | Some old => m' = <[k := v]> m ∧ r = Some (Inserted (Some old))
      | None =>
          if cl then insert_effect k v (full k) m m' ∧ r = Some (Inserted None)
          else abandoned k v (full k) m m' ∧ r = None
      end
  | CallOrInsertWith cl k f =>
      match m !! k, f with
      | Some v, _ => m' = m ∧ r = Some (Stored (k, v))
      | None, Some v =>
          if cl then insert_effect k v (full k) m m' ∧ r = Some (Stored (k, v))
          else abandoned k v (full k) m m' ∧ r = None
      | None, None => m' = m ∧ r = None
      end
  | CallAndModify k f =>
      match m !! k with
      | Some v => m' = <[k := (f v).1]> m ∧ r = (λ _, Modified) <$> (f v).2
      | None => m' = m ∧ r = Some Modified
      end
  end.

(** The entry of [k] dropped: the lock is free again. *)
Lemma entry_drop_ok c c1 k l z :
  cache_ok c → quiescent c → cache_ok c1 → same_except (route c k) c c1 → home c1 k l →
  lock_word l = ONE_WRITER → z = route c1 k →
  ∃ c2, drop_write z c1 ⇓ c2 ∧ usable c c2 ∧ cache_contents c2 = cache_contents c1.
Proof.
  intros Hc Hq Hc1 Hsame Hl Hw ->. destruct (held_drop_ok c1 k l Hc1 Hl Hw) as (c2 & Hdrop & [Hc2 Hsame2 Hcont Hu]).
  exists c2. split_and!; [done| |done]. eapply (usable_at c c2 k); [done..|by eapply same_except_trans].
Qed.

Lemma insert_unwind_ok {St R} cl c k v :
  cache_ok c → quiescent c → countable_at c k →
  ∃ c' r, run_closure (St:=St) (R:=R) (CallInsert cl k v) c ⇓ (c', r) ∧ usable c c' ∧
    closure_spec (CallInsert cl k v) (full_at c) (cache_contents c) (cache_contents c') r.
Proof.
  intros Hc Hq Hcount. destruct (quiescent_unlocked c k Hc Hq) as (l & Hl & Hw).
  destruct (home_index _ _ _ Hc Hl) as (i & _ & _ & _ & Hinv).
  destruct (shard_insert_unwind_ok cl k v _ (li_shard _ _ _ Hinv) (Hcount _ Hl)) as (s & Hst & Hcase).
  pose proof (cache_contents_lookup c k l Hc Hl) as Hk. cbn [run_closure closure_spec]. unfold finish, _insert_unwind.
  destruct (decide _) as [[-> Hnone]|Hn].
  - destruct Hcase as (Hrun & s1 & Hst1 & Heff & Hdel).
    destruct (keyed_write_ok _ c k l s _ Hc Hl Hw Hrun Hst) as (c' & -> & Hc' & Hsame & Hhome & Hcc);
      [by eapply abandoned_no_new_keys|].
    exists c', None. split_and!; [done|apply (usable_at c c' k); try done; by eexists|].
    rewrite Hk, Hnone. split; [by eapply abandoned_lift|done].
  - destruct Hcase as (Hrun & Heff).
    destruct (keyed_write_ok _ c k l s _ Hc Hl Hw Hrun Hst) as (c' & -> & Hc' & Hsame & Hhome & Hcc);
      [by eapply insert_no_new_keys|].
    pose proof (insert_effect_lift c c' k v l (mkLock 0 s) Hc Hc' Hsame Hl Hhome Hcc Heff) as Hlift.
    eexists c', _. split_and!; [done|apply (usable_at c c' k); try done; by eexists|].
    rewrite Hk. destruct (contents (lock_data l) !! k) as [old|]; [|by destruct cl; [|tauto]].
    split; [|done]. apply (ins_room _ _ _ _ _ Hlift). left. by rewrite Hk.
Qed.

Lemma or_insert_with_unwind_ok {St R} cl c k f :
  cache_ok c → quiescent c → countable_at c k →
  ∃ c' r, run_closure (St:=St) (R:=R) (CallOrInsertWith cl k f) c ⇓ (c', r) ∧ usable c c' ∧
    closure_spec (CallOrInsertWith cl k f) (full_at c) (cache_contents c) (cache_contents c') r.
Proof.
  intros Hc Hq Hcount. pose proof (quiescent_unlocked c k Hc Hq) as Hu.
  destruct (entry_held c k Hc Hu) as (c1 & e & He & [Hc1 Hsame Hcont1 (l & Hl & Hw)] & Hcase).
  cbn [run_closure closure_spec]. unfold finish, entry_or_insert_with. rewrite He. cbn [mbind outcome_bind].
  assert (Hr : route c1 k = route c k) by (apply same_route; by destruct Hsame).
  destruct e as [o|w]; cbn [or_insert_with_unwind].
  - destruct Hcase as (v & -> & Hz & Hp). cbn [mbind outcome_bind].
    destruct (entry_drop_ok c c1 k l _ Hc Hq Hc1 Hsame Hl Hw Hz) as (c2 & Hdrop & Hus & Hcont2).
    unfold finish_ref, refmut_pair, drop_refmut. cbn [into_ref refmut_shard refmut_bucket]. rewrite Hp. cbn [mbind outcome_bind].
    rewrite Hdrop. exists c2, (Some (Stored (k, v))). split_and!; [done..| |done]. congruence.
  - destruct Hcase as (-> & Hz & Hins). destruct f as [v|]; [destruct cl|].
    + rewrite vacant_insert_clones. unfold returned. destruct (Hins Hcount v) as (c2 & g & l2 & Hrun & Hc2 & Hsame2 & Hl2 & Hw2 & [Hz2 Hp] & Heff).
      rewrite Hrun. cbn [mbind outcome_bind]. unfold finish_ref, refmut_pair, drop_refmut. rewrite Hp. cbn [mbind outcome_bind].
      destruct (entry_drop_ok c c2 k l2 _ Hc Hq Hc2 Hsame2 Hl2 Hw2 Hz2) as (c3 & -> & Hus & Hcont3).
      exists c3, (Some (Stored (k, v))). split_and!; [done..| |done]. by rewrite Hcont3.
    + destruct (vacant_insert_panics c c1 k v w Hc Hu Hcount He) as (c2 & -> & Hc2 & Hu2 & Hsame2 & Hab).
      exists c2, None. split_and!; [done|by apply (usable_at c c2 k)|done|done].
    + destruct (entry_drop_ok c c1 k l (ve_shard w) Hc Hq Hc1 Hsame Hl Hw) as (c2 & -> & Hus & Hcont2); [congruence|].
      exists c2, None. split_and!; [done..| |done]. congruence.
Qed.

Lemma and_modify_unwind_ok {St R} c k f :
  cache_ok c → quiescent c →
  ∃ c' r, run_closure (St:=St) (R:=R) (CallAndModify k f) c ⇓ (c', r) ∧ usable c c' ∧
    closure_spec (CallAndModify k f) (full_at c) (cache_contents c) (cache_contents c') r.
Proof.
  intros Hc Hq. pose proof (quiescent_unlocked c k Hc Hq) as Hu.
  destruct (entry_held c k Hc Hu) as (c1 & e & He & [Hc1 Hsame Hcont1 (l & Hl & Hw)] & Hcase).
  cbn [run_closure closure_spec]. unfold finish, entry_and_modify. rewrite He. cbn [mbind outcome_bind].
  assert (Hr : route c1 k = route c k) by (apply same_route; by destruct Hsame).
  destruct e as [o|w]; cbn [and_modify_unwind].
  - destruct Hcase as (v & -> & Hp). unfold occupied_get, occupied_pair, occupied_set. rewrite (proj2 Hp).
    cbn [mbind outcome_bind]. destruct (f v) as [v' r]. cbn [fst snd].
    destruct (held_set_ok c1 _ _ k v v' l Hc1 Hl Hp) as (c2 & l2 & Hset & Hc2 & Hsame2 & [Hz _] & Hl2 & Hw2 & Hcont2).
    rewrite Hset. cbn [mbind outcome_bind].
    destruct (entry_drop_ok c c2 k l2 (oe_shard o) Hc Hq Hc2) as (c3 & Hdrop & Hus & Hcont3);
      [by eapply same_except_trans|done|congruence|done|].
    destruct r; cbn [mbind outcome_bind finish_entry]; rewrite Hdrop; cbn [mbind outcome_bind]; eexists _, _;
      (split_and!; [done..| |done]); congruence.
  - destruct Hcase as (-> & Hz & _). cbn [mbind outcome_bind finish_entry].
    destruct (entry_drop_ok c c1 k l (ve_shard w) Hc Hq Hc1 Hsame Hl Hw) as (c2 & -> & Hus & Hcont2); [congruence|].
    exists c2, (Some Modified). split_and!; [done..| |done]. congruence.
Qed.

Lemma remove_if_unwind_ok {St R} c k f :
  cache_ok c → quiescent c →
  ∃ c' r, run_closure (St:=St) (R:=R) (CallRemoveIf k f) c ⇓ (c', r) ∧ usable c c' ∧
    closure_spec (CallRemoveIf k f) (full_at c) (cache_contents c) (cache_contents c') r.
Proof.
  intros Hc Hq. destruct (keyed_unwind_ok (shard_remove_if_unwind k f) c k Hc Hq) as (l & Hl & Hk & Hs & Hlift).
  destruct (shard_remove_if_unwind_ok k f _ Hs) as (s & r & new & Hrun & Hset & Hcase).
  destruct (Hlift s r new Hrun Hset) as (c' & Hrun' & Hus & Hcont).
  pose proof (partial_alter_self (cache_contents c) k) as Hself.
  cbn [run_closure closure_spec]. unfold finish, _remove_if_unwind. rewrite Hrun'. exists c', (RemovedPair <$> r).
  split_and!; [done..|]. rewrite Hcont, Hk in *. destruct (contents (lock_data l) !! k) as [v|].
  - destruct (f k v) as [[]|]; destruct Hcase as [-> ->]; done.
  - by destruct Hcase as [-> ->].
Qed.

Lemma remove_if_mut_unwind_ok {St R} c k f :
  cache_ok c → quiescent c →
  ∃ c' r, run_closure (St:=St) (R:=R) (CallRemoveIfMut k f) c ⇓ (c', r) ∧ usable c c' ∧
    closure_spec (CallRemoveIfMut k f) (full_at c) (cache_contents c) (cache_contents c') r.
Proof.
  intros Hc Hq. destruct (keyed_unwind_ok (shard_remove_if_mut_unwind k f) c k Hc Hq) as (l & Hl & Hk & Hs & Hlift).
  destruct (shard_remove_if_mut_unwind_ok k f _ Hs) as (s & r & new & Hrun & Hset & Hcase).
  destruct (Hlift s r new Hrun Hset) as (c' & Hrun' & Hus & Hcont).
  pose proof (partial_alter_self (cache_contents c) k) as Hself.
  cbn [run_closure closure_spec]. unfold finish, _remove_if_mut_unwind. rewrite Hrun'. exists c', (RemovedPair <$> r).
  split_and!; [done..|]. rewrite Hcont, Hk in *. destruct (contents (lock_data l) !! k) as [v|].
  - destruct (f k v) as [v' [[]|]]; destruct Hcase as [-> ->]; done.
  - by destruct Hcase as [-> ->].
Qed.

Lemma view_unwind_ok {St R} c k f :
  cache_ok c → quiescent c →
  ∃ c' r, run_closure (St:=St) (R:=R) (CallView k f) c ⇓ (c', r) ∧ usable c c' ∧
    closure_spec (CallView k f) (full_at c) (cache_contents c) (cache_contents c') r.
Proof.
  intros Hc Hq. destruct (quiescent_unlocked c k Hc Hq) as (l & Hl & Hw).
  destruct (quiescent_readable c Hq _ _ Hl) as [w Hread].
  destruct (get_then_drop c k l w Hc Hl Hread) as (c1 & g & Hget & Hcase).
  assert (Hus : ∀ c', looked_up k (lock_word l) c c' → usable c c').
  { intros c' [Hc' Hsame _ Hu]. rewrite Hw in Hu. by apply (usable_at c c' k). }
  cbn [run_closure closure_spec]. unfold finish, _view_unwind. rewrite Hget. cbn [mbind outcome_bind].
  destruct (cache_contents c !! k) as [v|].
  - destruct Hcase as (g' & c2 & -> & Hg & Hdrop & Hlu). cbn. rewrite Hg. cbn. rewrite Hdrop. cbn.
    eexists c2, _. split; [done|]. split_and!; [by apply Hus|by destruct Hlu|]. by destruct (f k v).
  - destruct Hcase as [-> Hlu]. eexists c1, _. split; [done|]. split_and!; [by apply Hus|by destruct Hlu|done].
Qed.
End cache.
