(* ===== verification/GuardInv.v ===== *)
(** * GuardInv: the invariant of callers that keep guards

    In every state of GuardMachine the lock word of a shard is what the live
    guards of that shard say (the number of its [Ref]s, or one exclusive
    guard), every guard points to an entry of its shard, and a vacant entry
    has a valid slot for a key that is absent. *)

From stdpp Require Import base gmap list.
From S2P Require Import Prelude Machine Lock RawTable Util Shard ShardOps ShardModel ShardSim.
From S2P Require Import Evict Safety Exact ShardSpec ShardHistory TryResult Cache Guards Entry GuardMachine.
From S2P Require Import CacheSpec EntrySpec.

Open Scope Z_scope.

(** ** Lookups as functions of the shard of the key *)

Section shapes.
Context {K V : Type} `{Countable K} `{!BuildHasher K} `{!Target}.
Context `{!RawTable (K * CacheEntry V)} `{!RawTableSpec (K * CacheEntry V)}.
Implicit Types (c : NeoCache K V) (k : K) (v : V) (i : nat) (l : RwLock K V).
Context c k i l (Hs : shard_of c k ⇓ Z.of_nat i) (Hi : shards c !! i = Some l).

Definition put w s : NeoCache K V := set_shard (Z.of_nat i) (mkLock w s) c.

Lemma put_guarded w s : guarded (Z.of_nat i) (put w s) ⇓ s.
Proof. by apply (guarded_set _ _ l). Qed.

Lemma put_set_guarded w s s' : set_guarded (Z.of_nat i) s' (put w s) ⇓ put w s'.
Proof. by apply (set_guarded_set _ _ l). Qed.

Lemma put_drop_read w s : drop_read (Z.of_nat i) (put w s) ⇓ put (unlock_shared w).1 s.
Proof. unfold drop_read, put. rewrite (get_set_shard _ _ _ _ Hi). cbn. by rewrite set_shard_twice. Qed.

Lemma put_drop_write s : drop_write (Z.of_nat i) (put ONE_WRITER s) ⇓ put 0 s.
Proof. by apply (drop_write_set _ _ l). Qed.

Lemma try_read_shape :
  _try_yield_read_shard (Z.of_nat i) c ⇓ ((λ w, put w (lock_data l)) <$> try_lock_shared (lock_word l)).
Proof.
  unfold _try_yield_read_shard. by rewrite (bounds_assert _ _ _ Hi), (get_shard _ _ _ Hi).
Qed.

Lemma try_write_shape :
  _try_yield_write_shard (Z.of_nat i) c ⇓ ((λ w, put w (lock_data l)) <$> try_lock_exclusive (lock_word l)).
Proof.
  unfold _try_yield_write_shard. by rewrite (bounds_assert _ _ _ Hi), (get_shard _ _ _ Hi).
Qed.

(** The lookups, given what the lookup in the shard returns. *)
Section lookup.
Context s r (Hget : shard_get k (lock_data l) ⇓ (s, r)).

Lemma get_shape w :
  lock_shared (lock_word l) ⇓ w →
  _get k c ⇓ (match r with
              | Some b => (put w s, Some (mkRef (Z.of_nat i) b))
              | None => (put (unlock_shared w).1 s, None)
              end).
Proof.
  intros Hw. unfold _get. rewrite Hs. cbn [mbind outcome_bind]. rewrite (yield_read _ _ _ Hi), Hw.
  cbn [mbind outcome_bind]. fold (put w (lock_data l)). rewrite put_guarded. cbn [mbind outcome_bind].
  rewrite Hget. cbn [mbind outcome_bind]. rewrite put_set_guarded. cbn [mbind outcome_bind].
  destruct r as [b|]; [done|]. by rewrite put_drop_read.
Qed.

Lemma try_get_shape w :
  try_lock_shared (lock_word l) = Some w →
  _try_get k c ⇓ (match r with
                  | Some b => (put w s, Present (mkRef (Z.of_nat i) b))
                  | None => (put (unlock_shared w).1 s, Absent)
                  end).
Proof.
  intros Hw. unfold _try_get. rewrite Hs. cbn [mbind outcome_bind]. rewrite try_read_shape, Hw.
  cbn [mbind outcome_bind fmap option_fmap option_map]. rewrite put_guarded. cbn [mbind outcome_bind].
  rewrite Hget. cbn [mbind outcome_bind]. rewrite put_set_guarded. cbn [mbind outcome_bind].
  destruct r as [b|]; [done|]. by rewrite put_drop_read.
Qed.

Lemma get_mut_shape :
  lock_word l = 0 →
  _get_mut k c ⇓ (match r with
                  | Some b => (put ONE_WRITER s, Some (mkRefMut (Z.of_nat i) b))
                  | None => (put 0 s, None)
                  end).
Proof.
  intros Hw. unfold _get_mut. rewrite Hs. cbn [mbind outcome_bind].
  rewrite (yield_write _ _ _ Hi), Hw, lock_exclusive_free. cbn [mbind outcome_bind].
  fold (put ONE_WRITER (lock_data l)). rewrite put_guarded. cbn [mbind outcome_bind].
  rewrite Hget. cbn [mbind outcome_bind]. rewrite put_set_guarded. cbn [mbind outcome_bind].
  destruct r as [b|]; [done|]. by rewrite put_drop_write.
Qed.

Lemma try_get_mut_shape :
  lock_word l = 0 →
  _try_get_mut k c ⇓ (match r with
                      | Some b => (put ONE_WRITER s, Present (mkRefMut (Z.of_nat i) b))
                      | None => (put 0 s, Absent)
                      end).
Proof.
  intros Hw. unfold _try_get_mut. rewrite Hs. cbn [mbind outcome_bind]. rewrite try_write_shape, Hw.
  change (try_lock_exclusive 0) with (Some ONE_WRITER).
  cbn [mbind outcome_bind fmap option_fmap option_map]. rewrite put_guarded. cbn [mbind outcome_bind].
  rewrite Hget. cbn [mbind outcome_bind]. rewrite put_set_guarded. cbn [mbind outcome_bind].
  destruct r as [b|]; [done|]. by rewrite put_drop_write.
Qed.
End lookup.

(** The entry found by a search of the table. *)
Definition found (r : bucket + insert_slot) : Entry K :=
  match r with
  | inl b => Occupied (mkOccupied (Z.of_nat i) b k)
  | inr slot => Vacant (mkVacant (Z.of_nat i) k (hash_one k) slot)
  end.

Lemma search_shape t r w :
  rt_find_or_find_insert_slot (smap (lock_data l)) (hash_one k) (key_eq k) key_hash = (t, r) →
  entry_search (Z.of_nat i) k (put w (lock_data l)) ⇓ (put w (set_map t (lock_data l)), found r).
Proof.
  intros Hf. unfold entry_search, hash_u64. rewrite put_guarded. cbn [mbind outcome_bind]. rewrite Hf.
  rewrite put_set_guarded. by destruct r.
Qed.

Lemma entry_shape t r :
  rt_find_or_find_insert_slot (smap (lock_data l)) (hash_one k) (key_eq k) key_hash = (t, r) →
  lock_word l = 0 →
  _entry k c ⇓ (put ONE_WRITER (set_map t (lock_data l)), found r) ∧
  _try_entry k c ⇓ (put ONE_WRITER (set_map t (lock_data l)), Some (found r)).
Proof.
  intros Hf Hw. unfold _entry, _try_entry. rewrite Hs. cbn [mbind outcome_bind].
  rewrite (yield_write _ _ _ Hi), try_write_shape, Hw, lock_exclusive_free.
  change (try_lock_exclusive 0) with (Some ONE_WRITER).
  cbn [mbind outcome_bind fmap option_fmap option_map]. fold (put ONE_WRITER (lock_data l)).
  by rewrite (search_shape t r ONE_WRITER Hf).
Qed.

(** Waiting. *)
Lemma write_wait_shape :
  lock_ok (lock_word l) → lock_word l ≠ 0 →
  _get_mut k c = Blocked ∧ _entry k c = Blocked ∧
  _try_get_mut k c ⇓ (c, Locked) ∧ _try_entry k c ⇓ (c, None).
Proof.
  intros (o & Ho & Hwo) Hw. unfold _get_mut, _entry, _try_get_mut, _try_entry. rewrite Hs.
  cbn [mbind outcome_bind]. rewrite (yield_write _ _ _ Hi), try_write_shape, Hwo.
  rewrite lock_exclusive_encode, try_lock_exclusive_encode by done.
  destruct o; [by rewrite Hwo in Hw|done..].
Qed.

Lemma read_wait_shape :
  lock_word l = ONE_WRITER → _get k c = Blocked ∧ _try_get k c ⇓ (c, Locked).
Proof.
  intros Hw. assert (Hwo : lock_word l = encode Writer false false).
  { rewrite Hw, ONE_WRITER_max. unfold encode. cbn [readers_field]. lia. }
  unfold _get, _try_get. rewrite Hs. cbn [mbind outcome_bind].
  rewrite (yield_read _ _ _ Hi), try_read_shape, Hwo.
  by rewrite lock_shared_encode, try_lock_shared_encode.
Qed.
End shapes.

(** ** The invariant *)

Section inv.
Context {K V : Type} `{Countable K} `{!BuildHasher K} `{!Target}.
Context `{!RawTable (K * CacheEntry V)} `{!RawTableSpec (K * CacheEntry V)}.
Implicit Types (c : NeoCache K V) (k : K) (v : V) (i id n : nat) (l : RwLock K V) (s : ShardData K V).
Implicit Types (σ : state K V) (g : guard K) (gs : gmap nat (guard K)) (z : Z).

(** The live guards of a shard. *)
Definition on_shard z gs : gmap nat (guard K) := filter (λ p, guard_shard p.2 = z) gs.

(** The owner of a lock with [n] live [Ref]s. *)
Definition shared n : owner := match n with O => Free | _ => Readers (Z.of_nat n) end.

Definition is_shared g : Prop := match g with GRef _ => True | _ => False end.

(** What guard [g] points to in the data of its shard. *)
Definition guard_at c s g : Prop :=
  match g with
  | GRef r => ∃ kv, bucket_pair (ref_bucket r) s ⇓ kv
  | GMut r => ∃ kv, bucket_pair (refmut_bucket r) s ⇓ kv
  | GEntry (Occupied o) => ∃ v, bucket_pair (oe_bucket o) s ⇓ (oe_key o, v)
  | GEntry (Vacant w) =>
      ve_hash w = hash_one (ve_key w) ∧ route c (ve_key w) = ve_shard w ∧
      contents s !! ve_key w = None ∧ rt_slot_valid (smap s) (hash_one (ve_key w)) (ve_slot w)
  end.

(** The guards [gs] of a shard, against its lock word and its data. *)
Inductive shard_guards c l gs : Prop :=
| sg_shared :
    (∀ id g, gs !! id = Some g → is_shared g ∧ guard_at c (lock_data l) g) →
    lock_word l = encode (shared (size gs)) false false → shard_guards c l gs
| sg_exclusive id g :
    gs = {[id := g]} → ¬ is_shared g → guard_at c (lock_data l) g →
    lock_word l = ONE_WRITER → shard_guards c l gs.

(** The invariant, with room for [n] further actions: an unbounded cache can
    count that many insertions, and a lock that many readers. *)
Record ginv n σ : Prop := {
  gi_cache : cache_ok (s_cache σ);
  gi_room i l : shards (s_cache σ) !! i = Some l → room_for n (lock_data l);
  gi_few : Z.of_nat (size (s_live σ) + n) < max_readers;
  gi_shards i l : shards (s_cache σ) !! i = Some l →
    shard_guards (s_cache σ) l (on_shard (Z.of_nat i) (s_live σ));
  gi_bounds id g : s_live σ !! id = Some g → 0 ≤ guard_shard g < _shard_count (s_cache σ)
}.

(** Guards that are live before and after read the same, except the one
    written through. *)
Definition stable (except : option nat) σ σ' : Prop :=
  ∀ id g, s_live σ !! id = Some g → s_live σ' !! id = Some g → except ≠ Some id →
    guard_pair g (s_cache σ') = guard_pair g (s_cache σ).

(** *** Lock words *)

Lemma shared_ok n : Z.of_nat n < max_readers → owner_ok (shared n).
Proof. destruct n; cbn [shared owner_ok]; lia. Qed.

Lemma size_on_shard z gs : (size (on_shard z gs) ≤ size gs)%nat.
Proof. apply map_subseteq_size, map_filter_subseteq. Qed.

Lemma shard_guards_word c l gs :
  Z.of_nat (size gs) < max_readers → shard_guards c l gs →
  lock_ok (lock_word l) ∧ (lock_word l = 0 ↔ gs = ∅).
Proof.
  intros Hsz [_ Hw|id g -> _ _ Hw].
  - split; [exists (shared (size gs)); by auto using shared_ok|]. rewrite Hw.
    rewrite <-(Z.eqb_eq _ 0), encode_zero by by apply shared_ok.
    destruct (size gs) eqn:Hn; cbn [shared].
    + by apply map_size_empty_inv in Hn as ->.
    + split; [done|]. intros ->. by rewrite map_size_empty in Hn.
  - rewrite Hw. split; [apply ONE_WRITER_ok|]. pose proof max_readers_pos. rewrite ONE_WRITER_max.
    split; [lia|]. intros Hemp. by destruct (insert_non_empty (∅ : gmap nat (guard K)) id g).
Qed.

Lemma shared_word n :
  Z.of_nat (S n) < max_readers →
  lock_shared (encode (shared n) false false) ⇓ encode (shared (S n)) false false ∧
  try_lock_shared (encode (shared n) false false) = Some (encode (shared (S n)) false false) ∧
  (unlock_shared (encode (shared (S n)) false false)).1 = encode (shared n) false false.
Proof.
  intros Hn. assert (Hok : owner_ok (shared n)) by (apply shared_ok; lia).
  rewrite lock_shared_encode, try_lock_shared_encode by done.
  cbn [shared]. rewrite unlock_shared_encode by lia.
  destruct n as [|n]; cbn [shared add_reader]; [done|].
  destruct (Z.ltb_spec (Z.of_nat (S n) + 1) max_readers); [|lia].
  destruct (Z.eqb_spec (Z.of_nat (S (S n))) 1); [lia|].
  replace (Z.of_nat (S (S n)) - 1) with (Z.of_nat (S n)) by lia.
  by replace (Z.of_nat (S n) + 1) with (Z.of_nat (S (S n))) by lia.
Qed.

Lemma writer_word : ONE_WRITER = encode Writer false false.
Proof. rewrite ONE_WRITER_max. unfold encode. cbn [readers_field]. lia. Qed.

Lemma ONE_WRITER_nz : ONE_WRITER ≠ 0.
Proof. pose proof max_readers_pos. rewrite ONE_WRITER_max. lia. Qed.

Lemma writer_not_shared : lock_shared ONE_WRITER = Blocked.
Proof.
  rewrite writer_word. by rewrite lock_shared_encode.
Qed.

Lemma downgrade_writer : (downgrade ONE_WRITER).1 = encode (shared 1) false false.
Proof.
  rewrite writer_word. by rewrite downgrade_encode.
Qed.

(** *** Changing one shard and its guards *)

Definition same_elsewhere z gs gs' : Prop :=
  ∀ id g, guard_shard g ≠ z → gs' !! id = Some g ↔ gs !! id = Some g.

Lemma on_shard_lookup z gs id g : on_shard z gs !! id = Some g ↔ gs !! id = Some g ∧ guard_shard g = z.
Proof. unfold on_shard. by rewrite map_lookup_filter_Some. Qed.

Lemma on_shard_elsewhere z z' gs gs' :
  same_elsewhere z gs gs' → z' ≠ z → on_shard z' gs' = on_shard z' gs.
Proof.
  intros Hsame Hne. apply map_eq. intros id. apply option_eq. intros g. rewrite !on_shard_lookup.
  split; intros [Hg Hz]; (split; [|done]); apply (Hsame id g); congruence.
Qed.

Lemma on_shard_insert z gs id g :
  guard_shard g = z → on_shard z (<[id := g]> gs) = <[id := g]> (on_shard z gs).
Proof. intros Hg. unfold on_shard. by rewrite map_filter_insert_True. Qed.

Lemma on_shard_delete z gs id : on_shard z (delete id gs) = delete id (on_shard z gs).
Proof. apply map_filter_delete. Qed.

Lemma insert_elsewhere z gs id g :
  guard_shard g = z → (∀ g0, gs !! id = Some g0 → guard_shard g0 = z) →
  same_elsewhere z gs (<[id := g]> gs).
Proof.
  intros Hg Hold id' g' Hne. rewrite lookup_insert_Some. split.
  - intros [[<- <-]|[_ ?]]; done.
  - intros Hg'. right. split; [|done]. intros <-. by apply Hold in Hg'.
Qed.

Lemma delete_elsewhere z gs id :
  (∀ g0, gs !! id = Some g0 → guard_shard g0 = z) → same_elsewhere z gs (delete id gs).
Proof.
  intros Hold id' g' Hne. rewrite lookup_delete_Some. split; [by intros [_ ?]|].
  intros Hg'. split; [|done]. intros <-. by apply Hold in Hg'.
Qed.

Lemma ginv_set n c gs i l l' gs' :
  ginv (S n) (mkState c gs) → shards c !! i = Some l →
  shard_step (lock_data l) (lock_data l') →
  (∀ k, is_Some (contents (lock_data l') !! k) → route c k = Z.of_nat i) →
  same_elsewhere (Z.of_nat i) gs gs' → (size gs' ≤ S (size gs))%nat →
  shard_guards c l' (on_shard (Z.of_nat i) gs') →
  ginv n (mkState (set_shard (Z.of_nat i) l' c) gs').
Proof.
  intros [Hc Hroom Hfew Hsh Hb] Hi Hst Hroute Hsame Hsz Hg. cbn [s_cache s_live] in *.
  pose proof (lookup_lt_Some _ _ _ Hi) as Hlt.
  assert (Hlow : Z.of_nat (size (on_shard (Z.of_nat i) gs')) < max_readers)
    by (pose proof (size_on_shard (Z.of_nat i) gs'); lia).
  destruct (shard_guards_word _ _ _ Hlow Hg) as [Hlock _].
  pose proof (co_shards _ Hc _ _ Hi) as Hinv.
  assert (Hcases : ∀ j lj, shards (set_shard (Z.of_nat i) l' c) !! j = Some lj →
    (j = i ∧ lj = l') ∨ (j ≠ i ∧ shards c !! j = Some lj)).
  { intros j lj. cbn. rewrite Nat2Z.id. intros [(-> & -> & _)|[? ?]]%list_lookup_insert_Some; auto. }
  constructor; cbn [s_cache s_live].
  - eapply set_shard_ok; [done..|]. constructor; [apply Hst|done| |done].
    by rewrite (step_cap _ _ Hst), (li_cap _ _ _ Hinv).
  - intros j lj [[-> ->]|[_ Hj]]%Hcases; [by eapply room_for_step; [apply (Hroom _ _ Hi)|]|].
    intros Hz. specialize (Hroom _ _ Hj Hz). lia.
  - lia.
  - intros j lj [[-> ->]|[Hne Hj]]%Hcases; [by destruct Hg; econstructor|].
    rewrite (on_shard_elsewhere (Z.of_nat i) _ gs) by (done || lia).
    by destruct (Hsh _ _ Hj); econstructor.
  - intros id g Hgl. unfold _shard_count in *. cbn. rewrite length_insert.
    destruct (decide (guard_shard g = Z.of_nat i)) as [->|Hne]; [lia|].
    apply (Hb id g). by apply Hsame.
Qed.

Lemma stable_set ex c gs i l l' gs' :
  shards c !! i = Some l →
  (∀ id g b, gs !! id = Some g → gs' !! id = Some g → ex ≠ Some id → guard_shard g = Z.of_nat i →
    guard_bucket g = Some b → bucket_pair b (lock_data l') = bucket_pair b (lock_data l)) →
  (∀ id g, gs !! id = Some g → 0 ≤ guard_shard g) →
  stable ex (mkState c gs) (mkState (set_shard (Z.of_nat i) l' c) gs').
Proof.
  intros Hi Hhere Hpos id g Hg Hg' Hex. cbn [s_cache s_live] in *.
  assert (Hread : ∀ b, guard_bucket g = Some b →
    (s ← guarded (guard_shard g) (set_shard (Z.of_nat i) l' c); bucket_pair b s) =
    (s ← guarded (guard_shard g) c; bucket_pair b s)).
  { intros b Hb. destruct (decide (guard_shard g = Z.of_nat i)) as [Hz|Hne].
    - rewrite Hz, (guarded_set _ _ _ _ Hi). unfold guarded. rewrite (get_shard _ _ _ Hi). cbn.
      by apply (Hhere id g).
    - unfold guarded, get_unchecked. cbn. rewrite Nat2Z.id, list_lookup_insert_ne; [done|].
      specialize (Hpos id g Hg). lia. }
  destruct g as [r|r|[o|w]]; cbn in *; [..|done];
    unfold ref_pair, refmut_pair, occupied_pair; by rewrite (Hread _ eq_refl).
Qed.
End inv.
