(* ===== verification/GuardSteps.v ===== *)
(** * GuardSteps: every action keeps the invariant of the guards

    For each action of GuardMachine: in a state that satisfies the invariant
    it waits for a guard of the shard it needs, or it returns, keeps the
    invariant, and the guards it does not write through read what they read
    before. *)

From stdpp Require Import base gmap list.
From S2P Require Import Prelude Machine Lock RawTable Util Shard ShardOps ShardModel ShardSim.
From S2P Require Import Evict Safety Exact ShardSpec ShardHistory TryResult Cache Guards Entry GuardMachine.
From S2P Require Import CacheSpec EntrySpec GuardInv.

Open Scope Z_scope.

Section steps.
Context {K V : Type} `{Countable K} `{!BuildHasher K} `{!Target}.
Context `{!RawTable (K * CacheEntry V)} `{!RawTableSpec (K * CacheEntry V)}.
Implicit Types (c : NeoCache K V) (k : K) (v : V) (i id n : nat) (l : RwLock K V) (s : ShardData K V).
Implicit Types (σ : state K V) (g : guard K) (gs : gmap nat (guard K)) (z : Z).

(** The outcome [o] of an action that needs the lock of shard [z]. *)
Inductive progress n (ex : option nat) (z : option Z) σ (o : outcome (state K V)) : Prop :=
| progress_wait z' id g :
    o = Blocked → z = Some z' → s_live σ !! id = Some g → guard_shard g = z' → progress n ex z σ o
| progress_go σ' : o ⇓ σ' → ginv n σ' → stable ex σ σ' → progress n ex z σ o.

Lemma ginv_weaken n σ : ginv (S n) σ → ginv n σ.
Proof.
  intros [Hc Hr Hf Hs Hb]. constructor; try done; [|lia].
  intros i l Hl Hz. specialize (Hr i l Hl Hz). lia.
Qed.

Lemma progress_stay n ex (z : option Z) σ : ginv (S n) σ → progress n ex z σ (Ret σ).
Proof. intros Hg. eapply progress_go; [done|by apply ginv_weaken|by intros]. Qed.

Lemma routes_but c k i l s :
  cache_ok c → shards c !! i = Some l → route c k = Z.of_nat i →
  no_new_keys_but k (contents (lock_data l)) (contents s) →
  ∀ k', is_Some (contents s !! k') → route c k' = Z.of_nat i.
Proof. intros Hc Hi Hr Hk k' [Hk'| ->]%Hk; [|done]. by apply (co_shards _ Hc _ _ Hi). Qed.

Lemma routes_same c i l s :
  cache_ok c → shards c !! i = Some l → contents s = contents (lock_data l) →
  ∀ k', is_Some (contents s !! k') → route c k' = Z.of_nat i.
Proof. intros Hc Hi -> k' Hk'. by apply (co_shards _ Hc _ _ Hi). Qed.

(** ** Facts about a state *)

Section at_state.
Context n c gs (Hinv : ginv (S n) (mkState c gs)).

Lemma cache_fact : cache_ok c.
Proof. apply Hinv. Qed.

Lemma few_on_shard z : Z.of_nat (S (size (on_shard z gs))) < max_readers.
Proof. pose proof (gi_few _ _ Hinv). pose proof (size_on_shard z gs). cbn in *. lia. Qed.

Lemma word_fact i l :
  shards c !! i = Some l →
  lock_ok (lock_word l) ∧ (lock_word l = 0 ↔ on_shard (Z.of_nat i) gs = ∅).
Proof.
  intros Hi. apply (shard_guards_word c); [|apply (gi_shards _ _ Hinv _ _ Hi)].
  pose proof (few_on_shard (Z.of_nat i)). lia.
Qed.

Lemma waits_fact i l o :
  shards c !! i = Some l → lock_word l ≠ 0 → o = Blocked →
  progress n None (Some (Z.of_nat i)) (mkState c gs) o.
Proof.
  intros Hi Hw Ho. destruct (word_fact i l Hi) as [_ Hz].
  destruct (map_choose (on_shard (Z.of_nat i) gs)) as (id & g & [Hg Hs]%on_shard_lookup); [tauto|].
  by eapply progress_wait.
Qed.

Lemma home_fact k :
  ∃ i l, shards c !! i = Some l ∧ route c k = Z.of_nat i ∧ shard_of c k ⇓ Z.of_nat i ∧
    shard_ok (lock_data l) ∧ countable (lock_data l).
Proof.
  destruct (home_exists c k (co_geometry _ cache_fact)) as (l & Hl).
  destruct (home_index _ _ _ cache_fact Hl) as (i & Hr & Hi & Hs & Hli). exists i, l.
  split_and!; [done..|apply Hli|]. eapply room_for_countable, (gi_room _ _ Hinv _ _ Hi).
Qed.

(** *** A new state of one shard *)

Lemma set_free i l s :
  shards c !! i = Some l → lock_word l = 0 → shard_step (lock_data l) s →
  (∀ k, is_Some (contents s !! k) → route c k = Z.of_nat i) →
  ginv n (mkState (put c i 0 s) gs) ∧ stable None (mkState c gs) (mkState (put c i 0 s) gs).
Proof.
  intros Hi Hw Hst Hk. apply (word_fact i l Hi) in Hw as He. split.
  - eapply ginv_set; [exact Hinv|exact Hi|done|done|done|lia|]. rewrite He. by apply sg_shared.
  - eapply stable_set; [done| |].
    + intros id g b Hg _ _ Hz _. assert (Hon : on_shard (Z.of_nat i) gs !! id = Some g)
        by by apply on_shard_lookup. by rewrite He in Hon.
    + intros id g Hg. by apply (gi_bounds _ _ Hinv id g Hg).
Qed.

Lemma new_id_fresh g0 : gs !! fresh (dom gs) = Some g0 → False.
Proof. intros Hg. apply (is_fresh (dom gs)). by apply elem_of_dom. Qed.

(** A new exclusive guard. *)
Lemma set_exclusive i l s g :
  shards c !! i = Some l → lock_word l = 0 → shard_step (lock_data l) s →
  contents s = contents (lock_data l) → guard_shard g = Z.of_nat i → ¬ is_shared g → guard_at c s g →
  let σ' := keep (Some g) (put c i ONE_WRITER s) gs in
  ginv n σ' ∧ stable None (mkState c gs) σ'.
Proof.
  intros Hi Hw Hst Hcont Hgs Hex Hat. apply (word_fact i l Hi) in Hw as He. cbn [keep]. split.
  - eapply ginv_set; [exact Hinv|exact Hi|done|by eapply routes_same; [apply cache_fact|..]| | |].
    + apply insert_elsewhere; [done|]. by intros g0 ?%new_id_fresh.
    + by rewrite map_size_insert_None by (apply not_elem_of_dom, is_fresh).
    + rewrite on_shard_insert, He by done. by eapply sg_exclusive.
  - eapply stable_set; [done| |].
    + intros id g' b Hg _ _ Hz _. assert (Hon : on_shard (Z.of_nat i) gs !! id = Some g')
        by by apply on_shard_lookup. by rewrite He in Hon.
    + intros id g' Hg. by apply (gi_bounds _ _ Hinv id g' Hg).
Qed.

(** A reader joins or has looked and left. *)
Lemma set_shared i l s gs' w :
  shards c !! i = Some l → lock_word l ≠ ONE_WRITER → shard_step (lock_data l) s →
  contents s = contents (lock_data l) →
  (∀ b kv, bucket_pair b (lock_data l) ⇓ kv → bucket_pair b s ⇓ kv) →
  (gs' = gs ∧ w = lock_word l) ∨
  (∃ b kv, bucket_pair b s ⇓ kv ∧ gs' = <[fresh (dom gs) := GRef (mkRef (Z.of_nat i) b)]> gs ∧
     lock_word l = encode (shared (size (on_shard (Z.of_nat i) gs))) false false ∧
     w = encode (shared (S (size (on_shard (Z.of_nat i) gs)))) false false) →
  ginv n (mkState (put c i w s) gs') ∧ stable None (mkState c gs) (mkState (put c i w s) gs').
Proof.
  intros Hi Hw Hst Hcont Hpairs Hcase.
  destruct (gi_shards _ _ Hinv i l Hi) as [Hat Hword|id g _ _ _ Hww]; [|done]. cbn [s_cache s_live] in *.
  assert (Hkept : ∀ id g, on_shard (Z.of_nat i) gs !! id = Some g → is_shared g ∧ guard_at c s g).
  { intros id g [Hs Hg]%Hat. split; [done|]. destruct g as [r| |]; [|done..].
    destruct Hg as [kv Hkv]. exists kv. by apply Hpairs. }
  split.
  - eapply ginv_set; [exact Hinv|exact Hi|done|by eapply routes_same; [apply cache_fact|..]|..];
      destruct Hcase as [[-> ->]|(b & kv & Hb & -> & _ & ->)]; [done| |lia| | |].
    + apply insert_elsewhere; [done|]. by intros g0 ?%new_id_fresh.
    + by rewrite map_size_insert_None by (apply not_elem_of_dom, is_fresh).
    + by apply sg_shared.
    + rewrite on_shard_insert by done. apply sg_shared.
      * intros id g [[<- <-]|[_ Hg]]%lookup_insert_Some; [|by apply (Hkept id)]. split; [done|]. by exists kv.
      * rewrite map_size_insert_None; [done|]. apply eq_None_not_Some.
        by intros [g0 [?%new_id_fresh _]%on_shard_lookup].
  - eapply stable_set; [done| |].
    + intros id g b Hg _ _ Hz Hb. destruct (Hat id g) as [Hs Hga]; [by apply on_shard_lookup|].
      destruct g as [r| |]; [|done..]. injection Hb as <-. destruct Hga as [kv Hkv]. cbn [lock_data].
      by rewrite Hkv, (Hpairs _ _ Hkv).
    + intros id g Hg. by apply (gi_bounds _ _ Hinv id g Hg).
Qed.

(** *** Exclusive guards *)

Lemma guard_fact id g :
  gs !! id = Some g →
  ∃ i l, shards c !! i = Some l ∧ guard_shard g = Z.of_nat i ∧ guard_at c (lock_data l) g ∧
    shard_ok (lock_data l) ∧ countable (lock_data l) ∧
    (¬ is_shared g → on_shard (Z.of_nat i) gs = {[id := g]} ∧ lock_word l = ONE_WRITER).
Proof.
  intros Hg. pose proof (gi_bounds _ _ Hinv id g Hg) as Hb. cbn [s_cache] in Hb. unfold _shard_count in Hb.
  destruct (lookup_lt_is_Some_2 (shards c) (Z.to_nat (guard_shard g))) as [l Hl]; [lia|].
  exists (Z.to_nat (guard_shard g)), l. rewrite Z2Nat.id by lia.
  pose proof (gi_shards _ _ Hinv _ _ Hl) as Hsg. cbn [s_cache s_live] in Hsg. rewrite Z2Nat.id in Hsg by lia.
  assert (Hon : on_shard (guard_shard g) gs !! id = Some g) by by apply on_shard_lookup.
  assert (Hat : guard_at c (lock_data l) g ∧
    (¬ is_shared g → on_shard (guard_shard g) gs = {[id := g]} ∧ lock_word l = ONE_WRITER)).
  { destruct Hsg as [Hat Hword|id0 g0 Hgs Hex Hg0 Hw].
    - destruct (Hat id g Hon) as [Hs ?]. done.
    - rewrite Hgs in Hon |- *. apply lookup_singleton_Some in Hon as [<- <-]. done. }
  split_and!; try apply Hat; [done|done|apply (co_shards _ cache_fact _ _ Hl)|].
  eapply room_for_countable, (gi_room _ _ Hinv _ _ Hl).
Qed.

(** Exclusive guard [id] uses its shard and becomes [o]. *)
Lemma set_held i l id g s w o ex :
  shards c !! i = Some l → gs !! id = Some g → guard_shard g = Z.of_nat i →
  on_shard (Z.of_nat i) gs = {[id := g]} → shard_step (lock_data l) s →
  (∀ k, is_Some (contents s !! k) → route c k = Z.of_nat i) →
  (∀ g', o = Some g' → guard_shard g' = Z.of_nat i) →
  shard_guards c (mkLock w s) (match o with Some g' => {[id := g']} | None => ∅ end) →
  (o = Some g → ex = Some id ∨ s = lock_data l) →
  ginv n (replace_guard id o (put c i w s) gs) ∧
  stable ex (mkState c gs) (replace_guard id o (put c i w s) gs).
Proof.
  intros Hi Hg Hgi Hon Hst Hk Ho Hsg Hex. unfold replace_guard. split.
  - eapply ginv_set; [exact Hinv|exact Hi|done|done|..]; destruct o as [g'|].
    + apply insert_elsewhere; [by apply Ho|]. intros g0. congruence.
    + apply delete_elsewhere. intros g0. congruence.
    + rewrite map_size_insert_Some by done. lia.
    + rewrite map_size_delete. rewrite Hg. lia.
    + rewrite on_shard_insert, Hon, insert_singleton_eq by by apply Ho. done.
    + by rewrite on_shard_delete, Hon, delete_singleton_eq.
  - eapply stable_set; [done| |].
    + intros id' g' b Hg' Hnew Hne Hz _. assert (Hin : on_shard (Z.of_nat i) gs !! id' = Some g')
        by by apply on_shard_lookup. rewrite Hon in Hin. apply lookup_singleton_Some in Hin as [<- <-].
      destruct o as [g2|]; [|by rewrite lookup_delete_eq in Hnew].
      rewrite lookup_insert_eq in Hnew. destruct (Hex Hnew) as [->| ->]; done.
    + intros id' g' Hg'. by apply (gi_bounds _ _ Hinv id' g' Hg').
Qed.
End at_state.

(** ** Looking a key up *)

(** A lookup only touches a frequency: every bucket reads as before. *)
Lemma shard_get_pairs k s s' r b kv :
  shard_get k s ⇓ (s', r) → bucket_pair b s ⇓ kv → bucket_pair b s' ⇓ kv.
Proof.
  unfold shard_get. destruct (rt_find (smap s) (hash_one k) (key_eq k)) as [b0|]; [|by intros [= <- <-]].
  intros (s1 & Hb0 & [= <- <-])%bind_Ret. by apply (bump_at_pairs b0).
Qed.

Section at_state_actions.
Context n c gs (Hinv : ginv (S n) (mkState c gs)).
#[local] Abbreviation here := (mkState c gs).

(** A lookup returns a guard to the pair, or changes frequencies only. *)
Lemma lookup_fact k i l :
  shards c !! i = Some l → shard_ok (lock_data l) →
  ∃ s r, shard_get k (lock_data l) ⇓ (s, r) ∧ shard_step (lock_data l) s ∧
    contents s = contents (lock_data l) ∧
    match r with Some b => ∃ v, bucket_pair b s ⇓ (k, v) | None => s = lock_data l end.
Proof.
  intros Hi Hok. destruct (shard_get_ok k _ Hok) as (s & r & Hget & Hst & _ & Hcont & Hcase).
  exists s, r. split_and!; [done..|]. destruct (contents (lock_data l) !! k) as [v|].
  - destruct Hcase as (b & -> & Hb). by exists v.
  - by destruct Hcase as [-> ->].
Qed.

Lemma get_action k :
  progress n None (Some (route c k)) here (exec (AGet k) here) ∧
  progress n None None here (exec (ATryGet k) here).
Proof.
  destruct (home_fact _ _ _ Hinv k) as (i & l & Hi & Hr & Hs & Hok & _). rewrite Hr. cbn [exec s_cache s_live].
  pose proof (gi_shards _ _ Hinv i l Hi) as Hsg. cbn in Hsg. destruct Hsg as [_ Hword|id g _ _ _ Hw].
  2:{ destruct (read_wait_shape c k i l Hs Hi Hw) as [-> ->]. cbn. split; [|by apply progress_stay].
      eapply waits_fact; [done..|rewrite Hw; apply ONE_WRITER_nz|done]. }
  destruct (lookup_fact k i l Hi Hok) as (s & r & Hget & Hst & Hcont & Hcase).
  destruct (shared_word (size (on_shard (Z.of_nat i) gs))) as (Hls & Htls & Hun); [by eapply few_on_shard|].
  rewrite <-Hword in Hls, Htls, Hun.
  rewrite (get_shape c k i l Hs Hi s r Hget _ Hls), (try_get_shape c k i l Hs Hi s r Hget _ Htls).
  assert (Hnw : lock_word l ≠ ONE_WRITER).
  { intros Hw. by rewrite Hw, writer_not_shared in Hls. }
  destruct r as [b|]; cbn [mbind outcome_bind fmap option_fmap option_map present keep].
  - destruct Hcase as [v Hb].
    destruct (set_shared n c gs Hinv i l s _ _ Hi Hnw Hst Hcont
      (λ b kv, shard_get_pairs k _ _ _ b kv Hget) (or_intror (ex_intro _ b (ex_intro _ (k, v)
        (conj Hb (conj eq_refl (conj Hword eq_refl))))))) as [? ?].
    split; by eapply progress_go.
  - rewrite Hun. destruct (set_shared n c gs Hinv i l s gs _ Hi Hnw Hst Hcont
      (λ b kv, shard_get_pairs k _ _ _ b kv Hget) (or_introl (conj eq_refl eq_refl))) as [? ?].
    split; by eapply progress_go.
Qed.

Lemma get_mut_action k :
  progress n None (Some (route c k)) here (exec (AGetMut k) here) ∧
  progress n None None here (exec (ATryGetMut k) here).
Proof.
  destruct (home_fact _ _ _ Hinv k) as (i & l & Hi & Hr & Hs & Hok & _). rewrite Hr. cbn [exec s_cache s_live].
  destruct (word_fact _ _ _ Hinv i l Hi) as [Hlock _]. destruct (decide (lock_word l = 0)) as [Hw|Hw].
  2:{ destruct (write_wait_shape c k i l Hs Hi Hlock Hw) as (-> & _ & -> & _). cbn.
      split; [by eapply waits_fact|by apply progress_stay]. }
  destruct (lookup_fact k i l Hi Hok) as (s & r & Hget & Hst & Hcont & Hcase).
  rewrite (get_mut_shape c k i l Hs Hi s r Hget Hw), (try_get_mut_shape c k i l Hs Hi s r Hget Hw).
  destruct r as [b|]; cbn [mbind outcome_bind fmap option_fmap option_map present].
  - destruct Hcase as [v Hb].
    destruct (set_exclusive n c gs Hinv i l s (GMut (mkRefMut (Z.of_nat i) b)) Hi Hw Hst Hcont)
      as [? ?]; [done|by intros []|by exists (k, v)|].
    split; by eapply progress_go.
  - destruct (set_free n c gs Hinv i l s Hi Hw Hst) as [? ?];
      [by eapply routes_same; [eapply cache_fact|..]|]. split; by eapply progress_go.
Qed.

Lemma entry_action k :
  progress n None (Some (route c k)) here (exec (AEntry k) here) ∧
  progress n None None here (exec (ATryEntry k) here).
Proof.
  destruct (home_fact _ _ _ Hinv k) as (i & l & Hi & Hr & Hs & Hok & _). rewrite Hr. cbn [exec s_cache s_live].
  destruct (word_fact _ _ _ Hinv i l Hi) as [Hlock _]. destruct (decide (lock_word l = 0)) as [Hw|Hw].
  2:{ destruct (write_wait_shape c k i l Hs Hi Hlock Hw) as (_ & -> & _ & ->). cbn.
      split; [by eapply waits_fact|by apply progress_stay]. }
  destruct (rt_find_or_find_insert_slot (smap (lock_data l)) (hash_one k) (key_eq k) key_hash)
    as [t r] eqn:Hf.
  destruct (search_ok k (lock_data l) t r Hok Hf) as (Hst & Hcont & Hcase).
  destruct (entry_shape c k i l Hs Hi t r Hf Hw) as [-> ->].
  destruct (set_exclusive n c gs Hinv i l _ (GEntry (found k i r)) Hi Hw Hst Hcont) as [? ?].
  - by destruct r.
  - by destruct r; intros [].
  - destruct r as [b|slot]; cbn.
    + destruct Hcase as (v & _ & Hb). by exists v.
    + destruct Hcase as [Hk Hslot]. by rewrite Hcont.
  - split; by eapply progress_go.
Qed.
(** ** Writing under the lock *)

Lemma with_write_action {A} (f : ShardData K V → outcome (ShardData K V * A)) i l s a :
  shards c !! i = Some l → f (lock_data l) ⇓ (s, a) → shard_step (lock_data l) s →
  (∀ k, is_Some (contents s !! k) → route c k = Z.of_nat i) →
  progress n None (Some (Z.of_nat i)) here
    ('(c, _) ← with_write (Z.of_nat i) f c; Ret (mkState c gs)).
Proof.
  intros Hi Hf Hst Hk. destruct (word_fact _ _ _ Hinv i l Hi) as [Hlock _].
  destruct (decide (lock_word l = 0)) as [Hw|Hw].
  - destruct (set_free n c gs Hinv i l s Hi Hw Hst Hk) as [? ?].
    rewrite (with_write_ok f c i l s a Hi Hw Hf). cbn. by eapply progress_go.
  - rewrite (with_write_blocked f c i l Hi Hlock Hw). by eapply waits_fact.
Qed.

Lemma keyed_action {A} k (f : ShardData K V → outcome (ShardData K V * A)) :
  (∀ s, shard_ok s → countable s → ∃ s' a, f s ⇓ (s', a) ∧ shard_step s s' ∧
     no_new_keys_but k (contents s) (contents s')) →
  progress n None (Some (route c k)) here
    ('(c, _) ← (idx ← shard_of c k; with_write idx f c); Ret (mkState c gs)).
Proof.
  intros Hf. destruct (home_fact _ _ _ Hinv k) as (i & l & Hi & Hr & Hs & Hok & Hcount).
  destruct (Hf _ Hok Hcount) as (s & a & Hrun & Hst & Hkeys). rewrite Hs, Hr. cbn [mbind outcome_bind].
  eapply (with_write_action f i l s a); [done..|].
  eapply (routes_but c k i l); [by eapply cache_fact|done..].
Qed.

Lemma insert_action k v : progress n None (Some (route c k)) here (exec (AInsert k v) here).
Proof.
  apply (keyed_action k (shard_insert k v)). intros s Hok Hcount.
  destruct (shard_insert_ok k v s Hok Hcount) as (s' & Hs & Hst & _ & Heff).
  eexists s', _. split_and!; [done..|]. by eapply insert_no_new_keys.
Qed.

Lemma remove_actions k f fm :
  progress n None (Some (route c k)) here (exec (ARemove k) here) ∧
  progress n None (Some (route c k)) here (exec (ARemoveIf k f) here) ∧
  progress n None (Some (route c k)) here (exec (ARemoveIfMut k fm) here).
Proof.
  split_and!.
  - apply (keyed_action k (shard_remove k)). intros s Hok _.
    destruct (shard_remove_ok k s Hok) as (s' & Hs & Hst & _ & Hcont). eexists s', _.
    split_and!; [done..|]. rewrite Hcont. apply no_new_keys_delete.
  - apply (keyed_action k (shard_remove_if k f)). intros s Hok _.
    destruct (shard_remove_if_ok k f s Hok) as (s' & Hs & Hst & _ & Hcont). eexists s', _.
    split_and!; [done..|]. rewrite Hcont.
    destruct (match _ with Some _ => _ | None => _ end); [apply no_new_keys_delete|apply no_new_keys_refl].
  - apply (keyed_action k (shard_remove_if_mut k fm)). intros s Hok _.
    destruct (shard_remove_if_mut_ok k fm s Hok) as (s' & r & Hs & Hst & _ & Hcase). exists s', r.
    split_and!; [done..|]. destruct (contents s !! k) as [v|].
    + destruct (fm k v) as [v' []]; destruct Hcase as [_ ->];
        [apply no_new_keys_delete|apply no_new_keys_insert].
    + destruct Hcase as [_ ->]. apply no_new_keys_refl.
Qed.

Lemma turn_actions i f :
  progress n None (Some (Z.of_nat i)) here (exec (AClearTurn i) here) ∧
  progress n None (Some (Z.of_nat i)) here (exec (ARetainTurn i f) here).
Proof.
  cbn [exec s_cache s_live]. unfold in_bounds, _shard_count.
  destruct (Z.ltb_spec (Z.of_nat i) (Z.of_nat (length (shards c)))) as [Hlt|_];
    [|split; by apply progress_stay].
  destruct (lookup_lt_is_Some_2 (shards c) i) as [l Hl]; [lia|].
  pose proof (co_shards _ (cache_fact _ _ _ Hinv) _ _ Hl) as [Hok Hroute _ _]. split.
  - destruct (shard_clear_ok (lock_data l) Hok) as (s & Hs & Hst & Hcont & _).
    eapply (with_write_action _ i l s tt); [done|by rewrite Hs|done|].
    intros k. rewrite Hcont, lookup_empty. by intros [? ?].
  - destruct (shard_retain_ok (λ st k v, (st, f k v)) tt (lock_data l) Hok)
      as (kvs & s & Hp & Hs & Hst & _ & Hcont).
    eapply (with_write_action _ i l s tt); [done| |done|].
    + rewrite Hs. cbn. by destruct (retain_pairs _ _ _).1.
    + intros k [v Hv]. apply Hroute, (retained_keys (λ st k v, (st, f k v)) tt kvs); [done|].
      rewrite Hcont in Hv. apply elem_of_list_to_map_2 in Hv. apply list_elem_of_fmap. by exists (k, v).
Qed.

(** ** Methods of guards *)

(** The shard of a guard. *)
Section held.
Context i l (Hi : shards c !! i = Some l) (Hok : shard_ok (lock_data l)).

Lemma held_guarded : guarded (Z.of_nat i) c ⇓ lock_data l.
Proof. unfold guarded. by rewrite (get_shard _ _ _ Hi). Qed.

Lemma held_set_guarded s : set_guarded (Z.of_nat i) s c ⇓ put c i (lock_word l) s.
Proof. unfold set_guarded. by rewrite (get_shard _ _ _ Hi). Qed.

Lemma held_drop_write : lock_word l = ONE_WRITER → drop_write (Z.of_nat i) c ⇓ put c i 0 (lock_data l).
Proof.
  intros Hw. unfold drop_write. rewrite (get_shard _ _ _ Hi). cbn. by rewrite Hw, unlock_exclusive_writer.
Qed.

Lemma held_routes k : is_Some (contents (lock_data l) !! k) → route c k = Z.of_nat i.
Proof. apply (co_shards _ (cache_fact _ _ _ Hinv) _ _ Hi). Qed.

(** Writing a value through a bucket. *)
Lemma held_write b k w v :
  bucket_pair b (lock_data l) ⇓ (k, w) →
  ∃ s, bucket_set b v (lock_data l) ⇓ s ∧ shard_step (lock_data l) s ∧ bucket_pair b s ⇓ (k, v) ∧
    ∀ k', is_Some (contents s !! k') → route c k' = Z.of_nat i.
Proof.
  intros Hb. destruct (bucket_set_ok b k v w _ Hok Hb) as (s & Hs & Hst & _ & Hcont & Hb').
  exists s. split_and!; [done..|]. rewrite Hcont. intros k' [<-|[_ Hk']]%lookup_insert_is_Some.
  - apply held_routes. rewrite (bucket_contents b k w) by done. by eexists.
  - by apply held_routes.
Qed.

(** Filling the slot of a vacant entry. *)
Lemma held_fill w v :
  countable (lock_data l) → guard_shard (GEntry (Vacant w)) = Z.of_nat i →
  guard_at c (lock_data l) (GEntry (Vacant w)) →
  ∃ s b, insert_vacant (ve_key w) (ve_hash w) (ve_slot w) v (lock_data l) ⇓ (s, b) ∧
    shard_step (lock_data l) s ∧ bucket_pair b s ⇓ (ve_key w, v) ∧
    ∀ k', is_Some (contents s !! k') → route c k' = Z.of_nat i.
Proof.
  intros Hcount Hz (Hh & Hr & Hk & Hslot). cbn in Hz. rewrite Hh.
  destruct (insert_vacant_ok (ve_key w) v _ _ Hok Hcount Hk Hslot) as (s & b & Hs & Hst & Hb & Heff).
  exists s, b. split_and!; [done..|].
  eapply (routes_but c (ve_key w) i l); [by eapply cache_fact|done|congruence|].
  by eapply insert_no_new_keys.
Qed.
End held.

Lemma exclusive_here id g s :
  ¬ is_shared g → guard_at c s g →
  shard_guards c (mkLock ONE_WRITER s) {[id := g]}.
Proof. intros. by eapply sg_exclusive. Qed.

Lemma released_here s : shard_guards c (mkLock 0 s) ∅.
Proof. by apply sg_shared. Qed.

(** The outcome of a method that returns. *)
Lemma method_action id a g c' (g' : option (guard K)) ex (z : option Z) :
  gs !! id = Some g → method a g c = Some (Ret (c', g')) →
  ginv n (replace_guard id g' c' gs) → stable ex here (replace_guard id g' c' gs) →
  progress n ex z here (on_guard id a here).
Proof.
  intros Hg Hm Hinv' Hst. eapply progress_go; [|done..].
  unfold on_guard. cbn [s_live s_cache]. by rewrite Hg, Hm.
Qed.

Lemma dead_action id a ex (z : option Z) : gs !! id = None → progress n ex z here (on_guard id a here).
Proof. intros Hg. unfold on_guard. cbn [s_live]. rewrite Hg. by apply progress_stay. Qed.

Lemma no_method_action id a g ex (z : option Z) :
  gs !! id = Some g → method a g c = None → progress n ex z here (on_guard id a here).
Proof. intros Hg Hm. unfold on_guard. cbn [s_live s_cache]. rewrite Hg, Hm. by apply progress_stay. Qed.

Lemma read_action id : progress n None None here (exec (ARead id) here).
Proof.
  destruct (gs !! id) as [g|] eqn:Hg; [|by apply dead_action].
  destruct (guard_fact _ _ _ Hinv id g Hg) as (i & l & Hi & Hz & Hat & _).
  assert (Hread : ∃ kv, guard_pair g c ⇓ kv).
  { pose proof (held_guarded i l Hi) as Hgd. rewrite <-Hz in Hgd.
    destruct g as [r|r|[o|w]]; cbn in Hat, Hgd |- *; [..|by eexists];
      unfold ref_pair, refmut_pair, occupied_pair; rewrite Hgd; cbn; destruct Hat as [kv ->]; by eexists. }
  destruct Hread as [kv Hkv]. unfold exec, on_guard. cbn [s_live s_cache]. rewrite Hg. cbn [method].
  rewrite Hkv. unfold replace_guard. cbn. rewrite insert_id by done. by apply progress_stay.
Qed.

Lemma write_action id v : progress n (Some id) None here (exec (AWrite id v) here).
Proof.
  destruct (gs !! id) as [g|] eqn:Hg; [|by apply dead_action].
  destruct (guard_fact _ _ _ Hinv id g Hg) as (i & l & Hi & Hz & Hat & Hok & _ & Hex).
  assert (Hset : ∀ b k w, bucket_pair b (lock_data l) ⇓ (k, w) → ¬ is_shared g →
    (∀ s, bucket_pair b s ⇓ (k, v) → guard_at c s g) →
    ∃ s, bucket_set b v (lock_data l) ⇓ s ∧
      ginv n (replace_guard id (Some g) (put c i ONE_WRITER s) gs) ∧
      stable (Some id) here (replace_guard id (Some g) (put c i ONE_WRITER s) gs)).
  { intros b k w Hb Hns Hg'. destruct (Hex Hns) as [Hon Hw].
    destruct (held_write i l Hi Hok b k w v Hb) as (s & Hs & Hst & Hbs & Hk). exists s.
    split; [done|]. eapply set_held; [exact Hinv|exact Hi|done|done|done|done|done|by intros ? [= <-]| |by left].
    apply exclusive_here; [done|by apply Hg']. }
  destruct g as [r|r|[o|w]]; [by eapply no_method_action| | |by eapply no_method_action]; cbn in Hat, Hz, Hex.
  - destruct Hat as [[k w] Hb]. destruct (Hset _ k w Hb) as (s & Hs & ? & ?); [by intros []|by eexists|].
    eapply method_action; [done| |done..]. cbn. unfold refmut_set. rewrite Hz, (held_guarded i l Hi). cbn.
    rewrite Hs. cbn. rewrite (held_set_guarded i l Hi). cbn. by destruct Hex as [_ ->]; [intros []|].
  - destruct Hat as [w Hb]. destruct (Hset _ _ w Hb) as (s & Hs & ? & ?); [by intros []|by eexists|].
    eapply method_action; [done| |done..]. cbn. unfold occupied_set. rewrite Hz, (held_guarded i l Hi). cbn.
    rewrite Hs. cbn. rewrite (held_set_guarded i l Hi). cbn. by destruct Hex as [_ ->]; [intros []|].
Qed.

Lemma downgrade_action id : progress n None None here (exec (ADowngrade id) here).
Proof.
  destruct (gs !! id) as [g|] eqn:Hg; [|by apply dead_action].
  destruct (guard_fact _ _ _ Hinv id g Hg) as (i & l & Hi & Hz & Hat & Hok & _ & Hex).
  destruct g as [r|r|[o|w]]; [by eapply no_method_action| |by eapply no_method_action..].
  destruct Hex as [Hon Hw]; [by intros []|]. cbn in Hz, Hat.
  destruct (set_held n c gs Hinv i l id (GMut r) (lock_data l) (encode (shared 1) false false)
    (Some (GRef (mkRef (refmut_shard r) (refmut_bucket r)))) None) as [? ?]; try done.
  - by apply shard_step_refl.
  - apply (held_routes i l Hi).
  - by intros ? [= <-].
  - apply sg_shared; [|by rewrite map_size_singleton].
    by intros id' g' [<- <-]%lookup_singleton_Some.
  - eapply method_action; [done| |done..]. cbn. unfold refmut_downgrade.
    rewrite Hz, (get_shard _ _ _ Hi). cbn [mbind outcome_bind]. by rewrite Hw, downgrade_writer.
Qed.

(** Consuming an exclusive guard. *)
Lemma consume_action id g i l s :
  gs !! id = Some g → shards c !! i = Some l → guard_shard g = Z.of_nat i →
  on_shard (Z.of_nat i) gs = {[id := g]} → shard_step (lock_data l) s →
  (∀ k, is_Some (contents s !! k) → route c k = Z.of_nat i) →
  ginv n (replace_guard id None (put c i 0 s) gs) ∧
  stable None here (replace_guard id None (put c i 0 s) gs).
Proof.
  intros. eapply set_held; [exact Hinv|done..|apply released_here|done].
Qed.

Lemma drop_shared_action id r :
  gs !! id = Some (GRef r) → progress n None None here (exec (ADrop id) here).
Proof.
  intros Hg. destruct (guard_fact _ _ _ Hinv id _ Hg) as (i & l & Hi & Hz & _ & Hok & _). cbn in Hz.
  pose proof (gi_shards _ _ Hinv i l Hi) as Hsg. cbn [s_live s_cache] in Hsg.
  assert (Hon : on_shard (Z.of_nat i) gs !! id = Some (GRef r)) by by apply on_shard_lookup.
  destruct Hsg as [Hat Hword|id0 g0 Hgs Hex _ _].
  2:{ rewrite Hgs in Hon. apply lookup_singleton_Some in Hon as [-> ->]. by destruct Hex. }
  assert (Hsz : size (on_shard (Z.of_nat i) gs) = S (size (delete id (on_shard (Z.of_nat i) gs)))).
  { rewrite map_size_delete, Hon. pose proof (map_size_ne_0_lookup_2 _ id ltac:(by eexists)). lia. }
  destruct (shared_word (size (delete id (on_shard (Z.of_nat i) gs)))) as (_ & _ & Hun).
  { pose proof (few_on_shard _ _ _ Hinv (Z.of_nat i)). lia. }
  rewrite <-Hsz, <-Hword in Hun.
  eapply method_action; [done| | |].
  - cbn. unfold drop_ref, drop_read. rewrite Hz, (get_shard _ _ _ Hi). cbn. by rewrite Hun.
  - eapply ginv_set; [exact Hinv|exact Hi|by apply shard_step_refl|by apply (held_routes i l Hi)|..].
    + apply delete_elsewhere. intros g0. rewrite Hg. by intros [= <-].
    + rewrite map_size_delete. rewrite Hg. lia.
    + rewrite on_shard_delete. apply sg_shared; [|done].
      intros id' g' [_ Hg']%lookup_delete_Some. by apply (Hat id').
  - eapply stable_set; [done|done|]. intros id' g' Hg'. by apply (gi_bounds _ _ Hinv id' g' Hg').
Qed.

Lemma drop_action id : progress n None None here (exec (ADrop id) here).
Proof.
  destruct (gs !! id) as [g|] eqn:Hg; [|by apply dead_action].
  destruct (guard_fact _ _ _ Hinv id g Hg) as (i & l & Hi & Hz & _ & Hok & _ & Hex).
  assert (Hkind : (∃ r, g = GRef r) ∨ ¬ is_shared g)
    by (destruct g; [by left; eexists|by right; intros []..]).
  destruct Hkind as [[r ->]|Hns]; [by eapply drop_shared_action|]. destruct (Hex Hns) as [Hon Hw].
  destruct (consume_action id g i l (lock_data l)) as [? ?]; try done;
    [by apply shard_step_refl|by apply (held_routes i l Hi)|].
  eapply method_action; [done| |done..]. pose proof (held_drop_write i l Hi Hw) as Hd.
  rewrite <-Hz in Hd. destruct g as [r|r|[o|w]]; [by destruct Hns|..]; cbn in Hd |- *;
    unfold drop_refmut, occupied_into_key, vacant_into_key; by rewrite Hd.
Qed.

(** ** Methods of entries *)

(** An entry turns into an exclusive guard [g'] of the same shard. *)
Lemma become id e i l s g' :
  gs !! id = Some (GEntry e) → shards c !! i = Some l → guard_shard (GEntry e) = Z.of_nat i →
  on_shard (Z.of_nat i) gs = {[id := GEntry e]} → shard_step (lock_data l) s →
  (∀ k, is_Some (contents s !! k) → route c k = Z.of_nat i) →
  guard_shard g' = Z.of_nat i → ¬ is_shared g' → guard_at c s g' → (g' = GEntry e → s = lock_data l) →
  ginv n (replace_guard id (Some g') (put c i ONE_WRITER s) gs) ∧
  stable None here (replace_guard id (Some g') (put c i ONE_WRITER s) gs).
Proof.
  intros Hg Hi Hz Hon Hst Hk Hz' Hns Hat Heq.
  eapply set_held; [exact Hinv|done..|by intros ? [= <-]|by apply exclusive_here|].
  intros [= He]. right. by apply Heq.
Qed.

Lemma vacant_actions id w v :
  gs !! id = Some (GEntry (Vacant w)) →
  progress n None None here (exec (AEntryInsert id v) here) ∧
  progress n None None here (exec (AOrInsert id v) here) ∧
  progress n None None here (exec (AInsertEntry id v) here).
Proof.
  intros Hg. destruct (guard_fact _ _ _ Hinv id _ Hg) as (i & l & Hi & Hz & Hat & Hok & Hcount & Hex).
  destruct Hex as [Hon Hw]; [by intros []|].
  destruct (held_fill i l Hi Hok w v Hcount Hz Hat) as (s & b & Hs & Hst & Hb & Hk). cbn in Hz.
  assert (Hrun : vacant_insert w v c ⇓ (put c i ONE_WRITER s, mkRefMut (Z.of_nat i) b) ∧
    vacant_insert_entry w v c ⇓ (put c i ONE_WRITER s, mkOccupied (Z.of_nat i) b (ve_key w))).
  { unfold vacant_insert, vacant_insert_entry. rewrite Hz, (held_guarded i l Hi). cbn [mbind outcome_bind].
    destruct (fill_copies (ve_key w) (ve_hash w) (ve_slot w) v (lock_data l)) as [-> ->].
    rewrite Hs. cbn [mbind outcome_bind].
    by rewrite (held_set_guarded i l Hi), Hw. }
  destruct Hrun as [Hrun1 Hrun2]. pose proof (λ g', become id (Vacant w) i l s g' Hg Hi Hz Hon Hst Hk) as Hb'.
  split_and!.
  - destruct (Hb' (GMut (mkRefMut (Z.of_nat i) b))) as [? ?]; [done|by intros []|by eexists|done|].
    eapply method_action; [done| |done..]. cbn [method entry_insert]. by rewrite Hrun1.
  - destruct (Hb' (GMut (mkRefMut (Z.of_nat i) b))) as [? ?]; [done|by intros []|by eexists|done|].
    eapply method_action; [done| |done..]. cbn [method or_insert]. by rewrite Hrun1.
  - destruct (Hb' (GEntry (Occupied (mkOccupied (Z.of_nat i) b (ve_key w))))) as [? ?];
      [done|by intros []|by exists v|done|].
    eapply method_action; [done| |done..]. cbn [method insert_entry]. by rewrite Hrun2.
Qed.

Lemma occupied_actions id o v :
  gs !! id = Some (GEntry (Occupied o)) →
  progress n None None here (exec (AEntryInsert id v) here) ∧
  progress n None None here (exec (AOrInsert id v) here) ∧
  progress n (Some id) None here (exec (AInsertEntry id v) here).
Proof.
  intros Hg. destruct (guard_fact _ _ _ Hinv id _ Hg) as (i & l & Hi & Hz & Hat & Hok & Hcount & Hex).
  destruct Hex as [Hon Hw]; [by intros []|]. destruct Hat as [w Hb].
  destruct (held_write i l Hi Hok _ _ w v Hb) as (s & Hs & Hst & Hbs & Hk).
  assert (Hput : put c i ONE_WRITER (lock_data l) = c).
  { unfold put, set_shard. rewrite Nat2Z.id, list_insert_id; [by destruct c|]. rewrite Hi, <-Hw. by destruct l. }
  cbn in Hz. assert (Hrun : occupied_insert o v c ⇓ (put c i ONE_WRITER s, w)).
  { unfold occupied_insert, occupied_get, occupied_pair, occupied_set. rewrite Hz, (held_guarded i l Hi).
    cbn [mbind outcome_bind]. rewrite Hb. cbn [mbind outcome_bind]. rewrite Hs. cbn [mbind outcome_bind].
    by rewrite (held_set_guarded i l Hi), Hw. }
  split_and!.
  - destruct (become id (Occupied o) i l s (GMut (into_ref o)) Hg Hi Hz Hon Hst Hk) as [? ?];
      [done|by intros []|by eexists|done|].
    eapply method_action; [done| |done..]. cbn [method entry_insert]. by rewrite Hrun.
  - destruct (become id (Occupied o) i l (lock_data l) (GMut (into_ref o)) Hg Hi Hz Hon) as [? ?];
      [by apply shard_step_refl|by apply (held_routes i l Hi)|done|by intros []|by eexists|done|].
    rewrite Hput in *. by eapply method_action.
  - destruct (set_held n c gs Hinv i l id (GEntry (Occupied o)) s ONE_WRITER
      (Some (GEntry (Occupied o))) (Some id)) as [? ?]; try done.
    + by intros ? [= <-].
    + apply exclusive_here; [by intros []|by eexists].
    + by left.
    + eapply method_action; [done| |done..]. cbn [method insert_entry]. by rewrite Hrun.
Qed.

Lemma entry_insert_actions id v :
  progress n None None here (exec (AEntryInsert id v) here) ∧
  progress n None None here (exec (AOrInsert id v) here) ∧
  progress n (Some id) None here (exec (AInsertEntry id v) here).
Proof.
  destruct (gs !! id) as [g|] eqn:Hg; [|split_and!; by apply dead_action].
  destruct g as [r|r|[o|w]]; [split_and!; by eapply no_method_action..|by eapply occupied_actions|].
  destruct (vacant_actions id w v Hg) as (? & ? & Hlast). split_and!; [done..|].
  destruct Hlast as [z' ? ? _ Hz|σ' ? ? Hst]; [done|]. eapply progress_go; [done..|].
  intros id' g' Hg1 Hg2 _. by apply (Hst id' g').
Qed.

Lemma entry_consume_actions id :
  progress n None None here (exec (ARemoveEntry id) here) ∧
  ∀ v, progress n None None here (exec (AReplaceEntry id v) here).
Proof.
  destruct (gs !! id) as [g|] eqn:Hg; [|split; intros; by apply dead_action].
  destruct g as [r|r|[o|w]]; [split; intros; by eapply no_method_action..| |split; intros; by eapply no_method_action].
  destruct (guard_fact _ _ _ Hinv id _ Hg) as (i & l & Hi & Hz & Hat & Hok & Hcount & Hex).
  destruct Hex as [Hon Hw]; [by intros []|]. destruct Hat as [w Hb].
  assert (Hin : is_Some (contents (lock_data l) !! oe_key o)) by (rewrite (bucket_contents _ _ _ _ Hok Hb); by eexists).
  split.
  - destruct (remove_bucket_ok _ _ _ _ Hok Hb) as (s & Hs & Hst & Hcont).
    destruct (consume_action id _ i l s Hg Hi Hz Hon Hst) as [? ?].
    { rewrite Hcont. intros k [v' [_ Hv]%lookup_delete_Some]. apply (held_routes i l Hi). by eexists. }
    eapply method_action; [done| |done..]. cbn [method]. unfold remove_entry. cbn in Hz.
    rewrite Hz, (held_guarded i l Hi). cbn [mbind outcome_bind]. rewrite Hs. cbn [mbind outcome_bind].
    rewrite (held_set_guarded i l Hi), Hw. cbn [mbind outcome_bind]. by rewrite (put_drop_write c i l Hi).
  - intros v. destruct (bucket_replace_ok _ _ v _ _ Hok Hb) as (e & t & Href & _ & Hwr & Hst & Hcont & _).
    destruct (consume_action id _ i l (set_map t (lock_data l)) Hg Hi Hz Hon Hst) as [? ?].
    { rewrite Hcont. intros k [<-|[_ ?]]%lookup_insert_is_Some; by apply (held_routes i l Hi). }
    eapply method_action; [done| |done..]. cbn [method]. unfold replace_entry. cbn in Hz.
    rewrite Hz, (held_guarded i l Hi). cbn [mbind outcome_bind]. rewrite Href. cbn [mbind outcome_bind deref].
    rewrite Hwr. cbn [mbind outcome_bind deref].
    rewrite (held_set_guarded i l Hi), Hw. cbn [mbind outcome_bind]. by rewrite (put_drop_write c i l Hi).
Qed.
End at_state_actions.

(** ** All actions *)

(** The shard whose lock an action waits for, and the guard it writes
    through. *)
Definition needs c (a : action K V) : option Z :=
  match a with
  | AGet k | AGetMut k | AEntry k | AInsert k _ | ARemove k | ARemoveIf k _ | ARemoveIfMut k _ =>
      Some (route c k)
  | AClearTurn i | ARetainTurn i _ => Some (Z.of_nat i)
  | _ => None
  end.

Definition written (a : action K V) : option nat :=
  match a with AWrite id _ | AInsertEntry id _ => Some id | _ => None end.

Lemma exec_ok n a σ : ginv (S n) σ → progress n (written a) (needs (s_cache σ) a) σ (exec a σ).
Proof.
  destruct σ as [c gs]. intros Hinv.
  destruct a as [k|k|k|k|k|k|k v|k|k f|k f|i|i f|id|id v|id|id|id v|id v|id v|id|id v];
    cbn [written needs s_cache].
  1,2: by apply get_action.
  1,2: by apply get_mut_action.
  1,2: by apply entry_action.
  1: by apply insert_action.
  1: by apply (remove_actions n c gs Hinv k (λ _ _, true) (λ _ v, (v, true))).
  1: by apply (remove_actions n c gs Hinv k f (λ _ v, (v, true))).
  1: by apply (remove_actions n c gs Hinv k (λ _ _, true) f).
  1: by apply (turn_actions n c gs Hinv i (λ _ v, (v, true))).
  1: by apply turn_actions.
  1: by apply read_action.
  1: by apply write_action.
  1: by apply downgrade_action.
  1: by apply drop_action.
  1-3: by apply entry_insert_actions.
  1,2: by apply entry_consume_actions.
Qed.
End steps.
