(* ===== verification/IterSpec.v ===== *)
(** * IterSpec: loops over iterators

    A [for] loop over [Iter] or [IterMut] visits the buckets of one shard after
    the other, holding the lock of the current shard; the final world has no
    live [Arc] and the lock words of the start. The loop is reduced to a
    function on the list of shards ([over_shards]). *)

From stdpp Require Import base gmap list.
From S2P Require Import Prelude Machine Lock RawTable Util Shard ShardOps ShardModel ShardSim.
From S2P Require Import Evict Safety Exact ShardSpec TryResult Cache Iter CacheSpec CacheEffects.

Open Scope Z_scope.

Section iter_spec.
Context {K V : Type} `{Countable K} `{!BuildHasher K} `{!Target}.
Context `{!RawTable (K * CacheEntry V)} `{!RawTableSpec (K * CacheEntry V)}.
Implicit Types (c : NeoCache K V) (k : K) (v : V) (i j : nat) (l : RwLock K V).
Implicit Types (g : guard_kind K V) (s : ShardData K V) (a : arc).

(** A guard of kind [g] on shard [l]: the word becomes [w] while it lives. *)
Definition guard_ok g l (w : Z) : Prop :=
  (∀ c i, shards c !! i = Some l →
     gk_yield g (Z.of_nat i) c ⇓ set_shard (Z.of_nat i) (mkLock w (lock_data l)) c) ∧
  (∀ c i l0 s, shards c !! i = Some l0 →
     gk_drop g (Z.of_nat i) (set_shard (Z.of_nat i) (mkLock w s) c) ⇓
       set_shard (Z.of_nat i) (mkLock (lock_word l) s) c).

Lemma write_guard_ok l : lock_word l = 0 → guard_ok write_guard l ONE_WRITER.
Proof.
  intros Hw. split.
  - intros c i Hi. cbn. by rewrite (yield_write _ _ _ Hi), Hw, lock_exclusive_free.
  - intros c i l0 s Hi. cbn. by rewrite (drop_write_set _ _ _ _ Hi), Hw.
Qed.

Lemma read_guard_ok l w :
  lock_ok (lock_word l) → lock_shared (lock_word l) ⇓ w → guard_ok read_guard l w.
Proof.
  intros Hok Hw. destruct (lock_shared_ok _ _ Hok Hw) as (_ & _ & Hun). split.
  - intros c i Hi. cbn. by rewrite (yield_read _ _ _ Hi), Hw.
  - intros c i l0 s Hi. cbn. unfold drop_read. rewrite (get_set_shard _ _ _ _ Hi). cbn.
    by rewrite Hun, set_shard_twice.
Qed.

Lemma set_shard_comm c i j l l' :
  i ≠ j → set_shard (Z.of_nat i) l (set_shard (Z.of_nat j) l' c) =
          set_shard (Z.of_nat j) l' (set_shard (Z.of_nat i) l c).
Proof.
  intros Hne. unfold set_shard. cbn. f_equal. rewrite !Nat2Z.id. by apply list_insert_insert_ne.
Qed.

Lemma set_shard_id c i l : shards c !! i = Some l → set_shard (Z.of_nat i) l c = c.
Proof. intros Hi. unfold set_shard. rewrite Nat2Z.id, list_insert_id by done. by destruct c. Qed.

Lemma set_shard_lookup_ne c i j l : i ≠ j → shards (set_shard (Z.of_nat j) l c) !! i = shards c !! i.
Proof. intros Hne. cbn. rewrite Nat2Z.id. by apply list_lookup_insert_ne. Qed.

Lemma set_shard_lookup_eq c i l l0 :
  shards c !! i = Some l0 → shards (set_shard (Z.of_nat i) l c) !! i = Some l.
Proof.
  intros Hi. cbn. rewrite Nat2Z.id. apply list_lookup_insert_eq. by eapply lookup_lt_Some.
Qed.

Lemma set_shard_count c z l : _shard_count (set_shard z l c) = _shard_count c.
Proof. unfold _shard_count. cbn. by rewrite length_insert. Qed.

(** ** From shard to shard *)

(** The iterator has finished the shards before [i] and still has the guard
    of the last of them; without guards the cache would be [c]. *)
Definition between g i c (it : Iter) (w : world K V) : Prop :=
  shard_i it = Z.of_nat i ∧
  ((current it = None ∧ w = mkWorld c ∅) ∨
   ∃ a j l wj s, current it = Some (a, []) ∧ (j < i)%nat ∧
     shards c !! j = Some (mkLock (lock_word l) s) ∧ guard_ok g l wj ∧
     w = mkWorld (set_shard (Z.of_nat j) (mkLock wj s) c) {[a := mkArc (Z.of_nat j) 1]}).

Lemma between_drop g i c it w : between g i c it w → drop_current g it w ⇓ mkWorld c ∅.
Proof.
  intros [_ [[Hcur ->]|(a & j & l & wj & s & Hcur & _ & Hj & [_ Hdrop] & ->)]];
    unfold drop_current; rewrite Hcur; [done|].
  unfold arc_drop. cbn. rewrite lookup_singleton_eq. cbn. rewrite (Hdrop _ _ _ _ Hj). cbn.
  by rewrite (set_shard_id _ _ _ Hj), delete_singleton_eq.
Qed.

Lemma between_cache g i c it w j :
  between g i c it w → (i ≤ j)%nat →
  _shard_count (w_cache w) = _shard_count c ∧ shards (w_cache w) !! j = shards c !! j.
Proof.
  intros [_ [[_ ->]|(a & j' & l' & wj & s & _ & Hj & _ & _ & ->)]] Hle; [done|].
  cbn [w_cache]. rewrite set_shard_count, set_shard_lookup_ne by lia. done.
Qed.

Lemma next_end g i c it w :
  between g i c it w → Z.of_nat i = _shard_count c → next g it w ⇓ (w, it, None).
Proof.
  intros Hbt Hend. pose proof Hbt as [Hi Hcase]. unfold next. cbn [next_loop].
  destruct (between_cache g i c it w i Hbt) as [-> _]; [done|]. rewrite Hi, Hend, Z.eqb_refl.
  destruct Hcase as [[-> _]|(a & j & l & wj & s & -> & _)]; done.
Qed.

(** Releasing the previous shard while the guard of shard [i] lives. *)
Lemma between_release g i c it w a' l wl :
  between g i c it w → shards c !! i = Some l → a' ∉ dom (w_arcs w) →
  drop_current g it (mkWorld (set_shard (Z.of_nat i) (mkLock wl (lock_data l)) (w_cache w))
    (<[a' := mkArc (Z.of_nat i) 1]> (w_arcs w))) ⇓
  mkWorld (set_shard (Z.of_nat i) (mkLock wl (lock_data l)) c) {[a' := mkArc (Z.of_nat i) 1]}.
Proof.
  intros [Hi Hcase] Hl Hfr.
  destruct Hcase as [[Hcur ->]|(a & j & l' & wj & s & Hcur & Hj & Hjl & [_ Hdj] & ->)];
    unfold drop_current; rewrite Hcur; [done|].
  assert (a' ≠ a).
  { intros ->. apply Hfr. cbn [w_arcs]. rewrite dom_singleton. by apply elem_of_singleton. }
  unfold arc_drop. cbn [w_arcs w_cache]. rewrite lookup_insert_ne by done. rewrite lookup_singleton_eq.
  cbn [deref mbind outcome_bind arc_strong arc_shard]. rewrite (set_shard_comm _ i j) by lia.
  rewrite (Hdj _ j (mkLock (lock_word l') s)) by (rewrite set_shard_lookup_ne by lia; done).
  cbn. rewrite (set_shard_id _ j); [|by rewrite set_shard_lookup_ne by lia].
  by rewrite delete_insert_ne, delete_singleton_eq by done.
Qed.

(** Entering the next shard: its lock is taken, then the previous one
    released. *)
Lemma next_turn g i c it w l wl :
  between g i c it w → shards c !! i = Some l → guard_ok g l wl → _shard_count c < usize_mod →
  ∃ a, next g it w =
    next g (mkIter (Z.of_nat (S i)) (Some (a, rt_iter (smap (lock_data l)))))
      (mkWorld (set_shard (Z.of_nat i) (mkLock wl (lock_data l)) c) {[a := mkArc (Z.of_nat i) 1]}).
Proof.
  intros Hbt Hl [Hy _] Hcount. pose proof Hbt as [Hi Hcase]. pose proof (lookup_lt_Some _ _ _ Hl) as Hlt.
  exists (fresh (dom (w_arcs w))). set (a' := fresh _).
  pose proof (is_fresh (dom (w_arcs w))) as Hfr0. fold a' in Hfr0.
  destruct (between_cache g i c it w i Hbt) as [Hcnt Hwl]; [lia|]. rewrite Hl in Hwl.
  unfold next. cbn [shard_i w_cache]. rewrite Hi, Hcnt, set_shard_count.
  assert (Hne : (Z.of_nat i =? _shard_count c) = false) by (unfold _shard_count; lia).
  replace (Z.to_nat (_shard_count c - Z.of_nat i)) with (S (Z.to_nat (_shard_count c - Z.of_nat (S i))))
    by (unfold _shard_count; lia).
  set (fuel := Z.to_nat _). remember (S fuel) as fuel' eqn:Hfuel.
  pose proof (between_release g i c it w a' l wl Hbt Hl Hfr0) as Hdrop.
  assert (Hadd : usize_add (Z.of_nat i) 1 ⇓ Z.of_nat (S i)).
  { rewrite usize_add_small; [f_equal; lia|unfold _shard_count in Hcount; lia]. }
  assert (Hbody : (c ← gk_yield g (shard_i it) (w_cache w);
     s ← guarded (shard_i it) c;
     let '(w, a) := arc_new (shard_i it) (mkWorld c (w_arcs w)) in
     w ← drop_current g it w;
     i ← usize_add (shard_i it) 1;
     next_loop g fuel' (mkIter i (Some (a, rt_iter (smap s)))) w) =
    next_loop g fuel' (mkIter (Z.of_nat (S i)) (Some (a', rt_iter (smap (lock_data l)))))
      (mkWorld (set_shard (Z.of_nat i) (mkLock wl (lock_data l)) c) {[a' := mkArc (Z.of_nat i) 1]})).
  { rewrite Hi, (Hy _ _ Hwl). cbn [mbind outcome_bind]. rewrite (guarded_set _ _ _ _ Hwl).
    cbn [mbind outcome_bind lock_data]. unfold arc_new. cbn [w_arcs w_cache]. fold a'.
    rewrite Hdrop. cbn [mbind outcome_bind]. rewrite Hadd. done. }
  cbn [next_loop]. rewrite Hi, Hcnt, Hne. rewrite Hi in Hbody.
  destruct Hcase as [[Hcur _]|(a & j & l' & wj & s & Hcur & _)]; rewrite Hcur; exact Hbody.
Qed.

(** ** The buckets of a shard *)

Section loop.
Context {St E : Type} g (body : RefMulti → St → world K V → outcome (world K V * (St + E))).
Context (turn : bucket → St → ShardData K V → outcome (ShardData K V * (St + E))).

(** The body works on the shard behind the guard only. *)
Hypothesis body_turn : ∀ a b st c arcs i l n,
  arcs !! a = Some (mkArc (Z.of_nat i) n) → shards c !! i = Some l →
  body (mkRefMulti a b) st (mkWorld c arcs) =
    ('(s, r) ← turn b st (lock_data l);
     Ret (mkWorld (set_shard (Z.of_nat i) (mkLock (lock_word l) s) c) arcs, r)).
Hypothesis turn_live : ∀ b st s r, turn b st s ⇓ r → is_Some (rt_as_ref (smap s) b).

Fixpoint try_buckets (bs : list bucket) (st : St) s : outcome (ShardData K V * (St + E)) :=
  match bs with
  | [] => Ret (s, inl st)
  | b :: bs' =>
      '(s, r) ← turn b st s;
      match r with inl st => try_buckets bs' st s | inr err => Ret (s, inr err) end
  end.

Fixpoint try_shards (ls : list (RwLock K V)) (st : St) : outcome (list (RwLock K V) * (St + E)) :=
  match ls with
  | [] => Ret ([], inl st)
  | l :: ls' =>
      '(s, r) ← try_buckets (rt_iter (smap (lock_data l))) st (lock_data l);
      match r with
      | inl st => '(ls', r) ← try_shards ls' st; Ret (mkLock (lock_word l) s :: ls', r)
      | inr err => Ret (mkLock (lock_word l) s :: ls', inr err)
      end
  end.

Definition items (ls : list (RwLock K V)) : nat :=
  sum_list (length ∘ rt_iter ∘ smap ∘ lock_data <$> ls).

(** One reference, from [next] to its drop: the loop goes on, or the iterator
    is dropped too. *)
Lemma for_loop_item c i l w a b bs fuel z st s s' r :
  shards c !! i = Some l → turn b st s ⇓ (s', r) →
  for_loop g body (S fuel) (mkIter z (Some (a, b :: bs))) st
    (mkWorld (set_shard (Z.of_nat i) (mkLock w s) c) {[a := mkArc (Z.of_nat i) 1]}) =
  (let w' := mkWorld (set_shard (Z.of_nat i) (mkLock w s') c) {[a := mkArc (Z.of_nat i) 1]} in
   match r with
   | inl st' => for_loop g body fuel (mkIter z (Some (a, bs))) st' w'
   | inr err => w ← drop_iter g (mkIter z (Some (a, bs))) w'; Ret (w, inr err)
   end).
Proof.
  intros Hi Ht. destruct (turn_live _ _ _ _ Ht) as [x Hx].
  cbn [for_loop]. unfold next. cbn [next_loop current shard_i]. unfold arc_shard_data, arc_clone.
  cbn [w_arcs w_cache]. rewrite !lookup_singleton_eq. cbn [deref mbind outcome_bind arc_shard arc_strong].
  rewrite (guarded_set _ _ _ _ Hi). cbn [mbind outcome_bind lock_data]. rewrite Hx.
  cbn [deref mbind outcome_bind]. rewrite insert_singleton_eq.
  rewrite (body_turn _ _ _ _ _ i (mkLock w s) 2); [|apply lookup_singleton_eq|by eapply set_shard_lookup_eq].
  cbn [lock_data lock_word]. rewrite Ht. cbn [mbind outcome_bind].
  unfold drop_multi, arc_drop at 1. cbn [w_arcs w_cache multi_guard]. rewrite lookup_singleton_eq.
  cbn [deref mbind outcome_bind arc_shard arc_strong]. by rewrite insert_singleton_eq, set_shard_twice.
Qed.

Lemma for_loop_buckets c i l w a bs fuel z st s s' r :
  shards c !! i = Some l → try_buckets bs st s ⇓ (s', r) → guard_ok g l w →
  for_loop g body (length bs + fuel) (mkIter z (Some (a, bs))) st
    (mkWorld (set_shard (Z.of_nat i) (mkLock w s) c) {[a := mkArc (Z.of_nat i) 1]}) =
  match r with
  | inl st' => for_loop g body fuel (mkIter z (Some (a, []))) st'
      (mkWorld (set_shard (Z.of_nat i) (mkLock w s') c) {[a := mkArc (Z.of_nat i) 1]})
  | inr err => Ret (mkWorld (set_shard (Z.of_nat i) (mkLock (lock_word l) s') c) ∅, inr err)
  end.
Proof.
  intros Hi Hb [_ Hdrop]. revert st s Hb. induction bs as [|b bs IH]; intros st s; cbn [try_buckets length].
  - by intros [= <- <-].
  - intros ([s1 [st1|err]] & Ht & Hrest)%bind_Ret; cbn [Nat.add];
      rewrite (for_loop_item c i l w a b bs _ z st s s1 _ Hi Ht); [by apply IH|].
    injection Hrest as <- <-. unfold drop_iter, drop_current, arc_drop. cbn [current w_arcs w_cache].
    rewrite lookup_singleton_eq. cbn [deref mbind outcome_bind arc_shard arc_strong].
    rewrite (Hdrop c i l s1 Hi). cbn. by rewrite delete_singleton_eq.
Qed.

(** ** All shards *)

Lemma for_loop_shards ls pre c it w fuel st ls' r :
  shards c = pre ++ ls → between g (length pre) c it w → _shard_count c < usize_mod →
  Forall (λ l, ∃ wl, guard_ok g l wl) ls → try_shards ls st ⇓ (ls', r) →
  for_loop g body (items ls + S fuel) it st w ⇓
    (mkWorld (mkCache (shift c) (pre ++ ls') (cache_capacity c)) ∅, r).
Proof.
  revert pre c it w st ls'. induction ls as [|l ls IH]; intros pre c it w st ls' Hsh Hbt Hcnt Hall.
  - cbn [try_shards]. intros [= <- <-]. change (items [] + S fuel)%nat with (S fuel). cbn [for_loop].
    rewrite (next_end _ _ _ _ _ Hbt); [|unfold _shard_count; by rewrite Hsh, app_nil_r].
    cbn [mbind outcome_bind]. unfold drop_iter. rewrite (between_drop _ _ _ _ _ Hbt). cbn.
    rewrite <-Hsh. by destruct c.
  - cbn [try_shards]. intros ([s1 r1] & Hb & Hrest)%bind_Ret.
    apply Forall_cons in Hall as [(wl & Hg) Hall].
    assert (Hl : shards c !! length pre = Some l) by (by rewrite Hsh, list_lookup_middle).
    destruct (next_turn g _ c it w l wl Hbt Hl Hg Hcnt) as [a Hnext].
    assert (Hfor : ∀ n, for_loop g body (S n) it st w = for_loop g body (S n)
      (mkIter (Z.of_nat (S (length pre))) (Some (a, rt_iter (smap (lock_data l))))) st
      (mkWorld (set_shard (Z.of_nat (length pre)) (mkLock wl (lock_data l)) c)
         {[a := mkArc (Z.of_nat (length pre)) 1]})) by (intros n; cbn [for_loop]; by rewrite Hnext).
    replace (items (l :: ls) + S fuel)%nat
      with (S (length (rt_iter (smap (lock_data l))) + (items ls + fuel)))%nat
      by (unfold items; cbn; lia).
    rewrite Hfor.
    replace (S (length (rt_iter (smap (lock_data l))) + (items ls + fuel)))%nat
      with (length (rt_iter (smap (lock_data l))) + (items ls + S fuel))%nat by lia.
    rewrite (for_loop_buckets c (length pre) l wl a _ _ _ st _ s1 r1 Hl Hb Hg).
    set (c' := set_shard (Z.of_nat (length pre)) (mkLock (lock_word l) s1) c).
    assert (Hsh' : shards c' = (pre ++ [mkLock (lock_word l) s1]) ++ ls).
    { subst c'. cbn. rewrite Nat2Z.id, Hsh, insert_app_r_alt by done.
      by rewrite Nat.sub_diag, <-app_assoc. }
    destruct r1 as [st1|err].
    2:{ injection Hrest as <- <-. do 3 f_equal. rewrite <-app_assoc in Hsh'. cbn [app] in Hsh'.
        rewrite <-Hsh'. by destruct c. }
    apply bind_Ret in Hrest as ([ls1 r2] & Hrest & [= <- <-]).
    rewrite <-(set_shard_twice _ (mkLock (lock_word l) s1)). fold c'.
    rewrite (IH (pre ++ [mkLock (lock_word l) s1]) c' _ _ st1 ls1); [by rewrite <-app_assoc|done| | |done|done].
    + rewrite length_app, Nat.add_1_r. split; [done|]. right.
      exists a, (length pre), l, wl, s1. split_and!; [done|lia| |done|done].
      by eapply set_shard_lookup_eq.
    + subst c'. by rewrite set_shard_count.
Qed.

Lemma try_for_each_ok c st ls' r :
  _shard_count c < usize_mod → Forall (λ l, ∃ wl, guard_ok g l wl) (shards c) →
  try_shards (shards c) st ⇓ (ls', r) →
  try_for_each g body st c ⇓ (mkWorld (mkCache (shift c) ls' (cache_capacity c)) ∅, r).
Proof.
  intros Hcnt Hall Hls. unfold try_for_each. rewrite <-Nat.add_1_r.
  apply (for_loop_shards (shards c) [] c iter_new _ 0 st ls' r); try done.
  split; [done|]. by left.
Qed.
End loop.

(** ** Loops that do not fail *)

Section plain.
Context {St : Type} g (body : RefMulti → St → world K V → outcome (world K V * St)).
Context (turn : bucket → St → ShardData K V → outcome (ShardData K V * St)).
Hypothesis body_turn : ∀ a b st c arcs i l n,
  arcs !! a = Some (mkArc (Z.of_nat i) n) → shards c !! i = Some l →
  body (mkRefMulti a b) st (mkWorld c arcs) =
    ('(s, st) ← turn b st (lock_data l);
     Ret (mkWorld (set_shard (Z.of_nat i) (mkLock (lock_word l) s) c) arcs, st)).
Hypothesis turn_live : ∀ b st s r, turn b st s ⇓ r → is_Some (rt_as_ref (smap s) b).

Fixpoint over_buckets (bs : list bucket) (st : St) s : outcome (ShardData K V * St) :=
  match bs with
  | [] => Ret (s, st)
  | b :: bs' => '(s, st) ← turn b st s; over_buckets bs' st s
  end.

Fixpoint over_shards (ls : list (RwLock K V)) (st : St) : outcome (list (RwLock K V) * St) :=
  match ls with
  | [] => Ret ([], st)
  | l :: ls' =>
      '(s, st) ← over_buckets (rt_iter (smap (lock_data l))) st (lock_data l);
      '(ls', st) ← over_shards ls' st;
      Ret (mkLock (lock_word l) s :: ls', st)
  end.

Definition no_error b st s : outcome (ShardData K V * (St + Empty_set)) :=
  '(s, st) ← turn b st s; Ret (s, inl st).

Lemma over_buckets_try bs st s s' st' :
  over_buckets bs st s ⇓ (s', st') → try_buckets no_error bs st s ⇓ (s', inl st').
Proof.
  revert st s. induction bs as [|b bs IH]; intros st s; cbn [over_buckets try_buckets];
    [by intros [= <- <-]|].
  intros ([s1 st1] & Ht & Hrest)%bind_Ret.
  assert (no_error b st s ⇓ (s1, inl st1)) as -> by (unfold no_error; by rewrite Ht). by apply IH.
Qed.

Lemma over_shards_try ls st ls' st' :
  over_shards ls st ⇓ (ls', st') → try_shards no_error ls st ⇓ (ls', inl st').
Proof.
  revert st ls'. induction ls as [|l ls IH]; intros st ls'; cbn; [by intros [= <- <-]|].
  intros ([s1 st1] & Hb & ([ls1 st2] & Hrest & [= <- <-])%bind_Ret)%bind_Ret.
  rewrite (over_buckets_try _ _ _ _ _ Hb). cbn. by rewrite (IH _ _ Hrest).
Qed.

Lemma for_each_ok c st ls' st' :
  _shard_count c < usize_mod → Forall (λ l, ∃ wl, guard_ok g l wl) (shards c) →
  over_shards (shards c) st ⇓ (ls', st') →
  for_each g body st c ⇓ (mkWorld (mkCache (shift c) ls' (cache_capacity c)) ∅, st').
Proof.
  intros Hcnt Hall Hls%over_shards_try. unfold for_each.
  rewrite (try_for_each_ok g _ no_error) with (5 := Hls); [done| | |done..].
  - intros a b st0 c0 arcs i l n Ha Hl. rewrite (body_turn a b st0 c0 arcs i l n Ha Hl).
    unfold no_error. by destruct (turn b st0 (lock_data l)) as [[]| | | | |].
  - intros b st0 s r. unfold no_error. intros ([s1 st1] & Ht & _)%bind_Ret. by eapply turn_live.
Qed.
End plain.

(** ** Reading loops *)

Section reading.
Context {St E : Type} (f : St → K * V → St + E).

(** The pairs in order, up to the first error. *)
Fixpoint fold_pairs (st : St) (kvs : list (K * V)) : St + E :=
  match kvs with
  | [] => inl st
  | kv :: kvs' => match f st kv with inl st => fold_pairs st kvs' | inr err => inr err end
  end.

Lemma fold_pairs_app st kvs1 kvs2 :
  fold_pairs st (kvs1 ++ kvs2) =
    match fold_pairs st kvs1 with inl st => fold_pairs st kvs2 | inr err => inr err end.
Proof.
  revert st. induction kvs1 as [|kv kvs1 IH]; intros st; cbn; [done|]. by destruct (f st kv).
Qed.

(** One turn on the shard of the reference. *)
Definition read_turn (b : bucket) (st : St) s : outcome (ShardData K V * (St + E)) :=
  kv ← bucket_pair b s; Ret (s, f st kv).

Lemma read_turn_live b st s r : read_turn b st s ⇓ r → is_Some (rt_as_ref (smap s) b).
Proof.
  unfold read_turn, bucket_pair. destruct (rt_as_ref (smap s) b); [by eexists|done].
Qed.

Lemma read_body_turn a b st c arcs i l n :
  arcs !! a = Some (mkArc (Z.of_nat i) n) → shards c !! i = Some l →
  (kv ← multi_pair (mkRefMulti a b) (mkWorld c arcs); Ret (mkWorld c arcs, f st kv)) =
  ('(s, r) ← read_turn b st (lock_data l);
   Ret (mkWorld (set_shard (Z.of_nat i) (mkLock (lock_word l) s) c) arcs, r)).
Proof.
  intros Ha Hi. unfold multi_pair, arc_shard_data. cbn [w_arcs w_cache multi_guard multi_bucket].
  rewrite Ha. cbn [deref mbind outcome_bind arc_shard]. unfold guarded. rewrite (get_shard _ _ _ Hi). cbn.
  unfold read_turn. destruct (bucket_pair b (lock_data l)); try done. cbn.
  rewrite (set_shard_id c i); [done|]. rewrite Hi. by destruct l.
Qed.
End reading.

(** The pairs of a shard in the order of its buckets. *)
Definition bucket_pairs s (bs : list bucket) : list (K * V) :=
  omap (λ b, prod_map id value <$> rt_as_ref (smap s) b) bs.

Lemma try_buckets_read {St E} (f : St → K * V → St + E) s bs st :
  Forall (λ b, is_Some (rt_as_ref (smap s) b)) bs →
  try_buckets (read_turn f) bs st s ⇓ (s, fold_pairs f st (bucket_pairs s bs)).
Proof.
  intros Hall. revert st. induction Hall as [|b bs [[k e] He] _ IH]; intros st; cbn [try_buckets]; [done|].
  assert (read_turn f b st s ⇓ (s, f st (k, value e))) as ->
    by (unfold read_turn, bucket_pair; by rewrite He).
  cbn [mbind outcome_bind]. unfold bucket_pairs. cbn [omap list_omap]. rewrite He.
  cbn [fmap option_fmap option_map fold_pairs]. change (prod_map id value (k, e)) with (k, value e).
  destruct (f st (k, value e)); [apply IH|done].
Qed.

Lemma iter_live s : Forall (λ b, is_Some (rt_as_ref (smap s) b)) (rt_iter (smap s)).
Proof.
  apply Forall_forall. intros b Hb. destruct (rt_iter_spec (smap s)) as [_ Hdom].
  apply Hdom in Hb as [[h x] Hx]. rewrite rt_as_ref_spec, Hx. by eexists.
Qed.

Lemma bucket_pairs_contents s :
  shard_ok s → bucket_pairs s (rt_iter (smap s)) ≡ₚ map_to_list (contents s).
Proof.
  intros (a & Hrel & _). rewrite (contents_rel _ _ Hrel). unfold m_contents.
  rewrite map_to_list_fmap. rewrite <-(repr_iter _ _ (rel_map _ _ Hrel)). unfold bucket_pairs.
  induction (rt_iter (smap s)) as [|b bs IH]; cbn; [done|].
  destruct (rt_as_ref (smap s) b) as [[k e]|]; cbn; by rewrite IH.
Qed.

(** The pairs of the cache in the order of the iterator. *)
Definition iter_order c : list (K * V) :=
  concat ((λ l, bucket_pairs (lock_data l) (rt_iter (smap (lock_data l)))) <$> shards c).

Lemma iter_order_contents c : cache_ok c → iter_order c ≡ₚ map_to_list (cache_contents c).
Proof.
  intros Hc. rewrite (cache_contents_list _ Hc). unfold iter_order.
  assert (Hok : Forall (shard_ok ∘ lock_data) (shards c)).
  { apply Forall_lookup. intros i l Hl. by apply (co_shards _ Hc _ _ Hl). }
  induction Hok as [|l ls Hl _ IH]; [done|]. cbn [fmap list_fmap concat].
  apply Permutation_app; [by apply bucket_pairs_contents|exact IH].
Qed.

Lemma try_shards_read {St E} (f : St → K * V → St + E) ls st :
  try_shards (read_turn f) ls st ⇓
    (ls, fold_pairs f st
           (concat ((λ l, bucket_pairs (lock_data l) (rt_iter (smap (lock_data l)))) <$> ls))).
Proof.
  revert st. induction ls as [|l ls IH]; intros st; cbn [try_shards fmap list_fmap concat]; [done|].
  rewrite try_buckets_read by apply iter_live. rewrite fold_pairs_app. cbn [mbind outcome_bind].
  destruct (fold_pairs f st _) as [st1|err]; [rewrite IH|]; by destruct l.
Qed.

Lemma shard_count_usize c : geometry c → _shard_count c < usize_mod.
Proof.
  intros (n & Hn & _ & ->). unfold usize_mod. apply Z.pow_lt_mono_r; lia.
Qed.

(** A reading loop folds over the pairs and leaves the cache as it was, also
    when it stops at an error. *)
Lemma for_pairs_ok {St E} (f : St → K * V → St + E) st c :
  cache_ok c → readable c → for_pairs f st c ⇓ (c, fold_pairs f st (iter_order c)).
Proof.
  intros Hc Hread. pose proof (try_shards_read f (shards c) st) as Hls. unfold for_pairs.
  rewrite (try_for_each_ok read_guard _ (read_turn f)) with (5 := Hls).
  - cbn. by destruct c.
  - intros. by eapply read_body_turn.
  - apply read_turn_live.
  - by apply shard_count_usize, Hc.
  - apply Forall_lookup. intros i l Hl. destruct (Hread _ _ Hl) as [w Hw]. exists w.
    apply read_guard_ok; [|done]. by apply (co_shards _ Hc _ _ Hl).
Qed.

(** A loop that collects. *)
Lemma fold_pairs_append {A} (h : K * V → A) kvs acc :
  fold_pairs (E:=Empty_set) (λ acc kv, inl (acc ++ [h kv])) acc kvs = inl (acc ++ (h <$> kvs)).
Proof.
  revert acc. induction kvs as [|kv kvs IH]; intros acc; cbn; [by rewrite app_nil_r|].
  rewrite IH. by rewrite <-app_assoc.
Qed.

Lemma iter_pairs_ok c :
  cache_ok c →
  iter_order c ≡ₚ map_to_list (cache_contents c) ∧ (readable c → iter_pairs c ⇓ (c, iter_order c)).
Proof.
  intros Hc. split; [by apply iter_order_contents|]. intros Hread. unfold iter_pairs.
  rewrite for_pairs_ok by done. cbn [mbind outcome_bind].
  rewrite (fold_pairs_append id), list_fmap_id. done.
Qed.

(** ** [alter_all] *)

Section alter.
Context {St : Type} (h : St → K → V → St * V).

Definition alter_turn (b : bucket) (st : St) s : outcome (ShardData K V * St) :=
  kv ← bucket_pair b s;
  '(st, v) ← map_in_place_2 kv (λ k v, Ret (h st k v));
  s ← bucket_set b v s;
  Ret (s, st).

(** The closure as one for [_retain] that keeps every pair. *)
Definition keep_all (st : St) k v : St * (V * bool) :=
  let '(st, v) := h st k v in (st, (v, true)).

Lemma alter_turn_live b st s r : alter_turn b st s ⇓ r → is_Some (rt_as_ref (smap s) b).
Proof.
  unfold alter_turn, bucket_pair. destruct (rt_as_ref (smap s) b); [by eexists|done].
Qed.

Lemma alter_body_turn a b (st : St) c arcs i l n :
  arcs !! a = Some (mkArc (Z.of_nat i) n) → shards c !! i = Some l →
  (kv ← multi_pair (mkRefMulti a b) (mkWorld c arcs);
   '(st, v) ← map_in_place_2 kv (λ k v, Ret (h st k v));
   w ← multi_set (mkRefMulti a b) v (mkWorld c arcs);
   Ret (w, st)) =
  ('(s, st) ← alter_turn b st (lock_data l);
   Ret (mkWorld (set_shard (Z.of_nat i) (mkLock (lock_word l) s) c) arcs, st)).
Proof.
  intros Ha Hi. unfold multi_pair, multi_set, arc_shard_data.
  cbn [w_arcs w_cache multi_guard multi_bucket].
  rewrite Ha. cbn [deref mbind outcome_bind arc_shard]. unfold guarded, set_guarded.
  rewrite (get_shard _ _ _ Hi). cbn. unfold alter_turn.
  destruct (bucket_pair b (lock_data l)) as [[k v]| | | | |]; try done. cbn.
  destruct (h st k v) as [st1 v1]. cbn. by destruct (bucket_set b v1 (lock_data l)).
Qed.

(** A shard is altered the way [_retain] would with [keep_all]. *)
Lemma over_buckets_alter bs st s :
  over_buckets alter_turn bs st s = ('(st, s) ← retain_loop keep_all st bs s; Ret (s, st)).
Proof.
  revert st s. induction bs as [|b bs IH]; intros st s; [done|]. cbn [over_buckets retain_loop].
  assert (alter_turn b st s = ('(k, e) ← deref (rt_as_ref (smap s) b);
    t ← deref (rt_write (smap s) b (k, with_value (h st k (value e)).2 e));
    Ret (set_map t s, (h st k (value e)).1))) as ->.
  { unfold alter_turn, bucket_pair, bucket_set, shared_get, shared_get_mut.
    destruct (rt_as_ref (smap s) b) as [[k e]|]; cbn; [|done]. destruct (h st k (value e)) as [st1 v1]. cbn.
    by destruct (rt_write _ _ _). }
  destruct (rt_as_ref (smap s) b) as [[k e]|]; cbn; [|done]. unfold keep_all.
  destruct (h st k (value e)) as [st1 v1]. cbn. destruct (rt_write _ _ _) as [t|]; cbn; [apply IH|done].
Qed.

(** The pairs after altering them in the order of [kvs]. *)
Fixpoint alter_pairs (st : St) (kvs : list (K * V)) : St * list (K * V) :=
  match kvs with
  | [] => (st, [])
  | (k, v) :: kvs' =>
      let '(st, v') := h st k v in
      let '(st, rest) := alter_pairs st kvs' in (st, (k, v') :: rest)
  end.

Lemma alter_pairs_retain st kvs : alter_pairs st kvs = retain_pairs keep_all st kvs.
Proof.
  revert st. induction kvs as [|[k v] kvs IH]; intros st; [done|].
  destruct (h st k v) as [st1 v1] eqn:Hh. cbn [alter_pairs retain_pairs].
  assert (keep_all st k v = (st1, (v1, true))) as -> by (unfold keep_all; by rewrite Hh).
  rewrite Hh, IH. by destruct (retain_pairs _ _ _).
Qed.

(** The loop of [_retain] over the shards as a function on their list. *)
Lemma for_write_shards ls pre c c' st st' :
  quiescent c → shards c = pre ++ ls →
  for_write (λ st s, '(st, s) ← shard_retain keep_all st s; Ret (s, st)) st
    (seq (length pre) (length ls)) c ⇓ (c', st') →
  ∃ ls', over_shards alter_turn ls st ⇓ (ls', st') ∧
    c' = mkCache (shift c) (pre ++ ls') (cache_capacity c).
Proof.
  revert pre c st. induction ls as [|l ls IH]; intros pre c st Hq Hsh; cbn [for_write seq length].
  { intros [= <- <-]. exists []. split; [done|]. rewrite <-Hsh. by destruct c. }
  assert (Hl : shards c !! length pre = Some l) by (by rewrite Hsh, list_lookup_middle).
  pose proof (Hq _ _ Hl) as Hw. intros ([c1 st1] & Hwr & Hrest)%bind_Ret.
  destruct (with_write_inv _ _ _ _ _ _ Hl Hw Hwr) as (s1 & Hf & ->).
  destruct (IH (pre ++ [mkLock 0 s1]) (set_shard (Z.of_nat (length pre)) (mkLock 0 s1) c) st1)
    as (ls' & Hls & ->).
  - by apply set_shard_quiescent.
  - cbn. rewrite Nat2Z.id, Hsh, insert_app_r_alt, Nat.sub_diag, <-app_assoc by done. done.
  - by rewrite length_app, Nat.add_1_r.
  - exists (mkLock 0 s1 :: ls'). split; [|by rewrite <-app_assoc].
    cbn [over_shards]. rewrite over_buckets_alter. unfold shard_retain in Hf. rewrite Hf. cbn.
    by rewrite Hls, Hw.
Qed.

Lemma alter_all_ok st c :
  cache_ok c → quiescent c →
  ∃ kvs c', kvs ≡ₚ map_to_list (cache_contents c) ∧
    _retain keep_all st c ⇓ (c', (alter_pairs st kvs).1) ∧
    _alter_all (λ st k v, Ret (h st k v)) st c ⇓ (c', (alter_pairs st kvs).1) ∧
    cache_ok c' ∧ quiescent c' ∧ same_params c c' ∧
    cache_contents c' = list_to_map (alter_pairs st kvs).2.
Proof.
  intros Hc Hq. destruct (retain_ok keep_all st c Hc Hq) as (kvs & c' & Hkvs & Hret & Hc' & Hq' & Hsame & Hcont).
  destruct (for_write_shards (shards c) [] c c' st _ Hq eq_refl Hret) as (ls' & Hls & Hc'eq).
  exists kvs, c'. rewrite alter_pairs_retain. split_and!; try done.
  unfold _alter_all. rewrite (for_each_ok write_guard _ alter_turn) with (5 := Hls).
  - cbn. by rewrite Hc'eq.
  - intros. by eapply alter_body_turn.
  - apply alter_turn_live.
  - by apply shard_count_usize, Hc.
  - apply Forall_lookup. intros i l Hl. exists ONE_WRITER. by apply write_guard_ok, (Hq i).
Qed.
End alter.
End iter_spec.
