(* ===== verification/BridgeSpec.v ===== *)
(** * BridgeSpec: shared guards of an iterator

    The state of a read iterator whose references are dropped in any order:
    the strong count of every live [Arc] is the number of its owners, a shard
    is read-locked by the iteration exactly while an [Arc] guards it, and the
    iterator still has to yield the rest of the pairs. *)

From stdpp Require Import base functions gmap list.
From S2P Require Import Prelude Machine Lock RawTable Util Shard ShardOps ShardModel ShardSim.
From S2P Require Import Evict Safety Exact ShardSpec TryResult Cache Iter CacheSpec IterSpec.

Open Scope Z_scope.

Section spec.
Context {K V : Type} `{Countable K} `{!BuildHasher K} `{!Target}.
Context `{!RawTable (K * CacheEntry V)} `{!RawTableSpec (K * CacheEntry V)}.
Context (c : NeoCache K V) (Hc : cache_ok c) (Hread : readable c).
Implicit Types (w : world K V) (i j n : nat) (a : arc) (l : RwLock K V) (own : arc → nat).

(** The lock word with one more reader. *)
Definition reader_word l : Z := match lock_shared (lock_word l) with Ret w => w | _ => 0 end.

Lemma reader_guard i l :
  shards c !! i = Some l →
  guard_ok read_guard l (reader_word l) ∧ lock_ok (reader_word l) ∧ reader_word l ≠ 0.
Proof.
  intros Hl. destruct (Hread _ _ Hl) as [w Hw]. unfold reader_word. rewrite Hw.
  pose proof (li_lock _ _ _ (co_shards _ Hc _ _ Hl)) as Hok.
  destruct (lock_shared_ok _ _ Hok Hw) as (? & ? & _). by split; [apply read_guard_ok|].
Qed.

(** [a] is a live [Arc] with the guard of shard [j]. *)
Definition guards w a j : Prop := ∃ n, w_arcs w !! a = Some (mkArc (Z.of_nat j) n).

Definition strong w a : nat := from_option arc_strong 0%nat (w_arcs w !! a).

(** [own] counts the owners of every [Arc]; the shards below [i] have been
    entered. *)
Record world_ok own i w : Prop := {
  wo_count a : strong w a = own a;
  wo_pos a cell : w_arcs w !! a = Some cell → arc_strong cell ≠ 0%nat;
  wo_shard a cell : w_arcs w !! a = Some cell →
    ∃ j l, arc_shard cell = Z.of_nat j ∧ (j < i)%nat ∧ shards c !! j = Some l;
  wo_once a a' j : guards w a j → guards w a' j → a = a';
  wo_params : same_params c (w_cache w);
  wo_held a j l : guards w a j → shards c !! j = Some l →
    shards (w_cache w) !! j = Some (mkLock (reader_word l) (lock_data l));
  wo_free j l : (∀ a, ¬ guards w a j) → shards c !! j = Some l → shards (w_cache w) !! j = Some l
}.

Lemma world_ok_ext own own' i w : (∀ a, own a = own' a) → world_ok own i w → world_ok own' i w.
Proof. intros He []. constructor; try done. intros a. by rewrite <-He. Qed.

Lemma world_start : world_ok (λ _, 0%nat) 0 (mkWorld c ∅).
Proof. constructor; try done; by intros ? ? ? [? ?]. Qed.

Lemma owned_guards own i w a :
  world_ok own i w → own a ≠ 0%nat → ∃ j l, guards w a j ∧ shards c !! j = Some l.
Proof.
  intros Hw Hne. pose proof (wo_count _ _ _ Hw a) as Hs. unfold strong in Hs.
  destruct (w_arcs w !! a) as [[z n]|] eqn:Ha; [|by cbn in Hs; congruence].
  destruct (wo_shard _ _ _ Hw _ _ Ha) as (j & l & Hz & _ & Hl). cbn in Hz. subst z. exists j, l.
  split; [by exists n|done].
Qed.

(** Nothing is left behind when nobody owns anything. *)
Lemma world_end own i w : world_ok own i w → (∀ a, own a = 0%nat) → w = mkWorld c ∅.
Proof.
  intros Hw Hz. destruct w as [c' arcs].
  assert (Ha : arcs = ∅).
  { apply map_empty. intros a. destruct (arcs !! a) as [cell|] eqn:Ha; [|done]. exfalso.
    apply (wo_pos _ _ _ Hw a cell Ha). pose proof (wo_count _ _ _ Hw a) as Hs.
    unfold strong in Hs. cbn in Hs. rewrite Ha, Hz in Hs. done. }
  subst arcs. f_equal. destruct (wo_params _ _ _ Hw) as (Hs & Hcap & Hlen). cbn in Hs, Hcap, Hlen.
  destruct c' as [sh ls cap]. cbn in *. subst sh cap.
  replace ls with (shards c); [by destruct c|]. apply (list_eq_same_length _ _ (length ls)); [done..|].
  intros j l l' _ Hj Hj'. pose proof (wo_free _ _ _ Hw j l) as Hf. cbn in Hf. rewrite Hf in Hj'; [congruence| |done].
  intros a [n Hn]. done.
Qed.

Lemma arc_data own i w a j l :
  world_ok own i w → guards w a j → shards c !! j = Some l → arc_shard_data a w ⇓ lock_data l.
Proof.
  intros Hw Ha Hl. pose proof (wo_held _ _ _ Hw a j l Ha Hl) as Hsh. destruct Ha as [n Ha].
  unfold arc_shard_data. rewrite Ha. cbn. unfold guarded. by rewrite (get_shard _ _ _ Hsh).
Qed.

Lemma guards_owned own i w a j : world_ok own i w → guards w a j → own a ≠ 0%nat.
Proof.
  intros Hw [m Ha]. rewrite <-(wo_count _ _ _ Hw a). unfold strong. rewrite Ha. cbn.
  by apply (wo_pos _ _ _ Hw _ _ Ha).
Qed.

(** A new strong count that is not zero. *)
Lemma recount own i w a z m n :
  world_ok own i w → w_arcs w !! a = Some (mkArc z m) →
  let w' := mkWorld (w_cache w) (<[a := mkArc z (S n)]> (w_arcs w)) in
  world_ok (<[a := S n]> own) i w' ∧ (∀ a' j, guards w' a' j ↔ guards w a' j).
Proof.
  intros Hw Ha w'.
  assert (Hg : ∀ a' j', guards w' a' j' ↔ guards w a' j').
  { intros a' j'. unfold guards, w'. cbn. destruct (decide (a = a')) as [<-|Hn].
    - rewrite lookup_insert_eq, Ha. split; intros [? [= -> _]]; by eexists.
    - by rewrite lookup_insert_ne. }
  split; [|done]. constructor.
  - intros a'. unfold strong, w'. cbn. destruct (decide (a = a')) as [<-|Hn].
    + by rewrite lookup_insert_eq, fn_lookup_insert.
    + rewrite lookup_insert_ne, fn_lookup_insert_ne by done. apply Hw.
  - intros a' cell. cbn. intros [[<- <-]|[_ ?]]%lookup_insert_Some; [done|by eapply wo_pos].
  - intros a' cell. cbn.
    intros [[<- <-]|[_ ?]]%lookup_insert_Some; [by apply (wo_shard _ _ _ Hw _ _ Ha)|by eapply wo_shard].
  - intros a1 a2 j'. rewrite !Hg. by apply (wo_once _ _ _ Hw).
  - apply Hw.
  - intros a' j' l'. rewrite Hg. apply Hw.
  - intros j' l' Hf. apply Hw. intros a'. rewrite <-Hg. apply Hf.
Qed.

(** [Arc::clone]. *)
Lemma arc_clone_ok own i w a :
  world_ok own i w → own a ≠ 0%nat →
  ∃ w', arc_clone a w ⇓ w' ∧ world_ok (<[a := S (own a)]> own) i w' ∧
    (∀ a' j, guards w' a' j ↔ guards w a' j).
Proof.
  intros Hw Hne. destruct (owned_guards _ _ _ _ Hw Hne) as (j & l & [n Ha] & Hl).
  pose proof (wo_count _ _ _ Hw a) as Hs. unfold strong in Hs. rewrite Ha in Hs. cbn in Hs. subst n.
  unfold arc_clone. rewrite Ha. eexists. split; [done|]. by eapply recount.
Qed.

(** The drop of an [Arc]: the last owner releases the lock. *)
Lemma arc_drop_ok own i w a n :
  world_ok own i w → own a = S n →
  ∃ w', arc_drop read_guard a w ⇓ w' ∧ world_ok (<[a := n]> own) i w' ∧
    (∀ a' j, guards w' a' j ↔ guards w a' j ∧ (<[a := n]> own) a' ≠ 0%nat).
Proof.
  intros Hw Hn. destruct (owned_guards own i w a Hw) as (j & l & Hga & Hl); [lia|].
  pose proof Hga as [m Ha]. pose proof (wo_count _ _ _ Hw a) as Hs. unfold strong in Hs. rewrite Ha in Hs.
  cbn in Hs. assert (m = S n) as -> by congruence. clear Hs.
  unfold arc_drop. rewrite Ha. cbn [deref mbind outcome_bind arc_shard arc_strong]. destruct n as [|n].
  2:{ eexists. split; [done|]. destruct (recount own i w a _ _ n Hw Ha) as [Hw' Hg]. split; [done|].
      intros a' j'. rewrite Hg. split; [|by intros [? _]]. intros Hg'. split; [done|].
      apply Hg in Hg'. by eapply guards_owned. }
  pose proof (wo_held _ _ _ Hw a j l Hga Hl) as Hheld. destruct (reader_guard j l Hl) as ([_ Hdrop] & _).
  assert (Hc' : gk_drop read_guard (Z.of_nat j) (w_cache w) ⇓ set_shard (Z.of_nat j) l (w_cache w)).
  { rewrite <-(set_shard_id (w_cache w) j _ Hheld) at 1. rewrite (Hdrop _ _ _ _ Hheld). by destruct l. }
  rewrite Hc'. cbn [mbind outcome_bind]. eexists. split; [done|]. set (w' := mkWorld _ _).
  assert (Hg : ∀ a' j', guards w' a' j' ↔ guards w a' j' ∧ (<[a := 0%nat]> own) a' ≠ 0%nat).
  { intros a' j'. unfold guards at 1, w'. cbn. destruct (decide (a = a')) as [<-|Hne].
    - rewrite lookup_delete_eq, fn_lookup_insert. split; [by intros [? ?]|by intros [_ ?]].
    - rewrite lookup_delete_ne, fn_lookup_insert_ne by done. split; [|by intros [? _]].
      intros Hg. split; [done|]. by eapply guards_owned. }
  split; [|done]. constructor.
  - intros a'. unfold strong, w'. cbn. destruct (decide (a = a')) as [<-|Hne].
    + by rewrite lookup_delete_eq, fn_lookup_insert.
    + rewrite lookup_delete_ne, fn_lookup_insert_ne by done. apply Hw.
  - intros a' cell. cbn. intros [_ ?]%lookup_delete_Some. by eapply wo_pos.
  - intros a' cell. cbn. intros [_ ?]%lookup_delete_Some. by eapply wo_shard.
  - intros a1 a2 j' [H1 _]%Hg [H2 _]%Hg. by eapply (wo_once _ _ _ Hw).
  - destruct (wo_params _ _ _ Hw) as (? & ? & Hlen). unfold same_params. cbn. by rewrite length_insert.
  - intros a' j' l' [Hg' Hne]%Hg Hl'. cbn [w_cache w'].
    rewrite set_shard_lookup_ne; [by apply (wo_held _ _ _ Hw a')|].
    intros ->. assert (a' = a) as -> by by eapply (wo_once _ _ _ Hw). by rewrite fn_lookup_insert in Hne.
  - intros j' l' Hf Hl'. cbn [w_cache w']. destruct (decide (j' = j)) as [->|Hne].
    + rewrite (set_shard_lookup_eq _ _ _ _ Hheld). congruence.
    + rewrite set_shard_lookup_ne by done. apply Hw; [|done]. intros a' Hg'. apply (Hf a'), Hg. split; [done|].
      rewrite fn_lookup_insert_ne; [by eapply guards_owned|]. intros <-. destruct Hga as [? Hga], Hg' as [? Hg'].
      rewrite Hga in Hg'. apply Hne. injection Hg' as ?. lia.
Qed.
(** Entering shard [i]: its lock is taken and a new [Arc] guards it. *)
Lemma enter_ok own i w l :
  world_ok own i w → shards c !! i = Some l →
  ∃ c' w' a, _yield_read_shard (Z.of_nat i) (w_cache w) ⇓ c' ∧ guarded (Z.of_nat i) c' ⇓ lock_data l ∧
    arc_new (Z.of_nat i) (mkWorld c' (w_arcs w)) = (w', a) ∧ own a = 0%nat ∧ guards w' a i ∧
    world_ok (<[a := 1%nat]> own) (S i) w' ∧ (∀ a' j, guards w a' j → guards w' a' j).
Proof.
  intros Hw Hl.
  assert (Hnew : ∀ a' j', guards w a' j' → j' ≠ i).
  { intros a' j' [n Ha'] ->. destruct (wo_shard _ _ _ Hw _ _ Ha') as (j & _ & Hj & ? & _). cbn in Hj. lia. }
  assert (Hfree : shards (w_cache w) !! i = Some l).
  { apply (wo_free _ _ _ Hw); [|done]. intros a Ha. by apply Hnew in Ha. }
  destruct (reader_guard i l Hl) as ([Hy _] & _). specialize (Hy _ _ Hfree).
  set (c' := set_shard _ _ _) in Hy. eexists c', _, (fresh (dom (w_arcs w))). split; [exact Hy|].
  split; [unfold c'; by rewrite (guarded_set _ _ _ _ Hfree)|]. split; [done|].
  pose proof (is_fresh (dom (w_arcs w))) as Hfr. set (a := fresh _) in *. apply not_elem_of_dom in Hfr.
  cbn [w_arcs w_cache]. set (w' := mkWorld _ _).
  assert (Hga : guards w' a i) by (exists 1%nat; apply lookup_insert_eq).
  assert (Hg : ∀ a' j', guards w' a' j' ↔ guards w a' j' ∨ a' = a ∧ j' = i).
  { intros a' j'. unfold guards, w'. cbn. destruct (decide (a = a')) as [<-|Hne].
    - rewrite lookup_insert_eq, Hfr. split; [intros [? [= ? _]]; right; split; [done|lia]|].
      intros [[? ?]|[_ ->]]; [done|by eexists].
    - rewrite lookup_insert_ne by done. naive_solver. }
  assert (Hown : own a = 0%nat) by (rewrite <-(wo_count _ _ _ Hw); unfold strong; by rewrite Hfr).
  split_and!; [done|done| |intros a' j' ?; apply Hg; by left]. constructor.
  - intros a'. unfold strong, w'. cbn. destruct (decide (a = a')) as [<-|Hne].
    + by rewrite lookup_insert_eq, fn_lookup_insert.
    + rewrite lookup_insert_ne, fn_lookup_insert_ne by done. apply Hw.
  - intros a' cell. cbn. intros [[<- <-]|[_ ?]]%lookup_insert_Some; [done|by eapply wo_pos].
  - intros a' cell. cbn. intros [[<- <-]|[_ Ha']]%lookup_insert_Some; [by exists i, l; auto with lia|].
    destruct (wo_shard _ _ _ Hw _ _ Ha') as (j & l' & ? & ? & ?). exists j, l'. auto with lia.
  - intros a1 a2 j' [H1|[-> ->]]%Hg [H2|[-> ?]]%Hg; [by eapply (wo_once _ _ _ Hw)| | |done].
    + subst. by apply Hnew in H1.
    + by apply Hnew in H2.
  - destruct (wo_params _ _ _ Hw) as (? & ? & Hlen). unfold same_params. cbn. by rewrite length_insert.
  - intros a' j' l' [Hg'|[-> ->]]%Hg Hl'; cbn [w_cache w'].
    + unfold c'. rewrite set_shard_lookup_ne by by eapply Hnew. by apply (wo_held _ _ _ Hw a').
    + unfold c'. rewrite (set_shard_lookup_eq _ _ _ _ Hfree). congruence.
  - intros j' l' Hf Hl'. cbn [w_cache w']. unfold c'. rewrite set_shard_lookup_ne.
    + apply Hw; [|done]. intros a' Hg'. apply (Hf a'), Hg. by left.
    + intros ->. by apply (Hf a).
Qed.

(** ** The cursor *)

(** The pairs of the shards from [i] on. *)
Definition later i : list (K * V) :=
  concat ((λ l, bucket_pairs (lock_data l) (rt_iter (smap (lock_data l)))) <$> drop i (shards c)).

Definition live_in l (bs : list bucket) : Prop :=
  Forall (λ b, is_Some (rt_as_ref (smap (lock_data l)) b)) bs.

(** The iterator is about to enter shard [i] and has [rest] left to yield. *)
Definition cursor (it : Iter) i w (rest : list (K * V)) : Prop :=
  shard_i it = Z.of_nat i ∧ (i ≤ length (shards c))%nat ∧
  match current it with
  | None => rest = later i
  | Some (a, bs) => ∃ j l, guards w a j ∧ shards c !! j = Some l ∧ live_in l bs ∧
      rest = bucket_pairs (lock_data l) bs ++ later i
  end.

(** The reference reads [kv]. *)
Definition reads w (r : RefMulti) (kv : K * V) : Prop :=
  ∃ j l, guards w (multi_guard r) j ∧ shards c !! j = Some l ∧
    bucket_pair (multi_bucket r) (lock_data l) ⇓ kv.

Lemma reads_pair own i w r kv : world_ok own i w → reads w r kv → multi_pair r w ⇓ kv.
Proof.
  intros Hw (j & l & Hg & Hl & Hp). unfold multi_pair. by rewrite (arc_data _ _ _ _ _ _ Hw Hg Hl).
Qed.

(** The owners of an [Arc]: the references and the iterator. *)
Definition in_current (it : option Iter) a : nat :=
  match it ≫= current with Some (a', _) => if decide (a' = a) then 1 else 0 | None => 0 end.

Definition owners (held : arc → nat) (it : option Iter) a : nat := (held a + in_current it a)%nat.

Definition plus_one (held : arc → nat) a : arc → nat := <[a := S (held a)]> held.

Lemma later_cons i l :
  shards c !! i = Some l →
  later i = bucket_pairs (lock_data l) (rt_iter (smap (lock_data l))) ++ later (S i).
Proof. intros Hl. unfold later. by rewrite (drop_S _ _ _ Hl). Qed.

(** Dropping what the iterator holds. *)
Lemma drop_current_ok held it i w :
  world_ok (owners held (Some it)) i w →
  ∃ w', drop_current read_guard it w ⇓ w' ∧ world_ok (owners held None) i w' ∧
    (∀ a j, guards w a j → held a ≠ 0%nat → guards w' a j).
Proof.
  intros Hw. unfold drop_current. destruct (current it) as [[a bs]|] eqn:Hcur.
  - assert (Ho : owners held (Some it) a = S (held a)).
    { unfold owners, in_current. cbn. rewrite Hcur, decide_True by done. lia. }
    destruct (arc_drop_ok _ _ _ _ _ Hw Ho) as (w' & Hd & Hw' & Hg). exists w'. split; [done|].
    assert (He : ∀ a', (<[a := held a]> (owners held (Some it))) a' = owners held None a').
    { intros a'. unfold owners, in_current. cbn. rewrite Hcur. destruct (decide (a = a')) as [<-|Hne].
      - rewrite fn_lookup_insert. lia.
      - by rewrite fn_lookup_insert_ne, decide_False by done. }
    split; [by eapply world_ok_ext|]. intros a' j Ha' Hne. apply Hg. split; [done|]. rewrite He.
    unfold owners. cbn. lia.
  - exists w. split_and!; [done| |done]. eapply world_ok_ext; [|exact Hw]. intros a. unfold owners, in_current.
    cbn. by rewrite Hcur.
Qed.
(** What [next] gives: the next pair with a reference of its own, or the end. *)
Definition next_post (held : arc → nat) w (rest : list (K * V)) (res : world K V * Iter * option RefMulti) : Prop :=
  let '(w', it', r) := res in
  (∀ a j, guards w a j → held a ≠ 0%nat → guards w' a j) ∧
  ∃ i', match r with
  | Some r => ∃ kv rest', rest = kv :: rest' ∧ reads w' r kv ∧ cursor it' i' w' rest' ∧
      world_ok (owners (plus_one held (multi_guard r)) (Some it')) i' w'
  | None => rest = [] ∧ cursor it' i' w' [] ∧ world_ok (owners held (Some it')) i' w'
  end.

Lemma next_post_weaken held w w1 rest res :
  (∀ a j, guards w a j → held a ≠ 0%nat → guards w1 a j) →
  next_post held w1 rest res → next_post held w rest res.
Proof. destruct res as [[w' it'] r]. intros Hg [Hg' Hr]. split; [auto|done]. Qed.

(** A bucket of the current shard. *)
Lemma next_bucket held it i w rest a b bs :
  world_ok (owners held (Some it)) i w → cursor it i w rest → current it = Some (a, b :: bs) →
  ∃ w', (s ← arc_shard_data a w; _ ← deref (rt_as_ref (smap s) b); w ← arc_clone a w;
         Ret (w, mkIter (shard_i it) (Some (a, bs)), Some (mkRefMulti a b))) ⇓
        (w', mkIter (shard_i it) (Some (a, bs)), Some (mkRefMulti a b)) ∧
    next_post held w rest (w', mkIter (shard_i it) (Some (a, bs)), Some (mkRefMulti a b)).
Proof.
  intros Hw (Hi & Hle & Hcur) Ha. rewrite Ha in Hcur. destruct Hcur as (j & l & Hg & Hl & Hlive & ->).
  apply Forall_cons in Hlive as [[[k e] Hb] Hlive].
  assert (Ho : owners held (Some it) a = S (held a)).
  { unfold owners, in_current. cbn. rewrite Ha, decide_True by done. lia. }
  destruct (arc_clone_ok _ _ _ a Hw) as (w' & Hcl & Hw' & Hg'); [lia|]. exists w'.
  rewrite (arc_data _ _ _ _ _ _ Hw Hg Hl). cbn [mbind outcome_bind]. rewrite Hb. cbn [deref mbind outcome_bind].
  rewrite Hcl. split; [done|]. split; [intros a' j' ? _; by apply Hg'|]. exists i, (k, value e).
  exists (bucket_pairs (lock_data l) bs ++ later i).
  assert (Hgj : guards w' a j) by by apply Hg'. split_and!.
  - unfold bucket_pairs. cbn [omap list_omap]. by rewrite Hb.
  - exists j, l. split_and!; [done..|]. unfold bucket_pair. cbn [multi_bucket]. by rewrite Hb.
  - split_and!; [done..|]. cbn. by exists j, l.
  - eapply world_ok_ext; [|exact Hw']. intros a'. unfold plus_one, owners at 3. cbn [multi_guard].
    destruct (decide (a = a')) as [<-|Hne].
    + rewrite !fn_lookup_insert, Ho. unfold in_current. cbn. rewrite decide_True by done. lia.
    + rewrite !fn_lookup_insert_ne by done. unfold owners, in_current. cbn. by rewrite Ha.
Qed.

(** Entering the next shard. *)
Lemma next_enter held it i w rest l :
  world_ok (owners held (Some it)) i w → cursor it i w rest → shards c !! i = Some l →
  (∀ a b bs, current it ≠ Some (a, b :: bs)) →
  ∃ c' w1 a w', _yield_read_shard (Z.of_nat i) (w_cache w) ⇓ c' ∧ guarded (Z.of_nat i) c' ⇓ lock_data l ∧
    arc_new (Z.of_nat i) (mkWorld c' (w_arcs w)) = (w1, a) ∧ drop_current read_guard it w1 ⇓ w' ∧
    let it' := mkIter (Z.of_nat (S i)) (Some (a, rt_iter (smap (lock_data l)))) in
    world_ok (owners held (Some it')) (S i) w' ∧ cursor it' (S i) w' rest ∧
    (∀ a j, guards w a j → held a ≠ 0%nat → guards w' a j).
Proof.
  intros Hw (Hi & Hle & Hcur) Hl Hend.
  destruct (enter_ok _ _ _ _ Hw Hl) as (c' & w1 & a & Hy & Hs & Hnew & Hown & Hga & Hw1 & Hg1).
  assert (Hz : held a = 0%nat ∧ in_current (Some it) a = 0%nat) by (unfold owners in Hown; lia).
  destruct Hz as [Hheld Hin].
  destruct (drop_current_ok (<[a := 1%nat]> held) it (S i) w1) as (w' & Hd & Hw' & Hg').
  { eapply world_ok_ext; [|exact Hw1]. intros a'. unfold owners. destruct (decide (a = a')) as [<-|Hne].
    - rewrite !fn_lookup_insert. lia.
    - by rewrite !fn_lookup_insert_ne by done. }
  exists c', w1, a, w'. split_and!; [done..|]. cbn zeta. split_and!.
  - eapply world_ok_ext; [|exact Hw']. intros a'. unfold owners, in_current. cbn.
    destruct (decide (a = a')) as [<-|Hne].
    + rewrite fn_lookup_insert. lia.
    + by rewrite fn_lookup_insert_ne by done.
  - split; [done|]. split; [by apply lookup_lt_Some in Hl|]. exists i, l.
    split; [apply Hg'; [done|by rewrite fn_lookup_insert]|]. split; [done|]. split; [apply iter_live|].
    rewrite <-(later_cons _ _ Hl). destruct (current it) as [[a0 [|b bs]]|]; [|by edestruct Hend|done].
    by destruct Hcur as (? & ? & _ & _ & _ & ->).
  - intros a' j Ha' Hne. apply Hg'; [by apply Hg1|]. destruct (decide (a = a')) as [<-|Hne']; [done|].
    by rewrite fn_lookup_insert_ne.
Qed.

Lemma next_loop_ok fuel held it i w rest :
  world_ok (owners held (Some it)) i w → cursor it i w rest → (length (shards c) - i < fuel)%nat →
  ∃ res, next_loop read_guard fuel it w ⇓ res ∧ next_post held w rest res.
Proof.
  revert it i w. induction fuel as [|fuel IH]; intros it i w Hw Hcu Hfuel; [lia|]. cbn [next_loop].
  destruct (match current it with Some (_, _ :: _) => true | _ => false end) eqn:Hmore.
  { destruct (current it) as [[a [|b bs]]|] eqn:Hcur; [done| |done].
    destruct (next_bucket held it i w rest a b bs Hw Hcu Hcur) as (w' & Hrun & Hpost). eauto. }
  assert (Hend : ∀ a b bs, current it ≠ Some (a, b :: bs)) by (intros a b bs Hx; by rewrite Hx in Hmore).
  assert (Hlen : _shard_count (w_cache w) = Z.of_nat (length (shards c))).
  { destruct (wo_params _ _ _ Hw) as (_ & _ & Hlen). unfold _shard_count. by rewrite Hlen. }
  pose proof Hcu as (Hi & Hle & Hcur). rewrite Hi, Hlen.
  assert (Hgoal : ∃ res, (if Z.of_nat i =? Z.of_nat (length (shards c)) then Ret (w, it, None)
    else c0 ← gk_yield read_guard (Z.of_nat i) (w_cache w);
      s ← guarded (Z.of_nat i) c0;
      let '(w0, a) := arc_new (Z.of_nat i) (mkWorld c0 (w_arcs w)) in
      w1 ← drop_current read_guard it w0;
      i0 ← usize_add (Z.of_nat i) 1;
      next_loop read_guard fuel (mkIter i0 (Some (a, rt_iter (smap s)))) w1) ⇓ res ∧ next_post held w rest res).
  2:{ destruct (current it) as [[a [|b bs]]|]; [exact Hgoal|done|exact Hgoal]. }
  destruct (Z.eqb_spec (Z.of_nat i) (Z.of_nat (length (shards c)))) as [Heq|Hne].
  - eexists. split; [done|]. split; [done|]. exists i. assert (Hl0 : later i = []).
    { unfold later. rewrite drop_ge by lia. done. }
    assert (rest = []) as ->; [|done].
    destruct (current it) as [[a [|b bs]]|]; [|by edestruct Hend|by rewrite Hcur].
    destruct Hcur as (? & ? & _ & _ & _ & ->). by rewrite Hl0.
  - destruct (lookup_lt_is_Some_2 (shards c) i) as [l Hl]; [lia|].
    destruct (next_enter held it i w rest l Hw Hcu Hl Hend) as (c' & w1 & a & w' & Hy & Hs & Hn & Hd & Hw' & Hcu' & Hg).
    change (gk_yield read_guard) with (_yield_read_shard (K:=K) (V:=V)). rewrite Hy. cbn [mbind outcome_bind].
    rewrite Hs. cbn [mbind outcome_bind]. rewrite Hn, Hd. cbn [mbind outcome_bind].
    pose proof (shard_count_usize c (co_geometry _ Hc)) as Hcnt. unfold _shard_count in Hcnt.
    rewrite usize_add_small by lia. cbn [mbind outcome_bind].
    replace (Z.of_nat i + 1) with (Z.of_nat (S i)) by lia.
    destruct (IH _ _ _ Hw' Hcu') as (res & Hrun & Hpost); [lia|]. exists res.
    split; [done|]. by eapply next_post_weaken.
Qed.

Lemma next_ok held it i w rest :
  world_ok (owners held (Some it)) i w → cursor it i w rest →
  ∃ res, iter_next it w ⇓ res ∧ next_post held w rest res.
Proof.
  intros Hw Hcu. unfold iter_next, next. eapply next_loop_ok; [done..|].
  destruct (wo_params _ _ _ Hw) as (_ & _ & Hlen). destruct Hcu as (-> & Hle & _).
  unfold _shard_count. rewrite Hlen. lia.
Qed.
End spec.
