(* ===== verification/Api.v ===== *)
(** * Api: the cache refines a map that may forget

    The abstract specification of the public interface: a finite map from keys
    to values, and for every call the reply it may give and the map it may
    leave. Only an insertion of a new key into a bounded cache may forget an
    entry, and then exactly one. [run_calls] is a caller that makes calls one
    after the other and keeps no guard. *)

From stdpp Require Import base gmap list.
From S2P Require Import Prelude Machine Lock RawTable Util Shard ShardOps ShardModel ShardSim.
From S2P Require Import Evict Safety Exact ShardSpec TryResult Cache Guards Entry Iter MapTrait.
From S2P Require Import CacheSpec CacheEffects IterSpec.

Open Scope Z_scope.

Section api.
Context {K V : Type} `{Countable K} `{!BuildHasher K} `{!Target}.
Context `{!RawTable (K * CacheEntry V)}.
Implicit Types (c : NeoCache K V) (k : K) (v : V) (m : gmap K V).

(** ** Calls *)

Inductive call :=
| CInsert k v | CRemove k | CRemoveIf k (f : K → V → bool) | CRemoveIfMut k (f : K → V → V * bool)
| CGet k | CView k (f : K → V → V) | CContains k | CLen | CIsEmpty
| CAlter k (f : K → V → V) | CAlterAll (f : K → V → V) | CRetain (f : K → V → V * bool)
| CClear | CShrink.

Inductive reply :=
| RUnit | RValue (o : option V) | RPair (o : option (K * V)) | RBool (b : bool) | RNum (n : Z).

(** [get] followed by a copy of the value and the drop of the guard. *)
Definition get_copied k c : outcome (NeoCache K V * option V) :=
  '(c, r) ← api_get k c;
  match r with
  | Some r => v ← ref_value r c; c ← drop_ref r c; Ret (c, Some v)
  | None => Ret (c, None)
  end.

Definition run_call (a : call) c : outcome (NeoCache K V * reply) :=
  match a with
  | CInsert k v => '(c, r) ← api_insert k v c; Ret (c, RValue r)
  | CRemove k => '(c, r) ← api_remove k c; Ret (c, RPair r)
  | CRemoveIf k f => '(c, r) ← api_remove_if k f c; Ret (c, RPair r)
  | CRemoveIfMut k f => '(c, r) ← api_remove_if_mut k f c; Ret (c, RPair r)
  | CGet k => '(c, r) ← get_copied k c; Ret (c, RValue r)
  | CView k f => '(c, r) ← api_view k f c; Ret (c, RValue r)
  | CContains k => '(c, r) ← api_contains_key k c; Ret (c, RBool r)
  | CLen => '(c, n) ← api_len c; Ret (c, RNum n)
  | CIsEmpty => '(c, b) ← api_is_empty c; Ret (c, RBool b)
  | CAlter k f => c ← api_alter k (λ k v, Ret (f k v)) c; Ret (c, RUnit)
  | CAlterAll f => '(c, _) ← api_alter_all (λ st k v, Ret (st, f k v)) tt c; Ret (c, RUnit)
  | CRetain f => '(c, _) ← api_retain (λ st k v, (st, f k v)) tt c; Ret (c, RUnit)
  | CClear => c ← clear c; Ret (c, RUnit)
  | CShrink => c ← api_shrink_to_fit c; Ret (c, RUnit)
  end.

Fixpoint run_calls (calls : list call) c : outcome (NeoCache K V * list reply) :=
  match calls with
  | [] => Ret (c, [])
  | a :: calls' =>
      '(c, r) ← run_call a c;
      '(c, rs) ← run_calls calls' c;
      Ret (c, r :: rs)
  end.

(** ** The specification *)

(** What [retain] keeps. *)
Definition retained (f : K → V → V * bool) m : gmap K V :=
  map_imap (λ k v, let '(v', keep) := f k v in if keep then Some v' else None) m.

(** [spec_call bounded m a m' r]: on the map [m], call [a] may reply [r] and
    leave [m']. *)
Inductive spec_call (bounded : Prop) m : call → gmap K V → reply → Prop :=
| spec_insert k v : spec_call bounded m (CInsert k v) (<[k := v]> m) (RValue (m !! k))
| spec_insert_evict k v k0 :
    bounded → m !! k = None → is_Some (m !! k0) →
    spec_call bounded m (CInsert k v) (<[k := v]> (delete k0 m)) (RValue None)
| spec_remove k : spec_call bounded m (CRemove k) (delete k m) (RPair (pair k <$> m !! k))
| spec_remove_if k f :
    let hit := match m !! k with Some v => f k v | None => false end in
    spec_call bounded m (CRemoveIf k f) (if hit : bool then delete k m else m)
      (RPair (if hit then pair k <$> m !! k else None))
| spec_remove_if_mut k f v :
    m !! k = Some v →
    spec_call bounded m (CRemoveIfMut k f)
      (if (f k v).2 then delete k m else <[k := (f k v).1]> m)
      (RPair (if (f k v).2 then Some (k, (f k v).1) else None))
| spec_remove_if_mut_none k f :
    m !! k = None → spec_call bounded m (CRemoveIfMut k f) m (RPair None)
| spec_get k : spec_call bounded m (CGet k) m (RValue (m !! k))
| spec_view k f : spec_call bounded m (CView k f) m (RValue (f k <$> m !! k))
| spec_contains k : spec_call bounded m (CContains k) m (RBool (bool_decide (is_Some (m !! k))))
| spec_len : spec_call bounded m CLen m (RNum (Z.of_nat (size m)))
| spec_is_empty : spec_call bounded m CIsEmpty m (RBool (bool_decide (m = ∅)))
| spec_alter k f : spec_call bounded m (CAlter k f) (alter (f k) k m) RUnit
| spec_alter_all f : spec_call bounded m (CAlterAll f) (map_imap (λ k v, Some (f k v)) m) RUnit
| spec_retain f : spec_call bounded m (CRetain f) (retained f m) RUnit
| spec_clear : spec_call bounded m CClear ∅ RUnit
| spec_shrink : spec_call bounded m CShrink m RUnit.

Inductive spec_run (bounded : Prop) : gmap K V → list call → gmap K V → list reply → Prop :=
| spec_nil m : spec_run bounded m [] m []
| spec_cons m a calls m' m'' r rs :
    spec_call bounded m a m' r → spec_run bounded m' calls m'' rs →
    spec_run bounded m (a :: calls) m'' (r :: rs).
End api.

Arguments call K V : clear implicits.
Arguments reply K V : clear implicits.

(** ** The cache implements it *)

Section refinement.
Context {K V : Type} `{Countable K} `{!BuildHasher K} `{!Target}.
Context `{!RawTable (K * CacheEntry V)} `{!RawTableSpec (K * CacheEntry V)}.
Implicit Types (c : NeoCache K V) (k : K) (v : V) (m : gmap K V).

(** A map with one entry less. *)
Lemma one_less m m' :
  m' ⊆ m → size m = S (size m') → ∃ k0, is_Some (m !! k0) ∧ m' = delete k0 m.
Proof.
  intros Hsub Hsz. destruct (map_choose (m ∖ m')) as (k0 & v0 & Hk0).
  { intros He. assert (Hle : m ⊆ m'); [|apply map_subseteq_size in Hle; lia].
    apply map_subseteq_spec. intros k v Hk. destruct (m' !! k) as [v'|] eqn:Hk'.
    - rewrite (lookup_weaken _ _ _ _ Hk' Hsub) in Hk. congruence.
    - assert (Hd : (m ∖ m') !! k = Some v) by by apply lookup_difference_Some. by rewrite He in Hd. }
  apply lookup_difference_Some in Hk0 as [Hk0 Hn]. exists k0. split; [by eexists|].
  apply map_subseteq_size_eq.
  - apply map_subseteq_spec. intros k v Hk. apply lookup_delete_Some. split; [|by eapply lookup_weaken].
    intros <-. congruence.
  - rewrite map_size_delete, Hk0. lia.
Qed.

(** Every shard may be locked, and [n] more entries counted. *)
Record api_ready (n : nat) c : Prop := {
  ready_ok : cache_ok c;
  ready_free : quiescent c;
  ready_unbounded : unbounded c → Z.of_nat (size (cache_contents c)) + Z.of_nat n < usize_mod;
  ready_bounded : ¬ unbounded c → cache_capacity c + _shard_count c ≤ usize_mod
}.

Lemma ready_size n c : api_ready n c → Z.of_nat (size (cache_contents c)) < usize_mod.
Proof.
  intros [Hc _ Hu Hb]. destruct (decide (cache_capacity c = 0)) as [Hz|Hz]; [specialize (Hu Hz); lia|].
  specialize (Hb Hz). pose proof (co_capacity _ Hc). unfold is_usize in *.
  pose proof (cache_size_bound c Hc). pose proof (shard_limit_sum c Hc). lia.
Qed.

(** The next state: the contents may grow by one. *)
Lemma ready_next n c c' :
  api_ready (S n) c → cache_ok c' → quiescent c' → same_params c c' →
  (size (cache_contents c') ≤ S (size (cache_contents c)))%nat → api_ready n c'.
Proof.
  intros [Hc Hq Hu Hb] Hc' Hq' (Hs & Hcap & Hlen) Hsz. unfold unbounded in *.
  constructor; [done|done| |]; unfold unbounded; rewrite Hcap.
  - intros Hz. specialize (Hu Hz). lia.
  - intros Hz. specialize (Hb Hz). unfold _shard_count in *. by rewrite Hlen.
Qed.

Lemma same_except_params z c c' : same_except z c c' → same_params c c'.
Proof. by intros []. Qed.

Lemma full_or_not c k : cache_ok c → full_at c k ∨ ¬ full_at c k.
Proof.
  intros Hc. destruct (home_exists c k (co_geometry _ Hc)) as (l & Hl).
  destruct (decide (0 < shard_cap (lock_data l) ∧ shard_live (lock_data l) = shard_cap (lock_data l)))
    as [Hf|Hf]; [left; by exists l|right]. intros (l' & Hl' & Hf'). unfold home in *.
  by assert (l' = l) as -> by congruence.
Qed.

Lemma no_more_keys (m m' : gmap K V) : no_new_keys m m' → (size m' ≤ S (size m))%nat.
Proof.
  intros Hk. rewrite <-!(size_dom (D:=gset K)).
  enough (size (dom m' : gset K) ≤ size (dom m : gset K))%nat by lia.
  apply subseteq_size. intros k. rewrite !elem_of_dom. apply Hk.
Qed.

(** Stateless closures: what [retain] and [alter_all] do does not depend on
    the order in which the pairs are visited. *)
Lemma retain_pairs_map (f : K → V → V * bool) kvs (m : gmap K V) :
  kvs ≡ₚ map_to_list m →
  list_to_map (retain_pairs (λ (st : unit) k v, (st, f k v)) tt kvs).2 = retained f m.
Proof.
  intros Hp. assert (Hnd : NoDup kvs.*1) by (rewrite Hp; apply NoDup_fst_map_to_list).
  assert (m = list_to_map kvs) as ->
    by (rewrite <-(list_to_map_to_list m); symmetry; by apply list_to_map_proper).
  clear Hp.
  induction kvs as [|[k v] kvs IH]; [done|]. apply NoDup_cons in Hnd as [Hk Hnd].
  specialize (IH Hnd). cbn [retain_pairs list_to_map foldr uncurry fst snd].
  assert (Hret : retained f (<[k := v]> (list_to_map kvs)) =
    (let '(v', keep) := f k v in if keep then <[k := v']> (retained f (list_to_map kvs))
     else retained f (list_to_map kvs))).
  { assert (Hn : (list_to_map kvs : gmap K V) !! k = None) by by apply not_elem_of_list_to_map_1.
    apply map_eq. intros k'. unfold retained. destruct (f k v) as [v' keep] eqn:Hf.
    destruct (decide (k = k')) as [<-|Hne].
    - rewrite map_lookup_imap, lookup_insert_eq. cbn. rewrite Hf. destruct keep; [by rewrite lookup_insert_eq|].
      by rewrite map_lookup_imap, Hn.
    - rewrite map_lookup_imap, lookup_insert_ne by done.
      destruct keep; [rewrite lookup_insert_ne by done|]; by rewrite map_lookup_imap. }
  rewrite Hret. destruct (f k v) as [v' keep].
  destruct (retain_pairs (λ (st : unit) k v, (st, f k v)) tt kvs) as [st l]. cbn in IH.
  destruct keep; cbn; by rewrite IH.
Qed.

Lemma retained_keys_le (f : K → V → V * bool) (m : gmap K V) : no_new_keys m (retained f m).
Proof. intros k. unfold retained. rewrite map_lookup_imap. by destruct (m !! k). Qed.

(** One call: it returns, as the specification allows, and the cache is ready
    for the next. *)
Definition refines n (a : call K V) c : Prop :=
  ∃ c' r, run_call a c ⇓ (c', r) ∧ spec_call (¬ unbounded c) (cache_contents c) a (cache_contents c') r ∧
    api_ready n c' ∧ same_params c c'.

Section one_call.
Context n c (Hr : api_ready (S n) c).

Lemma free_at k : unlocked c k.
Proof. apply quiescent_unlocked; apply Hr. Qed.

(** The cache after a call that left the other shards alone. *)
Lemma keyed_ready k c' :
  cache_ok c' → unlocked c' k → same_except (route c k) c c' →
  (size (cache_contents c') ≤ S (size (cache_contents c)))%nat → api_ready n c' ∧ same_params c c'.
Proof.
  intros Hc' Hu Hsame Hsz. split; [|by eapply same_except_params].
  eapply ready_next; [done|done| |by eapply same_except_params|done].
  by eapply same_except_quiescent; [apply Hr|done|apply Hr|].
Qed.

(** The cache after a call that kept all pairs. *)
Lemma looked_up_ready k c' : looked_up k 0 c c' → api_ready n c' ∧ same_params c c'.
Proof.
  intros [Hc' Hsame Hcont Hw]. eapply keyed_ready; [done..|]. rewrite Hcont. lia.
Qed.

(** One more entry can be counted. *)
Lemma ready_countable k : countable_at c k.
Proof.
  pose proof (ready_ok _ _ Hr) as Hc. destruct (decide (cache_capacity c = 0)) as [Hz|Hz].
  - apply unbounded_countable; [done..|]. pose proof (ready_unbounded _ _ Hr Hz). lia.
  - apply bounded_countable; [done|]. pose proof (co_capacity _ Hc). unfold is_usize in *. lia.
Qed.

Lemma insert_refines k v : refines n (CInsert k v) c.
Proof.
  pose proof (ready_ok _ _ Hr) as Hc.
  destruct (cache_insert_ok c k v Hc (free_at k) (ready_countable k)) as (c' & Hins & Hc' & Hu & Hsame & Heff).
  exists c', (RValue (cache_contents c !! k)).
  assert (Hspec : spec_call (¬ unbounded c) (cache_contents c) (CInsert k v) (cache_contents c')
    (RValue (cache_contents c !! k)) ∧
    (size (cache_contents c') ≤ S (size (cache_contents c)))%nat).
  { assert (Hins_sz : (size (<[k := v]> (cache_contents c)) ≤ S (size (cache_contents c)))%nat)
      by (rewrite map_size_insert; destruct (cache_contents c !! k); cbn; lia).
    assert (Hsub : cache_contents c' ⊆ <[k := v]> (cache_contents c)).
    { apply map_subseteq_spec. intros k' v' Hk'. destruct (decide (k' = k)) as [->|Hne].
      - rewrite lookup_insert_eq, <-(ins_here _ _ _ _ _ Heff). done.
      - rewrite lookup_insert_ne by done. by apply (ins_others _ _ _ _ _ Heff). }
    split; [|by etrans; [apply map_subseteq_size, Hsub|]].
    destruct (cache_contents c !! k) as [w|] eqn:Hk.
    { rewrite <-Hk, (ins_room _ _ _ _ _ Heff) by (left; by eexists). constructor. }
    destruct (full_or_not c k Hc) as [Hf|Hf].
    2:{ rewrite <-Hk, (ins_room _ _ _ _ _ Heff) by by right. constructor. }
    destruct (one_less _ _ Hsub) as (k0 & Hk0 & Hc0).
    { by rewrite map_size_insert_None, (ins_full _ _ _ _ _ Heff Hk Hf). }
    assert (k0 ≠ k).
    { intros ->. pose proof (ins_here _ _ _ _ _ Heff) as Hh. by rewrite Hc0, lookup_delete_eq in Hh. }
    rewrite Hc0, delete_insert_ne by done. apply spec_insert_evict; [|done|].
    - intros Hub. by apply (unbounded_not_full c k).
    - by rewrite lookup_insert_ne in Hk0. }
  destruct Hspec as [Hspec Hsz]. split_and!; [|done|by eapply keyed_ready..].
  cbn [run_call]. unfold api_insert. cbn [map_insert neo_map]. by rewrite Hins.
Qed.

Lemma size_delete_le k (m : gmap K V) : (size (delete k m) ≤ S (size m))%nat.
Proof. rewrite map_size_delete. destruct (m !! k); cbn; lia. Qed.

Lemma remove_refines k : refines n (CRemove k) c.
Proof.
  destruct (remove_effect c k (ready_ok _ _ Hr) (free_at k)) as (c' & Hrun & Hc' & Hu & Hsame & Hcont).
  eexists c', _. split_and!; [cbn [run_call]; unfold api_remove; cbn [map_remove neo_map]; by rewrite Hrun| |..].
  - rewrite Hcont. constructor.
  - eapply keyed_ready; [done..|]. rewrite Hcont. apply size_delete_le.
  - by eapply same_except_params.
Qed.

Lemma remove_if_refines k f : refines n (CRemoveIf k f) c.
Proof.
  destruct (remove_if_effect c k f (ready_ok _ _ Hr) (free_at k)) as (c' & Hrun & Hc' & Hu & Hsame & Hcont).
  eexists c', _. split_and!; [cbn [run_call]; unfold api_remove_if; cbn [map_remove_if neo_map]; by rewrite Hrun| |..].
  - rewrite Hcont. constructor.
  - eapply keyed_ready; [done..|]. rewrite Hcont. destruct (match _ with Some _ => _ | None => _ end);
      [apply size_delete_le|lia].
  - by eapply same_except_params.
Qed.

Lemma remove_if_mut_refines k f : refines n (CRemoveIfMut k f) c.
Proof.
  destruct (remove_if_mut_effect c k f (ready_ok _ _ Hr) (free_at k))
    as (c' & r & Hrun & Hc' & Hu & Hsame & Hcase).
  exists c', (RPair r).
  assert (Hspec : spec_call (¬ unbounded c) (cache_contents c) (CRemoveIfMut k f) (cache_contents c') (RPair r) ∧
    (size (cache_contents c') ≤ S (size (cache_contents c)))%nat).
  { destruct (cache_contents c !! k) as [v|] eqn:Hk.
    - pose proof (spec_remove_if_mut (¬ unbounded c) (cache_contents c) k f v Hk) as Hs.
      destruct (f k v) as [v' yes]. destruct Hcase as [-> ->]. split; [done|].
      destruct yes; [apply size_delete_le|]. rewrite map_size_insert, Hk. cbn. lia.
    - destruct Hcase as [-> ->]. split; [by constructor|lia]. }
  destruct Hspec as [Hspec Hsz]. split_and!; [|done|by eapply keyed_ready..].
  cbn [run_call]. unfold api_remove_if_mut. cbn [map_remove_if_mut neo_map]. by rewrite Hrun.
Qed.

(** [get], [view] and [contains_key]. *)
Lemma lookup_refines k f : refines n (CGet k) c ∧ refines n (CView k f) c ∧ refines n (CContains k) c.
Proof.
  pose proof (ready_ok _ _ Hr) as Hc. destruct (free_at k) as (l & Hl & Hw).
  destruct (get_then_drop c k l _ Hc Hl (unlocked_readable c k l Hl Hw)) as (c1 & r & Hget & Hcase).
  rewrite Hw in Hcase.
  assert (Hrun : ∃ c', get_copied k c ⇓ (c', cache_contents c !! k) ∧
    api_view k f c ⇓ (c', f k <$> cache_contents c !! k) ∧
    api_contains_key k c ⇓ (c', bool_decide (is_Some (cache_contents c !! k))) ∧ looked_up k 0 c c').
  { unfold get_copied, api_get, api_view, api_contains_key, map_contains_key.
    cbn [map_get map_view map_drop_read neo_map]. unfold _view. rewrite Hget. cbn [mbind outcome_bind].
    destruct (cache_contents c !! k) as [v|].
    - destruct Hcase as (g & c2 & -> & Hp & Hd & Hlu). exists c2. unfold ref_value. rewrite Hp. cbn.
      unfold drop_ref in *. rewrite Hd. cbn. done.
    - destruct Hcase as [-> Hlu]. by exists c1. }
  destruct Hrun as (c' & H1 & H2 & H3 & Hlu). destruct (looked_up_ready k c' Hlu) as [Hr' Hpar].
  split_and!; (eexists c', _; split_and!; [cbn [run_call]; by rewrite ?H1, ?H2, ?H3| |done|done]);
    rewrite (lu_contents _ _ _ _ Hlu); constructor.
Qed.

(** [len] and [is_empty]. *)
Lemma len_refines : refines n CLen c ∧ refines n CIsEmpty c.
Proof.
  pose proof (ready_ok _ _ Hr) as Hc.
  pose proof (cache_len_ok c Hc (quiescent_readable c (ready_free _ _ Hr)) (ready_size _ _ Hr)) as Hlen.
  assert (Hr' : api_ready n c).
  { eapply ready_next; [done|done|apply Hr|done|lia]. }
  split; (eexists c, _; split_and!; [|constructor|done|done]).
  - cbn. unfold api_len. cbn [map_len neo_map]. by rewrite Hlen.
  - cbn. unfold api_is_empty, map_is_empty. cbn [map_len neo_map]. rewrite Hlen. cbn. do 3 f_equal.
    apply eq_bool_prop_intro. rewrite bool_decide_spec, Is_true_true, Z.eqb_eq.
    rewrite <-map_size_empty_iff. lia.
Qed.

Lemma alter_refines k f : refines n (CAlter k f) c.
Proof.
  pose proof (alter_ok c k (λ k v, Ret (f k v)) (ready_ok _ _ Hr) (free_at k)) as Ha.
  assert (Hrun : ∃ c', api_alter k (λ k v, Ret (f k v)) c ⇓ c' ∧ cache_ok c' ∧ unlocked c' k ∧
    same_except (route c k) c c' ∧ cache_contents c' = alter (f k) k (cache_contents c)).
  { unfold api_alter. cbn [map_alter neo_map]. destruct (cache_contents c !! k) as [v|] eqn:Hk.
    - destruct Ha as (c' & ? & ? & ? & ? & Hcont). exists c'. split_and!; try done. rewrite Hcont.
      apply map_eq. intros k'. rewrite lookup_alter.
      destruct (decide (k = k')) as [<-|]; [by rewrite lookup_insert_eq, Hk|by rewrite lookup_insert_ne].
    - destruct Ha as (c' & ? & [? ? Hcont ?]). exists c'. split_and!; try done. rewrite Hcont.
      apply map_eq. intros k'. rewrite lookup_alter.
      destruct (decide (k = k')) as [<-|]; [by rewrite Hk|done]. }
  destruct Hrun as (c' & Hrun & Hc' & Hu & Hsame & Hcont).
  eexists c', _. split_and!; [cbn [run_call]; by rewrite Hrun| |..].
  - rewrite Hcont. constructor.
  - eapply keyed_ready; [done..|]. rewrite Hcont. apply no_more_keys. intros k'.
    rewrite lookup_alter. destruct (decide (k = k')) as [<-|]; [|done]. by rewrite fmap_is_Some.
  - by eapply same_except_params.
Qed.

(** Calls on all shards. *)
Lemma all_ready c' :
  cache_ok c' → quiescent c' → same_params c c' → no_new_keys (cache_contents c) (cache_contents c') →
  api_ready n c'.
Proof. intros. eapply ready_next; [done..|]. by apply no_more_keys. Qed.

Lemma retain_refines f : refines n (CRetain f) c.
Proof.
  destruct (retain_ok (λ (st : unit) k v, (st, f k v)) tt c (ready_ok _ _ Hr) (ready_free _ _ Hr))
    as (kvs & c' & Hp & Hrun & Hc' & Hq' & Hpar & Hcont).
  rewrite (retain_pairs_map f kvs (cache_contents c) Hp) in Hcont.
  eexists c', _. split_and!; [cbn [run_call]; unfold api_retain; cbn [map_retain neo_map]; by rewrite Hrun| |..|done].
  - rewrite Hcont. constructor.
  - apply all_ready; [done..|]. rewrite Hcont. apply retained_keys_le.
Qed.

Lemma alter_all_refines f : refines n (CAlterAll f) c.
Proof.
  destruct (alter_all_ok (λ (st : unit) k v, (st, f k v)) tt c (ready_ok _ _ Hr) (ready_free _ _ Hr))
    as (kvs & c' & Hp & _ & Hrun & Hc' & Hq' & Hpar & Hcont).
  assert (Hm : cache_contents c' = map_imap (λ k v, Some (f k v)) (cache_contents c)).
  { rewrite Hcont, alter_pairs_retain. by apply (retain_pairs_map (λ k v, (f k v, true))). }
  eexists c', _. split_and!; [cbn [run_call]; unfold api_alter_all; cbn [map_alter_all neo_map]; by rewrite Hrun| |..|done].
  - rewrite Hm. constructor.
  - apply all_ready; [done..|]. rewrite Hm. apply (retained_keys_le (λ k v, (f k v, true))).
Qed.

Lemma clear_refines : refines n CClear c.
Proof.
  destruct (clear_ok c (ready_ok _ _ Hr) (ready_free _ _ Hr)) as (c' & Hrun & Hc' & Hq' & Hpar & Hcont & _).
  eexists c', _. split_and!; [cbn [run_call]; by rewrite Hrun| |..|done]; rewrite ?Hcont; [constructor|].
  apply all_ready; [done..|]. intros k. rewrite Hcont, lookup_empty. by intros [? ?].
Qed.

Lemma shrink_refines : refines n CShrink c.
Proof.
  destruct (shrink_ok c (ready_ok _ _ Hr) (ready_free _ _ Hr)) as (c' & Hrun & Hc' & Hq' & Hpar & Hcont).
  eexists c', _. split_and!; [cbn [run_call]; unfold api_shrink_to_fit; cbn [map_shrink_to_fit neo_map]; by rewrite Hrun| |..|done].
  - rewrite Hcont. constructor.
  - apply all_ready; [done..|]. intros k. by rewrite Hcont.
Qed.

Lemma call_refines a : refines n a c.
Proof.
  destruct a as [k v|k|k f|k f|k|k f|k| | |k f|f|f| |].
  - apply insert_refines.
  - apply remove_refines.
  - apply remove_if_refines.
  - apply remove_if_mut_refines.
  - by apply (lookup_refines k (λ _ v, v)).
  - by apply lookup_refines.
  - by apply (lookup_refines k (λ _ v, v)).
  - apply len_refines.
  - apply len_refines.
  - apply alter_refines.
  - apply alter_all_refines.
  - apply retain_refines.
  - apply clear_refines.
  - apply shrink_refines.
Qed.
End one_call.

(** Sequences of calls. *)
Lemma calls_refine calls n c :
  api_ready (length calls + n) c →
  ∃ c' rs, run_calls calls c ⇓ (c', rs) ∧
    spec_run (¬ unbounded c) (cache_contents c) calls (cache_contents c') rs ∧
    api_ready n c' ∧ same_params c c'.
Proof.
  revert c. induction calls as [|a calls IH]; intros c Hr.
  { exists c, []. split_and!; [done|constructor|done..]. }
  destruct (call_refines _ c Hr a) as (c1 & r & Hrun & Hspec & Hr1 & Hp1).
  destruct (IH c1 Hr1) as (c' & rs & Hruns & Hspecs & Hr' & Hp').
  exists c', (r :: rs). cbn. rewrite Hrun. cbn. rewrite Hruns.
  destruct Hp1 as (? & Hcap & ?), Hp' as (? & ? & ?).
  split_and!; [done| |done|split_and!; congruence].
  eapply spec_cons; [done|]. unfold unbounded in *. by rewrite Hcap in Hspecs.
Qed.
End refinement.
