(* ===== verification/Jobs.v ===== *)
(** * Jobs: the cache operations as plans

    Every public call as the critical sections it goes through (lib.rs,
    iter.rs, mapref/entry.rs): which shard it locks, how, and what it does
    under the lock. Closures are functions. *)

From stdpp Require Import base gmap list.
From S2P Require Import Prelude Machine Lock LockMachine RawTable Util Shard ShardOps TryResult Cache Threads Api.

Open Scope Z_scope.

Section jobs.
Context {K V : Type} `{Countable K} `{!BuildHasher K} `{!Target}.
Context `{!RawTable (K * CacheEntry V)}.
Implicit Types (c : NeoCache K V) (k : K) (v : V) (s : ShardData K V).

(** The calls of Api, and the ones whose result depends on the lock or is a
    guard: [try_get] with a copy of the value, [try_get_mut] with a write,
    [entry(k).or_insert(v)] with a copy of the pair, and a loop over [iter()]
    that collects the pairs. *)
Inductive job :=
| JCall (a : call K V)
| JTryGet k
| JTryPut k v
| JOrInsert k v
| JCollect.

Inductive job_reply :=
| JReply (r : reply K V)
| JTry (r : TryResult V)
| JStored (kv : K * V)
| JPairs (kvs : list (K * V)).

#[local] Abbreviation jplan := (plan K V job_reply).

(** ** Sections on one shard *)

(** The shard of a key. *)
Definition keyed c k (f : nat → jplan) : outcome jplan :=
  idx ← shard_of c k; Ret (f (Z.to_nat idx)).

(** A blocking section under the write lock, the whole operation. *)
Definition once {A} (f : ShardData K V → outcome (ShardData K V * A)) (r : A → job_reply) (i : nat) : jplan :=
  Write None false i (λ s, '(s, a) ← f s; Ret (s, Done (r a))).

(** [_alter] and a write through [_get_mut]. *)
Definition shard_alter k (f : K → V → V) s : outcome (ShardData K V * unit) :=
  '(s, r) ← shard_get k s;
  match r with
  | Some b =>
      kv ← bucket_pair b s;
      v ← map_in_place_2 kv (λ k v, Ret (f k v));
      s ← bucket_set b v s;
      Ret (s, tt)
  | None => Ret (s, tt)
  end.

Definition shard_put k v s : outcome (ShardData K V * TryResult V) :=
  '(s, r) ← shard_get k s;
  match r with
  | Some b => s ← bucket_set b v s; Ret (s, Present v)
  | None => Ret (s, Absent)
  end.

(** [entry(k).or_insert(v)], then the pair behind the guard. *)
Definition shard_or_insert k v s : outcome (ShardData K V * (K * V)) :=
  let '(t, r) := rt_find_or_find_insert_slot (smap s) (hash_one k) (key_eq k) key_hash in
  let s := set_map t s in
  match r with
  | inl b => kv ← bucket_pair b s; Ret (s, kv)
  | inr slot =>
      '(s, b) ← vacant_fill k (hash_one k) slot v s;
      kv ← bucket_pair b s;
      Ret (s, kv)
  end.

(** ** Sections on all shards *)

(** One section per shard; [hold]: the lock is kept until the next is taken. *)
Fixpoint write_all {St} (hold : bool) (f : St → ShardData K V → outcome (ShardData K V * St))
    (r : St → job_reply) (st : St) (is_ : list nat) : jplan :=
  match is_ with
  | [] => Done (r st)
  | i :: is' => Write None hold i (λ s, '(s, st) ← f st s; Ret (s, write_all hold f r st is'))
  end.

Fixpoint read_all {St} (hold : bool) (f : St → ShardData K V → outcome St)
    (r : St → job_reply) (st : St) (is_ : list nat) : jplan :=
  match is_ with
  | [] => Done (r st)
  | i :: is' => Read hold i (λ s, st ← f st s; Ret (read_all hold f r st is'))
  end.

(** The loop bodies of [alter_all] and of a collecting loop on one shard. *)
Fixpoint alter_buckets (f : K → V → V) (bs : list bucket) s : outcome (ShardData K V) :=
  match bs with
  | [] => Ret s
  | b :: bs' =>
      kv ← bucket_pair b s;
      v ← map_in_place_2 kv (λ k v, Ret (f k v));
      s ← bucket_set b v s;
      alter_buckets f bs' s
  end.

Fixpoint collect_buckets (acc : list (K * V)) (bs : list bucket) s : outcome (list (K * V)) :=
  match bs with
  | [] => Ret acc
  | b :: bs' => kv ← bucket_pair b s; collect_buckets (acc ++ [kv]) bs' s
  end.

Definition len_section (acc : Z) s : outcome Z := usize_add acc (shard_len s).
Definition retain_section (f : K → V → V * bool) (st : unit) s : outcome (ShardData K V * unit) :=
  '(st, s) ← shard_retain (λ st k v, (st, f k v)) st s; Ret (s, st).
Definition clear_section (st : unit) s : outcome (ShardData K V * unit) := s ← clear_all s; Ret (s, st).
Definition shrink_section (st : unit) s : outcome (ShardData K V * unit) := Ret (shard_shrink_to_fit s, st).
Definition alter_section (f : K → V → V) (st : unit) s : outcome (ShardData K V * unit) :=
  s ← alter_buckets f (rt_iter (smap s)) s; Ret (s, st).
Definition collect_section (acc : list (K * V)) s : outcome (list (K * V)) :=
  collect_buckets acc (rt_iter (smap s)) s.

(** ** The plan of a job *)

Definition call_plan c (a : call K V) : outcome jplan :=
  match a with
  | CInsert k v => keyed c k (once (shard_insert k v) (λ r, JReply (RValue r)))
  | CRemove k => keyed c k (once (shard_remove k) (λ r, JReply (RPair r)))
  | CRemoveIf k f => keyed c k (once (shard_remove_if k f) (λ r, JReply (RPair r)))
  | CRemoveIfMut k f => keyed c k (once (shard_remove_if_mut k f) (λ r, JReply (RPair r)))
  | CGet k => keyed c k (λ i, Look None i k (λ o, Done (JReply (RValue (snd <$> o)))))
  | CView k f => keyed c k (λ i, Look None i k (λ o, Done (JReply (RValue (uncurry f <$> o)))))
  | CContains k =>
      keyed c k (λ i, Look None i k (λ o, Done (JReply (RBool (match o with Some _ => true | None => false end)))))
  | CLen => Ret (read_all false len_section (λ n, JReply (RNum n)) 0 (all_shards c))
  | CIsEmpty => Ret (read_all false len_section (λ n, JReply (RBool (n =? 0))) 0 (all_shards c))
  | CAlter k f => keyed c k (once (shard_alter k f) (λ _, JReply RUnit))
  | CAlterAll f => Ret (write_all true (alter_section f) (λ _, JReply RUnit) tt (all_shards c))
  | CRetain f => Ret (write_all false (retain_section f) (λ _, JReply RUnit) tt (all_shards c))
  | CClear => Ret (write_all false clear_section (λ _, JReply RUnit) tt (all_shards c))
  | CShrink => Ret (write_all false shrink_section (λ _, JReply RUnit) tt (all_shards c))
  end.

Definition job_plan c (j : job) : outcome jplan :=
  match j with
  | JCall a => call_plan c a
  | JTryGet k =>
      keyed c k (λ i, Look (Some (Done (JTry Locked))) i k
        (λ o, Done (JTry (match o with Some (_, v) => Present v | None => Absent end))))
  | JTryPut k v =>
      keyed c k (λ i, Write (Some (Done (JTry Locked))) false i
        (λ s, '(s, r) ← shard_put k v s; Ret (s, Done (JTry r))))
  | JOrInsert k v => keyed c k (once (shard_or_insert k v) JStored)
  | JCollect => Ret (read_all true collect_section JPairs [] (all_shards c))
  end.

(** ** The start *)

(** Threads with lists of jobs, on a cache nobody uses yet. *)
Definition start c (todos : list (list job)) : config K V job job_reply :=
  mkConfig (replicate (length (shards c)) (initial (length todos))) (lock_data <$> shards c)
    ((λ todo, (todo, Rest)) <$> todos).

Definition astart c (todos : list (list job)) : aconfig K V job job_reply :=
  mkAConfig (lock_data <$> shards c) ((λ todo, (todo, None)) <$> todos).
End jobs.

Arguments job K V : clear implicits.
Arguments job_reply K V : clear implicits.
