(* ===== verification/JobSpec.v ===== *)
(** * JobSpec: the plans of the cache operations are safe

    Every plan of Jobs works for every shard other threads may leave, takes
    locks in ascending order and inserts at most once. *)

From stdpp Require Import base gmap list.
From S2P Require Import Prelude Machine Lock LockMachine LockInv RawTable Util Shard ShardOps ShardModel ShardSim.
From S2P Require Import Evict Safety Exact ShardSpec TryResult Cache Guards Entry Iter MapTrait Threads ThreadLocks.
From S2P Require Import CacheSpec CacheEffects EntrySpec IterSpec ThreadInv ThreadSteps Api Jobs.

Open Scope Z_scope.

Section jobs.
Context {K V : Type} `{Countable K} `{!BuildHasher K} `{!Target}.
Context `{!RawTable (K * CacheEntry V)} `{!RawTableSpec (K * CacheEntry V)}.
Implicit Types (c : NeoCache K V) (k : K) (v : V) (s : ShardData K V) (i : nat) (j : job K V).

(** The insertions a job makes into shard [i]: at most one. *)
Definition insert_key j : option K :=
  match j with JCall (CInsert k _) | JOrInsert k _ => Some k | _ => None end.

Definition job_credit c j i : nat :=
  match insert_key j with Some k => if decide (i = Z.to_nat (route c k)) then 1 else 0 | None => 0 end.

(** The shard of a key exists. *)
Lemma keyed_plan c k f :
  cache_ok c →
  ∃ i, route c k = Z.of_nat i ∧ (i < length (shards c))%nat ∧ keyed c k f ⇓ f i.
Proof.
  intros Hc. destruct (shard_of_route c k (co_geometry _ Hc)) as [Hs Hr]. exists (Z.to_nat (route c k)).
  unfold keyed, _shard_count in *. rewrite Hs. cbn. split_and!; [lia|lia|done].
Qed.

Section plans.
Context c (Hc : cache_ok c) (bound : nat → nat).
Context (Hsum : Z.of_nat (sum_list (bound <$> all_shards c)) < usize_mod).

#[local] Abbreviation psafe := (psafe (R:=job_reply K V) c bound).
#[local] Abbreviation inv_at := (inv_at c).
#[local] Abbreviation fits := (fits c bound).

(** ** One section under the write lock *)

Lemma psafe_once {A} cr (f : ShardData K V → outcome (ShardData K V * A)) r i :
  (i < length (shards c))%nat →
  (∀ s, fits cr i s → ∃ s' a, f s ⇓ (s', a) ∧ inv_at i s' ∧
     (unbounded c → (size (contents s') ≤ size (contents s) + cr i)%nat)) →
  psafe cr None (once f r i).
Proof.
  intros Hi Hf. apply psafe_write; [by split|done|]. intros s Hs.
  destruct (Hf s Hs) as (s' & a & Hrun & Hinv & Hsz). exists s', (Done (r a)), (λ _, O). rewrite Hrun.
  split_and!; [done|done|lia| |constructor]. intros Hu. specialize (Hsz Hu). lia.
Qed.

(** Sections that keep or remove keys, or change values. *)
Definition shrinks_shard {A} (f : ShardData K V → outcome (ShardData K V * A)) : Prop :=
  ∀ s, shard_ok s → ∃ s' a, f s ⇓ (s', a) ∧ shard_step s s' ∧ no_new_keys (contents s) (contents s').

Lemma no_new_keys_size (m m' : gmap K V) : no_new_keys m m' → (size m' ≤ size m)%nat.
Proof.
  intros Hk. rewrite <-!(size_dom (D:=gset K)). apply subseteq_size. intros k. rewrite !elem_of_dom. apply Hk.
Qed.

Lemma psafe_once_shrinks {A} cr (f : ShardData K V → outcome (ShardData K V * A)) r i :
  (i < length (shards c))%nat → shrinks_shard f → psafe cr None (once f r i).
Proof.
  intros Hi Hf. apply psafe_once; [done|]. intros s [Hinv _ _].
  destruct (Hf s (li_shard _ _ _ Hinv)) as (s' & a & Hrun & Hst & Hk). exists s', a.
  split_and!; [done|by eapply lock_inv_step_keep|]. intros _. pose proof (no_new_keys_size _ _ Hk). lia.
Qed.

Lemma same_keys (m m' : gmap K V) : m' = m → no_new_keys m m'.
Proof. intros ->. by intros k. Qed.

Lemma fewer_keys k (m : gmap K V) : no_new_keys m (delete k m).
Proof. intros k' [v [_ Hv]%lookup_delete_Some]. by eexists. Qed.

Lemma put_keys k v w (m : gmap K V) : m !! k = Some w → no_new_keys m (<[k := v]> m).
Proof. intros Hk k'. destruct (decide (k = k')) as [<-|]; [by rewrite Hk|by rewrite lookup_insert_ne]. Qed.

Lemma remove_shrinks k : shrinks_shard (shard_remove k).
Proof.
  intros s Hs. destruct (shard_remove_ok k s Hs) as (s' & Hrun & Hst & _ & Hcont).
  eexists s', _. split_and!; [done|done|]. rewrite Hcont. apply fewer_keys.
Qed.

Lemma remove_if_shrinks k f : shrinks_shard (shard_remove_if k f).
Proof.
  intros s Hs. destruct (shard_remove_if_ok k f s Hs) as (s' & Hrun & Hst & _ & Hcont).
  eexists s', _. split_and!; [done|done|]. rewrite Hcont. destruct (match _ with Some _ => _ | None => _ end).
  - apply fewer_keys.
  - by apply same_keys.
Qed.

Lemma remove_if_mut_shrinks k f : shrinks_shard (shard_remove_if_mut k f).
Proof.
  intros s Hs. destruct (shard_remove_if_mut_ok k f s Hs) as (s' & r & Hrun & Hst & _ & Hcase).
  exists s', r. split_and!; [done|done|]. destruct (contents s !! k) as [v|] eqn:Hk.
  - destruct (f k v) as [v' []]; destruct Hcase as [_ ->]; [apply fewer_keys|by eapply put_keys].
  - destruct Hcase as [_ Hcont]. by apply same_keys.
Qed.

(** A write through the guard of [_get_mut]. *)
Lemma get_then_set k s :
  shard_ok s →
  ∃ s' r, shard_get k s ⇓ (s', r) ∧ shard_step s s' ∧ contents s' = contents s ∧
    match contents s !! k with
    | Some w => ∃ b, r = Some b ∧ bucket_pair b s' ⇓ (k, w) ∧
        ∀ v, ∃ s2, bucket_set b v s' ⇓ s2 ∧ shard_step s s2 ∧ contents s2 = <[k := v]> (contents s)
    | None => r = None ∧ s' = s
    end.
Proof.
  intros Hs. destruct (shard_get_ok k s Hs) as (s' & r & Hrun & Hst & Hd & Hcont & Hcase).
  exists s', r. split_and!; [done..|]. destruct (contents s !! k) as [w|]; [|done].
  destruct Hcase as (b & -> & Hb). exists b. split_and!; [done..|]. intros v.
  destruct (bucket_set_ok b k v w s' (step_ok _ _ Hst) Hb) as (s2 & Hset & Hst2 & _ & Hcont2 & _).
  exists s2. split_and!; [done| |by rewrite Hcont2, Hcont].
  eapply shard_step_trans_cap; [done| |done]. apply same_size_live; [done|apply Hst|done|by rewrite Hcont].
Qed.

Lemma alter_shrinks k f : shrinks_shard (shard_alter k f).
Proof.
  intros s Hs. destruct (get_then_set k s Hs) as (s' & r & Hrun & Hst & Hcont & Hcase).
  unfold shard_alter. rewrite Hrun. cbn [mbind outcome_bind]. destruct (contents s !! k) as [w|] eqn:Hk.
  - destruct Hcase as (b & -> & Hb & Hset). destruct (Hset (f k w)) as (s2 & Hs2 & Hst2 & Hcont2).
    rewrite Hb. cbn. rewrite Hs2. exists s2, tt. split_and!; [done|done|]. rewrite Hcont2. by eapply put_keys.
  - destruct Hcase as [-> ->]. exists s, tt. split_and!; [done|done|by apply same_keys].
Qed.

Lemma put_shrinks k v : shrinks_shard (shard_put k v).
Proof.
  intros s Hs. destruct (get_then_set k s Hs) as (s' & r & Hrun & Hst & Hcont & Hcase).
  unfold shard_put. rewrite Hrun. cbn [mbind outcome_bind]. destruct (contents s !! k) as [w|] eqn:Hk.
  - destruct Hcase as (b & -> & Hb & Hset). destruct (Hset v) as (s2 & Hs2 & Hst2 & Hcont2).
    rewrite Hs2. exists s2, (Present v). split_and!; [done|done|]. rewrite Hcont2. by eapply put_keys.
  - destruct Hcase as [-> ->]. exists s, Absent. split_and!; [done|done|by apply same_keys].
Qed.

(** Insertions: the credit is spent. *)
Lemma bound_usize i : (i < length (shards c))%nat → Z.of_nat (bound i) < usize_mod.
Proof.
  intros Hi. eapply Z.le_lt_trans; [|exact Hsum]. apply inj_le, (sum_list_elem_le _ i).
  unfold all_shards. rewrite list_lookup_fmap, lookup_seq_lt by done. done.
Qed.

Lemma unbounded_cap i s : inv_at i s → shard_cap s = 0 → unbounded c.
Proof.
  intros Hinv Hcap. pose proof (li_cap _ _ _ Hinv) as Hlim. cbn in Hlim. rewrite Hcap in Hlim.
  unfold shard_limit in Hlim. destruct (Z.eqb_spec (cache_capacity c) 0); [done|lia].
Qed.

Lemma fits_countable cr i s : (i < length (shards c))%nat → fits cr i s → (0 < cr i)%nat → countable s.
Proof.
  intros Hi [Hinv _ Hcr] Hpos Hcap. pose proof (unbounded_cap i s Hinv Hcap) as Hu. specialize (Hcr Hu).
  rewrite (unbounded_shard_live s (li_shard _ _ _ Hinv) Hcap). pose proof (bound_usize i Hi). lia.
Qed.

Lemma insert_size k v (P : Prop) (m m' : gmap K V) : insert_effect k v P m m' → (size m' ≤ S (size m))%nat.
Proof.
  intros Heff. transitivity (size (<[k := v]> m)).
  - apply map_subseteq_size, map_subseteq_spec. intros k' v' Hk'. destruct (decide (k' = k)) as [->|Hne].
    + by rewrite lookup_insert_eq, <-(ins_here _ _ _ _ _ Heff).
    + rewrite lookup_insert_ne by done. by apply (ins_others _ _ _ _ _ Heff).
  - rewrite map_size_insert. destruct (m !! k); cbn; lia.
Qed.

(** The section of an insertion of [k] in its shard. *)
Lemma psafe_insert {A} k v (f : ShardData K V → outcome (ShardData K V * A)) r i cr :
  route c k = Z.of_nat i → (i < length (shards c))%nat → (0 < cr i)%nat →
  (∀ s, shard_ok s → countable s → ∃ s' a (P : Prop), f s ⇓ (s', a) ∧ shard_step s s' ∧
     (contents s' = contents s ∨ insert_effect k v P (contents s) (contents s'))) →
  psafe cr None (once f r i).
Proof.
  intros Hr Hi Hpos Hf. apply psafe_once; [done|]. intros s Hs.
  pose proof (fits_countable cr i s Hi Hs Hpos) as Hcount. destruct Hs as [Hinv _ Hcr].
  destruct (Hf s (li_shard _ _ _ Hinv) Hcount) as (s' & a & P & Hrun & Hst & Hcase). exists s', a.
  assert (Hk : no_new_keys_but k (contents s) (contents s') ∧ (size (contents s') ≤ S (size (contents s)))%nat).
  { destruct Hcase as [Hcont|Heff].
    - rewrite Hcont. split; [apply no_new_keys_refl|lia].
    - split; [by eapply insert_no_new_keys|by eapply insert_size]. }
  destruct Hk as [Hkeys Hsz]. split_and!; [done| |intros _; lia].
  apply (lock_inv_step c k i (mkLock 0 s)); [done|done|done|done|apply lock_ok_zero].
Qed.

Lemma or_insert_section k v s :
  shard_ok s → countable s →
  ∃ s', shard_or_insert k v s ⇓ (s', (k, default v (contents s !! k))) ∧ shard_step s s' ∧
    match contents s !! k with
    | Some _ => contents s' = contents s
    | None => insert_effect k v (shard_full s) (contents s) (contents s')
    end.
Proof.
  intros Hs Hcount. unfold shard_or_insert.
  destruct (rt_find_or_find_insert_slot (smap s) (hash_one k) (key_eq k) key_hash) as [t r] eqn:Hf.
  destruct (search_ok k s t r Hs Hf) as (Hst & Hcont & Hcase). destruct r as [b|slot].
  - destruct Hcase as (v0 & -> & Hb). rewrite Hb. by exists (set_map t s).
  - destruct Hcase as [Hk Hslot]. rewrite Hk.
    destruct (insert_vacant_ok k v (set_map t s) slot (step_ok _ _ Hst)) as (s' & b & Hins & Hst' & Hb & Heff).
    + done.
    + by rewrite Hcont.
    + done.
    + rewrite (proj1 (fill_copies _ _ _ _ _)), Hins. cbn. rewrite Hb. exists s'. rewrite Hcont in Heff. split_and!; [done| |done].
      constructor; [apply Hst'|by rewrite (step_cap _ _ Hst'), (step_cap _ _ Hst)|apply Hst'].
Qed.

(** ** One section per shard *)

Lemma psafe_write_all {St} hold (f : St → ShardData K V → outcome (ShardData K V * St)) r st cr kept a n :
  (∀ st, shrinks_shard (f st)) → (a + n ≤ length (shards c))%nat →
  match kept with Some j => (j < a)%nat | None => True end →
  psafe cr kept (write_all hold f r st (seq a n)).
Proof.
  intros Hf. revert a st kept. induction n as [|n IH]; intros a st kept Hn Hk; cbn [seq write_all]; [constructor|].
  apply psafe_write; [split; [lia|done]|done|]. intros s [Hinv _ _].
  destruct (Hf st s (li_shard _ _ _ Hinv)) as (s' & st' & Hrun & Hst & Hkeys).
  eexists s', _, cr. rewrite Hrun. split_and!; [done|by eapply lock_inv_step_keep|done| |].
  - intros _. pose proof (no_new_keys_size _ _ Hkeys). lia.
  - apply IH; [lia|]. destruct hold; [lia|done].
Qed.

Lemma psafe_read_all {St} hold (f : St → ShardData K V → outcome St) r (P : St → list nat → Prop) st cr kept a n :
  (∀ st i is_ s, P st (i :: is_) → fits cr i s → ∃ st', f st s ⇓ st' ∧ P st' is_) →
  P st (seq a n) → (a + n ≤ length (shards c))%nat →
  match kept with Some j => (j < a)%nat | None => True end →
  psafe cr kept (read_all hold f r st (seq a n)).
Proof.
  intros Hf. revert a st kept. induction n as [|n IH]; intros a st kept HP Hn Hk; cbn [seq read_all] in *; [constructor|].
  apply psafe_read; [split; [lia|done]|]. intros s Hs. destruct (Hf _ _ _ s HP Hs) as (st' & Hrun & HP').
  rewrite Hrun. eexists. split; [done|]. apply IH; [done|lia|]. destruct hold; [lia|done].
Qed.

Lemma len_safe r cr : psafe cr None (read_all false len_section r 0 (all_shards c)).
Proof.
  apply (psafe_read_all _ _ _ (λ acc is_, 0 ≤ acc ∧ acc + Z.of_nat (sum_list (bound <$> is_)) < usize_mod)); [|done..].
  intros acc i is_ s [Hpos Hlt] [Hinv Hsz _]. exists (acc + shard_len s). unfold len_section.
  cbn [fmap list_fmap sum_list_with sum_list] in Hlt.
  rewrite (shard_len_contents s (li_shard _ _ _ Hinv)).
  rewrite usize_add_small by (cbn in *; lia). split; [done|]. cbn in *. lia.
Qed.

Lemma retain_shrinks f st : shrinks_shard (retain_section f st).
Proof.
  intros s Hs. destruct (shard_retain_ok (λ (st : unit) k v, (st, f k v)) st s Hs)
    as (kvs & s' & Hp & Hrun & Hst & _ & Hcont).
  eexists s', _. unfold retain_section. rewrite Hrun. split_and!; [done|done|]. intros k [v Hv].
  apply (retained_keys (λ (st : unit) k v, (st, f k v)) st kvs); [done|]. rewrite Hcont in Hv.
  apply elem_of_list_to_map_2 in Hv. apply list_elem_of_fmap. by exists (k, v).
Qed.

Lemma clear_shrinks st : shrinks_shard (clear_section st).
Proof.
  intros s Hs. destruct (shard_clear_ok s Hs) as (s' & Hrun & Hst & Hcont & _). eexists s', _.
  unfold clear_section. rewrite Hrun. split_and!; [done|done|]. intros k. rewrite Hcont, lookup_empty. by intros [].
Qed.

Lemma shrink_shrinks st : shrinks_shard (shrink_section st).
Proof.
  intros s Hs. destruct (shard_shrink_ok s Hs) as (Hst & Hcont & _). eexists _, _.
  split_and!; [done|done|by apply same_keys].
Qed.

(** The loop of [alter_all] in a shard, as in IterSpec. *)
Lemma alter_buckets_turns f bs s :
  (s ← alter_buckets f bs s; Ret (s, tt)) = over_buckets (alter_turn (λ (st : unit) k v, (st, f k v))) bs tt s.
Proof.
  revert s. induction bs as [|b bs IH]; intros s; [done|]. cbn [alter_buckets over_buckets].
  assert (Ht : alter_turn (λ (st : unit) k v, (st, f k v)) b tt s =
    (kv ← bucket_pair b s; s ← bucket_set b (f kv.1 kv.2) s; Ret (s, tt))) by done.
  rewrite Ht. destruct (bucket_pair b s) as [[k v]| | | | |]; try done. cbn.
  destruct (bucket_set b (f k v) s) as [s1| | | | |]; try done. cbn. apply IH.
Qed.

Lemma alter_section_retain f st s : alter_section f st s = retain_section (λ k v, (f k v, true)) st s.
Proof.
  destruct st. unfold alter_section, retain_section, shard_retain.
  by rewrite alter_buckets_turns, over_buckets_alter.
Qed.

Lemma collect_buckets_pairs acc bs s :
  Forall (λ b, is_Some (rt_as_ref (smap s) b)) bs →
  collect_buckets acc bs s ⇓ acc ++ bucket_pairs s bs.
Proof.
  intros Hall. revert acc. induction Hall as [|b bs [[k e] He] _ IH]; intros acc; cbn [collect_buckets].
  { unfold bucket_pairs. cbn. by rewrite app_nil_r. }
  assert (bucket_pair b s ⇓ (k, value e)) as -> by (unfold bucket_pair; by rewrite He).
  cbn [mbind outcome_bind]. rewrite IH, <-app_assoc. unfold bucket_pairs. cbn [omap list_omap]. by rewrite He.
Qed.

Lemma collect_section_pairs acc s :
  collect_section acc s ⇓ acc ++ bucket_pairs s (rt_iter (smap s)).
Proof. apply collect_buckets_pairs, iter_live. Qed.

(** ** All jobs *)

Lemma job_safe j : ∃ p, job_plan c j ⇓ p ∧ psafe (job_credit c j) None p.
Proof.
  assert (Hkeyed : ∀ k f, (∀ i, route c k = Z.of_nat i → (i < length (shards c))%nat → psafe (job_credit c j) None (f i)) →
    ∃ p, keyed c k f ⇓ p ∧ psafe (job_credit c j) None p).
  { intros k f Hf. destruct (keyed_plan c k f Hc) as (i & Hr & Hi & Hp). exists (f i). split; [done|]. by apply Hf. }
  assert (Hlook : ∀ k busy (next : option (K * V) → job_reply K V),
    (∀ p, busy = Some p → psafe (job_credit c j) None p) →
    ∃ p, keyed c k (λ i, Look busy i k (λ o, Done (next o))) ⇓ p ∧ psafe (job_credit c j) None p).
  { intros k busy next Hb. apply Hkeyed. intros i _ Hi. apply psafe_look; [by split|done|constructor]. }
  assert (Hcredit : ∀ k i, insert_key j = Some k → route c k = Z.of_nat i → (0 < job_credit c j i)%nat).
  { intros k i Hk Hr. unfold job_credit. rewrite Hk, decide_True; [lia|]. rewrite Hr. lia. }
  assert (Hall : ∀ St hold f r (st : St), (∀ st, shrinks_shard (f st)) →
    psafe (job_credit c j) None (write_all hold f r st (all_shards c))).
  { intros. by apply psafe_write_all. }
  destruct j as [[k v|k|k f|k f|k|k f|k| | |k f|f|f| |]|k|k v|k v|]; cbn [job_plan call_plan]; try (by apply Hlook);
    try (by eexists; split; [done|apply len_safe]).
  - apply Hkeyed. intros i Hr Hi. apply (psafe_insert k v); [done..|by eapply Hcredit|]. intros s Hs Hcount.
    destruct (shard_insert_ok k v s Hs Hcount) as (s' & Hrun & Hst & _ & Heff).
    eexists s', _, _. split_and!; [done|done|by right].
  - apply Hkeyed. intros i _ Hi. by apply psafe_once_shrinks, remove_shrinks.
  - apply Hkeyed. intros i _ Hi. by apply psafe_once_shrinks, remove_if_shrinks.
  - apply Hkeyed. intros i _ Hi. by apply psafe_once_shrinks, remove_if_mut_shrinks.
  - apply Hkeyed. intros i _ Hi. by apply psafe_once_shrinks, alter_shrinks.
  - eexists. split; [done|]. apply Hall. intros st s Hs. rewrite alter_section_retain. by apply retain_shrinks.
  - eexists. split; [done|]. apply Hall, retain_shrinks.
  - eexists. split; [done|]. apply Hall, clear_shrinks.
  - eexists. split; [done|]. apply Hall, shrink_shrinks.
  - apply Hlook. intros p [= <-]. constructor.
  - apply Hkeyed. intros i _ Hi. apply psafe_write; [by split|intros p [= <-]; constructor|]. intros s [Hinv _ _].
    destruct (put_shrinks k v s (li_shard _ _ _ Hinv)) as (s' & r & Hrun & Hst & Hk). rewrite Hrun.
    eexists s', _, (λ _, O). split_and!; [done|by eapply lock_inv_step_keep|lia| |constructor].
    intros _. pose proof (no_new_keys_size _ _ Hk). cbn in *. lia.
  - apply Hkeyed. intros i Hr Hi. apply (psafe_insert k v); [done..|by eapply Hcredit|]. intros s Hs Hcount.
    destruct (or_insert_section k v s Hs Hcount) as (s' & Hrun & Hst & Hcase).
    eexists s', _, (shard_full s). split_and!; [done|done|]. destruct (contents s !! k); auto.
  - eexists. split; [done|]. apply (psafe_read_all _ _ _ (λ _ _, True)); [|done..].
    intros acc i is_ s _ _. eexists. by split; [apply collect_section_pairs|].
Qed.
End plans.

(** ** The start *)

(** Room for what is there and what the jobs may insert, or for a full shard. *)
Definition job_bound c (todos : list (list (job K V))) i : nat :=
  if decide (cache_capacity c = 0) then
    match shards c !! i with Some l => size (contents (lock_data l)) | None => 0 end +
    todo_credit (job_credit c) (concat todos) i
  else Z.to_nat (shard_limit c).

Lemma sum_list_add (f g : nat → nat) is_ :
  sum_list ((λ i, f i + g i)%nat <$> is_) = (sum_list (f <$> is_) + sum_list (g <$> is_))%nat.
Proof. induction is_ as [|i is_ IH]; cbn; [done|]. cbn in IH. lia. Qed.

Lemma sum_list_const (x : nat) (is_ : list nat) : sum_list ((λ _, x) <$> is_) = (length is_ * x)%nat.
Proof. induction is_ as [|i is_ IH]; cbn; [done|]. cbn in IH. lia. Qed.

Lemma sum_one_hot (x a n : nat) :
  (sum_list ((λ i, if decide (i = x) then 1 else 0)%nat <$> seq a n) ≤ 1)%nat ∧
  ((x < a)%nat → sum_list ((λ i, if decide (i = x) then 1 else 0)%nat <$> seq a n) = 0%nat).
Proof.
  revert a. induction n as [|n IH]; intros a; cbn [seq fmap list_fmap sum_list]; [cbn; lia|].
  destruct (IH (S a)) as [H1 H2]. cbn in *. destruct (decide (a = x)) as [->|Hne]; lia.
Qed.

Lemma total_credit c js a n :
  (sum_list (todo_credit (job_credit c) js <$> seq a n) ≤ length js)%nat.
Proof.
  induction js as [|j js IH].
  { unfold todo_credit. cbn. induction (seq a n); cbn in *; lia. }
  change (todo_credit (job_credit c) (j :: js))
    with (λ i, job_credit c j i + todo_credit (job_credit c) js i)%nat.
  rewrite sum_list_add. cbn [length]. enough (sum_list (job_credit c j <$> seq a n) ≤ 1)%nat by lia.
  unfold job_credit. destruct (insert_key j) as [k|].
  - by destruct (sum_one_hot (Z.to_nat (route c k)) a n).
  - induction (seq a n); cbn in *; lia.
Qed.

Lemma shard_sizes c :
  cache_ok c →
  sum_list ((λ i, match shards c !! i with Some l => size (contents (lock_data l)) | None => 0 end)%nat <$> all_shards c) =
  size (cache_contents c).
Proof.
  intros Hc. apply Nat2Z.inj. rewrite cache_size by done. unfold all_shards.
  assert (Hok : Forall (λ l, shard_ok (lock_data l)) (shards c)).
  { apply Forall_lookup. intros i l Hl. apply (co_shards _ Hc _ _ Hl). }
  assert (Hgen : ∀ pre ls, Forall (λ l, shard_ok (lock_data l)) ls →
    Z.of_nat (sum_list ((λ i, match (pre ++ ls) !! i with Some l => size (contents (lock_data l)) | None => 0 end)%nat <$>
      seq (length pre) (length ls))) = Zsum (shard_len ∘ lock_data <$> ls)).
  { intros pre ls. revert pre. induction ls as [|l ls IH]; intros pre Hall; [done|].
    apply Forall_cons in Hall as [Hl Hall]. cbn [length seq fmap list_fmap sum_list].
    specialize (IH (pre ++ [l]) Hall). rewrite <-app_assoc, length_app, Nat.add_1_r in IH. cbn in IH |- *.
    rewrite list_lookup_middle by done. unfold Zsum in *. cbn. rewrite shard_len_contents by done. lia. }
  by apply (Hgen [] (shards c)).
Qed.

Lemma job_bound_sum c todos :
  api_ready (length (concat todos)) c → Z.of_nat (sum_list (job_bound c todos <$> all_shards c)) < usize_mod.
Proof.
  intros [Hc _ Hu Hb]. unfold job_bound. destruct (decide (cache_capacity c = 0)) as [Hz|Hz].
  - rewrite sum_list_add, shard_sizes by done. pose proof (total_credit c (concat todos) 0 (length (shards c))).
    specialize (Hu Hz). unfold all_shards. lia.
  - specialize (Hb Hz). pose proof (co_capacity _ Hc) as Hcap. unfold is_usize in Hcap.
    pose proof (shard_limit_sum c Hc). unfold _shard_count in *.
    enough (Z.of_nat (sum_list ((λ _, Z.to_nat (shard_limit c)) <$> all_shards c)) =
      Z.of_nat (length (shards c)) * shard_limit c) by lia.
    assert (0 ≤ shard_limit c) by (unfold shard_limit; destruct (_ =? _); lia).
    rewrite sum_list_const. unfold all_shards. rewrite length_seq. lia.
Qed.

Lemma bounded_size c todos i s :
  ¬ unbounded c → inv_at c i s → (size (contents s) ≤ job_bound c todos i)%nat.
Proof.
  intros Hu Hinv. unfold job_bound. rewrite decide_False by done. destruct (li_shard _ _ _ Hinv) as (a & Hrel & Ha).
  pose proof (li_cap _ _ _ Hinv) as Hcap. cbn in *. rewrite (contents_rel _ _ Hrel). unfold m_contents. rewrite map_size_fmap.
  rewrite (rel_cap _ _ Hrel) in Hcap. assert (0 < shard_limit c).
  { unfold shard_limit. unfold unbounded in Hu. destruct (Z.eqb_spec (cache_capacity c) 0); lia. }
  pose proof (inv_bound _ Ha). pose proof (inv_drift _ Ha). unfold drift, count, live in *. lia.
Qed.

(** The insertions the threads have left at the start. *)
Lemma todo_credit_app c js js' i :
  todo_credit (job_credit c) (js ++ js') i =
  (todo_credit (job_credit c) js i + todo_credit (job_credit c) js' i)%nat.
Proof. unfold todo_credit. induction js as [|j js IH]; cbn in *; [done|]. lia. Qed.

Lemma start_credits c (todos : list (list (job K V))) i :
  credits (job_credit c) (replicate (length todos) (λ _, O))
    ((λ todo, (todo, Rest)) <$> todos : list (list (job K V) * ctl K V (job_reply K V))) i =
  todo_credit (job_credit c) (concat todos) i.
Proof.
  induction todos as [|todo todos IH]; [done|]. cbn [concat]. rewrite todo_credit_app, <-IH. done.
Qed.

Lemma inv_at_lock c i l : lock_inv c i l → inv_at c i (lock_data l).
Proof. intros [Hs Hr Hcap _]. constructor; cbn; [done..|apply lock_ok_zero]. Qed.

Lemma start_inv c (todos : list (list (job K V))) :
  cache_ok c → Z.of_nat (length todos) + 1 < max_readers →
  cinv c (job_bound c todos) (job_credit c) (replicate (length todos) (λ _, O)) (start c todos).
Proof.
  intros Hc Hn. constructor; cbn [start locks data threads].
  - by rewrite length_replicate.
  - by rewrite length_fmap.
  - intros i l [-> _]%lookup_replicate. rewrite length_fmap. by apply initial_inv.
  - intros t todo k i q Ht Hq. apply list_lookup_fmap_Some in Ht as (todo' & [= -> ->] & _).
    unfold pc_at in Hq. cbn [start locks] in Hq. destruct (replicate _ _ !! i) as [l|] eqn:Hl; [|done].
    apply lookup_replicate in Hl as [-> _]. by apply lookup_replicate in Hq as [-> _].
  - intros i s (l & -> & Hl)%list_lookup_fmap_Some. by apply inv_at_lock, (co_shards _ Hc).
  - apply Forall2_same_length_lookup_2; [by rewrite length_replicate, length_fmap|].
    by intros t cr th _ (todo & -> & _)%list_lookup_fmap_Some.
  - intros i s Hu (l & -> & Hl)%list_lookup_fmap_Some. unfold job_bound, unbounded in *.
    rewrite decide_True, Hl, start_credits by done. done.
Qed.

Lemma abs_start c (todos : list (list (job K V))) : abs (start c todos) = astart c todos.
Proof. unfold abs, astart. cbn. f_equal. rewrite <-list_fmap_compose. done. Qed.
End jobs.
