(* ===== verification/JobRuns.v ===== *)
(** * JobRuns: a plan without interference is the operation

    The plans of Jobs against the operations of Cache, Iter and Entry: on a
    cache that nobody else uses, going through the sections of a plan one after
    the other computes what the operation computes, shard by shard. *)

From stdpp Require Import base gmap list.
From S2P Require Import Prelude Machine Lock LockMachine LockInv RawTable Util Shard ShardOps ShardModel ShardSim.
From S2P Require Import Evict Safety Exact ShardSpec TryResult Cache Guards Entry Iter MapTrait Threads ThreadLocks.
From S2P Require Import CacheSpec CacheEffects EntrySpec IterSpec ThreadInv ThreadSteps Api Jobs JobSpec.

Open Scope Z_scope.

Section runs.
Context {K V : Type} `{Countable K} `{!BuildHasher K} `{!Target}.
Context `{!RawTable (K * CacheEntry V)}.
Implicit Types (c : NeoCache K V) (k : K) (v : V) (s : ShardData K V) (i : nat) (d : list (ShardData K V)).

(** A job as calls of the interface, guards included. *)
Definition run_job (j : job K V) c : outcome (NeoCache K V * job_reply K V) :=
  match j with
  | JCall a => '(c, r) ← run_call a c; Ret (c, JReply r)
  | JTryGet k =>
      '(c, r) ← api_try_get k c;
      match r with
      | Present g => v ← ref_value g c; c ← drop_ref g c; Ret (c, JTry (Present v))
      | Absent => Ret (c, JTry Absent)
      | Locked => Ret (c, JTry Locked)
      end
  | JTryPut k v =>
      '(c, r) ← api_try_get_mut k c;
      match r with
      | Present g => c ← refmut_set g v c; c ← drop_refmut g c; Ret (c, JTry (Present v))
      | Absent => Ret (c, JTry Absent)
      | Locked => Ret (c, JTry Locked)
      end
  | JOrInsert k v =>
      '(c, e) ← api_entry k c;
      '(c, g) ← or_insert v e c;
      kv ← refmut_pair g c;
      c ← drop_refmut g c;
      Ret (c, JStored kv)
  | JCollect => '(c, kvs) ← iter_pairs c; Ret (c, JPairs kvs)
  end.

(** The sections of a plan on the shards [d], one after the other. *)
Inductive alone {R} : plan K V R → list (ShardData K V) → list (ShardData K V) → R → Prop :=
| alone_done r d : alone (Done r) d d r
| alone_section p d p1 d1 d2 r : section false p d ⇓ (d1, p1) → alone p1 d1 d2 r → alone p d d2 r.

(** The shards [d] in a cache like [c], all locks free. *)
Definition as_cache c d : NeoCache K V := mkCache (shift c) (mkLock 0 <$> d) (cache_capacity c).
Definition shard_data c : list (ShardData K V) := lock_data <$> shards c.

Lemma as_cache_id c : quiescent c → as_cache c (shard_data c) = c.
Proof.
  intros Hq. destruct c as [sh ls cap]. unfold as_cache, shard_data. cbn. f_equal.
  rewrite <-list_fmap_compose. transitivity (id <$> ls); [|apply list_fmap_id].
  apply list_fmap_ext. intros i [w s] Hl. cbn. by rewrite <-(Hq _ _ Hl).
Qed.

Lemma shard_data_as c d : shard_data (as_cache c d) = d.
Proof. unfold shard_data, as_cache. cbn. by rewrite <-list_fmap_compose, list_fmap_id. Qed.

Lemma as_cache_set c d i s :
  set_shard (Z.of_nat i) (mkLock 0 s) (as_cache c d) = as_cache c (<[i := s]> d).
Proof. unfold set_shard, as_cache. cbn. by rewrite Nat2Z.id, list_fmap_insert. Qed.

Lemma as_cache_quiescent c d : quiescent (as_cache c d).
Proof. by intros i l (s & -> & _)%list_lookup_fmap_Some. Qed.

Lemma as_cache_lookup c d i s : d !! i = Some s → shards (as_cache c d) !! i = Some (mkLock 0 s).
Proof. intros Hs. cbn. by rewrite list_lookup_fmap, Hs. Qed.

(** ** Sections against locked operations *)

Lemma write_section c d i s A (f : ShardData K V → outcome (ShardData K V * A)) c' a :
  d !! i = Some s → with_write (Z.of_nat i) f (as_cache c d) ⇓ (c', a) →
  ∃ s', f s ⇓ (s', a) ∧ c' = as_cache c (<[i := s']> d).
Proof.
  intros Hs Hrun. destruct (with_write_inv _ _ _ _ _ _ (as_cache_lookup c d i s Hs) eq_refl Hrun) as (s' & Hf & ->).
  exists s'. split; [done|]. apply as_cache_set.
Qed.

Lemma alone_one {R} (p : plan K V R) d d' r : section false p d ⇓ (d', Done r) → alone p d d' r.
Proof. intros Hs. eapply alone_section; [done|constructor]. Qed.

Lemma once_alone c d i s A (f : ShardData K V → outcome (ShardData K V * A)) (r : A → job_reply K V) c' a :
  d !! i = Some s → with_write (Z.of_nat i) f (as_cache c d) ⇓ (c', a) →
  ∃ d', alone (once f r i) d d' (r a) ∧ c' = as_cache c d'.
Proof.
  intros Hs Hrun. destruct (write_section _ _ _ _ _ _ _ _ Hs Hrun) as (s' & Hf & ->). eexists. split; [|done].
  apply alone_one. cbn. rewrite Hs. cbn. by rewrite Hf.
Qed.

Lemma write_all_alone {St} c hold (f : St → ShardData K V → outcome (ShardData K V * St)) (r : St → job_reply K V)
    st is_ d c' st' :
  Forall (λ i, i < length d)%nat is_ → for_write f st is_ (as_cache c d) ⇓ (c', st') →
  ∃ d', alone (write_all hold f r st is_) d d' (r st') ∧ c' = as_cache c d'.
Proof.
  revert st d. induction is_ as [|i is_ IH]; intros st d Hall; cbn [for_write write_all].
  { intros [= <- <-]. exists d. split; [constructor|done]. }
  apply Forall_cons in Hall as [Hi Hall]. destruct (lookup_lt_is_Some_2 _ _ Hi) as [s Hs].
  intros ([c1 st1] & Hw & Hrest)%bind_Ret. destruct (write_section _ _ _ _ _ _ _ _ Hs Hw) as (s' & Hf & ->).
  destruct (IH st1 (<[i := s']> d)) as (d' & Hal & ->); [by rewrite length_insert|done|].
  exists d'. split; [|done]. eapply alone_section; [|done]. cbn. rewrite Hs. cbn. by rewrite Hf.
Qed.
End runs.

Section alone_jobs.
Context {K V : Type} `{Countable K} `{!BuildHasher K} `{!Target}.
Context `{!RawTable (K * CacheEntry V)} `{!RawTableSpec (K * CacheEntry V)}.
Implicit Types (c : NeoCache K V) (k : K) (v : V) (s : ShardData K V) (i : nat) (d : list (ShardData K V)).

(** Shards a cache like [c] may have. *)
Record data_ok c d : Prop := {
  do_length : length d = length (shards c);
  do_inv i s : d !! i = Some s → inv_at c i s
}.

Section fixed.
Context c (Hc : cache_ok c) d (Hd : data_ok c d).

Lemma as_cache_params : same_params c (as_cache c d).
Proof. split_and!; [done..|]. cbn. rewrite length_fmap. apply Hd. Qed.

Lemma as_cache_ok : cache_ok (as_cache c d).
Proof.
  destruct as_cache_params as (Hs & Hcap & Hlen). constructor.
  - destruct (co_geometry _ Hc) as (n & Hn). exists n. unfold _shard_count in *. by rewrite Hs, Hlen.
  - apply Hc.
  - intros i l (s & -> & Hi)%list_lookup_fmap_Some. destruct (do_inv _ _ Hd i s Hi) as [Hok Hr Hlim Hw].
    constructor; cbn; [done|done| |done]. cbn in Hlim. rewrite Hlim. unfold shard_limit, _shard_count.
    by rewrite Hcap, Hlen.
Qed.

Lemma as_cache_home k i s : route c k = Z.of_nat i → d !! i = Some s → home (as_cache c d) k (mkLock 0 s).
Proof.
  intros Hr Hs. unfold home. change (route (as_cache c d) k) with (route c k). rewrite Hr, Nat2Z.id.
  by apply as_cache_lookup.
Qed.

(** The shard of a key. *)
Lemma key_shard k (f : nat → plan K V (job_reply K V)) :
  ∃ i s, keyed c k f ⇓ f i ∧ d !! i = Some s ∧ inv_at c i s ∧ route c k = Z.of_nat i ∧
    shard_of (as_cache c d) k ⇓ Z.of_nat i.
Proof.
  destruct (keyed_plan c k f Hc) as (i & Hr & Hi & Hk). rewrite <-(do_length _ _ Hd) in Hi.
  destruct (lookup_lt_is_Some_2 _ _ Hi) as [s Hs]. exists i, s. split_and!; [done..|by apply Hd|done|].
  destruct (shard_of_route (as_cache c d) k (co_geometry _ as_cache_ok)) as [Hs' _]. rewrite Hs'.
  change (route (as_cache c d) k) with (route c k). by rewrite Hr.
Qed.

(** The lookup of a [Look] section is the one of [_get], and the copied pair
    the one behind the guard. *)
Lemma look_get k i s {R} busy (next : option (K * V) → plan K V R) :
  d !! i = Some s → inv_at c i s → shard_of (as_cache c d) k ⇓ Z.of_nat i →
  ∃ d' o, section false (Look busy i k next) d ⇓ (d', next o) ∧
    ∃ c1 r, _get k (as_cache c d) ⇓ (c1, r) ∧ _try_get k (as_cache c d) ⇓ (c1, match r with Some g => Present g | None => Absent end) ∧
      match r with
      | Some g => ∃ kv, o = Some kv ∧ ref_pair g c1 ⇓ kv ∧ drop_ref g c1 ⇓ as_cache c d'
      | None => o = None ∧ c1 = as_cache c d'
      end.
Proof.
  intros Hs Hinv Hi. pose proof (as_cache_lookup c d i s Hs) as Hl.
  set (w := encode (Readers 1) false false).
  assert (Htry : try_lock_shared 0 = Some w).
  { change 0 with (encode Free false false). by rewrite try_lock_shared_encode. }
  assert (Hlk : lock_shared 0 ⇓ w).
  { change 0 with (encode Free false false). by rewrite lock_shared_encode. }
  destruct (lock_shared_ok 0 w lock_ok_zero Hlk) as (_ & _ & Hunl).
  destruct (shard_get_ok k s (li_shard _ _ _ Hinv)) as (s' & r & Hget & _ & _ & _ & Hcase).
  assert (Hdrop : drop_read (Z.of_nat i) (set_shard (Z.of_nat i) (mkLock w s') (as_cache c d)) ⇓ as_cache c (<[i := s']> d)).
  { unfold drop_read. rewrite (get_set_shard _ _ _ _ Hl). cbn. by rewrite set_shard_twice, Hunl, as_cache_set. }
  assert (Hg : guarded (Z.of_nat i) (set_shard (Z.of_nat i) (mkLock w s') (as_cache c d)) ⇓ s').
  { by rewrite (guarded_set _ _ _ _ Hl). }
  unfold _get, _try_get. rewrite Hi. cbn [mbind outcome_bind section deref]. rewrite Hs, (yield_read _ _ _ Hl), (try_yield_read _ _ _ Hl).
  cbn [lock_word lock_data deref mbind outcome_bind fmap option_fmap option_map].
  rewrite Htry, Hlk. cbn [mbind outcome_bind fmap option_fmap option_map]. rewrite (guarded_set _ _ _ _ Hl).
  cbn [mbind outcome_bind lock_data]. rewrite Hget. cbn [mbind outcome_bind].
  rewrite (set_guarded_set _ _ _ _ _ Hl). cbn [mbind outcome_bind lock_word]. destruct (contents s !! k) as [v|].
  - destruct Hcase as (b & -> & Hb). rewrite Hb. eexists _, _. split; [done|]. eexists _, (Some _).
    split_and!; [done..|]. exists (k, v). split_and!; [done| |done]. unfold ref_pair. cbn. by rewrite Hg.
  - destruct Hcase as [-> _]. rewrite Hdrop. eexists _, None. split; [done|]. by eexists _, None.
Qed.

(** A shard held under the write lock. *)
Definition write_locked i s : NeoCache K V := set_shard (Z.of_nat i) (mkLock ONE_WRITER s) (as_cache c d).

Section locked.
Context i s0 (Hs0 : d !! i = Some s0).

Lemma locked_guarded s : guarded (Z.of_nat i) (write_locked i s) ⇓ s.
Proof. unfold write_locked. by rewrite (guarded_set _ _ _ _ (as_cache_lookup c d i s0 Hs0)). Qed.

Lemma locked_set s s' : set_guarded (Z.of_nat i) s' (write_locked i s) ⇓ write_locked i s'.
Proof. unfold write_locked. by rewrite (set_guarded_set _ _ _ _ _ (as_cache_lookup c d i s0 Hs0)). Qed.

Lemma locked_drop s : drop_write (Z.of_nat i) (write_locked i s) ⇓ as_cache c (<[i := s]> d).
Proof.
  unfold write_locked. by rewrite (drop_write_set _ _ _ _ (as_cache_lookup c d i s0 Hs0)), as_cache_set.
Qed.

Lemma locked_write : _yield_write_shard (Z.of_nat i) (as_cache c d) ⇓ write_locked i s0.
Proof. by rewrite (yield_write _ _ _ (as_cache_lookup c d i s0 Hs0)), lock_exclusive_free. Qed.

Lemma locked_try_write : _try_yield_write_shard (Z.of_nat i) (as_cache c d) ⇓ Some (write_locked i s0).
Proof.
  rewrite (try_yield_write _ _ _ (as_cache_lookup c d i s0 Hs0)). cbn [lock_word lock_data].
  assert (try_lock_exclusive 0 = Some ONE_WRITER) as -> by done. done.
Qed.

Lemma locked_get_mut k s r :
  shard_of (as_cache c d) k ⇓ Z.of_nat i → shard_get k s0 ⇓ (s, r) →
  let g := mkRefMut (Z.of_nat i) <$> r in
  let c' := match r with Some _ => write_locked i s | None => as_cache c (<[i := s]> d) end in
  _get_mut k (as_cache c d) ⇓ (c', g) ∧
  _try_get_mut k (as_cache c d) ⇓ (c', match g with Some g => Present g | None => Absent end).
Proof.
  intros Hi Hget. unfold _get_mut, _try_get_mut. rewrite Hi. cbn [mbind outcome_bind].
  rewrite locked_write, locked_try_write. cbn [mbind outcome_bind]. rewrite locked_guarded.
  cbn [mbind outcome_bind]. rewrite Hget. cbn [mbind outcome_bind]. rewrite locked_set. cbn [mbind outcome_bind].
  destruct r; [done|]. by rewrite locked_drop.
Qed.

Lemma locked_put b v s s' :
  bucket_set b v s ⇓ s' → refmut_set (mkRefMut (Z.of_nat i) b) v (write_locked i s) ⇓ write_locked i s'.
Proof.
  intros Hset. unfold refmut_set. cbn. rewrite locked_guarded. cbn. rewrite Hset. cbn. apply locked_set.
Qed.
End locked.

(** ** Every job *)

(** On the shards [d], the plan of [j] and the job [j] itself do the same. *)
Definition agrees j : Prop :=
  ∃ p d' r, job_plan c j ⇓ p ∧ alone p d d' r ∧ run_job j (as_cache c d) ⇓ (as_cache c d', r).

Lemma write_agrees j k A (f : ShardData K V → outcome (ShardData K V * A)) (r : A → job_reply K V) c' a :
  job_plan c j = keyed c k (once f r) →
  (idx ← shard_of (as_cache c d) k; with_write idx f (as_cache c d)) ⇓ (c', a) →
  run_job j (as_cache c d) ⇓ (c', r a) → agrees j.
Proof.
  intros Hp Hrun Hj. destruct (key_shard k (once f r)) as (i & s & Hk & Hs & _ & _ & Hi).
  rewrite Hi in Hrun. cbn in Hrun. destruct (once_alone c d i s A f r c' a Hs Hrun) as (d' & Hal & ->).
  eexists _, d', _. rewrite Hp. split_and!; [done|done|done].
Qed.

Lemma in_range : Forall (λ i, i < length d)%nat (all_shards c).
Proof. apply Forall_seq. intros i Hi. rewrite (do_length _ _ Hd). lia. Qed.

Lemma write_all_agrees j St hold (f : St → ShardData K V → outcome (ShardData K V * St)) (r : St → job_reply K V) st c' st' :
  job_plan c j ⇓ write_all hold f r st (all_shards c) →
  for_write f st (all_shards (as_cache c d)) (as_cache c d) ⇓ (c', st') →
  run_job j (as_cache c d) ⇓ (c', r st') → agrees j.
Proof.
  intros Hp Hrun Hj. destruct as_cache_params as (_ & _ & Hlen). unfold all_shards in *. rewrite Hlen in Hrun.
  destruct (write_all_alone c hold f r st (seq 0 (length (shards c))) d c' st') as (d' & Hal & ->); [|done|].
  - apply in_range.
  - by exists (write_all hold f r st (seq 0 (length (shards c)))), d', (r st').
Qed.

Lemma look_agrees j k (next : option (K * V) → job_reply K V) busy :
  job_plan c j = keyed c k (λ i, Look busy i k (λ o, Done (next o))) →
  (∀ c1 r, _get k (as_cache c d) ⇓ (c1, r) →
     _try_get k (as_cache c d) ⇓ (c1, match r with Some g => Present g | None => Absent end) →
     match r with
     | Some g => ∀ kv c2, ref_pair g c1 ⇓ kv → drop_ref g c1 ⇓ c2 → run_job j (as_cache c d) ⇓ (c2, next (Some kv))
     | None => run_job j (as_cache c d) ⇓ (c1, next None)
     end) → agrees j.
Proof.
  intros Hp Hj.
  destruct (key_shard k (λ i, Look busy i k (λ o, Done (next o)))) as (i & s & Hk & Hs & Hinv & _ & Hi).
  destruct (look_get k i s busy (λ o, Done (next o)) Hs Hinv Hi) as (d' & o & Hsec & c1 & r & Hget & Htry & Hcase).
  exists (Look busy i k (λ o, Done (next o))), d', (next o). rewrite Hp. split_and!; [done|by apply alone_one|].
  specialize (Hj c1 r Hget Htry). destruct r as [g|].
  - destruct Hcase as (kv & -> & Hpair & Hdrop). by apply Hj.
  - by destruct Hcase as [-> ->].
Qed.

Lemma len_alone (r : Z → job_reply K V) acc is_ c' n :
  Forall (λ i, i < length d)%nat is_ → sum_read shard_len acc is_ (as_cache c d) ⇓ (c', n) →
  alone (read_all false len_section r acc is_) d d (r n) ∧ c' = as_cache c d.
Proof.
  intros Hall. revert acc. induction Hall as [|i is_ Hi _ IH]; intros acc; cbn [sum_read read_all].
  { intros [= <- <-]. split; [constructor|done]. }
  destruct (lookup_lt_is_Some_2 _ _ Hi) as [s Hs].
  destruct (read_shard_ok (as_cache c d) i (mkLock 0 s) as_cache_ok (quiescent_readable _ (as_cache_quiescent c d)))
    as (c1 & Hy & Hg & Hdr); [by apply as_cache_lookup|].
  rewrite Hy. cbn [mbind outcome_bind]. rewrite Hg. cbn [mbind outcome_bind]. rewrite Hdr. cbn [mbind outcome_bind lock_data].
  intros (acc1 & Hadd & Hrest)%bind_Ret. destruct (IH acc1 Hrest) as [Hal ->]. split; [|done].
  eapply alone_section; [|done]. cbn. rewrite Hs. cbn. unfold len_section. by rewrite Hadd.
Qed.

Lemma collect_alone pre ls (acc : list (K * V)) :
  d = pre ++ ls →
  alone (read_all true collect_section JPairs acc (seq (length pre) (length ls))) d d
    (JPairs (acc ++ concat ((λ s, bucket_pairs s (rt_iter (smap s))) <$> ls))).
Proof.
  revert pre acc. induction ls as [|s ls IH]; intros pre acc Heq; cbn [length seq read_all].
  { cbn. rewrite app_nil_r. constructor. }
  assert (Hs : d !! length pre = Some s) by (rewrite Heq; by apply list_lookup_middle). eapply alone_section.
  - cbn. rewrite Hs. cbn. by rewrite collect_section_pairs.
  - cbn. rewrite app_assoc. specialize (IH (pre ++ [s]) (acc ++ bucket_pairs s (rt_iter (smap s)))).
    rewrite length_app, Nat.add_1_r in IH. apply IH. by rewrite <-app_assoc.
Qed.

Lemma alter_agrees k f : agrees (JCall (CAlter k f)).
Proof.
  destruct (key_shard k (once (shard_alter k f) (λ _, JReply RUnit))) as (i & s & Hk & Hs & Hinv & _ & Hi).
  destruct (get_then_set k s (li_shard _ _ _ Hinv)) as (s' & r & Hget & _ & _ & Hcase). cbn [lock_data] in *.
  destruct (locked_get_mut i s Hs k s' r Hi Hget) as [Hmut _].
  assert (Hex : ∃ s2, shard_alter k f s ⇓ (s2, tt) ∧
    _alter k (λ k v, Ret (f k v)) (as_cache c d) ⇓ as_cache c (<[i := s2]> d)).
  { unfold shard_alter, _alter. rewrite Hget, Hmut. cbn [mbind outcome_bind].
    destruct (contents s !! k) as [w|].
    - destruct Hcase as (b & -> & Hb & Hset). destruct (Hset (f k w)) as (s2 & Hs2 & _). exists s2.
      cbn [fmap option_fmap option_map]. unfold refmut_pair. cbn [refmut_shard refmut_bucket].
      rewrite (locked_guarded i s Hs). cbn [mbind outcome_bind]. rewrite Hb. cbn. rewrite Hs2. cbn. split; [done|].
      rewrite (locked_put i s Hs _ _ _ _ Hs2). cbn. apply (locked_drop i s Hs).
    - destruct Hcase as [-> ->]. by exists s. }
  destruct Hex as (s2 & Hsec & Halt). eexists _, (<[i := s2]> d), _. split_and!; [done| |].
  - apply alone_one. cbn. rewrite Hs. cbn. by rewrite Hsec.
  - cbn [run_job run_call]. unfold api_alter. cbn [map_alter neo_map]. by rewrite Halt.
Qed.

Lemma try_put_agrees k v : agrees (JTryPut k v).
Proof.
  destruct (key_shard k (λ i, Write (Some (Done (JTry Locked))) false i
    (λ s, '(s, r) ← shard_put k v s; Ret (s, Done (JTry r))))) as (i & s & Hk & Hs & Hinv & _ & Hi).
  destruct (get_then_set k s (li_shard _ _ _ Hinv)) as (s' & r & Hget & _ & _ & Hcase). cbn [lock_data] in *.
  destruct (locked_get_mut i s Hs k s' r Hi Hget) as [_ Hmut].
  assert (Hex : ∃ s2 res, shard_put k v s ⇓ (s2, res) ∧
    run_job (JTryPut k v) (as_cache c d) ⇓ (as_cache c (<[i := s2]> d), JTry res)).
  { cbn [run_job]. unfold shard_put, api_try_get_mut. cbn [map_try_get_mut neo_map]. rewrite Hget, Hmut.
    cbn [mbind outcome_bind]. destruct (contents s !! k) as [w|].
    - destruct Hcase as (b & -> & Hb & Hset). destruct (Hset v) as (s2 & Hs2 & _). eexists s2, _.
      cbn [fmap option_fmap option_map]. rewrite Hs2, (locked_put i s Hs _ _ _ _ Hs2). cbn. split; [done|].
      unfold drop_refmut. cbn. by rewrite (locked_drop i s Hs).
    - destruct Hcase as [-> ->]. by eexists s, _. }
  destruct Hex as (s2 & res & Hsec & Hjob). eexists _, (<[i := s2]> d), _. split_and!; [done| |done].
  apply alone_one. cbn. rewrite Hs. cbn. by rewrite Hsec.
Qed.

Lemma or_insert_agrees k v : countable_at (as_cache c d) k → agrees (JOrInsert k v).
Proof.
  intros Hcount. destruct (key_shard k (once (shard_or_insert k v) JStored)) as (i & s & Hk & Hs & Hinv & Hr & Hi).
  destruct (or_insert_section k v s (li_shard _ _ _ Hinv)) as (s2 & Hsec & _).
  { by apply (Hcount (mkLock 0 s)), (as_cache_home k i s). }
  eexists _, (<[i := s2]> d), _. split_and!; [done| |].
  { apply alone_one. cbn. rewrite Hs. cbn. by rewrite Hsec. }
  cbn [run_job]. unfold api_entry. cbn [map_entry neo_map]. unfold _entry, entry_search. rewrite Hi.
  cbn [mbind outcome_bind]. rewrite (locked_write i s Hs). cbn [mbind outcome_bind].
  rewrite (locked_guarded i s Hs). cbn [mbind outcome_bind]. unfold shard_or_insert in Hsec. unfold hash_u64.
  destruct (rt_find_or_find_insert_slot (smap s) (hash_one k) (key_eq k) key_hash) as [t [b|slot]].
  - apply bind_Ret in Hsec as (kv & Hkv & [= <- ->]). rewrite (locked_set i s Hs). cbn [mbind outcome_bind or_insert].
    unfold refmut_pair, drop_refmut. cbn [into_ref refmut_shard refmut_bucket oe_shard oe_bucket].
    rewrite (locked_guarded i s Hs). cbn [mbind outcome_bind]. rewrite Hkv. cbn [mbind outcome_bind].
    by rewrite (locked_drop i s Hs).
  - apply bind_Ret in Hsec as ([s3 b] & Hins & (kv & Hkv & [= <- ->])%bind_Ret). rewrite (locked_set i s Hs).
    cbn [mbind outcome_bind or_insert]. unfold vacant_insert. cbn [ve_shard ve_key ve_hash ve_slot].
    rewrite (locked_guarded i s Hs). cbn [mbind outcome_bind]. rewrite Hins. cbn [mbind outcome_bind].
    rewrite (locked_set i s Hs). cbn [mbind outcome_bind]. unfold refmut_pair, drop_refmut. cbn [refmut_shard refmut_bucket].
    rewrite (locked_guarded i s Hs). cbn [mbind outcome_bind]. rewrite Hkv. cbn [mbind outcome_bind].
    by rewrite (locked_drop i s Hs).
Qed.

(** ** The jobs that visit all shards *)

Lemma len_agrees j (r : Z → job_reply K V) c' n :
  job_plan c j ⇓ read_all false len_section r 0 (all_shards c) →
  _len (as_cache c d) ⇓ (c', n) → run_job j (as_cache c d) ⇓ (c', r n) → agrees j.
Proof.
  intros Hp Hrun Hj. destruct as_cache_params as (_ & _ & Hlen). unfold _len, all_shards in Hrun. rewrite Hlen in Hrun.
  destruct (len_alone r 0 (all_shards c) c' n in_range Hrun) as [Hal ->].
  by exists (read_all false len_section r 0 (all_shards c)), d, (r n).
Qed.

Lemma for_write_ext {St} (f g : St → ShardData K V → outcome (ShardData K V * St)) st is_ (c0 : NeoCache K V) :
  (∀ st s, f st s = g st s) → for_write f st is_ c0 = for_write g st is_ c0.
Proof.
  intros Hfg. revert st c0. induction is_ as [|i is_ IH]; intros st c0; [done|]. cbn [for_write].
  assert (with_write (Z.of_nat i) (f st) c0 = with_write (Z.of_nat i) (g st) c0) as ->.
  { unfold with_write. destruct (_yield_write_shard _ _) as [c1| | | | |]; try done. cbn.
    destruct (guarded _ _) as [s| | | | |]; try done. cbn. by rewrite Hfg. }
  destruct (with_write _ _ _) as [[c1 st1]| | | | |]; try done. apply IH.
Qed.

Lemma alter_all_agrees f : agrees (JCall (CAlterAll f)).
Proof.
  destruct (alter_all_ok (λ (st : unit) k v, (st, f k v)) tt (as_cache c d) as_cache_ok (as_cache_quiescent c d))
    as (kvs & c' & _ & Hret & Halt & _).
  apply (write_all_agrees _ unit true (alter_section f) (λ _, JReply RUnit) tt c' tt); [done| |].
  - rewrite (for_write_ext _ (retain_section (λ k v, (f k v, true)))) by apply alter_section_retain.
    destruct (alter_pairs _ tt kvs).1. exact Hret.
  - cbn [run_job run_call]. unfold api_alter_all. cbn [map_alter_all neo_map]. by rewrite Halt.
Qed.

Lemma collect_agrees : agrees JCollect.
Proof.
  destruct (iter_pairs_ok (as_cache c d) as_cache_ok) as [_ Hit].
  specialize (Hit (quiescent_readable _ (as_cache_quiescent c d))).
  exists (read_all true collect_section JPairs [] (all_shards c)), d, (JPairs (iter_order (as_cache c d))).
  split_and!; [done| |cbn [run_job]; by rewrite Hit]. pose proof (collect_alone [] d [] eq_refl) as Hal. cbn in Hal.
  unfold all_shards. rewrite <-(do_length _ _ Hd). unfold iter_order. cbn. by rewrite <-list_fmap_compose.
Qed.

(** *** All of them *)

Ltac run_op Hop := cbn [run_job]; by rewrite Hop.

Ltac look_op Hget :=
  cbn [run_job run_call]; unfold get_copied, api_get, api_view, api_contains_key, map_contains_key, api_try_get;
  cbn [map_get map_view map_try_get map_drop_read neo_map]; unfold _view; rewrite Hget; cbn [mbind outcome_bind];
  unfold ref_value, drop_ref in *.

Lemma get_agrees k : agrees (JCall (CGet k)).
Proof.
  apply (look_agrees _ k (λ o, JReply (RValue (snd <$> o))) None); [done|]. intros c1 [g|] Hget _.
  - intros [k0 v0] c2 Hkv Hdr. look_op Hget. rewrite Hkv. cbn. by rewrite Hdr.
  - by look_op Hget.
Qed.

Lemma view_agrees k f : agrees (JCall (CView k f)).
Proof.
  apply (look_agrees _ k (λ o, JReply (RValue (uncurry f <$> o))) None); [done|]. intros c1 [g|] Hget _.
  - intros [k0 v0] c2 Hkv Hdr. look_op Hget. rewrite Hkv. cbn. by rewrite Hdr.
  - by look_op Hget.
Qed.

Lemma contains_agrees k : agrees (JCall (CContains k)).
Proof.
  apply (look_agrees _ k (λ o, JReply (RBool (match o with Some _ => true | None => false end))) None); [done|].
  intros c1 [g|] Hget _.
  - intros kv c2 Hkv Hdr. look_op Hget. by rewrite Hdr.
  - by look_op Hget.
Qed.

Lemma try_get_plan k : agrees (JTryGet k).
Proof.
  apply (look_agrees _ k (λ o, JTry (match o with Some (_, v) => Present v | None => Absent end))
    (Some (Done (JTry Locked)))); [done|]. intros c1 [g|] _ Htry.
  - intros [k0 v0] c2 Hkv Hdr. look_op Htry. rewrite Hkv. cbn. by rewrite Hdr.
  - by look_op Htry.
Qed.

Lemma call_agrees a : api_ready 1 (as_cache c d) → agrees (JCall a).
Proof.
  intros Hr. destruct (call_refines 0 _ Hr a) as (c' & r & Hrun & _).
  assert (Hwrite : ∀ A k (f : ShardData K V → outcome (ShardData K V * A)) r,
    job_plan c (JCall a) = keyed c k (once f (λ x, JReply (r x))) →
    run_call a (as_cache c d) =
      ('(c, x) ← (idx ← shard_of (as_cache c d) k; with_write idx f (as_cache c d)); Ret (c, r x)) →
    agrees (JCall a)).
  { intros A k f r1 Hp Hcall. pose proof Hrun as Hrun'. rewrite Hcall in Hrun'.
    apply bind_Ret in Hrun' as ([c1 x] & Hop & [= <- <-]).
    apply (write_agrees _ k _ f (λ x, JReply (r1 x)) c1 x); [done|done|run_op Hrun]. }
  destruct a as [k v|k|k f|k f|k|k f|k| | |k f|f|f| |];
    first [by eapply Hwrite|apply get_agrees|apply view_agrees|apply contains_agrees|apply alter_agrees
          |apply alter_all_agrees|idtac]; pose proof Hrun as Hop; cbn [run_call] in Hop.
  - apply bind_Ret in Hop as ([c1 n] & Hop & [= <- <-]).
    apply (len_agrees _ (λ n, JReply (RNum n)) c1 n); [done|done|run_op Hrun].
  - apply bind_Ret in Hop as ([c1 b] & Hop & [= <- <-]). apply bind_Ret in Hop as ([c2 n] & Hop & [= <- <-]).
    apply (len_agrees _ (λ n, JReply (RBool (n =? 0))) c2 n); [done|done|run_op Hrun].
  - apply bind_Ret in Hop as ([c1 st] & Hop & [= <- <-]).
    apply (write_all_agrees _ unit false (retain_section f) (λ _, JReply RUnit) tt c1 st); [done|done|run_op Hrun].
  - apply bind_Ret in Hop as (c1 & Hop & [= <- <-]). apply bind_Ret in Hop as ([c2 st] & Hop & [= <-]).
    apply (write_all_agrees _ unit false clear_section (λ _, JReply RUnit) tt c2 st); [done|done|run_op Hrun].
  - apply bind_Ret in Hop as (c1 & Hop & [= <- <-]). apply bind_Ret in Hop as ([c2 st] & Hop & [= <-]).
    apply (write_all_agrees _ unit false shrink_section (λ _, JReply RUnit) tt c2 st); [done|done|run_op Hrun].
Qed.

Lemma job_agrees j : api_ready 1 (as_cache c d) → agrees j.
Proof.
  intros Hr. destruct j as [a|k|k v|k v|]; [by apply call_agrees|apply try_get_plan|apply try_put_agrees| |apply collect_agrees].
  by eapply or_insert_agrees, ready_countable.
Qed.
End fixed.
End alone_jobs.
