(* ===== verification/Concurrent.v ===== *)
(** * Concurrent: what concurrent callers of the cache may observe

    The abstract specification of concurrent use: one finite map shared by all
    threads. A job on one key acts on the map once, atomically, between its
    call and its return (its linearization point is the [EvSection] event), the
    way Api specifies it; a non-blocking job may instead fail without touching
    the map. A job that visits all shards is a sweep: it visits the parts of
    the map one after the other, each part atomically, and other threads may
    act in between. *)

From stdpp Require Import base gmap list.
From S2P Require Import Prelude Machine Lock RawTable Util Shard ShardOps TryResult Cache Threads Api Jobs.

Open Scope Z_scope.

Section spec.
Context {K V : Type} `{Countable K}.
Implicit Types (k : K) (v : V) (m : gmap K V) (j : job K V) (seen : list (K * V)).

(** The state of a job: before its only section, before part [i] of a sweep
    that has seen the pairs [seen], or with its result. *)
Inductive jstate :=
| At j
| Sweep j (i : nat) seen
| Finished (r : job_reply K V).

(** What a sweep makes of a pair. *)
Definition swept j : option (K → V → option V) :=
  match j with
  | JCall CLen | JCall CIsEmpty | JCall CShrink | JCollect => Some (λ _ v, Some v)
  | JCall (CAlterAll f) => Some (λ k v, Some (f k v))
  | JCall (CRetain f) => Some (λ k v, let '(v', keep) := f k v in if keep then Some v' else None)
  | JCall CClear => Some (λ _ _, None)
  | _ => None
  end.

Definition sweep_reply j seen : job_reply K V :=
  match j with
  | JCall CLen => JReply (RNum (Z.of_nat (length seen)))
  | JCall CIsEmpty => JReply (RBool (bool_decide (seen = [])))
  | JCollect => JPairs seen
  | _ => JReply RUnit
  end.

Definition called j : jstate := match swept j with Some _ => Sweep j 0 [] | None => At j end.

(** The parts of the map, and whether an insertion may forget an entry. *)
Context (part_of : K → nat) (parts : nat) (bounded : Prop).

Definition part (i : nat) m : gmap K V := filter (λ kv : K * V, part_of kv.1 = i) m.

Definition answer (x : jstate) : option (job_reply K V) :=
  match x with
  | At _ => None
  | Sweep j i seen => if decide (i = parts) then Some (sweep_reply j seen) else None
  | Finished r => Some r
  end.

(** [spec_section busy m x m' x']: a section of a job in state [x] on the map
    [m]; [busy]: its lock was not available. *)
Inductive spec_section : bool → gmap K V → jstate → gmap K V → jstate → Prop :=
| ss_call a m m' r :
    swept (JCall a) = None → spec_call bounded m a m' r →
    spec_section false m (At (JCall a)) m' (Finished (JReply r))
| ss_try_get k m :
    spec_section false m (At (JTryGet k)) m
      (Finished (JTry (match m !! k with Some v => Present v | None => Absent end)))
| ss_try_get_busy k m : spec_section true m (At (JTryGet k)) m (Finished (JTry Locked))
| ss_try_put k v w m :
    m !! k = Some w → spec_section false m (At (JTryPut k v)) (<[k := v]> m) (Finished (JTry (Present v)))
| ss_try_put_none k v m :
    m !! k = None → spec_section false m (At (JTryPut k v)) m (Finished (JTry Absent))
| ss_try_put_busy k v m : spec_section true m (At (JTryPut k v)) m (Finished (JTry Locked))
| ss_or_insert k v w m :
    m !! k = Some w → spec_section false m (At (JOrInsert k v)) m (Finished (JStored (k, w)))
| ss_or_insert_none k v m m' :
    m !! k = None → spec_call bounded m (CInsert k v) m' (RValue None) →
    spec_section false m (At (JOrInsert k v)) m' (Finished (JStored (k, v)))
| ss_sweep j f i seen kvs m :
    swept j = Some f → (i < parts)%nat → kvs ≡ₚ map_to_list (part i m) →
    spec_section false m (Sweep j i seen)
      (map_imap (λ k v, if decide (part_of k = i) then f k v else Some v) m) (Sweep j (S i) (seen ++ kvs)).

Record sconfig := mkSConfig {
  s_map : gmap K V;
  s_threads : list (list (job K V) * option jstate)
}.

Inductive sstep : sconfig → tevent (job K V) (job_reply K V) → sconfig → Prop :=
| sstep_call m ts t j todo :
    ts !! t = Some (j :: todo, None) →
    sstep (mkSConfig m ts) (EvCall t j) (mkSConfig m (<[t := (todo, Some (called j))]> ts))
| sstep_section m ts t busy todo x m' x' :
    ts !! t = Some (todo, Some x) → spec_section busy m x m' x' →
    sstep (mkSConfig m ts) (EvSection t busy) (mkSConfig m' (<[t := (todo, Some x')]> ts))
| sstep_return m ts t r todo x :
    ts !! t = Some (todo, Some x) → answer x = Some r →
    sstep (mkSConfig m ts) (EvReturn t r) (mkSConfig m (<[t := (todo, None)]> ts)).

Inductive sexec (z0 : sconfig) : list (tevent (job K V) (job_reply K V)) → sconfig → Prop :=
| sexec_nil : sexec z0 [] z0
| sexec_snoc evs z e z' : sexec z0 evs z → sstep z e z' → sexec z0 (evs ++ [e]) z'.
End spec.

Arguments jstate K V : clear implicits.
Arguments sconfig K V {_ _}.
