(* ===== verification/ConcurrentSim.v ===== *)
(** * ConcurrentSim: the threads refine the concurrent specification

    Every section of a plan is a step of Concurrent, on the union of the
    contents of all shards. *)

From stdpp Require Import base gmap list.
From S2P Require Import Prelude Machine Lock LockMachine LockInv RawTable Util Shard ShardOps ShardModel ShardSim.
From S2P Require Import Evict Safety Exact ShardSpec TryResult Cache Guards Entry Iter MapTrait Threads ThreadLocks.
From S2P Require Import CacheSpec CacheEffects EntrySpec IterSpec ThreadInv ThreadSteps Api Jobs JobSpec JobRuns Concurrent.

Open Scope Z_scope.

Section sim.
Context {K V : Type} `{Countable K} `{!BuildHasher K} `{!Target}.
Context `{!RawTable (K * CacheEntry V)} `{!RawTableSpec (K * CacheEntry V)}.
Context (c : NeoCache K V) (Hc : cache_ok c).
(** The entries a shard may come to hold. *)
Context (bound : nat → nat) (Hsum : Z.of_nat (sum_list (bound <$> all_shards c)) < usize_mod).
Implicit Types (k : K) (v : V) (s : ShardData K V) (i : nat) (d : list (ShardData K V)) (j : job K V).
Implicit Types (x : jstate K V) (p : plan K V (job_reply K V)).

(** The part of the map a key belongs to is its shard. *)
Definition shard_part k : nat := Z.to_nat (route c k).
#[local] Abbreviation parts := (length (shards c)).
#[local] Abbreviation bounded := (¬ unbounded c).
#[local] Abbreviation the_map d := (cache_contents (as_cache c d)).

(** ** Plans and the states of jobs *)

(** What is left of a sweep before shard [i]. *)
Definition rest_plan j i (seen : list (K * V)) : plan K V (job_reply K V) :=
  let is_ := seq i (parts - i) in
  match j with
  | JCall CLen => read_all false len_section (λ n, JReply (RNum n)) (Z.of_nat (length seen)) is_
  | JCall CIsEmpty => read_all false len_section (λ n, JReply (RBool (n =? 0))) (Z.of_nat (length seen)) is_
  | JCall (CAlterAll f) => write_all true (alter_section f) (λ _, JReply RUnit) tt is_
  | JCall (CRetain f) => write_all false (retain_section f) (λ _, JReply RUnit) tt is_
  | JCall CClear => write_all false clear_section (λ _, JReply RUnit) tt is_
  | JCall CShrink => write_all false shrink_section (λ _, JReply RUnit) tt is_
  | JCollect => read_all true collect_section JPairs seen is_
  | _ => Done (JReply RUnit)
  end.

Inductive tracks : plan K V (job_reply K V) → jstate K V → Prop :=
| tracks_at j p : swept j = None → job_plan c j ⇓ p → tracks p (At j)
| tracks_sweep j f i seen :
    swept j = Some f → (i ≤ parts)%nat → (length seen ≤ sum_list (bound <$> seq 0 i))%nat →
    tracks (rest_plan j i seen) (Sweep j i seen)
| tracks_done r : tracks (Done r) (Finished r).

Lemma tracks_called j p : job_plan c j ⇓ p → tracks p (called j).
Proof.
  intros Hp. unfold called. destruct (swept j) as [f|] eqn:Hj; [|by apply tracks_at].
  assert (p = rest_plan j 0 []) as ->.
  { unfold rest_plan. rewrite Nat.sub_0_r. destruct j as [[]| | | |]; try done; by injection Hp as <-. }
  apply (tracks_sweep j f); [done|lia|cbn; lia].
Qed.

(** A job on one key is one section. *)
Lemma keyed_sections j p :
  swept j = None → job_plan c j ⇓ p →
  (∃ busy i k (next : option (K * V) → job_reply K V), p = Look busy i k (λ o, Done (next o))) ∨
  (∃ busy i A (f : ShardData K V → outcome (ShardData K V * A)) (r : A → job_reply K V),
     p = Write busy false i (λ s, '(s, a) ← f s; Ret (s, Done (r a)))).
Proof.
  intros Hj. destruct j as [[k v|k|k f|k f|k|k f|k| | |k f|f|f| |]|k|k v|k v|]; try done;
    intros (idx & _ & [= <-])%bind_Ret; first [right; by eexists _, _, _, _, _|left; by eexists _, _, _, _].
Qed.

Lemma keyed_done j p d d' p' :
  swept j = None → job_plan c j ⇓ p → section false p d ⇓ (d', p') → ∃ r, p' = Done r.
Proof.
  intros Hj Hp Hs. destruct (keyed_sections j p Hj Hp) as [(busy & i & k & next & ->)|(busy & i & A & f & r & ->)];
    cbn in Hs; apply bind_Ret in Hs as (s & _ & Hs).
  - apply bind_Ret in Hs as ([s' [b|]] & _ & Hs); [apply bind_Ret in Hs as (kv & _ & Hs)|]; injection Hs as _ <-; by eexists.
  - apply bind_Ret in Hs as ([s' p1] & ([s1 a] & _ & Hs1)%bind_Ret & [= _ <-]). injection Hs1 as _ <-. by eexists.
Qed.

(** Returning. *)
Lemma tracks_answer r x : tracks (Done r) x → answer parts x = Some r.
Proof.
  inversion 1 as [j p Hj Hp|j f i seen Hj Hi _ Heq|]; subst; [|cbn|done].
  - by destruct (keyed_sections j _ Hj Hp) as [(? & ? & ? & ? & ?)|(? & ? & ? & ? & ? & ?)].
  - unfold rest_plan in Heq. destruct (parts - i)%nat as [|n] eqn:Hn.
    + rewrite decide_True by lia. cbn [seq read_all write_all] in Heq.
      destruct j as [[]| | | |]; try done; injection Heq as <-; try done. cbn. do 3 f_equal.
      apply eq_bool_prop_intro. rewrite bool_decide_spec, Is_true_true, Z.eqb_eq. rewrite <-length_zero_iff_nil. lia.
    + by destruct j as [[]| | | |].
Qed.

(** ** Sections on one key *)

Section step.
Context d (Hd : data_ok c d) (Hr : api_ready 1 (as_cache c d)).
Context (Hsize : ∀ i s, d !! i = Some s → (size (contents s) ≤ bound i)%nat).

Lemma route_part k i : route c k = Z.of_nat i ↔ shard_part k = i.
Proof. destruct (shard_of_route c k (co_geometry _ Hc)) as [_ Hrt]. unfold shard_part. lia. Qed.

Lemma map_at k i s : d !! i = Some s → shard_part k = i → the_map d !! k = contents s !! k.
Proof.
  intros Hs Hk%route_part. rewrite (cache_contents_lookup _ k (mkLock 0 s)); [done|by apply as_cache_ok|].
  by eapply as_cache_home.
Qed.

Lemma map_update i s s' k :
  d !! i = Some s → inv_at c i s' →
  the_map (<[i := s']> d) !! k = if decide (shard_part k = i) then contents s' !! k else the_map d !! k.
Proof.
  intros Hs Hinv. pose proof (as_cache_ok c Hc d Hd) as Hok. destruct (as_cache_params c d Hd) as (Hsh & Hcap & Hlen).
  rewrite <-as_cache_set, (set_shard_contents _ _ _ _ _ Hok (as_cache_lookup c d i s Hs)).
  - change (route (as_cache c d) k) with (route c k). cbn [lock_data].
    destruct (decide (route c k = Z.of_nat i)) as [Hk|Hk], (decide (shard_part k = i)) as [Hk'|Hk']; try done;
      rewrite route_part in Hk; done.
  - destruct Hinv as [Hok' Hrt Hlim Hw]. constructor; cbn [lock_data lock_word] in *; [done|done| |done]. rewrite Hlim.
    unfold shard_limit, _shard_count. by rewrite Hlen.
Qed.

(** A section that does to its shard what [g] does to the whole map. *)
Lemma map_local i s s' (g : gmap K V → gmap K V) k :
  d !! i = Some s → inv_at c i s' → shard_part k = i → contents s' = g (contents s) →
  (∀ m k', k' ≠ k → g m !! k' = m !! k') → (∀ m m', m !! k = m' !! k → g m !! k = g m' !! k) →
  the_map (<[i := s']> d) = g (the_map d).
Proof.
  intros Hs Hinv Hk Hcont Hother Hhere. apply map_eq. intros k'. rewrite (map_update i s s' k' Hs Hinv), Hcont.
  destruct (decide (k' = k)) as [->|Hne].
  - rewrite decide_True by done. apply Hhere. symmetry. by apply (map_at k i s).
  - rewrite !Hother by done. destruct (decide (shard_part k' = i)); [symmetry; by apply (map_at k' i s)|done].
Qed.

(** The job itself, on the cache that holds the shards. *)
Lemma keyed_run j p d' r :
  swept j = None → job_plan c j ⇓ p → section false p d ⇓ (d', Done r) →
  run_job j (as_cache c d) ⇓ (as_cache c d', r).
Proof.
  intros Hj Hp Hs. destruct (job_agrees c Hc d Hd j Hr) as (p1 & d1 & r1 & Hp1 & Hal & Hrun).
  assert (p1 = p) as -> by congruence. inversion Hal as [r2 d2 Heq|p2 d2 p3 d3 d4 r2 Hs1 Hal1]; subst; [done|].
  rewrite Hs in Hs1. injection Hs1 as <- <-. by inversion Hal1; subst.
Qed.

Lemma call_section a p d' r :
  swept (JCall a) = None → call_plan c a ⇓ p → section false p d ⇓ (d', Done r) →
  spec_section shard_part parts bounded false (the_map d) (At (JCall a)) (the_map d') (Finished r).
Proof.
  intros Hj Hp Hs. pose proof (keyed_run (JCall a) p d' r Hj Hp Hs) as Hrun.
  destruct (call_refines 0 _ Hr a) as (c' & r0 & Hcall & Hspec & _).
  cbn [run_job] in Hrun. rewrite Hcall in Hrun. injection Hrun as -> <-. by apply ss_call.
Qed.

(** The shard of a key, as [keyed] finds it. *)
Lemma keyed_shard k f p :
  keyed c k f ⇓ p → ∃ i s, p = f i ∧ d !! i = Some s ∧ inv_at c i s ∧ shard_part k = i.
Proof.
  intros Hp. destruct (key_shard c Hc d Hd k f) as (i & s & Hk & Hs & Hinv & Hrt & _).
  exists i, s. split_and!; [congruence|done|done|by apply route_part].
Qed.

Lemma try_get_section k p d' r :
  job_plan c (JTryGet k) ⇓ p → section false p d ⇓ (d', Done r) →
  spec_section shard_part parts bounded false (the_map d) (At (JTryGet k)) (the_map d') (Finished r).
Proof.
  intros (i & s & -> & Hs & Hinv & Hk)%keyed_shard Hsec.
  destruct (shard_get_ok k s (li_shard _ _ _ Hinv)) as (s' & o & Hget & Hst & _ & Hcont & Hcase).
  cbn in Hsec. rewrite Hs in Hsec. cbn in Hsec. rewrite Hget in Hsec. cbn in Hsec.
  assert (Hinv' : inv_at c i s') by (by eapply lock_inv_step_keep; [done|done|apply same_keys]).
  assert (Hmap : the_map (<[i := s']> d) = the_map d) by by apply (map_local i s s' id k).
  pose proof (map_at k i s Hs Hk) as Hat.
  destruct (contents s !! k) as [v|].
  - destruct Hcase as (b & -> & Hb). rewrite Hb in Hsec. injection Hsec as <- <-. rewrite Hmap.
    pose proof (ss_try_get shard_part parts bounded k (the_map d)) as Hss. by rewrite Hat in Hss.
  - destruct Hcase as [-> _]. injection Hsec as <- <-. rewrite Hmap.
    pose proof (ss_try_get shard_part parts bounded k (the_map d)) as Hss. by rewrite Hat in Hss.
Qed.

Lemma try_put_section k v p d' r :
  job_plan c (JTryPut k v) ⇓ p → section false p d ⇓ (d', Done r) →
  spec_section shard_part parts bounded false (the_map d) (At (JTryPut k v)) (the_map d') (Finished r).
Proof.
  intros (i & s & -> & Hs & Hinv & Hk)%keyed_shard Hsec.
  destruct (get_then_set k s (li_shard _ _ _ Hinv)) as (s' & o & Hget & Hst & Hcont & Hcase). cbn [lock_data] in *.
  cbn in Hsec. rewrite Hs in Hsec. cbn in Hsec. unfold shard_put in Hsec. rewrite Hget in Hsec.
  cbn [mbind outcome_bind] in Hsec. pose proof (map_at k i s Hs Hk) as Hat.
  destruct (contents s !! k) as [w|] eqn:Hw.
  - destruct Hcase as (b & -> & _ & Hset). destruct (Hset v) as (s2 & Hs2 & Hst2 & Hcont2). rewrite Hs2 in Hsec.
    injection Hsec as <- <-. rewrite (map_local i s s2 (insert k v) k); [by eapply ss_try_put| | |done|..]; try done.
    + eapply lock_inv_step_keep; [done|done|]. cbn. rewrite Hcont2. by eapply put_keys.
    + intros m k' Hne. by rewrite lookup_insert_ne.
    + intros m m' _. by rewrite !lookup_insert_eq.
  - destruct Hcase as [-> ->]. injection Hsec as <- <-. rewrite list_insert_id by done. by apply ss_try_put_none.
Qed.

(** An insertion at a free slot is the one of [_insert]. *)
Lemma or_insert_section_spec k v p d' r :
  job_plan c (JOrInsert k v) ⇓ p → section false p d ⇓ (d', Done r) →
  spec_section shard_part parts bounded false (the_map d) (At (JOrInsert k v)) (the_map d') (Finished r).
Proof.
  intros (i & s & -> & Hs & Hinv & Hk)%keyed_shard Hsec.
  assert (Hcount : countable s).
  { by apply (ready_countable 0 _ Hr k (mkLock 0 s)), (as_cache_home c d k i s); [apply route_part|]. }
  destruct (or_insert_section k v s (li_shard _ _ _ Hinv) Hcount) as (s' & Hrun & Hst & Hcase). cbn [lock_data] in *.
  cbn in Hsec. rewrite Hs in Hsec. cbn in Hsec. rewrite Hrun in Hsec. injection Hsec as <- <-.
  pose proof (map_at k i s Hs Hk) as Hat. destruct (contents s !! k) as [w|] eqn:Hw.
  - rewrite (map_local i s s' id k); [by apply ss_or_insert| | |done..]; try done.
    eapply lock_inv_step_keep; [done|done|by apply same_keys].
  - apply ss_or_insert_none; [done|].
    assert (Hins : shard_insert k v s ⇓ (s', None)).
    { unfold shard_or_insert in Hrun. unfold shard_insert.
      destruct (rt_find_or_find_insert_slot (smap s) (hash_one k) (key_eq k) key_hash) as [t [b|slot]] eqn:Hf.
      - by destruct (search_ok k s t _ (li_shard _ _ _ Hinv) Hf) as (_ & _ & v0 & Hv0 & _); cbn in *; congruence.
      - apply bind_Ret in Hrun as ([s1 b] & Hi & (kv & _ & [= <- _])%bind_Ret).
        rewrite (proj1 (fill_copies _ _ _ _ _)) in Hi. by rewrite Hi. }
    destruct (key_shard c Hc d Hd k (once (shard_insert k v) (λ r, JReply (RValue r)))) as (i' & s1 & Hp & Hs1 & _ & Hrt & _).
    apply route_part in Hrt. assert (i' = i) as -> by congruence.
    pose proof (call_section (CInsert k v) _ (<[i := s']> d) (JReply (RValue None)) eq_refl Hp) as Hss.
    cbn in Hss. rewrite Hs in Hss. cbn in Hss. rewrite Hins in Hss. specialize (Hss eq_refl). by inversion Hss; subst.
Qed.

(** ** Sweeps *)

Lemma part_shard i s : d !! i = Some s → part shard_part i (the_map d) = contents s.
Proof.
  intros Hs. pose proof (do_inv _ _ Hd i s Hs) as Hinv. apply map_eq. intros k. apply option_eq. intros v.
  unfold part. rewrite map_lookup_filter_Some. cbn [fst]. split.
  - intros [Hk Hp]. by rewrite (map_at k i s) in Hk.
  - intros Hk. assert (Hp : shard_part k = i) by (apply route_part, (li_route _ _ _ Hinv); by exists v).
    by rewrite (map_at k i s).
Qed.

Lemma sweep_map i s s' (f : K → V → option V) :
  d !! i = Some s → inv_at c i s' → (∀ k, contents s' !! k = contents s !! k ≫= f k) →
  the_map (<[i := s']> d) = map_imap (λ k v, if decide (shard_part k = i) then f k v else Some v) (the_map d).
Proof.
  intros Hs Hinv Hcont. apply map_eq. intros k. rewrite (map_update i s s' k Hs Hinv), map_lookup_imap.
  destruct (decide (shard_part k = i)) as [Hk|Hk]; [by rewrite Hcont, (map_at k i s)|by destruct (the_map d !! k)].
Qed.

Lemma sweep_id i (m : gmap K V) : map_imap (λ k v, if decide (shard_part k = i) then Some v else Some v) m = m.
Proof. apply map_eq. intros k. rewrite map_lookup_imap. by destruct (m !! k), (decide _). Qed.

(** A section of a sweep under the write lock. *)
Lemma sweep_write j f i seen s s' :
  swept j = Some f → (i < parts)%nat → d !! i = Some s → inv_at c i s' →
  (∀ k, contents s' !! k = contents s !! k ≫= f k) →
  spec_section shard_part parts bounded false (the_map d) (Sweep j i seen) (the_map (<[i := s']> d))
    (Sweep j (S i) (seen ++ map_to_list (contents s))).
Proof.
  intros Hj Hi Hs Hinv Hcont. rewrite (sweep_map i s s' f Hs Hinv Hcont). apply ss_sweep; [done|done|].
  by rewrite (part_shard i s Hs).
Qed.

(** A section of a sweep under the read lock. *)
Lemma sweep_read j i seen s kvs :
  swept j = Some (λ _ v, Some v) → (i < parts)%nat → d !! i = Some s → kvs ≡ₚ map_to_list (contents s) →
  spec_section shard_part parts bounded false (the_map d) (Sweep j i seen) (the_map d) (Sweep j (S i) (seen ++ kvs)).
Proof.
  intros Hj Hi Hs Hkvs. rewrite <-(sweep_id i (the_map d)) at 2.
  apply (ss_sweep _ _ _ j (λ _ v, Some v)); [done|done|]. by rewrite (part_shard i s Hs).
Qed.

Lemma retain_contents (f : K → V → V * bool) st s s' a :
  shard_ok s → retain_section f st s ⇓ (s', a) →
  shard_step s s' ∧ contents s' = retained f (contents s).
Proof.
  intros Hs Hrun. destruct st, (shard_retain_ok (λ (st : unit) k v, (st, f k v)) tt s Hs)
    as (kvs & s1 & Hp & Hret & Hst & _ & Hcont).
  unfold retain_section in Hrun. rewrite Hret in Hrun. injection Hrun as -> _. split; [done|].
  by rewrite Hcont, (retain_pairs_map f kvs (contents s) Hp).
Qed.

Lemma retained_lookup (f : K → V → V * bool) (m : gmap K V) k :
  retained f m !! k = m !! k ≫= λ v, let '(v', keep) := f k v in if keep : bool then Some v' else None.
Proof. apply map_lookup_imap. Qed.

(** The sections of [write_all] and [read_all]. *)
Lemma write_all_section {St} (hold busy : bool) (f : St → ShardData K V → outcome (ShardData K V * St)) r st i is_ d' p' :
  section busy (write_all hold f r st (i :: is_)) d ⇓ (d', p') →
  busy = false ∧ ∃ s s' st', d !! i = Some s ∧ inv_at c i s ∧ f st s ⇓ (s', st') ∧
    d' = <[i := s']> d ∧ p' = write_all hold f r st' is_.
Proof.
  cbn. destruct busy; [done|]. intros (s & Hs & ([s' p1] & ([s1 st1] & Hf & [= -> <-])%bind_Ret & [= <- <-])%bind_Ret)%bind_Ret.
  destruct (d !! i) as [s0|] eqn:Hi; [|done]. injection Hs as ->. split; [done|]. exists s, s', st1.
  split_and!; [done|by apply Hd|done..].
Qed.

Lemma read_all_section {St} (hold busy : bool) (f : St → ShardData K V → outcome St) r st i is_ d' p' :
  section busy (read_all hold f r st (i :: is_)) d ⇓ (d', p') →
  busy = false ∧ ∃ s st', d !! i = Some s ∧ inv_at c i s ∧ f st s ⇓ st' ∧ d' = d ∧ p' = read_all hold f r st' is_.
Proof.
  cbn. destruct busy; [done|]. intros (s & Hs & (p1 & (st1 & Hf & [= <-])%bind_Ret & [= <- <-])%bind_Ret)%bind_Ret.
  destruct (d !! i) as [s0|] eqn:Hi; [|done]. injection Hs as ->. split; [done|]. exists s, st1.
  split_and!; [done|by apply Hd|done..].
Qed.

Lemma len_section_length s (seen : list (K * V)) n :
  shard_ok s → Z.of_nat (length seen) + shard_len s < usize_mod →
  len_section (Z.of_nat (length seen)) s ⇓ n → n = Z.of_nat (length (seen ++ map_to_list (contents s))).
Proof.
  intros Hs Hlt. unfold len_section. rewrite shard_len_contents in * by done.
  rewrite usize_add_small by lia. intros [= <-]. rewrite length_app, length_map_to_list. lia.
Qed.

Lemma seen_bound i s (seen kvs : list (K * V)) :
  (i < parts)%nat → d !! i = Some s → kvs ≡ₚ map_to_list (contents s) →
  (length seen ≤ sum_list (bound <$> seq 0 i))%nat →
  (length (seen ++ kvs) ≤ sum_list (bound <$> seq 0 (S i)))%nat ∧ Z.of_nat (length (seen ++ kvs)) < usize_mod.
Proof.
  intros Hi Hs Hkvs Hseen. pose proof (Hsize i s Hs) as Hsz. rewrite length_app, Hkvs, length_map_to_list.
  assert (Hle : (length seen + size (contents s) ≤ sum_list (bound <$> seq 0 (S i)))%nat).
  { rewrite seq_S, fmap_app, sum_list_with_app. cbn. lia. }
  split; [done|]. eapply Z.le_lt_trans; [|exact Hsum]. apply inj_le. etrans; [exact Hle|]. unfold all_shards.
  replace parts with (S i + (parts - S i))%nat by lia. rewrite seq_app, fmap_app, sum_list_with_app. lia.
Qed.

(** A turn of a sweep: from part [i] to the next. *)
Definition turn j i seen (busy : bool) d' p' (next : list (K * V) → plan K V (job_reply K V)) : Prop :=
  ∃ kvs, spec_section shard_part parts bounded busy (the_map d) (Sweep j i seen) (the_map d') (Sweep j (S i) (seen ++ kvs)) ∧
    p' = next (seen ++ kvs) ∧ (length (seen ++ kvs) ≤ sum_list (bound <$> seq 0 (S i)))%nat.

Section turns.
Context j f i (seen : list (K * V)) (Hj : swept j = Some f) (Hi : (i < parts)%nat).
Context (Hseen : (length seen ≤ sum_list (bound <$> seq 0 i))%nat).

Lemma write_turn hold F (r : unit → job_reply K V) is_ busy d' p' :
  (∀ s s' st, shard_ok s → F tt s ⇓ (s', st) → shard_step s s' ∧ ∀ k, contents s' !! k = contents s !! k ≫= f k) →
  section busy (write_all hold F r tt (i :: is_)) d ⇓ (d', p') →
  turn j i seen busy d' p' (λ _, write_all hold F r tt is_).
Proof.
  intros HF (-> & s & s' & [] & Hs & Hinv & Hf & -> & ->)%write_all_section. exists (map_to_list (contents s)).
  destruct (HF s s' tt (li_shard _ _ _ Hinv) Hf) as [Hst Hcont].
  split_and!; [|done|by apply (seen_bound i s)]. apply (sweep_write j f); [done..| |done].
  eapply lock_inv_step_keep; [done|done|]. intros k. cbn. rewrite Hcont. by destruct (contents s !! k).
Qed.

Lemma len_turn (r : Z → job_reply K V) is_ busy d' p' :
  f = (λ _ v, Some v) → section busy (read_all false len_section r (Z.of_nat (length seen)) (i :: is_)) d ⇓ (d', p') →
  turn j i seen busy d' p' (λ seen, read_all false len_section r (Z.of_nat (length seen)) is_).
Proof.
  intros -> (-> & s & n & Hs & Hinv & Hf & -> & ->)%read_all_section. exists (map_to_list (contents s)).
  destruct (seen_bound i s seen (map_to_list (contents s)) Hi Hs (Permutation_refl _) Hseen) as [Hlen Hmax].
  split_and!; [by apply sweep_read with (s := s)| |done]. f_equal.
  apply (len_section_length s seen n (li_shard _ _ _ Hinv)); [|done].
  rewrite shard_len_contents by apply Hinv. rewrite length_app, length_map_to_list in Hmax. cbn. lia.
Qed.

Lemma collect_turn is_ busy d' p' :
  f = (λ _ v, Some v) → section busy (read_all true collect_section JPairs seen (i :: is_)) d ⇓ (d', p') →
  turn j i seen busy d' p' (λ seen, read_all true collect_section JPairs seen is_).
Proof.
  intros -> (-> & s & seen' & Hs & Hinv & Hf & -> & ->)%read_all_section. rewrite collect_section_pairs in Hf.
  injection Hf as <-. pose proof (bucket_pairs_contents s (li_shard _ _ _ Hinv)) as Hp. eexists.
  split_and!; [by apply sweep_read with (s := s)|done|by apply (seen_bound i s)].
Qed.
End turns.

Lemma sweep_section j f i seen busy d' p' :
  swept j = Some f → (i ≤ parts)%nat → (length seen ≤ sum_list (bound <$> seq 0 i))%nat →
  section busy (rest_plan j i seen) d ⇓ (d', p') →
  (i < parts)%nat ∧ turn j i seen busy d' p' (rest_plan j (S i)).
Proof.
  intros Hj Hi Hseen. unfold rest_plan at 1. destruct (parts - i)%nat as [|n] eqn:Hn; [by destruct j as [[]| | | |]|].
  assert (Hlt : (i < parts)%nat) by lia. cbn [seq]. intros Hsec. split; [done|]. unfold rest_plan.
  replace (parts - S i)%nat with n by lia. pose proof Hj as Hf.
  assert (Hret : ∀ (h : K → V → V * bool) s s' st,
    (∀ k v, (let '(v', keep) := h k v in if keep then Some v' else None) = f k v) →
    shard_ok s → retain_section h tt s ⇓ (s', st) → shard_step s s' ∧ ∀ k, contents s' !! k = contents s !! k ≫= f k).
  { intros h s s' st Hh Hs Hrun. destruct (retain_contents h tt s s' st Hs Hrun) as [Hst Hcont]. split; [done|].
    intros k. rewrite Hcont, retained_lookup. destruct (contents s !! k); [apply Hh|done]. }
  destruct j as [[k v|k|k g|k g|k|k g|k| | |k g|g|g| |]|k|k v|k v|]; try done; injection Hf as <-;
    first [by apply (len_turn _ _ _ _ Hj Hlt Hseen)|by apply (collect_turn _ _ _ _ Hj Hlt Hseen)|idtac];
    apply (write_turn _ _ _ _ Hj Hlt Hseen) in Hsec; [done| |done| |done| |done|].
  - intros s s' st Hs. rewrite alter_section_retain. by apply Hret.
  - intros s s' st Hs. by apply Hret.
  - intros s s' st Hs. destruct (shard_clear_ok s Hs) as (s1 & Hrun & Hst & Hcont & _). unfold clear_section.
    rewrite Hrun. intros [= <- _]. split; [done|]. intros k. rewrite Hcont. cbn. by destruct (contents s !! k).
  - intros s s' st Hs [= <- _]. destruct (shard_shrink_ok s Hs) as (Hst & Hcont & _). split; [done|].
    intros k. rewrite Hcont. by destruct (contents s !! k).
Qed.

(** ** Any section *)

Lemma section_spec x p busy d' p' :
  tracks p x → section busy p d ⇓ (d', p') →
  ∃ x', spec_section shard_part parts bounded busy (the_map d) x (the_map d') x' ∧ tracks p' x'.
Proof.
  intros [j p0 Hj Hp|j f i seen Hj Hi Hseen|r] Hsec; [| |done].
  - destruct busy.
    { destruct j as [[k v|k|k g|k g|k|k g|k| | |k g|g|g| |]|k|k v|k v|]; try done;
        apply bind_Ret in Hp as (idx & _ & [= <-]); try done; injection Hsec as <- <-; eexists;
        (split; [constructor|constructor]). }
    destruct (keyed_done j p0 d d' p' Hj Hp Hsec) as [r ->]. exists (Finished r). split; [|constructor].
    destruct j as [a|k|k v|k v|]; [by eapply call_section|by eapply try_get_section|by eapply try_put_section
      |by eapply or_insert_section_spec|done].
  - destruct (sweep_section j f i seen busy d' p' Hj Hi Hseen Hsec) as (Hlt & kvs & Hss & -> & Hlen).
    exists (Sweep j (S i) (seen ++ kvs)). split; [done|]. apply (tracks_sweep j f); [done|lia|done].
Qed.
End step.

(** ** Steps of the machines *)

Definition thread_rel (a : list (job K V) * option (plan K V (job_reply K V)))
    (z : list (job K V) * option (jstate K V)) : Prop :=
  a.1 = z.1 ∧ match a.2, z.2 with
              | None, None => True
              | Some p, Some x => tracks p x
              | _, _ => False
              end.

Definition srel (α : aconfig K V (job K V) (job_reply K V)) (z : sconfig K V) : Prop :=
  s_map z = the_map (a_data α) ∧ Forall2 thread_rel (a_threads α) (s_threads z).

Lemma astep_spec α e α' z :
  data_ok c (a_data α) → api_ready 1 (as_cache c (a_data α)) →
  (∀ i s, a_data α !! i = Some s → (size (contents s) ≤ bound i)%nat) →
  srel α z → astep (job_plan c) α e α' → ∃ z', sstep shard_part parts bounded z e z' ∧ srel α' z'.
Proof.
  destruct z as [m zs]. intros Hd Hr Hsize [Hm Hts] Hst. cbn in Hm, Hts.
  destruct Hst as [d ts t j todo p Ht Hp|d ts t busy todo p d' p' Ht Hsec|d ts t r todo Ht]; cbn in *;
    destruct (Forall2_lookup_l _ _ _ _ _ Hts Ht) as ([todo' x] & Hz & Htodo & Hx); cbn in Htodo, Hx; subst todo' m.
  - destruct x; [done|]. eexists. split; [by eapply sstep_call|]. split; [done|]. cbn.
    apply Forall2_insert; [done|]. split; [done|]. by apply tracks_called.
  - destruct x as [x|]; [|done]. destruct (section_spec d Hd Hr Hsize x p busy d' p' Hx Hsec) as (x' & Hss & Hx').
    eexists. split; [by eapply sstep_section|]. split; [done|]. cbn. by apply Forall2_insert.
  - destruct x as [x|]; [|done]. eexists. split; [by eapply sstep_return; [done|apply tracks_answer]|].
    split; [done|]. cbn. by apply Forall2_insert.
Qed.
End sim.

(** ** Whole executions *)

Section executions.
Context {K V : Type} `{Countable K} `{!BuildHasher K} `{!Target}.
Context `{!RawTable (K * CacheEntry V)} `{!RawTableSpec (K * CacheEntry V)}.
Context (c : NeoCache K V) (todos : list (list (job K V))).
Context (Hready : api_ready (S (length (concat todos))) c).
Context (Hthreads : Z.of_nat (length todos) + 1 < max_readers).
Implicit Types (σ : config K V (job K V) (job_reply K V)) (crs : list (nat → nat)).

#[local] Abbreviation bound := (job_bound c todos).
#[local] Abbreviation cinv := (cinv c bound (job_credit c)).

Lemma ready_fewer n m (c0 : NeoCache K V) : (m ≤ n)%nat → api_ready n c0 → api_ready m c0.
Proof. intros Hle [Hc Hq Hu Hb]. constructor; [done..| |done]. intros Hz. specialize (Hu Hz). lia. Qed.

Lemma bound_sum : Z.of_nat (sum_list (bound <$> all_shards c)) < usize_mod.
Proof. apply job_bound_sum. eapply ready_fewer; [|exact Hready]. lia. Qed.

Lemma bound_room : unbounded c → Z.of_nat (sum_list (bound <$> all_shards c)) + 1 < usize_mod.
Proof.
  intros Hz. destruct Hready as [Hc _ Hu _]. specialize (Hu Hz). unfold job_bound, unbounded in *.
  destruct (decide (cache_capacity c = 0)); [|done]. rewrite sum_list_add, shard_sizes by done.
  pose proof (total_credit c (concat todos) 0 (length (shards c))). unfold all_shards. lia.
Qed.

Lemma start_cinv : cinv (replicate (length todos) (λ _, O)) (start c todos).
Proof. apply start_inv; [apply Hready|done]. Qed.

Lemma jobs_safe j : ∃ p, job_plan c j ⇓ p ∧ psafe c bound (job_credit c j) None p.
Proof. apply job_safe; [apply Hready|apply bound_sum]. Qed.

Lemma cinv_data crs σ : cinv crs σ → data_ok c (data σ).
Proof. intros Hi. split; [apply Hi|]. intros i s Hs. by apply (ci_data _ _ _ _ _ Hi). Qed.

Lemma cinv_size crs σ i s : cinv crs σ → data σ !! i = Some s → (size (contents s) ≤ bound i)%nat.
Proof.
  intros Hi Hs. destruct (decide (cache_capacity c = 0)) as [Hz|Hz].
  - pose proof (ci_credit _ _ _ _ _ Hi i s Hz Hs). lia.
  - by apply bounded_size, (ci_data _ _ _ _ _ Hi).
Qed.

Lemma sum_list_le (f g : nat → nat) is_ :
  (∀ i, i ∈ is_ → f i ≤ g i)%nat → (sum_list (f <$> is_) ≤ sum_list (g <$> is_))%nat.
Proof.
  induction is_ as [|i is_ IH]; intros Hle; [done|]. cbn. specialize (Hle i ltac:(by left)) as Hi.
  assert (IH' : (sum_list (f <$> is_) ≤ sum_list (g <$> is_))%nat) by (apply IH; intros; apply Hle; by right).
  cbn in IH'. lia.
Qed.

(** At every moment the cache is one a sequential caller could work with. *)
Lemma cinv_ready crs σ : cinv crs σ → api_ready 1 (as_cache c (data σ)).
Proof.
  intros Hi. pose proof (cinv_data crs σ Hi) as Hd. pose proof (ready_ok _ _ Hready) as Hc.
  pose proof (as_cache_ok c Hc _ Hd) as Hok. destruct (as_cache_params c _ Hd) as (_ & _ & Hlen).
  constructor; [done|apply as_cache_quiescent| |].
  - intros Hz. change (unbounded c) in Hz. rewrite <-shard_sizes by done. pose proof (bound_room Hz) as Hroom.
    eapply Z.le_lt_trans; [|exact Hroom]. apply Z.add_le_mono_r, inj_le. unfold all_shards. rewrite Hlen.
    apply sum_list_le. intros i _. destruct (shards (as_cache c (data σ)) !! i) as [l|] eqn:Hl; [|lia].
    apply list_lookup_fmap_Some in Hl as (s & -> & Hs). by apply (cinv_size crs σ i s).
  - intros Hz. unfold _shard_count. rewrite Hlen. by apply (ready_bounded _ _ Hready).
Qed.

Lemma exec_inv evs σ :
  exec (job_plan c) (start c todos) evs σ →
  (∃ crs, cinv crs σ) ∧ aexec (job_plan c) (astart c todos) evs (abs σ).
Proof.
  intros Hex. rewrite <-abs_start. eapply exec_good; [|apply jobs_safe|apply start_cinv|done].
  intros i s. apply bounded_size.
Qed.

Definition sstart : sconfig K V := mkSConfig (cache_contents c) ((λ todo, (todo, None)) <$> todos).

(** One step of a thread. *)
Lemma step_spec evs σ t ch σ' e z :
  exec (job_plan c) (start c todos) evs σ → srel c bound (abs σ) z → cstep (job_plan c) t ch σ ⇓ (σ', e) →
  match e with
  | Some e => ∃ z', sstep (shard_part c) (length (shards c)) (¬ unbounded c) z e z' ∧ srel c bound (abs σ') z'
  | None => srel c bound (abs σ') z
  end.
Proof.
  intros Hex Hrel Hst. destruct (exec_inv _ _ Hex) as [[crs Hi] _].
  destruct (cstep_good (job_plan c) c bound (job_credit c) (bounded_size c todos) jobs_safe crs σ t ch Hi)
    as [Hb|(σ1 & e1 & crs1 & Hr & _ & Hm)]; [congruence|]. assert (σ1 = σ' ∧ e1 = e) as [-> ->] by (split; congruence).
  destruct e as [e|]; cbn in Hm; [|by rewrite Hm].
  apply (astep_spec c (ready_ok _ _ Hready) bound bound_sum (abs σ));
    [by eapply cinv_data|by eapply cinv_ready|intros i s; by eapply cinv_size|done|done].
Qed.

Lemma exec_spec evs σ :
  exec (job_plan c) (start c todos) evs σ →
  ∃ z, sexec (shard_part c) (length (shards c)) (¬ unbounded c) sstart evs z ∧ srel c bound (abs σ) z.
Proof.
  induction 1 as [|evs σ t ch σ' e Hex (z & Hz & Hrel) Hst].
  { exists sstart. split; [constructor|]. rewrite abs_start. split; cbn [sstart astart s_map s_threads a_data a_threads].
    - change (lock_data <$> shards c) with (shard_data c). rewrite as_cache_id; [done|apply Hready].
    - rewrite Forall2_fmap. apply Forall_Forall2_diag, Forall_true. done. }
  pose proof (step_spec evs σ t ch σ' e z Hex Hrel Hst) as Hstep. destruct e as [e|]; cbn.
  - destruct Hstep as (z' & Hs & Hrel'). exists z'. split; [|done]. by eapply sexec_snoc.
  - rewrite app_nil_r. by exists z.
Qed.

(** A thread at rest is at rest in the specification. *)
Lemma srel_rest σ z t todo :
  srel c bound (abs σ) z → threads σ !! t = Some (todo, Rest) → s_threads z !! t = Some (todo, None).
Proof.
  intros [_ Hts] Ht. destruct (Forall2_lookup_l _ _ _ _ _ Hts (abs_thread _ _ _ _ Ht)) as ([todo' x] & Hz & Htodo & Hx).
  cbn in Htodo, Hx. by destruct x; subst.
Qed.
End executions.
