(* ===== verification/SweepSpec.v ===== *)
(** * SweepSpec: iterating while other threads change the cache

    What an iteration over the shards yields when other threads insert, remove
    and change entries in between. *)

From stdpp Require Import base gmap list.
From S2P Require Import Prelude Machine Lock LockMachine LockInv RawTable Util Shard ShardOps ShardModel ShardSim.
From S2P Require Import Evict Safety Exact ShardSpec TryResult Cache Guards Entry Iter MapTrait Threads ThreadLocks.
From S2P Require Import CacheSpec CacheEffects EntrySpec IterSpec ThreadInv ThreadSteps Api Jobs JobSpec JobRuns Concurrent ConcurrentSim.

Open Scope Z_scope.

Section paths.
Context {K V : Type} `{Countable K} `{!BuildHasher K} `{!Target}.
Context `{!RawTable (K * CacheEntry V)}.
Context {J R : Type} (plan_of : J → outcome (plan K V R)).
Implicit Types (σ : config K V J R).

(** An execution all of whose states satisfy [P]. *)
Inductive exec_in (P : config K V J R → Prop) σ0 : list (tevent J R) → config K V J R → Prop :=
| exec_in_nil : P σ0 → exec_in P σ0 [] σ0
| exec_in_snoc evs σ t ch σ' e :
    exec_in P σ0 evs σ → cstep plan_of t ch σ ⇓ (σ', e) → P σ' → exec_in P σ0 (evs ++ option_list e) σ'.

Lemma exec_in_exec P σ σ0 evs0 evs σ' :
  exec plan_of σ evs0 σ0 → exec_in P σ0 evs σ' → exec plan_of σ (evs0 ++ evs) σ' ∧ P σ'.
Proof.
  intros Hex. induction 1 as [HP|evs σ1 t ch σ2 e _ [Hex1 HP1] Hst HP]; [by rewrite app_nil_r|].
  split; [|done]. rewrite app_assoc. by eapply exec_snoc.
Qed.

(** A schedule all of whose states pass a check. *)
Fixpoint all_states (check : config K V J R → bool) (sched : list (nat * choice)) σ : bool :=
  check σ &&
  match sched with
  | [] => true
  | (t, ch) :: sched' =>
      match cstep plan_of t ch σ with
      | Ret (σ, _) => all_states check sched' σ
      | _ => all_states check sched' σ
      end
  end.

Lemma run_schedule_in (P : config K V J R → Prop) check sched σ0 evs0 σ σ' evs :
  (∀ σ, check σ = true → P σ) → exec_in P σ0 evs0 σ → all_states check sched σ = true →
  run_schedule plan_of sched σ ⇓ (σ', evs) → exec_in P σ0 (evs0 ++ evs) σ'.
Proof.
  intros Hcheck. revert evs0 σ evs. induction sched as [|[t ch] sched IH]; intros evs0 σ evs Hex; cbn [run_schedule all_states].
  { intros _ [= <- <-]. by rewrite app_nil_r. }
  intros [_ Hall]%andb_true_iff. destruct (cstep plan_of t ch σ) as [[σ1 e]| | | | |] eqn:Hst; try done; [|by apply IH].
  cbn [mbind outcome_bind]. intros ([σ2 evs2] & Hrun & [= <- <-])%bind_Ret. rewrite app_assoc.
  eapply IH; [eapply exec_in_snoc; [done|done|]|done|done]. apply Hcheck. by destruct sched as [|[]]; apply andb_true_iff in Hall as [].
Qed.
End paths.

Section sweep.
Context {K V : Type} `{Countable K}.
Context (part_of : K → nat) (parts : nat) (bounded : Prop) (k : K) (v : V) (Q : Prop) (t : nat) (todo : list (job K V)).
Context (Hk : (part_of k < parts)%nat).
Implicit Types (seen kvs : list (K * V)) (z : sconfig K V).

(** The pairs seen so far: no key twice, only keys of the parts visited, and
    [(k, v)] if and only if [Q], once its part has been visited. *)
Record seen_ok (i : nat) seen : Prop := {
  seen_nodup : NoDup seen.*1;
  seen_parts : Forall (λ k, part_of k < i)%nat seen.*1;
  seen_pair : (part_of k < i)%nat → (k, v) ∈ seen ↔ Q
}.

Lemma seen_next (m : gmap K V) i seen kvs :
  (m !! k = Some v ↔ Q) → kvs ≡ₚ map_to_list (part part_of i m) → seen_ok i seen → seen_ok (S i) (seen ++ kvs).
Proof.
  intros Hm Hkvs [Hnd Hparts Hpair].
  assert (Hin : ∀ k' v', (k', v') ∈ kvs ↔ m !! k' = Some v' ∧ part_of k' = i).
  { intros k' v'. rewrite Hkvs, elem_of_map_to_list. unfold part. by rewrite map_lookup_filter_Some. }
  assert (Hnew : Forall (λ k, part_of k = i) kvs.*1).
  { apply Forall_fmap, Forall_forall. intros [k' v'] Hk'. by apply Hin in Hk' as []. }
  rewrite Forall_forall in Hparts, Hnew. split.
  - rewrite fmap_app. apply NoDup_app. split_and!; [done| |rewrite Hkvs; apply NoDup_fst_map_to_list].
    intros k' Hold%Hparts Hk'%Hnew. lia.
  - rewrite fmap_app. apply Forall_app. split; apply Forall_forall; intros k' Hk'; [apply Hparts in Hk'|apply Hnew in Hk']; lia.
  - intros Hlt. rewrite elem_of_app, Hin, <-Hm. destruct (decide (part_of k = i)) as [Hi|Hi].
    + split; [intros [Hs|[]]; [|done]|by right]. assert (k ∈ seen.*1) as Hs'%Hparts by (apply list_elem_of_fmap; by exists (k, v)). lia.
    + rewrite Hpair, Hm by lia. naive_solver.
Qed.

(** How far thread [t] is with its iteration. *)
Definition phase (evs : list (tevent (job K V) (job_reply K V))) (th : list (job K V) * option (jstate K V)) : Prop :=
  th = (JCollect :: todo, None) ∨
  (∃ i seen, th = (todo, Some (Sweep JCollect i seen)) ∧ seen_ok i seen) ∨
  (th = (todo, None) ∧ ∃ kvs, EvReturn t (JPairs kvs) ∈ evs ∧ NoDup kvs.*1 ∧ ((k, v) ∈ kvs ↔ Q)) ∨
  (length th.1 < length todo)%nat.

Lemma phase_later evs e th : phase evs th → phase (evs ++ [e]) th.
Proof.
  intros [?|[?|[[-> (kvs & Hin & ?)]|?]]]; [by left|by right; left| |by right; right; right].
  right; right; left. split; [done|]. exists kvs. split; [|done]. apply elem_of_app. by left.
Qed.

Lemma phase_step evs z e z' th :
  (s_map z !! k = Some v ↔ Q) → sstep part_of parts bounded z e z' →
  s_threads z !! t = Some th → phase evs th → ∃ th', s_threads z' !! t = Some th' ∧ phase (evs ++ [e]) th'.
Proof.
  intros Hm Hst Hth Hph.
  assert (Hother : ∀ u (zs : list (list (job K V) * option (jstate K V))) th1, u ≠ t → zs !! t = Some th → ∃ th', <[u := th1]> zs !! t = Some th' ∧ phase (evs ++ [e]) th').
  { intros u zs th1 Hne Ht. exists th. rewrite list_lookup_insert_ne by done. split; [done|by apply phase_later]. }
  destruct Hst as [m ts u j todo1 Hu|m ts u busy todo1 x m' x' Hu Hss|m ts u r todo1 x Hu Hans]; cbn in *;
    (destruct (decide (u = t)) as [->|Hne]; [|by apply Hother]);
    rewrite Hth in Hu; injection Hu as ->; eexists;
    (split; [apply list_lookup_insert_eq; by eapply lookup_lt_Some|]); unfold phase.
  - destruct Hph as [[= -> ->]|[(i & seen & [=] & _)|[[[= <-] _]|Hlt]]].
    + right; left. exists 0%nat, []. split; [done|]. split; [constructor|constructor|lia].
    + right; right; right. cbn. lia.
    + right; right; right. cbn in *. lia.
  - destruct Hph as [[=]|[(i & seen & [= -> ->] & Hok)|[[[=] _]|Hlt]]]; [|by right; right; right].
    inversion Hss as [| | | | | | | |j f i' seen' kvs m0 Hj Hi Hkvs]; subst. right; left. eexists _, _. split; [done|].
    by eapply seen_next.
  - destruct Hph as [[=]|[(i & seen & [= -> ->] & Hok)|[[[=] _]|Hlt]]]; [|by right; right; right].
    right; right; left. split; [done|]. cbn in Hans. destruct (decide (i = parts)) as [->|]; [|done].
    injection Hans as <-. exists seen. split; [apply elem_of_app; right; by left|].
    split; [apply Hok|by apply (seen_pair _ _ Hok)].
Qed.
End sweep.

Section iteration.
Context {K V : Type} `{Countable K} `{!BuildHasher K} `{!Target}.
Context `{!RawTable (K * CacheEntry V)} `{!RawTableSpec (K * CacheEntry V)}.
Context (c : NeoCache K V) (todos : list (list (job K V))).
Context (Hready : api_ready (S (length (concat todos))) c).
Context (Hthreads : Z.of_nat (length todos) + 1 < max_readers).
Implicit Types (σ : config K V (job K V) (job_reply K V)).

#[local] Abbreviation now σ := (cache_contents (as_cache c (data σ))).

Lemma part_lt k : (shard_part c k < length (shards c))%nat.
Proof.
  destruct (shard_of_route c k (co_geometry _ (ready_ok _ _ Hready))) as [_ Hr]. unfold shard_part, _shard_count in *. lia.
Qed.

Lemma iteration_phase evs0 σ0 t todo k v Q evs σ :
  exec (job_plan c) (start c todos) evs0 σ0 → threads σ0 !! t = Some (JCollect :: todo, Rest) →
  exec_in (job_plan c) (λ σ, now σ !! k = Some v ↔ Q) σ0 evs σ →
  ∃ z th, srel c (job_bound c todos) (abs σ) z ∧ s_threads z !! t = Some th ∧ phase (shard_part c) k v Q t todo evs th.
Proof.
  intros Hex Ht. destruct (exec_spec c todos Hready Hthreads evs0 σ0 Hex) as (z0 & _ & Hrel0).
  induction 1 as [HQ|evs σ u ch σ' e Hin IH Hst HQ].
  { exists z0, (JCollect :: todo, None). split_and!; [done|by eapply srel_rest|by left]. }
  destruct IH as (z & th & Hrel & Hz & Hph), (exec_in_exec _ _ _ _ _ _ _ Hex Hin) as [Hex1 HQ1].
  pose proof (step_spec c todos Hready Hthreads _ σ u ch σ' e z Hex1 Hrel Hst) as Hstep. destruct e as [e|]; cbn.
  - destruct Hstep as (z' & Hs & Hrel').
    destruct (phase_step (shard_part c) (length (shards c)) (¬ unbounded c) k v Q t todo (part_lt k) evs z e z' th)
      as (th' & Hz' & Hph'); [by destruct Hrel as [-> _]|done..|]. by exists z', th'.
  - rewrite app_nil_r. by exists z, th.
Qed.
End iteration.
