(* ===== verification/Concrete.v ===== *)
(** * Concrete: an instance of the parameters to evaluate the model with

    Integer keys, a hasher, the reference table of RawTable and a 64-bit
    target: enough to run the operations of the development on concrete
    inputs. *)

From stdpp Require Import base gmap list.
From S2P Require Import Prelude Machine RawTable Util Shard ShardOps ShardSpec ShardHistory Cache CacheSpec.

Open Scope Z_scope.

Module Concrete.
(** A hasher that spreads small keys over the shards: the key is placed in
    the bits below the seven that hashbrown uses for its tags. *)
Definition spread (k : Z) : Z := (k * 2 ^ 49) mod 2 ^ 64.

#[global] Program Instance spread_hasher : BuildHasher Z := { hash_one := spread }.
Next Obligation. intros k. by apply Z.mod_pos_bound. Qed.

#[global] Existing Instance ListTable.list_table.
#[global] Existing Instance ListTable.list_table_spec.
#[global] Existing Instance debug64.

Definition shard : Type := ShardData Z Z.
Definition op : Type := shard_op Z Z.

(** [Some] of the pairs, the number of live entries and the queued keys. *)
Definition observe (o : outcome shard) : option (list (Z * Z) * (Z * Z) * list Z * list Z) :=
  match o with
  | Ret s => Some (prod_map id value <$> rt_into_iter (smap s), (small_live s, main_live s),
                   small_keys s, main_keys s)
  | _ => None
  end.

(** A cache of capacity 8 with two shards, empty and with one pair. *)
Lemma demo_empty :
  ∃ c : NeoCache Z Z, cache_ok c ∧ quiescent c ∧ cache_contents c = ∅ ∧ cache_capacity c = 8.
Proof.
  destruct (constructor_ok (K:=Z) (V:=Z) 8 2) as (c & _ & _ & ? & ? & ? & ? & _);
    [by split|by vm_compute|done|]. by exists c.
Qed.

Lemma demo_one :
  ∃ c : NeoCache Z Z, cache_ok c ∧ quiescent c ∧ cache_contents c !! 1 = Some 10 ∧ cache_capacity c = 8.
Proof.
  destruct demo_empty as (c & Hc & Hq & He & Hcap).
  destruct (cache_insert_ok c 1 10 Hc (quiescent_unlocked c 1 Hc Hq)) as (c' & _ & Hc' & Hu & Hsame & Heff).
  { apply bounded_countable; [done|lia]. }
  exists c'. split_and!; [done|by apply (same_except_quiescent c c' 1)|apply Heff|].
  by rewrite (se_capacity _ _ _ Hsame).
Qed.

(** The same cache as a term that evaluates. *)
Definition demo_run : outcome (NeoCache Z Z * option Z) :=
  c ← with_capacity_and_hasher_and_shard_amount 8 2; _insert 1 10 c.

Definition demo_cache : NeoCache Z Z :=
  match demo_run with Ret (c, _) => c | _ => mkCache 0 [] 0 end.

Lemma demo_cache_ok : cache_ok demo_cache ∧ quiescent demo_cache ∧ cache_contents demo_cache = {[1 := 10]}.
Proof.
  destruct (constructor_ok (K:=Z) (V:=Z) 8 2) as (c & _ & Hrun & Hc & Hq & He & Hcap & _);
    [by split|by vm_compute|done|].
  destruct (cache_insert_ok c 1 10 Hc (quiescent_unlocked c 1 Hc Hq)) as (c' & Hins & Hc' & Hu & Hsame & Heff).
  { apply bounded_countable; [done|lia]. }
  assert (demo_cache = c') as ->.
  { unfold demo_cache, demo_run. rewrite Hrun. cbn [mbind outcome_bind]. by rewrite Hins. }
  split_and!; [done|by apply (same_except_quiescent c c' 1)|].
  apply map_eq. intros k. destruct (decide (k = 1)) as [->|Hne].
  - rewrite lookup_singleton_eq. apply Heff.
  - rewrite lookup_singleton_ne by done. apply eq_None_not_Some. intros [v Hv].
    apply (ins_others _ _ _ _ _ Heff) in Hv; [|done]. by rewrite He, lookup_empty in Hv.
Qed.
End Concrete.
