(* ===== verification/ShardTheorems.v ===== *)
(** * ShardTheorems: what a shard guarantees

    The statements a user of src/src/shard.rs can rely on, for every history
    of operations from a new shard, with evaluated instances. *)

From stdpp Require Import base gmap list.
From S2P Require Import Prelude Machine RawTable Util Shard ShardOps ShardModel ShardSim.
From S2P Require Import Evict Safety Exact ShardSpec Policy ShardHistory Concrete.

Open Scope Z_scope.

Section theorems.
Context {K V : Type} `{Countable K} `{!BuildHasher K} `{!Target}.
Context `{!RawTable (K * CacheEntry V)} `{!RawTableSpec (K * CacheEntry V)}.
Implicit Types (s : ShardData K V) (k : K) (v : V).

(** The facts about a reachable shard that are visible in its fields. *)
Record shard_wf s : Prop := {
  wf_len : shard_len s ≤ shard_live s;
  wf_live : 0 < shard_cap s → shard_live s ≤ shard_cap s;
  wf_live_usize : shard_live s < usize_mod;
  wf_ghost : Z.of_nat (size (ghost_set s)) ≤ shard_cap s;
  wf_small_queue : small_hashes s = hash_one <$> small_keys s;
  wf_main_queue : main_hashes s = hash_one <$> main_keys s;
  wf_entries x : x ∈ rt_into_iter (smap s) →
    0 ≤ freq x.2 ≤ MAX_FREQ ∧
    (loc x.2 = LOC_SMALL ∧ x.1 ∈ small_keys s ∨ loc x.2 = LOC_MAIN ∧ x.1 ∈ main_keys s)
}.

Lemma shard_ok_wf s : shard_ok s → shard_wf s.
Proof.
  intros (a & Hrel & Hi). constructor.
  - pose proof (inv_drift _ Hi) as Hd. rewrite <-(shard_drift_rel _ _ Hrel) in Hd.
    unfold shard_drift in Hd. lia.
  - rewrite (shard_live_rel _ _ Hrel), (rel_cap _ _ Hrel). apply Hi.
  - rewrite (shard_live_rel _ _ Hrel). apply Hi.
  - rewrite (rel_ghost _ _ Hrel), (rel_cap _ _ Hrel), <-(caps_ghost _ (inv_caps _ Hi)). apply Hi.
  - by rewrite (rel_small_hashes _ _ Hrel), (rel_small_keys _ _ Hrel).
  - by rewrite (rel_main_hashes _ _ Hrel), (rel_main_keys _ _ Hrel).
  - intros [k e]. rewrite (repr_into_iter _ _ (rel_map _ _ Hrel)), elem_of_map_to_list.
    intros Hk. rewrite (rel_small_keys _ _ Hrel), (rel_main_keys _ _ Hrel).
    destruct (inv_entry _ _ _ Hi Hk) as [Hf [Hl|Hl]]; (split; [done|]); [left|right];
      (split; [done|]); [by eapply inv_small_queue | by eapply inv_main_queue].
Qed.

(** C1. Every history of insertions, lookups, updates, removals, retentions,
    clearings and reallocations of a shard returns normally: the eviction
    loops terminate, no counter overflows or underflows (a panic with
    overflow checks), and no unsafe contract of the table is violated. The
    state it leads to satisfies the invariant of the shard: entries are
    never more than the live counters say, the counters never exceed the
    capacity, the ghost set holds at most [shard_cap] hashes, the parallel
    deques agree, frequencies stay in [0, 3] and every entry is queued where
    its location says. The bound on the length matters for an unbounded
    shard only, whose counter is a [usize]. *)
Theorem history_safe map_cap cap (ops : list (shard_op K V)) :
  history_ok cap ops →
  ∃ s, run_ops ops (shard_new map_cap cap) ⇓ s ∧ shard_wf s ∧ shard_cap s = cap.
Proof.
  intros [Hok Hroom]%(history_room map_cap).
  destruct (run_ops_ok ops _ Hok Hroom) as (s & Hs & Hs_ok & Hc & _).
  exists s. split_and!; [done|by apply shard_ok_wf|]. by rewrite Hc, shard_new_cap.
Qed.

(** Inserting into any reachable shard returns the previous value of
    the key and stores the new one; the other pairs are unchanged or
    evicted. Nothing is evicted when the key is present or the shard is not
    full; a full shard evicts exactly one entry for a new key. *)
Lemma insert_functional map_cap cap (ops : list (shard_op K V)) s k v :
  history_ok cap (ops ++ [OpInsert k v]) → run_ops ops (shard_new map_cap cap) ⇓ s →
  ∃ s', shard_insert k v s ⇓ (s', contents s !! k) ∧
    insert_effect k v (shard_full s) (contents s) (contents s').
Proof.
  intros Hok Hs. destruct (history_room map_cap _ _ Hok) as [Hnew Hroom].
  destruct Hok as [Hcap Hlen]. rewrite length_app in Hroom, Hlen. cbn in Hroom, Hlen.
  destruct (run_ops_ok_live 1 ops _ Hnew Hroom) as (s0 & Hs0 & Hok0 & Hroom0).
  rewrite Hs in Hs0. injection Hs0 as <-.
  destruct (shard_insert_ok k v s Hok0 (room_for_countable _ _ Hroom0)) as (s' & ? & _ & _ & ?).
  by exists s'.
Qed.

(** C21. Without explicit removals the bookkeeping is exact: the live
    counters are the lengths of the two queues, their sum is the number of
    entries, and the queues hold every key exactly once. *)
Theorem no_removal_exact map_cap cap (ops : list (shard_op K V)) s :
  history_ok cap ops → forallb (negb ∘ removes) ops = true →
  run_ops ops (shard_new map_cap cap) ⇓ s →
  total_live s ⇓ shard_len s ∧
  small_live s = Z.of_nat (length (small_keys s)) ∧
  main_live s = Z.of_nat (length (main_keys s)) ∧
  small_keys s ++ main_keys s ≡ₚ (map_to_list (contents s)).*1.
Proof.
  intros Hok Hrem Hs. destruct (history_room map_cap _ _ Hok) as [_ Hroom].
  destruct (run_ops_tidy ops _ s Hrem (shard_new_tidy _ _ (proj1 Hok)) Hroom Hs)
    as (a & Hrel & Hi & He & Ht).
  split; [apply exact_live; by exists a|].
  rewrite (contents_rel _ _ Hrel), (rel_small_live _ _ Hrel), (rel_main_live _ _ Hrel),
    (rel_small_keys _ _ Hrel), (rel_main_keys _ _ Hrel).
  rewrite (tidy_small_length _ Hi He Ht), (tidy_main_length _ Hi He Ht).
  split_and!; [apply He..|]. unfold m_contents. rewrite map_to_list_fmap, <-list_fmap_compose.
  by apply tidy_queued.
Qed.

Lemma drift_lost s (ops : list (shard_op K V)) :
  shard_ok s → 0 < shard_cap s → forallb (negb ∘ is_clear) ops = true →
  ∃ s', run_ops ops s ⇓ s' ∧ shard_drift s ≤ shard_drift s' ∧
    shard_len s' + shard_drift s ≤ shard_cap s.
Proof.
  intros Hs Hcap Hclear. destruct (run_ops_ok ops s Hs) as (s' & Hs' & Hs'_ok & Hc' & Hd); [intros ?; lia|].
  specialize (Hd Hclear). exists s'. split_and!; [done..|].
  pose proof (wf_live _ (shard_ok_wf _ Hs'_ok)) as Hl. unfold shard_drift in Hd at 2. lia.
Qed.

Lemma history_shard_ok map_cap cap (ops : list (shard_op K V)) s :
  history_ok cap ops → run_ops ops (shard_new map_cap cap) ⇓ s → shard_ok s ∧ shard_cap s = cap.
Proof.
  intros Hok Hs. destruct (history_room map_cap _ _ Hok) as [Hnew Hroom].
  destruct (run_ops_ok ops _ Hnew Hroom) as (s0 & Hs0 & Hs_ok & Hc0 & _).
  rewrite Hs in Hs0. injection Hs0 as <-. by rewrite shard_new_cap in Hc0.
Qed.

(** C25. The live counters can overestimate the number of entries (see
    [phantom_entry]). The error is below the capacity, so a shard always
    keeps room for an entry; it never decreases again until the shard is
    cleared, and it is lost capacity: at most [shard_cap] minus the error
    entries fit from then on. *)
Theorem phantom_capacity map_cap cap (ops1 ops2 : list (shard_op K V)) s :
  0 < cap < usize_mod → forallb (negb ∘ is_clear) ops2 = true →
  run_ops ops1 (shard_new map_cap cap) ⇓ s →
  0 ≤ shard_drift s < cap ∧
  ∃ s', run_ops ops2 s ⇓ s' ∧ shard_drift s ≤ shard_drift s' ∧
    shard_len s' + shard_drift s ≤ cap.
Proof.
  intros Hcap Hclear Hs.
  destruct (history_shard_ok map_cap cap ops1 s) as [Hs_ok <-]; [|done|].
  { split; [unfold is_usize|]; lia. }
  split; [|apply drift_lost; [done|lia|done]].
  destruct Hs_ok as (a & Hrel & Hi). rewrite (shard_drift_rel _ _ Hrel).
  split; [apply Hi|]. rewrite (rel_cap _ _ Hrel) in *. apply inv_drift_bound; [done|lia].
Qed.

(** ** Termination of the eviction loops *)

(** More turns do not change the outcome of a loop that ended. *)
Lemma main_loop_more n m s :
  (n ≤ m)%nat → evict_from_main_loop n s ≠ OutOfFuel →
  evict_from_main_loop m s = evict_from_main_loop n s.
Proof.
  revert m s. induction n as [|n IH]; intros m s Hle Hn; [done|]. destruct m as [|m]; [lia|].
  cbn in *. destruct (pop_live _ _ _) as [[hs ks] [[[h k] b]|]]; [|done].
  destruct (deref (rt_as_ref _ b)) as [[k' e]| | | | |]; try done. cbn in *. destruct (freq e >? 0); [|done].
  destruct (deref (rt_write _ _ _)); try done. cbn in *. apply IH; [lia|done].
Qed.

Lemma room_loop_more n m s s' :
  (n ≤ m)%nat → make_room_loop n s ⇓ s' → make_room_loop m s ⇓ s'.
Proof.
  revert m s. induction n as [|n IH]; intros m s Hle; [done|]. destruct m as [|m]; [lia|]. cbn.
  destruct (_ >? 0); [|done]. intros (tl & -> & Hn)%bind_Ret. cbn. destruct (_ >=? _); [|done].
  apply bind_Ret in Hn as (s1 & -> & Hn). cbn. apply IH; [lia|done].
Qed.

Lemma room_loop_idle s a n :
  shard_rel s a → inv a → ¬ full a → make_room_loop (S n) s ⇓ s.
Proof.
  intros Hrel Hi Hnf. cbn. rewrite (total_live_rel _ _ Hrel), (m_total_live_live _ Hi), (rel_cap _ _ Hrel). cbn.
  pose proof (inv_bound _ Hi) as Hb. unfold full in Hnf. destruct (Z.gtb_spec (m_cap a) 0); [|done].
  destruct (Z.geb_spec (live a) (m_cap a)); [lia|done].
Qed.

Lemma entry_freqs_bound (m : gmap K (CacheEntry V)) :
  map_Forall (λ _ e, entry_ok e) m → (m_freqs m ≤ 3 * size m)%nat.
Proof.
  induction m as [|k e m Hk IH] using map_ind; intros Hm; [done|].
  apply map_Forall_insert in Hm as [[He _] Hm]; [|done].
  rewrite (m_freqs_insert _ k e), map_size_insert_None, delete_id by done.
  specialize (IH Hm). unfold MAX_FREQ in He. lia.
Qed.

(** C14. The loops of an eviction terminate, in every state a history leads
    to: the second-chance sweep of the main queue ends after at most three
    turns per entry and one more, and the loop that makes room for a new entry
    ends within one turn per entry and per key of the small queue, leaving a
    full shard with exactly one free place and any other shard as it was. No
    bound beyond these changes the result. *)
Theorem eviction_terminates map_cap cap (ops : list (shard_op K V)) s :
  history_ok cap ops → run_ops ops (shard_new map_cap cap) ⇓ s →
  (∀ turns, 3 * shard_len s + 1 ≤ Z.of_nat turns →
     evict_from_main_loop turns s ≠ OutOfFuel ∧ evict_from_main_loop turns s = evict_from_main s) ∧
  ∃ s', make_room s ⇓ s' ∧
    (∀ turns, shard_len s + Z.of_nat (length (small_keys s)) + 1 ≤ Z.of_nat turns →
       make_room_loop turns s ⇓ s') ∧
    (shard_full s → shard_live s' = cap - 1) ∧ (¬ shard_full s → s' = s).
Proof.
  intros Hok Hs. destruct (history_shard_ok map_cap cap ops s Hok Hs) as [(a & Hrel & Hi) <-].
  pose proof (repr_size _ _ (rel_map _ _ Hrel)) as Hsz. fold (shard_len s) in Hsz.
  assert (Hends : ∀ n, (m_freqs (m_map a) < n)%nat → evict_from_main_loop n s ≠ OutOfFuel).
  { intros n Hn Hf. pose proof (evict_from_main_loop_sim n _ _ Hrel) as Hsim. rewrite Hf in Hsim.
    destruct (m_evict_main_loop_cases n a (inv_freqs _ Hi) Hn) as [[Hm _]|(k & e & m1 & ks & _ & _ & Hm)];
      rewrite Hm in Hsim; [by inversion Hsim|].
    unfold evict_main_result, usize_sub in Hsim. repeat case_match; by inversion Hsim. }
  assert (Hfr : table_freqs (smap s) = m_freqs (m_map a)) by apply table_freqs_repr, Hrel.
  split.
  - intros n Hn. pose proof (entry_freqs_bound _ (inv_entries _ Hi)).
    split; [apply Hends; lia|]. unfold evict_from_main. rewrite Hfr. apply main_loop_more; [lia|].
    apply Hends. lia.
  - set (n0 := (size (m_map a) + length (small_keys s) + 1)%nat).
    destruct (m_room_loop_returns n0 a Hi) as (a' & Ha' & Hr).
    { unfold loop_measure, n0. rewrite (rel_small_keys _ _ Hrel). lia. }
    destruct (outcome_rel_Ret_r _ _ _ _ (make_room_loop_sim n0 _ _ Hrel) Ha') as (s' & Hs' & Hrel' & _).
    assert (Hall : ∀ n, (n0 ≤ n)%nat → make_room_loop n s ⇓ s')
      by (intros n Hn; by eapply room_loop_more).
    exists s'. rewrite (shard_full_rel _ _ Hrel), (shard_live_rel _ _ Hrel'), (rel_cap _ _ Hrel).
    split_and!.
    + apply Hall. unfold room_fuel, n0, shard_len in *. lia.
    + intros n Hn. apply Hall. unfold n0. lia.
    + apply Hr.
    + intros Hnf. unfold n0 in Hs'. rewrite Nat.add_1_r, (room_loop_idle _ a) in Hs' by done.
      by injection Hs'.
Qed.

(** The operations of [n] insertions of [k], each followed by its removal. *)
Definition churn k v (n : nat) : list (shard_op K V) :=
  mjoin (replicate n [OpInsert k v; OpRemove k]).

Definition churned k cap n : Model K V :=
  mkModel ∅ (replicate n k) [] ∅ 0 0 cap (cap_small cap) cap.

Lemma churn_step k v cap n s :
  is_usize cap → shard_rel s (churned k cap n) →
  ∃ s', run_ops [OpInsert k v; OpRemove k] s ⇓ s' ∧ shard_rel s' (churned k cap (S n)).
Proof.
  intros Hcap Hrel. pose proof usize_mod_ge.
  set (a1 := mkModel {[k := entry_new v LOC_SMALL]} (replicate (S n) k) [] ∅ 1 0 cap (cap_small cap) cap).
  assert (Hm : m_insert k v (churned k cap n) ⇓ (a1, None)).
  { unfold m_insert, m_insert_vacant. cbn [m_map churned]. rewrite lookup_empty.
    rewrite m_make_room_idle by (unfold live; cbn; unfold is_usize in Hcap; lia).
    cbn [m_ghost churned]. rewrite bool_decide_eq_false_2 by apply not_elem_of_empty.
    cbn. rewrite usize_add_small by lia. unfold a1. cbn. rewrite <-replicate_cons_app.
    by replace (∅ ∖ {[hash_one k]} : gset Z) with (∅ : gset Z) by set_solver. }
  destruct (outcome_rel_Ret_r _ _ _ _ (shard_insert_sim _ _ k v Hrel) Hm) as ([s1 r] & Hs1 & Hrel1 & _).
  destruct (shard_remove_sim _ _ k Hrel1) as (s2 & Hs2 & Hrel2).
  exists s2. cbn. rewrite Hs1. cbn. cbn in Hs2. rewrite Hs2. split; [done|].
  cbn in Hrel2. unfold m_remove in Hrel2. cbn in Hrel2. rewrite lookup_singleton_eq in Hrel2.
  cbn in Hrel2. by rewrite delete_singleton_eq in Hrel2.
Qed.

(** C27. Stale queue entries are only dropped by eviction sweeps, and a shard
    that does not fill up is never swept: inserting and removing one key
    [n] times leaves an empty table and a queue of [n] stale keys, in a
    shard of any capacity. *)
Theorem queue_growth map_cap cap k v n :
  is_usize cap →
  ∃ s, run_ops (churn k v n) (shard_new map_cap cap) ⇓ s ∧ contents s = ∅ ∧
    shard_live s = 0 ∧ small_keys s = replicate n k.
Proof.
  intros Hcap. assert (Hstart : shard_rel (shard_new map_cap cap) (churned k cap 0)).
  { pose proof (shard_new_rel (K:=K) (V:=V) map_cap cap) as Hr.
    assert (Hg : (if cap =? 0 then 0 else cap) = cap) by (destruct (Z.eqb_spec cap 0); lia).
    by rewrite Hg in Hr. }
  cut (∃ s, run_ops (churn k v n) (shard_new map_cap cap) ⇓ s ∧ shard_rel s (churned k cap n)).
  { intros (s & Hs & Hrel). exists s. split_and!; [done| | |apply Hrel].
    - rewrite (contents_rel _ _ Hrel). apply fmap_empty.
    - by rewrite (shard_live_rel _ _ Hrel). }
  induction n as [|n (s & Hs & Hrel)]; [by eexists|].
  destruct (churn_step k v cap n s Hcap Hrel) as (s' & Hs' & Hrel').
  exists s'. split; [|done]. unfold churn. rewrite replicate_S_end, join_app, run_ops_app.
  fold (churn k v n). by rewrite Hs.
Qed.

(** ** The eviction policy *)

(** C13. A call of [evict_one] on a full shard returns and does one step of
    S3-FIFO, which [s3_step] determines completely: an over-full small queue
    promotes its oldest stored key to the tail of main if it was accessed, and
    otherwise evicts it into the ghost set; when the small queue is within its
    limit, or has no stored key left, the main queue is swept. In the sweep
    every key with a positive frequency pays one and is queued again, stale keys
    are dropped, and the first key met at frequency zero is evicted; if no key
    is queued twice in main, that is the first of its least frequently used
    keys. *)
Theorem evict_one_step s :
  shard_ok s → shard_full s →
  ∃ s' act, evict_one s ⇓ s' ∧ s3_step (policy s) act (policy s') ∧
    shard_ok s' ∧ shard_drift s' = shard_drift s ∧
    ∀ k, act = EvictedMain k → NoDup (main_keys s) → first_least (entries s) (main_keys s) k.
Proof.
  intros (a & Hrel & Hi) Hf. rewrite (shard_full_rel _ _ Hrel) in Hf. destruct Hf as [Hcap Hfull].
  destruct (full_evict_one a Hi Hcap Hfull) as (a' & Ha' & Hstep).
  destruct (evict_step_effect _ _ Hi Hcap Hfull Hstep) as [Hi' Hd _ _].
  destruct (outcome_rel_Ret_r _ _ _ _ (evict_one_sim _ _ Hrel) Ha') as (s' & Hs' & Hrel' & _).
  destruct (evict_step_s3 _ _ Hstep) as [act Hact]. exists s', act.
  change (main_keys s) with (m_main (policy s)). change (entries s) with (m_map (policy s)).
  rewrite (policy_rel _ _ Hrel), (policy_rel _ _ Hrel'). split_and!; [done|done|by exists a'| |].
  - by rewrite (shard_drift_rel _ _ Hrel), (shard_drift_rel _ _ Hrel').
  - intros k -> Hnd. inversion Hact; subst; by eapply sweep_first_least; [apply (inv_freqs _ Hi)|..].
Qed.

(** C17. What [insert] does to the state of the policy. A present key keeps its
    frequency and its place; only its value changes. A new key leaves the ghost
    set, S3-FIFO steps are taken exactly while the shard is full, and then the
    key is stored with frequency zero at the tail of the main queue if its hash
    was in the ghost set, and of the small queue otherwise. *)
Theorem insert_admission s k v :
  shard_ok s → countable s →
  ∃ s', shard_insert k v s ⇓ (s', value <$> entries s !! k) ∧ shard_ok s' ∧
    match entries s !! k with
    | Some e => policy s' = m_set_map (<[k := with_value v e]> (entries s)) (policy s)
    | None => ∃ p, rtc s3_turn (without_ghost k (policy s)) p ∧ ¬ full p ∧
        policy s' = enqueued (ghost_loc k (policy s)) k v p
    end.
Proof.
  intros (a & Hrel & Hi) Hc%(countable_rel _ _ Hrel). change (entries s) with (m_map (policy s)).
  rewrite (policy_rel _ _ Hrel). pose proof (shard_insert_sim _ _ k v Hrel) as Hsim. unfold m_insert in Hsim.
  destruct (m_map a !! k) as [e|] eqn:Hk.
  - destruct (outcome_rel_Ret_r _ _ _ _ Hsim eq_refl) as ([s' r] & Hs' & Hrel' & Hr'). cbn in Hrel', Hr'. subst r.
    exists s'. split_and!; [done|eexists; split; [done|by apply inv_set_value]|by apply policy_rel].
  - destruct (m_insert_vacant_returns k v a Hi Hk Hc) as (a1 & Hroom & _ & Ha1 & Hi' & _). rewrite Ha1 in Hsim.
    destruct (outcome_rel_Ret_r _ _ _ _ Hsim eq_refl) as ([s' r] & Hs' & Hrel' & Hr'). cbn in Hrel', Hr'. subst r.
    exists s'. split_and!; [done|by eexists|]. exists a1. split_and!; [by apply room_turns| |by apply policy_rel].
    intros [Hcap Hfull]. rewrite (room_cap _ _ Hroom) in Hcap, Hfull. pose proof (room_left _ _ Hroom Hcap). lia.
Qed.
End theorems.

(** ** Evaluated instances *)

Section instances.
Import Concrete.

Definition demo_ops : list op :=
  [OpInsert 1 10; OpGet 1; OpInsert 2 20; OpInsert 3 30; OpSet 3 31; OpRemove 2;
   OpInsert 4 40; OpRetain (λ k v, (v + 1, k <? 4)); OpShrinkToFit; OpInsert 5 50].

Lemma eviction_terminates_witness :
  ∃ s s', run_ops [OpInsert 1 10; OpGet 1; OpInsert 2 20] (shard_new 0 2) ⇓ s ∧
    make_room_loop 5 s ⇓ s' ∧ shard_live s' = 1.
Proof.
  eexists.
  edestruct (eviction_terminates 0 2 [OpInsert 1 10; OpGet 1; OpInsert 2 20]) as (_ & s' & _ & Hs' & Hf & _);
    [split; [split|]; by vm_compute|vm_compute; reflexivity|].
  exists s'. split; [vm_compute; reflexivity|]. split; [apply (Hs' 5%nat); by vm_compute|].
  apply Hf. split; by vm_compute.
Defined.

Lemma history_safe_witness :
  ∃ s, run_ops demo_ops (shard_new 0 2) ⇓ s ∧ shard_wf s ∧ shard_cap s = 2.
Proof. apply (history_safe 0 2 demo_ops). split; [split|]; by vm_compute. Defined.

Lemma no_removal_exact_witness :
  ∃ s, run_ops [OpInsert 1 10; OpGet 1; OpInsert 2 20; OpInsert 3 30] (shard_new 0 2) ⇓ s ∧
    total_live s ⇓ shard_len s ∧ small_live s = 1.
Proof.
  eexists. split; [vm_compute; reflexivity|].
  split; [|vm_compute; reflexivity].
  eapply (no_removal_exact 0 2 [OpInsert 1 10; OpGet 1; OpInsert 2 20; OpInsert 3 30]);
    [split; [split|]; by vm_compute|done|vm_compute; reflexivity].
Defined.

(** Key 1 is removed and inserted again while its first occurrence is still
    queued; it is promoted through the stale occurrence, and its second one
    is swept later as a key of the small queue, so that an eviction is
    counted in the wrong queue. The counter of main is left over. *)
Definition phantom_ops : list op :=
  [OpInsert 1 10; OpRemove 1; OpInsert 1 11; OpGet 1; OpInsert 2 20; OpInsert 3 30;
   OpInsert 4 40; OpRemove 3; OpRemove 4].

(** C26. A shard of capacity two can lose half of its capacity: after these
    nine operations it is empty but [total_live()] returns 1, and from then
    on it never holds more than one entry until it is cleared. *)
Theorem phantom_entry :
  ∃ s, run_ops phantom_ops (shard_new 0 2) ⇓ s ∧ contents s = ∅ ∧ total_live s ⇓ 1 ∧
    ∀ ops s', forallb (negb ∘ is_clear) ops = true → run_ops ops s ⇓ s' → shard_len s' ≤ 1.
Proof.
  assert (∃ s, run_ops phantom_ops (shard_new 0 2) ⇓ s) as [s Hs]
    by (eexists; vm_compute; reflexivity).
  exists s. split; [done|].
  assert (contents s = ∅ ∧ total_live s ⇓ 1 ∧ shard_drift s = 1) as (Hc & Hl & Hd).
  { vm_compute in Hs. injection Hs as <-. by vm_compute. }
  split_and!; [done..|]. intros ops s' Hclear Hs'.
  destruct (history_shard_ok 0 2 phantom_ops s) as [Hok Hcap]; [split; [split|]; by vm_compute|done|].
  destruct (drift_lost s ops Hok) as (s0 & Hs0 & _ & Hlen); [lia|done|].
  rewrite Hs' in Hs0. injection Hs0 as <-. lia.
Qed.

Lemma phantom_capacity_witness :
  ∃ s, run_ops phantom_ops (shard_new 0 2) ⇓ s ∧ 0 ≤ shard_drift s < 2 ∧
    ∃ s', run_ops [OpInsert 8 80; OpInsert 9 90] s ⇓ s' ∧ shard_drift s ≤ shard_drift s' ∧
      shard_len s' + shard_drift s ≤ 2.
Proof.
  eexists. split; [vm_compute; reflexivity|].
  eapply (phantom_capacity 0 2 phantom_ops [OpInsert 8 80; OpInsert 9 90]);
    [by vm_compute|done|vm_compute; reflexivity].
Defined.

Lemma queue_growth_witness :
  ∃ s : shard, run_ops (churn 1 10 3) (shard_new 0 100) ⇓ s ∧ contents s = ∅ ∧
    shard_live s = 0 ∧ small_keys s = [1; 1; 1].
Proof. apply (queue_growth 0 100 1 10 3). by vm_compute. Defined.

(** Key 1 was accessed in the small queue and promoted, key 2 was evicted into
    the ghost set. When 2 comes back, both are in main, and 1 is spared for 2. *)
Definition promoted_ops : list op := [OpInsert 1 10; OpGet 1; OpInsert 2 20; OpInsert 3 30].
Definition second_chance_ops : list op := promoted_ops ++ [OpInsert 2 21].

Lemma evict_one_step_witness :
  ∃ s s' act, run_ops second_chance_ops (shard_new 0 2) ⇓ s ∧ evict_one s ⇓ s' ∧
    s3_step (policy s) act (policy s') ∧ main_keys s = [1; 2] ∧ freq <$> entries s !! 1 = Some 1 ∧
    main_keys s' = [1] ∧ freq <$> entries s' !! 1 = Some 0 ∧ entries s' !! 2 = None.
Proof.
  assert (∃ s, run_ops second_chance_ops (shard_new 0 2) ⇓ s) as [s Hs] by (eexists; vm_compute; reflexivity).
  destruct (evict_one_step s) as (s' & act & Hs' & Hstep & _).
  - apply (history_shard_ok 0 2 _ s) in Hs as [Hok _]; [done|]. split; [split|]; by vm_compute.
  - vm_compute in Hs. injection Hs as <-. by vm_compute.
  - exists s, s', act. split; [done|]. split; [done|]. split; [done|]. clear Hstep.
    vm_compute in Hs. injection Hs as <-. vm_compute in Hs'. injection Hs' as <-. by vm_compute.
Defined.

Lemma insert_admission_witness :
  ∃ s s' p, run_ops promoted_ops (shard_new 0 2) ⇓ s ∧
    shard_insert 2 21 s ⇓ (s', None) ∧ rtc s3_turn (without_ghost 2 (policy s)) p ∧
    policy s' = enqueued LOC_MAIN 2 21 p.
Proof.
  assert (∃ s, run_ops promoted_ops (shard_new 0 2) ⇓ s) as [s Hs] by (eexists; vm_compute; reflexivity).
  destruct (history_shard_ok 0 2 promoted_ops s) as [Hok Hcap]; [split; [split|]; by vm_compute|done|].
  destruct (insert_admission s 2 21 Hok) as (s' & Hs' & _ & Hcase).
  - intros Hz. congruence.
  - assert (entries s !! 2 = None ∧ ghost_loc 2 (policy s) = LOC_MAIN) as [He Hg].
    { clear Hs' Hcase. vm_compute in Hs. injection Hs as <-. split; vm_compute; reflexivity. }
    rewrite He in Hs', Hcase. destruct Hcase as (p & Hp & _ & Hpol). rewrite Hg in Hpol.
    exists s, s', p. split; [exact Hs|]. split; [exact Hs'|]. split; [exact Hp|exact Hpol].
Defined.
End instances.
