(* ===== verification/CacheTheorems.v ===== *)
(** * CacheTheorems: what the cache guarantees

    The statements about [NeoCache] a caller can rely on: construction,
    routing, the effect of the operations on the map of all pairs, capacity,
    and locking, with evaluated instances. *)

From stdpp Require Import base gmap list.
From S2P Require Import Prelude Machine Lock RawTable Util Shard ShardOps ShardModel ShardSim.
From S2P Require Import Evict Safety Exact ShardSpec TryResult Cache CacheSpec CacheEffects Concrete.

Open Scope Z_scope.

Section theorems.
Context {K V : Type} `{Countable K} `{!BuildHasher K} `{!Target}.
Context `{!RawTable (K * CacheEntry V)} `{!RawTableSpec (K * CacheEntry V)}.
Implicit Types (c : NeoCache K V) (k : K) (v : V).

(** C38. The core constructor panics exactly when the number of shards is not
    a power of two above one; otherwise it returns an empty unlocked cache
    whose invariant holds: the shift matches the number of shards, and every
    shard has the rounded-up share of the capacity. *)
Theorem construct cap n :
  is_usize cap → is_usize n →
  if (1 <? n) && is_power_of_two n then
    ∃ c, with_capacity_and_hasher_and_shard_amount cap n ⇓ c ∧ cache_ok c ∧ quiescent c ∧
      cache_contents c = ∅ ∧ cache_capacity c = cap ∧
      (cap = 0 ∨ 4 ≤ cap / n → _shard_count c = n)
  else with_capacity_and_hasher_and_shard_amount cap n = (Panic : outcome (NeoCache K V)).
Proof.
  intros Hcap Hn. unfold is_usize in Hn. destruct (Z.ltb_spec 1 n) as [H1|H1]; cbn.
  - destruct (is_power_of_two n) eqn:Hp.
    + destruct (constructor_ok (K:=K) (V:=V) cap n Hcap) as (c & p & ? & ? & ? & ? & ? & _ & _ & Hcnt);
        [lia|done|]. exists c. split_and!; try done. rewrite Hcnt. unfold final_amount.
      intros [-> | Hge]; [done|]. destruct (Z.ltb_spec (cap / n) 4); [lia|]. by rewrite andb_false_r.
    + unfold with_capacity_and_hasher_and_shard_amount. destruct (Z.gtb_spec n 1); [|lia].
      by rewrite Hp.
  - unfold with_capacity_and_hasher_and_shard_amount. by destruct (Z.gtb_spec n 1); [lia|].
Qed.

(** Every hash selects an existing shard, so the unchecked accesses to
    the shard array are in bounds, and the seven highest bits of the hash,
    which the tables use as tags, do not influence the choice. *)
Lemma routing c h1 h2 :
  cache_ok c →
  ∃ i, determine_shard c h1 ⇓ i ∧ 0 ≤ i < _shard_count c ∧
    (h1 mod 2 ^ (usize_bits - 7) = h2 mod 2 ^ (usize_bits - 7) → determine_shard c h2 ⇓ i).
Proof.
  intros Hc. destruct (co_geometry _ Hc) as (n & Hn & Hs & Hcnt). pose proof usize_bits_bounds.
  exists ((h1 * 2 ^ 7) mod usize_mod / 2 ^ shift c). unfold determine_shard.
  rewrite !usize_shl_small by lia. cbn [mbind outcome_bind]. rewrite !usize_shr_small by lia.
  split; [done|]. split.
  - pose proof (mod_is_usize (h1 * 2 ^ 7)) as [Hlo Hhi]. rewrite Hcnt, Hs.
    assert (0 < 2 ^ (usize_bits - n)) by (apply Z.pow_pos_nonneg; lia).
    split; [apply Z.div_pos; lia|]. apply Z.div_lt_upper_bound; [lia|].
    rewrite <-Z.pow_add_r by lia. by replace (usize_bits - n + n) with usize_bits by lia.
  - intros Hmod. do 2 f_equal. unfold usize_mod.
    replace usize_bits with ((usize_bits - 7) + 7) by lia. rewrite Z.pow_add_r by lia.
    assert (0 < 2 ^ (usize_bits - 7)) by (apply Z.pow_pos_nonneg; lia).
    rewrite !Z.mul_mod_distr_r by lia. by rewrite Hmod.
Qed.

(** C12. Inserting into an unlocked shard returns the previous value and
    stores the new one; other keys keep their value or are evicted, nothing
    is evicted unless the key is new and its shard is full, and then exactly
    one entry is. Only the shard of the key is touched. *)
Theorem insert_effect_on_cache c k v :
  cache_ok c → unlocked c k → countable_at c k →
  ∃ c', _insert k v c ⇓ (c', cache_contents c !! k) ∧ cache_ok c' ∧ unlocked c' k ∧
    same_except (route c k) c c' ∧
    insert_effect k v (full_at c k) (cache_contents c) (cache_contents c').
Proof. apply cache_insert_ok. Qed.

(** An inserted value is found: looking the key up right after the
    insertion returns a guard that reads the inserted pair. *)
Lemma insert_get c k v :
  cache_ok c → unlocked c k → countable_at c k →
  ∃ c1 r c2 g, _insert k v c ⇓ (c1, r) ∧ _get k c1 ⇓ (c2, Some g) ∧ ref_pair g c2 ⇓ (k, v) ∧
    cache_contents c2 = cache_contents c1.
Proof.
  intros Hc Hu Hcount.
  destruct (cache_insert_ok c k v Hc Hu Hcount) as (c1 & Hins & Hc1 & (l & Hl & Hw) & _ & Heff).
  destruct (cache_get_ok c1 k l _ Hc1 Hl (unlocked_readable _ _ _ Hl Hw)) as (c2 & r & Hget & Hcase).
  rewrite (ins_here _ _ _ _ _ Heff) in Hcase. destruct Hcase as ([_ _ Hcont _] & g & -> & _ & Hg).
  by exists c1, (cache_contents c !! k), c2, g.
Qed.

(** [alter] replaces the value of a present key by the result of the
    closure and releases the lock; a closure that panics aborts the process
    (the value may be half-moved). An absent key is left alone. *)
Lemma alter_effect c k f :
  cache_ok c → unlocked c k →
  match cache_contents c !! k with
  | Some v =>
      match f k v with
      | Ret v' => ∃ c', _alter k f c ⇓ c' ∧ cache_ok c' ∧ unlocked c' k ∧ same_except (route c k) c c' ∧
          cache_contents c' = <[k := v']> (cache_contents c)
      | Panic => _alter k f c = Abort
      | _ => True
      end
  | None => ∃ c', _alter k f c ⇓ c' ∧ looked_up k 0 c c'
  end.
Proof. apply alter_ok. Qed.

(** Locking: while any guard holds the shard of a key, the writing
    operations on that key block and the non-blocking writer reports
    [Locked] without changing anything; the non-blocking reader reports
    [Locked] when a writer holds it. *)
Lemma locked_shard c k v l :
  cache_ok c → home c k l → lock_word l ≠ 0 →
  _insert k v c = Blocked ∧ _remove k c = Blocked ∧ _get_mut k c = Blocked ∧
  _try_get_mut k c ⇓ (c, Locked) ∧
  (lock_word l = ONE_WRITER → _get k c = Blocked ∧ _try_get k c ⇓ (c, Locked)).
Proof.
  intros Hc Hl Hw. destruct (home_index _ _ _ Hc Hl) as (i & Hr & Hi & Hs & Hinv).
  pose proof (li_lock _ _ _ Hinv) as Hlock. destruct (Hlock) as (o & Ho & Hwo).
  unfold _insert, _remove, _get_mut, _get, _try_get, _try_get_mut, _try_yield_write_shard,
    _try_yield_read_shard. rewrite Hs. cbn [mbind outcome_bind].
  rewrite !(with_write_blocked _ _ _ _ Hi Hlock Hw), (yield_write _ _ _ Hi), (yield_read _ _ _ Hi).
  rewrite (bounds_assert _ _ _ Hi), (get_shard _ _ _ Hi). cbn [mbind outcome_bind].
  assert (Hne : o ≠ Free) by (intros ->; by rewrite Hwo in Hw).
  rewrite Hwo, lock_exclusive_encode, try_lock_exclusive_encode by done.
  split_and!; [done|done|by destruct o|by destruct o|].
  intros HW. assert (o = Writer) as ->.
  { destruct o as [|n|]; [done| |done]. rewrite ONE_WRITER_max in HW. unfold encode in HW.
    cbn [readers_field owner_ok] in HW, Ho. lia. }
  by rewrite lock_shared_encode, try_lock_shared_encode.
Qed.

(** C39. [try_get] never blocks: it reports [Locked] and changes nothing when
    the shard cannot be read, and otherwise finds what [get] finds, with the
    same effect. *)
Theorem try_get_agrees c k :
  cache_ok c →
  (∃ c' r, _get k c ⇓ (c', r) ∧
    _try_get k c ⇓ (c', match r with Some g => Present g | None => Absent end)) ∨
  (_get k c = Blocked ∨ _get k c = Panic) ∧ _try_get k c ⇓ (c, Locked).
Proof.
  intros Hc. destruct (home_exists c k (co_geometry _ Hc)) as (l & Hl).
  destruct (home_index _ _ _ Hc Hl) as (i & Hr & Hi & Hs & Hinv).
  destruct (li_lock _ _ _ Hinv) as (o & Ho & Hwo).
  unfold _try_get, _get, _try_yield_read_shard. rewrite Hs. cbn [mbind outcome_bind].
  rewrite (yield_read _ _ _ Hi), (bounds_assert _ _ _ Hi), (get_shard _ _ _ Hi).
  cbn [mbind outcome_bind]. rewrite Hwo, lock_shared_encode, try_lock_shared_encode by done.
  destruct (add_reader o) as [o'|] eqn:Hadd; cbn [fmap option_fmap option_map].
  2:{ right. split; [|done]. destruct o; cbn [mbind outcome_bind]; auto. }
  left.
  replace (match o with Writer => _ | _ => _ end) with (Ret (encode o' false false) : outcome Z)
    by (by destruct o).
  cbn [mbind outcome_bind].
  destruct (shard_get_ok k (lock_data l) (li_shard _ _ _ Hinv)) as (s & r & Hget & _ & _ & _ & _).
  rewrite (guarded_set _ _ _ _ Hi). cbn [mbind outcome_bind lock_data]. rewrite Hget.
  cbn [mbind outcome_bind]. rewrite (set_guarded_set _ _ _ _ _ Hi). cbn [mbind outcome_bind].
  destruct r as [b|]; [by eauto|]. unfold drop_read. rewrite (get_set_shard _ _ _ _ Hi).
  cbn [mbind outcome_bind]. by eauto.
Qed.

(** C20. [retain] calls its closure on every pair of the cache exactly once,
    in some order and threading its state, and keeps the pairs the closure
    accepts with the values it leaves. *)
Theorem retain_effect {St} (f : St → K → V → St * (V * bool)) st c :
  cache_ok c → quiescent c →
  ∃ kvs c', kvs ≡ₚ map_to_list (cache_contents c) ∧
    _retain f st c ⇓ (c', (retain_pairs f st kvs).1) ∧ cache_ok c' ∧ quiescent c' ∧ same_params c c' ∧
    cache_contents c' = list_to_map (retain_pairs f st kvs).2.
Proof. apply retain_ok. Qed.

(** [clear] empties the cache and its bookkeeping: no pairs, no queued
    keys, no ghosts, zero counters in every shard. *)
Lemma clear_effect c :
  cache_ok c → quiescent c →
  ∃ c', clear c ⇓ c' ∧ cache_ok c' ∧ quiescent c' ∧ same_params c c' ∧ cache_contents c' = ∅ ∧
    ∀ i l, shards c' !! i = Some l →
      let s := lock_data l in
      shard_live s = 0 ∧ small_keys s = [] ∧ main_keys s = [] ∧ ghost_set s = ∅.
Proof. apply clear_ok. Qed.

(** [len] is the number of pairs, and a cache of capacity [n > 0] with
    [m] shards never holds more than the shares of its shards together, which
    is at most [n + m - 1] (no bound below [n] would do, since the shares
    add up to at least [n]). *)
Lemma len_and_capacity c :
  cache_ok c → quiescent c → Z.of_nat (size (cache_contents c)) < usize_mod →
  _len c ⇓ (c, Z.of_nat (size (cache_contents c))) ∧
  (0 < cache_capacity c →
   Z.of_nat (size (cache_contents c)) ≤ _shard_count c * shard_limit c ∧
   cache_capacity c ≤ _shard_count c * shard_limit c ≤ cache_capacity c + _shard_count c - 1).
Proof.
  intros Hc Hq Hsz. split; [by apply cache_len_ok, Hsz; [|apply quiescent_readable]|].
  intros Hcap. split; [by apply cache_size_bound|by apply shard_limit_sum].
Qed.

(** Guards do not dangle: a read guard keeps reading its pair whatever
    insertions go to other shards, which proceed, while insertions into its
    own shard block. *)
Lemma guard_protects c k v g k' v' l :
  cache_ok c → home c k l → lock_word l ≠ 0 → points_to (ref_shard g) (ref_bucket g) c k v →
  (route c k' = route c k → _insert k' v' c = Blocked) ∧
  (route c k' ≠ route c k → unlocked c k' → countable_at c k' →
   ∃ c' r, _insert k' v' c ⇓ (c', r) ∧ ref_pair g c' ⇓ (k, v) ∧ home c' k l).
Proof.
  intros Hc Hl Hw [Hz Hg]. split.
  - intros Hr. destruct (home_index _ _ _ Hc Hl) as (i & Hri & Hi & Hs & Hinv).
    unfold _insert. rewrite (proj1 (shard_of_route c k' (co_geometry _ Hc))), Hr, Hri.
    cbn. apply (with_write_blocked _ _ _ l); [done|apply Hinv|done].
  - intros Hr Hu Hcount.
    destruct (cache_insert_ok c k' v' Hc Hu Hcount) as (c' & Hins & _ & _ & [Hsh _ _ Hsame] & _).
    assert (Hroute : route c' k = route c k) by by apply same_route.
    assert (Hhome : shards c' !! Z.to_nat (route c k) = shards c !! Z.to_nat (route c k)).
    { apply Hsame. pose proof (proj2 (shard_of_route c k (co_geometry _ Hc))). lia. }
    exists c', (cache_contents c !! k'). split_and!; [done| |].
    + unfold ref_pair, guarded, get_unchecked in *. rewrite Hz in *. by rewrite Hhome.
    + unfold home. by rewrite Hroute, Hhome.
Qed.

End theorems.

(** ** Evaluated instances *)

Section instances.
Import Concrete.

Lemma construct_witness :
  ∃ c : NeoCache Z Z, with_capacity_and_hasher_and_shard_amount 8 2 ⇓ c ∧ cache_ok c ∧ quiescent c ∧
    cache_contents c = ∅ ∧ cache_capacity c = 8 ∧ (8 = 0 ∨ 4 ≤ 8 / 2 → _shard_count c = 2).
Proof. apply (construct 8 2); by split. Defined.

Lemma insert_effect_on_cache_witness :
  ∃ (c c' : NeoCache Z Z), cache_ok c ∧ _insert 1 11 c ⇓ (c', Some 10) ∧ cache_ok c'.
Proof.
  destruct demo_one as (c & Hc & Hq & Hk & Hcap).
  destruct (insert_effect_on_cache c 1 11 Hc) as (c' & Hins & Hc' & _).
  - by apply quiescent_unlocked.
  - apply bounded_countable; [done|lia].
  - rewrite Hk in Hins. by exists c, c'.
Defined.

Lemma try_get_agrees_witness :
  ∃ c : NeoCache Z Z, cache_ok c ∧
    ((∃ c' r, _get 1 c ⇓ (c', r) ∧
       _try_get 1 c ⇓ (c', match r with Some g => Present g | None => Absent end)) ∨
     (_get 1 c = Blocked ∨ _get 1 c = Panic) ∧ _try_get 1 c ⇓ (c, Locked)).
Proof.
  destruct demo_one as (c & Hc & _). exists c. split; [done|]. apply (try_get_agrees c 1 Hc).
Defined.

Lemma retain_effect_witness :
  ∃ (c c' : NeoCache Z Z) kvs, kvs ≡ₚ map_to_list (cache_contents c) ∧
    _retain (λ n k v, (n + 1, (v, 5 <? v))) 0 c ⇓
      (c', (retain_pairs (λ n k v, (n + 1, (v, 5 <? v))) 0 kvs).1).
Proof.
  destruct demo_one as (c & Hc & Hq & _).
  destruct (retain_effect (λ n k v, (n + 1, (v, 5 <? v))) 0 c Hc Hq) as (kvs & c' & Hp & Hrun & _).
  by exists c, c', kvs.
Defined.

(** Small caches: the constructor means to keep at least four entries
    per shard, but rounding the number of shards up to a power of two can
    leave fewer. A cache of capacity 20 gets 8 shards of three entries. *)
Lemma small_shards :
  ∃ c : NeoCache Z Z, with_shard_amount 20 64 ⇓ c ∧ _shard_count c = 8 ∧
    ∀ i l, shards c !! i = Some l → shard_cap (lock_data l) = 3.
Proof.
  eexists. split; [vm_compute; reflexivity|]. split; [done|].
  intros i l Hl. do 8 (destruct i as [|i]; [by injection Hl as <-|]). done.
Qed.
End instances.
