(* ===== verification/EntryTheorems.v ===== *)
(** * EntryTheorems: the entry API on the contents of the cache

    What the methods of [Entry] do to the map of all pairs, and that inserting
    through an entry is inserting into the cache. *)

From stdpp Require Import base gmap list.
From S2P Require Import Prelude Machine Lock RawTable Util Shard ShardOps ShardModel ShardSim.
From S2P Require Import Evict Safety Exact ShardSpec TryResult Cache Entry CacheSpec EntrySpec Concrete.

Open Scope Z_scope.

Section theorems.
Context {K V : Type} `{Countable K} `{!BuildHasher K} `{!Target}.
Context `{!RawTable (K * CacheEntry V)} `{!RawTableSpec (K * CacheEntry V)}.
Implicit Types (c : NeoCache K V) (s : ShardData K V) (k : K) (v : V).

(** C22. Inserting through an entry is inserting. [insert], [VacantEntry::insert]
    and [VacantEntry::insert_entry] are three copies of the same code;
    [entry(k).insert(v)] and [entry(k).insert_entry(v)] followed by the drop of
    what they return leave the cache in the very state [insert(k, v)] leaves it
    in, whether the key is present or not, queues and ghost set included. *)
Theorem entry_insert_is_insert c k v :
  cache_ok c → unlocked c k → countable_at c k →
  ∃ c' r, _insert k v c ⇓ (c', r) ∧
    ('(c, e) ← _entry k c; '(c, g) ← entry_insert v e c; drop_refmut g c) ⇓ c' ∧
    ('(c, e) ← _entry k c; '(c, o) ← insert_entry v e c; drop_write (oe_shard o) c) ⇓ c'.
Proof.
  intros Hc (l & Hl & Hw) Hcount. destruct (home_index _ _ _ Hc Hl) as (i & Hr & Hi & Hs & Hinv).
  destruct (shard_insert_ok k v (lock_data l) (li_shard _ _ _ Hinv) (Hcount _ Hl)) as (s' & Hs' & _).
  exists (set_shard (route c k) (mkLock 0 s') c), (contents (lock_data l) !! k). split.
  { unfold _insert. rewrite Hs, Hr. cbn. by apply (with_write_ok _ _ _ l). }
  unfold shard_insert in Hs'. unfold _entry, entry_search. rewrite Hs. cbn [mbind outcome_bind].
  rewrite (yield_write _ _ _ Hi), Hw, lock_exclusive_free, <-Hr. cbn [mbind outcome_bind].
  rewrite (guarded_held _ _ _ Hc Hl). cbn [mbind outcome_bind lock_data]. unfold hash_u64.
  destruct (rt_find_or_find_insert_slot (smap (lock_data l)) (hash_one k) (key_eq k) key_hash)
    as [t r] eqn:Hf. cbn [smap set_map] in Hs'.
  rewrite (set_guarded_held _ _ _ Hc Hl). cbn [mbind outcome_bind lock_word].
  destruct r as [b|slot]; cbn [mbind outcome_bind entry_insert insert_entry].
  - unfold occupied_insert, occupied_get, occupied_set, occupied_pair, bucket_pair, bucket_set, shared_get_mut.
    cbn [oe_shard oe_bucket]. rewrite (guarded_held _ _ _ Hc Hl).
    cbn [mbind outcome_bind lock_data smap set_map].
    apply bind_Ret in Hs' as ([k0 e] & Href & Hs'). rewrite Href. cbn [mbind outcome_bind].
    apply bind_Ret in Hs' as (t2 & Hwr & [= <- _]). rewrite Hwr. cbn [mbind outcome_bind].
    rewrite (set_guarded_held _ _ _ Hc Hl). cbn [mbind outcome_bind lock_word].
    split; by apply (drop_write_held _ _ _ Hc Hl).
  - unfold vacant_insert, vacant_insert_entry. cbn [ve_shard ve_key ve_hash ve_slot].
    rewrite (guarded_held _ _ _ Hc Hl). cbn [mbind outcome_bind lock_data].
    apply bind_Ret in Hs' as ([s2 b] & Hins & [= <- _]).
    destruct (fill_copies k (hash_one k) slot v (set_map t (lock_data l))) as [-> ->].
    rewrite Hins. cbn [mbind outcome_bind].
    rewrite (set_guarded_held _ _ _ Hc Hl). cbn [mbind outcome_bind lock_word].
    split; by apply (drop_write_held _ _ _ Hc Hl).
Qed.

(** [entry(k).or_insert(v)] returns a guard to the stored pair of a
    present key, changing nothing, and otherwise inserts [(k, v)] and returns
    a guard to it. *)
Lemma entry_or_insert c k v :
  cache_ok c → unlocked c k → countable_at c k →
  ∃ c1 e c2 g, _entry k c ⇓ (c1, e) ∧ or_insert v e c1 ⇓ (c2, g) ∧
    cache_ok c2 ∧ refmut_pair g c2 ⇓ (k, default v (cache_contents c !! k)) ∧
    match cache_contents c !! k with
    | Some _ => cache_contents c2 = cache_contents c
    | None => insert_effect k v (full_at c k) (cache_contents c) (cache_contents c2)
    end.
Proof.
  intros Hc Hu Hcount. destruct (entry_held c k Hc Hu) as (c1 & e & He & Hlu & Hcase). exists c1, e.
  destruct e as [o|w].
  - destruct Hcase as (v0 & -> & Hp). exists c1, (into_ref o). destruct Hlu, Hp. by split_and!.
  - destruct Hcase as (-> & _ & Hins). destruct (Hins Hcount v) as (c2 & g & l2 & Hrun & Hc2 & _ & _ & _ & [_ Hp] & Heff).
    by exists c2, g.
Qed.

(** Removing through an occupied entry returns the stored pair, deletes
    the key and releases the lock. *)
Lemma entry_remove c k v :
  cache_ok c → unlocked c k → cache_contents c !! k = Some v →
  ∃ c1 o c2, _entry k c ⇓ (c1, Occupied o) ∧ remove_entry o c1 ⇓ (c2, (k, v)) ∧
    cache_ok c2 ∧ unlocked c2 k ∧ cache_contents c2 = delete k (cache_contents c).
Proof.
  intros Hc (l & Hl & Hw). rewrite (cache_contents_lookup c k l Hc Hl). intros Hk.
  destruct (entry_ok c k l Hc Hl Hw) as (t & e & He & Hst & Hcont & Hcase).
  destruct e as [o|w]; [|destruct Hcase as (i & _ & Hn & _); congruence].
  destruct Hcase as (b & v0 & -> & Hk0 & Hb). assert (v0 = v) as -> by congruence.
  set (s := set_map t (lock_data l)) in *.
  destruct (remove_bucket_ok b k v s (step_ok _ _ Hst) Hb) as (s' & Hs' & Hst' & Hcont').
  exists (set_shard (route c k) (mkLock ONE_WRITER s) c), (mkOccupied (route c k) b k),
    (set_shard (route c k) (mkLock 0 s') c). split; [done|]. split.
  - unfold remove_entry. cbn [oe_shard oe_bucket]. rewrite (guarded_held _ _ _ Hc Hl).
    cbn [mbind outcome_bind lock_data]. rewrite Hs'. cbn [mbind outcome_bind].
    rewrite (set_guarded_held _ _ _ Hc Hl). cbn [mbind outcome_bind lock_word].
    by rewrite (drop_write_held _ _ _ Hc Hl).
  - apply (consumed_ok c k l s' (delete k)); [done|done|by eapply shard_step_trans_cap| | | |].
    + by rewrite Hcont', Hcont.
    + apply no_new_keys_delete.
    + intros m m' k' Hm. destruct (decide (k = k')) as [<-|]; by simplify_map_eq.
    + intros m k' Hne. by rewrite lookup_delete_ne.
Qed.

(** [replace_entry] returns the stored pair and stores the new value in
    its place: location and frequency of the entry are kept, so replacing a
    value neither demotes nor promotes it. *)
Lemma entry_replace c k v w :
  cache_ok c → unlocked c k → cache_contents c !! k = Some w →
  ∃ c1 o c2 f lc l2, _entry k c ⇓ (c1, Occupied o) ∧
    replace_entry o v c1 ⇓ (c2, (k, w)) ∧ cache_ok c2 ∧ unlocked c2 k ∧
    cache_contents c2 = <[k := v]> (cache_contents c) ∧
    (∃ l1, home c1 k l1 ∧ (k, mkEntry w f lc) ∈ rt_into_iter (smap (lock_data l1))) ∧
    home c2 k l2 ∧ (k, mkEntry v f lc) ∈ rt_into_iter (smap (lock_data l2)).
Proof.
  intros Hc (l & Hl & Hw). rewrite (cache_contents_lookup c k l Hc Hl). intros Hk.
  destruct (entry_ok c k l Hc Hl Hw) as (t & e & He & Hst & Hcont & Hcase).
  destruct e as [o|vac]; [|destruct Hcase as (i & _ & Hn & _); congruence].
  destruct Hcase as (b & v0 & -> & Hk0 & Hb). assert (v0 = w) as -> by congruence.
  set (s := set_map t (lock_data l)) in *.
  destruct (bucket_replace_ok b k v w s (step_ok _ _ Hst) Hb)
    as (e & t' & Href & Hew & Hwr & Hst' & Hcont' & Hin & Hin').
  set (s' := set_map t' s) in *.
  exists (set_shard (route c k) (mkLock ONE_WRITER s) c), (mkOccupied (route c k) b k),
    (set_shard (route c k) (mkLock 0 s') c), (freq e), (loc e), (mkLock 0 s'). split; [done|].
  assert (Hst2 : shard_step (lock_data l) s') by by eapply shard_step_trans_cap.
  destruct (consumed_ok c k l s' (insert k v) Hc Hl Hst2) as (Hc2 & Hu2 & Hcc2).
  { by rewrite Hcont', Hcont. }
  { apply no_new_keys_insert. }
  { intros m m' k' Hm. destruct (decide (k = k')) as [<-|]; by simplify_map_eq. }
  { intros m k' Hne. by rewrite lookup_insert_ne. }
  split; [|split_and!; [done..| |by destruct (home_update c k l s' 0 Hc Hl Hst2) as (_ & _ & ? & _);
    [rewrite Hcont', Hcont; apply no_new_keys_insert|apply lock_ok_zero|]|done]].
  - unfold replace_entry. cbn [oe_shard oe_bucket oe_key]. rewrite (guarded_held _ _ _ Hc Hl).
    cbn [mbind outcome_bind lock_data]. rewrite Href. cbn [mbind outcome_bind deref]. rewrite Hwr.
    cbn [mbind outcome_bind deref]. rewrite (set_guarded_held _ _ _ Hc Hl).
    cbn [mbind outcome_bind lock_word]. rewrite (drop_write_held _ _ _ Hc Hl). by rewrite <-Hew.
  - exists (mkLock ONE_WRITER s). split.
    + by destruct (home_update c k l s ONE_WRITER Hc Hl Hst) as (_ & _ & ? & _);
        [rewrite Hcont; apply no_new_keys_refl|apply ONE_WRITER_ok|].
    + rewrite <-Hew. by destruct e.
Qed.

(** An error of the closure of [or_try_insert_with] is returned, leaves
    the pairs as they were and releases the lock; for a present key the
    closure is not run. *)
Lemma entry_or_try_insert_err {E} c k (err : E) :
  cache_ok c → unlocked c k →
  ∃ c1 e c2 r, _entry k c ⇓ (c1, e) ∧ or_try_insert_with (Ret (inr err)) e c1 ⇓ (c2, r) ∧
    cache_ok c2 ∧ cache_contents c2 = cache_contents c ∧
    match cache_contents c !! k with
    | Some v => ∃ g, r = inl g ∧ refmut_pair g c2 ⇓ (k, v)
    | None => r = inr err ∧ unlocked c2 k
    end.
Proof.
  intros Hc Hu. destruct (entry_held c k Hc Hu) as (c1 & e & He & Hlu & Hcase). exists c1, e.
  destruct e as [o|w].
  - destruct Hcase as (v0 & -> & Hp). exists c1, (inl (into_ref o)). destruct Hlu, Hp. split_and!; [done..|].
    by exists (into_ref o).
  - destruct Hcase as (-> & Hw & _). destruct (lu_word _ _ _ _ Hlu) as (l1 & Hl1 & Hword).
    destruct (held_drop_ok c1 k l1 (lu_ok _ _ _ _ Hlu) Hl1 Hword) as (c2 & Hdrop & [Hc2 _ Hcont Hu2]).
    cbn [or_try_insert_with mbind outcome_bind]. rewrite Hw, <-(same_route c c1 k).
    2:{ by destruct (lu_same _ _ _ _ Hlu). }
    rewrite Hdrop. exists c2, (inr err). split_and!; [done..| |done|done]. by rewrite Hcont, (lu_contents _ _ _ _ Hlu).
Qed.
End theorems.

(** ** Evaluated instances *)

Section instances.
Import Concrete.

Lemma entry_insert_is_insert_witness :
  ∃ (c c' : NeoCache Z Z) r, _insert 2 20 c ⇓ (c', r) ∧
    ('(c, e) ← _entry 2 c; '(c, g) ← entry_insert 20 e c; drop_refmut g c) ⇓ c' ∧
    ('(c, e) ← _entry 2 c; '(c, o) ← insert_entry 20 e c; drop_write (oe_shard o) c) ⇓ c'.
Proof.
  destruct demo_one as (c & Hc & Hq & Hk & Hcap).
  destruct (entry_insert_is_insert c 2 20 Hc) as (c' & r & ? & ? & ?).
  - by apply quiescent_unlocked.
  - apply bounded_countable; [done|lia].
  - by exists c, c', r.
Defined.

End instances.
