(* ===== verification/GuardTheorems.v ===== *)
(** * GuardTheorems: guards are safe

    No sequence of calls by callers that keep guards violates a contract of
    the unsafe code, panics or corrupts the cache, and projections of guards
    read and write the part of the value they point to. *)

From stdpp Require Import base gmap list.
From S2P Require Import Prelude Machine Lock RawTable Util Shard ShardOps ShardModel ShardSim.
From S2P Require Import Evict Safety Exact ShardSpec ShardHistory TryResult Cache Guards Entry GuardMachine.
From S2P Require Import CacheSpec EntrySpec GuardInv GuardSteps Concrete.

Open Scope Z_scope.

Section theorems.
Context {K V : Type} `{Countable K} `{!BuildHasher K} `{!Target}.
Context `{!RawTable (K * CacheEntry V)} `{!RawTableSpec (K * CacheEntry V)}.
Implicit Types (c : NeoCache K V) (k : K) (v : V) (n m id : nat).
Implicit Types (σ : state K V) (g : guard K).

(** ** Histories with guards *)

(** Every guard points to a stored pair; a vacant entry to an absent key. *)
Definition guards_valid σ : Prop :=
  ∀ id g, s_live σ !! id = Some g →
    match g with
    | GEntry (Vacant w) => cache_contents (s_cache σ) !! ve_key w = None
    | _ => ∃ k v, guard_pair g (s_cache σ) ⇓ Some (k, v) ∧ cache_contents (s_cache σ) !! k = Some v
    end.

(** A shard is locked exactly while it has a live guard. *)
Definition locks_match σ : Prop :=
  ∀ i l, shards (s_cache σ) !! i = Some l →
    (lock_word l = 0 ↔ ∀ id g, s_live σ !! id = Some g → guard_shard g ≠ Z.of_nat i).

(** [n] actions fit: readers are counted in a lock word, and the entries of an
    unbounded cache in a [usize]. *)
Definition room_for_actions n c : Prop :=
  Z.of_nat n < max_readers ∧
  (unbounded c → Z.of_nat (size (cache_contents c)) + Z.of_nat n < usize_mod).

Lemma ginv_start n c :
  cache_ok c → quiescent c → room_for_actions n c → ginv n (mkState c ∅).
Proof.
  intros Hc Hq [Hfew Hroom]. constructor; cbn [s_cache s_live]; try done.
  - intros i l Hl Hz. pose proof (co_shards _ Hc _ _ Hl) as Hinv.
    assert (Hu : unbounded c).
    { rewrite (li_cap _ _ _ Hinv) in Hz. unfold shard_limit, unbounded in *.
      destruct (Z.eqb_spec (cache_capacity c) 0); [done|lia]. }
    pose proof (unbounded_live c i l Hc Hu Hl). specialize (Hroom Hu). lia.
  - intros i l Hl. replace (on_shard (Z.of_nat i) ∅) with (∅ : gmap nat (guard K))
      by (symmetry; apply map_filter_empty).
    apply sg_shared; [done|]. by rewrite (Hq _ _ Hl).
Qed.

Lemma reach_ginv n m σ0 σ : ginv (m + n) σ0 → reach σ0 m σ → ginv n σ.
Proof.
  intros Hst Hr. revert n Hst. induction Hr as [|m a σ σ' Hr IH Hex]; intros n Hst; [done|].
  destruct (exec_ok n a σ (IH (S n) ltac:(by rewrite Nat.add_succ_r))) as [? ? ? Hb|σ2 Hgo Hinv _];
    congruence.
Qed.

Lemma ginv_guards n σ : ginv n σ → guards_valid σ ∧ locks_match σ.
Proof.
  intros Hinv. destruct Hinv as [Hc Hroom Hfew Hsh Hb]. split.
  - intros id g Hg. pose proof (Hb id g Hg) as Hbd. unfold _shard_count in Hbd.
    destruct (lookup_lt_is_Some_2 (shards (s_cache σ)) (Z.to_nat (guard_shard g))) as [l Hl]; [lia|].
    pose proof (co_shards _ Hc _ _ Hl) as Hli. specialize (Hsh _ _ Hl). rewrite Z2Nat.id in Hsh by lia.
    assert (Hon : on_shard (guard_shard g) (s_live σ) !! id = Some g) by by apply on_shard_lookup.
    assert (Hat : guard_at (s_cache σ) (lock_data l) g).
    { destruct Hsh as [Hat _|id0 g0 Hgs _ Hat _]; [by apply (Hat id)|].
      rewrite Hgs in Hon. by apply lookup_singleton_Some in Hon as [_ ->]. }
    assert (Hgd : guarded (guard_shard g) (s_cache σ) ⇓ lock_data l).
    { unfold guarded, get_unchecked. by rewrite Hl. }
    assert (Hpair : ∀ k, (∃ v, contents (lock_data l) !! k = Some v) →
      home (s_cache σ) k l).
    { intros k [v Hv]. unfold home. rewrite (li_route _ _ _ Hli k) by by eexists.
      by rewrite Nat2Z.id. }
    assert (Hbk : ∀ b k v, bucket_pair b (lock_data l) ⇓ (k, v) →
      cache_contents (s_cache σ) !! k = Some v).
    { intros b k v Hbp. pose proof (bucket_contents b k v _ (li_shard _ _ _ Hli) Hbp) as Hv.
      rewrite (cache_contents_lookup _ k l); [done..|]. apply Hpair. by eexists. }
    destruct g as [r|r|[o|w]]; cbn in Hat, Hgd |- *.
    1,2: destruct Hat as [[k v] Hkv]; exists k, v; (split; [|by eapply Hbk]);
      unfold ref_pair, refmut_pair; rewrite Hgd; cbn; by rewrite Hkv.
    + destruct Hat as [v Hkv]. exists (oe_key o), v. split; [|by eapply Hbk].
      unfold occupied_pair. rewrite Hgd. cbn. by rewrite Hkv.
    + destruct Hat as (_ & Hr & Hn & _). rewrite (cache_contents_lookup _ _ l); [done..|].
      unfold home. rewrite Hr. done.
  - intros i l Hl. pose proof (size_on_shard (Z.of_nat i) (s_live σ)).
    destruct (shard_guards_word (s_cache σ) l (on_shard (Z.of_nat i) (s_live σ))) as [_ ->]; [lia|by apply Hsh|].
    split.
    + intros He id g Hg Hz. assert (Hon : on_shard (Z.of_nat i) (s_live σ) !! id = Some g)
        by by apply on_shard_lookup. by rewrite He in Hon.
    + intros Hnone. apply map_empty. intros id. apply eq_None_not_Some.
      intros [g [Hg Hz]%on_shard_lookup]. by apply (Hnone id g).
Qed.

(** C11. Guards are safe. From an unlocked cache, whatever calls have been
    made and whatever guards ([Ref], [RefMut], [Entry]) are kept, each further
    call either waits, which it does only for a live guard of the shard it
    needs, or returns: no call dereferences a dangling pointer, uses a stale
    slot, panics or diverges. Afterwards the invariant of the cache holds, a
    shard is locked exactly while it has a guard, every guard points to a
    stored pair, and reads what it read before unless it was written through. *)
Theorem guards_safe n m c σ a :
  cache_ok c → quiescent c → room_for_actions n c → reach (mkState c ∅) m σ → (m < n)%nat →
  (exec a σ = Blocked ∧
   ∃ id g, s_live σ !! id = Some g ∧ needs (s_cache σ) a = Some (guard_shard g)) ∨
  (∃ σ', exec a σ ⇓ σ' ∧ cache_ok (s_cache σ') ∧ locks_match σ' ∧ guards_valid σ' ∧
     stable (written a) σ σ').
Proof.
  intros Hc Hq Hroom Hr Hm.
  assert (Hinv : ginv (S (n - S m)) σ).
  { eapply (reach_ginv _ m); [|exact Hr]. replace (m + S (n - S m))%nat with n by lia. by apply ginv_start. }
  destruct (exec_ok _ a σ Hinv) as [z id g Hb Hz Hg Hs|σ' Hgo Hinv' Hst].
  - left. split; [done|]. exists id, g. by rewrite Hz, Hs.
  - right. exists σ'. destruct (ginv_guards _ _ Hinv') as [Hv Hl]. split_and!; [done|apply Hinv'|done..].
Qed.

(** ** Projections *)

(** An exclusive guard on the pair [(k, v)]. *)
Definition exclusive c (z : Z) (b : bucket) k v : Prop :=
  cache_ok c ∧ points_to z b c k v ∧ ∃ l, home c k l ∧ lock_word l = ONE_WRITER.

(** A write through an exclusive guard keeps it. *)
Lemma exclusive_set c z b k v v' :
  exclusive c z b k v →
  ∃ c', (s ← guarded z c; s ← bucket_set b v' s; set_guarded z s c) ⇓ c' ∧ exclusive c' z b k v' ∧
    cache_contents c' = <[k := v']> (cache_contents c).
Proof.
  intros (Hc & Hp & l & Hl & Hw).
  destruct (held_set_ok c z b k v v' l Hc Hl Hp) as (c' & l' & Hset & Hc' & _ & Hp' & Hl' & Hw' & Hcont).
  exists c'. split_and!; [done| |done]. split_and!; [done..|]. exists l'. by rewrite Hw'.
Qed.

Lemma exclusive_drop c z b k v :
  exclusive c z b k v →
  ∃ c', drop_write z c ⇓ c' ∧ cache_ok c' ∧ unlocked c' k ∧ cache_contents c' = cache_contents c.
Proof.
  intros (Hc & [-> _] & l & Hl & Hw).
  destruct (held_drop_ok c k l Hc Hl Hw) as (c' & Hdrop & [Hc' _ Hcont Hl']). by exists c'.
Qed.

(** Reading and writing through a mapped guard. *)
Lemma mapped_mut_pair_ok {T} c z b k v (p : place V T) t :
  exclusive c z b k v → pl_get p v = Some t → mapped_mut_pair (mkMappedRefMut z b p) c ⇓ (k, t).
Proof.
  intros (_ & [_ Hp] & _) Ht. unfold mapped_mut_pair. cbn [mmut_shard mmut_bucket mmut_place].
  apply bind_Ret in Hp as (s & -> & Hs). cbn. rewrite Hs. cbn. by rewrite Ht.
Qed.

Lemma mapped_mut_set_ok {T} c z b k v (p : place V T) t t' :
  exclusive c z b k v → pl_get p v = Some t →
  ∃ c', mapped_mut_set (mkMappedRefMut z b p) t' c ⇓ c' ∧ exclusive c' z b k (pl_set p t' v) ∧
    cache_contents c' = <[k := pl_set p t' v]> (cache_contents c).
Proof.
  intros Hex Ht. destruct (exclusive_set c z b k v (pl_set p t' v) Hex) as (c' & Hset & ?).
  exists c'. split; [|done]. destruct Hex as (_ & [_ Hp] & _). unfold mapped_mut_set.
  cbn [mmut_shard mmut_bucket mmut_place].
  apply bind_Ret in Hp as (s & Hgd & Hs). rewrite Hgd in Hset |- *. cbn [mbind outcome_bind] in Hset |- *.
  rewrite Hs. cbn [mbind outcome_bind]. rewrite Ht. done.
Qed.

(** C23. Projecting a write guard keeps the lock and writes the part: after
    [map] (whose closure may change the value first) and a further [map], a
    write through the mapped guard replaces exactly the part the two
    projections point to, is read back, and dropping the guard releases the
    lock. *)
Theorem mapped_write {T U} c r k v (f : V → outcome (V * place V T)) (h : T → outcome (T * place T U))
    v1 p t t1 q u0 u :
  exclusive c (refmut_shard r) (refmut_bucket r) k v →
  Place p → Place q →
  f v ⇓ (v1, p) → pl_get p v1 = Some t → h t ⇓ (t1, q) → pl_get q t1 = Some u0 →
  ∃ c1 w1 c2 w2 c3 c4,
    refmut_map f r c ⇓ (c1, w1) ∧ mapped_mut_pair w1 c1 ⇓ (k, t) ∧
    mapped_mut_map h w1 c1 ⇓ (c2, w2) ∧ mapped_mut_pair w2 c2 ⇓ (k, u0) ∧
    mapped_mut_set w2 u c2 ⇓ c3 ∧ mapped_mut_pair w2 c3 ⇓ (k, u) ∧
    drop_mapped_mut w2 c3 ⇓ c4 ∧ cache_ok c4 ∧ unlocked c4 k ∧
    cache_contents c4 = <[k := pl_set p (pl_set q u t1) v1]> (cache_contents c).
Proof.
  intros Hex Hp Hq Hf Ht Hh Hu0. destruct r as [z b]. cbn [refmut_shard refmut_bucket] in *.
  destruct (exclusive_set c z b k v v1 Hex) as (c1 & Hs1 & Hex1 & Hc1).
  destruct (mapped_mut_set_ok c1 z b k v1 p t t1 Hex1 Ht) as (c2 & Hs2 & Hex2 & Hc2).
  assert (Hpt : pl_get p (pl_set p t1 v1) = Some t1) by by apply place_get_set.
  assert (Hpq : pl_get (place_comp p q) (pl_set p t1 v1) = Some u0) by (cbn; by rewrite Hpt).
  destruct (mapped_mut_set_ok c2 z b k _ (place_comp p q) u0 u Hex2 Hpq) as (c3 & Hs3 & Hex3 & Hc3).
  destruct (exclusive_drop c3 z b k _ Hex3) as (c4 & Hd & Hc4 & Hun & Hcont).
  pose proof (mapped_mut_pair_ok c1 z b k v1 p t Hex1 Ht) as Hr1.
  exists c1, (mkMappedRefMut z b p), c2, (mkMappedRefMut z b (place_comp p q)), c3, c4. split_and!; try done.
  - unfold refmut_map, refmut_value, refmut_pair, refmut_set. cbn [refmut_shard refmut_bucket].
    destruct Hex as (_ & [_ ->] & _). cbn [mbind outcome_bind]. rewrite Hf. cbn [mbind outcome_bind].
    by rewrite Hs1.
  - unfold mapped_mut_map, mapped_mut_value. rewrite Hr1. cbn [mbind outcome_bind]. rewrite Hh.
    cbn [mbind outcome_bind]. by rewrite Hs2.
  - by eapply mapped_mut_pair_ok.
  - eapply mapped_mut_pair_ok; [done|]. by apply place_get_set.
  - rewrite Hcont, Hc3, Hc2, Hc1. cbn. rewrite Hpt, place_set_set by done. by rewrite !insert_insert_eq.
Qed.

(** [try_map]: when the projection finds no part, the guard itself comes
    back with the lock still held, and what the closure did to the value is
    kept; otherwise [try_map] is [map]. Shared guards: projecting a [Ref] reads
    the part, keeps the lock, and dropping the projection releases it as
    dropping the [Ref] would. *)
Lemma try_map_result {T} c (cs : NeoCache K V) (r : RefMut) (g : Ref) k v ks vs (f : V → outcome (V * option (place V T)))
    (fs : V → outcome (option (place V T))) v1 o os :
  exclusive c (refmut_shard r) (refmut_bucket r) k v →
  points_to (ref_shard g) (ref_bucket g) cs ks vs →
  f v ⇓ (v1, o) → fs vs ⇓ os →
  (∃ c1, match o with
     | None => refmut_try_map f r c ⇓ (c1, inr r)
     | Some p => ∃ w, refmut_try_map f r c ⇓ (c1, inl w) ∧
         refmut_map (λ _, Ret (v1, p)) r c ⇓ (c1, w)
     end ∧ exclusive c1 (refmut_shard r) (refmut_bucket r) k v1 ∧
     cache_contents c1 = <[k := v1]> (cache_contents c)) ∧
  match os with
  | None => ref_try_map fs g cs ⇓ inr g
  | Some p => ∃ mg, ref_try_map fs g cs ⇓ inl mg ∧ ref_map (λ _, Ret p) g cs ⇓ mg ∧
      drop_mapped mg cs = drop_ref g cs ∧
      ∀ t, pl_get p vs = Some t → mapped_pair mg cs ⇓ (ks, t)
  end.
Proof.
  intros Hex [Hz Hg] Hf Hfs. split.
  - destruct (exclusive_set c _ _ k v v1 Hex) as (c1 & Hs1 & Hex1 & Hc1). exists c1.
    destruct Hex as (_ & [_ Hv] & _).
    split; [|done]. unfold refmut_try_map, refmut_map, refmut_value, refmut_pair, refmut_set.
    rewrite Hv. cbn [mbind outcome_bind]. rewrite Hf. cbn [mbind outcome_bind]. rewrite Hs1.
    cbn [mbind outcome_bind]. destruct o as [p|]; [|done]. by eexists.
  - unfold ref_try_map, ref_map, ref_value, ref_pair. rewrite Hg. cbn [mbind outcome_bind]. rewrite Hfs.
    cbn [mbind outcome_bind]. destruct os as [p|]; [|done]. eexists. split_and!; [done..|].
    intros t Ht. unfold mapped_pair. cbn [mref_shard mref_bucket mref_place].
    apply bind_Ret in Hg as (s & -> & Hs). cbn. rewrite Hs. cbn. by rewrite Ht.
Qed.
End theorems.

(** ** Evaluated instances *)

Section instances.
Import Concrete.

Lemma guards_safe_witness :
  ∃ σ : state Z Z, reach (mkState demo_cache ∅) 1 σ ∧ exec (AInsert 1 11) σ = Blocked ∧
    ∃ id g, s_live σ !! id = Some g ∧ needs (s_cache σ) (AInsert 1 11) = Some (guard_shard g).
Proof.
  destruct demo_cache_ok as (Hc & Hq & Hm).
  destruct (exec (AGet 1) (mkState demo_cache ∅)) as [σ| | | | |] eqn:Hex; [|by vm_compute in Hex..].
  assert (Hr : reach (mkState demo_cache ∅) 1 σ) by (eapply reach_step; [apply reach_here|exact Hex]).
  assert (Hb : exec (AInsert 1 11) σ = Blocked) by (vm_compute in Hex; injection Hex as <-; by vm_compute).
  exists σ. split; [exact Hr|].
  destruct (guards_safe 10 1 demo_cache σ (AInsert 1 11) Hc Hq) as [Hw|(σ' & Hgo & _)]; [|exact Hr|lia|exact Hw|].
  - split; [by vm_compute|]. intros _. rewrite Hm. by vm_compute.
  - rewrite Hb in Hgo. discriminate.
Defined.

(** A write guard on a value with parts. *)
Lemma demo_parts :
  ∃ (c : NeoCache Z (Z * list Z)) r, exclusive c (refmut_shard r) (refmut_bucket r) 1 (5, [7; 8]).
Proof.
  destruct (constructor_ok (K:=Z) (V:=Z * list Z) 8 2) as (c & _ & _ & Hc & Hq & _ & Hcap & _);
    [by split|by vm_compute|done|].
  destruct (cache_insert_ok c 1 (5, [7; 8]) Hc (quiescent_unlocked c 1 Hc Hq))
    as (c1 & _ & Hc1 & (l & Hl & Hw) & _ & Heff); [apply bounded_countable; [done|lia]|].
  destruct (cache_get_mut_ok c1 1 l Hc1 Hl Hw) as (c2 & o & _ & Hcase).
  rewrite (ins_here _ _ _ _ _ Heff) in Hcase. destruct Hcase as ([Hc2 _ _ Hword] & r & _ & Hp).
  by exists c2, r.
Qed.

(** [map(|v| { v.0 = 6; &mut v.1 })], then [map(|t| &mut t[1])], then [= 9]. *)
Lemma mapped_write_witness :
  ∃ (c c4 : NeoCache Z (Z * list Z)), cache_contents c4 = <[1 := (6, [7; 9])]> (cache_contents c).
Proof.
  destruct demo_parts as (c & r & Hex).
  destruct (mapped_write c r 1 (5, [7; 8]) (λ v, Ret ((6, v.2), place_snd)) (λ t, Ret (t, place_index 1))
    (6, [7; 8]) place_snd [7; 8] [7; 8] (place_index 1) 8 9 Hex _ _ eq_refl eq_refl eq_refl eq_refl)
    as (c1 & w1 & c2 & w2 & c3 & c4 & _ & _ & _ & _ & _ & _ & _ & _ & _ & Hcont).
  exists c, c4. exact Hcont.
Defined.

(** [try_map(|v| v.1.get_mut(2))] on a vector of two elements. *)
End instances.
