(* ===== verification/IterTheorems.v ===== *)
(** * IterTheorems: what iteration shows and changes

    The pairs [Iter], [IterMut] and [OwningIter] (src/src/iter.rs) visit, the
    effect of [alter_all], the lock a reference of an iterator keeps, and
    collecting a cache into another one. *)

From stdpp Require Import base gmap list.
From S2P Require Import Prelude Machine Lock RawTable Util Shard ShardOps ShardModel ShardSim.
From S2P Require Import Evict Safety Exact ShardSpec ShardHistory TryResult Cache Iter ReadOnly CacheSpec IterSpec Concrete.

Open Scope Z_scope.

Section shared.
Context {K V : Type} `{Countable K} `{!BuildHasher K} `{!Target}.
Context `{!RawTable (K * CacheEntry V)} `{!RawTableSpec (K * CacheEntry V)}.
Implicit Types (c : NeoCache K V) (s : ShardData K V) (l : RwLock K V) (k : K) (v : V).

(** ** Reading *)


(** ** [alter_all] *)

(** [alter_all] applies the closure to every pair once, in some order
    (threading the state of the closure), under the write lock of each shard,
    and does to the cache exactly what [retain] with a closure that keeps
    every pair would do; all locks are released. *)
Lemma alter_all_effect {St} (h : St → K → V → St * V) st c :
  cache_ok c → quiescent c →
  ∃ kvs c', kvs ≡ₚ map_to_list (cache_contents c) ∧
    let '(st', kvs') := alter_pairs h st kvs in
    _alter_all (λ st k v, Ret (h st k v)) st c ⇓ (c', st') ∧
    _retain (keep_all h) st c ⇓ (c', st') ∧
    cache_ok c' ∧ quiescent c' ∧ cache_contents c' = list_to_map kvs'.
Proof.
  intros Hc Hq. destruct (alter_all_ok h st c Hc Hq) as (kvs & c' & ? & ? & ? & ? & ? & _ & ?).
  exists kvs, c'. split; [done|]. by destruct (alter_pairs h st kvs).
Qed.

(** ** [OwningIter] *)

(** A shard whose table was taken. *)
Definition drained l : RwLock K V := mkLock 0 (set_map (rt_with_capacity 0) (lock_data l)).

Definition table_pairs l : list (K * V) := prod_map id value <$> rt_into_iter (smap (lock_data l)).

Definition exhausted (cur : option (list (K * CacheEntry V))) : Prop := cur = None ∨ cur = Some [].

Lemma owning_turn c i l cur :
  exhausted cur → shards c !! i = Some l → lock_word l = 0 → _shard_count c < usize_mod →
  owning_next (mkOwning c (Z.of_nat i) cur) =
  owning_next (mkOwning (set_shard (Z.of_nat i) (drained l) c) (Z.of_nat (S i))
                 (Some (rt_into_iter (smap (lock_data l))))).
Proof.
  intros Hcur Hl Hw Hcnt. pose proof (lookup_lt_Some _ _ _ Hl) as Hlt. unfold owning_next.
  cbn [own_map own_shard_i]. rewrite set_shard_count.
  replace (Z.to_nat (_shard_count c - Z.of_nat i)) with (S (Z.to_nat (_shard_count c - Z.of_nat (S i))))
    by (unfold _shard_count; lia).
  set (n := Z.to_nat _). remember (S n) as fuel eqn:Hf.
  assert (Hstep : owning_loop (S fuel) (mkOwning c (Z.of_nat i) cur) =
    ('(c, t) ← with_write (Z.of_nat i) take_table c;
     i ← usize_add (Z.of_nat i) 1;
     owning_loop fuel (mkOwning c i (Some (rt_into_iter t))))).
  { cbn [owning_loop own_current own_shard_i own_map].
    assert ((Z.of_nat i =? _shard_count c) = false) as -> by (unfold _shard_count; lia).
    by destruct Hcur as [-> | ->]. }
  rewrite Hstep, (with_write_ok take_table _ _ _ _ _ Hl Hw eq_refl). cbn [mbind outcome_bind].
  rewrite usize_add_small by (unfold _shard_count in Hcnt; lia). cbn [mbind outcome_bind].
  by replace (Z.of_nat i + 1) with (Z.of_nat (S i)) by lia.
Qed.

Lemma owning_rest c z rest fuel acc :
  owning_collect (length rest + fuel) (mkOwning c z (Some rest)) acc =
  owning_collect fuel (mkOwning c z (Some [])) (acc ++ (prod_map id value <$> rest)).
Proof.
  revert acc. induction rest as [|[k e] rest IH]; intros acc; cbn [length Nat.add].
  { cbn. by rewrite app_nil_r. }
  cbn [owning_collect]. unfold owning_next at 1. cbn [owning_loop own_current own_map own_shard_i].
  cbn [mbind outcome_bind]. rewrite IH. cbn. by rewrite <-app_assoc.
Qed.

Lemma owning_shards ls pre c cur fuel acc :
  shards c = pre ++ ls → quiescent c → _shard_count c < usize_mod → exhausted cur →
  ∃ cur', owning_collect (sum_list (length ∘ rt_into_iter ∘ smap ∘ lock_data <$> ls) + S fuel)
            (mkOwning c (Z.of_nat (length pre)) cur) acc ⇓
    (mkOwning (mkCache (shift c) (pre ++ (drained <$> ls)) (cache_capacity c)) (_shard_count c) cur',
     acc ++ concat (table_pairs <$> ls)).
Proof.
  revert pre c cur acc. induction ls as [|l ls IH]; intros pre c cur acc Hsh Hq Hcnt Hcur.
  - exists cur. rewrite app_nil_r in Hsh. cbn [fmap list_fmap concat sum_list Nat.add owning_collect].
    rewrite !app_nil_r. unfold owning_next. cbn [owning_loop own_current own_shard_i own_map].
    assert (Z.of_nat (length pre) = _shard_count c) as -> by (unfold _shard_count; by rewrite Hsh).
    rewrite Z.eqb_refl. destruct Hcur as [-> | ->]; cbn; rewrite <-Hsh; by destruct c.
  - assert (Hl : shards c !! length pre = Some l) by (by rewrite Hsh, list_lookup_middle).
    set (c' := set_shard (Z.of_nat (length pre)) (drained l) c).
    assert (Hsh' : shards c' = (pre ++ [drained l]) ++ ls).
    { subst c'. cbn. rewrite Nat2Z.id, Hsh, insert_app_r_alt by done. by rewrite Nat.sub_diag, <-app_assoc. }
    destruct (IH (pre ++ [drained l]) c' (Some []) (acc ++ table_pairs l)) as [cur' Hrun];
      [done|by apply set_shard_quiescent|by unfold c'; rewrite set_shard_count|by right|].
    exists cur'. rewrite length_app, Nat.add_1_r in Hrun.
    replace (sum_list (length ∘ rt_into_iter ∘ smap ∘ lock_data <$> l :: ls) + S fuel)%nat
      with (length (rt_into_iter (smap (lock_data l))) +
            (sum_list (length ∘ rt_into_iter ∘ smap ∘ lock_data <$> ls) + S fuel))%nat by (cbn; lia).
    assert (Hturn : ∀ n, owning_collect (n + S fuel) (mkOwning c (Z.of_nat (length pre)) cur) acc =
      owning_collect (n + S fuel) (mkOwning c' (Z.of_nat (S (length pre)))
        (Some (rt_into_iter (smap (lock_data l))))) acc).
    { intros n. rewrite Nat.add_succ_r. cbn [owning_collect].
      by rewrite (owning_turn c _ l cur Hcur Hl (Hq _ _ Hl) Hcnt). }
    rewrite Nat.add_assoc, Hturn, <-Nat.add_assoc, owning_rest. fold (table_pairs l). rewrite Hrun.
    cbn [fmap list_fmap concat]. rewrite <-!app_assoc. subst c'. by rewrite set_shard_count.
Qed.

Lemma table_pairs_contents l : shard_ok (lock_data l) → table_pairs l ≡ₚ map_to_list (contents (lock_data l)).
Proof.
  intros (a & Hrel & _). rewrite (contents_rel _ _ Hrel). unfold m_contents, table_pairs.
  rewrite map_to_list_fmap. by rewrite (repr_into_iter _ _ (rel_map _ _ Hrel)).
Qed.

Lemma into_iter_ok c :
  cache_ok c → quiescent c →
  ∃ it kvs, into_iter_pairs c ⇓ (it, kvs) ∧ kvs ≡ₚ map_to_list (cache_contents c) ∧
    shards (own_map it) = drained <$> shards c.
Proof.
  intros Hc Hq.
  destruct (owning_shards (shards c) [] c None 0 []) as [cur' Hrun];
    [done|done|by apply shard_count_usize, Hc|by left|].
  unfold into_iter_pairs, owning_new. rewrite <-Nat.add_1_r. do 2 eexists. split; [exact Hrun|].
  split; [|done]. cbn. rewrite (cache_contents_list _ Hc).
  assert (Hok : Forall (shard_ok ∘ lock_data) (shards c)).
  { apply Forall_lookup. intros i l Hl. by apply (co_shards _ Hc _ _ Hl). }
  clear Hrun. induction Hok as [|l ls Hl _ IH]; [done|]. cbn [fmap list_fmap concat].
  apply Permutation_app; [by apply table_pairs_contents|exact IH].
Qed.

(** ** Collecting *)

Lemma from_iter_ok parallelism pairs :
  1 ≤ parallelism → 32 * parallelism ≤ usize_mod → Z.of_nat (length pairs) < usize_mod →
  ∃ c, from_iter parallelism pairs ⇓ c ∧ cache_ok c ∧ quiescent c ∧ unbounded c ∧
    cache_contents c = foldl (λ m kv, <[kv.1 := kv.2]> m) ∅ pairs.
Proof.
  intros Hp Hmod Hlen. destruct (default_ok parallelism 0 Hp Hmod) as (c & Hnew & Hc & Hq & He & Hcap).
  { pose proof usize_mod_pos. split; lia. }
  destruct (extend_ok pairs c Hc Hq Hcap) as (c' & Hext & ? & ? & ? & Hcont); [rewrite He, map_size_empty; lia|].
  exists c'. unfold from_iter. change (cache_default parallelism) with (new parallelism 0).
  rewrite Hnew. cbn. by rewrite Hext, Hcont, He.
Qed.

(** Collecting pairs into a cache keeps all of them, the last value of a
    repeated key winning. *)
Lemma from_iter_contents parallelism pairs :
  1 ≤ parallelism → 32 * parallelism ≤ usize_mod → Z.of_nat (length pairs) < usize_mod →
  ∃ c, from_iter parallelism pairs ⇓ c ∧ cache_ok c ∧ quiescent c ∧
    cache_contents c = list_to_map (reverse pairs).
Proof.
  intros Hp Hmod Hlen. destruct (from_iter_ok parallelism pairs Hp Hmod Hlen) as (c & ? & ? & ? & _ & Hcont).
  exists c. split_and!; [done..|]. by rewrite Hcont, foldl_insert_last.
Qed.

(** C35. The round trip through [into_iter] and [collect]: consuming a cache
    yields every pair once, and collecting them gives a cache with the same
    contents (unbounded, whatever the capacity of the original). *)
Theorem into_iter_round_trip parallelism c :
  cache_ok c → quiescent c → 1 ≤ parallelism → 32 * parallelism ≤ usize_mod →
  Z.of_nat (size (cache_contents c)) < usize_mod →
  ∃ it kvs c', into_iter_pairs c ⇓ (it, kvs) ∧ kvs ≡ₚ map_to_list (cache_contents c) ∧
    from_iter parallelism kvs ⇓ c' ∧ cache_ok c' ∧ quiescent c' ∧
    cache_contents c' = cache_contents c ∧ cache_capacity c' = 0.
Proof.
  intros Hc Hq Hp Hmod Hsz. destruct (into_iter_ok c Hc Hq) as (it & kvs & Hrun & Hkvs & _).
  destruct (from_iter_ok parallelism kvs Hp Hmod) as (c' & Hfrom & Hc' & Hq' & Hu' & Hcont).
  { rewrite Hkvs, length_map_to_list. done. }
  exists it, kvs, c'. split_and!; try done.
  assert (Hnd : NoDup kvs.*1) by (rewrite Hkvs; apply NoDup_fst_map_to_list).
  rewrite Hcont, foldl_insert_list by done. rewrite (right_id_L ∅ (∪)).
  rewrite <-(list_to_map_to_list (cache_contents c)). by apply list_to_map_proper.
Qed.

End shared.

(** ** Evaluated instances *)

Section instances.
Import Concrete.


Lemma into_iter_round_trip_witness :
  ∃ it kvs c', into_iter_pairs demo_cache ⇓ (it, kvs) ∧ from_iter 1 kvs ⇓ c' ∧
    cache_contents c' = cache_contents demo_cache.
Proof.
  destruct demo_cache_ok as (Hc & Hq & Hm).
  destruct (into_iter_round_trip 1 demo_cache Hc Hq) as (it & kvs & c' & H1 & _ & H2 & _ & _ & H3 & _);
    [done|by vm_compute|by rewrite Hm; vm_compute|].
  exists it, kvs, c'. split; [exact H1|]. split; [exact H2|exact H3].
Defined.

(** The table of a full shard can be taken only because the cache is never
    used again: the live counters still count the entries that are gone, so
    the eviction loop of a later insertion would never end. *)
Definition full_shard : Concrete.shard :=
  match shard_insert 1 10 (shard_new 0 1) with Ret (s, _) => s | _ => shard_new 0 1 end.

Definition drained_shard : Concrete.shard := set_map (rt_with_capacity 0) full_shard.

Lemma drained_shard_spins fuel : make_room_loop fuel drained_shard = OutOfFuel.
Proof.
  set (s0 := set_small [] [] drained_shard).
  assert (Hspin : ∀ n, make_room_loop n s0 = OutOfFuel).
  { assert (Hone : evict_one s0 ⇓ s0) by (by vm_compute).
    assert (Hfull : total_live s0 ⇓ 1) by (by vm_compute).
    induction n as [|n IH]; [done|]. cbn [make_room_loop].
    assert ((shard_cap s0 >? 0) = true) as -> by (by vm_compute).
    rewrite Hfull. cbn [mbind outcome_bind].
    assert ((1 >=? shard_cap s0) = true) as -> by (by vm_compute). rewrite Hone. exact IH. }
  destruct fuel as [|n]; [done|]. cbn [make_room_loop].
  assert ((shard_cap drained_shard >? 0) = true) as -> by (by vm_compute).
  assert (total_live drained_shard ⇓ 1) as -> by (by vm_compute). cbn [mbind outcome_bind].
  assert ((1 >=? shard_cap drained_shard) = true) as -> by (by vm_compute).
  assert (evict_one drained_shard ⇓ s0) as -> by (by vm_compute). apply Hspin.
Qed.
End instances.
