(* ===== verification/FmtTheorems.v ===== *)
(** * FmtTheorems: what formatting writes

    [Debug] of a cache, a read-only view and the guards (src/src/lib.rs,
    read_only.rs, mapref/one.rs) against the reference strings of StdFmt, with
    the errors of the writer. *)

From stdpp Require Import base gmap list strings pretty.
From S2P Require Import Prelude Machine Lock RawTable Util Shard ShardOps ShardModel ShardSim.
From S2P Require Import Evict Safety Exact ShardSpec ShardHistory TryResult Cache Guards Iter ReadOnly StdFmt Fmt CacheSpec IterSpec Concrete.

Open Scope Z_scope.

Section theorems.
Context {K V : Type} `{Countable K} `{!BuildHasher K} `{!Target}.
Context `{!RawTable (K * CacheEntry V)} `{!RawTableSpec (K * CacheEntry V)}.
Context `{!Debug K, !DebugChunks K, !Debug V, !DebugChunks V}.
Implicit Types (c : NeoCache K V) (k : K) (v : V).


Lemma guard_fmt_writes {W A} `{!Write W, !Debug A, !DebugChunks A} alternate name key value k (a : A) (w : W) :
  key ⇓ k → value ⇓ a →
  guard_fmt alternate name key value w ⇓
    write_all (struct_chunks alternate name "k" "v" (debug_chunks alternate k) (debug_chunks alternate a)) w.
Proof. intros -> ->. cbn. by rewrite struct_writes. Qed.


(** Formatting a guard writes its type, its key and the value it points to, or
    the projected part of it, up to the first error of the writer; [Display] of
    a mapped guard is that of the part. *)
Lemma guard_debug {T W} `{!Debug T, !DebugChunks T, !Display T, !DisplayChunks T, !Write W}
    alternate (r : Ref) (g : RefMut) (m : MappedRef V T) (n : MappedRefMut V T) c k v (t : T) (w : W) :
  let text (name : string) (value : list string) :=
    write_all (struct_chunks alternate name "k" "v" (debug_chunks alternate k) value) w in
  (ref_pair r c ⇓ (k, v) → ref_fmt alternate r c w ⇓ text "Ref"%string (debug_chunks alternate v)) ∧
  (refmut_pair g c ⇓ (k, v) → refmut_fmt alternate g c w ⇓ text "RefMut"%string (debug_chunks alternate v)) ∧
  (mapped_pair m c ⇓ (k, t) → mapped_fmt alternate m c w ⇓ text "MappedRef"%string (debug_chunks alternate t) ∧
     mapped_display m c w ⇓ write_all (display_chunks t) w) ∧
  (mapped_mut_pair n c ⇓ (k, t) →
     mapped_mut_fmt alternate n c w ⇓ text "MappedRefMut"%string (debug_chunks alternate t)).
Proof.
  intros text. subst text. split_and!; [intros Hg..|].
  - apply guard_fmt_writes; unfold ref_key, ref_value; by rewrite Hg.
  - apply guard_fmt_writes; unfold refmut_key, refmut_value; by rewrite Hg.
  - split; [apply guard_fmt_writes; unfold mapped_key, mapped_value; by rewrite Hg|].
    unfold mapped_display, mapped_value. rewrite Hg. cbn. by rewrite display_fmt_chunks.
  - intros Hg. apply guard_fmt_writes; unfold mapped_mut_key, mapped_mut_value; by rewrite Hg.
Qed.
End theorems.

(** ** Evaluated instances *)

Section instances.
Import Concrete.

(** Numbers are written in decimal. *)
#[local] Instance decimal_debug : Debug Z := λ W _ _ z, write_str (pretty z).
#[local] Instance decimal_chunks : DebugChunks Z :=
  {| debug_chunks := λ _ z, [pretty z]; debug_fmt_chunks W _ _ z := write_str_all (pretty z) |}.

(** A buffer with room for [room] strings. *)
Record buffer := mkBuffer { room : nat; written : string }.
#[local] Instance buffer_write : Write buffer := λ s w,
  match room w with
  | O => (w, FmtError)
  | S n => (mkBuffer n (written w +:+ s), FmtOk)
  end.

End instances.
