(* ===== verification/BridgeTheorems.v ===== *)
(** * BridgeTheorems: iterating in parallel

    What [into_par_iter] (src/src/rayon_impl.rs) gives, for every order in
    which workers take items from the iterator and drop their references. *)

From stdpp Require Import base functions gmap list.
From S2P Require Import Prelude Machine Lock RawTable Util Shard ShardOps ShardModel ShardSim.
From S2P Require Import Evict Safety Exact ShardSpec TryResult Cache Guards Entry Iter MapTrait Bridge.
From S2P Require Import CacheSpec IterSpec BridgeSpec Concrete.

Open Scope Z_scope.

Section bridge.
Context {K V : Type} `{Countable K} `{!BuildHasher K} `{!Target}.
Context `{!RawTable (K * CacheEntry V)} `{!RawTableSpec (K * CacheEntry V)}.
Implicit Types (c : NeoCache K V) (σ : bridge K V) (a : arc) (n m : nat).

(** The references that share the guard [a]. *)
Definition refs_at (refs : gmap nat RefMulti) a : nat :=
  size (filter (λ x : nat * RefMulti, multi_guard x.2 = a) refs).

Lemma refs_at_insert refs m r a :
  refs !! m = None → refs_at (<[m := r]> refs) a = plus_one (refs_at refs) (multi_guard r) a.
Proof.
  intros Hm. unfold refs_at, plus_one. destruct (decide (multi_guard r = a)) as [<-|Hne].
  - rewrite fn_lookup_insert, map_filter_insert_True by done.
    rewrite map_size_insert_None; [done|]. apply map_lookup_filter_None. by left.
  - rewrite fn_lookup_insert_ne by done. rewrite map_filter_insert_False by done.
    by rewrite delete_id by done.
Qed.

Lemma refs_at_delete refs m r a :
  refs !! m = Some r → refs_at refs a = plus_one (refs_at (delete m refs)) (multi_guard r) a.
Proof.
  intros Hm. rewrite <-(refs_at_insert _ m) by apply lookup_delete_eq. by rewrite insert_delete_id.
Qed.

Section one.
Context c (Hc : cache_ok c) (Hread : readable c).

(** After [n] calls of [next] so far. *)
Record bridge_inv n σ : Prop := {
  bi_world : ∃ i rest, br_out σ ++ rest = iter_order c ∧
    world_ok c (owners (refs_at (br_refs σ)) (br_iter σ)) i (br_world σ) ∧
    match br_iter σ with Some it => cursor c it i (br_world σ) rest | None => True end ∧
    (br_done σ = true → rest = []);
  bi_refs m r : br_refs σ !! m = Some r → ∃ kv, br_out σ !! m = Some kv ∧ reads c (br_world σ) r kv;
  bi_calls : br_iter σ ≠ None → br_done σ = false → length (br_out σ) = n
}.

Lemma bridge_start : bridge_inv 0 (into_par_iter (bridge_of c) c).
Proof.
  constructor; [|by intros ? ?|done]. exists 0%nat, (iter_order c). split; [done|]. split; [|split; [|done]].
  - eapply world_ok_ext; [|by apply world_start]. done.
  - split; [done|]. split; [lia|]. done.
Qed.

(** References that were not dropped still read their pairs. *)
Lemma refs_kept σ w' (refs : gmap nat RefMulti) (held : arc → nat) :
  (∀ a j, guards (br_world σ) a j → held a ≠ 0%nat → guards w' a j) →
  (∀ m r, refs !! m = Some r → held (multi_guard r) ≠ 0%nat ∧
     ∃ kv, br_out σ !! m = Some kv ∧ reads c (br_world σ) r kv) →
  ∀ m r, refs !! m = Some r → ∃ kv, br_out σ !! m = Some kv ∧ reads c w' r kv.
Proof.
  intros Hg Hrefs m r Hm. destruct (Hrefs m r Hm) as (Hheld & kv & Hkv & j & l & Ha & Hl & Hp).
  exists kv. split; [done|]. exists j, l. auto.
Qed.

Lemma refs_at_held (refs : gmap nat RefMulti) m r : refs !! m = Some r → refs_at refs (multi_guard r) ≠ 0%nat.
Proof.
  intros Hm. rewrite (refs_at_delete _ _ _ _ Hm). unfold plus_one. by rewrite fn_lookup_insert.
Qed.

Definition is_next (e : event) : bool := match e with EvNext => true | _ => false end.

Lemma step_next n σ : bridge_inv n σ → ∃ σ', bridge_step EvNext σ ⇓ σ' ∧ bridge_inv (S n) σ'.
Proof.
  intros [(i & rest & Hout & Hw & Hcu & Hdone) Hrefs Hcalls]. cbn [bridge_step].
  destruct (br_iter σ) as [it|] eqn:Hit.
  2:{ exists σ. split; [done|]. constructor; [|done|by rewrite Hit]. exists i, rest. by rewrite Hit. }
  destruct (next_ok c Hc Hread _ it i _ rest Hw Hcu) as ([[w' it'] r] & Hrun & Hg & i' & Hpost).
  rewrite Hrun. cbn [mbind outcome_bind]. destruct r as [r|].
  - destruct Hpost as (kv & rest' & -> & Hr & Hcu' & Hw').
    rewrite (reads_pair _ _ _ _ _ _ Hw' Hr). cbn [mbind outcome_bind]. eexists. split; [done|].
    assert (Hfresh : br_refs σ !! length (br_out σ) = None).
    { destruct (br_refs σ !! _) as [r0|] eqn:Hr0; [|done]. destruct (Hrefs _ _ Hr0) as (kv0 & Hkv0 & _).
      apply lookup_lt_Some in Hkv0. lia. }
    constructor; cbn.
    + exists i', rest'. split; [by rewrite <-app_assoc|]. split; [|split; [done|]].
      * eapply world_ok_ext; [|exact Hw']. intros a. unfold owners. by rewrite refs_at_insert.
      * intros Hd. by specialize (Hdone Hd).
    + intros m r' [[<- <-]|[Hne Hm]]%lookup_insert_Some.
      * exists kv. split; [|done]. by rewrite lookup_app_r, Nat.sub_diag by done.
      * destruct (refs_kept σ w' (br_refs σ) _ Hg) with m r' as (kv' & Hkv' & Hr'); [|done|].
        { intros m0 r0 Hm0. split; [by eapply refs_at_held|by apply Hrefs]. }
        exists kv'. split; [|done]. by apply lookup_app_l_Some.
    + intros _ Hd. rewrite length_app, Hcalls by done. cbn. lia.
  - destruct Hpost as (-> & Hcu' & Hw'). eexists. split; [done|]. constructor; cbn; [|..|done].
    + by exists i', [].
    + apply (refs_kept σ w' (br_refs σ) _ Hg). intros m0 r0 Hm0.
      split; [by eapply refs_at_held|by apply Hrefs].
Qed.

Lemma step_drop n m σ : bridge_inv n σ → ∃ σ', bridge_step (EvDrop m) σ ⇓ σ' ∧ bridge_inv n σ'.
Proof.
  intros Hi. pose proof Hi as [(i & rest & Hout & Hw & Hcu & Hdone) Hrefs Hcalls]. cbn [bridge_step].
  destruct (br_refs σ !! m) as [r|] eqn:Hm; [|by exists σ].
  set (held := refs_at (delete m (br_refs σ))).
  assert (Ho : ∀ a, owners (refs_at (br_refs σ)) (br_iter σ) a =
    (plus_one held (multi_guard r) a + in_current (br_iter σ) a)%nat).
  { intros a. unfold owners. by rewrite (refs_at_delete _ m r). }
  destruct (arc_drop_ok c Hc Hread _ _ _ (multi_guard r) (owners held (br_iter σ) (multi_guard r)) Hw)
    as (w' & Hd & Hw' & Hg).
  { rewrite Ho. unfold plus_one. by rewrite fn_lookup_insert. }
  assert (He : ∀ a, (<[multi_guard r := owners held (br_iter σ) (multi_guard r)]>
    (owners (refs_at (br_refs σ)) (br_iter σ))) a = owners held (br_iter σ) a).
  { intros a. destruct (decide (multi_guard r = a)) as [<-|Hne]; [by rewrite fn_lookup_insert|].
    rewrite fn_lookup_insert_ne, Ho by done. unfold plus_one. by rewrite fn_lookup_insert_ne. }
  unfold drop_multi. rewrite Hd. cbn [mbind outcome_bind]. eexists. split; [done|]. constructor; cbn; [| |done].
  - exists i, rest. split; [done|]. split; [by eapply world_ok_ext|]. split; [|done].
    destruct (br_iter σ) as [it|] eqn:Hit; [|done]. destruct Hcu as (Hz & Hle & Hcur).
    split; [done|]. split; [done|]. destruct (current it) as [[a bs]|] eqn:Hcu; [|done].
    destruct Hcur as (j & l & Hgj & Hrest). exists j, l. split; [|done]. apply Hg. split; [done|].
    rewrite He. unfold owners, in_current. cbn. rewrite Hcu, decide_True by done. lia.
  - apply (refs_kept σ w' (delete m (br_refs σ)) held).
    + intros a j Ha Hheld. apply Hg. split; [done|]. rewrite He. unfold owners. lia.
    + intros m0 r0 Hm0. split; [by eapply refs_at_held|].
      apply lookup_delete_Some in Hm0 as [_ Hm0]. by apply Hrefs.
Qed.

Lemma step_drop_iter n σ : bridge_inv n σ → ∃ σ', bridge_step EvDropIter σ ⇓ σ' ∧ bridge_inv n σ' ∧ br_iter σ' = None.
Proof.
  intros Hi. pose proof Hi as [(i & rest & Hout & Hw & Hcu & Hdone) Hrefs Hcalls]. cbn [bridge_step].
  destruct (br_iter σ) as [it|] eqn:Hit; [|by exists σ].
  destruct (drop_current_ok c Hc Hread _ _ _ _ Hw) as (w' & Hd & Hw' & Hg).
  unfold drop_iter. rewrite Hd. cbn [mbind outcome_bind]. eexists. split; [done|]. split; [|done].
  constructor; cbn; [by exists i, rest| |done]. apply (refs_kept σ w' (br_refs σ) _ Hg). intros m0 r0 Hm0.
  split; [by eapply refs_at_held|by apply Hrefs].
Qed.

Lemma run_inv es n σ :
  bridge_inv n σ →
  ∃ σ', bridge_run es σ ⇓ σ' ∧ bridge_inv (length (filter is_next es) + n) σ' ∧
    (EvDropIter ∉ es → br_iter σ ≠ None → br_iter σ' ≠ None).
Proof.
  revert n σ. induction es as [|e es IH]; intros n σ Hi; [by exists σ|]. cbn [bridge_run].
  destruct e as [|m|].
  - destruct (step_next n σ Hi) as (σ1 & Hs & Hi1). rewrite Hs. cbn [mbind outcome_bind].
    destruct (IH _ _ Hi1) as (σ' & Hrun & Hi' & Hit). exists σ'. split; [done|]. split.
    + cbn. rewrite decide_True by done. cbn. by rewrite <-Nat.add_succ_r.
    + intros Hn Hσ. apply Hit; [set_solver|]. cbn in Hs. destruct (br_iter σ); [|done].
      apply bind_Ret in Hs as ([[w it'] [r|]] & _ & Hs); [apply bind_Ret in Hs as (? & _ & Hs)|];
        by injection Hs as <-.
  - destruct (step_drop n m σ Hi) as (σ1 & Hs & Hi1). rewrite Hs. cbn [mbind outcome_bind].
    destruct (IH _ _ Hi1) as (σ' & Hrun & Hi' & Hit). exists σ'. split; [done|]. split; [done|].
    intros Hn Hσ. apply Hit; [set_solver|]. cbn in Hs. destruct (br_refs σ !! m); [|by injection Hs as <-].
    apply bind_Ret in Hs as (w & _ & [= <-]). done.
  - destruct (step_drop_iter n σ Hi) as (σ1 & Hs & Hi1 & _). rewrite Hs. cbn [mbind outcome_bind].
    destruct (IH _ _ Hi1) as (σ' & Hrun & Hi' & Hit). exists σ'. split; [done|]. split; [done|]. set_solver.
Qed.

(** Writers of the shard of a live reference wait. *)
Lemma reads_blocks own i (w : world K V) r k v v' :
  world_ok c own i w → reads c w r (k, v) → cache_contents c !! k = Some v ∧ _insert k v' (w_cache w) = Blocked.
Proof.
  intros Hw (j & l & Hg & Hl & Hp). pose proof (co_shards _ Hc _ _ Hl) as Hinv.
  pose proof (bucket_contents _ _ _ _ (li_shard _ _ _ Hinv) Hp) as Hk.
  assert (Hr : route c k = Z.of_nat j) by (apply (li_route _ _ _ Hinv); by eexists). split.
  - rewrite (cache_contents_lookup c k l Hc); [done|]. unfold home. by rewrite Hr, Nat2Z.id.
  - destruct (wo_params _ _ _ _ Hw) as (Hs & _ & Hlen). unfold _insert.
    destruct (shard_of_route (w_cache w) k) as [-> _].
    { destruct (co_geometry _ Hc) as (n & Hn & Hsh & Hcnt). exists n. unfold _shard_count in *.
      by rewrite Hs, Hlen. }
    assert (route (w_cache w) k = Z.of_nat j) as -> by (unfold route in *; by rewrite Hs).
    cbn [mbind outcome_bind]. destruct (reader_guard c Hc Hread j l Hl) as (_ & Hok & Hne).
    eapply with_write_blocked; [by apply (wo_held _ _ _ _ Hw _ _ _ Hg Hl)|done|done].
Qed.
End one.

(** C15. Parallel iteration, for every order of the events of the workers: all
    of them return; the pairs are handed out in one fixed order, each exactly
    once, all of them once the iterator has ended, which it does after as many
    calls as there are pairs and one more; a reference reads its pair until it
    is dropped, also after the iterator is gone, and keeps the writers of its
    shard out; and when the iterator and all references are dropped the cache
    is as it was, with every lock released. *)
Theorem par_iter_safe c :
  cache_ok c → readable c →
  ∃ order, order ≡ₚ map_to_list (cache_contents c) ∧ ∀ es,
  ∃ σ, bridge_run es (into_par_iter (bridge_of c) c) ⇓ σ ∧
    br_out σ `prefix_of` order ∧ (br_done σ = true → br_out σ = order) ∧
    (EvDropIter ∉ es → (length order < length (filter is_next es))%nat → br_done σ = true) ∧
    (∀ m r, br_refs σ !! m = Some r → ∃ k v, br_out σ !! m = Some (k, v) ∧
       multi_pair r (br_world σ) ⇓ (k, v) ∧ cache_contents c !! k = Some v ∧
       ∀ v', _insert k v' (w_cache (br_world σ)) = Blocked) ∧
    (br_iter σ = None → br_refs σ = ∅ → br_world σ = mkWorld c ∅).
Proof.
  intros Hc Hread. exists (iter_order c). split; [by apply iter_order_contents|]. intros es.
  destruct (run_inv c Hc Hread es 0 _ (bridge_start c)) as (σ & Hrun & Hi & Hit).
  exists σ. split; [done|]. destruct Hi as [(i & rest & Hout & Hw & Hcu & Hdone) Hrefs Hcalls].
  rewrite Nat.add_0_r in Hcalls. split_and!.
  - by exists rest.
  - intros Hd. rewrite <-Hout, (Hdone Hd). by rewrite app_nil_r.
  - intros Hn Hlen. destruct (br_done σ) eqn:Hd; [done|]. exfalso.
    assert (Hsome : br_iter σ ≠ None) by by apply Hit.
    rewrite <-Hout, length_app, (Hcalls Hsome eq_refl) in Hlen. lia.
  - intros m r Hm. destruct (Hrefs m r Hm) as ([k v] & Hkv & Hr). exists k, v. split_and!; [done| | |].
    + by eapply reads_pair.
    + by eapply (reads_blocks c Hc Hread _ _ _ _ _ _ v).
    + intros v'. by eapply (reads_blocks c Hc Hread).
  - intros Hnone Hempty. eapply world_end; [exact Hc|exact Hread|exact Hw|]. intros a. unfold owners, in_current. rewrite Hnone, Hempty.
    unfold refs_at. by rewrite map_filter_empty, map_size_empty.
Qed.
End bridge.

(** ** Evaluated instances *)

Section instances.
Import Concrete.

(** The iterator is dropped before the reference it yielded. *)
Lemma par_iter_safe_witness :
  ∃ σ, bridge_run [EvNext; EvNext; EvDropIter; EvDrop 0] (into_par_iter (bridge_of demo_cache) demo_cache) ⇓ σ ∧
    br_world σ = mkWorld demo_cache ∅ ∧ br_done σ = true.
Proof.
  destruct demo_cache_ok as (Hc & Hq & Hm).
  destruct (par_iter_safe demo_cache Hc (quiescent_readable _ Hq)) as (order & Hp & Hall).
  destruct (Hall [EvNext; EvNext; EvDropIter; EvDrop 0]) as (σ & Hrun & _ & _ & _ & _ & Hend).
  exists σ. split; [exact Hrun|].
  assert (Hfin : br_iter σ = None ∧ br_refs σ = ∅ ∧ br_done σ = true).
  { vm_compute in Hrun. injection Hrun as <-. vm_compute. auto. }
  destruct Hfin as (H1 & H2 & H3). split; [exact (Hend H1 H2)|exact H3].
Defined.
End instances.
