(* ===== verification/UnwindTheorems.v ===== *)
(** * UnwindTheorems: a panicking closure leaves a usable cache

    Every operation that runs a closure of the caller under the lock of a shard
    survives a panic of the closure, insertions survive a panic of the clone of
    the key, and without a panic each does what the operation of Cache and
    Entry does. *)

From stdpp Require Import base gmap list.
From S2P Require Import Prelude Machine Lock RawTable Util Shard ShardOps ShardModel ShardSim.
From S2P Require Import Evict Safety Exact ShardSpec TryResult Cache Entry Unwind CacheSpec CacheEffects EntrySpec UnwindSpec Concrete.

Open Scope Z_scope.

Section theorems.
Context {K V : Type} `{Countable K} `{!BuildHasher K} `{!Target}.
Context `{!RawTable (K * CacheEntry V)} `{!RawTableSpec (K * CacheEntry V)}.
Implicit Types (c : NeoCache K V) (s : ShardData K V) (k : K) (v : V).

(** C16. Panic safety: [remove_if], [remove_if_mut], [view], [retain],
    [or_insert_with] and [and_modify] return also when their closure panics,
    [insert] and [or_insert_with] also when the clone of the key panics.
    The cache they leave satisfies the invariant and every lock is free again,
    with no poisoning. A panicking predicate removes nothing, but keeps what it
    wrote to the value it was lent; pairs that [retain] had not reached are
    untouched and those it had rejected are gone; a panicking [or_insert_with]
    inserts nothing. When the clone panics, the eviction of the insertion has
    taken place but the new pair is not stored. *)
Theorem unwind_safe {St R} (call : closure_call K V St R) c :
  cache_ok c → quiescent c → (∀ k, countable_at c k) →
  ∃ c' r, run_closure call c ⇓ (c', r) ∧ usable c c' ∧
    closure_spec call (full_at c) (cache_contents c) (cache_contents c') r.
Proof.
  intros Hc Hq Hcount. destruct call as [k f|k f|k f|f st|cl k v|cl k f|k f].
  - by apply remove_if_unwind_ok.
  - by apply remove_if_mut_unwind_ok.
  - by apply view_unwind_ok.
  - destruct (retain_unwind_ok f st c Hc Hq) as (kvs & c' & Hp & Hrun & Hus & Hcont).
    cbn [run_closure closure_spec]. rewrite Hrun. eexists c', _. split; [done|]. split; [done|].
    by exists kvs.
  - by apply insert_unwind_ok.
  - by apply or_insert_with_unwind_ok.
  - by apply and_modify_unwind_ok.
Qed.

(** ** Without a panic *)

Ltac step_outcome :=
  repeat first [ done | case_match; cbn | match goal with |- ?o ≫= _ = _ => destruct o; cbn end ].

Lemma with_write_returned {A} i (f : ShardData K V → outcome (ShardData K V * A)) g c :
  (∀ s, g s = returned (f s)) → with_write i g c = returned (with_write i f c).
Proof.
  intros Hg. unfold with_write, returned. destruct (_yield_write_shard i c) as [c1| | | | |]; [cbn|done..].
  destruct (guarded i c1) as [s| | | | |]; [cbn|done..]. rewrite Hg. unfold returned.
  destruct (f s) as [[s1 a]| | | | |]; [cbn|done..].
  destruct (set_guarded i s1 c1) as [c2| | | | |]; [cbn|done..]. by destruct (drop_write i c2).
Qed.

Lemma retain_no_panic {St} (f : St → K → V → St * (V * bool)) st bs s :
  retain_loop_unwind (λ st k v, let '(st', (v', b)) := f st k v in (st', (v', Some b))) st bs s =
  returned ('(st, s) ← retain_loop f st bs s; Ret (s, st)).
Proof.
  revert st s. induction bs as [|b bs IH]; intros st s; [done|]. cbn.
  destruct (rt_as_ref (smap s) b) as [[k e]|]; [cbn|done].
  destruct (f st k (value e)) as [st' [v' []]]; unfold shared_get_mut; cbn;
    destruct (rt_write _ _ _) as [t|]; cbn; try done.
  destruct (rt_erase _ _) as [t'|]; cbn; [apply IH|done].
Qed.

Lemma retain_shards_no_panic {St} (f : St → K → V → St * (V * bool)) st is_ c :
  retain_shards_unwind (λ st k v, let '(st', (v', b)) := f st k v in (st', (v', Some b))) st is_ c =
  returned (for_write (λ st s, '(st, s) ← shard_retain f st s; Ret (s, st)) st is_ c).
Proof.
  revert st c. induction is_ as [|i is_ IH]; intros st c; [done|]. cbn [retain_shards_unwind for_write].
  rewrite (with_write_returned _ (λ s, '(st, s) ← shard_retain f st s; Ret (s, st))).
  - unfold returned at 1. destruct (with_write _ _ c) as [[c1 st1]| | | | |]; [cbn; apply IH|done..].
  - intros s. apply retain_no_panic.
Qed.

(** With closures that do not panic, these are the operations of Cache and
    Entry. *)
Lemma unwind_no_panic c :
  (∀ k f, _remove_if_unwind k (λ k v, Some (f k v)) c = returned (_remove_if k f c)) ∧
  (∀ k f, _remove_if_mut_unwind k (λ k v, let '(v', b) := f k v in (v', Some b)) c =
            returned (_remove_if_mut k f c)) ∧
  (∀ R k (f : K → V → R), _view_unwind k (λ k v, Some (f k v)) c = returned (_view k f c)) ∧
  (∀ St (f : St → K → V → St * (V * bool)) st,
     _retain_unwind (λ st k v, let '(st', (v', b)) := f st k v in (st', (v', Some b))) st c =
       returned (_retain f st c)) ∧
  (∀ k v, _insert_unwind true k v c = returned (_insert k v c)) ∧
  (∀ v e, or_insert_with_unwind true (Some v) e c = returned (or_insert_with (Ret v) e c)) ∧
  (∀ f e, and_modify_unwind (λ v, (f v, Some tt)) e c = returned (and_modify f e c)).
Proof.
  split_and!; intros.
  - unfold _remove_if_unwind, _remove_if. destruct (shard_of c k); [cbn|done..].
    apply with_write_returned. intros s. unfold shard_remove_if_unwind, shard_remove_if, returned, shared_get. step_outcome.
  - unfold _remove_if_mut_unwind, _remove_if_mut. destruct (shard_of c k); [cbn|done..].
    apply with_write_returned. intros s. unfold shard_remove_if_mut_unwind, shard_remove_if_mut, returned, shared_get_mut.
    destruct (rt_find _ _ _) as [b|]; [|done]. destruct (rt_as_ref (smap s) b) as [[k0 e]|]; [cbn|done].
    destruct (f k0 (value e)) as [v' yes]. step_outcome.
  - unfold _view_unwind, _view, returned. step_outcome.
  - apply retain_shards_no_panic.
  - unfold _insert_unwind, _insert. destruct (shard_of c k); [cbn|done..].
    apply with_write_returned. intros s. apply shard_insert_clones.
  - destruct e; [done|]. apply vacant_insert_clones.
  - destruct e as [o|]; [|done]. cbn. unfold returned. step_outcome.
Qed.
End theorems.

(** ** Evaluated instances *)

Section instances.
Import Concrete.

(** The predicate writes 11 and panics: the pair stays, with the new value. *)
Lemma unwind_safe_witness :
  ∃ c c' : NeoCache Z Z, cache_contents c !! 1 = Some 10 ∧
    run_closure (St:=unit) (R:=unit) (CallRemoveIfMut 1 (λ _ v, (v + 1, None))) c ⇓ (c', None) ∧
    quiescent c' ∧ cache_contents c' !! 1 = Some 11.
Proof.
  destruct demo_one as (c & Hc & Hq & Hk & Hcap).
  destruct (unwind_safe (St:=unit) (R:=unit) (CallRemoveIfMut 1 (λ _ v, (v + 1, None))) c Hc Hq)
    as (c' & r & Hrun & Hus & Hspec).
  - intros k. apply bounded_countable; [done|lia].
  - cbn [closure_spec] in Hspec. rewrite Hk in Hspec. destruct Hspec as [Hcont ->].
    exists c, c'. split_and!; [done..|apply Hus|]. by rewrite Hcont, lookup_insert_eq.
Defined.
End instances.
