(* ===== verification/SendSync.v ===== *)
(** * SendSync: which types may cross threads

    The [unsafe impl Send] and [unsafe impl Sync] declarations of the sources
    (iter.rs, util.rs, mapref/*.rs) with their bounds on the key, the value and
    the hasher, against what the methods of each type let the receiving thread
    do. The rules are those of the language: a reference that several threads
    may hold at the same time asks for [Sync]; a mutable reference, a value that
    moves in or out, and a value that is dropped ask for [Send]; a reference
    that only one thread at a time can hold asks for one of the two. *)

From stdpp Require Import base sets list.
From S2P Require Import Prelude.

(** The type parameters, and for each whether it is [Send] and [Sync]. *)
Inductive param := ParamK | ParamV | ParamS.

Record marks := mkMarks { is_send : bool; is_sync : bool }.

#[global] Instance param_eq_dec : EqDecision param.
Proof. solve_decision. Defined.

(** The types with declarations. *)
Inductive owner_type :=
| TyRef | TyRefMut | TyRefMulti | TyRefMutMulti | TyVacantEntry | TyOccupiedEntry
| TyIter | TyIterMut | TyOwningIter | TySharedValue | TyCacheEntry.

#[global] Instance owner_type_eq_dec : EqDecision owner_type.
Proof. solve_decision. Defined.

(** ** The declarations *)

Section declared.
Context (marks_of : param → marks).

Definition sends (ps : list param) : bool := forallb (λ p, is_send (marks_of p)) ps.
Definition syncs (ps : list param) : bool := forallb (λ p, is_sync (marks_of p)) ps.

(** One definition per [unsafe impl]. *)
Definition ref_send : bool := syncs [ParamK; ParamV].
Definition ref_sync : bool := syncs [ParamK; ParamV].
Definition refmut_send : bool := syncs [ParamK; ParamV].
Definition refmut_sync : bool := syncs [ParamK; ParamV].
Definition multi_send : bool := syncs [ParamK; ParamV].
Definition multi_sync : bool := syncs [ParamK; ParamV].
Definition multi_mut_send : bool := syncs [ParamK; ParamV].
Definition multi_mut_sync : bool := syncs [ParamK; ParamV].
Definition vacant_send : bool := syncs [ParamK; ParamV].
Definition vacant_sync : bool := syncs [ParamK; ParamV].
Definition occupied_send : bool := syncs [ParamK; ParamV].
Definition occupied_sync : bool := syncs [ParamK; ParamV].
Definition iter_send : bool := sends [ParamK; ParamV].
Definition iter_sync : bool := syncs [ParamK; ParamV].
Definition iter_mut_send : bool := sends [ParamK; ParamV].
Definition iter_mut_sync : bool := syncs [ParamK; ParamV].
Definition owning_send : bool := sends [ParamK; ParamV; ParamS].
Definition owning_sync : bool := syncs [ParamK; ParamV; ParamS].
Definition shared_value_send : bool := sends [ParamV].
Definition shared_value_sync : bool := syncs [ParamV].
Definition cache_entry_send : bool := sends [ParamV].
Definition cache_entry_sync : bool := syncs [ParamV].

Definition declared_send (g : owner_type) : bool :=
  match g with
  | TyRef => ref_send
  | TyRefMut => refmut_send
  | TyRefMulti => multi_send
  | TyRefMutMulti => multi_mut_send
  | TyVacantEntry => vacant_send
  | TyOccupiedEntry => occupied_send
  | TyIter => iter_send
  | TyIterMut => iter_mut_send
  | TyOwningIter => owning_send
  | TySharedValue => shared_value_send
  | TyCacheEntry => cache_entry_send
  end.

Definition declared_sync (g : owner_type) : bool :=
  match g with
  | TyRef => ref_sync
  | TyRefMut => refmut_sync
  | TyRefMulti => multi_sync
  | TyRefMutMulti => multi_mut_sync
  | TyVacantEntry => vacant_sync
  | TyOccupiedEntry => occupied_sync
  | TyIter => iter_sync
  | TyIterMut => iter_mut_sync
  | TyOwningIter => owning_sync
  | TySharedValue => shared_value_sync
  | TyCacheEntry => cache_entry_sync
  end.
End declared.

(** ** The methods *)

Inductive receiver := BySelf | ByMut | ByShared.

(** What a method hands to its caller: a reference, a mutable reference, or a
    value that moves (in, out, or to be dropped). *)
Inductive access := ARef | AMut | AMove.

Record method := mkMethod { recv : receiver; gives : list (param * access) }.

(** Whether other threads may use the data while the guard is held. *)
Definition shared_data (g : owner_type) : bool :=
  match g with TyRef | TyRefMulti | TyIter => true | _ => false end.

(** The methods of each type, its drop included, in the order of the sources. *)
Definition read_pair : list (param * access) := [(ParamK, ARef); (ParamV, ARef)].
Definition write_pair : list (param * access) := [(ParamK, ARef); (ParamV, AMut)].
Definition move_pair : list (param * access) := [(ParamK, AMove); (ParamV, AMove)].

Definition ref_methods : list method :=
  [mkMethod ByShared [(ParamK, ARef)] (* key *);
   mkMethod ByShared [(ParamV, ARef)] (* value *);
   mkMethod ByShared read_pair (* pair *);
   mkMethod BySelf read_pair (* map *);
   mkMethod BySelf read_pair (* try_map *);
   mkMethod ByShared [(ParamV, ARef)] (* deref *)].

Definition refmut_methods : list method :=
  [mkMethod ByShared [(ParamK, ARef)] (* key *);
   mkMethod ByShared [(ParamV, ARef)] (* value *);
   mkMethod ByMut [(ParamV, AMut)] (* value_mut *);
   mkMethod ByShared read_pair (* pair *);
   mkMethod ByMut write_pair (* pair_mut *);
   mkMethod BySelf read_pair (* downgrade *);
   mkMethod BySelf write_pair (* map *);
   mkMethod BySelf write_pair (* try_map *);
   mkMethod ByShared [(ParamV, ARef)] (* deref *);
   mkMethod ByMut [(ParamV, AMut)] (* deref_mut *)].

Definition multi_methods : list method :=
  [mkMethod ByShared [(ParamK, ARef)] (* key *);
   mkMethod ByShared [(ParamV, ARef)] (* value *);
   mkMethod ByShared read_pair (* pair *);
   mkMethod ByShared [(ParamV, ARef)] (* deref *)].

Definition multi_mut_methods : list method :=
  [mkMethod ByShared [(ParamK, ARef)] (* key *);
   mkMethod ByShared [(ParamV, ARef)] (* value *);
   mkMethod ByMut [(ParamV, AMut)] (* value_mut *);
   mkMethod ByShared read_pair (* pair *);
   mkMethod ByMut write_pair (* pair_mut *);
   mkMethod ByShared [(ParamV, ARef)] (* deref *);
   mkMethod ByMut [(ParamV, AMut)] (* deref_mut *)].

(** Inserting may evict, that is, drop, another pair of the shard. *)
Definition vacant_methods : list method :=
  [mkMethod BySelf (move_pair ++ write_pair) (* insert *);
   mkMethod BySelf (move_pair ++ write_pair) (* insert_entry *);
   mkMethod BySelf [(ParamK, AMove)] (* into_key *);
   mkMethod ByShared [(ParamK, ARef)] (* key *);
   mkMethod BySelf [(ParamK, AMove)] (* drop *)].

Definition occupied_methods : list method :=
  [mkMethod ByShared [(ParamV, ARef)] (* get *);
   mkMethod ByMut [(ParamV, AMut)] (* get_mut *);
   mkMethod ByMut [(ParamV, AMove)] (* insert *);
   mkMethod BySelf write_pair (* into_ref *);
   mkMethod BySelf [(ParamK, AMove)] (* into_key *);
   mkMethod ByShared [(ParamK, ARef)] (* key *);
   mkMethod BySelf [(ParamV, AMove)] (* remove *);
   mkMethod BySelf move_pair (* remove_entry *);
   mkMethod BySelf move_pair (* replace_entry *);
   mkMethod BySelf [(ParamK, AMove)] (* drop *)].

(** A clone of an [Iter] yields references of its own. *)
Definition iter_clone_methods : list method := [mkMethod ByShared read_pair (* clone *)].
Definition iter_next_methods : list method := [mkMethod ByMut read_pair (* next *)].

Definition iter_mut_methods : list method := [mkMethod ByMut write_pair (* next *)].

Definition owning_methods : list method :=
  [mkMethod ByMut move_pair (* next *); mkMethod BySelf (move_pair ++ [(ParamS, AMove)]) (* drop *)].

Definition shared_value_methods : list method :=
  [mkMethod ByShared [(ParamV, ARef)] (* get *);
   mkMethod ByMut [(ParamV, AMut)] (* get_mut *);
   mkMethod BySelf [(ParamV, AMove)] (* into_inner, drop *)].

(** An entry is its [SharedValue] and two integers. *)
Definition cache_entry_methods : list method := shared_value_methods.

Definition methods (g : owner_type) : list method :=
  match g with
  | TyRef => ref_methods
  | TyRefMut => refmut_methods
  | TyRefMulti => multi_methods
  | TyRefMutMulti => multi_mut_methods
  | TyVacantEntry => vacant_methods
  | TyOccupiedEntry => occupied_methods
  | TyIter => iter_clone_methods ++ iter_next_methods
  | TyIterMut => iter_mut_methods
  | TyOwningIter => owning_methods
  | TySharedValue => shared_value_methods
  | TyCacheEntry => cache_entry_methods
  end.

(** ** The rules *)

Section needed.
Context (marks_of : param → marks).

(** May another thread make this access, while others may ([concurrent]) or may
    not hold references of their own? *)
Definition allowed (concurrent : bool) (a : param * access) : bool :=
  let m := marks_of a.1 in
  match a.2 with
  | AMove | AMut => is_send m
  | ARef => is_sync m || (negb concurrent && is_send m)
  end.

(** After moving the value to another thread, which may call every method. *)
Definition send_sound (g : owner_type) : bool :=
  forallb (λ m, forallb (allowed (shared_data g)) (gives m)) (methods g).

(** While sharing references to it: threads may call the methods that take
    [&self], at the same time. *)
Definition by_shared (m : method) : bool := match recv m with ByShared => true | _ => false end.

Definition sync_sound (g : owner_type) : bool :=
  forallb (λ m, negb (by_shared m) || forallb (allowed true) (gives m)) (methods g).
End needed.

(** The types whose [Send] declaration is too weak. *)
Definition too_weak : list owner_type :=
  [TyRefMut; TyRefMutMulti; TyVacantEntry; TyOccupiedEntry; TyIter].

(** A value type that may be shared but not moved ([MutexGuard]), and one that
    may be moved but not shared ([Cell]). *)
Definition mutex_guard (p : param) : marks := mkMarks (bool_decide (p ≠ ParamV)) true.
Definition cell (p : param) : marks := mkMarks true (bool_decide (p ≠ ParamV)).

(** C34. The [Sync] declarations are sound for every choice of key, value and
    hasher; so are the [Send] declarations of [Ref], [RefMulti], [IterMut],
    [OwningIter], [SharedValue] and [CacheEntry]. Those of [RefMut],
    [RefMutMulti], [VacantEntry] and [OccupiedEntry] admit a value that is
    [Sync] but not [Send] (a [MutexGuard]), although the receiving thread can
    move it; that of [Iter] admits one that is [Send] but not [Sync] (a
    [Cell]), although both threads can read it at the same time. *)
Theorem thread_bounds :
  (∀ marks_of g, declared_sync marks_of g = true → sync_sound marks_of g = true) ∧
  (∀ marks_of g, g ∉ too_weak → declared_send marks_of g = true → send_sound marks_of g = true) ∧
  (∀ g, g ∈ too_weak →
     declared_send (if decide (g = TyIter) then cell else mutex_guard) g = true ∧
     send_sound (if decide (g = TyIter) then cell else mutex_guard) g = false).
Proof.
  split_and!.
  - intros m g. unfold declared_sync, sync_sound, syncs.
    destruct g; cbn -[allowed]; unfold allowed; cbn; rewrite ?andb_true_r, ?andb_true_iff; intros; destruct_and?;
      repeat match goal with Hs : is_sync _ = true |- _ => rewrite Hs; clear Hs end; done.
  - intros m g Hg. unfold declared_send, send_sound, syncs, sends.
    destruct g; try (exfalso; apply Hg; unfold too_weak; set_solver);
      cbn -[allowed]; unfold allowed; cbn; rewrite ?andb_true_r, ?andb_true_iff; intros; destruct_and?;
      repeat match goal with Hs : is_sync _ = true |- _ => rewrite Hs; clear Hs
                        | Hs : is_send _ = true |- _ => rewrite Hs; clear Hs end; try done.
    all: by rewrite ?orb_true_r.
  - intros g Hg. unfold too_weak in Hg. rewrite !elem_of_cons in Hg.
    repeat destruct Hg as [-> |Hg]; [done..|]. by apply not_elem_of_nil in Hg.
Qed.

(** A [RefMut] of a [MutexGuard] is declared [Send], and must not be; a [Ref] of
    it may cross threads. *)
Lemma thread_bounds_witness :
  send_sound mutex_guard TyRef = true ∧ declared_send mutex_guard TyRefMut = true ∧
  send_sound mutex_guard TyRefMut = false.
Proof.
  destruct thread_bounds as (_ & Hs & Hw). split.
  - apply Hs; [unfold too_weak; set_solver|reflexivity].
  - destruct (Hw TyRefMut) as [Hd Hn]; [unfold too_weak; set_solver|]. split; [exact Hd|exact Hn].
Defined.
