(* ===== verification/ViewTheorems.v ===== *)
(** * ViewTheorems: the read-only view and clones

    Lock-free reading through [ReadOnlyView] (src/src/read_only.rs) agrees with
    the cache, and a clone (lib.rs) is an independent cache in the same state,
    down to its eviction decisions. *)

From stdpp Require Import base gmap list.
From S2P Require Import Prelude Machine Lock RawTable Util Shard ShardOps ShardModel ShardSim.
From S2P Require Import Evict Safety Exact ShardSpec Policy ShardHistory TryResult Cache Iter ReadOnly.
From S2P Require Import CacheSpec IterSpec Concrete IterTheorems.

Open Scope Z_scope.

Section theorems.
Context {K V : Type} `{Countable K} `{!BuildHasher K} `{!Target}.
Context `{!RawTable (K * CacheEntry V)} `{!RawTableSpec (K * CacheEntry V)}.
Implicit Types (c : NeoCache K V) (s : ShardData K V) (l : RwLock K V) (k : K) (v : V).

(** ** The read-only view *)

Lemma get_read_shard c i l : shards c !! i = Some l → _get_read_shard (Z.of_nat i) c ⇓ lock_data l.
Proof.
  intros Hl. unfold _get_read_shard. rewrite (bounds_assert _ _ _ Hl). cbn.
  by rewrite (get_shard _ _ _ Hl).
Qed.

Lemma view_buckets_ok s bs :
  Forall (λ b, is_Some (rt_as_ref (smap s) b)) bs → view_buckets s bs ⇓ bucket_pairs s bs.
Proof.
  induction 1 as [|b bs [[k e] He] _ IH]; [done|]. cbn [view_buckets]. rewrite He.
  cbn [deref mbind outcome_bind]. rewrite IH. cbn [mbind outcome_bind]. unfold bucket_pairs.
  cbn [omap list_omap]. by rewrite He.
Qed.

Lemma view_shards_ok ls pre c :
  shards c = pre ++ ls →
  view_shards (seq (length pre) (length ls)) (into_read_only c) ⇓
    concat ((λ l, bucket_pairs (lock_data l) (rt_iter (smap (lock_data l)))) <$> ls).
Proof.
  revert pre. induction ls as [|l ls IH]; intros pre Hsh; [done|].
  assert (Hl : shards c !! length pre = Some l) by (by rewrite Hsh, list_lookup_middle).
  cbn [view_shards seq length view_map view_new into_read_only]. rewrite (get_read_shard _ _ _ Hl).
  cbn [mbind outcome_bind]. rewrite view_buckets_ok by apply iter_live. cbn [mbind outcome_bind].
  specialize (IH (pre ++ [l])). rewrite length_app, Nat.add_1_r in IH.
  rewrite IH; [done|by rewrite <-app_assoc].
Qed.

Lemma view_get_ok c k :
  cache_ok c → view_get_key_value k (into_read_only c) ⇓ (pair k <$> cache_contents c !! k).
Proof.
  intros Hc. destruct (home_exists c k (co_geometry _ Hc)) as [l Hl].
  destruct (home_index _ _ _ Hc Hl) as (i & _ & Hi & Hs & Hinv).
  rewrite (cache_contents_lookup _ _ _ Hc Hl). unfold view_get_key_value. unfold shard_of in Hs.
  cbn [view_map view_new into_read_only]. rewrite Hs. cbn [mbind outcome_bind].
  rewrite (get_read_shard _ _ _ Hi). cbn [mbind outcome_bind].
  destruct (li_shard _ _ _ Hinv) as (a & Hrel & _). rewrite (contents_rel _ _ Hrel), m_contents_lookup.
  unfold hash_u64. destruct (m_map a !! k) as [e|] eqn:Hk.
  - destruct (repr_find_Some _ _ _ _ (rel_map _ _ Hrel) Hk) as (b & -> & Hb).
    by rewrite (repr_as_ref _ _ _ _ Hb).
  - by rewrite (repr_find_None _ _ _ _ (rel_map _ _ Hrel) Hk).
Qed.

(** C36. The read-only view agrees with the cache it was made of, whatever the
    state of its locks: lookups answer from the contents, iteration visits the
    pairs in the same order as the locking iterator, and [into_inner] gives
    the cache back unchanged (no frequency was touched). *)
Theorem read_only_view c k :
  cache_ok c →
  let view := into_read_only c in
  view_get_key_value k view ⇓ (pair k <$> cache_contents c !! k) ∧
  view_get k view ⇓ (cache_contents c !! k) ∧
  view_contains_key k view ⇓ bool_decide (is_Some (cache_contents c !! k)) ∧
  (∃ kvs, view_iter view ⇓ kvs ∧ kvs ≡ₚ map_to_list (cache_contents c) ∧
     (readable c → iter_pairs c ⇓ (c, kvs))) ∧
  into_inner view = c.
Proof.
  intros Hc view. unfold view_contains_key, view_get. subst view. rewrite (view_get_ok c k Hc).
  cbn [mbind outcome_bind].
  assert (option_map snd (pair k <$> cache_contents c !! k) = cache_contents c !! k) as ->
    by (by destruct (cache_contents c !! k)).
  split_and!; try done.
  destruct (iter_pairs_ok c Hc) as [Hp Hit]. exists (iter_order c). split_and!; [|done|done].
  unfold view_iter. by apply (view_shards_ok (shards c) []).
Qed.

(** ** Clones *)

Definition clone_lock l : RwLock K V := mkLock lock_init (shard_clone (lock_data l)).

Lemma clone_loop_ok ls pre c :
  cache_ok c → readable c → shards c = pre ++ ls →
  clone_loop (seq (length pre) (length ls)) c ⇓ (c, clone_lock <$> ls).
Proof.
  intros Hc Hread. revert pre. induction ls as [|l ls IH]; intros pre Hsh; [done|].
  assert (Hl : shards c !! length pre = Some l) by (by rewrite Hsh, list_lookup_middle).
  destruct (read_shard_ok c _ l Hc Hread Hl) as (c1 & Hy & Hg & Hd).
  cbn [clone_loop seq length]. rewrite Hy. cbn [mbind outcome_bind]. rewrite Hg. cbn [mbind outcome_bind].
  rewrite Hd. cbn [mbind outcome_bind]. specialize (IH (pre ++ [l])).
  rewrite length_app, Nat.add_1_r in IH. rewrite IH; [done|by rewrite <-app_assoc].
Qed.

Lemma shard_clone_contents s : shard_ok s → contents (shard_clone s) = contents s.
Proof.
  intros (a & Hrel & _). by rewrite (contents_rel _ _ Hrel), (contents_rel _ _ (shard_clone_rel _ _ Hrel)).
Qed.

Definition cloned c : NeoCache K V := mkCache (shift c) (clone_lock <$> shards c) (cache_capacity c).

Lemma cloned_ok c :
  cache_ok c → cache_ok (cloned c) ∧ quiescent (cloned c) ∧ cache_contents (cloned c) = cache_contents c.
Proof.
  intros Hc. assert (Hcnt : _shard_count (cloned c) = _shard_count c).
  { unfold _shard_count, cloned. cbn. by rewrite length_fmap. }
  split_and!.
  - constructor.
    + destruct (co_geometry _ Hc) as (n & ? & ? & ?). exists n. by rewrite Hcnt.
    + apply Hc.
    + intros i l'. cbn. rewrite list_lookup_fmap, fmap_Some. intros (l & Hl & ->).
      destruct (co_shards _ Hc _ _ Hl) as [Hs Hr Hcap Hw]. constructor; cbn.
      * destruct Hs as (a & Hrel & Hi). exists a. split; [by apply shard_clone_rel|done].
      * rewrite shard_clone_contents by done. exact Hr.
      * unfold shard_limit in *. by rewrite Hcnt.
      * apply lock_ok_zero.
  - intros i l'. cbn. rewrite list_lookup_fmap, fmap_Some. by intros (l & Hl & ->).
  - unfold cache_contents. cbn. rewrite <-list_fmap_compose. f_equal. apply list_fmap_ext.
    intros i l Hl. cbn. apply shard_clone_contents, (co_shards _ Hc _ _ Hl).
Qed.

(** Two shards that will decide alike: the same entries with their frequencies
    and locations, queues, ghost set, counters and limits. Only the order of the
    entries in the tables may differ. *)
Definition same_shard s s' : Prop :=
  policy s' = policy s ∧ small_hashes s' = small_hashes s ∧ main_hashes s' = main_hashes s ∧ main_cap s' = main_cap s.

Record same_state c c' : Prop := {
  ss_shift : shift c' = shift c;
  ss_capacity : cache_capacity c' = cache_capacity c;
  ss_length : length (shards c') = length (shards c);
  ss_shards i l l' : shards c !! i = Some l → shards c' !! i = Some l' → same_shard (lock_data l) (lock_data l')
}.

Lemma same_shard_rel s s' a : shard_rel s a → shard_rel s' a → same_shard s s'.
Proof.
  intros Hrel Hrel'. split; [by rewrite (policy_rel _ _ Hrel), (policy_rel _ _ Hrel')|].
  destruct Hrel, Hrel'. split_and!; congruence.
Qed.

(** Both shards are related to the same abstract state. *)
Lemma same_shard_model s s' :
  shard_ok s → shard_ok s' → same_shard s s' → ∃ a, shard_rel s a ∧ shard_rel s' a ∧ inv a.
Proof.
  intros (a & Hrel & Hi) (a' & Hrel' & _) [Hp _]. exists a. split_and!; [done| |done].
  by rewrite <-(policy_rel _ _ Hrel), <-Hp, (policy_rel _ _ Hrel').
Qed.

Lemma same_state_contents c c' :
  cache_ok c → cache_ok c' → same_state c c' → cache_contents c' = cache_contents c.
Proof.
  intros Hc Hc' Hsame. unfold cache_contents. f_equal. apply list_eq_same_length with (n := length (shards c)).
  - by rewrite length_fmap.
  - by rewrite length_fmap, (ss_length _ _ Hsame).
  - intros i x y _. rewrite !list_lookup_fmap, !fmap_Some. intros (l' & Hl' & ->) (l & Hl & ->). cbn.
    destruct (same_shard_model (lock_data l) (lock_data l')) as (a & Hrel & Hrel' & _);
      [apply (co_shards _ Hc _ _ Hl)|apply (co_shards _ Hc' _ _ Hl')|by apply (ss_shards _ _ Hsame i)|].
    by rewrite (contents_rel _ _ Hrel), (contents_rel _ _ Hrel').
Qed.

(** Two shards in the same abstract state insert alike, and stay in the same
    state. *)
Lemma insert_alike k v s s' a :
  shard_rel s a → shard_rel s' a → inv a → countable s →
  ∃ s1 s1' r, shard_insert k v s ⇓ (s1, r) ∧ shard_insert k v s' ⇓ (s1', r) ∧
    shard_step s s1 ∧ shard_step s' s1' ∧ same_shard s1 s1' ∧
    no_new_keys_but k (contents s) (contents s1) ∧ no_new_keys_but k (contents s') (contents s1').
Proof.
  intros Hrel Hrel' Hi Hc.
  destruct (m_insert_spec k v a Hi (countable_rel _ _ Hrel Hc)) as (a' & Ha' & Hi' & Hcap & _ & Hl & Heff).
  destruct (outcome_rel_Ret_r _ _ _ _ (shard_insert_sim _ _ k v Hrel) Ha') as ([s1 r] & Hs1 & Hr1 & Hr).
  destruct (outcome_rel_Ret_r _ _ _ _ (shard_insert_sim _ _ k v Hrel') Ha') as ([s1' r'] & Hs1' & Hr1' & Hr').
  cbn in *. subst. exists s1, s1', (m_contents a !! k). rewrite Hs1, Hs1'.
  rewrite (contents_rel _ _ Hrel), (contents_rel _ _ Hrel'), (contents_rel _ _ Hr1), (contents_rel _ _ Hr1').
  split_and!; [done|done|by eapply shard_step_rel|by eapply shard_step_rel|by eapply same_shard_rel|..];
    by eapply insert_no_new_keys.
Qed.

(** Changing the shard of [k] in both caches keeps them in the same state. *)
Lemma same_state_update c c' c1 c1' k l1 l1' :
  same_state c c' → same_except (route c k) c c1 → same_except (route c' k) c' c1' →
  home c1 k l1 → home c1' k l1' → same_shard (lock_data l1) (lock_data l1') → same_state c1 c1'.
Proof.
  intros [Hsh Hcap Hlen Hall] [Hsh1 Hcap1 Hlen1 Hoth1] [Hsh1' Hcap1' Hlen1' Hoth1'] Hl1 Hl1' Hs.
  unfold home in *. rewrite (same_route c' c1'), (same_route c c') in Hl1' by done.
  rewrite (same_route c c1) in Hl1 by done. rewrite (same_route c c') in Hoth1' by done.
  constructor; [congruence..|]. intros i l l' Hl Hl'. destruct (decide (i = Z.to_nat (route c k))) as [->|Hne].
  - congruence.
  - rewrite Hoth1 in Hl by lia. rewrite Hoth1' in Hl' by lia. by apply (Hall i).
Qed.

(** An insertion into two caches in the same state. *)
Lemma insert_same c c' k v :
  cache_ok c → cache_ok c' → same_state c c' → unlocked c k → unlocked c' k → countable_at c k →
  ∃ c1 c1' r, _insert k v c ⇓ (c1, r) ∧ _insert k v c' ⇓ (c1', r) ∧ same_state c1 c1' ∧
    cache_contents c1' = cache_contents c1.
Proof.
  intros Hc Hc' Hsame (l & Hl & Hw) (l' & Hl' & Hw') Hcount.
  destruct (home_index _ _ _ Hc Hl) as (i & Hr & Hi & _ & Hinv).
  destruct (home_index _ _ _ Hc' Hl') as (i' & Hr' & Hi' & _ & Hinv').
  rewrite (same_route c c' k (ss_shift _ _ Hsame)), Hr in Hr'. apply Nat2Z.inj in Hr' as <-.
  destruct (same_shard_model (lock_data l) (lock_data l')) as (a & Hrel & Hrel' & Ha);
    [apply Hinv|apply Hinv'|by apply (ss_shards _ _ Hsame i)|].
  destruct (insert_alike k v _ _ a Hrel Hrel' Ha (Hcount _ Hl))
    as (s1 & s1' & r & H1 & H2 & Hst1 & Hst2 & Hss & Hk1 & Hk2).
  destruct (keyed_write_ok _ c k l s1 r Hc Hl Hw H1 Hst1 Hk1) as (c1 & Hrun1 & Hc1 & Hse1 & Hh1 & _).
  destruct (keyed_write_ok _ c' k l' s1' r Hc' Hl' Hw' H2 Hst2 Hk2) as (c1' & Hrun2 & Hc1' & Hse2 & Hh2 & _).
  assert (Hsame1 : same_state c1 c1') by (by eapply (same_state_update c c')).
  exists c1, c1', r. split_and!; [done|done|done|by apply same_state_contents].
Qed.

Lemma cloned_same c : cache_ok c → same_state c (cloned c).
Proof.
  intros Hc. constructor; [done|done|by cbn; rewrite length_fmap|]. intros i l l' Hl. cbn.
  rewrite list_lookup_fmap, Hl. intros [= <-]. destruct (li_shard _ _ _ (co_shards _ Hc _ _ Hl)) as (a & Hrel & _).
  by apply (same_shard_rel _ _ a); [|apply shard_clone_rel].
Qed.

(** C37. Cloning: the clone is a cache of its own, unlocked, with the same pairs
    and capacity, and the original is left as it was. Every shard of the clone
    is in the state of eviction of the original: the same frequencies, queues,
    ghost set, counters and limits. So inserting a pair into both returns the
    same value, evicts the same entry and leaves both in the same state again. *)
Theorem clone_same_state c :
  cache_ok c → readable c →
  ∃ c', cache_clone c ⇓ (c, c') ∧ cache_ok c' ∧ quiescent c' ∧
    cache_contents c' = cache_contents c ∧ cache_capacity c' = cache_capacity c ∧ same_state c c' ∧
    ∀ k v, unlocked c k → countable_at c k →
      ∃ c1 c1' r, _insert k v c ⇓ (c1, r) ∧ _insert k v c' ⇓ (c1', r) ∧ same_state c1 c1' ∧
        cache_contents c1' = cache_contents c1.
Proof.
  intros Hc Hread. exists (cloned c). destruct (cloned_ok c Hc) as (Hc' & Hq' & Hcont).
  split_and!; [|done|done|done|done|by apply cloned_same|].
  { pose proof (clone_loop_ok (shards c) [] c Hc Hread eq_refl) as Hloop. unfold cache_clone, all_shards.
    cbn [length] in Hloop. by rewrite Hloop. }
  intros k v Hu Hcount. apply insert_same; [done|done|by apply cloned_same|done|by apply quiescent_unlocked|done].
Qed.
End theorems.

(** ** Evaluated instances *)

Section instances.
Import Concrete.

Lemma read_only_view_witness :
  cache_ok demo_cache ∧ view_get 1 (into_read_only demo_cache) ⇓ Some 10.
Proof.
  destruct demo_cache_ok as (Hc & Hq & Hm). split; [exact Hc|].
  destruct (read_only_view demo_cache 1 Hc) as (_ & Hget & _). rewrite Hm in Hget. exact Hget.
Defined.

Lemma clone_same_state_witness :
  ∃ c' c1 c1' r, cache_clone demo_cache ⇓ (demo_cache, c') ∧ same_state demo_cache c' ∧
    _insert 3 30 demo_cache ⇓ (c1, r) ∧ _insert 3 30 c' ⇓ (c1', r) ∧ same_state c1 c1' ∧
    cache_contents c1' = cache_contents c1.
Proof.
  destruct demo_cache_ok as (Hc & Hq & Hm).
  destruct (clone_same_state demo_cache Hc (quiescent_readable _ Hq)) as (c' & Hcl & _ & _ & _ & _ & Hss & Hins).
  destruct (Hins 3 30) as (c1 & c1' & r & H1 & H2 & H3 & H4).
  - by apply quiescent_unlocked.
  - apply bounded_countable; [exact Hc|by vm_compute].
  - exists c', c1, c1', r. split; [exact Hcl|]. split; [exact Hss|]. split; [exact H1|]. split; [exact H2|].
    split; [exact H3|exact H4].
Defined.
End instances.
