(* ===== verification/SerdeTheorems.v ===== *)
(** * SerdeTheorems: serialization and deserialization

    What [Serialize] hands to a format, what [Deserialize] builds from one, and
    the round trip, for any format that satisfies [MapFormatSpec]. *)

From stdpp Require Import base gmap list.
From S2P Require Import Prelude Machine Lock RawTable Util Shard ShardOps ShardModel ShardSim.
From S2P Require Import Evict Safety Exact ShardSpec TryResult Cache Iter Serde CacheSpec IterSpec Concrete.

Open Scope Z_scope.

Section theorems.
Context {K V : Type} `{Countable K} `{!BuildHasher K} `{!Target}.
Context `{!RawTable (K * CacheEntry V)} `{!RawTableSpec (K * CacheEntry V)} `{!MapFormat K V}.
Implicit Types (c : NeoCache K V) (kvs : list (K * V)).

(** ** Writing *)

Lemma fold_entries (m : ser_map K V + ser_error K V) kvs :
  foldl (λ r kv, match r with inl m => serialize_entry m kv | inr err => inr err end) m kvs =
    match m with inl m => fold_pairs serialize_entry m kvs | inr err => inr err end.
Proof.
  revert m. induction kvs as [|kv kvs IH]; intros m; cbn; [by destruct m|].
  rewrite IH. by destruct m.
Qed.

Lemma serialize_run c :
  cache_ok c → readable c → Z.of_nat (size (cache_contents c)) < usize_mod →
  serialize c ⇓ (c, write_map (iter_order c)).
Proof.
  intros Hc Hread Hsz. unfold serialize, write_map. rewrite cache_len_ok by done. cbn [mbind outcome_bind].
  assert (length (iter_order c) = size (cache_contents c)) as ->.
  { by rewrite (iter_order_contents c Hc), length_map_to_list. }
  destruct (serialize_map _) as [m|err]; [|done].
  rewrite for_pairs_ok by done. cbn [mbind outcome_bind]. rewrite fold_entries.
  by destruct (fold_pairs _ _ _).
Qed.

(** Serializing announces the number of entries and writes every pair
    exactly once; whatever the format answers, an error included, is the
    result, and the cache and all its locks are as they were. *)
Lemma serialize_result c :
  cache_ok c → readable c → Z.of_nat (size (cache_contents c)) < usize_mod →
  ∃ kvs, kvs ≡ₚ map_to_list (cache_contents c) ∧ serialize c ⇓ (c, write_map kvs).
Proof.
  intros Hc Hread Hsz. exists (iter_order c). split; [by apply iter_order_contents|by apply serialize_run].
Qed.

(** ** Reading *)

(** The loop of [visit_map] extends the cache by what the format hands out. *)
Lemma visit_loop_ok access kvs r fuel c :
  yields access kvs r → (length kvs < fuel)%nat →
  visit_loop fuel access c =
    (c ← extend kvs c; Ret (match r with None => inl c | Some err => inr err end)).
Proof.
  intros Hy. revert fuel c. induction Hy as [a a' Hn|a a' err Hn|a a' [k v] kvs r Hn _ IH];
    intros [|fuel] c Hf; cbn [length] in Hf; try lia; cbn [visit_loop extend]; rewrite Hn; [done..|].
  destruct (_insert k v c) as [[c1 o]| | | | |]; try done. cbn [mbind outcome_bind].
  rewrite IH by lia. done.
Qed.

Lemma visit_map_ok parallelism access kvs r fuel :
  1 ≤ parallelism → 32 * parallelism ≤ usize_mod → Z.of_nat (length kvs) < usize_mod →
  yields access kvs r → (length kvs < fuel)%nat →
  ∃ c, cache_ok c ∧ quiescent c ∧ unbounded c ∧
    cache_contents c = foldl (λ m kv, <[kv.1 := kv.2]> m) ∅ kvs ∧
    visit_map fuel parallelism access ⇓ (match r with None => inl c | Some err => inr err end).
Proof.
  intros Hp Hmod Hlen Hy Hf.
  destruct (default_ok (K:=K) (V:=V) parallelism 0 Hp Hmod) as (c & Hnew & Hc & Hq & He & Hcap).
  { pose proof usize_mod_pos. split; lia. }
  destruct (extend_ok kvs c Hc Hq Hcap) as (c' & Hext & ? & ? & ? & Hcont); [rewrite He, map_size_empty; lia|].
  exists c'. split_and!; [done..|by rewrite Hcont, He|].
  unfold visit_map. change (with_hasher parallelism) with (new (K:=K) (V:=V) parallelism 0).
  rewrite Hnew. cbn [mbind outcome_bind]. rewrite (visit_loop_ok _ _ _ _ _ Hy Hf), Hext. by destruct r.
Qed.

(** C40. Deserializing a map terminates when the format hands out finitely
    many entries: it returns the format's error, or an unbounded cache with
    all the entries, the last value of a repeated key winning. *)
Theorem visit_map_result parallelism access kvs r fuel :
  1 ≤ parallelism → 32 * parallelism ≤ usize_mod → Z.of_nat (length kvs) < usize_mod →
  yields access kvs r → (length kvs < fuel)%nat →
  match r with
  | Some err => visit_map (K:=K) (V:=V) fuel parallelism access ⇓ inr err
  | None => ∃ c, visit_map fuel parallelism access ⇓ inl c ∧ cache_ok c ∧ quiescent c ∧ unbounded c ∧
      cache_contents c = list_to_map (reverse kvs)
  end.
Proof.
  intros Hp Hmod Hlen Hy Hf.
  destruct (visit_map_ok parallelism access kvs r fuel Hp Hmod Hlen Hy Hf) as (c & ? & ? & ? & Hcont & Hrun).
  destruct r as [err|]; [done|]. exists c. split_and!; [done..|]. by rewrite Hcont, foldl_insert_last.
Qed.

(** C19. The round trip: a cache that was serialized is deserialized with the
    same contents (without its capacity and its eviction state). *)
Theorem serde_round_trip `{!MapFormatSpec K V} parallelism c c' d fuel :
  cache_ok c → readable c → Z.of_nat (size (cache_contents c)) < usize_mod →
  1 ≤ parallelism → 32 * parallelism ≤ usize_mod →
  serialize c ⇓ (c', inl d) → (size (cache_contents c) < fuel)%nat →
  c' = c ∧ ∃ c2, deserialize fuel parallelism d ⇓ inl c2 ∧ cache_ok c2 ∧ quiescent c2 ∧ unbounded c2 ∧
    cache_contents c2 = cache_contents c.
Proof.
  intros Hc Hread Hsz Hp Hmod Hser Hf. rewrite serialize_run in Hser by done. injection Hser as <- Hd.
  split; [done|]. pose proof (iter_order_contents c Hc) as Hord.
  destruct (read_back (iter_order c) d) as (access & kvs & Hkvs & Hy & Hdes); [|done|].
  { rewrite Hord. apply NoDup_fst_map_to_list. }
  assert (Hlen : length kvs = size (cache_contents c)) by by rewrite Hkvs, Hord, length_map_to_list.
  destruct (visit_map_ok parallelism access kvs None fuel) as (c2 & ? & ? & ? & Hcont & Hrun); [done|done|lia|done|lia|].
  exists c2. unfold deserialize. rewrite Hdes. split_and!; [done..|].
  rewrite Hcont, foldl_insert_list by (done || (rewrite Hkvs, Hord; apply NoDup_fst_map_to_list)).
  rewrite (right_id_L ∅ (∪)), <-(list_to_map_to_list (cache_contents c)). apply list_to_map_proper.
  - rewrite Hkvs, Hord. apply NoDup_fst_map_to_list.
  - by rewrite Hkvs.
Qed.
End theorems.

(** ** A format, and evaluated instances *)

(** Documents are lists of pairs; negative values cannot be written. *)
Module ListFormat.
Definition put_entry (m : list (Z * Z)) (kv : Z * Z) : list (Z * Z) + unit :=
  if kv.2 <? 0 then inr tt else inl (m ++ [kv]).

Definition take_entry (a : list (Z * Z)) : (option (Z * Z) + unit) * list (Z * Z) :=
  match a with [] => (inl None, []) | kv :: a => (inl (Some kv), a) end.

#[global] Instance list_format : MapFormat Z Z := {|
  document := list (Z * Z);
  ser_error := unit;
  ser_map := list (Z * Z);
  serialize_map _ := inl [];
  serialize_entry := put_entry;
  serialize_end := inl;
  de_error := unit;
  map_access := list (Z * Z);
  next_entry := take_entry;
  deserialize_map _ d visit := visit d
|}.

Definition access (kvs : list (Z * Z)) : @map_access Z Z list_format := kvs.
Definition doc (kvs : list (Z * Z)) : @document Z Z list_format := kvs.

Lemma written (m : list (Z * Z)) kvs d :
  fold_pairs put_entry m kvs = inl d → d = m ++ kvs.
Proof.
  revert m. induction kvs as [|kv kvs IH]; intros m; cbn; [intros [= <-]; by rewrite app_nil_r|].
  unfold put_entry at 1. destruct (kv.2 <? 0); [done|]. intros ->%IH. by rewrite <-app_assoc.
Qed.

Lemma list_yields (kvs : list (Z * Z)) : yields (access kvs) kvs None.
Proof. induction kvs as [|kv kvs IH]; [by eapply yields_end|by eapply yields_entry]. Qed.

#[global] Instance list_format_spec : MapFormatSpec Z Z.
Proof.
  intros kvs d _. unfold write_map. cbn [serialize_map list_format]. rewrite fold_entries.
  destruct (fold_pairs _ _ _) as [m|] eqn:Hf; [|done]. intros [= <-].
  apply written in Hf as ->. exists (access kvs), kvs. split_and!; [done|apply list_yields|done].
Qed.
End ListFormat.

Section instances.
Import Concrete ListFormat.

Lemma visit_map_result_witness :
  ∃ c : NeoCache Z Z, visit_map 4 1 (access [(1, 10); (2, 20); (1, 11)]) ⇓ inl c ∧
    cache_contents c = list_to_map [(1, 11); (2, 20); (1, 10)].
Proof.
  destruct (visit_map_result 1 (access [(1, 10); (2, 20); (1, 11)])
    [(1, 10); (2, 20); (1, 11)] None 4)
    as (c & Hrun & _ & _ & _ & Hcont); [done|by vm_compute| |apply list_yields| |].
  - by vm_compute.
  - cbn. lia.
  - exists c. split; [exact Hrun|exact Hcont].
Defined.

Lemma serde_round_trip_witness :
  ∃ (d : document Z Z) (c2 : NeoCache Z Z), serialize demo_cache ⇓ (demo_cache, inl d) ∧
    deserialize 2 1 d ⇓ inl c2 ∧ cache_contents c2 = cache_contents demo_cache.
Proof.
  destruct demo_cache_ok as (Hc & Hq & Hm).
  assert (Hser : serialize demo_cache ⇓ (demo_cache, inl (doc [(1, 10)]))) by by vm_compute.
  destruct (serde_round_trip 1 demo_cache demo_cache (doc [(1, 10)]) 2 Hc (quiescent_readable _ Hq))
    as (_ & c2 & Hrun & _ & _ & _ & Hcont); [by rewrite Hm; vm_compute|done|by vm_compute|exact Hser| |].
  - rewrite Hm, map_size_singleton. lia.
  - exists (doc [(1, 10)]), c2. split; [exact Hser|]. split; [exact Hrun|exact Hcont].
Defined.
End instances.
