(* ===== verification/ApiTheorems.v ===== *)
(** * ApiTheorems: the contracts of the [Map] trait and of the public interface

    What an implementation of [Map] promises ([MapSpec]), that the provided
    methods of the trait are correct for every such implementation, that
    [NeoCache] is one, and that sequences of public calls refine the abstract
    map of Api. *)

From stdpp Require Import base gmap list.
From S2P Require Import Prelude Machine Lock RawTable Util Shard ShardOps ShardModel ShardSim.
From S2P Require Import Evict Safety Exact ShardSpec TryResult Cache Guards Entry Iter MapTrait.
From S2P Require Import CacheSpec CacheEffects IterSpec Api Concrete.

Open Scope Z_scope.

(** ** The contract of the trait *)

Section contract.
Context {K V : Type} `{Countable K} `{!BuildHasher K} `{!Target}.
Context `{!RawTable (K * CacheEntry V)} `{!RawTableSpec (K * CacheEntry V)}.

(** What the provided methods need of the required ones: [map_get] returns a
    guard exactly on a stored key, and dropping it makes the map ready again;
    [map_retain] visits every pair once; [map_len] counts the pairs. *)
Class MapSpec (M : Type) `{!Map K V M} := {
  map_ready : M → Prop;
  map_contents : M → gmap K V;
  map_get_spec k m :
    map_ready m →
    ∃ m' r, map_get k m ⇓ (m', r) ∧
      match r with
      | Some g => is_Some (map_contents m !! k) ∧
          ∃ m2, map_drop_read (ref_shard g) m' ⇓ m2 ∧ map_ready m2 ∧ map_contents m2 = map_contents m
      | None => map_contents m !! k = None ∧ map_ready m' ∧ map_contents m' = map_contents m
      end;
  map_retain_spec St (f : St → K → V → St * (V * bool)) st m :
    map_ready m →
    ∃ kvs m', kvs ≡ₚ map_to_list (map_contents m) ∧
      map_retain f st m ⇓ (m', (retain_pairs f st kvs).1) ∧ map_ready m' ∧
      map_contents m' = list_to_map (retain_pairs f st kvs).2;
  map_len_spec m : map_ready m → map_len m ⇓ (m, Z.of_nat (size (map_contents m)))
}.

(** C24. The provided methods of the trait, for every implementation of the
    required ones: [_contains_key] tells whether the key is stored and leaves
    no lock behind, [_clear] removes everything, [_is_empty] compares the
    contents with the empty map. *)
Theorem provided_methods {M} `{!Map K V M} `{!MapSpec M} (m : M) (k : K) :
  map_ready m →
  (∃ m', map_contains_key k m ⇓ (m', bool_decide (is_Some (map_contents m !! k))) ∧
     map_ready m' ∧ map_contents m' = map_contents m) ∧
  (∃ m', map_clear m ⇓ m' ∧ map_ready m' ∧ map_contents m' = ∅) ∧
  map_is_empty m ⇓ (m, bool_decide (map_contents m = ∅)).
Proof.
  intros Hm. split_and!.
  - unfold map_contains_key. destruct (map_get_spec k m Hm) as (m' & r & -> & Hcase). cbn.
    destruct r as [g|].
    + destruct Hcase as (Hk & m2 & -> & Hm2 & Hc2). exists m2. by rewrite bool_decide_eq_true_2.
    + destruct Hcase as (Hk & Hm' & Hc'). exists m'. split_and!; [|done..]. rewrite bool_decide_eq_false_2; [done|].
      by apply eq_None_not_Some.
  - unfold map_clear. destruct (map_retain_spec _ (λ st _ v, (st, (v, false))) tt m Hm)
      as (kvs & m' & _ & -> & Hm' & Hc'). exists m'. split_and!; [done..|]. rewrite Hc'.
    enough (∀ kvs, (retain_pairs (λ (st : unit) (_ : K) v, (st, (v, false))) tt kvs).2 = []) as -> by done.
    clear. induction kvs as [|[k v] kvs IH]; [done|]. cbn. by destruct (retain_pairs _ _ kvs).
  - unfold map_is_empty. rewrite map_len_spec by done. cbn. do 2 f_equal.
    apply eq_bool_prop_intro. rewrite bool_decide_spec, Is_true_true, Z.eqb_eq.
    rewrite <-map_size_empty_iff. lia.
Qed.

(** [NeoCache] keeps the contract. *)
#[global] Program Instance neo_map_spec : MapSpec (NeoCache K V) := {|
  map_ready c := api_ready 0 c;
  map_contents := cache_contents
|}.
Next Obligation.
  intros k c Hr. pose proof (ready_ok _ _ Hr) as Hc.
  destruct (quiescent_unlocked c k Hc (ready_free _ _ Hr)) as (l & Hl & Hw).
  destruct (get_then_drop c k l _ Hc Hl (unlocked_readable c k l Hl Hw)) as (c1 & r & Hget & Hcase).
  assert (Hready : ∀ c2, looked_up k (lock_word l) c c2 → api_ready 0 c2 ∧ cache_contents c2 = cache_contents c).
  { intros c2 [Hc2 Hsame Hcont Hw2]. rewrite Hw in Hw2. split; [|done].
    destruct Hr as [_ Hq Hu Hb], (same_except_params _ _ _ Hsame) as (Hs & Hcap & Hlen).
    constructor; [done|by apply (same_except_quiescent c c2 k)|..]; unfold unbounded; rewrite ?Hcont, Hcap; [done|].
    unfold _shard_count in *. by rewrite Hlen. }
  exists c1, r. split; [done|]. destruct (cache_contents c !! k) as [v|] eqn:Hk.
  - destruct Hcase as (g & c2 & -> & _ & Hd & Hlu). split; [by eexists|]. exists c2.
    split; [done|by apply Hready].
  - destruct Hcase as [-> Hlu]. split; [done|by apply Hready].
Qed.
Next Obligation.
  intros St f st c Hr. destruct (retain_ok f st c (ready_ok _ _ Hr) (ready_free _ _ Hr))
    as (kvs & c' & Hp & Hrun & Hc' & Hq' & (Hs & Hcap & Hlen) & Hcont).
  exists kvs, c'. split_and!; [done..| |done]. destruct Hr as [_ _ Hu Hb].
  assert (Hsz : (size (cache_contents c') ≤ size (cache_contents c))%nat).
  { rewrite <-!(size_dom (D:=gset K)). apply subseteq_size. intros k. rewrite !elem_of_dom, Hcont.
    intros [v Hv]. apply (retained_keys f st kvs); [done|]. apply elem_of_list_to_map_2 in Hv.
    apply list_elem_of_fmap. by exists (k, v). }
  constructor; [done|done|..]; unfold unbounded; rewrite Hcap.
  - intros Hz. specialize (Hu Hz). lia.
  - unfold _shard_count in *. by rewrite Hlen.
Qed.
Next Obligation.
  intros c Hr. apply cache_len_ok; [apply Hr|apply quiescent_readable, Hr|by eapply ready_size].
Qed.

(** ** Sequences of public calls *)

(** C2. Refinement: every sequence of public calls on an unlocked cache
    returns, with replies and contents the abstract map allows (only an
    insertion of a new key into a bounded cache may forget an entry, exactly
    one); the invariant and the parameters of the cache are kept, all locks
    are free again, and a bounded cache holds at most its capacity plus the
    number of shards minus one entries. *)
Theorem api_refines (calls : list (call K V)) (c : NeoCache K V) :
  api_ready (length calls) c →
  ∃ c' rs, run_calls calls c ⇓ (c', rs) ∧
    spec_run (¬ unbounded c) (cache_contents c) calls (cache_contents c') rs ∧
    cache_ok c' ∧ quiescent c' ∧ same_params c c' ∧
    (¬ unbounded c → Z.of_nat (size (cache_contents c')) ≤ cache_capacity c + _shard_count c - 1).
Proof.
  intros Hr. destruct (calls_refine calls 0 c) as (c' & rs & Hrun & Hspec & Hr' & Hp); [by rewrite Nat.add_0_r|].
  exists c', rs. split_and!; [done|done|apply Hr'|apply Hr'|done|]. intros Hu.
  destruct Hp as (_ & Hcap & Hlen). pose proof (ready_ok _ _ Hr') as Hc'.
  assert (0 < cache_capacity c').
  { rewrite Hcap. pose proof (co_capacity _ (ready_ok _ _ Hr)). unfold unbounded, is_usize in *. lia. }
  pose proof (cache_size_bound c' Hc'). pose proof (shard_limit_sum c' Hc').
  unfold _shard_count in *. rewrite Hcap, Hlen in *. lia.
Qed.
(** ** The types of the fields *)

(** Every field of a shard is a value of its Rust type, and the capacities
    split as in [ShardData::new]. *)
Record shard_typed (s : ShardData K V) : Prop := {
  ty_entries x : x ∈ rt_into_iter (smap s) → is_u8 (freq x.2) ∧ is_u8 (loc x.2);
  ty_small_hashes : Forall is_u64 (small_hashes s);
  ty_main_hashes : Forall is_u64 (main_hashes s);
  ty_ghost : set_Forall is_u64 (ghost_set s);
  ty_small_live : is_usize (small_live s);
  ty_main_live : is_usize (main_live s);
  ty_cap : is_usize (shard_cap s);
  ty_small_cap : 0 ≤ small_cap s ≤ shard_cap s;
  ty_main_cap : 0 ≤ main_cap s ≤ shard_cap s;
  ty_ghost_cap : ghost_cap s = shard_cap s
}.

Lemma hashes_u64 (ks : list K) : Forall is_u64 (hash_one <$> ks).
Proof. apply Forall_fmap, Forall_true. intros k. apply hash_one_u64. Qed.

Lemma shard_ok_typed s : shard_ok s → shard_typed s.
Proof.
  intros (a & Hrel & Hi). pose proof (inv_caps _ Hi) as [Hcap Hsc Hgc]. pose proof (inv_range _ Hi) as Hr.
  pose proof (inv_small_live _ Hi). pose proof (inv_main_live _ Hi). unfold live, is_usize in *.
  assert (Hsmall : 0 ≤ m_small_cap a ≤ m_cap a).
  { destruct (decide (m_cap a = 0)) as [Hz|Hz]; [by rewrite Hsc, Hz|].
    pose proof (inv_small_cap _ Hi). lia. }
  constructor; unfold is_usize;
    rewrite ?(rel_small_live _ _ Hrel), ?(rel_main_live _ _ Hrel), ?(rel_main_cap _ _ Hrel), ?(rel_cap _ _ Hrel),
      ?(rel_small_cap _ _ Hrel), ?(rel_ghost_cap _ _ Hrel); try lia.
  - intros [k e]. rewrite (repr_into_iter _ _ (rel_map _ _ Hrel)), elem_of_map_to_list. intros Hk.
    destruct (inv_entry _ _ _ Hi Hk) as [Hf Hl]. unfold is_u8, MAX_FREQ, LOC_SMALL, LOC_MAIN in *. cbn in *. lia.
  - rewrite (rel_small_hashes _ _ Hrel). apply hashes_u64.
  - rewrite (rel_main_hashes _ _ Hrel). apply hashes_u64.
  - rewrite (rel_ghost _ _ Hrel). intros h. apply (inv_ghost_hashes _ Hi).
  - unfold cap_main, saturating_sub. destruct (Z.eqb_spec (m_cap a) 0); lia.
Qed.

Record cache_typed (c : NeoCache K V) : Prop := {
  ty_shift : 0 < shift c < usize_bits;
  ty_capacity : is_usize (cache_capacity c);
  ty_count : is_usize (_shard_count c);
  ty_shards i l : shards c !! i = Some l → is_usize (lock_word l) ∧ shard_typed (lock_data l)
}.

Lemma cache_ok_typed c : cache_ok c → quiescent c → cache_typed c.
Proof.
  intros Hc Hq. destruct (co_geometry _ Hc) as (n & Hn & Hs & Hcnt). constructor.
  - lia.
  - apply Hc.
  - rewrite Hcnt. unfold is_usize, usize_mod. split; [by apply Z.pow_nonneg|].
    apply Z.pow_lt_mono_r; lia.
  - intros i l Hl. rewrite (Hq _ _ Hl). pose proof usize_mod_pos. unfold is_usize.
    split; [lia|]. apply shard_ok_typed, (co_shards _ Hc _ _ Hl).
Qed.

(** C18. Whatever is constructed and whatever public calls are made, every
    field keeps to its Rust type: the shift stays below the width of [usize],
    hashes are [u64], frequencies and locations [u8], and the counters,
    capacities and lock words [usize], so that none of them ever wraps. *)
Theorem public_types cap n (calls : list (call K V)) c c' rs :
  is_usize cap → is_usize n → with_capacity_and_hasher_and_shard_amount cap n ⇓ c →
  (if cap =? 0 then Z.of_nat (length calls) < usize_mod else cap + _shard_count c ≤ usize_mod) →
  run_calls calls c ⇓ (c', rs) → cache_typed c ∧ cache_typed c'.
Proof.
  intros Hcap Hn Hnew Hfit Hrun.
  assert (Hr : api_ready (length calls) c).
  { assert (Hp2 : 1 < n ∧ is_power_of_two n = true).
    { unfold with_capacity_and_hasher_and_shard_amount in Hnew. destruct (Z.gtb_spec n 1); [|done].
      split; [done|]. by destruct (is_power_of_two n). }
    destruct Hp2 as [H1 Hp2].
    destruct (constructor_ok (K:=K) (V:=V) cap n Hcap) as (c0 & p & Hc0 & Hok & Hq & He & Hcc & _);
      [unfold is_usize in Hn; lia|done|].
    rewrite Hnew in Hc0. injection Hc0 as <-. rewrite <-Hcc in Hfit. unfold unbounded.
    constructor; [done..| |]; unfold unbounded; intros Hz.
    - rewrite He, map_size_empty. rewrite Hz in Hfit. cbn in Hfit. lia.
    - destruct (Z.eqb_spec (cache_capacity c) 0); [done|lia]. }
  destruct (calls_refine calls 0 c) as (c1 & rs1 & Hrun1 & _ & Hr1 & _); [by rewrite Nat.add_0_r|].
  rewrite Hrun in Hrun1. injection Hrun1 as <- <-. split; apply cache_ok_typed; first [apply Hr|apply Hr1].
Qed.
End contract.

(** ** Evaluated instances *)

Section instances.
Import Concrete.

Lemma demo_ready n : api_ready n demo_cache.
Proof.
  destruct demo_cache_ok as (Hc & Hq & Hm).
  assert (Hcap : cache_capacity demo_cache = 8) by by vm_compute.
  constructor; [done|done|unfold unbounded; by rewrite Hcap|]. intros _. rewrite Hcap.
  assert (_shard_count demo_cache = 2) as -> by by vm_compute. by vm_compute.
Qed.

Lemma provided_methods_witness :
  ∃ m', map_clear demo_cache ⇓ m' ∧ map_contents m' = ∅.
Proof.
  assert (Hr : map_ready demo_cache) by apply (demo_ready 0).
  destruct (provided_methods demo_cache 1 Hr) as (_ & (m' & Hrun & _ & Hcont) & _).
  exists m'. split; [exact Hrun|exact Hcont].
Defined.

Lemma public_types_witness :
  ∃ c c' rs, with_capacity_and_hasher_and_shard_amount 8 2 ⇓ c ∧
    run_calls [CInsert 1 10; CGet 1; CInsert 2 20] c ⇓ (c', rs) ∧ cache_typed (K:=Z) (V:=Z) c'.
Proof.
  destruct (with_capacity_and_hasher_and_shard_amount (K:=Z) (V:=Z) 8 2) as [c| | | | |] eqn:Hc;
    [|by vm_compute in Hc..].
  destruct (run_calls [CInsert 1 10; CGet 1; CInsert 2 20] c) as [[c' rs]| | | | |] eqn:Hrun;
    [|vm_compute in Hc; injection Hc as <-; by vm_compute in Hrun..].
  exists c, c', rs. split; [reflexivity|]. split; [exact Hrun|].
  apply (public_types 8 2 [CInsert 1 10; CGet 1; CInsert 2 20] c c' rs);
    [split; by vm_compute|split; by vm_compute|exact Hc| |exact Hrun].
  vm_compute in Hc. injection Hc as <-. by vm_compute.
Defined.

Lemma api_refines_witness :
  ∃ c' rs, run_calls [CInsert 2 20; CRemove 1; CLen] demo_cache ⇓ (c', rs) ∧
    spec_run (¬ unbounded demo_cache) (cache_contents demo_cache) [CInsert 2 20; CRemove 1; CLen]
      (cache_contents c') rs.
Proof.
  destruct (api_refines [CInsert 2 20; CRemove 1; CLen] demo_cache (demo_ready _))
    as (c' & rs & Hrun & Hspec & _).
  exists c', rs. split; [exact Hrun|exact Hspec].
Defined.
End instances.
