(* ===== verification/ThreadTheorems.v ===== *)
(** * ThreadTheorems: the cache under concurrent use

    Any number of threads make any calls; locks are taken and released by the
    atomic steps of LockMachine. *)

From stdpp Require Import base gmap list.
From S2P Require Import Prelude Machine Lock LockMachine LockInv RawTable Util Shard ShardOps ShardModel ShardSim.
From S2P Require Import Evict Safety Exact ShardSpec TryResult Cache Guards Entry Iter MapTrait Threads ThreadLocks.
From S2P Require Import CacheSpec CacheEffects EntrySpec IterSpec ThreadInv ThreadSteps ThreadProgress ThreadFinish Api Jobs JobSpec.
From S2P Require Import JobRuns Concurrent ConcurrentSim SweepSpec Concrete ApiTheorems.

Open Scope Z_scope.

Section threads.
Context {K V : Type} `{Countable K} `{!BuildHasher K} `{!Target}.
Context `{!RawTable (K * CacheEntry V)} `{!RawTableSpec (K * CacheEntry V)}.
Implicit Types (c : NeoCache K V) (todos : list (list (job K V))) (j : job K V) (k : K) (v : V).
Implicit Types (σ : config K V (job K V) (job_reply K V)) (evs : list (tevent (job K V) (job_reply K V))).

(** C3. Refinement: whatever the threads call and however their steps are
    interleaved, the calls, critical sections and returns are those of one
    shared abstract map: a call on one key takes effect atomically at its
    section, between call and return, as the sequential interface specifies
    it; a non-blocking call may fail as [Locked] without effect; a call over
    all shards visits them in order, each atomically. The pairs in the shards
    are the abstract map. *)
Theorem concurrent_refines c todos evs σ :
  api_ready (S (length (concat todos))) c → Z.of_nat (length todos) + 1 < max_readers →
  exec (job_plan c) (start c todos) evs σ →
  ∃ z, sexec (shard_part c) (length (shards c)) (¬ unbounded c) (sstart c todos) evs z ∧
    s_map z = cache_contents (as_cache c (data σ)) ∧
    ∀ t todo, threads σ !! t = Some (todo, Rest) → s_threads z !! t = Some (todo, None).
Proof.
  intros Hr Hn Hex. destruct (exec_spec c todos Hr Hn evs σ Hex) as (z & Hz & Hrel).
  exists z. split_and!; [done|apply Hrel|]. intros t todo. by apply (srel_rest c todos).
Qed.

(** C4. Safety: at every moment of every interleaving the shards satisfy the
    invariant of the cache, a bounded cache holds at most its capacity plus
    the number of shards minus one entries, the next step of every thread
    waits or returns (no undefined behaviour, no panic), and no thread is
    about to access a shard that another one is about to write. *)
Theorem race_free c todos evs σ :
  api_ready (S (length (concat todos))) c → Z.of_nat (length todos) + 1 < max_readers →
  exec (job_plan c) (start c todos) evs σ →
  cache_ok (as_cache c (data σ)) ∧
  (¬ unbounded c → Z.of_nat (size (cache_contents (as_cache c (data σ)))) ≤ cache_capacity c + _shard_count c - 1) ∧
  (∀ t ch, cstep (job_plan c) t ch σ = Blocked ∨ ∃ r, cstep (job_plan c) t ch σ ⇓ r) ∧
  (∀ t u i todo todo' x y, threads σ !! t = Some (todo, x) → threads σ !! u = Some (todo', y) →
     writes x i → accesses y i → t = u).
Proof.
  intros Hr Hn Hex. destruct (exec_inv c todos Hr Hn evs σ Hex) as [[crs Hi] _].
  pose proof (ready_ok _ _ (cinv_ready c todos Hr crs σ Hi)) as Hok.
  split_and!; [done| | |].
  - intros Hu. destruct (as_cache_params c (data σ) (cinv_data c todos crs σ Hi)) as (_ & Hcap & Hlen).
    pose proof (co_capacity _ Hok) as Hus. unfold unbounded, is_usize in *.
    pose proof (cache_size_bound _ Hok). pose proof (shard_limit_sum _ Hok). unfold _shard_count in *. rewrite Hcap, Hlen in *. lia.
  - intros t ch. destruct (cstep_good (job_plan c) c (job_bound c todos) (job_credit c) (bounded_size c todos)
      (jobs_safe c todos Hr) crs σ t ch Hi) as [Hb|(σ' & e & _ & Hret & _)]; [by left|right; by eexists].
  - intros t u i todo todo' x y Ht Hu Hx Hy. by eapply no_race.
Qed.

(** C5. Liveness: no interleaving of the threads leads into a deadlock: as
    long as a thread has work left, some thread can take a step, and from
    every state that can be reached some schedule lets all threads complete
    all their jobs. *)
Theorem deadlock_free c todos evs σ :
  api_ready (S (length (concat todos))) c → Z.of_nat (length todos) + 1 < max_readers →
  exec (job_plan c) (start c todos) evs σ →
  (finished σ ∨ ∃ t ch r, cstep (job_plan c) t ch σ ⇓ r) ∧
  ∃ evs' σ', exec (job_plan c) σ evs' σ' ∧ finished σ'.
Proof.
  intros Hr Hn Hex. destruct (exec_inv c todos Hr Hn evs σ Hex) as [[crs Hi] _]. split.
  - eapply progress; [apply bounded_size|by apply jobs_safe|exact Hi].
  - eapply can_finish; [apply bounded_size|by apply jobs_safe|exact Hi].
Qed.

(** C9. Equivalence: on a cache nobody else uses, the critical sections of a
    plan, run one after the other, leave the shards and give the reply of the
    operation of the library it stands for (locks, guards and iterators
    included). *)
Theorem plan_alone c j :
  api_ready 1 c →
  ∃ p d' r c', job_plan c j ⇓ p ∧ alone p (shard_data c) d' r ∧
    run_job j c ⇓ (c', r) ∧ shard_data c' = d' ∧ quiescent c'.
Proof.
  intros Hr. pose proof (as_cache_id c (ready_free _ _ Hr)) as Hid.
  assert (Hd : data_ok c (shard_data c)).
  { split; [apply length_fmap|]. intros i s (l & -> & Hl)%list_lookup_fmap_Some.
    by apply inv_at_lock, (co_shards _ (ready_ok _ _ Hr)). }
  destruct (job_agrees c (ready_ok _ _ Hr) _ Hd j) as (p & d' & r & Hp & Hal & Hrun); [by rewrite Hid|].
  exists p, d', r, (as_cache c d'). rewrite Hid in Hrun. split_and!; [done..|apply shard_data_as|apply as_cache_quiescent].
Qed.

(** C10. An iteration that runs while other threads change the cache yields no
    key twice; a pair that is in the cache all the time is yielded, and one
    that is never there is not. *)
Theorem iteration_consistent c todos evs0 σ0 t todo k v (Q : Prop) evs σ :
  api_ready (S (length (concat todos))) c → Z.of_nat (length todos) + 1 < max_readers →
  exec (job_plan c) (start c todos) evs0 σ0 → threads σ0 !! t = Some (JCollect :: todo, Rest) →
  exec_in (job_plan c) (λ σ, cache_contents (as_cache c (data σ)) !! k = Some v ↔ Q) σ0 evs σ →
  threads σ !! t = Some (todo, Rest) →
  ∃ kvs, EvReturn t (JPairs kvs) ∈ evs ∧ NoDup kvs.*1 ∧ ((k, v) ∈ kvs ↔ Q).
Proof.
  intros Hr Hn Hex Ht Hin Hend.
  destruct (iteration_phase c todos Hr Hn evs0 σ0 t todo k v Q evs σ Hex Ht Hin) as (z & th & Hrel & Hz & Hph).
  rewrite (srel_rest c todos σ z t todo Hrel Hend) in Hz. injection Hz as <-.
  destruct Hph as [[= Heq]|[(i & seen & [=] & _)|[[_ Hkvs]|Hlt]]]; [|done|cbn in Hlt; lia].
  apply (f_equal length) in Heq. cbn in Heq. lia.
Qed.
End threads.

(** ** Evaluated instances *)

Section instances.
Import Concrete.

(** Two threads, stepped in turns and waking each other: the first inserts and
    iterates, the second tries to write, reads and changes all values. *)
Definition demo_todos : list (list (job Z Z)) :=
  [[JCall (CInsert 2 20); JCollect]; [JTryPut 1 11; JCall (CGet 2); JCall (CAlterAll (λ _ v, v + 1))]].

Definition demo_schedule (n : nat) : list (nat * choice) :=
  concat (replicate n [(0%nat, Go); (1%nat, Go); (0%nat, Wake 1); (1%nat, Wake 0)]).

Definition demo_interleaving (n : nat) : outcome (config Z Z (job Z Z) (job_reply Z Z) * list (tevent (job Z Z) (job_reply Z Z))) :=
  run_schedule (job_plan demo_cache) (demo_schedule n) (start demo_cache demo_todos).

Lemma demo_exec n σ evs : demo_interleaving n ⇓ (σ, evs) → exec (job_plan demo_cache) (start demo_cache demo_todos) evs σ.
Proof. intros Hrun. by apply (run_schedule_exec _ (demo_schedule n) _ [] (start demo_cache demo_todos)); [constructor|]. Qed.

(** What an evaluated run ends with. *)
Lemma run_check {A} (f : A → bool) (o : outcome A) :
  match o with Ret x => f x | _ => false end = true → ∃ x, o ⇓ x ∧ f x = true.
Proof. destruct o as [x| | | | |]; try done. intros Hx. by exists x. Qed.

Definition returned (t : nat) (check : job_reply Z Z → bool) (evs : list (tevent (job Z Z) (job_reply Z Z))) : bool :=
  existsb (λ e, match e with EvReturn u r => (u =? t)%nat && check r | _ => false end) evs.

Lemma returned_in t check evs : returned t check evs = true → ∃ r, EvReturn t r ∈ evs ∧ check r = true.
Proof.
  intros ([| |u r] & Hin & Hc)%existsb_exists; try done. apply andb_true_iff in Hc as [->%Nat.eqb_eq Hc].
  exists r. split; [by apply list_elem_of_In|done].
Qed.

(** The second thread fails to get the lock of the shard the first one
    inserts 2 into, and reads 2 afterwards. *)
Lemma concurrent_refines_witness :
  ∃ evs σ z, exec (job_plan demo_cache) (start demo_cache demo_todos) evs σ ∧
    (∃ r, EvReturn 1 r ∈ evs ∧ match r with JTry Locked => true | _ => false end = true) ∧
    (∃ r, EvReturn 1 r ∈ evs ∧ match r with JReply (RValue (Some 20)) => true | _ => false end = true) ∧
    sexec (shard_part demo_cache) (length (shards demo_cache)) (¬ unbounded demo_cache) (sstart demo_cache demo_todos) evs z.
Proof.
  destruct (run_check (λ x, returned 1 (λ r, match r with JTry Locked => true | _ => false end) x.2 &&
    returned 1 (λ r, match r with JReply (RValue (Some 20)) => true | _ => false end) x.2) (demo_interleaving 60))
    as ([σ evs] & Hrun & [Hr1%returned_in Hr2%returned_in]%andb_true_iff); [by vm_compute|].
  assert (Hex := demo_exec 60 σ evs Hrun).
  destruct (concurrent_refines demo_cache demo_todos evs σ (demo_ready _)) as (z & Hz & _); [by vm_compute|exact Hex|].
  exists evs, σ, z. split; [exact Hex|]. split; [exact Hr1|]. split; [exact Hr2|exact Hz].
Defined.

(** The first thread is about to write, the second waits for the same lock. *)
Lemma race_free_witness :
  ∃ evs σ, exec (job_plan demo_cache) (start demo_cache demo_todos) evs σ ∧
    (∃ todo k i, threads σ !! 0%nat = Some (todo, k) ∧ writes k i) ∧ cache_ok (as_cache demo_cache (data σ)).
Proof.
  destruct (run_check (λ x, match threads x.1 !! 0%nat with Some (_, Body (Write _ _ _ _)) => true | _ => false end) (demo_interleaving 2))
    as ([σ evs] & Hrun & Hat); [by vm_compute|].
  assert (Hex := demo_exec 2 σ evs Hrun).
  destruct (race_free demo_cache demo_todos evs σ (demo_ready _)) as (Hok & _); [by vm_compute|exact Hex|].
  exists evs, σ. split; [exact Hex|]. split; [|exact Hok]. cbn in Hat.
  destruct (threads σ !! 0%nat) as [[todo [| | | |[|busy hold i body| |]| |]]|]; try discriminate Hat.
  exists todo, (Body (Write busy hold i body)), i. split; reflexivity.
Defined.

Lemma deadlock_free_witness :
  ∃ evs σ, exec (job_plan demo_cache) (start demo_cache demo_todos) evs σ ∧
    (∃ j todo k, threads σ !! 0%nat = Some (j :: todo, k)) ∧
    ∃ evs' σ', exec (job_plan demo_cache) σ evs' σ' ∧ finished σ'.
Proof.
  destruct (run_check (λ x, match threads x.1 !! 0%nat with Some (_ :: _, _) => true | _ => false end) (demo_interleaving 3))
    as ([σ evs] & Hrun & Hat); [by vm_compute|].
  assert (Hex := demo_exec 3 σ evs Hrun). cbn in Hat.
  destruct (deadlock_free demo_cache demo_todos evs σ (demo_ready _)) as [_ Hend]; [by vm_compute|exact Hex|].
  exists evs, σ. split; [exact Hex|]. split; [|exact Hend].
  destruct (threads σ !! 0%nat) as [[[|j todo] k]|]; [discriminate Hat| |discriminate Hat].
  exists j, todo, k. reflexivity.
Defined.

Lemma plan_alone_witness :
  ∃ p d' r c', job_plan demo_cache (JOrInsert 2 20) ⇓ p ∧ alone p (shard_data demo_cache) d' r ∧
    run_job (JOrInsert 2 20) demo_cache ⇓ (c', r).
Proof.
  destruct (plan_alone demo_cache (JOrInsert 2 20) (demo_ready _)) as (p & d' & r & c' & Hp & Hal & Hrun & _).
  exists p, d', r, c'. split; [exact Hp|]. split; [exact Hal|exact Hrun].
Defined.

(** The pair of key 1 is there all the time: the iteration yields it. *)
Lemma iteration_consistent_witness :
  ∃ (evs : list (tevent (job Z Z) (job_reply Z Z))) kvs, EvReturn 1 (JPairs kvs) ∈ evs ∧ NoDup kvs.*1 ∧ (1, 10) ∈ kvs.
Proof.
  set (todos := [[JCall (CInsert 2 20); JCall (CRemove 2)]; [JCollect]] : list (list (job Z Z))).
  set (σ0 := start demo_cache todos). set (sched := demo_schedule 40).
  set (check := λ σ : config Z Z (job Z Z) (job_reply Z Z),
    bool_decide (cache_contents (as_cache demo_cache (data σ)) !! 1 = Some 10)).
  destruct (run_check (λ x, match threads x.1 !! 1%nat with Some ([], Rest) => true | _ => false end)
    (run_schedule (job_plan demo_cache) sched σ0)) as ([σ evs] & Hrun & Hat); [by vm_compute|].
  destruct (iteration_consistent demo_cache todos [] σ0 1 [] 1 10 True evs σ (demo_ready _)) as (kvs & Hin & Hnd & Hkv).
  - by vm_compute.
  - constructor.
  - reflexivity.
  - assert (Hcheck : ∀ σ, check σ = true → cache_contents (as_cache demo_cache (data σ)) !! 1 = Some 10 ↔ True).
    { intros σ1 Hc. split; [done|]. intros _. by apply bool_decide_eq_true in Hc. }
    apply (run_schedule_in _ _ check sched σ0 [] σ0); [exact Hcheck| |by vm_compute|exact Hrun].
    constructor. apply Hcheck. by vm_compute.
  - cbn in Hat. by destruct (threads σ !! 1%nat) as [[[] []]|].
  - exists evs, kvs. split; [exact Hin|]. split; [exact Hnd|by apply Hkv].
Defined.
End instances.
